(* ===== verification/_CoqProject ===== *)
-Q . S2P
Prelude.v
Bytes.v
Ids.v
Authority.v
Revocation.v
EventTypes.v
Chain.v
Wire.v
Log.v
Policy.v
Egress.v
Http.v
Gateway.v
Manifest.v
Actions.v
Approvals.v
Hold.v
HoldRuns.v
Pause.v
Session.v
SessionLogic.v
SessionInv.v
SessionSafety.v
SessionRuns.v
Snapshot.v
Cas.v
Ignore.v
Capture.v
Sweep.v
Retention.v
Materialize.v
Release.v
NodeState.v
Admission.v
Task.v
Registry.v
Lifecycle.v
Bounds.v
Recovery.v
Answers.v
Provenance.v
NodeExample.v
