(* ===== verification/Prelude.v ===== *)
(** * WardOS: a verification development

    WardOS runs coding agents in capsules under delegated authority.  The parts whose
    decisions are its guarantees are modelled here:

    - an event log: every decision is a record of a hash chain, framed on the wire and
      appended to one file per session ([crates/ward-events]);
    - authority: leases that name their grants exactly, delegated only downwards, and revoked
      by facts that converge ([crates/ward-authority]);
    - policy: three layers merged into one capability manifest ([crates/ward-policy]), and the
      egress proxy that enforces its network part, parses requests, injects credentials and
      holds requests until they are approved ([crates/ward-proxy], the action channel of
      [ward-node/src/actions.rs]);
    - the session daemon: approvals and temporary grants, and the life of a session: launches,
      pauses, captures, stops, crashes and restarts ([crates/ward-daemon]);
    - snapshots: capturing a tree into a content-addressed store, copying, sweeping and
      materialising it ([crates/ward-snapshot]);
    - the node: it admits signed envelopes ([crates/ward-node-protocol],
      [ward-node/src/admit.rs]), remembers what it admitted, revoked and retired across
      restarts ([state.rs]), and takes each task through its lifecycle ([task.rs]);
    - updates: which release may replace the installed one ([crates/ward-release-verify]).

    They meet as follows.  An envelope carries an authority chain (Authority), whose
    revocations are consulted at admission and again at every start (Revocation); its
    manifest names hosts that the attempt's proxy must enforce (Manifest, Egress); what the
    node decides is appended to the evidence log (Chain, Wire, Log).  A capture holds its
    session paused (Pause, Session) while the walk stores the tree (Capture, Cas).

    ** Files

    - Prelude: the [result] of fallible code, bounded machine arithmetic ([checked_add],
      [saturating_add]), list and option lemmas, the tactics [res_inv] and [bool_inv].
    - Bytes: [u8] and [str] as lists of bytes.
    - Ids: digests, ULIDs and textual identifiers ([ward-events/src/ids.rs]).
    - EventTypes: origins, event kinds and their bitmask sets ([origin.rs], [event.rs]).
    - Chain, Wire, Log: the hash chain, the frames and filters, and the session log
      ([chain.rs], [wire.rs], [log.rs]).
    - Authority, Revocation: leases, delegation, lineages and revocation facts
      ([ward-authority/src/lib.rs], [revocation.rs]).
    - Policy, Egress: the capability lattice and merge; host and address decisions
      ([ward-policy/src], [ward-proxy/src/addr.rs], [policy.rs], the host parser of [http.rs]).
    - Http, Gateway: request heads, framing and the chunk tracker; credential routes, the
      rewritten head and what a connection does ([http.rs], [gateway.rs], [proxy.rs]).
    - Actions: the requests an attempt's proxy holds until a client answers
      ([ward-node/src/actions.rs]).
    - Manifest: manifests, workloads and envelopes ([ward-node-protocol/src]).
    - Approvals, Hold, HoldRuns: questions, remembered answers and temporary grants of a
      session; the threads that wait and answer as a step relation; runs of it
      ([ward-daemon/src/approvals.rs], [daemon.rs]).
    - Pause, Session: the markers and intents of a session's directory and the registered
      launches; every request that changes its state, and the restart
      ([ward-daemon/src/pause.rs], [launches.rs], [daemon.rs]).
    - SessionLogic, SessionInv, SessionSafety, SessionRuns: rules for what a request leaves
      behind wherever it stops; each request keeps the invariant; the theorems; runs.
    - Snapshot, Cas, Ignore, Capture, Sweep, Materialize: manifests and ids; the store; ignore
      rules; the walk; garbage collection beside captures and copies; writing a tree back
      ([ward-snapshot/src/manifest.rs], [cas.rs], [ignore.rs], [capture.rs], [gc.rs],
      [transfer.rs], [materialize.rs]).
    - Retention: the roots of the daemon's sweeps ([ward-daemon/src/retention.rs]).
    - Release: versions, the anti-rollback floor and the pinned identity
      ([ward-release-verify/src]).
    - NodeState, Admission: durable state, trust store, placement and the admission checks
      ([ward-node/src/state.rs], [issuer.rs], [capsule.rs], [admission.rs], [admit.rs]).
    - Task, Registry: one task with its record, and the registry's verbs in a state and error
      monad ([task.rs], [records.rs], [scheduling.rs], [workspace.rs], [execution.rs]).
    - Lifecycle, Bounds, Recovery, Answers, Provenance: the theorems about the registry, each
      file one point of view on its steps.
    - NodeExample: a concrete node and task, at which those theorems are applied.

    ** What is shown

    - The registry refines the documented task lifecycle, whatever the order of requests,
      exits and failures (Lifecycle); it runs no attempt twice, holds no more tasks and runs
      no more attempts than configured, and recovers every task after a restart in the state its record says (Bounds,
      Recovery); its replies say what happened and its verbs are idempotent (Answers); and
      nothing is spawned without a verified, current, unrevoked admission (Provenance).
    - Admission accepts only what a trusted issuer signed for this node, task and attempt, no
      version twice and nothing revoked, across restarts (Admission, NodeState).
    - Delegation attenuates, revocation is permanent and order-independent, and a usable lease
      is backed by its whole lineage (Authority, Revocation).
    - The chain is tamper-evident up to a hash collision, the reader returns exactly the whole
      records after a crash, and frames decode to what was encoded under any chunking of the
      stream (Chain, Wire, Log).
    - The merge never widens, the proxy connects only to addresses it checked, and the node's
      host test is the proxy's (Policy, Egress, Manifest).
    - A credential goes only to its own route and leaks nowhere else, the rewritten head is one
      request, and the chunk tracker recognises exactly the chunked bodies; a Connection field
      that names the framing breaks it (Gateway, Http).
    - A held request passes only after its approval, every request is answered, and the
      channel's records are bounded (Actions).
    - A question of a session is settled once and as its user answered, waits end, revocation
      is final, and grants are well formed under any interleaving; a remembered answer can lose
      its record (Hold, HoldRuns).
    - A stop ends every process that it finds for good, and its kill loop accounts for each of
      them; a held session is closed to launches and approvals, and stopped processes are
      accounted for unless a marker could not be written or a thaw missed one, wherever the
      daemon dies and whatever else fails; and the directory agrees with the daemon while
      nothing failed.  Two crashes break what the code promises of a capture's hold
      (SessionSafety, SessionRuns).
    - A snapshot's id names its tree, what is captured comes back when it is materialised, a
      digest without a store agrees with a capture, a capture keeps to its budget, and no sweep
      takes a snapshot that a session, an attempt, evidence or a mark retains, or that is young;
      a sweep can take a blob of a capture that began after its plan, or the snapshots of a
      session whose metadata does not load, and a path with a dot segment can be written through
      a link (Snapshot, Capture, Sweep, Retention, Materialize).  The wildcard matcher decides its patterns
      (Ignore).
    - The anti-rollback floor refuses exactly the older versions, by the precedence of Semantic
      Versioning, unless the user overrides it, and no chain of accepted updates leads back
      (Release).

    ** Parameters

    BLAKE3, Ed25519, postcard, [serde_json], the DNS resolver and the adapter catalogue are
    arguments of the definitions that call them.  The codecs come as classes with their
    round-trip laws ([Postcard], [Codec]); nothing is assumed of the digests and signatures:
    a theorem names the accepted signature or the two values that collide, or has as a
    hypothesis that the values it hashes do not collide among themselves ([collision_free] of
    Materialize).  Each class has an
    instance that the witnesses evaluate.

    ** Effects and failures

    What the host answers to a write, a spawn, a freeze or a clock reading is an argument of
    the operation ([Outcome], [Io], [WalkIo], [HostIo]), so every failure has its branch; a
    failed write may or may not have reached the disk.  The registry's lock makes each verb one
    step; [stop] and [revoke] are two steps around the wait for the reaper, and requests, exits
    and restarts interleave freely in the step relation.  A crash between two writes of one
    verb is covered where the later write is one that fails without landing.  In the session
    daemon the answers of the host are a list that a request consumes one by one; each says
    whether the call succeeds (for a thaw or a kill, whose errors the code drops: whether it
    reached every stopped process), or the daemon dies in it, and how much of it landed, and a
    request also dies where its answers end: a crash at every point of every request is a run.
    Captures, copies and sweeps interleave file by file.

    ** Bounds and fuel

    Machine integers are [Z] with their width's maximum written where the code can reach it.
    [read_all] and [verify_all] take a fuel that any number above the bytes of the file
    suffices for, as each record has a header; [dec_go] takes the twenty digits of a [u64] and
    [oct_go] the eleven octal ones of a [u32].  The chunk tracker's [feed] has twice its input
    and one more, [pop_to] the length of the text it shortens, [between] the entries of both
    manifests, and [seg_match] a product of the lengths that its lexicographic measure stays
    below; each is proved to be enough where a theorem needs it.

    ** Not modelled

    Threads, sockets, TLS and process launching; the JSON and postcard syntaxes; credential
    leases, adapter claims and network tallies of a running attempt; the parts of
    [ward-daemon] that derive and render events, serve clients and run verification;
    [ward-cli], [ward-node-client], [ward-credentials], [ward-sandbox] and the desktop shell;
    the git context of a snapshot and the usage reports of its store.  They perform effects
    around the decisions above or present them. *)

From stdpp Require Import base numbers option gmap sorting strings list.
#[export] Set Default Goal Selector "!".

(** ** Results

    [Result<A, E>] of the Rust sources.  The error type comes first so that
    [result E] is a functor in its value and [?] is stdpp's [mbind]. *)
Inductive result (E A : Type) : Type :=
| Ok (a : A)
| Err (e : E).
Arguments Ok {E A} a.
Arguments Err {E A} e.

#[export] Instance result_eq_dec `{EqDecision E, EqDecision A} : EqDecision (result E A).
Proof. solve_decision. Defined.

#[export] Instance result_ret {E} : MRet (result E) := λ A a, Ok a.
#[export] Instance result_bind {E} : MBind (result E) := λ A B f m,
  match m with Ok a => f a | Err e => Err e end.
#[export] Instance result_fmap {E} : FMap (result E) := λ A B f m,
  match m with Ok a => Ok (f a) | Err e => Err e end.

Definition is_ok {E A} (r : result E A) : bool :=
  match r with Ok _ => true | Err _ => false end.

(** [if c { return Err(e) }] *)
Definition fail_if {E} (c : bool) (e : E) : result E unit :=
  if c then Err e else Ok tt.

(** [Option::ok_or] *)
Definition ok_or {E A} (o : option A) (e : E) : result E A :=
  match o with Some a => Ok a | None => Err e end.

(** [Result::map_err] *)
Definition map_err {E F A} (f : E → F) (r : result E A) : result F A :=
  match r with Ok a => Ok a | Err e => Err (f e) end.

Section result_lemmas.
Context {E : Type}.
Implicit Types e : E.

Lemma bind_Ok {A B} (f : A → result E B) (m : result E A) b :
  m ≫= f = Ok b ↔ ∃ a, m = Ok a ∧ f a = Ok b.
Proof. destruct m; cbn; naive_solver. Qed.

Lemma bind_Ok_l {A B} (f : A → result E B) a : Ok a ≫= f = f a.
Proof. done. Qed.

Lemma check_Ok {B} c e (f : unit → result E B) b :
  fail_if c e ≫= f = Ok b ↔ c = false ∧ f tt = Ok b.
Proof. destruct c; cbn; split; [done|by intros [? _]|done|by intros [_ ?]]. Qed.

Lemma bind_Err {A B} (f : A → result E B) (m : result E A) e :
  m ≫= f = Err e ↔ m = Err e ∨ ∃ a, m = Ok a ∧ f a = Err e.
Proof. destruct m; cbn; naive_solver. Qed.

Lemma fail_if_Ok (c : bool) e u : fail_if c e = Ok u ↔ c = false.
Proof. destruct c, u; cbn; naive_solver. Qed.

Lemma fail_if_Err (c : bool) e e' : fail_if c e = Err e' ↔ c = true ∧ e = e'.
Proof. destruct c; cbn; naive_solver. Qed.

Lemma ok_or_Ok {A} (o : option A) e a : ok_or o e = Ok a ↔ o = Some a.
Proof. destruct o; cbn; naive_solver. Qed.

Lemma ok_or_Err {A} (o : option A) e e' : ok_or o e = Err e' ↔ o = None ∧ e = e'.
Proof. destruct o; cbn; naive_solver. Qed.

Lemma is_ok_Ok {A} (r : result E A) : is_ok r = true ↔ ∃ a, r = Ok a.
Proof. destruct r; cbn; naive_solver. Qed.
End result_lemmas.

Lemma map_err_Ok {E F A} (f : E → F) (r : result E A) a : map_err f r = Ok a ↔ r = Ok a.
Proof. destruct r; cbn; naive_solver. Qed.

(** [res_inv] takes apart every hypothesis that says how a chain of [?] ended. *)
Ltac res_step :=
  match goal with
  | H : _ ≫= _ = Ok _ |- _ => apply bind_Ok in H; destruct H as (? & ? & ?)
  | H : _ ≫= _ = Err _ |- _ => apply bind_Err in H; destruct H as [H | (? & ? & ?)]
  | H : fail_if _ _ = Ok _ |- _ => apply fail_if_Ok in H
  | H : fail_if _ _ = Err _ |- _ => apply fail_if_Err in H; destruct H as [H ?]
  | H : ok_or _ _ = Ok _ |- _ => apply ok_or_Ok in H
  | H : ok_or _ _ = Err _ |- _ => apply ok_or_Err in H; destruct H as [H ?]
  | H : Ok _ = Ok _ |- _ => injection H as H
  | H : Err _ = Err _ |- _ => injection H as H
  | H : Ok _ = Err _ |- _ => discriminate H
  | H : Err _ = Ok _ |- _ => discriminate H
  | u : unit |- _ => destruct u
  | H : ∃ _, _ |- _ => destruct H
  | H : _ ∧ _ |- _ => destruct H
  end.
Ltac res_inv := repeat res_step; subst.

(** [res_ok tac] runs a chain of checks, [tac] showing that each of them passes. *)
Tactic Notation "res_ok" tactic3(tac) :=
  repeat (apply bind_Ok; exists tt; split; [solve [tac]|]).

(** ** Booleans as the sources combine them *)
Lemma bool_decide_false_iff (P : Prop) `{Decision P} : bool_decide P = false ↔ ¬ P.
Proof. apply bool_decide_eq_false. Qed.

Ltac bool_step :=
  match goal with
  | H : _ && _ = true |- _ => apply andb_true_iff in H; destruct H
  | H : _ || _ = false |- _ => apply orb_false_iff in H; destruct H
  | H : negb _ = true |- _ => apply negb_true_iff in H
  | H : negb _ = false |- _ => apply negb_false_iff in H
  | H : bool_decide _ = true |- _ => apply bool_decide_eq_true in H
  | H : bool_decide _ = false |- _ => apply bool_decide_eq_false in H
  | H : (_ <=? _)%Z = true |- _ => apply Z.leb_le in H
  | H : (_ <=? _)%Z = false |- _ => apply Z.leb_gt in H
  | H : (_ <? _)%Z = true |- _ => apply Z.ltb_lt in H
  | H : (_ <? _)%Z = false |- _ => apply Z.ltb_ge in H
  | H : (_ =? _)%Z = true |- _ => apply Z.eqb_eq in H
  | H : (_ =? _)%Z = false |- _ => apply Z.eqb_neq in H
  end.
Ltac bool_inv := repeat bool_step.

(** ** Machine integers

    A [w]-bit unsigned integer is a [Z]; the arithmetic the sources do on it is the
    checked, saturating or wrapping operation they name.  [usize] is 64 bits wide, the
    width of every target the repository builds for. *)
Definition u8_max : Z := 255.
Definition u16_max : Z := 65535.
Definition u32_max : Z := 4294967295.
Definition u64_max : Z := 18446744073709551615.
Definition usize_max : Z := u64_max.

Definition in_u8 (z : Z) : Prop := (0 ≤ z ≤ u8_max)%Z.
Definition in_u16 (z : Z) : Prop := (0 ≤ z ≤ u16_max)%Z.
Definition in_u32 (z : Z) : Prop := (0 ≤ z ≤ u32_max)%Z.
Definition in_u64 (z : Z) : Prop := (0 ≤ z ≤ u64_max)%Z.

Definition checked_add (max a b : Z) : option Z :=
  if (a + b <=? max)%Z then Some (a + b)%Z else None.
Definition checked_mul (max a b : Z) : option Z :=
  if (a * b <=? max)%Z then Some (a * b)%Z else None.
Definition saturating_add (max a b : Z) : Z := (a + b) `min` max.
Definition saturating_mul (max a b : Z) : Z := (a * b) `min` max.
Definition saturating_sub (a b : Z) : Z := (a - b) `max` 0.

Lemma checked_add_Some max a b c :
  checked_add max a b = Some c ↔ c = (a + b)%Z ∧ (c ≤ max)%Z.
Proof. unfold checked_add. destruct (Z.leb_spec (a + b) max); naive_solver lia. Qed.

Lemma checked_add_None max a b : checked_add max a b = None ↔ (max < a + b)%Z.
Proof. unfold checked_add. destruct (Z.leb_spec (a + b) max); naive_solver lia. Qed.

(** ** Lists *)
Definition lastn {A} (n : nat) (l : list A) : list A := drop (length l - n) l.

Lemma forallb_Forall {A} (p : A → bool) (l : list A) :
  forallb p l = true ↔ Forall (λ x, p x = true) l.
Proof. rewrite forallb_forall, Forall_forall. setoid_rewrite <- list_elem_of_In. done. Qed.

Lemma existsb_Exists {A} (p : A → bool) (l : list A) :
  existsb p l = true ↔ ∃ x, x ∈ l ∧ p x = true.
Proof. rewrite existsb_exists. setoid_rewrite <- list_elem_of_In. done. Qed.

Lemma find_Some_elem {A} (p : A → bool) (l : list A) x :
  List.find p l = Some x → x ∈ l ∧ p x = true.
Proof. intros H. apply List.find_some in H. by rewrite list_elem_of_In. Qed.

Lemma find_None_elem {A} (p : A → bool) (l : list A) :
  List.find p l = None → ∀ x, x ∈ l → p x = false.
Proof. intros H x Hx. apply list_elem_of_In in Hx. by apply (List.find_none p l). Qed.

(** [Iterator::filter] with a boolean predicate. *)
Lemma bool_filter_none {A} (p : A → bool) (l : list A) :
  Forall (λ x, p x = false) l → List.filter p l = [].
Proof. induction 1 as [|x l Hx _ IH]; cbn; [done|]. by rewrite Hx. Qed.

Lemma bool_filter_ext {A} (p q : A → bool) (l : list A) :
  Forall (λ x, p x = q x) l → List.filter p l = List.filter q l.
Proof. induction 1 as [|x l Hx _ IH]; cbn; [done|]. by rewrite Hx, IH. Qed.

Lemma bool_filter_app_cons {A} (p : A → bool) (l l1 l2 : list A) x :
  List.filter p l = l1 ++ x :: l2 →
  ∃ k1 k2, l = k1 ++ x :: k2 ∧ List.filter p k1 = l1 ∧ p x = true ∧ List.filter p k2 = l2.
Proof.
  revert l1. induction l as [|y l IH]; intros l1; cbn; [by destruct l1|].
  destruct (p y) eqn:E; intros H.
  - destruct l1 as [|z l1]; cbn in H; simplify_eq.
    + by exists [], l.
    + destruct (IH l1) as (k1 & k2 & -> & <- & ? & <-); [done|].
      exists (z :: k1), k2. cbn. by rewrite E.
  - destruct (IH l1 H) as (k1 & k2 & -> & <- & ? & <-).
    exists (y :: k1), k2. cbn. by rewrite E.
Qed.

(** The entries of a [BTreeMap] in the order it iterates. *)
Definition key_le {A} (x y : Z * A) : Prop := (x.1 ≤ y.1)%Z.
#[export] Instance key_le_dec {A} : RelDecision (@key_le A) := λ x y, Z_le_dec x.1 y.1.
Definition btree {A} (m : gmap Z A) : list (Z * A) := merge_sort key_le (map_to_list m).
Lemma btree_perm {A} (m : gmap Z A) : btree m ≡ₚ map_to_list m.
Proof. apply merge_sort_Permutation. Qed.
Lemma elem_of_btree {A} (m : gmap Z A) k x : (k, x) ∈ btree m ↔ m !! k = Some x.
Proof. by rewrite btree_perm, elem_of_map_to_list. Qed.
Lemma NoDup_btree {A} (m : gmap Z A) : NoDup (btree m).*1.
Proof. rewrite (Permutation_map fst (btree_perm m)). apply NoDup_fst_map_to_list. Qed.
Lemma btree_dom {A} (m : gmap Z A) : dom m = list_to_set (btree m).*1.
Proof.
  apply leibniz_equiv. intros k. rewrite elem_of_dom, elem_of_list_to_set, list_elem_of_fmap. split.
  - intros [x Hx]. exists (k, x). by rewrite elem_of_btree.
  - intros ([j x] & -> & Hin%elem_of_btree). by exists x.
Qed.

Create HintDb ward.
#[export] Hint Resolve elem_of_cons list_elem_of_here list_elem_of_further : ward.
