(* ===== verification/Bytes.v ===== *)
(** * Bytes: the parts of Rust's [u8] and [str] the sources use

    A [&str] is a [string], its bytes the characters of that string (the sources look at
    bytes, never at code points).  The predicates are those of [u8::is_ascii_*], and the
    list functions those of [str]: [strip_prefix], [strip_suffix], [split],
    [eq_ignore_ascii_case], [to_ascii_lowercase]. *)

From Stdlib Require Export Ascii.
From stdpp Require Import base numbers option gmap sorting strings list.
From S2P Require Import Prelude.

Abbreviation byte := Ascii.ascii.

Definition bytes (s : string) : list byte := String.list_ascii_of_string s.
Definition of_bytes (l : list byte) : string := String.string_of_list_ascii l.

Definition code (b : byte) : Z := Z.of_N (Ascii.N_of_ascii b).
Definition chr (z : Z) : byte := Ascii.ascii_of_N (Z.to_N z).

Definition in_range (lo hi : Z) (b : byte) : bool := (lo <=? code b)%Z && (code b <=? hi)%Z.

Definition is_ascii_lowercase : byte → bool := in_range 97 122.
Definition is_ascii_uppercase : byte → bool := in_range 65 90.
Definition is_ascii_digit : byte → bool := in_range 48 57.
Definition is_ascii_alphanumeric (b : byte) : bool :=
  is_ascii_lowercase b || is_ascii_uppercase b || is_ascii_digit b.
Definition is_ascii_graphic : byte → bool := in_range 33 126.
Definition is_ascii : byte → bool := in_range 0 127.

Definition to_ascii_lowercase (b : byte) : byte :=
  if is_ascii_uppercase b then chr (code b + 32) else b.
Definition to_ascii_lowercase_str (s : string) : string :=
  of_bytes (to_ascii_lowercase <$> bytes s).

Definition len (s : string) : Z := Z.of_nat (length (bytes s)).

(** [strip_prefix] and [strip_suffix] on byte strings. *)
Fixpoint strip_prefix (p l : list byte) : option (list byte) :=
  match p, l with
  | [], _ => Some l
  | x :: p, y :: l => if bool_decide (x = y) then strip_prefix p l else None
  | _ :: _, [] => None
  end.
Definition strip_suffix (p l : list byte) : option (list byte) :=
  reverse <$> strip_prefix (reverse p) (reverse l).
Definition starts_with (p l : list byte) : bool := bool_decide (is_Some (strip_prefix p l)).
Definition ends_with (p l : list byte) : bool := bool_decide (is_Some (strip_suffix p l)).

Definition eq_ignore_ascii_case (a b : list byte) : bool :=
  bool_decide (to_ascii_lowercase <$> a = to_ascii_lowercase <$> b).

(** [str::split(c)]: the pieces between the separators, at least one. *)
Fixpoint split_on (c : byte) (l : list byte) : list (list byte) :=
  match l with
  | [] => [[]]
  | x :: l =>
      match split_on c l with
      | [] => [[]]
      | w :: ws => if bool_decide (x = c) then [] :: w :: ws else (x :: w) :: ws
      end
  end.

Lemma bytes_of_bytes l : bytes (of_bytes l) = l.
Proof. apply String.list_ascii_of_string_of_list_ascii. Qed.

Lemma of_bytes_bytes s : of_bytes (bytes s) = s.
Proof. apply String.string_of_list_ascii_of_string. Qed.

Lemma bytes_inj s t : bytes s = bytes t → s = t.
Proof. intros H. by rewrite <-(of_bytes_bytes s), H, of_bytes_bytes. Qed.

Lemma code_bound b : (0 ≤ code b ≤ 255)%Z.
Proof.
  unfold code. pose proof (Ascii.N_ascii_bounded b) as H. lia.
Qed.

Lemma chr_code b : chr (code b) = b.
Proof. unfold chr, code. rewrite N2Z.id. apply Ascii.ascii_N_embedding. Qed.

Lemma code_chr z : (0 ≤ z ≤ 255)%Z → code (chr z) = z.
Proof. intros H. unfold chr, code. rewrite Ascii.N_ascii_embedding; lia. Qed.

Lemma code_inj a b : code a = code b → a = b.
Proof. intros H. by rewrite <-(chr_code a), H, chr_code. Qed.

Lemma in_range_spec lo hi b : in_range lo hi b = true ↔ (lo ≤ code b ≤ hi)%Z.
Proof. unfold in_range. rewrite andb_true_iff, !Z.leb_le. done. Qed.

Lemma strip_prefix_Some p l r : strip_prefix p l = Some r ↔ l = p ++ r.
Proof.
  revert l. induction p as [|x p IH]; intros [|y l]; cbn; try naive_solver.
  case_bool_decide; subst.
  - rewrite IH. naive_solver.
  - naive_solver.
Qed.

Lemma strip_suffix_Some p l r : strip_suffix p l = Some r ↔ l = r ++ p.
Proof.
  unfold strip_suffix. rewrite fmap_Some. setoid_rewrite strip_prefix_Some. split.
  - intros (x & Hx & ->). apply (f_equal reverse) in Hx.
    by rewrite reverse_involutive, reverse_app, reverse_involutive in Hx.
  - intros ->. exists (reverse r). rewrite reverse_app, reverse_involutive. done.
Qed.

Lemma starts_with_spec p l : starts_with p l = true ↔ p `prefix_of` l.
Proof.
  unfold starts_with, prefix, is_Some. rewrite bool_decide_eq_true.
  setoid_rewrite strip_prefix_Some. done.
Qed.

Lemma ends_with_spec p l : ends_with p l = true ↔ p `suffix_of` l.
Proof.
  unfold ends_with, suffix, is_Some. rewrite bool_decide_eq_true.
  setoid_rewrite strip_suffix_Some. done.
Qed.

Lemma eq_ignore_ascii_case_spec a b :
  eq_ignore_ascii_case a b = true ↔ to_ascii_lowercase <$> a = to_ascii_lowercase <$> b.
Proof. unfold eq_ignore_ascii_case. apply bool_decide_eq_true. Qed.

Lemma to_ascii_lowercase_lower b : is_ascii_uppercase (to_ascii_lowercase b) = false.
Proof.
  unfold to_ascii_lowercase. destruct (is_ascii_uppercase b) eqn:E; [|done].
  unfold is_ascii_uppercase in *. apply in_range_spec in E.
  apply not_true_iff_false. rewrite in_range_spec, code_chr; lia.
Qed.

Lemma to_ascii_lowercase_idem b :
  to_ascii_lowercase (to_ascii_lowercase b) = to_ascii_lowercase b.
Proof.
  unfold to_ascii_lowercase at 1. by rewrite to_ascii_lowercase_lower.
Qed.

Lemma lowercase_fmap_idem (l : list byte) :
  to_ascii_lowercase <$> (to_ascii_lowercase <$> l) = to_ascii_lowercase <$> l.
Proof. induction l; cbn; f_equal; auto using to_ascii_lowercase_idem. Qed.

Lemma split_on_cons c l : ∃ w ws, split_on c l = w :: ws.
Proof.
  induction l as [|x l (w & ws & IH)]; cbn; [eauto|]. rewrite IH.
  case_bool_decide; eauto.
Qed.

(** Joining the pieces with the separator gives the string back. *)
Fixpoint join_with (c : byte) (ws : list (list byte)) : list byte :=
  match ws with
  | [] => []
  | [w] => w
  | w :: ws => w ++ c :: join_with c ws
  end.

Lemma join_split c l : join_with c (split_on c l) = l.
Proof.
  induction l as [|x l IH]; [done|]. cbn.
  destruct (split_on_cons c l) as (w & ws & Hs). rewrite Hs in *.
  case_bool_decide; subst; destruct ws; cbn in *; by f_equal.
Qed.

(** ** Little-endian integers ([to_le_bytes], [from_le_bytes]) *)
Fixpoint to_le (n : nat) (z : Z) : list byte :=
  match n with
  | O => []
  | S n => chr (z mod 256) :: to_le n (z / 256)
  end.

Fixpoint from_le (l : list byte) : Z :=
  match l with
  | [] => 0
  | b :: l => code b + 256 * from_le l
  end.

Lemma to_le_length n z : length (to_le n z) = n.
Proof. revert z. induction n as [|n IH]; intros z; cbn; [done|]. by rewrite IH. Qed.

Lemma from_to_le n z : from_le (to_le n z) = (z mod 256 ^ Z.of_nat n)%Z.
Proof.
  revert z. induction n as [|n IH]; intros z; [by rewrite Z.mod_1_r|].
  cbn [to_le from_le]. pose proof (Z.mod_pos_bound z 256).
  rewrite code_chr, IH by lia.
  replace (256 ^ Z.of_nat (S n))%Z with (256 * 256 ^ Z.of_nat n)%Z
    by (rewrite Nat2Z.inj_succ, Z.pow_succ_r; lia).
  rewrite Z.rem_mul_r by lia. lia.
Qed.

Lemma from_le_bound l : (0 ≤ from_le l < 256 ^ Z.of_nat (length l))%Z.
Proof.
  induction l as [|b l IH]; [cbn; lia|]. cbn [from_le length].
  rewrite Nat2Z.inj_succ, Z.pow_succ_r by lia. pose proof (code_bound b). lia.
Qed.

Lemma to_from_le l : to_le (length l) (from_le l) = l.
Proof.
  induction l as [|b l IH]; [done|]. cbn [from_le length to_le].
  pose proof (code_bound b).
  replace ((code b + 256 * from_le l) mod 256)%Z with (code b)
    by (rewrite Z.mul_comm, Z.mod_add, Z.mod_small; lia).
  replace ((code b + 256 * from_le l) / 256)%Z with (from_le l)
    by (rewrite Z.mul_comm, Z.div_add, Z.div_small; lia).
  by rewrite chr_code, IH.
Qed.

Lemma to_le_inj n a b :
  (0 ≤ a < 256 ^ Z.of_nat n)%Z → (0 ≤ b < 256 ^ Z.of_nat n)%Z →
  to_le n a = to_le n b → a = b.
Proof.
  intros Ha Hb H. apply (f_equal from_le) in H. rewrite !from_to_le in H.
  by rewrite !Z.mod_small in H.
Qed.

(** ** Decimal integers ([Display] and [str::parse] of the unsigned types) *)
Fixpoint dec_go (fuel : nat) (n : Z) (acc : list byte) : list byte :=
  match fuel with
  | O => acc
  | S fuel =>
      let acc := chr (48 + n mod 10) :: acc in
      if (n / 10 =? 0)%Z then acc else dec_go fuel (n / 10) acc
  end.

(** Twenty digits are enough for every [u64]. *)
Definition dec_display (n : Z) : list byte := dec_go 20 n [].

Fixpoint dec_parse_digits (max v : Z) (l : list byte) : option Z :=
  match l with
  | [] => Some v
  | c :: l =>
      if is_ascii_digit c
      then v10 ← checked_mul max v 10;
           v' ← checked_add max v10 (code c - 48);
           dec_parse_digits max v' l
      else None
  end.

(** One leading [+] is allowed, and at least one digit is required. *)
Definition dec_parse (max : Z) (l : list byte) : option Z :=
  match default l (strip_prefix ["+"]%char l) with
  | [] => None
  | l => dec_parse_digits max 0 l
  end.

Definition dec_value (v : Z) (l : list byte) : Z := foldl (λ v c, v * 10 + (code c - 48))%Z v l.

Lemma dec_value_app v l l' : dec_value v (l ++ l') = dec_value (dec_value v l) l'.
Proof. apply foldl_app. Qed.

Lemma dec_value_le v l :
  (0 ≤ v)%Z → Forall (λ c, is_ascii_digit c = true) l → (v ≤ dec_value v l)%Z.
Proof.
  intros Hv Hl. revert v Hv. induction Hl as [|c l Hc _ IH]; intros v Hv; cbn; [lia|].
  apply in_range_spec in Hc. unfold dec_value in IH.
  etrans; [|apply IH; lia]. lia.
Qed.

Lemma dec_go_spec fuel n acc :
  (0 ≤ n < 10 ^ Z.of_nat fuel)%Z → (0 < fuel)%nat →
  ∃ ds, dec_go fuel n acc = ds ++ acc ∧ ds ≠ [] ∧
    Forall (λ c, is_ascii_digit c = true) ds ∧ dec_value 0 ds = n.
Proof.
  revert n acc. induction fuel as [|fuel IH]; intros n acc Hn Hf; [lia|].
  cbn [dec_go]. pose proof (Z.mod_pos_bound n 10 ltac:(lia)) as Hm.
  assert (is_ascii_digit (chr (48 + n mod 10)) = true) as Hd.
  { apply in_range_spec. rewrite code_chr; lia. }
  assert (code (chr (48 + n mod 10)) - 48 = n mod 10)%Z as Hc by (rewrite code_chr; lia).
  pose proof (Z.div_mod n 10 ltac:(lia)) as Hdm.
  destruct (Z.eqb_spec (n / 10) 0) as [He|He].
  - exists [chr (48 + n mod 10)]. split_and!; [done..|by constructor|]. unfold dec_value; cbn. lia.
  - rewrite Nat2Z.inj_succ, Z.pow_succ_r in Hn by lia.
    assert (0 ≤ n / 10 < 10 ^ Z.of_nat fuel)%Z as Hq.
    { split; [apply Z.div_pos; lia|]. apply Z.div_lt_upper_bound; lia. }
    destruct fuel as [|fuel].
    { change (10 ^ Z.of_nat 0)%Z with 1%Z in Hq. lia. }
    destruct (IH (n / 10)%Z (chr (48 + n mod 10) :: acc) Hq ltac:(lia)) as (ds & -> & Hne & Hall & Hv).
    exists (ds ++ [chr (48 + n mod 10)]). rewrite <-(assoc_L app). split_and!; [done| | |].
    + by destruct ds.
    + apply Forall_app. split; [done|by constructor].
    + rewrite dec_value_app, Hv. unfold dec_value; cbn. lia.
Qed.

Lemma dec_parse_digits_spec max v l :
  (0 ≤ v)%Z → Forall (λ c, is_ascii_digit c = true) l → (dec_value v l ≤ max)%Z →
  dec_parse_digits max v l = Some (dec_value v l).
Proof.
  intros Hv Hl. revert v Hv. induction Hl as [|c l Hc Hl IH]; intros v Hv Hmax; [done|].
  cbn [dec_parse_digits]. rewrite Hc. apply in_range_spec in Hc.
  change (dec_value v (c :: l)) with (dec_value (v * 10 + (code c - 48)) l) in *.
  pose proof (dec_value_le (v * 10 + (code c - 48)) l ltac:(lia) Hl).
  unfold checked_mul, checked_add. rewrite (proj2 (Z.leb_le _ _)) by lia. cbn.
  rewrite (proj2 (Z.leb_le _ _)) by lia. cbn. apply IH; lia.
Qed.

(** The digits of a [u64]: not empty, all digits, and they parse back. *)
Lemma dec_display_digits n :
  in_u64 n → dec_display n ≠ [] ∧ Forall (λ c, is_ascii_digit c = true) (dec_display n) ∧
  dec_value 0 (dec_display n) = n.
Proof.
  intros Hn. unfold dec_display. destruct (dec_go_spec 20 n []) as (ds & -> & H); [|lia|].
  - unfold in_u64, u64_max in Hn. cbn. lia.
  - by rewrite app_nil_r.
Qed.

Lemma dec_parse_display n : in_u64 n → dec_parse u64_max (dec_display n) = Some n.
Proof.
  intros Hn. pose proof (dec_display_digits n Hn) as (Hne & Hall & Hv). unfold dec_parse.
  replace (strip_prefix ["+"]%char (dec_display n)) with (@None (list byte)).
  - cbn [default]. rewrite <-Hv at 2. destruct (dec_display n) as [|c l] eqn:E; [done|].
    apply dec_parse_digits_spec; [lia|done|]. rewrite Hv. apply Hn.
  - symmetry. destruct (strip_prefix _ _) as [r|] eqn:E; [|done].
    apply strip_prefix_Some in E. rewrite E in Hall. by apply Forall_cons in Hall as [[=] _].
Qed.

(** [str::lines]: the lines end in [\n] or [\r\n], and the last may end in neither. *)
Fixpoint lines_of (pieces : list (list byte)) : list (list byte) :=
  match pieces with
  | [] => []
  | [p] => if bool_decide (p = []) then [] else [p]
  | p :: ps => default p (strip_suffix [chr 13] p) :: lines_of ps
  end.
Definition lines (l : list byte) : list (list byte) := lines_of (split_on (chr 10) l).

(** [str::split_once(c)] *)
Fixpoint split_once (c : byte) (l : list byte) : option (list byte * list byte) :=
  match l with
  | [] => None
  | x :: l =>
      if bool_decide (x = c) then Some ([], l)
      else '(a, b) ← split_once c l; Some (x :: a, b)
  end.

Lemma split_once_app c k v : c ∉ k → split_once c (k ++ c :: v) = Some (k, v).
Proof.
  induction k as [|x k IH]; intros Hc; cbn.
  - by rewrite bool_decide_true.
  - apply not_elem_of_cons in Hc as [Hx Hk]. rewrite bool_decide_false by auto. by rewrite IH.
Qed.

Lemma split_on_app c a b : c ∉ a → split_on c (a ++ c :: b) = a :: split_on c b.
Proof.
  intros Ha. induction a as [|x a IH]; cbn.
  - destruct (split_on_cons c b) as (w & ws & ->). by rewrite bool_decide_true.
  - apply not_elem_of_cons in Ha as [Hx Ha]. rewrite (IH Ha).
    by rewrite bool_decide_false by auto.
Qed.
