(* ===== verification/Ids.v ===== *)
(** * Ids: the identifiers of the event model ([crates/ward-events/src/ids.rs])

    Digests print as hex and ULID-style identifiers as 26 characters of Crockford base32
    behind a prefix that names their kind.  The theorems say that both notations round trip,
    that base32 is canonical (one spelling per value, so identifiers compare as text), and
    that no identifier of one kind parses as another. *)

From stdpp Require Import base numbers option gmap sorting strings vector list.
From S2P Require Import Prelude Bytes.
Local Open Scope Z_scope.

Definition u128_max : Z := 340282366920938463463374607431768211455.

Inductive IdError : Type :=
| HexLength (expected found : Z)
| HexDigit (index : Z)
| Prefix (expected : string)
| Base32Length (expected found : Z)
| Base32Char (index : Z)
| Overflow
| ZeroPid
| IdEmpty
| TooLong (max found : Z)
| InvalidChar (index : Z).
#[export] Instance IdError_eq_dec : EqDecision IdError.
Proof. solve_decision. Defined.

(** ** Hex *)
Definition HEX : list byte := bytes "0123456789abcdef".

Fixpoint encode_hex (l : list byte) : list byte :=
  match l with
  | [] => []
  | b :: l =>
      nth (Z.to_nat (Z.shiftr (code b) 4)) HEX "0"%char
      :: nth (Z.to_nat (Z.land (code b) 15)) HEX "0"%char :: encode_hex l
  end.

Definition hex_val (c : byte) : option Z :=
  if is_ascii_digit c then Some (code c - 48)
  else if in_range 97 102 c then Some (code c - 97 + 10)
  else if in_range 65 70 c then Some (code c - 65 + 10)
  else None.

(** The [n] pairs left of [bytes.chunks_exact(2)], from pair [i] on; [decode_hex_32] calls it
    with [2 n] bytes, so the last branch is not reached from there. *)
Fixpoint decode_pairs (n : nat) (i : Z) (l : list byte) : result IdError (vec byte n) :=
  match n with
  | O => Ok [#]
  | S n =>
      match l with
      | c :: d :: l =>
          hi ← ok_or (hex_val c) (HexDigit (i * 2));
          lo ← ok_or (hex_val d) (HexDigit (i * 2 + 1));
          rest ← decode_pairs n (i + 1) l;
          Ok (chr (Z.lor (Z.shiftl hi 4) lo) ::: rest)
      | _ => Err (HexLength 64 (Z.of_nat (length l)))
      end
  end.

Definition decode_hex_32 (s : list byte) : result IdError (vec byte 32) :=
  _ ← fail_if (negb (Z.of_nat (length s) =? 64)) (HexLength 64 (Z.of_nat (length s)));
  decode_pairs 32 0 s.

Definition to_hex (h : vec byte 32) : list byte := encode_hex (vec_to_list h).

(** [Blake3Hash::from_hex] (and [FromStr] of [Blake3Hash] and [SnapshotId]): the prefix is
    optional. *)
Definition from_hex (s : list byte) : result IdError (vec byte 32) :=
  decode_hex_32 (default s (strip_prefix (bytes "blake3:") s)).

Definition SnapshotId_display (h : vec byte 32) : list byte := bytes "blake3:" ++ to_hex h.

(** [ImageDigest]: the prefix is mandatory. *)
Definition ImageDigest_display (h : vec byte 32) : list byte := bytes "sha256:" ++ to_hex h.
Definition ImageDigest_from_str (s : list byte) : result IdError (vec byte 32) :=
  body ← ok_or (strip_prefix (bytes "sha256:") s) (Prefix "sha256:");
  decode_hex_32 body.

(** ** ULID-style identifiers *)
Definition CROCKFORD : list byte := bytes "0123456789ABCDEFGHJKMNPQRSTVWXYZ".
Definition ULID_LEN : nat := 26.

Definition crockford_val (c : byte) : option Z :=
  if is_ascii_digit c then Some (code c - 48)
  else if in_range 65 72 c then Some (code c - 65 + 10)
  else if in_range 74 75 c then Some (code c - 74 + 18)
  else if in_range 77 78 c then Some (code c - 77 + 20)
  else if in_range 80 84 c then Some (code c - 80 + 22)
  else if in_range 86 90 c then Some (code c - 86 + 27)
  else None.

(** [for i in (0..n).rev()] *)
Fixpoint encode_digits (n : nat) (value : Z) : list byte :=
  match n with
  | O => []
  | S i =>
      nth (Z.to_nat (Z.land (Z.shiftr value (5 * Z.of_nat i)) 31)) CROCKFORD "0"%char
      :: encode_digits i value
  end.

Definition encode_ulid (value : Z) : list byte := encode_digits ULID_LEN value.

(** The loop of [decode_ulid]; [<<] on [u128] drops the bits shifted out. *)
Fixpoint decode_loop (index : Z) (value : Z) (l : list byte) : result IdError Z :=
  match l with
  | [] => Ok value
  | c :: l =>
      v ← ok_or (crockford_val c) (Base32Char index);
      _ ← fail_if ((index =? 0) && (7 <? v)) Overflow;
      decode_loop (index + 1) (Z.lor (Z.land (Z.shiftl value 5) u128_max) v) l
  end.

Definition decode_ulid (body : list byte) : result IdError Z :=
  _ ← fail_if (negb (Nat.eqb (length body) ULID_LEN))
        (Base32Length (Z.of_nat ULID_LEN) (Z.of_nat (length body)));
  decode_loop 0 0 body.

(** The identifier types the [ulid_id!] macro declares, each with its prefix. *)
Inductive UlidKind : Set :=
| SessionId_ | ProjectId_ | PrincipalId_ | AgentId_ | TaskId_ | NodeId_ | DelegationId_
| LeaseId_ | ExecutionAttemptId_.
#[export] Instance UlidKind_eq_dec : EqDecision UlidKind.
Proof. solve_decision. Defined.

Definition PREFIX (k : UlidKind) : string :=
  match k with
  | SessionId_ => "sess_"
  | ProjectId_ => "proj_"
  | PrincipalId_ => "prn_"
  | AgentId_ => "agent_"
  | TaskId_ => "task_"
  | NodeId_ => "node_"
  | DelegationId_ => "deleg_"
  | LeaseId_ => "lease_"
  | ExecutionAttemptId_ => "exec_"
  end.

Definition display (k : UlidKind) (value : Z) : list byte := bytes (PREFIX k) ++ encode_ulid value.

Definition from_str (k : UlidKind) (s : list byte) : result IdError Z :=
  body ← ok_or (strip_prefix (bytes (PREFIX k)) s) (Prefix (PREFIX k));
  decode_ulid body.

(** ** The other identifiers *)

(** [Pid::new]: [NonZeroU32::new]. *)
Definition Pid_new (raw : Z) : result IdError Z :=
  if raw =? 0 then Err ZeroPid else Ok raw.

Fixpoint validate_chars (index : Z) (allowed : Z → byte → bool) (l : list byte) :
    result IdError unit :=
  match l with
  | [] => Ok tt
  | c :: l =>
      _ ← fail_if (negb (allowed index c)) (InvalidChar index);
      validate_chars (index + 1) allowed l
  end.

(** An index of a string held in memory fits [i64], so [i64::try_from(index)] is [index]. *)
Definition validate_ascii_id (s : list byte) (max : Z) (allowed : Z → byte → bool) :
    result IdError unit :=
  _ ← fail_if (bool_decide (s = [])) IdEmpty;
  _ ← fail_if (max <? Z.of_nat (length s)) (TooLong max (Z.of_nat (length s)));
  validate_chars 0 allowed s.

Definition RuleRef_MAX_BYTES : Z := 128.
Definition RuleRef_new (s : list byte) : result IdError (list byte) :=
  _ ← validate_ascii_id s RuleRef_MAX_BYTES (λ i c, (0 <=? i) && is_ascii_graphic c);
  Ok s.

Definition ServiceId_MAX_BYTES : Z := 64.
Definition service_char (i : Z) (c : byte) : bool :=
  is_ascii_lowercase c || is_ascii_digit c
  || ((0 <? i) && bool_decide (c ∈ [".";"_";":";"-"]%char)).
Definition ServiceId_new (s : list byte) : result IdError (list byte) :=
  _ ← validate_ascii_id s ServiceId_MAX_BYTES service_char;
  Ok s.

(** ** Hex digits *)
Lemma hex_val_digit c v : hex_val c = Some v → 0 ≤ v < 16.
Proof.
  unfold hex_val, is_ascii_digit. repeat case_match; intros [= <-];
    repeat match goal with H : in_range _ _ _ = true |- _ => apply in_range_spec in H end; lia.
Qed.

Lemma nibbles (z : Z) : Z.lor (Z.shiftl (Z.shiftr z 4) 4) (Z.land z 15) = z.
Proof.
  change 15 with (Z.ones 4). apply Z.bits_inj'. intros n Hn.
  rewrite Z.lor_spec, Z.land_spec, Z.shiftl_spec by lia.
  destruct (Z.ltb_spec n 4).
  - rewrite Z.testbit_neg_r, Z.ones_spec_low by lia. by rewrite andb_true_r.
  - rewrite Z.shiftr_spec, Z.ones_spec_high, andb_false_r, orb_false_r by lia.
    f_equal. lia.
Qed.

(** The facts on digits that a check of all 256 bytes settles. *)
Lemma hex_nth i : (i < 16)%nat → hex_val (nth i HEX "0"%char) = Some (Z.of_nat i).
Proof. do 16 (destruct i as [|i]; [done|]). lia. Qed.

Lemma hex_nth_lower c v :
  hex_val c = Some v → nth (Z.to_nat v) HEX "0"%char = to_ascii_lowercase c.
Proof.
  destruct c as [[] [] [] [] [] [] [] []]; intros H; vm_compute in H;
    first [discriminate H | injection H as <-; reflexivity].
Qed.

Lemma crockford_nth i : (i < 32)%nat → crockford_val (nth i CROCKFORD "0"%char) = Some (Z.of_nat i).
Proof. do 32 (destruct i as [|i]; [done|]). lia. Qed.

Lemma nth_crockford c v :
  crockford_val c = Some v → nth (Z.to_nat v) CROCKFORD "0"%char = c ∧ 0 ≤ v < 32.
Proof.
  destruct c as [[] [] [] [] [] [] [] []]; intros H; vm_compute in H;
    first [discriminate H | injection H as <-; by split].
Qed.

(** ** Digests round trip *)
Lemma encode_hex_length l : length (encode_hex l) = (2 * length l)%nat.
Proof. induction l as [|b l IH]; cbn; lia. Qed.

Lemma decode_pairs_encode {n} i (v : vec byte n) :
  decode_pairs n i (encode_hex (vec_to_list v)) = Ok v.
Proof.
  revert i. induction v as [|b n v IH]; intros i; [done|].
  cbn [vec_to_list encode_hex decode_pairs]. pose proof (code_bound b).
  assert (0 ≤ Z.shiftr (code b) 4 < 16).
  { rewrite Z.shiftr_div_pow2 by lia. split; [apply Z.div_pos; lia|].
    apply Z.div_lt_upper_bound; lia. }
  assert (0 ≤ Z.land (code b) 15 < 16).
  { change 15 with (Z.ones 4). rewrite Z.land_ones by lia. by apply Z.mod_pos_bound. }
  rewrite !hex_nth by lia. cbn [ok_or]. rewrite !bind_Ok_l, IH, bind_Ok_l.
  by rewrite !Z2Nat.id, nibbles, chr_code by lia.
Qed.

Lemma decode_hex_32_to_hex h : decode_hex_32 (to_hex h) = Ok h.
Proof.
  unfold decode_hex_32, to_hex. rewrite encode_hex_length, length_vec_to_list.
  apply decode_pairs_encode.
Qed.

Lemma land_shiftl_small a v k : 0 ≤ k → 0 ≤ v < 2 ^ k → Z.land (Z.shiftl a k) v = 0.
Proof.
  intros Hk Hv. apply Z.bits_inj'. intros n Hn.
  rewrite Z.land_spec, Z.shiftl_spec, Z.bits_0 by lia. destruct (Z.ltb_spec n k).
  - by rewrite Z.testbit_neg_r by lia.
  - by rewrite <-(Z.mod_small v (2 ^ k)), Z.mod_pow2_bits_high, andb_false_r by lia.
Qed.

Lemma lor_shiftl a v k : 0 ≤ k → 0 ≤ v < 2 ^ k → Z.lor (Z.shiftl a k) v = a * 2 ^ k + v.
Proof.
  intros Hk Hv. rewrite <-Z.lxor_lor, <-Z.add_nocarry_lxor by by apply land_shiftl_small.
  by rewrite Z.shiftl_mul_pow2.
Qed.

(** A byte is its two nibbles. *)
Lemma encode_hex_cons hi lo l :
  0 ≤ hi < 16 → 0 ≤ lo < 16 →
  encode_hex (chr (Z.lor (Z.shiftl hi 4) lo) :: l)
  = nth (Z.to_nat hi) HEX "0"%char :: nth (Z.to_nat lo) HEX "0"%char :: encode_hex l.
Proof.
  intros Hh Hl. cbn [encode_hex]. rewrite lor_shiftl by lia.
  change (2 ^ 4) with 16. rewrite code_chr by lia.
  replace (Z.shiftr (hi * 16 + lo) 4) with hi.
  - replace (Z.land (hi * 16 + lo) 15) with lo; [done|].
    change 15 with (Z.ones 4). rewrite Z.land_ones by lia. change (2 ^ 4) with 16.
    by rewrite Z.add_comm, Z.mod_add, Z.mod_small by lia.
  - rewrite Z.shiftr_div_pow2 by lia. change (2 ^ 4) with 16.
    by rewrite Z.div_add_l, Z.div_small, Z.add_0_r by lia.
Qed.

Lemma decode_pairs_Ok n i l v :
  length l = (2 * n)%nat → decode_pairs n i l = Ok v →
  encode_hex (vec_to_list v) = to_ascii_lowercase <$> l ∧ Forall (λ c, is_Some (hex_val c)) l.
Proof.
  revert i l v. induction n as [|n IH]; intros i l v Hl.
  - destruct l; [|done]. cbn. intros [= <-]. done.
  - destruct l as [|c [|d l]]; [done|cbn in Hl; lia|]. cbn [decode_pairs].
    intros H. res_inv. match goal with H : decode_pairs _ _ _ = Ok ?w |- _ => rename w into rest;
      apply IH in H as [Henc Hall]; [|cbn in Hl; lia] end.
    cbn [vec_to_list]. rewrite encode_hex_cons by (by eapply hex_val_digit).
    rewrite Henc, !fmap_cons. erewrite !hex_nth_lower by done.
    split; [done|]. repeat (constructor; [by eexists|]). done.
Qed.

Lemma decode_pairs_total n i l :
  length l = (2 * n)%nat → Forall (λ c, is_Some (hex_val c)) l → ∃ v, decode_pairs n i l = Ok v.
Proof.
  revert i l. induction n as [|n IH]; intros i l Hl Hall; [by eexists|].
  destruct l as [|c [|d l]]; [done|cbn in Hl; lia|]. cbn [decode_pairs].
  apply Forall_cons in Hall as [[vc Hc] [[vd Hd] Hall]%Forall_cons].
  destruct (IH (i + 1) l) as [rest Hrest]; [cbn in Hl; lia|done|].
  rewrite Hc, Hd. cbn [ok_or]. rewrite !bind_Ok_l, Hrest. by eexists.
Qed.

Lemma decode_hex_32_Ok s h :
  decode_hex_32 s = Ok h ↔
  length s = 64%nat ∧ Forall (λ c, is_Some (hex_val c)) s ∧ to_hex h = to_ascii_lowercase <$> s.
Proof.
  unfold decode_hex_32. rewrite bind_Ok. setoid_rewrite fail_if_Ok. split.
  - intros (_ & Hlen & Hd). bool_inv. assert (length s = 64%nat) as Hs by lia.
    apply decode_pairs_Ok in Hd as [? ?]; [|done]. by split_and!.
  - intros (Hs & Hall & Henc). exists tt. split; [by rewrite Hs|].
    destruct (decode_pairs_total 32 0 s Hs Hall) as [v Hv]. rewrite Hv.
    apply decode_pairs_Ok in Hv as [Hv _]; [|done].
    assert (to_hex v = to_hex h) as Heq by (unfold to_hex at 1; congruence).
    pose proof (decode_hex_32_to_hex v) as Hd. rewrite Heq, decode_hex_32_to_hex in Hd.
    congruence.
Qed.

Lemma to_hex_no_prefix h : strip_prefix (bytes "blake3:") (to_hex h) = None.
Proof.
  destruct (strip_prefix _ _) as [r|] eqn:E; [|done]. apply strip_prefix_Some in E.
  pose proof (decode_hex_32_to_hex h) as (_ & Hall & _)%decode_hex_32_Ok.
  rewrite E in Hall. apply (Forall_lookup_1 _ _ 1%nat "l"%char) in Hall as [v Hv]; [|done].
  vm_compute in Hv. done.
Qed.

(** Digests round trip through their text: the 64 hex digits a digest prints as parse back
    to it, with or without [blake3:], as do the prefixed forms of snapshots and images; the
    parser takes exactly the strings of 64 hex digits, of either case, and printing what it
    read gives the lower-case spelling. *)
Theorem digest_text_roundtrip h s :
  from_hex (to_hex h) = Ok h ∧ from_hex (SnapshotId_display h) = Ok h ∧
  ImageDigest_from_str (ImageDigest_display h) = Ok h ∧
  ImageDigest_from_str (to_hex h) = Err (Prefix "sha256:") ∧
  (decode_hex_32 s = Ok h ↔
     length s = 64%nat ∧ Forall (λ c, is_Some (hex_val c)) s ∧
     to_hex h = to_ascii_lowercase <$> s).
Proof.
  unfold from_hex, SnapshotId_display, ImageDigest_from_str, ImageDigest_display. split_and!.
  - rewrite to_hex_no_prefix. apply decode_hex_32_to_hex.
  - rewrite (proj2 (strip_prefix_Some _ _ (to_hex h))) by done. apply decode_hex_32_to_hex.
  - rewrite (proj2 (strip_prefix_Some _ _ (to_hex h))) by done. apply decode_hex_32_to_hex.
  - destruct (strip_prefix _ _) as [r|] eqn:E; [|done]. apply strip_prefix_Some in E.
    pose proof (decode_hex_32_to_hex h) as (_ & Hall & _)%decode_hex_32_Ok.
    rewrite E in Hall. apply (Forall_lookup_1 _ _ 0%nat "s"%char) in Hall as [v Hv]; [|done].
    vm_compute in Hv. done.
  - apply decode_hex_32_Ok.
Qed.

(** ** Base32 *)
Lemma encode_digits_S n v :
  encode_digits (S n) v
  = nth (Z.to_nat (Z.land (Z.shiftr v (5 * Z.of_nat n)) 31)) CROCKFORD "0"%char
    :: encode_digits n v.
Proof. done. Qed.

Lemma encode_digits_length n v : length (encode_digits n v) = n.
Proof. induction n as [|n IH]; cbn; auto. Qed.

Lemma shiftl_land_u128 a : 0 ≤ a < 2 ^ 123 → Z.land (Z.shiftl a 5) u128_max = Z.shiftl a 5.
Proof.
  intros Ha. change u128_max with (Z.ones 128). rewrite Z.land_ones by lia.
  rewrite Z.shiftl_mul_pow2, Z.mod_small by lia. lia.
Qed.

(** One step of the decoding loop, away from the first character. *)
Lemma decode_loop_cons index a c v l :
  crockford_val c = Some v → (index = 0 → v ≤ 7) → 0 ≤ a < 2 ^ 123 →
  decode_loop index a (c :: l) = decode_loop (index + 1) (a * 32 + v) l.
Proof.
  intros Hc Hv Ha. pose proof (nth_crockford _ _ Hc) as [_ Hr]. cbn [decode_loop].
  rewrite Hc. cbn [ok_or]. rewrite bind_Ok_l.
  assert ((index =? 0) && (7 <? v) = false) as ->.
  { destruct (Z.eqb_spec index 0), (Z.ltb_spec 7 v); cbn; try done. lia. }
  cbn [fail_if]. rewrite bind_Ok_l, shiftl_land_u128, lor_shiftl by lia. done.
Qed.

Lemma digit_div value i : 0 ≤ i →
  Z.land (Z.shiftr value (5 * i)) 31 = (value / 32 ^ i) mod 32.
Proof.
  intros Hi. change 31 with (Z.ones 5).
  rewrite Z.land_ones, Z.shiftr_div_pow2, Z.pow_mul_r by lia. done.
Qed.

Lemma decode_loop_encode n index a v :
  0 < index → (n ≤ 25)%nat → 0 ≤ a < 2 ^ (128 - 5 * Z.of_nat n) →
  decode_loop index a (encode_digits n v) = Ok (a * 32 ^ Z.of_nat n + v mod 32 ^ Z.of_nat n).
Proof.
  revert index a. induction n as [|n IH]; intros index a Hi Hn Ha.
  { cbn. rewrite Z.mod_1_r. f_equal. lia. }
  cbn [encode_digits]. rewrite digit_div by lia.
  set (d := (v / 32 ^ Z.of_nat n) mod 32).
  assert (0 ≤ d < 32) as Hd by (by apply Z.mod_pos_bound).
  assert (2 ^ (128 - 5 * Z.of_nat (S n)) ≤ 2 ^ 123) by (apply Z.pow_le_mono_r; lia).
  rewrite (decode_loop_cons _ _ _ d); [| |lia|lia].
  2:{ by rewrite crockford_nth, Z2Nat.id by lia. }
  replace (128 - 5 * Z.of_nat n) with (5 + (128 - 5 * Z.of_nat (S n))) in IH by lia.
  rewrite Z.pow_add_r in IH by lia. change (2 ^ 5) with 32 in IH.
  rewrite IH by lia. f_equal.
  rewrite Nat2Z.inj_succ, Z.pow_succ_r, (Z.mul_comm 32), Z.rem_mul_r by lia.
  unfold d. lia.
Qed.

Lemma decode_loop_Ok index a l r :
  0 < index → (length l ≤ 25)%nat → 0 ≤ a < 2 ^ (128 - 5 * Z.of_nat (length l)) →
  decode_loop index a l = Ok r →
  encode_digits (length l) r = l ∧
  a * 32 ^ Z.of_nat (length l) ≤ r < (a + 1) * 32 ^ Z.of_nat (length l).
Proof.
  revert index a. induction l as [|c l IH]; intros index a Hi Hn Ha.
  { cbn. intros [= <-]. split; [done|lia]. }
  cbn [length] in *.
  assert (2 ^ (128 - 5 * Z.of_nat (S (length l))) ≤ 2 ^ 123) by (apply Z.pow_le_mono_r; lia).
  destruct (crockford_val c) as [v|] eqn:Ec; [|cbn; by rewrite Ec].
  pose proof (nth_crockford _ _ Ec) as [Hnth Hv].
  rewrite (decode_loop_cons _ _ _ v) by (done || lia).
  replace (128 - 5 * Z.of_nat (length l)) with (5 + (128 - 5 * Z.of_nat (S (length l)))) in IH
    by lia.
  rewrite Z.pow_add_r in IH by lia. change (2 ^ 5) with 32 in IH.
  intros [Henc Hr]%IH; [|lia..].
  assert (0 < 32 ^ Z.of_nat (length l)) as HP by (apply Z.pow_pos_nonneg; lia).
  rewrite Nat2Z.inj_succ, Z.pow_succ_r by lia. split; [|nia].
  cbn [encode_digits]. rewrite digit_div, Henc by lia. f_equal. etrans; [|exact Hnth].
  do 2 f_equal.
  replace (r / 32 ^ Z.of_nat (length l)) with (a * 32 + v).
  - by rewrite Z.add_comm, Z.mod_add, Z.mod_small by lia.
  - apply (Z.div_unique _ _ _ (r - (a * 32 + v) * 32 ^ Z.of_nat (length l))); lia.
Qed.

Lemma decode_ulid_Ok body v :
  decode_ulid body = Ok v ↔ 0 ≤ v ≤ u128_max ∧ body = encode_ulid v.
Proof.
  unfold decode_ulid, encode_ulid. rewrite bind_Ok. setoid_rewrite fail_if_Ok. split.
  - intros (_ & Hlen & Hd). bool_inv. apply Nat.eqb_eq in Hlen.
    destruct body as [|c l]; [done|]. cbn [length] in Hlen. injection Hlen as Hl.
    assert (∃ d, crockford_val c = Some d ∧ d ≤ 7) as (d & Hc & Hd7).
    { cbn [decode_loop] in Hd. destruct (crockford_val c) as [d|]; [|done].
      exists d. split; [done|]. cbn in Hd. destruct (Z.ltb_spec 7 d); [done|lia]. }
    pose proof (nth_crockford _ _ Hc) as [Hnth Hr].
    rewrite (decode_loop_cons _ _ _ d) in Hd by (done || lia).
    apply decode_loop_Ok in Hd as [Henc Hb]; [|lia|lia|rewrite Hl; cbn; lia].
    rewrite Hl in Henc, Hb. change (Z.of_nat 25) with 25 in Hb.
    split; [unfold u128_max; lia|].
    change ULID_LEN with (S 25). rewrite encode_digits_S. rewrite Henc, digit_div by lia.
    f_equal. etrans; [symmetry; exact Hnth|]. do 2 f_equal.
    change (Z.of_nat 25) with 25.
    replace (v / 32 ^ 25) with (0 * 32 + d).
    + symmetry. by rewrite Z.add_comm, Z.mod_add, Z.mod_small by lia.
    + apply (Z.div_unique _ _ _ (v - (0 * 32 + d) * 32 ^ 25)); lia.
  - intros [Hv ->]. exists tt. split; [by rewrite encode_digits_length|].
    change ULID_LEN with (S 25). rewrite encode_digits_S. rewrite digit_div by lia.
    change (Z.of_nat 25) with 25.
    assert (0 ≤ v / 32 ^ 25 ≤ 7) as Hd.
    { split; [apply Z.div_pos; lia|]. unfold u128_max in Hv.
      apply Z.lt_succ_r, Z.div_lt_upper_bound; lia. }
    rewrite (decode_loop_cons _ _ _ (v / 32 ^ 25)); [| |lia|lia].
    2:{ by rewrite (Z.mod_small (v / 32 ^ 25)), crockford_nth, Z2Nat.id by lia. }
    rewrite decode_loop_encode by (cbn; lia). f_equal. change (Z.of_nat 25) with 25.
    rewrite (Z.div_mod v (32 ^ 25)) at 3 by lia. lia.
Qed.

(** ** Prefixes *)
Lemma display_strip k k' v :
  strip_prefix (bytes (PREFIX k)) (display k' v) =
  if decide (k = k') then Some (encode_ulid v) else None.
Proof. destruct k, k'; reflexivity. Qed.

Lemma from_str_display k v : 0 ≤ v ≤ u128_max → from_str k (display k v) = Ok v.
Proof.
  intros Hv. unfold from_str. rewrite display_strip, decide_True by done. cbn [ok_or].
  rewrite bind_Ok_l. by apply decode_ulid_Ok.
Qed.

(** Identifiers have one spelling and one kind: [from_str] accepts, for each kind, exactly
    the text that [display] gives to some 128-bit value, and returns that value; text of
    another kind is refused for its prefix.  So two identifiers are equal exactly when their
    text is. *)
Theorem ulid_text_canonical k s v :
  (from_str k s = Ok v ↔ 0 ≤ v ≤ u128_max ∧ s = display k v) ∧
  (∀ k', k ≠ k' → from_str k (display k' v) = Err (Prefix (PREFIX k))) ∧
  (∀ k' v', 0 ≤ v ≤ u128_max → 0 ≤ v' ≤ u128_max →
     display k v = display k' v' → k = k' ∧ v = v').
Proof.
  assert (∀ s v, from_str k s = Ok v ↔ 0 ≤ v ≤ u128_max ∧ s = display k v) as Hspec.
  { clear. intros s v. unfold from_str. rewrite bind_Ok. setoid_rewrite ok_or_Ok.
    setoid_rewrite strip_prefix_Some. setoid_rewrite decode_ulid_Ok. unfold display. split.
    - intros (body & -> & Hv & ->). done.
    - intros [Hv ->]. eauto. }
  assert (∀ k' v, k ≠ k' → from_str k (display k' v) = Err (Prefix (PREFIX k))) as Hother.
  { intros k' v' Hk. unfold from_str. by rewrite display_strip, decide_False. }
  split_and!; [apply Hspec|auto|].
  intros k' v' Hv Hv' Heq. destruct (decide (k = k')) as [<-|Hk].
  - split; [done|]. pose proof (proj2 (Hspec (display k v) v) (conj Hv eq_refl)) as H1.
    pose proof (proj2 (Hspec (display k v') v') (conj Hv' eq_refl)) as H2.
    rewrite Heq in H1. congruence.
  - pose proof (proj2 (Hspec (display k v) v) (conj Hv eq_refl)) as H1.
    by rewrite Heq, Hother in H1.
Qed.

Lemma ulid_text_canonical_witness :
  from_str LeaseId_ (bytes "lease_0000000000000000000000002A") = Ok 74 ∧
  from_str LeaseId_ (bytes "lease_80000000000000000000000000") = Err Overflow ∧
  display LeaseId_ 74 ≠ display LeaseId_ 75.
Proof.
  destruct (ulid_text_canonical LeaseId_ (bytes "lease_0000000000000000000000002A") 74)
    as (H & _ & Hinj).
  split_and!.
  - apply H. vm_compute. split; [by split|reflexivity].
  - vm_compute. reflexivity.
  - intros Heq. destruct (Hinj LeaseId_ 75) as [_ Hv]; [vm_compute; by split..|done|]. discriminate Hv.
Defined.

(** ** Validated strings *)
Lemma validate_chars_Ok index allowed l u :
  validate_chars index allowed l = Ok u ↔
  ∀ i c, l !! i = Some c → allowed (index + Z.of_nat i) c = true.
Proof.
  revert index. induction l as [|c l IH]; intros index; cbn [validate_chars].
  { destruct u. naive_solver. }
  rewrite bind_Ok. setoid_rewrite fail_if_Ok. setoid_rewrite negb_false_iff.
  setoid_rewrite IH. split.
  - intros (_ & Hc & Hl) [|i] d; cbn; [intros [= <-]; by rewrite Z.add_0_r|].
    intros Hd. specialize (Hl i d Hd). by replace (index + Z.of_nat (S i)) with (index + 1 + Z.of_nat i) by lia.
  - intros Hall. exists tt. split.
    + specialize (Hall 0%nat c eq_refl). by rewrite Z.add_0_r in Hall.
    + intros i d Hd. specialize (Hall (S i) d Hd).
      by replace (index + 1 + Z.of_nat i) with (index + Z.of_nat (S i)) by lia.
Qed.

Lemma validate_chars_Err index allowed l e :
  validate_chars index allowed l = Err e →
  ∃ i c, e = InvalidChar (index + Z.of_nat i) ∧ l !! i = Some c ∧
    allowed (index + Z.of_nat i) c = false ∧
    ∀ j d, (j < i)%nat → l !! j = Some d → allowed (index + Z.of_nat j) d = true.
Proof.
  revert index. induction l as [|c l IH]; intros index; cbn [validate_chars]; [done|].
  destruct (allowed index c) eqn:Ec; cbn [negb fail_if].
  - rewrite bind_Ok_l. intros (i & d & -> & Hi & Hd & Hlt)%IH. exists (S i), d.
    replace (index + Z.of_nat (S i)) with (index + 1 + Z.of_nat i) by lia.
    split_and!; [done..|]. intros [|j] b Hj; cbn; [intros [= <-]; by rewrite Z.add_0_r|].
    intros Hb. specialize (Hlt j b ltac:(lia) Hb).
    by replace (index + Z.of_nat (S j)) with (index + 1 + Z.of_nat j) by lia.
  - intros [= <-]. exists 0%nat, c. rewrite Z.add_0_r. split_and!; [done..|]. lia.
Qed.

Lemma validate_ascii_id_Ok s max allowed u :
  validate_ascii_id s max allowed = Ok u ↔
  1 ≤ Z.of_nat (length s) ≤ max ∧ ∀ i c, s !! i = Some c → allowed (Z.of_nat i) c = true.
Proof.
  unfold validate_ascii_id. rewrite bind_Ok. setoid_rewrite bind_Ok.
  setoid_rewrite fail_if_Ok. setoid_rewrite bool_decide_eq_false. setoid_rewrite Z.ltb_ge.
  setoid_rewrite validate_chars_Ok. split.
  - intros (_ & Hne & _ & Hmax & Hall). split; [|done]. destruct s; [done|]. cbn in *. lia.
  - intros [[Hmin Hmax] Hall]. exists tt. split; [by intros ->|]. exists tt. done.
Qed.

(** Rule references and service identifiers are exactly the strings their documentation
    allows, and validation keeps them as they are; a refused string is empty, too long, or
    reported with its first offending byte. *)
Theorem identifier_validation s t :
  (RuleRef_new s = Ok t ↔
     t = s ∧ 1 ≤ Z.of_nat (length s) ≤ 128 ∧ Forall (λ c, is_ascii_graphic c = true) s) ∧
  (ServiceId_new s = Ok t ↔
     t = s ∧ 1 ≤ Z.of_nat (length s) ≤ 64 ∧
     ∀ i c, s !! i = Some c →
       is_ascii_lowercase c = true ∨ is_ascii_digit c = true ∨
       ((0 < i)%nat ∧ c ∈ [".";"_";":";"-"]%char)) ∧
  (∀ e, ServiceId_new s = Err e →
     (e = IdEmpty ∧ s = []) ∨ (e = TooLong 64 (Z.of_nat (length s)) ∧ 64 < Z.of_nat (length s)) ∨
     ∃ i c, e = InvalidChar (Z.of_nat i) ∧ s !! i = Some c ∧ service_char (Z.of_nat i) c = false ∧
       ∀ j d, (j < i)%nat → s !! j = Some d → service_char (Z.of_nat j) d = true).
Proof.
  split_and!.
  - unfold RuleRef_new, RuleRef_MAX_BYTES. rewrite bind_Ok. setoid_rewrite validate_ascii_id_Ok.
    rewrite Forall_lookup. split.
    + intros (_ & [Hlen Hall] & [= <-]). split_and!; [done|lia..|]. intros i c Hi.
      specialize (Hall i c Hi). bool_inv. done.
    + intros (-> & Hlen & Hall). exists tt. split_and!; [lia..| |done]. intros i c Hi.
      rewrite (Hall i c Hi), andb_true_r. apply Z.leb_le. lia.
  - unfold ServiceId_new, ServiceId_MAX_BYTES. rewrite bind_Ok. setoid_rewrite validate_ascii_id_Ok.
    assert (∀ i c, service_char (Z.of_nat i) c = true ↔
      is_ascii_lowercase c = true ∨ is_ascii_digit c = true ∨
       ((0 < i)%nat ∧ c ∈ [".";"_";":";"-"]%char)) as Hch.
    { intros i c. unfold service_char.
      rewrite !orb_true_iff, andb_true_iff, bool_decide_eq_true, Z.ltb_lt.
      assert (0 < Z.of_nat i ↔ (0 < i)%nat) as -> by (split; lia). tauto. }
    setoid_rewrite Hch. split.
    + intros (_ & [Hlen Hall] & [= <-]). done.
    + intros (-> & Hlen & Hall). exists tt. done.
  - intros e. unfold ServiceId_new, validate_ascii_id. intros H.
    apply bind_Err in H as [H|(? & _ & [=])].
    apply bind_Err in H as [H|(? & _ & H)].
    { apply fail_if_Err in H as [H <-]. bool_inv. by left. }
    apply bind_Err in H as [H|(? & _ & H)].
    { apply fail_if_Err in H as [H <-]. bool_inv. right; left. done. }
    apply validate_chars_Err in H as (i & c & H). right; right. by exists i, c.
Qed.

Lemma identifier_validation_witness :
  ServiceId_new (bytes "ssh:github") = Ok (bytes "ssh:github") ∧
  ServiceId_new (bytes "-aws") = Err (InvalidChar 0) ∧
  (∃ i c, ServiceId_new (bytes "aws prod") = Err (InvalidChar (Z.of_nat i)) ∧
     bytes "aws prod" !! i = Some c ∧ service_char (Z.of_nat i) c = false).
Proof.
  destruct (identifier_validation (bytes "aws prod") []) as (_ & _ & H).
  split_and!; [reflexivity..|].
  destruct (H (InvalidChar 3)) as [[[=] _]|[[[=] _]|(i & c & He & Hi & Hc & _)]]; [reflexivity|].
  exists i, c. rewrite <-He. auto.
Defined.
