(* ===== verification/Authority.v ===== *)
(** * Authority: task-bound delegated leases ([crates/ward-authority/src/lib.rs])

    Bounded capability and resource names, canonical grant sets, root leases, delegation
    and the validation of wire envelopes.  Times are Unix milliseconds ([u64], only ever
    compared), identities are 128-bit numbers. *)

From stdpp Require Import base numbers option gmap sorting strings list.
From S2P Require Import Prelude Bytes.

Abbreviation LeaseId := N.
Abbreviation DelegationId := N.
Abbreviation PrincipalId := N.
Abbreviation AgentId := N.
Abbreviation TaskId := N.

(** ** Bounded names *)
Definition MAX_CAPABILITY_BYTES : Z := 64.
Definition MAX_RESOURCE_BYTES : Z := 256.

Inductive AuthorityTextError : Set := InvalidAuthorityText.

Record CapabilityName := MkCapabilityName { capability_str : string }.
Record ResourceRef := MkResourceRef { resource_str : string }.

#[export] Instance CapabilityName_eq_dec : EqDecision CapabilityName.
Proof. solve_decision. Defined.
#[export] Instance ResourceRef_eq_dec : EqDecision ResourceRef.
Proof. solve_decision. Defined.

Definition capability_first (b : byte) : bool := is_ascii_lowercase b || is_ascii_digit b.
Definition capability_byte (b : byte) : bool :=
  is_ascii_lowercase b || is_ascii_digit b
  || bool_decide (b = "."%char ∨ b = "_"%char ∨ b = "-"%char).

Definition CapabilityName_new (value : string) : result AuthorityTextError CapabilityName :=
  if bool_decide (value = EmptyString)
     || (MAX_CAPABILITY_BYTES <? len value)%Z
     || negb (match head (bytes value) with Some b => capability_first b | None => false end)
     || negb (forallb capability_byte (bytes value))
  then Err InvalidAuthorityText
  else Ok (MkCapabilityName value).

Definition ResourceRef_new (value : string) : result AuthorityTextError ResourceRef :=
  if bool_decide (value = EmptyString)
     || (MAX_RESOURCE_BYTES <? len value)%Z
     || negb (forallb is_ascii (bytes value))
     || existsb (λ b, negb (is_ascii_graphic b)) (bytes value)
  then Err InvalidAuthorityText
  else Ok (MkResourceRef value).

(** ** Grants and canonical grant sets *)
Record CapabilityGrant := MkGrant {
  g_capability : CapabilityName;
  g_resource : ResourceRef;
  g_delegable : bool;
}.

#[export] Instance CapabilityGrant_eq_dec : EqDecision CapabilityGrant.
Proof. solve_decision. Defined.

Definition same_scope (a b : CapabilityGrant) : bool :=
  bool_decide (g_capability a = g_capability b) && bool_decide (g_resource a = g_resource b).

(** The derived [Ord]: capability text, then resource text, then [false < true]. *)
Definition bool_compare (a b : bool) : comparison :=
  match a, b with
  | false, true => Lt
  | true, false => Gt
  | _, _ => Eq
  end.
Definition grant_compare (a b : CapabilityGrant) : comparison :=
  match String.compare (capability_str (g_capability a)) (capability_str (g_capability b)) with
  | Eq =>
      match String.compare (resource_str (g_resource a)) (resource_str (g_resource b)) with
      | Eq => bool_compare (g_delegable a) (g_delegable b)
      | c => c
      end
  | c => c
  end.
Definition grant_le (a b : CapabilityGrant) : Prop := grant_compare a b ≠ Gt.
#[export] Instance grant_le_dec : RelDecision grant_le.
Proof. intros a b. unfold grant_le. solve_decision. Defined.

Definition GrantSet := list CapabilityGrant.

Inductive GrantSetError : Set := DuplicateGrant | NonCanonicalOrder.

(** [values.windows(2).any(|pair| pair[0].same_scope(&pair[1]))] *)
Fixpoint adjacent_same_scope (l : list CapabilityGrant) : bool :=
  match l with
  | a :: (b :: _) as l' => same_scope a b || adjacent_same_scope l'
  | _ => false
  end.

Definition GrantSet_new (grants : list CapabilityGrant) : result GrantSetError GrantSet :=
  let values := merge_sort grant_le grants in
  if adjacent_same_scope values then Err DuplicateGrant else Ok values.

Definition GrantSet_deserialize (wire : list CapabilityGrant) : result GrantSetError GrantSet :=
  canonical ← GrantSet_new wire;
  _ ← fail_if (bool_decide (canonical ≠ wire)) NonCanonicalOrder;
  Ok canonical.

(** ** Leases *)
Record LeaseVersion := MkVersion { version_get : Z }.
#[export] Instance LeaseVersion_eq_dec : EqDecision LeaseVersion.
Proof. solve_decision. Defined.

Inductive LeaseVersionError : Set := ZeroVersion.
Definition LeaseVersion_new (value : Z) : result LeaseVersionError LeaseVersion :=
  if (value =? 0)%Z then Err ZeroVersion else Ok (MkVersion value).

Record AuthorityLeaseInput := {
  in_id : LeaseId;
  in_delegation_id : DelegationId;
  in_issuer : PrincipalId;
  in_subject : AgentId;
  in_task : TaskId;
  in_grants : GrantSet;
  in_issued_at : Z;
  in_expires_at : Z;
  in_version : LeaseVersion;
}.

Record DelegationInput := {
  d_id : LeaseId;
  d_delegation_id : DelegationId;
  d_subject : AgentId;
  d_task : TaskId;
  d_grants : GrantSet;
  d_issued_at : Z;
  d_expires_at : Z;
  d_version : LeaseVersion;
}.

Inductive EmptyAuthorityPolicy : Set := Reject | Allow.
#[export] Instance EmptyAuthorityPolicy_eq_dec : EqDecision EmptyAuthorityPolicy.
Proof. solve_decision. Defined.

Record AuthorityLease := MkLease {
  l_id : LeaseId;
  l_delegation_id : DelegationId;
  l_issuer : PrincipalId;
  l_subject : AgentId;
  l_task : TaskId;
  l_parent : option LeaseId;
  l_delegated_by : option AgentId;
  l_grants : GrantSet;
  l_issued_at : Z;
  l_expires_at : Z;
  l_version : LeaseVersion;
}.
#[export] Instance AuthorityLease_eq_dec : EqDecision AuthorityLease.
Proof. solve_decision. Defined.

Inductive AuthorityLeaseError : Set :=
| InvalidLifetime
| NotYetValid
| Expired
| LeaseIdReuse
| DelegationIdReuse
| EmptyAuthorityNotAllowed
| TaskMismatch
| LifetimeOutsideParent
| NonIncreasingVersion
| AuthorityWidening
| GrantNotDelegable
| LineageMismatch
| DelegationBindingMismatch.
#[export] Instance AuthorityLeaseError_eq_dec : EqDecision AuthorityLeaseError.
Proof. solve_decision. Defined.

Definition validate_lifetime (issued_at expires_at : Z) : result AuthorityLeaseError unit :=
  fail_if (expires_at <=? issued_at)%Z InvalidLifetime.

Definition validate_active_interval (issued_at expires_at now : Z) :
    result AuthorityLeaseError unit :=
  if (now <? issued_at)%Z then Err NotYetValid
  else if (expires_at <=? now)%Z then Err Expired
  else Ok tt.

Definition validate_empty_policy (grants : GrantSet) (policy : EmptyAuthorityPolicy) :
    result AuthorityLeaseError unit :=
  fail_if (bool_decide (grants = []) && bool_decide (policy = Reject)) EmptyAuthorityNotAllowed.

Definition root (input : AuthorityLeaseInput) (now : Z) (empty : EmptyAuthorityPolicy) :
    result AuthorityLeaseError AuthorityLease :=
  _ ← validate_lifetime (in_issued_at input) (in_expires_at input);
  _ ← validate_active_interval (in_issued_at input) (in_expires_at input) now;
  _ ← validate_empty_policy (in_grants input) empty;
  Ok {| l_id := in_id input;
        l_delegation_id := in_delegation_id input;
        l_issuer := in_issuer input;
        l_subject := in_subject input;
        l_task := in_task input;
        l_parent := None;
        l_delegated_by := None;
        l_grants := in_grants input;
        l_issued_at := in_issued_at input;
        l_expires_at := in_expires_at input;
        l_version := in_version input |}.

(** The [for child in input.grants] loop of [delegate]. *)
Fixpoint check_contracted (parent child : list CapabilityGrant) : result AuthorityLeaseError unit :=
  match child with
  | [] => Ok tt
  | c :: rest =>
      match List.find (λ g, same_scope g c) parent with
      | None => Err AuthorityWidening
      | Some p => if g_delegable p then check_contracted parent rest else Err GrantNotDelegable
      end
  end.

Definition delegate (self : AuthorityLease) (input : DelegationInput) (now : Z)
    (empty : EmptyAuthorityPolicy) : result AuthorityLeaseError AuthorityLease :=
  _ ← validate_active_interval (l_issued_at self) (l_expires_at self) now;
  _ ← validate_lifetime (d_issued_at input) (d_expires_at input);
  _ ← fail_if (bool_decide (d_id input = l_id self)) LeaseIdReuse;
  _ ← fail_if (bool_decide (d_delegation_id input = l_delegation_id self)) DelegationIdReuse;
  _ ← fail_if (bool_decide (d_task input ≠ l_task self)) TaskMismatch;
  _ ← fail_if ((d_issued_at input <? l_issued_at self)%Z
               || (l_expires_at self <? d_expires_at input)%Z) LifetimeOutsideParent;
  _ ← validate_active_interval (d_issued_at input) (d_expires_at input) now;
  _ ← fail_if (version_get (d_version input) <=? version_get (l_version self))%Z
        NonIncreasingVersion;
  _ ← validate_empty_policy (d_grants input) empty;
  _ ← check_contracted (l_grants self) (d_grants input);
  Ok {| l_id := d_id input;
        l_delegation_id := d_delegation_id input;
        l_issuer := l_issuer self;
        l_subject := d_subject input;
        l_task := l_task self;
        l_parent := Some (l_id self);
        l_delegated_by := Some (l_subject self);
        l_grants := d_grants input;
        l_issued_at := d_issued_at input;
        l_expires_at := d_expires_at input;
        l_version := d_version input |}.

Definition is_active_at (self : AuthorityLease) (now : Z) : bool :=
  (l_issued_at self <=? now)%Z && (now <? l_expires_at self)%Z.

Definition to_input (self : AuthorityLease) : AuthorityLeaseInput :=
  {| in_id := l_id self;
     in_delegation_id := l_delegation_id self;
     in_issuer := l_issuer self;
     in_subject := l_subject self;
     in_task := l_task self;
     in_grants := l_grants self;
     in_issued_at := l_issued_at self;
     in_expires_at := l_expires_at self;
     in_version := l_version self |}.

(** ** Wire envelopes *)
Record DelegationBinding := {
  b_lease_id : LeaseId;
  b_delegation_id : DelegationId;
  b_subject : AgentId;
  b_task : TaskId;
  b_version : LeaseVersion;
}.

Record UntrustedAuthorityLease := MkUntrusted {
  w_id : LeaseId;
  w_delegation_id : DelegationId;
  w_issuer : PrincipalId;
  w_subject : AgentId;
  w_task : TaskId;
  w_parent : option LeaseId;
  w_delegated_by : option AgentId;
  w_grants : GrantSet;
  w_issued_at : Z;
  w_expires_at : Z;
  w_version : LeaseVersion;
}.

(** [impl From<&AuthorityLease> for UntrustedAuthorityLease] *)
Definition untrusted_of (lease : AuthorityLease) : UntrustedAuthorityLease :=
  {| w_id := l_id lease;
     w_delegation_id := l_delegation_id lease;
     w_issuer := l_issuer lease;
     w_subject := l_subject lease;
     w_task := l_task lease;
     w_parent := l_parent lease;
     w_delegated_by := l_delegated_by lease;
     w_grants := l_grants lease;
     w_issued_at := l_issued_at lease;
     w_expires_at := l_expires_at lease;
     w_version := l_version lease |}.

Definition wire_delegation (wire : UntrustedAuthorityLease) : DelegationInput :=
  {| d_id := w_id wire;
     d_delegation_id := w_delegation_id wire;
     d_subject := w_subject wire;
     d_task := w_task wire;
     d_grants := w_grants wire;
     d_issued_at := w_issued_at wire;
     d_expires_at := w_expires_at wire;
     d_version := w_version wire |}.

Definition validate_delegated (self : AuthorityLease) (wire : UntrustedAuthorityLease)
    (expected : DelegationBinding) (now : Z) (empty : EmptyAuthorityPolicy) :
    result AuthorityLeaseError AuthorityLease :=
  _ ← fail_if (bool_decide (w_parent wire ≠ Some (l_id self))
               || bool_decide (w_delegated_by wire ≠ Some (l_subject self))
               || bool_decide (w_issuer wire ≠ l_issuer self)) LineageMismatch;
  _ ← fail_if (bool_decide (w_id wire ≠ b_lease_id expected)
               || bool_decide (w_delegation_id wire ≠ b_delegation_id expected)
               || bool_decide (w_subject wire ≠ b_subject expected)
               || bool_decide (w_task wire ≠ b_task expected)
               || bool_decide (w_version wire ≠ b_version expected)) DelegationBindingMismatch;
  delegate self (wire_delegation wire) now empty.

Definition into_issuer_verified_root (self : UntrustedAuthorityLease) (now : Z)
    (empty : EmptyAuthorityPolicy) : result AuthorityLeaseError AuthorityLease :=
  if bool_decide (is_Some (w_parent self)) || bool_decide (is_Some (w_delegated_by self))
  then Err LineageMismatch
  else root {| in_id := w_id self;
               in_delegation_id := w_delegation_id self;
               in_issuer := w_issuer self;
               in_subject := w_subject self;
               in_task := w_task self;
               in_grants := w_grants self;
               in_issued_at := w_issued_at self;
               in_expires_at := w_expires_at self;
               in_version := w_version self |} now empty.

(** ** Specification vocabulary *)

(** The exact scope of a grant: what [same_scope] compares. *)
Definition scope (g : CapabilityGrant) : string * string :=
  (capability_str (g_capability g), resource_str (g_resource g)).

(** The canonical form of a grant set: in the derived order, one entry per scope. *)
Definition canonical (s : list CapabilityGrant) : Prop :=
  StronglySorted grant_le s ∧ NoDup (scope <$> s).

(** [covers parent g]: [parent] holds [g]'s exact scope and may pass it on. *)
Definition covers (parent : GrantSet) (g : CapabilityGrant) : Prop :=
  ∃ p, p ∈ parent ∧ scope p = scope g ∧ g_delegable p = true.

(** What [delegate] promises to check, as a proposition. *)
Record may_delegate (self : AuthorityLease) (input : DelegationInput) (now : Z)
    (empty : EmptyAuthorityPolicy) : Prop := {
  md_parent_active : is_active_at self now = true;
  md_active : (d_issued_at input ≤ now < d_expires_at input)%Z;
  md_within : (l_issued_at self ≤ d_issued_at input)%Z ∧ (d_expires_at input ≤ l_expires_at self)%Z;
  md_fresh : d_id input ≠ l_id self ∧ d_delegation_id input ≠ l_delegation_id self;
  md_task : d_task input = l_task self;
  md_version : (version_get (l_version self) < version_get (d_version input))%Z;
  md_nonempty : d_grants input = [] → empty = Allow;
  md_contracts : Forall (covers (l_grants self)) (d_grants input);
}.

(** The delegation lineages a trusted issuer and its delegates can build: the lease and its
    ancestors, nearest first.  A [GrantSet] value is canonical by construction. *)
Inductive delegation_chain : AuthorityLease → list AuthorityLease → Prop :=
| chain_root input now empty lease :
    canonical (in_grants input) →
    root input now empty = Ok lease →
    delegation_chain lease []
| chain_delegate parent ancestors input now empty lease :
    delegation_chain parent ancestors →
    canonical (d_grants input) →
    delegate parent input now empty = Ok lease →
    delegation_chain lease (parent :: ancestors).

(** ** The derived order on grants *)
Lemma ascii_compare_code a b : Ascii.compare a b = (code a ?= code b)%Z.
Proof. unfold Ascii.compare, code. by rewrite N2Z.inj_compare. Qed.

Lemma string_compare_trans_le a b c :
  String.compare a b ≠ Gt → String.compare b c ≠ Gt → String.compare a c ≠ Gt.
Proof.
  revert b c. induction a as [|x a IH]; intros [|y b] [|z c]; cbn; try done.
  rewrite !ascii_compare_code.
  destruct (Z.compare_spec (code x) (code y)), (Z.compare_spec (code y) (code z)),
    (Z.compare_spec (code x) (code z)); try done; try lia. apply IH.
Qed.

Lemma string_compare_refl a : String.compare a a = Eq.
Proof. induction a as [|x a IH]; cbn; [done|]. by rewrite ascii_compare_code, Z.compare_refl. Qed.

Lemma string_compare_eq a b : String.compare a b = Eq ↔ a = b.
Proof. split; [apply String.compare_eq_iff|]. intros ->. apply string_compare_refl. Qed.

Lemma string_compare_lt_irrefl a : String.compare a a = Lt → False.
Proof. by rewrite string_compare_refl. Qed.

Lemma string_compare_lt_asym a b : String.compare a b = Lt → String.compare b a = Lt → False.
Proof. intros Ha Hb. rewrite String.compare_antisym, Hb in Ha. done. Qed.

Lemma bool_compare_antisym a b : bool_compare a b = CompOpp (bool_compare b a).
Proof. by destruct a, b. Qed.

Lemma grant_compare_antisym a b : grant_compare a b = CompOpp (grant_compare b a).
Proof.
  unfold grant_compare.
  rewrite (String.compare_antisym (capability_str (g_capability a))).
  destruct (String.compare (capability_str (g_capability b)) _); cbn; try done.
  rewrite (String.compare_antisym (resource_str (g_resource a))).
  destruct (String.compare (resource_str (g_resource b)) _); cbn; try done.
  apply bool_compare_antisym.
Qed.

#[export] Instance grant_le_total : Total grant_le.
Proof.
  intros a b. unfold grant_le. rewrite (grant_compare_antisym b a).
  destruct (grant_compare a b); cbn; auto.
Qed.

(** The order compares scopes first: a middle grant between two of one scope has it too. *)
Lemma grant_le_scope a b :
  grant_le a b ↔
  String.compare (scope a).1 (scope b).1 = Lt ∨
  ((scope a).1 = (scope b).1 ∧
   (String.compare (scope a).2 (scope b).2 = Lt ∨
    ((scope a).2 = (scope b).2 ∧ bool_compare (g_delegable a) (g_delegable b) ≠ Gt))).
Proof.
  unfold grant_le, grant_compare, scope. cbn.
  rewrite <-!string_compare_eq.
  destruct (String.compare (capability_str _) (capability_str _)); try naive_solver.
  destruct (String.compare (resource_str _) (resource_str _)); naive_solver.
Qed.

Lemma string_compare_lt_trans a b c :
  String.compare a b = Lt → String.compare b c ≠ Gt → String.compare a c = Lt.
Proof.
  intros H1 H2. pose proof (string_compare_trans_le a b c) as H.
  destruct (String.compare a c) eqn:E; [|done|].
  - apply string_compare_eq in E. subst c.
    rewrite String.compare_antisym, H1 in H2. done.
  - exfalso. apply H; congruence.
Qed.

Lemma string_compare_le_lt_trans a b c :
  String.compare a b ≠ Gt → String.compare b c = Lt → String.compare a c = Lt.
Proof.
  intros H1 H2. destruct (String.compare a b) eqn:E; [| |done].
  - apply string_compare_eq in E. congruence.
  - apply (string_compare_lt_trans a b c); congruence.
Qed.

#[export] Instance grant_le_trans : Transitive grant_le.
Proof.
  intros a b c. rewrite !grant_le_scope.
  intros [H1|[E1 [H1|[F1 H1]]]] [H2|[E2 [H2|[F2 H2]]]].
  all: rewrite ?E1, ?E2, ?F1, ?F2; try (left; congruence).
  - left. apply (string_compare_lt_trans _ (scope b).1); congruence.
  - right. split; [done|left]. apply (string_compare_lt_trans _ (scope b).2); congruence.
  - right. split; [done|]. left. congruence.
  - right. split; [done|]. left. congruence.
  - right. split; [done|right]. split; [done|].
    destruct (g_delegable a), (g_delegable b), (g_delegable c); done.
Qed.

Lemma grant_le_antisym_scope a b : grant_le a b → grant_le b a → scope a = scope b.
Proof.
  rewrite !grant_le_scope. intros H1 H2.
  pose proof string_compare_lt_asym. pose proof string_compare_lt_irrefl.
  destruct (scope a) as [ca ra], (scope b) as [cb rb]; cbn in *. naive_solver.
Qed.

#[export] Instance grant_le_antisym : AntiSymm (=) grant_le.
Proof.
  intros a b H1 H2. pose proof (grant_le_antisym_scope a b H1 H2) as Hs.
  apply grant_le_scope in H1, H2. rewrite Hs, !string_compare_refl in H1, H2.
  destruct a as [[ca] [ra] da], b as [[cb] [rb] db]. unfold scope in Hs; cbn in *.
  simplify_eq. f_equal. destruct da, db; naive_solver.
Qed.

Lemma same_scope_spec a b : same_scope a b = true ↔ scope a = scope b.
Proof.
  unfold same_scope, scope. rewrite andb_true_iff, !bool_decide_eq_true.
  destruct a as [[?] [?] ?], b as [[?] [?] ?]; cbn. naive_solver.
Qed.

(** On a sorted list the adjacent-pair test finds every repeated scope. *)
Lemma adjacent_same_scope_sorted l :
  StronglySorted grant_le l → adjacent_same_scope l = false ↔ NoDup (scope <$> l).
Proof.
  induction 1 as [|a l Hs IH Ha]; [by split; constructor|].
  destruct l as [|b l]; [split; [intros _; apply NoDup_singleton|done]|].
  change (adjacent_same_scope (a :: b :: l)) with (same_scope a b || adjacent_same_scope (b :: l)).
  rewrite orb_false_iff, <-not_true_iff_false, same_scope_spec, IH.
  rewrite (fmap_cons scope a), (NoDup_cons (scope a)).
  split; intros [H1 H2]; (split; [|done]).
  - rewrite list_elem_of_fmap. intros (c & Hc & Hin). apply H1.
    assert (grant_le b c) as Hbc.
    { apply elem_of_cons in Hin as [->|Hin]; [by destruct (grant_le_total b b)|].
      apply StronglySorted_inv in Hs as [_ Hb]. by rewrite Forall_forall in Hb; apply Hb. }
    assert (grant_le a b) as Hab by (by inversion Ha).
    apply grant_le_scope in Hab, Hbc. rewrite <-Hc in Hbc.
    destruct (scope a) as [ca ra], (scope b) as [cb rb]; cbn in *.
    pose proof string_compare_lt_asym. pose proof string_compare_lt_irrefl.
    naive_solver.
  - intros E. apply H1. rewrite E, fmap_cons. apply list_elem_of_here.
Qed.

Lemma merge_sort_sorted (l : list CapabilityGrant) :
  StronglySorted grant_le (merge_sort grant_le l).
Proof. apply StronglySorted_merge_sort; apply _. Qed.

Lemma merge_sort_id (l : list CapabilityGrant) :
  StronglySorted grant_le l → merge_sort grant_le l = l.
Proof.
  intros Hl. apply (StronglySorted_unique grant_le); [apply merge_sort_sorted|done|].
  apply merge_sort_Permutation.
Qed.

(** ** Grant sets *)
Lemma NoDup_scope_sort grants :
  NoDup (scope <$> merge_sort grant_le grants) ↔ NoDup (scope <$> grants).
Proof. by rewrite (merge_sort_Permutation grant_le grants). Qed.

Lemma GrantSet_new_Ok grants s :
  GrantSet_new grants = Ok s ↔ NoDup (scope <$> grants) ∧ s = merge_sort grant_le grants.
Proof.
  unfold GrantSet_new.
  pose proof (adjacent_same_scope_sorted _ (merge_sort_sorted grants)) as Hadj.
  rewrite NoDup_scope_sort in Hadj.
  destruct (adjacent_same_scope _); naive_solver.
Qed.

Lemma GrantSet_new_canonical grants s : GrantSet_new grants = Ok s → canonical s.
Proof.
  rewrite GrantSet_new_Ok. intros [Hnd ->]. split; [apply merge_sort_sorted|].
  by rewrite NoDup_scope_sort.
Qed.

Lemma GrantSet_deserialize_Ok wire s :
  GrantSet_deserialize wire = Ok s ↔ s = wire ∧ canonical wire.
Proof.
  unfold GrantSet_deserialize, canonical. split.
  - intros H. res_inv. apply GrantSet_new_Ok in H as [Hnd ->]. bool_inv.
    apply dec_stable in H0. rewrite H0. split; [done|]. split; [|done].
    rewrite <-H0. apply merge_sort_sorted.
  - intros (-> & Hs & Hnd). pose proof (merge_sort_id wire Hs) as E.
    replace (GrantSet_new wire) with (@Ok GrantSetError _ wire); cbn.
    + by rewrite bool_decide_false by auto.
    + symmetry. by apply GrantSet_new_Ok.
Qed.

(** [GrantSet::new] accepts exactly the grant lists with one entry per exact
    capability/resource scope; what it returns is the same grants in the derived order, so
    the adjacent-pair test on the sorted vector misses no duplicate. *)
Theorem grant_set_new_spec grants :
  match GrantSet_new grants with
  | Ok s => s ≡ₚ grants ∧ canonical s ∧ NoDup (scope <$> grants)
  | Err e => e = DuplicateGrant ∧ ¬ NoDup (scope <$> grants)
  end.
Proof.
  destruct (GrantSet_new grants) as [s|e] eqn:E.
  - pose proof (GrantSet_new_canonical _ _ E) as Hc. apply GrantSet_new_Ok in E as [? ->].
    split_and!; [apply merge_sort_Permutation|done..].
  - unfold GrantSet_new in E.
    destruct (adjacent_same_scope _) eqn:A; simplify_eq. split; [done|]. intros Hnd.
    rewrite <-NoDup_scope_sort in Hnd.
    apply (adjacent_same_scope_sorted _ (merge_sort_sorted grants)) in Hnd. congruence.
Qed.

(** The wire form of a grant set is canonical: deserialization accepts a list exactly
    when it is sorted with distinct scopes, returns it unchanged, and so every set
    [GrantSet::new] builds is read back from the wire as itself. *)
Theorem grant_set_wire_roundtrip :
  (∀ wire s, GrantSet_deserialize wire = Ok s ↔ s = wire ∧ canonical wire) ∧
  (∀ grants s, GrantSet_new grants = Ok s → GrantSet_deserialize s = Ok s) ∧
  (∀ g1 g2, g1 ≡ₚ g2 → is_ok (GrantSet_new g1) = true → GrantSet_new g1 = GrantSet_new g2).
Proof.
  split; [apply GrantSet_deserialize_Ok|split].
  - intros grants s H. apply GrantSet_deserialize_Ok.
    split; [done|]. by eapply GrantSet_new_canonical.
  - intros g1 g2 Hp [s E]%is_ok_Ok. rewrite E. symmetry.
    apply GrantSet_new_Ok in E as [Hnd ->]. apply GrantSet_new_Ok.
    split; [by rewrite <-Hp|].
    apply (StronglySorted_unique grant_le); try apply merge_sort_sorted.
    by rewrite !merge_sort_Permutation.
Qed.

(** ** Lifetimes *)
Lemma validate_active_interval_Ok i e now u :
  validate_active_interval i e now = Ok u ↔ (i ≤ now < e)%Z.
Proof.
  unfold validate_active_interval. destruct u.
  destruct (Z.ltb_spec now i), (Z.leb_spec e now); naive_solver lia.
Qed.

Lemma is_active_at_spec l now :
  is_active_at l now = true ↔ (l_issued_at l ≤ now < l_expires_at l)%Z.
Proof. unfold is_active_at. rewrite andb_true_iff, Z.leb_le, Z.ltb_lt. done. Qed.

Lemma validate_empty_policy_Ok g p u :
  validate_empty_policy g p = Ok u ↔ (g = [] → p = Allow).
Proof.
  unfold validate_empty_policy. rewrite fail_if_Ok, andb_false_iff, !bool_decide_eq_false.
  destruct p, g; naive_solver.
Qed.

(** ** Contraction *)
Lemma find_same_scope parent c p :
  NoDup (scope <$> parent) →
  List.find (λ g, same_scope g c) parent = Some p ↔ p ∈ parent ∧ scope p = scope c.
Proof.
  intros Hnd. split.
  - intros [Hin Hs]%find_Some_elem. by rewrite same_scope_spec in Hs.
  - intros [Hin Hs]. destruct (List.find _ _) as [q|] eqn:E.
    + apply find_Some_elem in E as [Hq Hsq]. rewrite same_scope_spec in Hsq. f_equal.
      apply list_elem_of_lookup in Hin as [i Hi], Hq as [j Hj].
      assert (i = j) as ->; [|congruence].
      apply (NoDup_lookup (scope <$> parent) i j (scope c) Hnd);
        rewrite list_lookup_fmap, ?Hi, ?Hj; cbn; congruence.
    + pose proof (find_None_elem _ _ E p Hin) as Hf. cbn in Hf.
      apply not_true_iff_false in Hf. by rewrite same_scope_spec in Hf.
Qed.

Lemma check_contracted_Ok parent child u :
  NoDup (scope <$> parent) →
  check_contracted parent child = Ok u ↔ Forall (covers parent) child.
Proof.
  intros Hnd. destruct u. induction child as [|c child IH]; cbn; [by split|].
  rewrite Forall_cons, <-IH. unfold covers.
  destruct (List.find _ _) as [p|] eqn:E.
  - apply find_same_scope in E as [Hp Hs]; [|done].
    destruct (g_delegable p) eqn:D.
    { split; [|tauto]. intros ?. split; [|done]. by exists p. }
    split; [done|]. intros [(q & Hq & Hsq & Dq) _].
    assert (Some p = Some q) as [=->]; [|congruence].
    rewrite <-(proj2 (find_same_scope parent c p Hnd) (conj Hp Hs)).
    by apply find_same_scope.
  - split; [done|]. intros [(q & Hq & Hsq & _) _].
    by rewrite (proj2 (find_same_scope parent c q Hnd) (conj Hq Hsq)) in E.
Qed.

Definition delegated_lease (self : AuthorityLease) (input : DelegationInput) : AuthorityLease :=
  MkLease (d_id input) (d_delegation_id input) (l_issuer self) (d_subject input) (l_task self)
    (Some (l_id self)) (Some (l_subject self)) (d_grants input) (d_issued_at input)
    (d_expires_at input) (d_version input).

Lemma delegate_Ok self input now empty child :
  canonical (l_grants self) →
  delegate self input now empty = Ok child ↔
  may_delegate self input now empty ∧ child = delegated_lease self input.
Proof.
  intros [_ Hnd]. unfold delegate. split.
  - intros H. res_inv. unfold validate_lifetime in *.
    repeat match goal with
    | H : validate_active_interval _ _ _ = Ok _ |- _ => apply validate_active_interval_Ok in H
    | H : validate_empty_policy _ _ = Ok _ |- _ => rewrite validate_empty_policy_Ok in H
    | H : check_contracted _ _ = Ok _ |- _ => apply (check_contracted_Ok _ _ _ Hnd) in H
    end.
    res_inv. bool_inv. split; [|done].
    constructor; rewrite ?is_active_at_spec; auto; by apply dec_stable.
  - intros [[Ha [Ht1 Ht2] [Hw1 Hw2] [Hf1 Hf2] Htask Hv He Hc] ->].
    apply is_active_at_spec in Ha. unfold validate_lifetime.
    res_ok ltac:(first
      [ by apply validate_active_interval_Ok
      | by apply validate_empty_policy_Ok
      | by apply (check_contracted_Ok _ _ _ Hnd)
      | apply fail_if_Ok; first
          [ apply bool_decide_eq_false; tauto
          | apply orb_false_iff; rewrite !Z.ltb_ge; lia
          | apply Z.leb_gt; lia ] ]).
    done.
Qed.

Lemma check_contracted_Err parent child e :
  NoDup (scope <$> parent) → check_contracted parent child = Err e →
  (e = AuthorityWidening ∧ ∃ c, c ∈ child ∧ ∀ p, p ∈ parent → scope p ≠ scope c) ∨
  (e = GrantNotDelegable ∧
   ∃ c p, c ∈ child ∧ p ∈ parent ∧ scope p = scope c ∧ g_delegable p = false).
Proof.
  intros Hnd. induction child as [|c child IH]; cbn; [done|].
  destruct (List.find _ _) as [p|] eqn:E.
  - apply find_same_scope in E as [Hp Hs]; [|done].
    destruct (g_delegable p) eqn:D.
    + intros [(-> & c' & ? & ?)|(-> & c' & p' & ? & ?)]%IH; [left|right]; (split; [done|]).
      * exists c'. auto using list_elem_of_further.
      * exists c', p'. split; [|done]. by apply list_elem_of_further.
    + intros [= <-]. right. split; [done|]. exists c, p. auto using list_elem_of_here.
  - intros; simplify_eq. left. split; [done|]. exists c. split; [apply list_elem_of_here|].
    intros p Hp Hs. by rewrite (proj2 (find_same_scope parent c p Hnd) (conj Hp Hs)) in E.
Qed.

(** [delegate] decides exactly its documented rules: it succeeds when, and only when,
    parent and child are active, the child keeps the task, uses fresh lease and delegation
    ids, stays inside the parent's lifetime, raises the version and asks only for grants the
    parent holds as delegable; the child records its parent and delegator. A refused child
    breaks a rule, and the two contraction errors name which one. *)
Theorem delegate_decides self input now empty :
  canonical (l_grants self) →
  match delegate self input now empty with
  | Ok child => may_delegate self input now empty ∧ child = delegated_lease self input
  | Err e =>
      ¬ may_delegate self input now empty ∧
      (e = AuthorityWidening →
       ∃ c, c ∈ d_grants input ∧ ∀ p, p ∈ l_grants self → scope p ≠ scope c) ∧
      (e = GrantNotDelegable →
       ∃ c p, c ∈ d_grants input ∧ p ∈ l_grants self ∧ scope p = scope c ∧ g_delegable p = false)
  end.
Proof.
  intros Hc. destruct (delegate self input now empty) as [child|e] eqn:E.
  { by apply delegate_Ok. }
  split.
  { intros Hm. pose proof (proj2 (delegate_Ok self input now empty _ Hc) (conj Hm eq_refl)).
    congruence. }
  destruct Hc as [_ Hnd]. unfold delegate in E.
  repeat (apply bind_Err in E as [E|([] & _ & E)];
    [unfold validate_lifetime, validate_empty_policy, validate_active_interval in E;
     first [ apply (check_contracted_Err _ _ _ Hnd) in E as [[-> ?]|[-> ?]]; split; by intros
           | repeat case_match; res_inv; split; done ]|]).
  done.
Qed.

(** ** Lineages only ever narrow authority *)
Lemma root_Ok input now empty lease :
  root input now empty = Ok lease →
  to_input lease = input ∧ l_parent lease = None ∧ l_delegated_by lease = None ∧
  is_active_at lease now = true.
Proof.
  unfold root. intros H. res_inv. rewrite is_active_at_spec. cbn.
  match goal with H : validate_active_interval _ _ _ = Ok _ |- _ =>
    apply validate_active_interval_Ok in H end.
  by destruct input.
Qed.

Lemma chain_canonical lease ancestors :
  delegation_chain lease ancestors → canonical (l_grants lease).
Proof.
  destruct 1 as [input now empty lease Hc H|parent ancestors input now empty lease ? Hc H].
  - apply root_Ok in H as [<- _]. done.
  - unfold delegate in H. by res_inv.
Qed.

(** [narrower child anc]: everything [child] may do, [anc] may do and delegate. *)
Record narrower (child anc : AuthorityLease) : Prop := {
  nw_task : l_task child = l_task anc;
  nw_issuer : l_issuer child = l_issuer anc;
  nw_version : (version_get (l_version anc) < version_get (l_version child))%Z;
  nw_lifetime : ∀ t, is_active_at child t = true → is_active_at anc t = true;
  nw_grants : Forall (covers (l_grants anc)) (l_grants child);
}.

#[export] Instance narrower_trans : Transitive narrower.
Proof.
  intros a b c [? ? ? Hl Hg] [? ? ? Hl' Hg'].
  constructor; try (congruence || lia); [by auto|].
  rewrite Forall_forall in *. intros g Hgr.
  destruct (Hg g Hgr) as (p & Hp & Hs & _). destruct (Hg' p Hp) as (q & Hq & Hs' & Hd).
  exists q. split_and!; congruence.
Qed.

Lemma delegate_narrower parent input now empty child :
  canonical (l_grants parent) → delegate parent input now empty = Ok child →
  narrower child parent.
Proof.
  intros Hc [Hm ->]%delegate_Ok; [|done]. destruct Hm. constructor; cbn; try done.
  intros t. rewrite !is_active_at_spec; cbn. lia.
Qed.

Lemma chain_narrower lease ancestors :
  delegation_chain lease ancestors → ∀ anc, anc ∈ ancestors → narrower lease anc.
Proof.
  induction 1 as [|parent ancestors input now empty lease Hp IH Hc H]; intros anc Hin.
  { by apply elem_of_nil in Hin. }
  pose proof (delegate_narrower _ _ _ _ _ (chain_canonical _ _ Hp) H) as Hn.
  apply elem_of_cons in Hin as [->|Hin]; [done|]. etrans; [done|]. by apply IH.
Qed.

(** C6. Authority only contracts along a delegation lineage, however long: a lease derived
    by any chain of delegations keeps the task and root issuer of every ancestor, has a
    strictly higher version, is active only while that ancestor is, and holds only grants
    whose exact scope that ancestor holds as delegable. *)
Theorem delegation_chain_attenuates lease ancestors anc :
  delegation_chain lease ancestors → anc ∈ ancestors → narrower lease anc.
Proof. intros Hc. by apply chain_narrower. Qed.

(** ** The wire *)
Definition binding_of (lease : AuthorityLease) : DelegationBinding :=
  {| b_lease_id := l_id lease; b_delegation_id := l_delegation_id lease;
     b_subject := l_subject lease; b_task := l_task lease; b_version := l_version lease |}.

Lemma validate_delegated_Ok self wire expected now empty child :
  validate_delegated self wire expected now empty = Ok child ↔
  w_parent wire = Some (l_id self) ∧ w_delegated_by wire = Some (l_subject self) ∧
  w_issuer wire = l_issuer self ∧
  expected = {| b_lease_id := w_id wire; b_delegation_id := w_delegation_id wire;
                b_subject := w_subject wire; b_task := w_task wire; b_version := w_version wire |} ∧
  delegate self (wire_delegation wire) now empty = Ok child.
Proof.
  unfold validate_delegated. split.
  - intros H. res_inv. bool_inv.
    repeat match goal with H : ¬ _ ≠ _ |- _ => apply dec_stable in H end.
    destruct expected; cbn in *; subst. by rewrite <-?H0, <-?H1.
  - intros (? & ? & ? & -> & ?); cbn.
    res_ok ltac:(apply fail_if_Ok; rewrite !orb_false_iff, !bool_decide_eq_false; tauto).
    done.
Qed.

(** The wire carries leases faithfully. A child delegated under [self], sent as an
    untrusted envelope and validated against the same parent and the expected identities,
    is accepted as exactly that child; a root lease is likewise promoted back to itself; and
    an accepted envelope is exactly the lease the parent could have delegated. *)
Theorem lease_wire_roundtrip :
  (∀ self input now empty child,
     delegate self input now empty = Ok child →
     validate_delegated self (untrusted_of child) (binding_of child) now empty = Ok child) ∧
  (∀ input now empty lease,
     root input now empty = Ok lease →
     into_issuer_verified_root (untrusted_of lease) now empty = Ok lease) ∧
  (∀ self wire expected now empty child,
     validate_delegated self wire expected now empty = Ok child →
     untrusted_of child = wire ∧ expected = binding_of child) ∧
  (∀ wire now empty lease,
     into_issuer_verified_root wire now empty = Ok lease → untrusted_of lease = wire).
Proof.
  split_and!.
  - intros self input now empty child H. apply validate_delegated_Ok.
    unfold delegate in H |- *. res_inv; cbn. split_and!; try done.
    bool_inv. match goal with H : ¬ d_task _ ≠ _ |- _ => apply dec_stable in H; rewrite <-H in * end.
    res_ok ltac:(first [ eassumption | apply fail_if_Ok; first
      [ eassumption | apply bool_decide_eq_false; tauto
      | apply orb_false_iff; rewrite !Z.ltb_ge; lia | apply Z.leb_gt; lia ] ]).
    done.
  - intros input now empty lease H. pose proof (root_Ok _ _ _ _ H) as (Hi & Hp & Hd & _).
    unfold into_issuer_verified_root. destruct lease; cbn in *. subst; cbn. exact H.
  - intros self wire expected now empty child H.
    apply validate_delegated_Ok in H as (Hp & Hd & Hi & -> & H).
    unfold delegate, wire_delegation in H. res_inv. bool_inv. destruct wire; cbn in *.
    match goal with H : ¬ _ ≠ l_task _ |- _ => apply dec_stable in H end.
    by subst.
  - intros wire now empty lease H. unfold into_issuer_verified_root in H.
    destruct (_ || _) eqn:E; [done|]. bool_inv.
    apply root_Ok in H as (Hi & Hp & Hd & _). destruct wire, lease; cbn in *.
    repeat match goal with H : ¬ is_Some _ |- _ => apply eq_None_not_Some in H end.
    inversion Hi. by subst.
Qed.

(** ** A concrete lineage: an issuer leases read and write of one repository for a task, the
    holder passes on the read grant for a shorter time. *)
Module AuthorityExample.
Definition grant (c r : string) (d : bool) : CapabilityGrant :=
  MkGrant (MkCapabilityName c) (MkResourceRef r) d.
Definition root_input : AuthorityLeaseInput :=
  {| in_id := 1; in_delegation_id := 10; in_issuer := 7; in_subject := 100; in_task := 5;
     in_grants := [grant "repo.read" "git:a" true; grant "repo.write" "git:a" false];
     in_issued_at := 1000; in_expires_at := 9000; in_version := MkVersion 1 |}.
Definition child_input : DelegationInput :=
  {| d_id := 2; d_delegation_id := 11; d_subject := 101; d_task := 5;
     d_grants := [grant "repo.read" "git:a" false];
     d_issued_at := 2000; d_expires_at := 8000; d_version := MkVersion 2 |}.
Definition root_lease : AuthorityLease :=
  MkLease 1 10 7 100 5 None None (in_grants root_input) 1000 9000 (MkVersion 1).
Definition child_lease : AuthorityLease :=
  MkLease 2 11 7 101 5 (Some 1%N) (Some 100%N) (d_grants child_input) 2000 8000 (MkVersion 2).
End AuthorityExample.
Import AuthorityExample.

Lemma root_lease_canonical : canonical (l_grants root_lease).
Proof. apply (GrantSet_deserialize_Ok _ (l_grants root_lease)). vm_compute. done. Qed.

Lemma child_lease_canonical : canonical (l_grants child_lease).
Proof. apply (GrantSet_deserialize_Ok _ (l_grants child_lease)). vm_compute. done. Qed.

Lemma example_chain : delegation_chain child_lease [root_lease].
Proof.
  apply (chain_delegate root_lease [] child_input 2500 Reject);
    [|apply child_lease_canonical|reflexivity].
  apply (chain_root root_input 2500 Reject); [apply root_lease_canonical|reflexivity].
Qed.

Lemma grant_set_wire_roundtrip_witness :
  GrantSet_deserialize (l_grants root_lease) = Ok (l_grants root_lease).
Proof.
  destruct grant_set_wire_roundtrip as (_ & H & _).
  apply (H (reverse (l_grants root_lease))). vm_compute. reflexivity.
Defined.

Lemma delegate_decides_witness :
  canonical (l_grants root_lease) ∧ may_delegate root_lease child_input 2500 Reject.
Proof.
  split; [apply root_lease_canonical|].
  pose proof (delegate_decides root_lease child_input 2500 Reject root_lease_canonical) as H.
  vm_compute delegate in H. apply H.
Defined.

Lemma delegation_chain_attenuates_witness : narrower child_lease root_lease.
Proof.
  apply (delegation_chain_attenuates child_lease [root_lease] root_lease example_chain).
  apply list_elem_of_here.
Defined.

Lemma lease_wire_roundtrip_witness :
  validate_delegated root_lease (untrusted_of child_lease) (binding_of child_lease) 2500 Reject
    = Ok child_lease.
Proof.
  destruct lease_wire_roundtrip as (H & _).
  apply (H root_lease child_input 2500%Z Reject). reflexivity.
Defined.
