(* ===== verification/Revocation.v ===== *)
(** * Revocation: monotone revocation facts and trusted lineages
      ([crates/ward-authority/src/revocation.rs])

    The revocation set is a map from lease to what is known about its revocation; recording
    a fact both updates the map and answers, so [record] returns the pair. *)

From stdpp Require Import base numbers option gmap sorting strings list.
From S2P Require Import Prelude Bytes Authority.

Inductive RevocationReason : Set := Operator | ByPolicy | DelegationRevoked | Security.
#[export] Instance RevocationReason_eq_dec : EqDecision RevocationReason.
Proof. solve_decision. Defined.

Record AuthorityRevocation := MkRevocation {
  r_lease_id : LeaseId;
  r_revoked_at : Z;
  r_reason : RevocationReason;
}.
#[export] Instance AuthorityRevocation_eq_dec : EqDecision AuthorityRevocation.
Proof. solve_decision. Defined.

Inductive RevocationState : Set :=
| Known (r : AuthorityRevocation)
| Conflict.
#[export] Instance RevocationState_eq_dec : EqDecision RevocationState.
Proof. solve_decision. Defined.

(** ** Trusted lineages *)
Record LeaseLineage := MkLineage { ln_lease_id : LeaseId; ln_ancestors : list LeaseId }.
#[export] Instance LeaseLineage_eq_dec : EqDecision LeaseLineage.
Proof. solve_decision. Defined.

Inductive LeaseLineageError : Set :=
| UnexpectedAncestorsForRoot
| DirectParentMismatch
| NonContiguousAncestor
| IncompleteAncestors
| AncestorBeyondRoot
| CurrentLeaseInAncestors
| DuplicateAncestor.
#[export] Instance LeaseLineageError_eq_dec : EqDecision LeaseLineageError.
Proof. solve_decision. Defined.

(** The loop of [for_lease]: [index], the parent still expected and the ids seen so far. *)
Fixpoint lineage_loop (lease_id : LeaseId) (index : nat) (expected : option LeaseId)
    (seen : gset LeaseId) (ancestors : list AuthorityLease) :
    result LeaseLineageError (list LeaseId) :=
  match ancestors with
  | [] => if bool_decide (is_Some expected) then Err IncompleteAncestors else Ok []
  | a :: rest =>
      _ ← fail_if (bool_decide (l_id a = lease_id)) CurrentLeaseInAncestors;
      _ ← fail_if (bool_decide (l_id a ∈ seen)) DuplicateAncestor;
      expected_id ← ok_or expected AncestorBeyondRoot;
      _ ← fail_if (bool_decide (l_id a ≠ expected_id))
            (if bool_decide (index = 0) then DirectParentMismatch else NonContiguousAncestor);
      ids ← lineage_loop lease_id (S index) (l_parent a) ({[l_id a]} ∪ seen) rest;
      Ok (l_id a :: ids)
  end.

Definition for_lease (lease : AuthorityLease) (ancestors : list AuthorityLease) :
    result LeaseLineageError LeaseLineage :=
  if bool_decide (l_parent lease = None) then
    if bool_decide (ancestors = [])
    then Ok {| ln_lease_id := l_id lease; ln_ancestors := [] |}
    else Err UnexpectedAncestorsForRoot
  else
    ids ← lineage_loop (l_id lease) 0 (l_parent lease) ∅ ancestors;
    Ok {| ln_lease_id := l_id lease; ln_ancestors := ids |}.

(** ** The revocation set *)
Abbreviation AuthorityRevocations := (gmap LeaseId RevocationState).

Inductive AuthorityRevocationError : Set := RevocationConflict.

Definition record (by_lease : AuthorityRevocations) (revocation : AuthorityRevocation) :
    result AuthorityRevocationError unit * AuthorityRevocations :=
  match by_lease !! r_lease_id revocation with
  | None => (Ok tt, <[r_lease_id revocation := Known revocation]> by_lease)
  | Some (Known existing) =>
      if bool_decide (existing = revocation) then (Ok tt, by_lease)
      else (Err RevocationConflict, <[r_lease_id revocation := Conflict]> by_lease)
  | Some Conflict =>
      (Err RevocationConflict, <[r_lease_id revocation := Conflict]> by_lease)
  end.

Definition id_is_unrevoked (by_lease : AuthorityRevocations) (id : LeaseId) (now : Z) : bool :=
  match by_lease !! id with
  | None => true
  | Some (Known revocation) => (now <? r_revoked_at revocation)%Z
  | Some Conflict => false
  end.

Definition is_usable (by_lease : AuthorityRevocations) (lease : AuthorityLease) (now : Z) : bool :=
  is_active_at lease now && id_is_unrevoked by_lease (l_id lease) now.

Definition is_usable_with_lineage (by_lease : AuthorityRevocations) (lease : AuthorityLease)
    (lineage : LeaseLineage) (now : Z) : bool :=
  if bool_decide (ln_lease_id lineage ≠ l_id lease) || negb (is_usable by_lease lease now)
  then false
  else forallb (λ a, id_is_unrevoked by_lease a now) (ln_ancestors lineage).

Definition is_conflicted (by_lease : AuthorityRevocations) (id : LeaseId) : bool :=
  bool_decide (by_lease !! id = Some Conflict).

(** ** Specification vocabulary *)

(** Recording a sequence of facts, errors ignored (the map is what later checks read). *)
Definition record_all (by_lease : AuthorityRevocations) (facts : list AuthorityRevocation) :
    AuthorityRevocations :=
  foldl (λ m f, (record m f).2) by_lease facts.

(** What a collection of facts says of one lease, whatever their order: nothing, one fact,
    or a conflict between two different ones. *)
Definition verdict (facts : list AuthorityRevocation) (id : LeaseId) : option RevocationState :=
  match filter (λ f, r_lease_id f = id) facts with
  | [] => None
  | f :: rest => Some (if bool_decide (Forall (λ g, g = f) rest) then Known f else Conflict)
  end.

(** [linked p ancestors]: each ancestor is the parent its predecessor records, up to a root. *)
Fixpoint linked (expected : option LeaseId) (ancestors : list AuthorityLease) : Prop :=
  match ancestors with
  | [] => expected = None
  | a :: rest => expected = Some (l_id a) ∧ linked (l_parent a) rest
  end.

(** ** Lineages *)
Lemma lineage_loop_Ok lease_id index expected seen ancestors ids :
  lineage_loop lease_id index expected seen ancestors = Ok ids ↔
  linked expected ancestors ∧ ids = l_id <$> ancestors ∧
  lease_id ∉ ids ∧ NoDup ids ∧ (∀ i, i ∈ ids → i ∉ seen).
Proof.
  revert index expected seen ids.
  induction ancestors as [|a rest IH]; intros index expected seen ids; cbn.
  { case_bool_decide as Hs; split.
    - done.
    - by intros (-> & _); destruct Hs.
    - intros [= <-]. apply eq_None_not_Some in Hs.
      split_and!; [done|done|apply not_elem_of_nil|constructor|].
      by intros i ?%elem_of_nil.
    - naive_solver. }
  split.
  - intros H. res_inv. bool_inv. apply dec_stable in H2. subst.
    apply IH in H3 as (Hl & -> & Hn & Hd & Hs).
    split_and!; [done|done|done|by apply not_elem_of_cons|..].
    + constructor; [|done]. intros Hin. by apply (Hs _ Hin); set_solver.
    + intros i [->|Hin]%elem_of_cons; [done|]. specialize (Hs _ Hin). set_solver.
  - intros ((-> & Hl) & -> & Hn & Hd & Hs).
    apply not_elem_of_cons in Hn as [Hn Hn']. apply NoDup_cons in Hd as [Ha Hd].
    res_ok ltac:(apply fail_if_Ok, bool_decide_eq_false;
      first [congruence | apply Hs, list_elem_of_here]).
    cbn. rewrite bool_decide_false by auto; cbn.
    rewrite (proj2 (IH (S index) (l_parent a) ({[l_id a]} ∪ seen) (l_id <$> rest))); [done|].
    split_and!; [done..|]. intros i Hi. specialize (Hs i). rewrite elem_of_cons in Hs.
    set_solver.
Qed.

Lemma for_lease_Ok lease ancestors lineage :
  for_lease lease ancestors = Ok lineage ↔
  linked (l_parent lease) ancestors ∧ NoDup (l_id lease :: (l_id <$> ancestors)) ∧
  lineage = MkLineage (l_id lease) (l_id <$> ancestors).
Proof.
  unfold for_lease. rewrite NoDup_cons. case_bool_decide as Hp.
  - rewrite Hp. case_bool_decide as Ha.
    + subst. cbn. split; [|naive_solver]. intros [= <-].
      split_and!; [done|apply not_elem_of_nil|constructor|done].
    + destruct ancestors; cbn; [done|]. naive_solver.
  - rewrite bind_Ok. split.
    + intros (ids & H & [= <-]). apply lineage_loop_Ok in H as (? & -> & ? & ? & _). done.
    + intros (? & [? ?] & ->). exists (l_id <$> ancestors). split; [|done].
      apply lineage_loop_Ok. split_and!; [done..|]. set_solver.
Qed.

Lemma chain_linked lease ancestors :
  delegation_chain lease ancestors → linked (l_parent lease) ancestors.
Proof.
  induction 1 as [input now empty lease _ H|parent ancestors input now empty lease _ IH _ H].
  - by apply root_Ok in H as (_ & -> & _).
  - unfold delegate in H. by res_inv.
Qed.

(** ** Facts never un-revoke *)
Lemma record_lookup_ne m f id : r_lease_id f ≠ id → (record m f).2 !! id = m !! id.
Proof.
  intros Hne. unfold record. repeat case_match; cbn; by rewrite ?lookup_insert_ne.
Qed.

Lemma record_lookup_eq m f :
  (record m f).2 !! r_lease_id f =
  Some (match m !! r_lease_id f with
        | None => Known f
        | Some (Known g) => if bool_decide (g = f) then Known g else Conflict
        | Some Conflict => Conflict
        end).
Proof.
  unfold record. repeat case_match; cbn; by rewrite ?lookup_insert_eq.
Qed.

Lemma record_unrevoked m f id t t' :
  (t ≤ t')%Z → id_is_unrevoked m id t = false →
  id_is_unrevoked (record m f).2 id t' = false.
Proof.
  intros Ht. unfold id_is_unrevoked. destruct (decide (r_lease_id f = id)) as [<-|Hne].
  - rewrite record_lookup_eq. destruct (m !! r_lease_id f) as [[g|]|]; [|done..].
    case_bool_decide; [|done]. rewrite !Z.ltb_ge. lia.
  - rewrite record_lookup_ne by done. destruct (m !! id) as [[g|]|]; [|done..].
    rewrite !Z.ltb_ge. lia.
Qed.

Lemma record_all_unrevoked m facts id t t' :
  (t ≤ t')%Z → id_is_unrevoked m id t = false →
  id_is_unrevoked (record_all m facts) id t' = false.
Proof.
  revert m t. induction facts as [|f facts IH]; intros m t Ht H; cbn.
  - unfold id_is_unrevoked in *. destruct (m !! id) as [[g|]|]; [|done..].
    rewrite Z.ltb_ge in *. lia.
  - apply (IH _ t); [done|]. by apply (record_unrevoked m f id t t).
Qed.

Lemma is_usable_with_lineage_spec m lease lineage now :
  is_usable_with_lineage m lease lineage now = true ↔
  ln_lease_id lineage = l_id lease ∧ is_active_at lease now = true ∧
  (∀ id, id ∈ l_id lease :: ln_ancestors lineage → id_is_unrevoked m id now = true).
Proof.
  unfold is_usable_with_lineage, is_usable. setoid_rewrite elem_of_cons.
  destruct (_ || _) eqn:E.
  - split; [done|]. intros (Hid & Ha & Hu). apply orb_true_iff in E as [E|E].
    + by apply bool_decide_eq_true in E.
    + by rewrite Ha, Hu in E by auto.
  - bool_inv. apply dec_stable in H. rewrite forallb_Forall, Forall_forall. naive_solver.
Qed.

(** [LeaseLineage::for_lease] accepts a list of ancestors exactly when every one is the
    parent its predecessor records, the last is a root, and no lease id repeats (the lease
    itself included); the lineage then lists exactly those ids, nearest first. So the
    ancestors of any delegated lease with distinct ids have a lineage. *)
Theorem lineage_complete lease ancestors :
  (∀ lineage, for_lease lease ancestors = Ok lineage ↔
     linked (l_parent lease) ancestors ∧ NoDup (l_id lease :: (l_id <$> ancestors)) ∧
     lineage = MkLineage (l_id lease) (l_id <$> ancestors)) ∧
  (delegation_chain lease ancestors → NoDup (l_id lease :: (l_id <$> ancestors)) →
   for_lease lease ancestors = Ok (MkLineage (l_id lease) (l_id <$> ancestors))).
Proof.
  split; [intros; apply for_lease_Ok|]. intros Hc Hnd. apply for_lease_Ok.
  split_and!; [by apply chain_linked|done..].
Qed.

(** Revocation is permanent and inherited: once a lease or one of its ancestors is
    revoked (or conflicted) at [t], no facts recorded later, in any order and however many,
    make the lease usable again at any later time. *)
Theorem revocation_permanent m facts lease lineage id t t' :
  ln_lease_id lineage = l_id lease →
  id ∈ l_id lease :: ln_ancestors lineage →
  id_is_unrevoked m id t = false → (t ≤ t')%Z →
  is_usable_with_lineage (record_all m facts) lease lineage t' = false.
Proof.
  intros Hid Hin Hr Ht. apply not_true_iff_false.
  rewrite is_usable_with_lineage_spec. intros (_ & _ & Hu). specialize (Hu id Hin).
  by rewrite (record_all_unrevoked m facts id t t') in Hu.
Qed.

(** A lease that passes the lineage check is backed by its whole lineage: for a lease
    delegated from [ancestors], usable under the lineage built from them, every ancestor is
    itself active and unrevoked at that instant and holds, as delegable, every grant the
    lease has. *)
Theorem usable_lease_backed_by_lineage m lease ancestors lineage now :
  delegation_chain lease ancestors →
  for_lease lease ancestors = Ok lineage →
  is_usable_with_lineage m lease lineage now = true →
  Forall (λ anc, is_usable m anc now = true ∧
                 Forall (covers (l_grants anc)) (l_grants lease)) ancestors.
Proof.
  intros Hc Hl Hu. apply for_lease_Ok in Hl as (_ & _ & ->).
  apply is_usable_with_lineage_spec in Hu as (_ & Ha & Hu); cbn in Hu.
  apply Forall_forall. intros anc Hin.
  destruct (chain_narrower lease ancestors Hc anc Hin) as [_ _ _ Hlife Hg].
  split; [|done]. unfold is_usable. rewrite (Hlife now Ha); cbn. apply Hu.
  apply list_elem_of_further, list_elem_of_fmap_2, Hin.
Qed.

(** ** Recording facts converges *)
Definition absorb (o : option RevocationState) (f : AuthorityRevocation) : option RevocationState :=
  Some (match o with
        | None => Known f
        | Some (Known g) => if bool_decide (g = f) then Known g else Conflict
        | Some Conflict => Conflict
        end).

Lemma record_all_lookup m facts id :
  record_all m facts !! id = foldl absorb (m !! id) (filter (λ f, r_lease_id f = id) facts).
Proof.
  revert m. induction facts as [|f facts IH]; intros m; [done|].
  change (record_all m (f :: facts)) with (record_all (record m f).2 facts).
  rewrite IH, filter_cons. case_decide as Hd; cbn.
  - f_equal. subst id. apply record_lookup_eq.
  - by rewrite record_lookup_ne.
Qed.

Lemma absorb_conflict fs : foldl absorb (Some Conflict) fs = Some Conflict.
Proof. by induction fs. Qed.

Lemma absorb_known f fs :
  foldl absorb (Some (Known f)) fs =
  Some (if bool_decide (Forall (λ g, g = f) fs) then Known f else Conflict).
Proof.
  induction fs as [|g fs IH]; [done|]. cbn. unfold absorb at 2.
  destruct (decide (f = g)) as [<-|Hg].
  - rewrite bool_decide_true, IH by done. f_equal.
    rewrite (bool_decide_ext (Forall _ (f :: fs)) (Forall (λ h, h = f) fs)); [done|].
    rewrite Forall_cons. naive_solver.
  - rewrite (bool_decide_false (f = g)), absorb_conflict, bool_decide_false; [done| |done].
    intros [-> _]%Forall_cons. done.
Qed.

Lemma record_all_verdict facts id : record_all ∅ facts !! id = verdict facts id.
Proof.
  rewrite record_all_lookup, lookup_empty. unfold verdict.
  destruct (filter _ facts) as [|f fs]; [done|]. apply absorb_known.
Qed.

Lemma verdict_perm facts facts' id : facts ≡ₚ facts' → verdict facts id = verdict facts' id.
Proof.
  intros Hp. unfold verdict.
  assert (filter (λ f, r_lease_id f = id) facts ≡ₚ filter (λ f, r_lease_id f = id) facts') as Hf.
  { by apply filter_Permutation. }
  destruct (filter _ facts) as [|f fs].
  { apply Permutation_nil_l in Hf. by rewrite <-Hf. }
  destruct (filter _ facts') as [|f' fs'].
  { symmetry in Hf. by apply Permutation_nil_cons in Hf. }
  assert (∀ (g : AuthorityRevocation) gs h hs, g :: gs ≡ₚ h :: hs → Forall (λ x, x = g) gs →
            h = g ∧ Forall (λ x, x = h) hs) as Hall.
  { intros g gs h hs Hgh Hg.
    assert (Forall (λ x, x = g) (h :: hs)) as [Hh Hhs]%Forall_cons.
    { rewrite <-Hgh. by constructor. }
    by subst. }
  f_equal. case_bool_decide as H1; case_bool_decide as H2; try done.
  - by destruct (Hall _ _ _ _ Hf H1) as [-> _].
  - by destruct (Hall _ _ _ _ Hf H1).
  - symmetry in Hf. by destruct (Hall _ _ _ _ Hf H2).
Qed.

(** The revocation set converges: after any sequence of facts, what it holds for a lease
    depends only on the facts recorded for it, not on their order or repetition: nothing, the
    one fact they all state, or a conflict as soon as two of them differ; a conflicted lease
    is unusable at every instant. *)
Theorem revocations_converge facts facts' :
  facts ≡ₚ facts' →
  record_all ∅ facts = record_all ∅ facts' ∧
  (∀ id, record_all ∅ facts !! id = verdict facts id) ∧
  (∀ lease now, is_conflicted (record_all ∅ facts) (l_id lease) = true →
     is_usable (record_all ∅ facts) lease now = false).
Proof.
  intros Hp. split_and!.
  - apply map_eq. intros id. rewrite !record_all_verdict. by apply verdict_perm.
  - intros id. apply record_all_verdict.
  - intros lease now. unfold is_conflicted, is_usable, id_is_unrevoked.
    rewrite bool_decide_eq_true. intros ->. apply andb_false_r.
Qed.

(** ** Witnesses *)
Import AuthorityExample.

Lemma example_lineage : for_lease child_lease [root_lease] = Ok (MkLineage 2 [1%N]).
Proof. vm_compute. reflexivity. Qed.

Lemma lineage_complete_witness :
  for_lease child_lease [root_lease] = Ok (MkLineage 2 [1%N]).
Proof.
  apply (proj2 (lineage_complete child_lease [root_lease]) example_chain).
  apply (bool_decide_unpack _). vm_compute. exact I.
Defined.

Lemma revocation_permanent_witness :
  is_usable_with_lineage
    (record_all (record ∅ (MkRevocation 1 3000 Operator)).2 [MkRevocation 1 9000 Security])
    child_lease (MkLineage 2 [1%N]) 4000 = false.
Proof.
  apply (revocation_permanent _ _ child_lease (MkLineage 2 [1%N]) 1 3000 4000).
  - reflexivity.
  - apply list_elem_of_further, list_elem_of_here.
  - vm_compute. reflexivity.
  - lia.
Defined.

Lemma usable_lease_backed_by_lineage_witness : is_usable ∅ root_lease 2500 = true.
Proof.
  pose proof (usable_lease_backed_by_lineage ∅ child_lease [root_lease] (MkLineage 2 [1%N]) 2500
    example_chain example_lineage eq_refl) as H.
  apply Forall_cons in H as [[H _] _]. exact H.
Defined.

Lemma revocations_converge_witness :
  record_all ∅ [MkRevocation 1 3 Operator; MkRevocation 2 4 Security]
  = record_all ∅ [MkRevocation 2 4 Security; MkRevocation 1 3 Operator].
Proof. apply revocations_converge. apply Permutation_swap. Defined.
