(* ===== verification/EventTypes.v ===== *)
(** * EventTypes: who produced an event, what kind it is, and sets of both
      ([crates/ward-events/src/origin.rs], the kinds of [event.rs])

    [OriginSet] and [EventKindSet] are bitmasks over a [u8] and a [u64]; both are built from
    the same bit operations, described here once by [BitIndexed]: every member has its own
    bit below the width of the mask. *)

From stdpp Require Import base numbers option gmap sorting strings list.
From S2P Require Import Prelude Bytes.
Local Open Scope Z_scope.

(** ** Origins *)
Inductive Origin : Set :=
| Kernel | Proxy | Wardd | Verifier | TamperWard | Agent | User | Node.
#[export] Instance Origin_eq_dec : EqDecision Origin.
Proof. solve_decision. Defined.

Definition Origin_ALL : list Origin :=
  [Kernel; Proxy; Wardd; Verifier; TamperWard; Agent; User; Node].

Definition tag (o : Origin) : Z :=
  match o with
  | Kernel => 1 | Proxy => 2 | Wardd => 3 | Verifier => 4
  | TamperWard => 5 | Agent => 6 | User => 7 | Node => 8
  end.

Definition from_tag (t : Z) : option Origin :=
  match t with
  | 1 => Some Kernel | 2 => Some Proxy | 3 => Some Wardd | 4 => Some Verifier
  | 5 => Some TamperWard | 6 => Some Agent | 7 => Some User | 8 => Some Node
  | _ => None
  end.

Definition is_enforcement_fact (o : Origin) : bool := negb (bool_decide (o = Agent)).

Definition Origin_label (o : Origin) : string :=
  match o with
  | Kernel => "kernel" | Proxy => "proxy" | Wardd => "wardd" | Verifier => "verifier"
  | TamperWard => "tamperward" | Agent => "agent" | User => "user" | Node => "node"
  end.

(** ** Event kinds *)
Inductive EventKind : Set :=
| SessionStarted | SessionEnded | AgentStateChanged | FileRead | FileModified
| CommandStarted | CommandFinished | NetworkRequested | NetworkDenied | CapabilityRequested
| CapabilityDecided | CredentialRequested | CredentialGranted | CredentialDenied
| CredentialRevoked | SnapshotCreated | PolicyDecision | PolicyDenied | TamperDetected
| VerificationRequested | VerificationStarted | VerificationProgress | VerificationPassed
| VerificationFailed | StateAccepted | AgentClaim | Anchor | SessionPaused | SessionResumed
| EntryRestored | VerificationErrored | LaunchAborted | ObservationsDropped
| SessionPauseUnsettled | VerificationAttemptStarted | VerificationCancelled
| VerificationInterrupted | VerificationTimedOut | CredentialGrantedLaunch
| WorkloadsTerminated | NodeAttemptAdmitted | NodeAttemptLaunched | NodeAttemptIntervened
| NodeAttemptEnded | NodeAttemptRecovered | NodeAttemptSealed | NodeAttemptOutputCollected
| NodeAttemptResourceUsage | NodeActionRequested | NodeActionAnswered | NodeActionRefused.
#[export] Instance EventKind_eq_dec : EqDecision EventKind.
Proof. solve_decision. Defined.

Definition EventKind_ALL : list EventKind :=
  [SessionStarted; SessionEnded; AgentStateChanged; FileRead; FileModified; CommandStarted;
   CommandFinished; NetworkRequested; NetworkDenied; CapabilityRequested; CapabilityDecided;
   CredentialRequested; CredentialGranted; CredentialDenied; CredentialRevoked;
   SnapshotCreated; PolicyDecision; PolicyDenied; TamperDetected; VerificationRequested;
   VerificationStarted; VerificationProgress; VerificationPassed; VerificationFailed;
   StateAccepted; AgentClaim; Anchor; SessionPaused; SessionResumed; EntryRestored;
   VerificationErrored; LaunchAborted; ObservationsDropped; SessionPauseUnsettled;
   VerificationAttemptStarted; VerificationCancelled; VerificationInterrupted;
   VerificationTimedOut; CredentialGrantedLaunch; WorkloadsTerminated; NodeAttemptAdmitted;
   NodeAttemptLaunched; NodeAttemptIntervened; NodeAttemptEnded; NodeAttemptRecovered;
   NodeAttemptSealed; NodeAttemptOutputCollected; NodeAttemptResourceUsage;
   NodeActionRequested; NodeActionAnswered; NodeActionRefused].

(** [self as u8]: the declared discriminant. *)
Definition discriminant (k : EventKind) : Z :=
  match k with
  | SessionStarted => 0 | SessionEnded => 1 | AgentStateChanged => 2 | FileRead => 3
  | FileModified => 4 | CommandStarted => 5 | CommandFinished => 6 | NetworkRequested => 7
  | NetworkDenied => 8 | CapabilityRequested => 9 | CapabilityDecided => 10
  | CredentialRequested => 11 | CredentialGranted => 12 | CredentialDenied => 13
  | CredentialRevoked => 14 | SnapshotCreated => 15 | PolicyDecision => 16
  | PolicyDenied => 17 | TamperDetected => 18 | VerificationRequested => 19
  | VerificationStarted => 20 | VerificationProgress => 21 | VerificationPassed => 22
  | VerificationFailed => 23 | StateAccepted => 24 | AgentClaim => 25 | Anchor => 26
  | SessionPaused => 27 | SessionResumed => 28 | EntryRestored => 29
  | VerificationErrored => 30 | LaunchAborted => 31 | ObservationsDropped => 32
  | SessionPauseUnsettled => 33 | VerificationAttemptStarted => 34
  | VerificationCancelled => 35 | VerificationInterrupted => 36 | VerificationTimedOut => 37
  | CredentialGrantedLaunch => 38 | WorkloadsTerminated => 39 | NodeAttemptAdmitted => 40
  | NodeAttemptLaunched => 41 | NodeAttemptIntervened => 42 | NodeAttemptEnded => 43
  | NodeAttemptRecovered => 44 | NodeAttemptSealed => 45 | NodeAttemptOutputCollected => 46
  | NodeAttemptResourceUsage => 47 | NodeActionRequested => 48 | NodeActionAnswered => 49
  | NodeActionRefused => 50
  end.

Definition EventKind_name (k : EventKind) : string :=
  match k with
  | SessionStarted => "session_started" | SessionEnded => "session_ended"
  | AgentStateChanged => "agent_state_changed" | FileRead => "file_read"
  | FileModified => "file_modified" | CommandStarted => "command_started"
  | CommandFinished => "command_finished" | NetworkRequested => "network_requested"
  | NetworkDenied => "network_denied" | CapabilityRequested => "capability_requested"
  | CapabilityDecided => "capability_decided" | CredentialRequested => "credential_requested"
  | CredentialGranted => "credential_granted" | CredentialDenied => "credential_denied"
  | CredentialRevoked => "credential_revoked" | SnapshotCreated => "snapshot_created"
  | PolicyDecision => "policy_decision" | PolicyDenied => "policy_denied"
  | TamperDetected => "tamper_detected" | VerificationRequested => "verification_requested"
  | VerificationStarted => "verification_started"
  | VerificationProgress => "verification_progress"
  | VerificationPassed => "verification_passed" | VerificationFailed => "verification_failed"
  | StateAccepted => "state_accepted" | AgentClaim => "agent_claim" | Anchor => "anchor"
  | SessionPaused => "session_paused" | SessionResumed => "session_resumed"
  | EntryRestored => "entry_restored" | VerificationErrored => "verification_errored"
  | LaunchAborted => "launch_aborted" | ObservationsDropped => "observations_dropped"
  | SessionPauseUnsettled => "session_pause_unsettled"
  | VerificationAttemptStarted => "verification_attempt_started"
  | VerificationCancelled => "verification_cancelled"
  | VerificationInterrupted => "verification_interrupted"
  | VerificationTimedOut => "verification_timed_out"
  | CredentialGrantedLaunch => "credential_granted_launch"
  | WorkloadsTerminated => "workloads_terminated"
  | NodeAttemptAdmitted => "node_attempt_admitted"
  | NodeAttemptLaunched => "node_attempt_launched"
  | NodeAttemptIntervened => "node_attempt_intervened"
  | NodeAttemptEnded => "node_attempt_ended"
  | NodeAttemptRecovered => "node_attempt_recovered"
  | NodeAttemptSealed => "node_attempt_sealed"
  | NodeAttemptOutputCollected => "node_attempt_output_collected"
  | NodeAttemptResourceUsage => "node_attempt_resource_usage"
  | NodeActionRequested => "node_action_requested"
  | NodeActionAnswered => "node_action_answered" | NodeActionRefused => "node_action_refused"
  end.

Definition is_critical (k : EventKind) : bool :=
  match k with
  | SessionStarted | SessionEnded | CredentialRequested | CredentialGranted
  | CredentialDenied | CredentialRevoked | VerificationRequested | VerificationStarted
  | VerificationPassed | VerificationFailed | VerificationErrored
  | VerificationAttemptStarted | VerificationCancelled | VerificationInterrupted
  | VerificationTimedOut | StateAccepted | TamperDetected | Anchor | SessionPaused
  | SessionResumed | EntryRestored | ObservationsDropped | SessionPauseUnsettled
  | CredentialGrantedLaunch | WorkloadsTerminated | NodeAttemptAdmitted | NodeAttemptLaunched
  | NodeAttemptIntervened | NodeAttemptEnded | NodeAttemptRecovered | NodeAttemptSealed
  | NodeAttemptOutputCollected | NodeAttemptResourceUsage | NodeActionRequested
  | NodeActionAnswered | NodeActionRefused => true
  | _ => false
  end.

Inductive ClaimKind : Set := ToolUse | Note | Plan.
#[export] Instance ClaimKind_eq_dec : EqDecision ClaimKind.
Proof. solve_decision. Defined.

(** ** Bitmasks *)

(** A finite enumeration laid out over the bits of a [w]-bit mask, in declaration order. *)
Class BitIndexed (K : Type) := {
  members : list K;
  bit_index : K → Z;
  mask_width : Z;
  bit_index_bound k : 0 ≤ bit_index k < mask_width;
  bit_index_inj k k' : bit_index k = bit_index k' → k = k';
  members_complete k : k ∈ members;
}.

Section bitset.
Context `{BitIndexed K}.

Definition bit (k : K) : Z := Z.shiftl 1 (bit_index k).
(** [!x] on a [mask_width]-bit integer. *)
Definition not_bits (x : Z) : Z := Z.lxor (Z.ones mask_width) x.
Definition set_with (s : Z) (k : K) : Z := Z.lor s (bit k).
Definition set_without (s : Z) (k : K) : Z := Z.land s (not_bits (bit k)).
Definition set_contains (s : Z) (k : K) : bool := negb (Z.land s (bit k) =? 0).
Definition set_iter `{EqDecision K} (s : Z) : list K := filter (λ k, set_contains s k = true) members.
Definition set_from_iter (l : list K) : Z := foldl set_with 0 l.
End bitset.

#[export, program] Instance Origin_bits : BitIndexed Origin := {|
  members := Origin_ALL;
  bit_index o := tag o - 1;
  mask_width := 8;
|}.
Next Obligation. intros []; cbn; lia. Qed.
Next Obligation. intros [] []; cbn; (done || lia). Qed.
Next Obligation. intros []; apply (bool_decide_unpack _); vm_compute; done. Qed.

#[export, program] Instance EventKind_bits : BitIndexed EventKind := {|
  members := EventKind_ALL;
  bit_index := discriminant;
  mask_width := 64;
|}.
Next Obligation. intros []; cbn; lia. Qed.
Next Obligation.
  intros k k' E.
  assert (∀ j, EventKind_ALL !! Z.to_nat (discriminant j) = Some j) as HA by (by intros []).
  pose proof (HA k) as Hk. rewrite E, HA in Hk. by injection Hk.
Qed.
Next Obligation. intros []; apply (bool_decide_unpack _); vm_compute; done. Qed.

(** ** [OriginSet] *)
Record OriginSet := MkOriginSet { origin_bits : Z }.
#[export] Instance OriginSet_eq_dec : EqDecision OriginSet.
Proof. solve_decision. Defined.
Inductive UnknownOriginBits : Set := UnknownOrigin (bits : Z).

Definition OriginSet_bit (o : Origin) : Z := bit o.
(** The [while index < ALL.len()] loop of [MASK]. *)
Definition OriginSet_MASK : Z := foldl (λ mask o, Z.lor mask (OriginSet_bit o)) 0 Origin_ALL.
Definition OriginSet_EMPTY : OriginSet := MkOriginSet 0.
Definition OriginSet_ALL : OriginSet := MkOriginSet OriginSet_MASK.
Definition OriginSet_enforcement_facts : OriginSet :=
  MkOriginSet (Z.land OriginSet_MASK (not_bits (OriginSet_bit Agent))).
Definition OriginSet_only (o : Origin) : OriginSet := MkOriginSet (OriginSet_bit o).
Definition OriginSet_with (s : OriginSet) (o : Origin) : OriginSet :=
  MkOriginSet (set_with (origin_bits s) o).
Definition OriginSet_without (s : OriginSet) (o : Origin) : OriginSet :=
  MkOriginSet (set_without (origin_bits s) o).
Definition OriginSet_contains (s : OriginSet) (o : Origin) : bool :=
  set_contains (origin_bits s) o.
Definition OriginSet_is_empty (s : OriginSet) : bool := origin_bits s =? 0.
Definition OriginSet_iter (s : OriginSet) : list Origin := set_iter (origin_bits s).
Definition OriginSet_try_from (bits : Z) : result UnknownOriginBits OriginSet :=
  _ ← fail_if (negb (Z.land bits OriginSet_MASK =? bits)) (UnknownOrigin bits);
  Ok (MkOriginSet bits).
Definition OriginSet_from_iter (l : list Origin) : OriginSet :=
  foldl OriginSet_with OriginSet_EMPTY l.

(** ** [EventKindSet] *)
Record EventKindSet := MkKindSet { kind_bits : Z }.
#[export] Instance EventKindSet_eq_dec : EqDecision EventKindSet.
Proof. solve_decision. Defined.
Inductive UnknownKindBits : Set := UnknownKind (bits : Z).

Definition EventKind_bit (k : EventKind) : Z := bit k.
(** [1u64.checked_shl(len)], minus one; [u64::MAX] once the catalogue fills the width. *)
Definition EventKindSet_MASK : Z :=
  let n := Z.of_nat (length EventKind_ALL) in
  if n <? 64 then Z.shiftl 1 n - 1 else u64_max.
Definition EventKindSet_EMPTY : EventKindSet := MkKindSet 0.
Definition EventKindSet_ALL : EventKindSet := MkKindSet EventKindSet_MASK.
Definition EventKindSet_only (k : EventKind) : EventKindSet := MkKindSet (EventKind_bit k).
Definition EventKindSet_with (s : EventKindSet) (k : EventKind) : EventKindSet :=
  MkKindSet (set_with (kind_bits s) k).
Definition EventKindSet_without (s : EventKindSet) (k : EventKind) : EventKindSet :=
  MkKindSet (set_without (kind_bits s) k).
Definition EventKindSet_contains (s : EventKindSet) (k : EventKind) : bool :=
  set_contains (kind_bits s) k.
Definition EventKindSet_is_empty (s : EventKindSet) : bool := kind_bits s =? 0.
Definition EventKindSet_iter (s : EventKindSet) : list EventKind := set_iter (kind_bits s).
Definition EventKindSet_try_from (bits : Z) : result UnknownKindBits EventKindSet :=
  _ ← fail_if (negb (Z.land bits EventKindSet_MASK =? bits)) (UnknownKind bits);
  Ok (MkKindSet bits).
Definition EventKindSet_from_iter (l : list EventKind) : EventKindSet :=
  foldl EventKindSet_with EventKindSet_EMPTY l.

(** ** Bitmasks are finite sets *)
Section bitset_lemmas.
Context `{BitIndexed K, EqDecision K}.
Implicit Types (s : Z) (k : K).

Lemma bit_testbit k j : 0 ≤ j → Z.testbit (bit k) j = bool_decide (j = bit_index k).
Proof.
  intros Hj. unfold bit. pose proof (bit_index_bound k).
  rewrite Z.shiftl_1_l, Z.pow2_bits_eqb by lia.
  destruct (Z.eqb_spec (bit_index k) j); case_bool_decide; congruence.
Qed.

Lemma set_contains_testbit s k : set_contains s k = Z.testbit s (bit_index k).
Proof.
  unfold set_contains. pose proof (bit_index_bound k) as Hb.
  destruct (Z.eqb_spec (Z.land s (bit k)) 0) as [E|E]; cbn.
  - apply (f_equal (λ z, Z.testbit z (bit_index k))) in E.
    rewrite Z.land_spec, bit_testbit, Z.bits_0, bool_decide_true in E by (done || lia).
    by rewrite andb_true_r in E.
  - symmetry. apply not_false_iff_true. intros Hf. apply E. apply Z.bits_inj'. intros j Hj.
    rewrite Z.land_spec, bit_testbit, Z.bits_0 by done.
    case_bool_decide; [by subst; rewrite Hf|apply andb_false_r].
Qed.

Lemma set_contains_with s k k' :
  set_contains (set_with s k) k' = set_contains s k' || bool_decide (k' = k).
Proof.
  rewrite !set_contains_testbit. unfold set_with. pose proof (bit_index_bound k').
  rewrite Z.lor_spec, bit_testbit by lia. f_equal. apply bool_decide_ext.
  split; [apply bit_index_inj|by intros ->].
Qed.

Lemma set_contains_without s k k' :
  set_contains (set_without s k) k' = set_contains s k' && negb (bool_decide (k' = k)).
Proof.
  rewrite !set_contains_testbit. unfold set_without, not_bits. pose proof (bit_index_bound k').
  rewrite Z.land_spec, Z.lxor_spec, bit_testbit, Z.ones_spec_low by lia.
  rewrite xorb_true_l. do 2 f_equal. apply bool_decide_ext.
  split; [apply bit_index_inj|by intros ->].
Qed.

Lemma set_contains_zero k : set_contains 0 k = false.
Proof. by rewrite set_contains_testbit, Z.bits_0. Qed.

Lemma set_contains_from l s k :
  set_contains (foldl set_with s l) k = set_contains s k || bool_decide (k ∈ l).
Proof.
  revert s. induction l as [|x l IH]; intros s; cbn.
  - by rewrite (bool_decide_false (k ∈ [])), orb_false_r by apply not_elem_of_nil.
  - rewrite IH, set_contains_with, <-orb_assoc. f_equal.
    rewrite <-bool_decide_or. apply bool_decide_ext. by rewrite elem_of_cons.
Qed.

Lemma set_iter_elem s k : k ∈ set_iter s ↔ set_contains s k = true.
Proof. unfold set_iter. rewrite list_elem_of_filter. pose proof (members_complete k). tauto. Qed.

(** Two masks without unknown bits are equal as soon as they have the same members. *)
Lemma set_ext mask s s' :
  (∀ j, 0 ≤ j → Z.testbit mask j = true → ∃ k, bit_index k = j) →
  Z.land s mask = s → Z.land s' mask = s' →
  (∀ k, set_contains s k = set_contains s' k) → s = s'.
Proof.
  intros Hm Hs Hs' Hk. rewrite <-Hs, <-Hs'. apply Z.bits_inj'. intros j Hj.
  rewrite !Z.land_spec. destruct (Z.testbit mask j) eqn:E; [|by rewrite !andb_false_r].
  destruct (Hm j Hj E) as [k <-]. specialize (Hk k). rewrite !set_contains_testbit in Hk.
  by rewrite Hk.
Qed.
End bitset_lemmas.

Lemma ones_testbit_index {K} `{BitIndexed K} n (f : nat → option K) j :
  (∀ i, (i < n)%nat → ∃ k, f i = Some k ∧ bit_index k = Z.of_nat i) →
  0 ≤ j → Z.testbit (Z.ones (Z.of_nat n)) j = true → ∃ k : K, bit_index k = j.
Proof.
  intros Hf Hj Hb. apply Z.ones_spec_iff in Hb; [|lia].
  destruct (Hf (Z.to_nat j)) as (k & _ & Hk); [lia|]. exists k. lia.
Qed.

(** Masks without unknown bits: what [try_from] accepts and every operation keeps. *)
Definition valid_mask (mask bits : Z) : Prop := Z.land bits mask = bits.

Lemma valid_mask_lor mask a b :
  valid_mask mask a → valid_mask mask b → valid_mask mask (Z.lor a b).
Proof. unfold valid_mask. intros Ha Hb. by rewrite Z.land_lor_distr_l, Ha, Hb. Qed.

Lemma valid_mask_land mask a b : valid_mask mask a → valid_mask mask (Z.land a b).
Proof.
  unfold valid_mask. intros Ha. by rewrite <-Z.land_assoc, (Z.land_comm b), Z.land_assoc, Ha.
Qed.

Lemma OriginSet_MASK_ones : OriginSet_MASK = Z.ones (Z.of_nat 8).
Proof. reflexivity. Qed.
Lemma EventKindSet_MASK_ones : EventKindSet_MASK = Z.ones (Z.of_nat 51).
Proof. reflexivity. Qed.

Lemma origin_mask_index j :
  0 ≤ j → Z.testbit OriginSet_MASK j = true → ∃ o : Origin, bit_index o = j.
Proof.
  rewrite OriginSet_MASK_ones. apply (ones_testbit_index 8 (λ i, Origin_ALL !! i)).
  intros i Hi. do 8 (destruct i as [|i]; [eexists; split; reflexivity|]). lia.
Qed.

Lemma kind_mask_index j :
  0 ≤ j → Z.testbit EventKindSet_MASK j = true → ∃ k : EventKind, bit_index k = j.
Proof.
  rewrite EventKindSet_MASK_ones. apply (ones_testbit_index 51 (λ i, EventKind_ALL !! i)).
  intros i Hi. do 51 (destruct i as [|i]; [eexists; split; reflexivity|]). lia.
Qed.

Lemma OriginSet_try_from_Ok bits s :
  OriginSet_try_from bits = Ok s ↔ s = MkOriginSet bits ∧ valid_mask OriginSet_MASK bits.
Proof.
  unfold OriginSet_try_from, valid_mask. rewrite bind_Ok. setoid_rewrite fail_if_Ok.
  split; [intros (_ & Hb & [= <-])|intros [-> Hb]; exists tt]; bool_inv; [done|].
  split; [|done]. by apply negb_false_iff, Z.eqb_eq.
Qed.

Lemma EventKindSet_try_from_Ok bits s :
  EventKindSet_try_from bits = Ok s ↔ s = MkKindSet bits ∧ valid_mask EventKindSet_MASK bits.
Proof.
  unfold EventKindSet_try_from, valid_mask. rewrite bind_Ok. setoid_rewrite fail_if_Ok.
  split; [intros (_ & Hb & [= <-])|intros [-> Hb]; exists tt]; bool_inv; [done|].
  split; [|done]. by apply negb_false_iff, Z.eqb_eq.
Qed.

Lemma OriginSet_from_iter_bits l : origin_bits (OriginSet_from_iter l) = set_from_iter l.
Proof.
  unfold OriginSet_from_iter, set_from_iter.
  change 0 with (origin_bits OriginSet_EMPTY) at 1. generalize OriginSet_EMPTY.
  induction l as [|o l IH]; intros s; [done|]. cbn. by rewrite IH.
Qed.

Lemma EventKindSet_from_iter_bits l : kind_bits (EventKindSet_from_iter l) = set_from_iter l.
Proof.
  unfold EventKindSet_from_iter, set_from_iter.
  change 0 with (kind_bits EventKindSet_EMPTY) at 1. generalize EventKindSet_EMPTY.
  induction l as [|o l IH]; intros s; [done|]. cbn. by rewrite IH.
Qed.

Lemma OriginSet_ALL_contains o : OriginSet_contains OriginSet_ALL o = true.
Proof. by destruct o. Qed.

Lemma EventKindSet_ALL_contains k : EventKindSet_contains EventKindSet_ALL k = true.
Proof. by destruct k. Qed.

Lemma enforcement_facts_contains o :
  OriginSet_contains OriginSet_enforcement_facts o = is_enforcement_fact o.
Proof. by destruct o. Qed.

(** [OriginSet] is the finite set of its members: adding, removing and collecting
    origins change membership exactly as on sets, the masks [try_from] accepts are exactly
    those without unknown bits and are determined by their members, iteration yields each
    member once in tag order, the tag byte decodes back to its origin, and the
    enforcement-fact set holds every origin except the agent. *)
Theorem origin_set_refines_set :
  (∀ s o o', OriginSet_contains (OriginSet_with s o) o'
             = OriginSet_contains s o' || bool_decide (o' = o)) ∧
  (∀ s o o', OriginSet_contains (OriginSet_without s o) o'
             = OriginSet_contains s o' && negb (bool_decide (o' = o))) ∧
  (∀ l o, OriginSet_contains (OriginSet_from_iter l) o = bool_decide (o ∈ l)) ∧
  (∀ s, OriginSet_iter s = filter (λ o, OriginSet_contains s o = true) Origin_ALL) ∧
  (∀ a b s s', OriginSet_try_from a = Ok s → OriginSet_try_from b = Ok s' →
     (∀ o, OriginSet_contains s o = OriginSet_contains s' o) → s = s') ∧
  (∀ o, from_tag (tag o) = Some o) ∧
  (∀ o, OriginSet_contains OriginSet_enforcement_facts o = is_enforcement_fact o).
Proof.
  unfold OriginSet_contains. split_and!.
  - intros. apply set_contains_with.
  - intros. apply set_contains_without.
  - intros. rewrite OriginSet_from_iter_bits. unfold set_from_iter.
    by rewrite set_contains_from, set_contains_zero.
  - done.
  - intros a b s s' [-> Ha]%OriginSet_try_from_Ok [-> Hb]%OriginSet_try_from_Ok Hm. f_equal.
    by apply (set_ext OriginSet_MASK a b origin_mask_index).
  - by intros [].
  - apply enforcement_facts_contains.
Qed.

(** [EventKindSet] is the finite set of its members over the 51 kinds of the catalogue:
    the same laws, every kind has a bit of the 64-bit mask of its own, and the full set
    holds every kind. *)
Theorem kind_set_refines_set :
  (∀ s k k', EventKindSet_contains (EventKindSet_with s k) k'
             = EventKindSet_contains s k' || bool_decide (k' = k)) ∧
  (∀ s k k', EventKindSet_contains (EventKindSet_without s k) k'
             = EventKindSet_contains s k' && negb (bool_decide (k' = k))) ∧
  (∀ l k, EventKindSet_contains (EventKindSet_from_iter l) k = bool_decide (k ∈ l)) ∧
  (∀ s, EventKindSet_iter s = filter (λ k, EventKindSet_contains s k = true) EventKind_ALL) ∧
  (∀ a b s s', EventKindSet_try_from a = Ok s → EventKindSet_try_from b = Ok s' →
     (∀ k, EventKindSet_contains s k = EventKindSet_contains s' k) → s = s') ∧
  (∀ k k', EventKind_bit k = EventKind_bit k' → k = k') ∧
  (∀ k, EventKindSet_contains EventKindSet_ALL k = true).
Proof.
  unfold EventKindSet_contains. split_and!.
  - intros. apply set_contains_with.
  - intros. apply set_contains_without.
  - intros. rewrite EventKindSet_from_iter_bits. unfold set_from_iter.
    by rewrite set_contains_from, set_contains_zero.
  - done.
  - intros a b s s' [-> Ha]%EventKindSet_try_from_Ok [-> Hb]%EventKindSet_try_from_Ok Hm.
    f_equal. by apply (set_ext EventKindSet_MASK a b kind_mask_index).
  - intros k k' E. apply bit_index_inj. pose proof (bit_index_bound k) as Hk.
    apply (f_equal (λ z, Z.testbit z (bit_index k))) in E. unfold EventKind_bit in E.
    rewrite !bit_testbit, bool_decide_true in E by (done || lia).
    symmetry in E. by apply bool_decide_eq_true in E.
  - apply EventKindSet_ALL_contains.
Qed.

Lemma origin_set_refines_set_witness :
  OriginSet_only Agent = OriginSet_without (OriginSet_with (OriginSet_only Agent) User) User.
Proof.
  destruct origin_set_refines_set as (_ & _ & _ & _ & H & _).
  apply (H 32 32); [reflexivity..|]. intros []; reflexivity.
Defined.

Lemma kind_set_refines_set_witness :
  EventKindSet_only Anchor = EventKindSet_from_iter [Anchor; Anchor].
Proof.
  destruct kind_set_refines_set as (_ & _ & _ & _ & H & _).
  apply (H (2 ^ 26) (2 ^ 26)); [reflexivity..|]. intros []; reflexivity.
Defined.
