(* ===== verification/Chain.v ===== *)
(** * Chain: the per-session hash chain ([crates/ward-events/src/chain.rs])

    [wardd] and [ward-node] append every event to a chain whose records commit to all that
    precede them.  The event body is opaque to the chain: it only encodes it (postcard) and
    hashes the encoding (BLAKE3).  Both libraries are parameters of the model; nothing is
    assumed of the hash beyond its 32-byte output, so the integrity theorems say what an
    attacker must exhibit: two different inputs with one digest. *)

From stdpp Require Import base numbers option gmap sorting strings vector list.
From S2P Require Import Prelude Bytes EventTypes.
Local Open Scope Z_scope.

(** [[u8; 32]] *)
Abbreviation Blake3Hash := (vec byte 32).
Abbreviation SessionId := N.

Record Timestamp := { ts_mono_of : Z; ts_wall_of : option Z }.

Inductive ChainError (PErr : Type) : Type :=
| Empty
| NotGenesis (first_seq : Z)
| SessionMismatch (seq : Z) (expected found : SessionId)
| Gap (expected found : Z)
| Replay (expected found : Z)
| PrevMismatch (seq : Z) (expected found : Blake3Hash)
| HashMismatch (seq : Z) (stored computed : Blake3Hash)
| SeqOverflow
| Encode (e : PErr).
Arguments Empty {PErr}.
Arguments NotGenesis {PErr} first_seq.
Arguments SessionMismatch {PErr} seq expected found.
Arguments Gap {PErr} expected found.
Arguments Replay {PErr} expected found.
Arguments PrevMismatch {PErr} seq expected found.
Arguments HashMismatch {PErr} seq stored computed.
Arguments SeqOverflow {PErr}.
Arguments Encode {PErr} e.

Record EventRecord (Event : Type) := MkRecord {
  session : SessionId;
  seq : Z;
  ts_mono : Z;
  ts_wall : option Z;
  origin : Origin;
  prev : Blake3Hash;
  event : Event;
  hash : Blake3Hash;
}.
Arguments MkRecord {Event}.
Arguments session {Event} _.
Arguments seq {Event} _.
Arguments ts_mono {Event} _.
Arguments ts_wall {Event} _.
Arguments origin {Event} _.
Arguments prev {Event} _.
Arguments event {Event} _.
Arguments hash {Event} _.

Record ChainHead := MkHead {
  h_session : SessionId;
  h_genesis : Blake3Hash;
  h_next_seq : Z;
  h_hash : Blake3Hash;
}.
#[export] Instance ChainHead_eq_dec : EqDecision ChainHead.
Proof. solve_decision. Defined.

Definition last_seq (h : ChainHead) : option Z :=
  if h_next_seq h =? 0 then None else Some (h_next_seq h - 1).
Definition chain_len (h : ChainHead) : Z := h_next_seq h.
Definition chain_is_empty (h : ChainHead) : bool := h_next_seq h =? 0.

Definition genesis_head (session : SessionId) (manifest_hash : Blake3Hash) : ChainHead :=
  MkHead session manifest_hash 0 manifest_hash.

Section chain.
Context {Event PErr : Type}.
Context (postcard : Event → result PErr (list byte)).
Context (blake3 : list byte → Blake3Hash).
Implicit Types r : EventRecord Event.

(** The bytes a record's hash covers, in order. *)
Definition preimage (prev : Blake3Hash) (seq : Z) (origin : Origin) (body : list byte) :
    list byte :=
  vec_to_list prev ++ to_le 8 seq ++ [chr (tag origin)] ++ body.

Definition compute_hash (prev : Blake3Hash) (seq : Z) (origin : Origin) (event : Event) :
    result (ChainError PErr) Blake3Hash :=
  body ← map_err Encode (postcard event);
  Ok (blake3 (preimage prev seq origin body)).

Definition verify_hash r : result (ChainError PErr) unit :=
  computed ← compute_hash (prev r) (seq r) (origin r) (event r);
  fail_if (bool_decide (computed ≠ hash r)) (HashMismatch (seq r) (hash r) computed).

(** [Chain]: one head, advanced by [append].  A failed append leaves it unchanged. *)
Record Chain := MkChain { c_head : ChainHead }.

Definition genesis (session : SessionId) (manifest_hash : Blake3Hash) : Chain :=
  MkChain (genesis_head session manifest_hash).
Definition resume (head : ChainHead) : Chain := MkChain head.

Definition append (c : Chain) (origin : Origin) (event : Event) (ts : Timestamp) :
    result (ChainError PErr) (EventRecord Event) * Chain :=
  let head := c_head c in
  let seq := h_next_seq head in
  let prev := h_hash head in
  match checked_add u64_max seq 1 with
  | None => (Err SeqOverflow, c)
  | Some next =>
      match compute_hash prev seq origin event with
      | Err e => (Err e, c)
      | Ok hash =>
          (Ok (MkRecord (h_session head) seq (ts_mono_of ts) (ts_wall_of ts) origin prev event
                 hash),
           MkChain (MkHead (h_session head) (h_genesis head) next hash))
      end
  end.

(** [ChainVerifier]: the head it expects next. *)
Record ChainVerifier := MkVerifier { v_head : ChainHead }.

Definition from_head (head : ChainHead) : ChainVerifier := MkVerifier head.
Definition from_genesis (session : SessionId) (manifest_hash : Blake3Hash) : ChainVerifier :=
  from_head (genesis_head session manifest_hash).

Definition push_checks (head : ChainHead) r : result (ChainError PErr) ChainHead :=
  _ ← fail_if (bool_decide (session r ≠ h_session head))
        (SessionMismatch (seq r) (h_session head) (session r));
  _ ← fail_if (h_next_seq head <? seq r) (Gap (h_next_seq head) (seq r));
  _ ← fail_if (seq r <? h_next_seq head) (Replay (h_next_seq head) (seq r));
  _ ← fail_if (bool_decide (prev r ≠ h_hash head)) (PrevMismatch (seq r) (h_hash head) (prev r));
  _ ← verify_hash r;
  next ← ok_or (checked_add u64_max (h_next_seq head) 1) SeqOverflow;
  Ok (MkHead (h_session head) (h_genesis head) next (hash r)).

(** [ChainVerifier::push]: advance on success, keep the state on any error. *)
Definition push (v : ChainVerifier) r : result (ChainError PErr) unit * ChainVerifier :=
  match push_checks (v_head v) r with
  | Ok head => (Ok tt, MkVerifier head)
  | Err e => (Err e, v)
  end.

Fixpoint verify_loop (v : ChainVerifier) (records : list (EventRecord Event)) :
    result (ChainError PErr) ChainHead :=
  match records with
  | [] => Ok (v_head v)
  | r :: rest =>
      match push v r with
      | (Ok _, v') => verify_loop v' rest
      | (Err e, _) => Err e
      end
  end.

Definition verify_from (head : ChainHead) (records : list (EventRecord Event)) :
    result (ChainError PErr) ChainHead :=
  verify_loop (from_head head) records.

Definition verify (records : list (EventRecord Event)) : result (ChainError PErr) ChainHead :=
  first ← ok_or (head records) Empty;
  _ ← fail_if (negb (seq first =? 0)) (NotGenesis (seq first));
  verify_from (MkHead (session first) (prev first) 0 (prev first)) records.

(** Appending a sequence of events, as the single writer of a log does. *)
Fixpoint append_all (c : Chain) (inputs : list (Origin * Event * Timestamp)) :
    result (ChainError PErr) (list (EventRecord Event) * Chain) :=
  match inputs with
  | [] => Ok ([], c)
  | (o, e, ts) :: rest =>
      match append c o e ts with
      | (Err err, _) => Err err
      | (Ok r, c') => '(rs, c'') ← append_all c' rest; Ok (r :: rs, c'')
      end
  end.

(** ** Pushing one record *)

Lemma verify_hash_Ok r u :
  verify_hash r = Ok u ↔ compute_hash (prev r) (seq r) (origin r) (event r) = Ok (hash r).
Proof.
  unfold verify_hash. rewrite bind_Ok. setoid_rewrite fail_if_Ok.
  setoid_rewrite bool_decide_eq_false. split.
  - intros (h & -> & H). apply dec_stable in H. by subst.
  - intros ->. eauto.
Qed.

(** What a record must be to follow [head]. *)
Definition follows (head : ChainHead) r : Prop :=
  session r = h_session head ∧ seq r = h_next_seq head ∧ prev r = h_hash head ∧
  compute_hash (prev r) (seq r) (origin r) (event r) = Ok (hash r) ∧
  h_next_seq head < u64_max.

Definition advance (head : ChainHead) r : ChainHead :=
  MkHead (h_session head) (h_genesis head) (h_next_seq head + 1) (hash r).

Lemma push_checks_Ok head r head' :
  push_checks head r = Ok head' ↔ follows head r ∧ head' = advance head r.
Proof.
  unfold push_checks, follows, advance. split.
  - intros H. res_inv. bool_inv.
    match goal with H : verify_hash _ = Ok _ |- _ => apply verify_hash_Ok in H end.
    match goal with H : checked_add _ _ _ = Some _ |- _ =>
      apply checked_add_Some in H as [-> ?] end.
    repeat match goal with H : ¬ _ ≠ _ |- _ => apply dec_stable in H end.
    split_and!; try done; lia.
  - intros [(Hs & Hq & Hp & Hh & Hn) ->].
    res_ok ltac:(first
      [ by apply verify_hash_Ok
      | apply fail_if_Ok; first [ apply bool_decide_eq_false; tauto | apply Z.ltb_ge; lia ] ]).
    apply bind_Ok. exists (h_next_seq head + 1). split; [|done].
    apply ok_or_Ok, checked_add_Some. lia.
Qed.

Lemma verify_from_cons head r rest :
  verify_from head (r :: rest) = push_checks head r ≫= λ head', verify_from head' rest.
Proof.
  unfold verify_from, from_head. cbn [verify_loop]. unfold push; cbn [v_head].
  by destruct (push_checks head r).
Qed.

Lemma verify_from_app head rs rs' :
  verify_from head (rs ++ rs') = verify_from head rs ≫= λ head', verify_from head' rs'.
Proof.
  revert head. induction rs as [|r rs IH]; intros head; [done|].
  rewrite <-app_comm_cons, !verify_from_cons.
  destruct (push_checks head r) as [head'|e]; [apply IH|done].
Qed.

Lemma verify_from_cons_Ok head r rest head' :
  verify_from head (r :: rest) = Ok head' ↔
  follows head r ∧ verify_from (advance head r) rest = Ok head'.
Proof.
  rewrite verify_from_cons, bind_Ok. setoid_rewrite push_checks_Ok. naive_solver.
Qed.

Lemma verify_from_snoc_Ok head rs r head' :
  verify_from head (rs ++ [r]) = Ok head' ↔
  ∃ mid, verify_from head rs = Ok mid ∧ follows mid r ∧ head' = advance mid r.
Proof.
  rewrite verify_from_app, bind_Ok. setoid_rewrite verify_from_cons_Ok.
  split; [intros (mid & ? & ? & [= <-]); eauto|].
  intros (mid & ? & ? & ->). by exists mid.
Qed.

Lemma verify_from_next_seq head rs head' :
  verify_from head rs = Ok head' →
  h_next_seq head' = h_next_seq head + Z.of_nat (length rs) ∧
  h_session head' = h_session head ∧ h_genesis head' = h_genesis head.
Proof.
  revert head. induction rs as [|r rs IH]; intros head.
  - intros [= <-]. cbn. split_and!; [lia|done..].
  - intros [_ (-> & -> & ->)%IH]%verify_from_cons_Ok. cbn. split_and!; [lia|done..].
Qed.

(** A push that does not follow the head by sequence number alone. *)
Lemma push_checks_gap head r :
  session r = h_session head → h_next_seq head < seq r →
  push_checks head r = Err (Gap (h_next_seq head) (seq r)).
Proof.
  intros Hs Hq. unfold push_checks.
  rewrite (bool_decide_false (session r ≠ _)) by auto; cbn.
  by rewrite (proj2 (Z.ltb_lt _ _) Hq).
Qed.

Lemma push_checks_replay head r :
  session r = h_session head → seq r < h_next_seq head →
  push_checks head r = Err (Replay (h_next_seq head) (seq r)).
Proof.
  intros Hs Hq. unfold push_checks.
  rewrite (bool_decide_false (session r ≠ _)) by auto; cbn.
  rewrite (proj2 (Z.ltb_ge (h_next_seq head) (seq r))) by lia; cbn.
  by rewrite (proj2 (Z.ltb_lt _ _) Hq).
Qed.

(** ** What the writer appends, the verifier accepts *)
Lemma append_Ok c o e ts r c' :
  append c o e ts = (Ok r, c') → follows (c_head c) r ∧ c_head c' = advance (c_head c) r.
Proof.
  unfold append. destruct (checked_add _ _ _) as [next|] eqn:En; [|done].
  destruct (compute_hash _ _ _ _) as [h|err] eqn:Eh; [|done].
  intros [= <- <-]. apply checked_add_Some in En as [-> ?].
  unfold follows, advance; cbn. split_and!; try done. lia.
Qed.

(** Every log the single writer builds verifies: whatever events are appended to a
    chain, the verifier started at the same head accepts exactly those records and ends at
    the writer's head, and from a fresh genesis [verify] needs no head at all; failed
    appends and pushes change nothing. *)
Theorem chain_append_verifies :
  (∀ c inputs rs c', append_all c inputs = Ok (rs, c') →
     verify_from (c_head c) rs = Ok (c_head c')) ∧
  (∀ session manifest_hash inputs rs c',
     append_all (genesis session manifest_hash) inputs = Ok (rs, c') → rs ≠ [] →
     verify rs = Ok (c_head c')) ∧
  (∀ c o e ts err, (append c o e ts).1 = Err err → (append c o e ts).2 = c) ∧
  (∀ v r err, (push v r).1 = Err err → (push v r).2 = v).
Proof.
  assert (∀ c inputs rs c', append_all c inputs = Ok (rs, c') →
     verify_from (c_head c) rs = Ok (c_head c')) as Hall.
  { intros c inputs. revert c.
    induction inputs as [|[[o e] ts] inputs IH]; intros c rs c'; cbn.
    { by intros [= <- <-]. }
    destruct (append c o e ts) as [[r|err] c1] eqn:E; [|done].
    rewrite bind_Ok. intros ([rs' c2] & H & [= <- <-]).
    apply append_Ok in E as [Hf Hc]. apply verify_from_cons_Ok. split; [done|].
    rewrite <-Hc. by apply IH. }
  split_and!.
  - done.
  - intros s m inputs rs c' H Hne. apply Hall in H. unfold verify.
    destruct rs as [|r rs]; [done|]. cbn [head ok_or mbind result_bind].
    pose proof H as [(Hs & Hq & Hp & _) _]%verify_from_cons_Ok. cbn in Hs, Hq, Hp.
    by rewrite Hs, Hq, Hp.
  - intros c o e ts err. unfold append. by repeat case_match.
  - intros v r err. unfold push. by repeat case_match.
Qed.

(** A verified log is dense. *)
Lemma verify_from_lookup head rs head' i r :
  verify_from head rs = Ok head' → rs !! i = Some r →
  seq r = h_next_seq head + Z.of_nat i ∧ session r = h_session head.
Proof.
  intros H Hi. apply list_elem_of_split_length in Hi as (l1 & l2 & -> & ->).
  rewrite verify_from_app, bind_Ok in H. destruct H as (mid & H1 & H2).
  apply verify_from_cons_Ok in H2 as [(Hs & Hq & _) _].
  apply verify_from_next_seq in H1 as (H1 & H1' & _). split; congruence.
Qed.

(** Verification resumes: checking a log in two parts, the second from the head of the
    first, is checking it whole; and a verified log is dense, its [i]-th record carrying
    the [i]-th next sequence number of its session. *)
Theorem chain_verify_resumes head rs rs' :
  verify_from head (rs ++ rs') = (verify_from head rs ≫= λ mid, verify_from mid rs') ∧
  (∀ head', verify_from head rs = Ok head' →
     h_next_seq head' = h_next_seq head + Z.of_nat (length rs) ∧
     ∀ i r, rs !! i = Some r →
       seq r = h_next_seq head + Z.of_nat i ∧ session r = h_session head).
Proof.
  split; [apply verify_from_app|]. intros head' H.
  split; [by apply (verify_from_next_seq head rs)|]. intros i r Hi.
  by apply (verify_from_lookup head rs head').
Qed.

(** Dropping, repeating or reordering records of a verified log is reported as such: a
    dropped record as the gap it leaves, a repeated one as a replay, two swapped ones as a
    gap at the first. *)
Theorem chain_reordering_detected head rs r r' rs' head' :
  verify_from head (rs ++ r :: r' :: rs') = Ok head' →
  verify_from head (rs ++ r' :: rs') = Err (Gap (seq r) (seq r')) ∧
  verify_from head (rs ++ r :: r :: r' :: rs') = Err (Replay (seq r') (seq r)) ∧
  verify_from head (rs ++ r' :: r :: rs') = Err (Gap (seq r) (seq r')).
Proof.
  rewrite verify_from_app, bind_Ok. intros (mid & H1 & H2).
  rewrite !verify_from_app, H1. cbn [mbind result_bind].
  apply verify_from_cons_Ok in H2 as [Hf H2].
  apply verify_from_cons_Ok in H2 as [Hf' _].
  pose proof Hf as (Hs & Hq & _). destruct Hf' as (Hs' & Hq' & _). cbn in Hs', Hq'.
  rewrite !verify_from_cons.
  assert (push_checks mid r' = Err (Gap (seq r) (seq r'))) as Hgap.
  { rewrite push_checks_gap by (congruence || lia). by rewrite Hq. }
  rewrite Hgap. split_and!; [done| |done].
  rewrite (proj2 (push_checks_Ok mid r _) (conj Hf eq_refl)). cbn [mbind result_bind].
  rewrite verify_from_cons, push_checks_replay by (cbn; congruence || lia).
  cbn. by rewrite Hq'.
Qed.

(** ** The head commits to the whole log *)

(** What the hash of a record covers: everything but the session and the timestamps. *)
Definition covered r r' : Prop :=
  prev r = prev r' ∧ seq r = seq r' ∧ origin r = origin r' ∧
  postcard (event r) = postcard (event r') ∧ hash r = hash r'.

(** Two records whose hashed bytes differ and hash alike: a BLAKE3 collision. *)
Definition collision r r' : Prop :=
  ∃ b b', postcard (event r) = Ok b ∧ postcard (event r') = Ok b' ∧
    preimage (prev r) (seq r) (origin r) b ≠ preimage (prev r') (seq r') (origin r') b' ∧
    blake3 (preimage (prev r) (seq r) (origin r) b)
    = blake3 (preimage (prev r') (seq r') (origin r') b').

Lemma preimage_inj p q o b p' q' o' b' :
  in_u64 q → in_u64 q' → preimage p q o b = preimage p' q' o' b' →
  p = p' ∧ q = q' ∧ o = o' ∧ b = b'.
Proof.
  intros Hq Hq' H. unfold preimage in H.
  apply app_inj_1 in H as [Hp H]; [|by rewrite !length_vec_to_list].
  apply app_inj_1 in H as [Hs H]; [|by rewrite !to_le_length].
  injection H as Ht Hb. unfold in_u64, u64_max in *.
  apply to_le_inj in Hs; [|cbn; lia..]. apply (f_equal code) in Ht.
  split_and!; [by apply vec_to_list_inj2|done| |done].
  destruct o, o'; vm_compute in Ht; congruence.
Qed.

Lemma compute_hash_Ok p q o e h :
  compute_hash p q o e = Ok h ↔ ∃ b, postcard e = Ok b ∧ h = blake3 (preimage p q o b).
Proof.
  unfold compute_hash. destruct (postcard e); cbn; naive_solver.
Qed.

(** C7. The head commits to the log: two logs that verify from the same position to heads
    with the same length and hash agree on every previous hash, sequence number, origin and
    encoded event, record by record, and on the hash they started from; otherwise the two
    logs exhibit, at some common position, two different inputs of BLAKE3 with one
    digest. *)
Theorem chain_tamper_evident head head' rs rs' e e' :
  verify_from head rs = Ok e → verify_from head' rs' = Ok e' →
  0 ≤ h_next_seq head → h_next_seq head = h_next_seq head' →
  h_next_seq e = h_next_seq e' → h_hash e = h_hash e' →
  (h_hash head = h_hash head' ∧ Forall2 covered rs rs') ∨
  (∃ i r r', rs !! i = Some r ∧ rs' !! i = Some r' ∧ collision r r').
Proof.
  intros H H' Hpos Hn He Hh.
  assert (length rs = length rs') as Hlen.
  { pose proof (verify_from_next_seq _ _ _ H) as [? _].
    pose proof (verify_from_next_seq _ _ _ H') as [? _]. lia. }
  clear He. revert rs' e e' H H' Hh Hlen.
  induction rs as [|r rs IH] using rev_ind; intros rs' e e' H H' Hh Hlen.
  { destruct rs'; [|done]. injection H as <-. injection H' as <-. left. split; [done|].
    constructor. }
  destruct rs' as [|r' rs' _] using rev_ind; [rewrite length_app in Hlen; cbn in Hlen; lia|].
  rewrite !length_app in Hlen; cbn in Hlen.
  apply verify_from_snoc_Ok in H as (mid & H & Hf & ->).
  apply verify_from_snoc_Ok in H' as (mid' & H' & Hf' & ->). cbn in Hh.
  destruct Hf as (_ & Hq & Hp & Hc & Hmax), Hf' as (_ & Hq' & Hp' & Hc' & Hmax').
  apply compute_hash_Ok in Hc as (b & Hb & Hrb), Hc' as (b' & Hb' & Hrb').
  pose proof (verify_from_next_seq _ _ _ H) as [Hm _].
  pose proof (verify_from_next_seq _ _ _ H') as [Hm' _].
  destruct (decide (preimage (prev r) (seq r) (origin r) b
                    = preimage (prev r') (seq r') (origin r') b')) as [Epre|Epre].
  - apply preimage_inj in Epre as (Ep & Eq & Eo & Eb); [|unfold in_u64; lia..].
    destruct (IH rs' mid mid' H H') as [[Hg Hall]|(i & x & x' & ? & ? & ?)];
      [congruence|lia|left|right].
    + split; [done|]. apply Forall2_app; [done|]. constructor; [|constructor].
      split_and!; congruence.
    + exists i, x, x'. split_and!; [by apply lookup_app_l_Some..|done].
  - right. exists (length rs), r, r'. split_and!.
    + by apply list_lookup_middle.
    + replace (length rs) with (length rs') by lia. by apply list_lookup_middle.
    + exists b, b'. split_and!; congruence.
Qed.
End chain.

(** ** A concrete chain, with a byte-string event and a toy digest *)
Module ChainExample.
Definition encode (e : string) : result unit (list byte) := Ok (bytes e).
Definition digest (l : list byte) : Blake3Hash :=
  chr (foldl (λ a b, (a * 31 + code b) mod 256) 7 l) ::: vreplicate 31 (chr 0).
Definition manifest : Blake3Hash := digest (bytes "manifest").
Definition ts : Timestamp := {| ts_mono_of := 5; ts_wall_of := None |}.
Definition inputs : list (Origin * string * Timestamp) :=
  [(Wardd, "session started"%string, ts); (Kernel, "exec"%string, ts); (Agent, "note"%string, ts)].
Definition log : result (ChainError unit) (list (EventRecord string) * Chain) :=
  append_all encode digest (genesis 9 manifest) inputs.
Definition records : list (EventRecord string) :=
  match log with Ok (rs, _) => rs | Err _ => [] end.
Definition final : ChainHead :=
  match log with Ok (_, c) => c_head c | Err _ => genesis_head 0 manifest end.
End ChainExample.
Import ChainExample.

Lemma example_verifies :
  verify_from encode digest (genesis_head 9 manifest) records = Ok final.
Proof. vm_compute. reflexivity. Qed.

Lemma chain_append_verifies_witness : verify encode digest records = Ok final.
Proof.
  destruct (chain_append_verifies encode digest) as (_ & H & _).
  apply (H 9%N manifest inputs records (MkChain final)); vm_compute; [reflexivity|discriminate].
Defined.

Lemma chain_verify_resumes_witness : h_next_seq final = 3.
Proof.
  destruct (chain_verify_resumes encode digest (genesis_head 9 manifest) records []) as [_ H].
  destruct (H final example_verifies) as [-> _]. reflexivity.
Defined.

Lemma chain_reordering_detected_witness :
  ∃ r r' r'', records = [r; r'; r''] ∧
  verify_from encode digest (genesis_head 9 manifest) [r'; r; r''] = Err (Gap 0 1).
Proof.
  do 3 eexists. split; [reflexivity|].
  destruct (chain_reordering_detected encode digest (genesis_head 9 manifest) [] _ _ _ final
              example_verifies) as (_ & _ & H).
  exact H.
Defined.

Lemma chain_tamper_evident_witness :
  (h_hash (genesis_head 9 manifest) = h_hash (genesis_head 9 manifest)
   ∧ Forall2 (covered encode) records records) ∨
  (∃ i r r', records !! i = Some r ∧ records !! i = Some r' ∧ collision encode digest r r').
Proof.
  apply (chain_tamper_evident encode digest _ _ _ _ final final
           example_verifies example_verifies); reflexivity || done.
Defined.
