(* ===== verification/Wire.v ===== *)
(** * Wire: frames and subscriptions ([crates/ward-events/src/wire.rs])

    A frame is an eight-byte header ([WE], version, kind, little-endian payload length)
    followed by a postcard body.  Postcard and the stream a frame is read from are not code
    of the repository: the former is the class [Postcard] with the one law the format relies
    on, that decoding an encoding gives the value and the bytes after it; the latter is a
    list of what successive calls of [Read::read] return.  The operations on an event that
    filters use are the class [WardEventLike]. *)

From stdpp Require Import base numbers option gmap sorting strings vector list.
From S2P Require Import Prelude Bytes EventTypes Chain.
Local Open Scope Z_scope.

(** ** The interfaces *)

(** [postcard::to_extend] and [postcard::take_from_bytes] at one type. *)
Class Postcard (PErr T : Type) := {
  to_extend : T → result PErr (list byte);
  take_from_bytes : list byte → result PErr (T * list byte);
}.

Class PostcardLaws (PErr T : Type) `{Postcard PErr T} :=
  take_to_extend v b rest : to_extend v = Ok b → take_from_bytes (b ++ rest) = Ok (v, rest).

(** What the stream looks at in an event: its kind, and the claim kind of agent claims. *)
Class WardEventLike (Event : Type) := {
  event_kind : Event → EventKind;
  claim_kind : Event → option ClaimKind;
}.

(** ** Frames *)
Definition MAGIC : list byte := bytes "WE".
Definition WIRE_VERSION : Z := 1.
Definition HEADER_LEN : Z := 8.
Definition MAX_FRAME_LEN : Z := 64 * 1024.
Definition MAX_PAYLOAD_LEN : Z := MAX_FRAME_LEN - HEADER_LEN.

Inductive FrameKind : Set := RecordFrame | SubscribeFrame.
#[export] Instance FrameKind_eq_dec : EqDecision FrameKind.
Proof. solve_decision. Defined.

Definition FrameKind_byte (k : FrameKind) : Z :=
  match k with RecordFrame => 1 | SubscribeFrame => 2 end.
Definition FrameKind_from_byte (b : Z) : option FrameKind :=
  if b =? 1 then Some RecordFrame else if b =? 2 then Some SubscribeFrame else None.

Inductive WireError (PErr IoErr : Type) : Type :=
| BadMagic
| UnsupportedVersion (v : Z)
| UnknownFrameKind (k : Z)
| UnexpectedKind (expected found : FrameKind)
| Oversized (len max : Z)
| Truncated (needed available : Z)
| TrailingBytes (n : Z)
| DecodeFailed (e : PErr)
| EncodeFailed (e : PErr)
| ChainFailed (e : ChainError PErr)
| Io (e : IoErr).
Arguments BadMagic {PErr IoErr}.
Arguments UnsupportedVersion {PErr IoErr} v.
Arguments UnknownFrameKind {PErr IoErr} k.
Arguments UnexpectedKind {PErr IoErr} expected found.
Arguments Oversized {PErr IoErr} len max.
Arguments Truncated {PErr IoErr} needed available.
Arguments TrailingBytes {PErr IoErr} n.
Arguments DecodeFailed {PErr IoErr} e.
Arguments EncodeFailed {PErr IoErr} e.
Arguments ChainFailed {PErr IoErr} e.
Arguments Io {PErr IoErr} e.

Record FrameHeader := MkHeader { header_kind : FrameKind; payload_len : Z }.
Definition frame_len (h : FrameHeader) : Z := HEADER_LEN + payload_len h.

Record RawFrame := MkFrame { frame_header : FrameHeader; payload : list byte }.

(** [buf.len()] *)
Definition blen (l : list byte) : Z := Z.of_nat (length l).

(** ** Filters and subscriptions *)
Record Filter := MkFilter {
  origins : OriginSet;
  kinds : EventKindSet;
  exclude_agent_notes : bool;
}.

Definition Filter_ALL : Filter := MkFilter OriginSet_ALL EventKindSet_ALL false.
Definition live : Filter := MkFilter OriginSet_ALL EventKindSet_ALL true.

Definition quiet_kinds : list EventKind :=
  [AgentStateChanged; PolicyDenied; TamperDetected; CapabilityRequested; CapabilityDecided;
   VerificationPassed; VerificationFailed; VerificationErrored; VerificationCancelled;
   VerificationInterrupted; VerificationTimedOut; SessionPaused; SessionPauseUnsettled;
   WorkloadsTerminated; SessionResumed; EntryRestored; ObservationsDropped; SessionEnded].
Definition quiet : Filter :=
  MkFilter OriginSet_ALL (foldl EventKindSet_with EventKindSet_EMPTY quiet_kinds) true.
Definition enforcement_facts : Filter :=
  MkFilter OriginSet_enforcement_facts EventKindSet_ALL false.

Definition enforcement_origins : list Origin :=
  [Kernel; Proxy; Wardd; Verifier; TamperWard; User; Node].

Record Subscribe := MkSubscribe {
  sub_session : SessionId;
  from_seq : Z;
  sub_filter : Filter;
}.

Definition Subscribe_all (session : SessionId) : Subscribe := MkSubscribe session 0 Filter_ALL.

Section filters.
Context {Event : Type} `{WardEventLike Event}.

Definition matches (f : Filter) (r : EventRecord Event) : bool :=
  OriginSet_contains (origins f) (origin r)
  && EventKindSet_contains (kinds f) (event_kind (event r))
  && negb (exclude_agent_notes f && bool_decide (claim_kind (event r) = Some Note)).

Definition wants (s : Subscribe) (r : EventRecord Event) : bool :=
  bool_decide (session r = sub_session s) && (from_seq s <=? seq r)
  && matches (sub_filter s) r.

(** What a subscriber is sent of a log: the records it wants, in order. *)
Definition delivered (s : Subscribe) (log : list (EventRecord Event)) :
    list (EventRecord Event) :=
  List.filter (wants s) log.
End filters.

Section wire.
Context {Event PErr IoErr : Type}.
Context (postcard : Event → result PErr (list byte)).
Context (blake3 : list byte → Blake3Hash).
Context `{PostcardLaws PErr (EventRecord Event)} `{PostcardLaws PErr Subscribe}.
Abbreviation res := (result (WireError PErr IoErr)).
Implicit Types r : EventRecord Event.

(** [usize::try_from(len: u32)] cannot fail at this width, so the conversion error of the
    source has no counterpart here. *)
Definition parse_header (h : list byte) : res FrameHeader :=
  _ ← fail_if (bool_decide (take 2 h ≠ MAGIC)) BadMagic;
  let version := from_le (take 1 (drop 2 h)) in
  _ ← fail_if (negb (version =? WIRE_VERSION)) (UnsupportedVersion version);
  let k := from_le (take 1 (drop 3 h)) in
  kind ← ok_or (FrameKind_from_byte k) (UnknownFrameKind k);
  let len := from_le (take 4 (drop 4 h)) in
  _ ← fail_if (MAX_PAYLOAD_LEN <? len) (Oversized len MAX_PAYLOAD_LEN);
  Ok (MkHeader kind len).

Definition peek_header (buf : list byte) : res FrameHeader :=
  _ ← fail_if (blen buf <? HEADER_LEN) (Truncated HEADER_LEN (blen buf));
  parse_header (take 8 buf).

Definition header_bytes (kind : FrameKind) (len : Z) : list byte :=
  MAGIC ++ [chr WIRE_VERSION] ++ [chr (FrameKind_byte kind)] ++ to_le 4 len.

(** The length field is written as zeroes and patched once the body is encoded;
    [u32::try_from] of a payload within [MAX_PAYLOAD_LEN] cannot fail. *)
Definition encode_frame {T} `{Postcard PErr T} (kind : FrameKind) (body : T) :
    res (list byte) :=
  b ← map_err EncodeFailed (to_extend body);
  let len := blen b in
  _ ← fail_if (MAX_PAYLOAD_LEN <? len) (Oversized len MAX_PAYLOAD_LEN);
  Ok (header_bytes kind len ++ b).

Definition decode_body {T} `{Postcard PErr T} (payload : list byte) : res T :=
  '(value, rest) ← map_err DecodeFailed (take_from_bytes payload);
  _ ← fail_if (bool_decide (rest ≠ [])) (TrailingBytes (blen rest));
  Ok value.

Definition split_frame (buf : list byte) (kind : FrameKind) : res (list byte * Z) :=
  header ← peek_header buf;
  _ ← fail_if (bool_decide (header_kind header ≠ kind))
        (UnexpectedKind kind (header_kind header));
  let total := frame_len header in
  _ ← fail_if (blen buf <? total) (Truncated total (blen buf));
  Ok (take (Z.to_nat (payload_len header)) (drop 8 buf), total).

Definition encode_record (r : EventRecord Event) : res (list byte) := encode_frame RecordFrame r.

Definition decode_record (buf : list byte) : res (EventRecord Event * Z) :=
  '(payload, consumed) ← split_frame buf RecordFrame;
  record ← decode_body payload;
  _ ← map_err ChainFailed (verify_hash postcard blake3 record);
  Ok (record, consumed).

Definition encode_subscribe (s : Subscribe) : res (list byte) := encode_frame SubscribeFrame s.

Definition decode_subscribe (buf : list byte) : res (Subscribe * Z) :=
  '(payload, consumed) ← split_frame buf SubscribeFrame;
  s ← decode_body payload;
  Ok (s, consumed).

Definition into_record (f : RawFrame) : res (EventRecord Event) :=
  _ ← fail_if (bool_decide (header_kind (frame_header f) ≠ RecordFrame))
        (UnexpectedKind RecordFrame (header_kind (frame_header f)));
  record ← decode_body (payload f);
  _ ← map_err ChainFailed (verify_hash postcard blake3 record);
  Ok record.

Definition into_subscribe (f : RawFrame) : res Subscribe :=
  _ ← fail_if (bool_decide (header_kind (frame_header f) ≠ SubscribeFrame))
        (UnexpectedKind SubscribeFrame (header_kind (frame_header f)));
  decode_body (payload f).

(** ** Reading from a stream

    A reader is the list of answers its [read] calls give: bytes (none means the end of
    the stream, and bytes beyond the buffer stay for the next call) or an I/O error.  An
    exhausted list answers zero bytes for ever. *)
Definition Reader : Type := list (result IoErr (list byte)).

Inductive filled : Type :=
| Filled (got : list byte)
| Ended (got : list byte)
| Failed (e : IoErr).

(** [while filled < len { n = read(&mut buf[filled..])?; .. }]: fill [want] more bytes. *)
Fixpoint fill (want : nat) (got : list byte) (reader : Reader) : filled * Reader :=
  match want with
  | O => (Filled got, reader)
  | _ =>
      match reader with
      | [] => (Ended got, [])
      | Err e :: reader => (Failed e, reader)
      | Ok c :: reader =>
          if bool_decide (c = []) then (Ended got, reader)
          else if bool_decide (length c ≤ want)%nat
               then fill (want - length c) (got ++ c) reader
               else (Filled (got ++ take want c), Ok (drop want c) :: reader)
      end
  end.

Definition read_frame (reader : Reader) : res (option RawFrame) * Reader :=
  match fill 8 [] reader with
  | (Failed e, reader) => (Err (Io e), reader)
  | (Ended got, reader) =>
      (if bool_decide (got = []) then Ok None else Err (Truncated HEADER_LEN (blen got)),
       reader)
  | (Filled h, reader) =>
      match parse_header h with
      | Err e => (Err e, reader)
      | Ok header =>
          match fill (Z.to_nat (payload_len header)) [] reader with
          | (Failed e, reader) => (Err (Io e), reader)
          | (Ended got, reader) =>
              (Err (Truncated (frame_len header) (HEADER_LEN + blen got)), reader)
          | (Filled payload, reader) => (Ok (Some (MkFrame header payload)), reader)
          end
      end
  end.

(** ** Headers *)
Lemma header_bytes_length kind len : length (header_bytes kind len) = 8%nat.
Proof. by destruct kind. Qed.

Lemma FrameKind_from_to kind : FrameKind_from_byte (code (chr (FrameKind_byte kind))) = Some kind.
Proof. by destruct kind. Qed.

Lemma from_le_singleton b : from_le [b] = code b.
Proof. cbn. lia. Qed.

Lemma FrameKind_from_byte_Some z kind : FrameKind_from_byte z = Some kind ↔ z = FrameKind_byte kind.
Proof.
  unfold FrameKind_from_byte, FrameKind_byte.
  destruct (Z.eqb_spec z 1), (Z.eqb_spec z 2), kind; naive_solver lia.
Qed.

(** The header parser accepts exactly the headers the encoder writes. *)
Lemma parse_header_Ok h hd :
  length h = 8%nat →
  parse_header h = Ok hd ↔
  h = header_bytes (header_kind hd) (payload_len hd) ∧ 0 ≤ payload_len hd ≤ MAX_PAYLOAD_LEN.
Proof.
  intros Hlen. destruct hd as [kind len].
  destruct h as [|b0 [|b1 [|b2 [|b3 l]]]]; try done.
  assert (length l = 4%nat) as Hl by (cbn in Hlen; lia).
  assert (take 4 l = l) as Htk by (by apply take_ge; rewrite Hl).
  pose proof (from_le_bound l) as Hb. rewrite Hl in Hb. change (Z.of_nat 4) with 4 in Hb.
  unfold parse_header.
  change (take 2 (b0 :: b1 :: b2 :: b3 :: l)) with [b0; b1].
  change (take 1 (drop 2 (b0 :: b1 :: b2 :: b3 :: l))) with [b2].
  change (take 1 (drop 3 (b0 :: b1 :: b2 :: b3 :: l))) with [b3].
  change (drop 4 (b0 :: b1 :: b2 :: b3 :: l)) with l.
  rewrite !from_le_singleton, Htk. split.
  - intros Hp. res_inv. bool_inv.
    match goal with Hm : ¬ _ ≠ MAGIC |- _ => apply dec_stable in Hm as [= -> ->] end.
    match goal with Hk : FrameKind_from_byte _ = Some _ |- _ =>
      apply FrameKind_from_byte_Some in Hk as Hk end.
    simplify_eq. split; [|cbn; lia]. unfold header_bytes. cbn [header_kind payload_len].
    replace (chr WIRE_VERSION) with b2 by (apply code_inj; assumption).
    replace (chr (FrameKind_byte kind)) with b3 by (rewrite <-(chr_code b3); congruence).
    rewrite <-Hl, to_from_le. done.
  - cbn [header_kind payload_len]. intros [Heq Hr].
    assert (l = to_le 4 len) as Hle by exact (f_equal (drop 4) Heq).
    assert ([b0; b1] = MAGIC) as -> by exact (f_equal (take 2) Heq).
    assert ([b2; b3] = [chr WIRE_VERSION; chr (FrameKind_byte kind)]) as [= -> ->]
      by exact (f_equal (λ x, take 2 (drop 2 x)) Heq).
    rewrite (bool_decide_false (_ ≠ MAGIC)) by auto. cbn [fail_if mbind result_bind].
    change (negb _) with false. cbn [fail_if mbind result_bind].
    rewrite FrameKind_from_to, Hle, from_to_le. cbn [ok_or mbind result_bind].
    change (256 ^ Z.of_nat 4) with 4294967296.
    unfold MAX_PAYLOAD_LEN, MAX_FRAME_LEN, HEADER_LEN in *.
    rewrite Z.mod_small by lia.
    rewrite (proj2 (Z.ltb_ge _ _)) by lia. done.
Qed.
Lemma blen_app a b : blen (a ++ b) = blen a + blen b.
Proof. unfold blen. rewrite length_app. lia. Qed.

Lemma blen_header kind len : blen (header_bytes kind len) = HEADER_LEN.
Proof. unfold blen. by rewrite header_bytes_length. Qed.

Lemma blen_nonneg l : 0 ≤ blen l.
Proof. unfold blen. lia. Qed.

Lemma peek_header_Ok buf hd :
  peek_header buf = Ok hd ↔
  0 ≤ payload_len hd ≤ MAX_PAYLOAD_LEN ∧
  ∃ rest, buf = header_bytes (header_kind hd) (payload_len hd) ++ rest.
Proof.
  unfold peek_header. rewrite bind_Ok. setoid_rewrite fail_if_Ok.
  setoid_rewrite Z.ltb_ge. split.
  - intros (_ & Hlen & Hp). unfold blen, HEADER_LEN in Hlen.
    apply parse_header_Ok in Hp as [Heq Hr]; [|rewrite length_take; lia].
    split; [done|]. exists (drop 8 buf). by rewrite <-Heq, take_drop.
  - intros (Hr & rest & ->). exists tt. rewrite blen_app, blen_header.
    pose proof (blen_nonneg rest). split; [lia|].
    apply parse_header_Ok; rewrite take_app_length' by (by rewrite header_bytes_length);
      [apply header_bytes_length|done].
Qed.

Lemma split_frame_Ok buf kind p n :
  split_frame buf kind = Ok (p, n) ↔
  blen p ≤ MAX_PAYLOAD_LEN ∧ n = HEADER_LEN + blen p ∧
  ∃ rest, buf = header_bytes kind (blen p) ++ p ++ rest.
Proof.
  unfold split_frame. split.
  - intros Hs. res_inv. bool_inv.
    match goal with Hk : ¬ _ ≠ kind |- _ => apply dec_stable in Hk; subst kind end.
    match goal with Hp : peek_header buf = Ok ?h |- _ =>
      rename h into hd; apply peek_header_Ok in Hp as [Hr [rest ->]] end.
    simplify_eq. rewrite drop_app_length' by (by rewrite header_bytes_length).
    match goal with Hl : frame_len _ ≤ _ |- _ =>
      unfold frame_len in Hl; rewrite blen_app, blen_header in Hl end.
    assert (blen (take (Z.to_nat (payload_len hd)) rest) = payload_len hd) as Hpl.
    { unfold blen in *. rewrite length_take. lia. }
    rewrite Hpl. split_and!; [lia|done|].
    exists (drop (Z.to_nat (payload_len hd)) rest). by rewrite take_drop.
  - intros (Hm & -> & rest & ->). pose proof (blen_nonneg p). pose proof (blen_nonneg rest).
    apply bind_Ok. exists (MkHeader kind (blen p)). split.
    { apply peek_header_Ok. cbn. split; [lia|eauto]. }
    unfold frame_len. cbn [header_kind payload_len].
    res_ok ltac:(apply fail_if_Ok; first
      [ apply bool_decide_eq_false; tauto
      | apply Z.ltb_ge; rewrite !blen_app, blen_header; lia ]).
    rewrite drop_app_length' by (by rewrite header_bytes_length).
    rewrite take_app_length' by (unfold blen; lia). done.
Qed.

Lemma encode_frame_Ok {T} `{Postcard PErr T} kind (v : T) buf :
  encode_frame kind v = Ok buf ↔
  ∃ b, to_extend v = Ok b ∧ blen b ≤ MAX_PAYLOAD_LEN ∧ buf = header_bytes kind (blen b) ++ b.
Proof using Type.
  unfold encode_frame. destruct (to_extend v) as [b|e]; cbn [map_err mbind result_bind].
  - destruct (Z.ltb_spec MAX_PAYLOAD_LEN (blen b)); cbn; split.
    + done.
    + intros (? & [= <-] & ? & _). lia.
    + intros [= <-]. eauto.
    + by intros (? & [= <-] & _ & ->).
  - split; [done|]. by intros (? & [=] & _).
Qed.

Lemma decode_body_to_extend {T} `{PostcardLaws PErr T} (v : T) b :
  to_extend v = Ok b → decode_body b = Ok v.
Proof.
  intros Hb. unfold decode_body.
  by rewrite <-(app_nil_r b), (take_to_extend v b []) by done.
Qed.

(** ** Reading in chunks *)
Definition chunks (cs : list (list byte)) : Reader := Ok <$> cs.

(** Filling a buffer from non-empty chunks sees only their concatenation. *)
Lemma fill_chunks want got cs :
  Forall (λ c, c ≠ []) cs →
  if decide (want ≤ length (concat cs))%nat
  then ∃ cs', fill want got (chunks cs) = (Filled (got ++ take want (concat cs)), chunks cs') ∧
         Forall (λ c, c ≠ []) cs' ∧ concat cs' = drop want (concat cs)
  else fill want got (chunks cs) = (Ended (got ++ concat cs), []).
Proof.
  intros Hcs. revert want got. induction Hcs as [|c cs Hc Hcs IH]; intros want got.
  - destruct want; cbn; rewrite app_nil_r; [|done]. by exists [].
  - destruct want as [|want].
    { cbn. exists (c :: cs). rewrite app_nil_r. by auto. }
    cbn [chunks fmap list_fmap fill concat]. rewrite bool_decide_false by done.
    rewrite length_app. destruct (decide (length c ≤ S want)%nat) as [Hle|Hgt].
    + rewrite bool_decide_true by done. specialize (IH (S want - length c)%nat (got ++ c)).
      rewrite take_app_ge, drop_app_ge by done. rewrite <-!(assoc_L app) in IH.
      destruct (decide (S want - length c ≤ length (concat cs))%nat);
        [rewrite decide_True by lia|rewrite decide_False by lia]; exact IH.
    + rewrite bool_decide_false by lia. rewrite decide_True by lia.
      rewrite take_app_le, drop_app_le by lia.
      exists (drop (S want) c :: cs). split_and!; [done| |done].
      constructor; [|done]. intros Hd. apply (f_equal length) in Hd.
      rewrite length_drop in Hd. cbn in Hd. lia.
Qed.

(** One frame off the front of a buffer, the reference for [read_frame]. *)
Definition next_frame (buf : list byte) : res (option (RawFrame * list byte)) :=
  if decide (buf = []) then Ok None
  else header ← peek_header buf;
       _ ← fail_if (blen buf <? frame_len header) (Truncated (frame_len header) (blen buf));
       Ok (Some (MkFrame header (take (Z.to_nat (payload_len header)) (drop 8 buf)),
                 drop (Z.to_nat (frame_len header)) buf)).

Lemma read_frame_chunks cs :
  Forall (λ c, c ≠ []) cs →
  match next_frame (concat cs) with
  | Ok None => read_frame (chunks cs) = (Ok None, [])
  | Ok (Some (f, rest)) =>
      ∃ cs', read_frame (chunks cs) = (Ok (Some f), chunks cs') ∧
        Forall (λ c, c ≠ []) cs' ∧ concat cs' = rest
  | Err e => (read_frame (chunks cs)).1 = Err e
  end.
Proof.
  intros Hcs. unfold next_frame, read_frame. pose proof (fill_chunks 8 [] cs Hcs) as Hf.
  cbn [app] in Hf. set (buf := concat cs) in *.
  destruct (decide (buf = [])) as [He|Hne].
  { rewrite decide_False in Hf by (rewrite He; cbn; lia). rewrite Hf, He. done. }
  unfold peek_header, blen, HEADER_LEN.
  destruct (decide (8 ≤ length buf)%nat) as [Hlen|Hlen].
  2:{ rewrite Hf, (proj2 (Z.ltb_lt (Z.of_nat (length buf)) 8)), bool_decide_false by (done || lia).
      done. }
  destruct Hf as (cs1 & -> & Hcs1 & Hc1).
  rewrite (proj2 (Z.ltb_ge (Z.of_nat (length buf)) 8)) by lia.
  cbn [fail_if mbind result_bind].
  destruct (parse_header (take 8 buf)) as [hd|e] eqn:Eh; [|done].
  apply parse_header_Ok in Eh as [_ Hr]; [|rewrite length_take; lia].
  pose proof (fill_chunks (Z.to_nat (payload_len hd)) [] cs1 Hcs1) as Hf.
  rewrite Hc1, length_drop in Hf. cbn [app mbind result_bind] in *.
  unfold frame_len, HEADER_LEN.
  destruct (Z.ltb_spec (Z.of_nat (length buf)) (8 + payload_len hd)) as [Hlt|Hge].
  - rewrite decide_False in Hf by lia. rewrite Hf. cbn [fail_if mbind result_bind fst].
    rewrite length_drop. do 2 f_equal. lia.
  - rewrite decide_True in Hf by lia. destruct Hf as (cs2 & -> & Hcs2 & Hc2).
    cbn [fail_if mbind result_bind]. exists cs2. split_and!; [done..|].
    rewrite Hc2, drop_drop. f_equal. lia.
Qed.

Lemma next_frame_encoded {T} `{Postcard PErr T} kind (v : T) buf rest :
  encode_frame kind v = Ok buf →
  ∃ b, to_extend v = Ok b ∧ blen buf = HEADER_LEN + blen b ∧
    next_frame (buf ++ rest) = Ok (Some (MkFrame (MkHeader kind (blen b)) b, rest)).
Proof using Type.
  intros (b & Hb & Hm & ->)%encode_frame_Ok. exists b. split; [done|].
  rewrite blen_app, blen_header. split; [done|]. unfold next_frame.
  rewrite decide_False.
  2:{ intros Heq%(f_equal length). rewrite !length_app, header_bytes_length in Heq.
      cbn in Heq. lia. }
  rewrite <-!(assoc_L app). pose proof (blen_nonneg b). pose proof (blen_nonneg rest).
  rewrite (proj2 (peek_header_Ok _ (MkHeader kind (blen b)))) by (cbn; split; [lia|eauto]).
  cbn [mbind result_bind]. unfold frame_len. cbn [payload_len].
  rewrite (proj2 (Z.ltb_ge _ _)) by (rewrite !blen_app, blen_header; lia).
  cbn [fail_if mbind result_bind].
  rewrite drop_app_length' by (by rewrite header_bytes_length).
  rewrite take_app_length' by (unfold blen; lia).
  rewrite (assoc_L app), drop_app_length'; [done|].
  rewrite length_app, header_bytes_length. unfold HEADER_LEN, blen. lia.
Qed.

(** A frame cut short is truncated, and the error says how much is missing. *)
Lemma split_frame_prefix {T} `{Postcard PErr T} kind (v : T) p q :
  encode_frame kind v = Ok (p ++ q) → q ≠ [] →
  ∃ needed, split_frame p kind = Err (Truncated needed (blen p)) ∧ blen p < needed.
Proof using Type.
  intros (b & _ & Hm & Heq)%encode_frame_Ok Hq. unfold split_frame.
  destruct (decide (8 ≤ length p)%nat) as [Hlen|Hlen].
  - assert (∃ b', p = header_bytes kind (blen b) ++ b' ∧ b = b' ++ q) as (b' & -> & Hb').
    { exists (drop 8 p). apply (f_equal (λ x, (take 8 x, drop 8 x))) in Heq.
      rewrite take_app_le, drop_app_le, take_app_length', drop_app_length' in Heq
        by (rewrite ?header_bytes_length; done). injection Heq as Ht Hd.
      split; [by rewrite <-Ht, take_drop|done]. }
    assert (blen b' < blen b) as Hlt.
    { rewrite Hb', blen_app. unfold blen. destruct q; [done|]. cbn. lia. }
    pose proof (blen_nonneg b').
    rewrite (proj2 (peek_header_Ok _ (MkHeader kind (blen b)))) by (cbn; split; [lia|eauto]).
    cbn [mbind result_bind header_kind]. rewrite bool_decide_false by auto.
    cbn [fail_if mbind result_bind]. unfold frame_len. cbn [payload_len].
    rewrite blen_app, blen_header, (proj2 (Z.ltb_lt _ _)) by lia.
    eexists. split; [done|]. lia.
  - unfold peek_header. rewrite (proj2 (Z.ltb_lt (blen p) HEADER_LEN)); unfold blen, HEADER_LEN.
    + eexists. split; [done|]. lia.
    + lia.
Qed.

Lemma next_frame_prefix {T} `{Postcard PErr T} kind (v : T) p q :
  encode_frame kind v = Ok (p ++ q) → p ≠ [] → q ≠ [] →
  ∃ needed, next_frame p = Err (Truncated needed (blen p)).
Proof using Type.
  intros He Hp Hq. destruct (split_frame_prefix _ _ _ _ He Hq) as (needed & Hs & Hlt).
  exists needed. unfold next_frame. rewrite decide_False by done. unfold split_frame in Hs.
  destruct (peek_header p) as [hd|e]; cbn [mbind result_bind] in *; [|by simplify_eq].
  case_bool_decide; [done|]. cbn [fail_if mbind result_bind] in *.
  destruct (blen p <? frame_len hd); cbn in *; [by simplify_eq|done].
Qed.

(** Frames round trip: an encoded record or subscription is at most [MAX_FRAME_LEN]
    bytes and decodes, whatever follows it in the buffer, to the same value and to its own
    length; a record must have the hash of its contents, which is all that decoding
    checks. *)
Theorem frame_roundtrip rest :
  (∀ r buf, encode_record r = Ok buf → verify_hash postcard blake3 r = Ok tt →
     decode_record (buf ++ rest) = Ok (r, blen buf) ∧ blen buf ≤ MAX_FRAME_LEN) ∧
  (∀ s buf, encode_subscribe s = Ok buf →
     decode_subscribe (buf ++ rest) = Ok (s, blen buf) ∧ blen buf ≤ MAX_FRAME_LEN).
Proof.
  unfold encode_record, encode_subscribe, decode_record, decode_subscribe. split.
  - intros r buf (b & Hb & Hm & ->)%encode_frame_Ok Hv.
    rewrite blen_app, blen_header. split; [|unfold MAX_PAYLOAD_LEN in Hm; lia].
    rewrite (proj2 (split_frame_Ok _ _ b (HEADER_LEN + blen b)))
      by (split_and!; [done..|exists rest; by rewrite (assoc_L app)]).
    cbn [mbind result_bind]. rewrite (decode_body_to_extend r) by done.
    cbn [mbind result_bind]. by rewrite Hv.
  - intros s buf (b & Hb & Hm & ->)%encode_frame_Ok.
    rewrite blen_app, blen_header. split; [|unfold MAX_PAYLOAD_LEN in Hm; lia].
    rewrite (proj2 (split_frame_Ok _ _ b (HEADER_LEN + blen b)))
      by (split_and!; [done..|exists rest; by rewrite (assoc_L app)]).
    cbn [mbind result_bind]. by rewrite (decode_body_to_extend s).
Qed.

(** Decoding is safe on hostile bytes: a record is only returned with the hash of its
    contents verified, from at most [MAX_FRAME_LEN] bytes of the buffer, which alone decide
    the result; a length field over the cap is refused from the header alone, before any
    payload, and every proper prefix of a frame is reported as truncated. *)
Theorem decode_record_safe buf :
  (∀ r n, decode_record buf = Ok (r, n) →
     verify_hash postcard blake3 r = Ok tt ∧ HEADER_LEN ≤ n ≤ blen buf ∧ n ≤ MAX_FRAME_LEN ∧
     ∀ rest, decode_record (take (Z.to_nat n) buf ++ rest) = Ok (r, n)) ∧
  (∀ kind len, MAX_PAYLOAD_LEN < len ≤ u32_max →
     decode_record (header_bytes kind len ++ buf) = Err (Oversized len MAX_PAYLOAD_LEN)) ∧
  (∀ r p q, encode_record r = Ok (p ++ q) → q ≠ [] →
     ∃ needed, decode_record p = Err (Truncated needed (blen p)) ∧ blen p < needed).
Proof.
  split_and!.
  - intros r n Hd. unfold decode_record in Hd. apply bind_Ok in Hd as ([p n'] & Hs & Hd).
    res_inv. simplify_eq. unfold decode_record.
    pose proof (proj1 (split_frame_Ok _ _ _ _) Hs) as (Hm & -> & rest & ->).
    rewrite !blen_app, blen_header. pose proof (blen_nonneg p). pose proof (blen_nonneg rest).
    assert (verify_hash postcard blake3 r = Ok tt) as Hv.
    { destruct (verify_hash postcard blake3 r) as [[]|]; naive_solver. }
    split_and!; [done|lia|lia|unfold MAX_PAYLOAD_LEN in Hm; lia|]. intros rest'.
    rewrite (assoc_L app), take_app_length'.
    2:{ rewrite length_app, header_bytes_length. unfold HEADER_LEN, blen. lia. }
    rewrite (proj2 (split_frame_Ok _ _ p (HEADER_LEN + blen p)))
      by (split_and!; [done..|exists rest'; by rewrite (assoc_L app)]).
    cbn [mbind result_bind].
    match goal with Hb : decode_body p = Ok r |- _ => rewrite Hb end.
    cbn [mbind result_bind]. by rewrite Hv.
  - intros kind len [Hlo Hhi]. unfold decode_record, split_frame, peek_header.
    rewrite (proj2 (Z.ltb_ge _ _))
      by (rewrite blen_app, blen_header; pose proof (blen_nonneg buf); lia).
    cbn [fail_if mbind result_bind]. rewrite take_app_length' by (by rewrite header_bytes_length).
    unfold parse_header.
    change (take 2 (header_bytes kind len)) with MAGIC.
    rewrite (bool_decide_false (_ ≠ MAGIC)) by auto.
    change (take 1 (drop 2 (header_bytes kind len))) with [chr WIRE_VERSION].
    change (take 1 (drop 3 (header_bytes kind len))) with [chr (FrameKind_byte kind)].
    change (take 4 (drop 4 (header_bytes kind len))) with (to_le 4 len).
    rewrite !from_le_singleton, FrameKind_from_to, from_to_le.
    change (256 ^ Z.of_nat 4) with 4294967296. unfold u32_max in Hhi.
    rewrite Z.mod_small by (split; [|lia]; unfold MAX_PAYLOAD_LEN, MAX_FRAME_LEN, HEADER_LEN in *; lia).
    cbn -[Z.ltb MAX_PAYLOAD_LEN]. by rewrite (proj2 (Z.ltb_lt _ _)).
  - intros r p q He Hq. unfold decode_record.
    destruct (split_frame_prefix _ _ _ _ He Hq) as (needed & -> & Hlt). eauto.
Qed.

Lemma fill_Filled want got reader g reader' :
  fill want got reader = (Filled g, reader') → length g = (length got + want)%nat.
Proof.
  revert want got. induction reader as [|[c|e] reader IH]; intros [|want] got; cbn;
    try (intros [= <- <-]; lia); try done.
  case_bool_decide; [done|]. case_bool_decide.
  - intros Hl%IH. rewrite length_app in Hl. lia.
  - intros [= <- <-]. rewrite length_app, length_take. lia.
Qed.

(** [read_frame] does not depend on how the stream delivers its bytes: over any
    sequence of non-empty reads it returns the frame at the front of their concatenation
    and leaves the rest, so a stream of encoded records reads back record by record; a
    stream that ends is a clean end when no byte was read and a truncation inside a frame.
    From any reader at all, failing ones included, a frame comes back with exactly the
    payload its header announces, never more than [MAX_PAYLOAD_LEN] bytes. *)
Theorem read_frame_any_chunking cs :
  Forall (λ c, c ≠ []) cs →
  (concat cs = [] → read_frame (chunks cs) = (Ok None, [])) ∧
  (∀ r frame rest, encode_record r = Ok frame → verify_hash postcard blake3 r = Ok tt →
     concat cs = frame ++ rest →
     ∃ f cs', read_frame (chunks cs) = (Ok (Some f), chunks cs') ∧
       into_record f = Ok r ∧ concat cs' = rest ∧ Forall (λ c, c ≠ []) cs') ∧
  (∀ r p q, encode_record r = Ok (p ++ q) → p ≠ [] → q ≠ [] → concat cs = p →
     ∃ needed, (read_frame (chunks cs)).1 = Err (Truncated needed (blen p))) ∧
  (∀ reader f reader', read_frame reader = (Ok (Some f), reader') →
     blen (payload f) = payload_len (frame_header f) ∧ blen (payload f) ≤ MAX_PAYLOAD_LEN).
Proof.
  intros Hcs. pose proof (read_frame_chunks cs Hcs) as Hread. split_and!.
  - intros He. by rewrite He in Hread.
  - intros r frame rest He Hv Hc.
    destruct (next_frame_encoded _ _ _ rest He) as (b & Hb & _ & Hn).
    rewrite Hc, Hn in Hread. destruct Hread as (cs' & Hrd & Hcs' & Hrest).
    eexists _, cs'. split_and!; [done| |done..]. unfold into_record. cbn.
    by rewrite (decode_body_to_extend r), bind_Ok_l, Hv by done.
  - intros r p q He Hp Hq Hc. rewrite Hc in Hread.
    destruct (next_frame_prefix _ _ _ _ He Hp Hq) as (needed & Hn). rewrite Hn in Hread. eauto.
  - intros reader f reader'. unfold read_frame.
    destruct (fill 8 [] reader) as [[h|got|e] rd] eqn:Eh; [|by case_bool_decide|done].
    apply fill_Filled in Eh. destruct (parse_header h) as [hd|e] eqn:Ep; [|done].
    apply parse_header_Ok in Ep as [_ Hr]; [|done].
    destruct (fill _ [] rd) as [[g|got|e] rd'] eqn:Eg; [|done..].
    apply fill_Filled in Eg. intros [= <- <-]. cbn in *. unfold blen. lia.
Qed.
End wire.

(** ** Filters and delivery *)
Section delivery.
Context {Event PErr : Type} `{WardEventLike Event}.
Context (postcard : Event → result PErr (list byte)).
Context (blake3 : list byte → Blake3Hash).
Implicit Types r : EventRecord Event.

Lemma quiet_kinds_contains k :
  EventKindSet_contains (kinds quiet) k = bool_decide (k ∈ quiet_kinds).
Proof. by destruct k. Qed.

(** The observer modes are what they are documented to be: [ALL] hides nothing, Live
    only agent notes, Quiet all but the listed kinds (never tampering, a denial, a lossy
    observer or the end of the session), and the enforcement filter exactly the agent's
    own claims; each mode shows a subset of the next. *)
Theorem observer_modes r :
  matches Filter_ALL r = true ∧
  (matches live r = true ↔ claim_kind (event r) ≠ Some Note) ∧
  (matches quiet r = true ↔
     event_kind (event r) ∈ quiet_kinds ∧ claim_kind (event r) ≠ Some Note) ∧
  (matches enforcement_facts r = true ↔ origin r ≠ Agent) ∧
  (matches enforcement_facts r = true ↔ origin r ∈ enforcement_origins) ∧
  (matches quiet r = true → matches live r = true).
Proof.
  assert (matches live r = true ↔ claim_kind (event r) ≠ Some Note) as Hlive.
  { unfold matches, live; cbn. rewrite OriginSet_ALL_contains, EventKindSet_ALL_contains.
    cbn. rewrite negb_true_iff. apply bool_decide_eq_false. }
  assert (matches quiet r = true ↔
     event_kind (event r) ∈ quiet_kinds ∧ claim_kind (event r) ≠ Some Note) as Hquiet.
  { unfold matches. rewrite quiet_kinds_contains. cbn [origins exclude_agent_notes quiet].
    rewrite OriginSet_ALL_contains. cbn. rewrite andb_true_iff, negb_true_iff.
    by rewrite bool_decide_eq_true, bool_decide_eq_false. }
  assert (matches enforcement_facts r = OriginSet_contains OriginSet_enforcement_facts (origin r))
    as Henf.
  { unfold matches, enforcement_facts; cbn. rewrite EventKindSet_ALL_contains. by rewrite !andb_true_r. }
  split_and!; [|done|done|..].
  - unfold matches, Filter_ALL; cbn. by rewrite OriginSet_ALL_contains, EventKindSet_ALL_contains.
  - rewrite Henf. destruct (origin r); cbn; naive_solver.
  - rewrite Henf, <-(bool_decide_eq_true (origin r ∈ enforcement_origins)).
    by destruct (origin r).
  - naive_solver.
Qed.

(** A subscriber that was dropped asks again from just after the last record it saw. *)
Definition resubscribe (s : Subscribe) r : Subscribe :=
  MkSubscribe (sub_session s) (seq r + 1) (sub_filter s).

(** Resubscription loses and repeats nothing: over a verified log, a subscriber that
    was dropped after any record it received, and subscribes again from the sequence number
    after it, is sent exactly the records it had not yet received, in order. *)
Theorem resubscribe_resumes head log head' s seen r missing :
  verify_from postcard blake3 head log = Ok head' →
  delivered s log = seen ++ r :: missing →
  delivered (resubscribe s r) log = missing.
Proof.
  unfold delivered. intros Hv Hd.
  apply bool_filter_app_cons in Hd as (l1 & l2 & -> & _ & Hr & Hm).
  assert (from_seq s ≤ seq r) as Hfrom.
  { unfold wants in Hr. bool_inv. done. }
  pose proof (verify_from_lookup postcard blake3 _ _ _ (length l1) r Hv) as Hmid.
  destruct Hmid as [Hseq _]; [by apply list_lookup_middle|].
  rewrite List.filter_app, (bool_filter_none _ l1). 2:{
    apply Forall_lookup_2. intros i x Hi. unfold wants, resubscribe. cbn [from_seq].
    destruct (verify_from_lookup postcard blake3 _ _ _ i x Hv) as [Hx _].
    { by apply lookup_app_l_Some. }
    apply lookup_lt_Some in Hi. rewrite (proj2 (Z.leb_gt (seq r + 1) (seq x))) by lia.
    by rewrite andb_false_r. }
  assert (wants (resubscribe s r) r = false) as Hnr.
  { unfold wants, resubscribe. cbn [from_seq].
    rewrite (proj2 (Z.leb_gt (seq r + 1) (seq r))) by lia. by rewrite andb_false_r. }
  cbn [List.filter app]. rewrite Hnr.
  rewrite <-Hm. apply bool_filter_ext, Forall_lookup_2. intros i x Hi.
  destruct (verify_from_lookup postcard blake3 _ _ _ (length l1 + S i)%nat x Hv) as [Hx _].
  { rewrite lookup_app_r by lia. by replace (length l1 + S i - length l1)%nat with (S i) by lia. }
  unfold wants, resubscribe. cbn [sub_session from_seq sub_filter].
  rewrite (proj2 (Z.leb_le (seq r + 1) (seq x))), (proj2 (Z.leb_le (from_seq s) (seq x))) by lia.
  done.
Qed.
End delivery.

(** ** A concrete wire: a codec for a table of values, one byte each *)
Section table_codec.
Context {T : Type} `{EqDecision T} (table : list T).

Definition table_codec : Postcard unit T := {|
  to_extend v :=
    match list_find (eq v) (take 256 table) with
    | Some (i, _) => Ok [chr (Z.of_nat i)]
    | None => Err tt
    end;
  take_from_bytes l :=
    match l with
    | [] => Err tt
    | b :: rest =>
        match table !! Z.to_nat (code b) with Some v => Ok (v, rest) | None => Err tt end
    end;
|}.

Lemma table_codec_laws : @PostcardLaws unit T table_codec.
Proof.
  intros v b rest. cbn. destruct (list_find _ _) as [[i w]|] eqn:E; [|done].
  apply list_find_Some in E as (Hi & <- & _). intros [= <-]. cbn.
  apply lookup_take_Some in Hi as [Hi Hlt].
  by rewrite code_chr, Nat2Z.id, Hi by lia.
Qed.
End table_codec.

#[export] Instance EventRecord_eq_dec `{EqDecision Event} : EqDecision (EventRecord Event).
Proof. solve_decision. Defined.
#[export] Instance Filter_eq_dec : EqDecision Filter.
Proof. solve_decision. Defined.
#[export] Instance Subscribe_eq_dec : EqDecision Subscribe.
Proof. solve_decision. Defined.

Import ChainExample.

Module WireExample.
Definition sub0 : Subscribe := MkSubscribe 9%N 0 live.

#[export] Instance string_event : WardEventLike string := {|
  event_kind e := if bool_decide (e = "note"%string) then AgentClaim else SessionEnded;
  claim_kind e := if bool_decide (e = "note"%string) then Some Note else None;
|}.
#[export] Instance record_codec : Postcard unit (EventRecord string) := table_codec records.
#[export] Instance record_codec_laws : PostcardLaws unit (EventRecord string) :=
  table_codec_laws records.
#[export] Instance sub_codec : Postcard unit Subscribe := table_codec [sub0].
#[export] Instance sub_codec_laws : PostcardLaws unit Subscribe := table_codec_laws [sub0].

Definition first : EventRecord string :=
  default (MkRecord 0%N 0 0 None Wardd manifest "" manifest) (head records).
Definition frame : list byte := header_bytes RecordFrame 1 ++ [chr 0].
End WireExample.
Import WireExample.

Lemma frame_roundtrip_witness :
  decode_record (IoErr := unit) encode digest (frame ++ bytes "more") = Ok (first, 9) ∧
  decode_subscribe (IoErr := unit) (header_bytes SubscribeFrame 1 ++ [chr 0]) = Ok (sub0, 9).
Proof.
  destruct (frame_roundtrip (IoErr := unit) encode digest (bytes "more")) as [H _].
  destruct (frame_roundtrip (IoErr := unit) encode digest []) as [_ H'].
  split.
  - apply (H first frame); vm_compute; reflexivity.
  - rewrite <-(app_nil_r (_ ++ _)). apply (H' sub0); vm_compute; reflexivity.
Defined.

Lemma decode_record_safe_witness :
  decode_record (IoErr := unit) encode digest (take 5 frame) = Err (Truncated 8 5) ∧
  decode_record (IoErr := unit) encode digest (header_bytes RecordFrame 70000)
  = Err (Oversized 70000 65528).
Proof.
  destruct (decode_record_safe (IoErr := unit) encode digest []) as (_ & H & H').
  split.
  - destruct (H' first (take 5 frame) (drop 5 frame)) as (needed & Hd & _);
      [vm_compute; reflexivity|discriminate|].
    rewrite Hd. vm_compute in Hd. by injection Hd as <-.
  - rewrite <-(app_nil_r (header_bytes _ _)). apply H. vm_compute. split; congruence.
Defined.

Lemma read_frame_any_chunking_witness :
  ∃ f cs', read_frame (PErr := unit) (chunks (IoErr := unit) [take 3 frame; drop 3 frame ++ bytes "x"])
           = (Ok (Some f), chunks cs') ∧
    into_record (IoErr := unit) encode digest f = Ok first ∧ concat cs' = bytes "x".
Proof.
  destruct (read_frame_any_chunking (IoErr := unit) encode digest
              [take 3 frame; drop 3 frame ++ bytes "x"]) as (_ & H & _).
  - repeat constructor; discriminate.
  - destruct (H first frame (bytes "x")) as (f & cs' & ? & ? & ? & _);
      [vm_compute; reflexivity..|]. exists f, cs'. auto.
Defined.

Lemma observer_modes_witness : matches quiet first = true ∧ matches live first = true.
Proof.
  destruct (observer_modes first) as (_ & _ & _ & _ & _ & H).
  split; [vm_compute; reflexivity|]. apply H. vm_compute. reflexivity.
Defined.

Lemma resubscribe_resumes_witness :
  ∃ r rest, delivered sub0 records = r :: rest ∧ rest ≠ [] ∧
    delivered (resubscribe sub0 r) records = rest.
Proof.
  eexists _, _. split; [vm_compute; reflexivity|]. split; [discriminate|].
  apply (resubscribe_resumes encode digest _ _ _ sub0 [] _ _ example_verifies).
  vm_compute. reflexivity.
Defined.
