(* ===== verification/Log.v ===== *)
(** * Log: the append-only session log ([crates/ward-events/src/log.rs])

    The writer checks that a record continues its chain before a byte reaches the file, and
    the reader verifies the chain as it reads.  The file is its bytes together with how many
    of them are durable: [sync_data] makes all of them so, and a crash leaves some prefix
    that holds at least those.  What the operating system answers to a write or a sync is an
    argument of the operation, so every failure has its branch. *)

From stdpp Require Import base numbers option gmap sorting strings vector list.
From S2P Require Import Prelude Bytes Ids EventTypes Chain Wire.
Local Open Scope Z_scope.

Inductive LogError (PErr IoErr : Type) : Type :=
| LogIo (e : IoErr)
| LogWire (e : WireError PErr IoErr)
| LogChain (e : ChainError PErr)
| TruncatedTail (offset : Z)
| LogEmpty
| MalformedHead (line : list byte).
Arguments LogIo {PErr IoErr} e.
Arguments LogWire {PErr IoErr} e.
Arguments LogChain {PErr IoErr} e.
Arguments TruncatedTail {PErr IoErr} offset.
Arguments LogEmpty {PErr IoErr}.
Arguments MalformedHead {PErr IoErr} line.

(** [From<WireError>] *)
Definition of_wire {PErr IoErr} (e : WireError PErr IoErr) : LogError PErr IoErr :=
  match e with
  | Io io => LogIo io
  | ChainFailed c => LogChain c
  | other => LogWire other
  end.

(** Durations and instants are milliseconds of the monotonic clock. *)
Inductive FsyncPolicy : Set :=
| Never
| Always
| Critical
| CriticalOrInterval (interval : Z).

Definition FsyncPolicy_DEFAULT : FsyncPolicy := CriticalOrInterval 250.

Section policy.
Context {Event : Type} `{WardEventLike Event}.

Definition record_is_critical (r : EventRecord Event) : bool := is_critical (event_kind (event r)).

Definition should_sync (p : FsyncPolicy) (r : EventRecord Event) (since_last_sync : Z) : bool :=
  match p with
  | Never => false
  | Always => true
  | Critical => record_is_critical r
  | CriticalOrInterval interval => record_is_critical r || (interval <=? since_last_sync)
  end.
End policy.

(** The file: its bytes, and how many of them survive a crash. *)
Record File := MkFile { content : list byte; durable : nat }.

(** What [write_all] does: all of it, or some bytes and an error. *)
Inductive WriteOutcome (IoErr : Type) : Type :=
| WriteOk
| WriteFails (n : nat) (e : IoErr).
Arguments WriteOk {IoErr}.
Arguments WriteFails {IoErr} n e.

(** The HEAD file: four [key=value] lines. *)
Definition nl : byte := chr 10.
Definition head_line (key : string) (value : list byte) : list byte :=
  bytes key ++ "="%char :: value.
Definition session_text (s : SessionId) : list byte := display SessionId_ (Z.of_N s).

Definition format_head (head : ChainHead) : list byte :=
  head_line "session" (session_text (h_session head)) ++ [nl]
  ++ head_line "genesis" (bytes "blake3:" ++ to_hex (h_genesis head)) ++ [nl]
  ++ head_line "next_seq" (dec_display (h_next_seq head)) ++ [nl]
  ++ head_line "hash" (bytes "blake3:" ++ to_hex (h_hash head)) ++ [nl].

(** The four locals of [parse_head]. *)
Record HeadFields := MkFields {
  f_session : option SessionId;
  f_genesis : option Blake3Hash;
  f_next_seq : option Z;
  f_hash : option Blake3Hash;
}.
Definition no_fields : HeadFields := MkFields None None None None.

Definition ok {E A} (r : result E A) : option A :=
  match r with Ok a => Some a | Err _ => None end.

Section head_file.
Context {PErr IoErr : Type}.
Abbreviation res := (result (LogError PErr IoErr)).

Definition parse_line (f : HeadFields) (line : list byte) : res HeadFields :=
  let bad := MalformedHead line in
  '(key, value) ← ok_or (split_once "="%char line) bad;
  if bool_decide (key = bytes "session") then
    v ← ok_or (ok (from_str SessionId_ value)) bad;
    Ok (MkFields (Some (Z.to_N v)) (f_genesis f) (f_next_seq f) (f_hash f))
  else if bool_decide (key = bytes "genesis") then
    v ← ok_or (ok (from_hex value)) bad;
    Ok (MkFields (f_session f) (Some v) (f_next_seq f) (f_hash f))
  else if bool_decide (key = bytes "next_seq") then
    v ← ok_or (dec_parse u64_max value) bad;
    Ok (MkFields (f_session f) (f_genesis f) (Some v) (f_hash f))
  else if bool_decide (key = bytes "hash") then
    v ← ok_or (ok (from_hex value)) bad;
    Ok (MkFields (f_session f) (f_genesis f) (f_next_seq f) (Some v))
  else Err bad.

Fixpoint parse_lines (f : HeadFields) (ls : list (list byte)) : res HeadFields :=
  match ls with
  | [] => Ok f
  | line :: ls => f' ← parse_line f line; parse_lines f' ls
  end.

Definition parse_head (text : list byte) : res ChainHead :=
  f ← parse_lines no_fields (lines text);
  match f with
  | MkFields (Some s) (Some g) (Some n) (Some h) => Ok (MkHead s g n h)
  | _ => Err (MalformedHead (bytes "missing field"))
  end.
End head_file.

Section log.
Context {Event PErr IoErr : Type} `{WardEventLike Event}.
Context (postcard : Event → result PErr (list byte)).
Context (blake3 : list byte → Blake3Hash).
Context `{PostcardLaws PErr (EventRecord Event)}.
Abbreviation res := (result (LogError PErr IoErr)).
Implicit Types r : EventRecord Event.

(** ** The writer *)
Record LogWriter := MkWriter {
  file : File;
  verifier : ChainVerifier;
  decider : FsyncPolicy;
  last_sync : Z;
  dirty : bool;
}.

(** [create] on a path where no file is, once [open_append] succeeded. *)
Definition create (head : ChainHead) (policy : FsyncPolicy) (now : Z) : LogWriter :=
  MkWriter (MkFile [] 0) (from_head head) policy now false.

Definition writer_head (w : LogWriter) : ChainHead := v_head (verifier w).
Definition is_dirty (w : LogWriter) : bool := dirty w.

(** [sync], [sync_data] answering [io]. *)
Definition sync (w : LogWriter) (now : Z) (io : option IoErr) : res unit * LogWriter :=
  match io with
  | Some e => (Err (LogIo e), w)
  | None =>
      (Ok tt, MkWriter (MkFile (content (file w)) (length (content (file w)))) (verifier w)
                (decider w) now false)
  end.

(** [append] at time [now], the write answering [write] and the sync, if any, [io]. *)
Definition log_append (w : LogWriter) r (now : Z) (write : WriteOutcome IoErr)
    (io : option IoErr) : res unit * LogWriter :=
  match push postcard blake3 (verifier w) r with
  | (Err e, _) => (Err (LogChain e), w)
  | (Ok _, next) =>
      match encode_record (PErr := PErr) (IoErr := IoErr) r with
      | Err e => (Err (of_wire e), w)
      | Ok frame =>
          match write with
          | WriteFails n e =>
              (Err (LogIo e),
               MkWriter (MkFile (content (file w) ++ take n frame) (durable (file w)))
                 (verifier w) (decider w) (last_sync w) (dirty w))
          | WriteOk =>
              let w' := MkWriter (MkFile (content (file w) ++ frame) (durable (file w)))
                          next (decider w) (last_sync w) true in
              if should_sync (decider w) r (saturating_sub now (last_sync w))
              then sync w' now io
              else (Ok tt, w')
          end
      end
  end.

Definition sync_if_due (w : LogWriter) (interval now : Z) (io : option IoErr) :
    res bool * LogWriter :=
  if dirty w && (interval <=? saturating_sub now (last_sync w))
  then match sync w now io with
       | (Ok _, w') => (Ok true, w')
       | (Err e, w') => (Err e, w')
       end
  else (Ok false, w).

(** [seal]: the head returned and the text of the [HEAD] file; [io] answers the sync and
    [io_head] the creation of [HEAD] and what follows it. *)
Definition seal (w : LogWriter) (now : Z) (io io_head : option IoErr) :
    res (ChainHead * list byte) :=
  match sync w now io with
  | (Err e, _) => Err e
  | (Ok _, w) =>
      match io_head with
      | Some e => Err (LogIo e)
      | None => Ok (writer_head w, format_head (writer_head w))
      end
  end.

(** ** The reader *)
Record LogReader := MkReader {
  reader : Reader (IoErr := IoErr);
  r_verifier : option ChainVerifier;
  offset : Z;
  finished : bool;
}.

Definition open_reader (rd : Reader) : LogReader := MkReader rd None 0 false.

(** The head a log without context starts from: its first record's own position. *)
Definition start_head r : ChainHead := MkHead (session r) (prev r) (seq r) (prev r).

Definition read_one (l : LogReader) : res (option (EventRecord Event)) * LogReader :=
  match read_frame (PErr := PErr) (reader l) with
  | (Ok None, rd) => (Ok None, MkReader rd (r_verifier l) (offset l) (finished l))
  | (Err (Truncated _ _), rd) =>
      (Err (TruncatedTail (offset l)), MkReader rd (r_verifier l) (offset l) (finished l))
  | (Err e, rd) => (Err (of_wire e), MkReader rd (r_verifier l) (offset l) (finished l))
  | (Ok (Some frame), rd) =>
      let frame_length := frame_len (frame_header frame) in
      match into_record postcard blake3 frame with
      | Err e => (Err (of_wire e), MkReader rd (r_verifier l) (offset l) (finished l))
      | Ok record =>
          let v := default (from_head (start_head record)) (r_verifier l) in
          match push postcard blake3 v record with
          | (Err e, v) => (Err (LogChain e), MkReader rd (Some v) (offset l) (finished l))
          | (Ok _, v) =>
              (Ok (Some record),
               MkReader rd (Some v) (saturating_add u64_max (offset l) frame_length) (finished l))
          end
      end
  end.

Definition finish (l : LogReader) : LogReader :=
  MkReader (reader l) (r_verifier l) (offset l) true.

Definition next_record (l : LogReader) : res (option (EventRecord Event)) * LogReader :=
  if finished l then (Ok None, l)
  else match read_one l with
       | (Ok (Some r), l) => (Ok (Some r), l)
       | (Ok None, l) => (Ok None, finish l)
       | (Err e, l) => (Err e, finish l)
       end.

Definition reader_head (l : LogReader) : option ChainHead := v_head <$> r_verifier l.

(** The reader as an iterator, up to its first error: the records, the error if there was
    one, and the state it ends in.  [None] when the fuel runs out. *)
Fixpoint read_all (fuel : nat) (l : LogReader) :
    option (list (EventRecord Event) * option (LogError PErr IoErr) * LogReader) :=
  match fuel with
  | O => None
  | S fuel =>
      match next_record l with
      | (Err e, l) => Some ([], Some e, l)
      | (Ok None, l) => Some ([], None, l)
      | (Ok (Some r), l) => '(rs, e, l) ← read_all fuel l; Some (r :: rs, e, l)
      end
  end.

(** [verify_all]: [while self.next_record()?.is_some() {}], then the head. *)
Fixpoint verify_all_loop (fuel : nat) (l : LogReader) : option (res LogReader) :=
  match fuel with
  | O => None
  | S fuel =>
      match next_record l with
      | (Err e, _) => Some (Err e)
      | (Ok None, l) => Some (Ok l)
      | (Ok (Some _), l) => verify_all_loop fuel l
      end
  end.

Definition verify_all (fuel : nat) (l : LogReader) : option (res ChainHead) :=
  (λ r : res LogReader, l ← r; ok_or (reader_head l) LogEmpty) <$> verify_all_loop fuel l.

(** [LogWriter::open] of the file [f], whose bytes the reader sees as [rd]. *)
Definition open_writer (fuel : nat) (rd : Reader) (f : File) (policy : FsyncPolicy) (now : Z) :
    option (res LogWriter) :=
  (λ r : res ChainHead, head ← r; Ok (MkWriter f (from_head head) policy now false))
  <$> verify_all fuel (open_reader rd).

(** Appending a list of records, every write and sync succeeding. *)
Fixpoint append_records (w : LogWriter) (inputs : list (EventRecord Event * Z)) : res LogWriter :=
  match inputs with
  | [] => Ok w
  | (r, now) :: inputs =>
      match log_append w r now WriteOk None with
      | (Err e, _) => Err e
      | (Ok _, w) => append_records w inputs
      end
  end.

(** The bytes of a list of records. *)
Definition frame_of r : list byte :=
  default [] (ok (encode_record (PErr := PErr) (IoErr := IoErr) r)).
Definition frames (rs : list (EventRecord Event)) : list byte := concat (frame_of <$> rs).
Definition encodable r : Prop :=
  encode_record (PErr := PErr) (IoErr := IoErr) r = Ok (frame_of r).

(** ** What a successful append does *)
Lemma log_append_write_Ok w r now io w' :
  log_append w r now WriteOk io = (Ok tt, w') →
  encodable r ∧ follows postcard blake3 (writer_head w) r ∧
  writer_head w' = advance (writer_head w) r ∧
  content (file w') = content (file w) ++ frame_of r ∧ decider w' = decider w ∧
  if should_sync (decider w) r (saturating_sub now (last_sync w))
  then durable (file w') = length (content (file w')) ∧ dirty w' = false ∧ last_sync w' = now
  else durable (file w') = durable (file w) ∧ dirty w' = true ∧ last_sync w' = last_sync w.
Proof.
  unfold log_append, push, writer_head, encodable, frame_of.
  destruct (push_checks postcard blake3 (v_head (verifier w)) r) as [h|e] eqn:Ep; [|done].
  apply push_checks_Ok in Ep as [Hf ->].
  destruct (encode_record r) as [frame|e] eqn:Ee; [|done].
  destruct (should_sync _ _ _).
  - unfold sync. destruct io; [done|]. intros [= <-]. cbn. by split_and!.
  - intros [= <-]. cbn. by split_and!.
Qed.

Lemma append_records_Ok w inputs w' :
  append_records w inputs = Ok w' →
  Forall encodable inputs.*1 ∧
  verify_from postcard blake3 (writer_head w) inputs.*1 = Ok (writer_head w') ∧
  content (file w') = content (file w) ++ frames inputs.*1.
Proof.
  revert w. induction inputs as [|[r now] inputs IH]; intros w; cbn [append_records].
  { intros [= <-]. cbn. by rewrite app_nil_r. }
  destruct (log_append w r now WriteOk None) as [[[]|e] w1] eqn:Ea; [|done].
  apply log_append_write_Ok in Ea as (He & Hf & Hh & Hc & _).
  intros (Hall & Hv & Hc')%IH. cbn [fmap list_fmap fst]. split_and!.
  - by constructor.
  - apply verify_from_cons_Ok. by rewrite <-Hh.
  - rewrite Hc', Hc, <-(assoc_L app). done.
Qed.

(** ** Reading frames back *)

(** The reader at the position of [head]: it has a verifier there, or none yet and [head]
    has nothing before it. *)
Definition expects (ov : option ChainVerifier) (head : ChainHead) : Prop :=
  match ov with
  | Some v => v = MkVerifier head
  | None => h_genesis head = h_hash head
  end.

Lemma expects_start ov head r :
  expects ov head → follows postcard blake3 head r →
  push postcard blake3 (default (from_head (start_head r)) ov) r
  = (Ok tt, MkVerifier (advance head r)).
Proof.
  intros Hov Hf.
  assert (default (from_head (start_head r)) ov = MkVerifier head) as ->.
  { destruct ov as [v|]; cbn in *; [done|]. destruct Hf as (Hs & Hq & Hp & _).
    unfold from_head, start_head. rewrite Hs, Hq, Hp. destruct head; cbn in *. by rewrite Hov. }
  unfold push. cbn [v_head].
  by rewrite (proj2 (push_checks_Ok postcard blake3 head r (advance head r))).
Qed.

Lemma next_record_frame cs ov off head r rest :
  Forall (λ c, c ≠ []) cs → expects ov head → follows postcard blake3 head r → encodable r →
  concat cs = frame_of r ++ rest →
  ∃ cs', Forall (λ c, c ≠ []) cs' ∧ concat cs' = rest ∧
    next_record (MkReader (chunks cs) ov off false)
    = (Ok (Some r),
       MkReader (chunks cs') (Some (MkVerifier (advance head r)))
         (saturating_add u64_max off (blen (frame_of r))) false).
Proof.
  intros Hcs Hov Hf He Hc. unfold encodable, encode_record in He.
  pose proof (read_frame_chunks (PErr := PErr) (IoErr := IoErr) cs Hcs) as Hread.
  destruct (next_frame_encoded (IoErr := IoErr) _ _ _ rest He) as (b & Hb & Hlen & Hn).
  rewrite Hc, Hn in Hread. destruct Hread as (cs' & Hrd & Hcs' & Hrest).
  exists cs'. split_and!; [done..|]. unfold next_record, read_one. cbn [finished reader].
  rewrite Hrd. unfold into_record. cbn [frame_header header_kind payload].
  rewrite bool_decide_false by auto. cbn [fail_if]. rewrite bind_Ok_l.
  rewrite (decode_body_to_extend r b), bind_Ok_l by done.
  pose proof Hf as (_ & _ & _ & Hh & _).
  rewrite (proj2 (verify_hash_Ok postcard blake3 r tt) Hh). cbn [map_err]. rewrite bind_Ok_l.
  cbn [r_verifier]. rewrite (expects_start ov head r Hov Hf). cbn [frame_header offset].
  unfold frame_len. cbn [payload_len]. by rewrite Hlen.
Qed.

Lemma next_record_end cs ov off :
  Forall (λ c, c ≠ []) cs → concat cs = [] →
  next_record (MkReader (chunks cs) ov off false) = (Ok None, MkReader [] ov off true).
Proof.
  intros Hcs Hc. pose proof (read_frame_chunks (PErr := PErr) (IoErr := IoErr) cs Hcs) as Hread.
  rewrite Hc in Hread. unfold next_record, read_one. cbn in *. by rewrite Hread.
Qed.

Lemma next_record_cut cs ov off r q :
  Forall (λ c, c ≠ []) cs → concat cs ≠ [] → q ≠ [] → encodable r →
  frame_of r = concat cs ++ q →
  ∃ rd, next_record (MkReader (chunks cs) ov off false)
        = (Err (TruncatedTail off), MkReader rd ov off true).
Proof.
  intros Hcs Hne Hq He Hc. unfold encodable, encode_record in He. rewrite Hc in He.
  destruct (next_frame_prefix (IoErr := IoErr) _ _ _ _ He Hne Hq) as (needed & Hn).
  pose proof (read_frame_chunks (PErr := PErr) (IoErr := IoErr) cs Hcs) as Hread.
  rewrite Hn in Hread. unfold next_record, read_one. cbn [finished reader].
  destruct (read_frame (chunks cs)) as [res rd]. cbn in Hread. subst res. by exists rd.
Qed.

(** A cut log: some frames, then nothing or part of a frame. *)
Definition cut (tail : list byte) : Prop :=
  tail = [] ∨ ∃ r q, encodable r ∧ frame_of r = tail ++ q ∧ q ≠ [].

Definition tail_error (tail : list byte) (off : Z) : option (LogError PErr IoErr) :=
  if decide (tail = []) then None else Some (TruncatedTail off).

Lemma read_all_cut rs head head' cs ov off tail fuel :
  Forall (λ c, c ≠ []) cs → Forall encodable rs → expects ov head →
  verify_from postcard blake3 head rs = Ok head' → cut tail →
  concat cs = frames rs ++ tail → 0 ≤ off → off + blen (concat cs) ≤ u64_max →
  (length rs < fuel)%nat →
  ∃ rd, read_all fuel (MkReader (chunks cs) ov off false)
        = Some (rs, tail_error tail (off + blen (frames rs)),
                MkReader rd (if decide (rs = []) then ov else Some (MkVerifier head'))
                  (off + blen (frames rs)) true).
Proof.
  intros Hcs Hall. revert head cs ov off fuel Hcs.
  induction Hall as [|r rs He Hall IH];
    intros head cs ov off fuel Hcs Hov Hv Hcut Hc Hoff Hmax Hfuel.
  - destruct fuel as [|fuel]; [lia|]. cbn in Hc. cbn [read_all frames fmap list_fmap concat].
    rewrite decide_True by done. unfold tail_error, blen. cbn [length Z.of_nat].
    rewrite Z.add_0_r. destruct (decide (tail = [])) as [Ht|Ht].
    + rewrite next_record_end by (done || congruence). by eexists.
    + destruct Hcut as [?|(r & q & Hr & Hfr & Hq)]; [done|].
      destruct (next_record_cut cs ov off r q) as [rd ->]; try congruence. by exists rd.
  - destruct fuel as [|fuel]; [lia|]. cbn [length] in Hfuel.
    apply verify_from_cons_Ok in Hv as [Hf Hv].
    assert (concat cs = frame_of r ++ frames rs ++ tail) as Hc'
      by (rewrite Hc, (assoc_L app); done).
    destruct (next_record_frame cs ov off head r _ Hcs Hov Hf He Hc') as (cs' & Hcs' & Hrest & Hn).
    cbn [read_all]. rewrite Hn.
    rewrite Hc', blen_app in Hmax. pose proof (blen_nonneg (frame_of r)).
    pose proof (blen_nonneg (frames rs ++ tail)).
    unfold saturating_add. rewrite Z.min_l by lia.
    destruct (IH (advance head r) cs' (Some (MkVerifier (advance head r)))
                (off + blen (frame_of r)) fuel) as [rd Hrd]; try done; try lia.
    { rewrite Hrest. lia. }
    rewrite Hrd. exists rd. cbn [mbind option_bind].
    assert (blen (frames (r :: rs)) = blen (frame_of r) + blen (frames rs)) as ->
      by apply blen_app.
    rewrite Z.add_assoc, (decide_False (P := r :: rs = [])) by done.
    destruct (decide (rs = [])) as [->|]; [|done].
    injection Hv as <-. done.
Qed.

Lemma frame_of_nonempty r : encodable r → frame_of r ≠ [].
Proof.
  intros (b & _ & _ & ->)%encode_frame_Ok. destruct (header_bytes _ _) eqn:E; [|done].
  by apply (f_equal length) in E; rewrite header_bytes_length in E.
Qed.

Lemma frames_app rs rs' : frames (rs ++ rs') = frames rs ++ frames rs'.
Proof. unfold frames. by rewrite fmap_app, concat_app. Qed.

Lemma frames_length rs : Forall encodable rs → (length rs ≤ length (frames rs))%nat.
Proof.
  induction 1 as [|r rs Hr _ IH]; [done|]. change (frames (r :: rs)) with (frame_of r ++ frames rs).
  rewrite length_app. cbn. pose proof (frame_of_nonempty r Hr). destruct (frame_of r); [done|].
  cbn. lia.
Qed.

(** Every prefix of a log is some of its records and then less than a frame of the next. *)
Lemma frames_prefix rs bytes lost :
  Forall encodable rs → bytes ++ lost = frames rs →
  ∃ k tail, (k ≤ length rs)%nat ∧ bytes = frames (take k rs) ++ tail ∧ cut tail ∧
    ∀ j, (j ≤ length rs)%nat → blen (frames (take j rs)) ≤ blen bytes → (j ≤ k)%nat.
Proof.
  intros Hall. revert bytes. induction Hall as [|r rs Hr Hall IH]; intros bytes Heq.
  - apply app_nil in Heq as [-> ->]. exists 0%nat, []. split_and!; [done..|by left|].
    intros j Hj _. cbn in Hj. lia.
  - change (frames (r :: rs)) with (frame_of r ++ frames rs) in Heq.
    destruct (decide (length (frame_of r) ≤ length bytes)%nat) as [Hle|Hgt].
    + assert (∃ b, bytes = frame_of r ++ b ∧ b ++ lost = frames rs) as (b & -> & Hb).
      { exists (drop (length (frame_of r)) bytes).
        pose proof (f_equal (take (length (frame_of r))) Heq) as Ht.
        pose proof (f_equal (drop (length (frame_of r))) Heq) as Hd.
        rewrite take_app_le, take_app_length in Ht by done.
        rewrite drop_app_le, drop_app_length in Hd by done.
        split; [|done]. by rewrite <-Ht at 1; rewrite take_drop. }
      destruct (IH b Hb) as (k & tail & Hk & -> & Hcut & Hmax).
      exists (S k), tail. cbn [length take]. split_and!; [lia| |done|].
      { by rewrite (assoc_L app). }
      intros [|j] Hj Hlen; [lia|]. cbn [take] in Hlen.
      change (frames (r :: take j rs)) with (frame_of r ++ frames (take j rs)) in Hlen.
      rewrite !blen_app in Hlen. specialize (Hmax j). rewrite blen_app in Hmax.
      assert (j ≤ k)%nat; [apply Hmax|]; lia.
    + exists 0%nat, bytes. split_and!; [lia|done| |].
      * right. exists r, (drop (length bytes) (frame_of r)).
        pose proof (f_equal (take (length bytes)) Heq) as Ht.
        rewrite take_app_length, take_app_le in Ht by lia.
        split_and!; [done|by rewrite Ht at 1; rewrite take_drop|].
        intros Hd%(f_equal length). rewrite length_drop in Hd. cbn in Hd. lia.
      * intros [|j] Hj Hlen; [lia|]. cbn [take] in Hlen.
        change (frames (r :: take j rs)) with (frame_of r ++ frames (take j rs)) in Hlen.
        rewrite blen_app in Hlen. pose proof (blen_nonneg (frames (take j rs))).
        unfold blen in Hlen. lia.
Qed.

Lemma verify_from_take head rs head' k :
  verify_from postcard blake3 head rs = Ok head' →
  ∃ mid, verify_from postcard blake3 head (take k rs) = Ok mid.
Proof.
  intros Hv. rewrite <-(take_drop k rs), verify_from_app, bind_Ok in Hv.
  destruct Hv as (mid & Hmid & _). eauto.
Qed.

Lemma Forall_take_encodable k rs : Forall encodable rs → Forall encodable (take k rs).
Proof. apply Forall_take. Qed.

(** C32. Crash recovery: whatever part of the end of a log is lost, at any byte, and
    however the rest is read, the reader returns exactly the records whose frames are
    whole (so at least every record that was synced), with the verified head after them;
    then it ends cleanly if the cut fell between frames, and otherwise reports the
    truncated tail at the byte where the incomplete frame starts, which is where a repair
    must cut. *)
Theorem log_crash_recovery head policy now inputs w cs lost fuel :
  append_records (create head policy now) inputs = Ok w →
  h_genesis head = h_hash head →
  Forall (λ c, c ≠ []) cs → concat cs ++ lost = content (file w) →
  blen (content (file w)) ≤ u64_max → (length (concat cs) < fuel)%nat →
  ∃ k l, let rs := take k inputs.*1 in
    read_all fuel (open_reader (chunks cs))
    = Some (rs, (if decide (frames rs = concat cs) then None else Some (TruncatedTail (offset l))),
            l) ∧
    offset l = blen (frames rs) ∧ frames rs `prefix_of` concat cs ∧
    (∀ j, (j ≤ length inputs)%nat → blen (frames (take j inputs.*1)) ≤ blen (concat cs) →
       (j ≤ k)%nat) ∧
    (rs = [] ∨ ∃ mid, verify_from postcard blake3 head rs = Ok mid ∧ reader_head l = Some mid).
Proof.
  intros Ha Hg Hcs Hlost Hmax Hfuel.
  apply append_records_Ok in Ha as (Hall & Hv & Hc). cbn [create file content app] in Hc.
  change (writer_head (create head policy now)) with head in Hv.
  rewrite Hc in Hlost, Hmax.
  destruct (frames_prefix _ _ _ Hall Hlost) as (k & tail & Hk & Hcut & Hcutt & Hj).
  destruct (verify_from_take _ _ _ k Hv) as [mid Hmid].
  pose proof (frames_length _ (Forall_take_encodable k _ Hall)) as Hlen.
  destruct (read_all_cut (take k inputs.*1) head mid cs None 0 tail fuel) as [rd Hrd];
    [done|by apply Forall_take|done|done|done|done|lia| | |].
  { rewrite <-Hlost in Hmax. rewrite blen_app in Hmax. pose proof (blen_nonneg lost). lia. }
  { rewrite Hcut, length_app in Hfuel. lia. }
  rewrite Z.add_0_l in Hrd. exists k.
  exists (MkReader rd (if decide (take k inputs.*1 = []) then None else Some (MkVerifier mid))
            (blen (frames (take k inputs.*1))) true).
  cbn zeta. split_and!.
  - etrans; [exact Hrd|]. rewrite Hcut. unfold tail_error. cbn [offset].
    destruct (decide (tail = [])) as [->|Ht]; [by rewrite app_nil_r, (decide_True (P := frames _ = _))|].
    rewrite (decide_False (P := frames _ = _)); [done|]. intros Heq. rewrite <-(app_nil_r (frames _)) in Heq at 1.
    by apply app_inv_head in Heq.
  - done.
  - rewrite Hcut. by exists tail.
  - rewrite length_fmap in Hj. exact Hj.
  - destruct (decide (take k inputs.*1 = [])) as [He|He]; [by left|right].
    exists mid. split; [done|]. cbn [reader_head r_verifier fmap option_fmap option_map]. done.
Qed.

Lemma read_all_verify_all fuel l rs e l' :
  read_all fuel l = Some (rs, e, l') →
  verify_all_loop fuel l = Some (match e with Some e => Err e | None => Ok l' end).
Proof.
  revert l rs. induction fuel as [|fuel IH]; intros l rs; [done|]. cbn.
  destruct (next_record l) as [[[r|]|e'] l1].
  - destruct (read_all fuel l1) as [[[rs' e'] l2]|] eqn:E; [|done].
    intros [= <- -> ->]. by apply (IH l1 rs').
  - by intros [= <- <- <-].
  - by intros [= <- <- <-].
Qed.

(** Reopening resumes the chain: over the whole file, however it is read, [verify_all]
    returns the head the writer stopped at, so [LogWriter::open] continues exactly where
    the previous writer left off; a log without records is [Empty], never a chain of its
    own. *)
Theorem log_reopen_resumes head policy now inputs w cs fuel policy' now' :
  append_records (create head policy now) inputs = Ok w →
  h_genesis head = h_hash head →
  Forall (λ c, c ≠ []) cs → concat cs = content (file w) →
  blen (content (file w)) ≤ u64_max → (length (concat cs) < fuel)%nat →
  open_writer fuel (chunks cs) (file w) policy' now'
  = Some (if decide (inputs = []) then Err LogEmpty
          else Ok (MkWriter (file w) (from_head (writer_head w)) policy' now' false)).
Proof.
  intros Ha Hg Hcs Hc Hmax Hfuel.
  apply append_records_Ok in Ha as (Hall & Hv & Hcw). cbn [create file content app] in Hcw.
  change (writer_head (create head policy now)) with head in Hv.
  rewrite Hcw in Hc, Hmax. pose proof (frames_length _ Hall) as Hlen.
  destruct (read_all_cut inputs.*1 head (writer_head w) cs None 0 [] fuel) as [rd Hrd];
    [done|done|done|done|by left|by rewrite app_nil_r|lia|rewrite Hc; lia| |].
  { rewrite Hc in Hfuel. lia. }
  apply read_all_verify_all in Hrd. unfold open_writer, verify_all, open_reader. rewrite Hrd.
  unfold tail_error. rewrite decide_True by done. cbn [fmap option_fmap option_map].
  rewrite bind_Ok_l. unfold reader_head. cbn [r_verifier].
  destruct inputs as [|i inputs]; [done|]. cbn [fmap list_fmap].
  by rewrite !decide_False by done.
Qed.

(** An append is all or nothing, and its durability is the policy's: a record that
    does not continue the chain, or does not encode, leaves the writer and the file as they
    were; one that is appended is the next of its chain and its frame the end of the file.
    Under the default policy a critical record is durable when [append] returns, and what
    is not yet durable is younger than the sync interval; [sync_if_due] keeps that bound. *)
Theorem log_append_spec w r now io w' :
  (∀ write e, log_append w r now write io = (Err (LogChain e), w') → w' = w) ∧
  (∀ write e, log_append w r now write io = (Err (LogWire e), w') → w' = w) ∧
  (∀ n e, (log_append w r now (WriteFails n e) io).2.(verifier) = verifier w) ∧
  (log_append w r now WriteOk io = (Ok tt, w') →
     follows postcard blake3 (writer_head w) r ∧ writer_head w' = advance (writer_head w) r ∧
     content (file w') = content (file w) ++ frame_of r ∧
     (decider w = FsyncPolicy_DEFAULT →
        (record_is_critical r = true → durable (file w') = length (content (file w'))) ∧
        (dirty w' = true → saturating_sub now (last_sync w') < 250) ∧
        (dirty w' = false → durable (file w') = length (content (file w'))))) ∧
  (∀ interval b, sync_if_due w interval now io = (Ok b, w') →
     dirty w' = true → saturating_sub now (last_sync w') < interval).
Proof.
  split_and!.
  - intros write e. unfold log_append, sync. by repeat case_match; intros [=].
  - intros write e. unfold log_append, sync. by repeat case_match; intros [=].
  - intros n e. unfold log_append. by repeat case_match.
  - intros (_ & Hf & Hh & Hc & _ & Hs)%log_append_write_Ok. split_and!; [done..|].
    intros Hd. rewrite Hd in Hs. unfold FsyncPolicy_DEFAULT, should_sync in Hs.
    destruct (record_is_critical r) eqn:Er; cbn [orb] in Hs.
    + destruct Hs as (? & Hd' & ?). split_and!; [done| |done]. by rewrite Hd'.
    + destruct (Z.leb_spec 250 (saturating_sub now (last_sync w))) as [Hle|Hlt];
        destruct Hs as (? & Hd' & Hl).
      * split_and!; [done| |done]. by rewrite Hd'.
      * split_and!; [done| |]; [|by rewrite Hd']. by rewrite Hl.
  - intros interval b. unfold sync_if_due, sync.
    destruct (dirty w) eqn:Ed, (Z.leb_spec interval (saturating_sub now (last_sync w)));
      cbn; try (destruct io; cbn); intros [= <- <-]; cbn; intros; congruence || lia.
Qed.
End log.

(** ** The HEAD file *)
Definition plain (c : byte) : Prop := 32 < code c.

#[export] Instance plain_dec c : Decision (plain c).
Proof. unfold plain. apply _. Defined.

Lemma nth_Forall {A} (P : A → Prop) (l : list A) i d : Forall P l → P d → P (nth i l d).
Proof.
  intros Hl Hd. destruct (nth_in_or_default i l d) as [Hin| ->]; [|done].
  rewrite Forall_forall in Hl. apply Hl. by apply list_elem_of_In.
Qed.

Lemma plain_ulid v : Forall plain (encode_ulid v).
Proof.
  unfold encode_ulid. induction ULID_LEN as [|n IH]; [constructor|]. constructor; [|done].
  apply nth_Forall; [|done]. apply (bool_decide_eq_true_1 _). by vm_compute.
Qed.

Lemma plain_hex l : Forall plain (encode_hex l).
Proof.
  induction l as [|b l IH]; [constructor|]. cbn [encode_hex].
  assert (Forall plain HEX) as Hh by (apply (bool_decide_eq_true_1 _); by vm_compute).
  do 2 (constructor; [by apply nth_Forall|]). done.
Qed.

Lemma plain_dec_display n : in_u64 n → Forall plain (dec_display n).
Proof.
  intros (_ & Hall & _)%dec_display_digits. eapply Forall_impl; [exact Hall|].
  intros c Hc%in_range_spec. unfold plain. lia.
Qed.

Lemma lines_cons l rest : Forall plain l → lines (l ++ nl :: rest) = l :: lines rest.
Proof.
  intros Hl. unfold lines, nl. rewrite split_on_app.
  2:{ intros Hin. rewrite Forall_forall in Hl. specialize (Hl _ Hin). vm_compute in Hl. done. }
  destruct (split_on_cons (chr 10) rest) as (w & ws & ->).
  change (default l (strip_suffix [chr 13] l) :: lines_of (w :: ws) = l :: lines_of (w :: ws)).
  destruct (strip_suffix [chr 13] l) as [x|] eqn:E; [|done].
  apply strip_suffix_Some in E. rewrite E in Hl. apply Forall_app in Hl as [_ Hl].
  apply Forall_cons in Hl as [Hl _]. vm_compute in Hl. done.
Qed.

Lemma plain_head_line key value :
  Forall plain (bytes key) → Forall plain value → Forall plain (head_line key value).
Proof. intros Hk Hv. apply Forall_app. split; [done|]. by constructor. Qed.

(** The lines of a HEAD file, each read by its key. *)
Section head_lines.
Context {PErr IoErr : Type}.
Abbreviation parse := (parse_line (PErr := PErr) (IoErr := IoErr)).
Implicit Types f : HeadFields.

Lemma split_head_line key value :
  "="%char ∉ bytes key → split_once "="%char (head_line key value) = Some (bytes key, value).
Proof. apply split_once_app. Qed.

Lemma parse_session_line f s :
  Z.of_N s ≤ u128_max →
  parse f (head_line "session" (session_text s))
  = Ok (MkFields (Some s) (f_genesis f) (f_next_seq f) (f_hash f)).
Proof.
  intros Hs. unfold parse_line. rewrite split_head_line by (by apply (bool_decide_eq_true_1 _)).
  cbn [ok_or]. rewrite bind_Ok_l. rewrite bool_decide_true by done.
  assert (from_str SessionId_ (session_text s) = Ok (Z.of_N s)) as ->.
  { apply from_str_display. lia. }
  cbn [ok ok_or]. rewrite bind_Ok_l. by rewrite N2Z.id.
Qed.

Lemma from_hex_prefixed h : from_hex (bytes "blake3:" ++ to_hex h) = Ok h.
Proof.
  unfold from_hex. rewrite (proj2 (strip_prefix_Some _ _ (to_hex h))) by done.
  apply decode_hex_32_to_hex.
Qed.

Lemma parse_genesis_line f h :
  parse f (head_line "genesis" (bytes "blake3:" ++ to_hex h))
  = Ok (MkFields (f_session f) (Some h) (f_next_seq f) (f_hash f)).
Proof.
  unfold parse_line. rewrite split_head_line by (by apply (bool_decide_eq_true_1 _)).
  cbn [ok_or]. rewrite bind_Ok_l, from_hex_prefixed. reflexivity.
Qed.

Lemma parse_hash_line f h :
  parse f (head_line "hash" (bytes "blake3:" ++ to_hex h))
  = Ok (MkFields (f_session f) (f_genesis f) (f_next_seq f) (Some h)).
Proof.
  unfold parse_line. rewrite split_head_line by (by apply (bool_decide_eq_true_1 _)).
  cbn [ok_or]. rewrite bind_Ok_l, from_hex_prefixed. reflexivity.
Qed.

Lemma parse_next_seq_line f n :
  in_u64 n →
  parse f (head_line "next_seq" (dec_display n))
  = Ok (MkFields (f_session f) (f_genesis f) (Some n) (f_hash f)).
Proof.
  intros Hn. unfold parse_line.
  rewrite split_head_line by (by apply (bool_decide_eq_true_1 _)).
  cbn [ok_or]. rewrite bind_Ok_l, dec_parse_display by done. reflexivity.
Qed.

(** A sealed head reads back: the text [seal] writes beside the log parses to the head
    it was written from, the head of the sealed writer. *)
Theorem head_file_roundtrip head :
  Z.of_N (h_session head) ≤ u128_max → in_u64 (h_next_seq head) →
  parse_head (PErr := PErr) (IoErr := IoErr) (format_head head) = Ok head ∧
  (∀ w now e text,
     seal (PErr := PErr) (IoErr := IoErr) w now None e = Ok (head, text) →
     parse_head (PErr := PErr) (IoErr := IoErr) text = Ok (writer_head w)).
Proof.
  intros Hs Hn.
  assert (parse_head (PErr := PErr) (IoErr := IoErr) (format_head head) = Ok head) as Hrt.
  { unfold parse_head, format_head. cbn [app].
    assert (∀ key, bool_decide (Forall plain (bytes key)) = true → Forall plain (bytes key))
      as Hkey by (intros key; apply bool_decide_eq_true_1).
    rewrite !lines_cons; try (apply plain_head_line; [by apply Hkey|]).
    - change (lines []) with (@nil (list byte)). cbn [parse_lines].
      rewrite parse_session_line, bind_Ok_l by done.
      rewrite parse_genesis_line, bind_Ok_l, parse_next_seq_line, bind_Ok_l by done.
      rewrite parse_hash_line, bind_Ok_l. by destruct head.
    - by apply Forall_app; split; [apply Hkey|apply plain_hex].
    - by apply plain_dec_display.
    - by apply Forall_app; split; [apply Hkey|apply plain_hex].
    - by apply Forall_app; split; [apply Hkey|apply plain_ulid]. }
  split; [done|]. intros w now e text. unfold seal, sync. destruct e; [done|].
  intros Heq. assert ((writer_head w, format_head (writer_head w)) = (head, text)) as Hp.
  { change (@Ok (LogError PErr IoErr) _ (writer_head w, format_head (writer_head w))
            = Ok (head, text)) in Heq. congruence. }
  apply pair_equal_spec in Hp as [-> <-]. done.
Qed.
End head_lines.

(** ** A concrete log: the three records of the example chain *)
Import ChainExample WireExample.

Module LogExample.
Definition inputs : list (EventRecord string * Z) := (λ r, (r, 1000)) <$> records.
Definition w0 : LogWriter := create (genesis_head 9 manifest) FsyncPolicy_DEFAULT 0.
Definition written : result (LogError unit unit) LogWriter :=
  append_records encode digest w0 inputs.
Definition w3 : LogWriter := match written with Ok w => w | Err _ => w0 end.
Definition cut_chunks : list (list byte) :=
  [take 5 (content (file w3)); take 15 (drop 5 (content (file w3)))].
End LogExample.
Import LogExample.

Lemma log_crash_recovery_witness :
  ∃ k (l : LogReader (IoErr := unit)),
    read_all encode digest 30 (open_reader (chunks cut_chunks))
    = Some (take k inputs.*1,
            (if decide (frames (PErr := unit) (IoErr := unit) (take k inputs.*1) = concat cut_chunks)
             then None else Some (TruncatedTail (offset l))), l).
Proof.
  destruct (log_crash_recovery (PErr := unit) (IoErr := unit) encode digest (genesis_head 9 manifest)
              FsyncPolicy_DEFAULT 0 inputs w3 cut_chunks (drop 20 (content (file w3))) 30)
    as (k & l & Hread & _).
  - vm_compute. reflexivity.
  - reflexivity.
  - repeat constructor; vm_compute; discriminate.
  - vm_compute. reflexivity.
  - vm_compute. discriminate.
  - vm_compute. lia.
  - exists k, l. exact Hread.
Defined.

Lemma log_reopen_resumes_witness :
  open_writer encode digest 40 (chunks (IoErr := unit) [content (file w3)]) (file w3) Always 2000
  = Some (Ok (MkWriter (file w3) (from_head (writer_head w3)) Always 2000 false)).
Proof.
  apply (log_reopen_resumes (PErr := unit) (IoErr := unit) encode digest (genesis_head 9 manifest)
           FsyncPolicy_DEFAULT 0 inputs w3).
  - vm_compute. reflexivity.
  - reflexivity.
  - repeat constructor; vm_compute; discriminate.
  - vm_compute. reflexivity.
  - vm_compute. discriminate.
  - vm_compute. lia.
Defined.

Lemma log_append_spec_witness :
  content (file (log_append encode digest w0 first 1000 WriteOk (@None unit)).2) = frame.
Proof.
  destruct (log_append_spec (PErr := unit) (IoErr := unit) encode digest w0 first 1000 None
              (log_append encode digest w0 first 1000 WriteOk (@None unit)).2) as (_ & _ & _ & H & _).
  destruct H as (_ & _ & Hc & _); [vm_compute; reflexivity|].
  rewrite Hc. vm_compute. reflexivity.
Defined.

Lemma head_file_roundtrip_witness :
  parse_head (PErr := unit) (IoErr := unit) (format_head final) = Ok final.
Proof.
  apply (head_file_roundtrip (PErr := unit) (IoErr := unit) final).
  - vm_compute. discriminate.
  - split; vm_compute; discriminate.
Defined.
