(* ===== verification/Policy.v ===== *)
(** * Policy: the capability manifest and the three-layer merge ([crates/ward-policy])

    Each capability is a value of a lattice; [merge] starts from the system layer (or the
    image default) and takes the meet with the user's and the project's layer, so that a
    lower layer narrows and never widens.  The class [Lattice] holds the operation the
    source's trait has, and [LatticeLaws] what the merge relies on: the meet is the greatest
    lower bound of an order "permits at most".  Every capability but the network satisfies
    the laws; the network's meet is studied against the names the proxy admits, in
    [Egress].  The sorted maps and sets of the source are finite maps and sets: nothing here
    depends on the order in which they are visited. *)

From stdpp Require Import base numbers option gmap sorting strings list.
From S2P Require Import Prelude Bytes.

(** ** Host names ([hosts.rs]) *)
Definition REGISTRY_HOSTS : list string :=
  ["registry.npmjs.org"; "pypi.org"; "files.pythonhosted.org"; "index.crates.io";
   "static.crates.io"; "proxy.golang.org"].

Definition DEVELOPMENT_HOSTS : list string :=
  ["github.com"; "api.github.com"; "codeload.github.com"; "objects.githubusercontent.com";
   "api.anthropic.com"; "platform.claude.com"; "claude.ai"; "api.openai.com";
   "generativelanguage.googleapis.com"].

Definition strip_dot (host : list byte) : list byte := default host (strip_suffix ["."%char] host).

(** A byte equal to [.] is always a character boundary, so the boundary test of the source
    adds nothing to the comparison with [.]. *)
Definition host_matches (pattern host : list byte) : bool :=
  let host := strip_dot host in
  match strip_prefix (bytes "*.") pattern with
  | Some suffix =>
      (length suffix + 1 <? length host)%nat
      && bool_decide (host !! (length host - length suffix - 1)%nat = Some "."%char)
      && eq_ignore_ascii_case (drop (length host - length suffix) host) suffix
  | None => eq_ignore_ascii_case pattern host
  end.

Definition any_matches (patterns : list (list byte)) (host : list byte) : bool :=
  existsb (λ p, host_matches p host) patterns.

Definition is_localhost_name (host : list byte) : bool :=
  host_matches (bytes "localhost") host || host_matches (bytes "*.localhost") host.

(** ** The capabilities ([capability.rs]) *)
Inductive Decision_ : Set := AllowIt | AskIt | DenyIt.
#[export] Instance Decision_eq_dec : EqDecision Decision_.
Proof. solve_decision. Defined.

Inductive AccessMode : Set := NoAccess | ReadOnly | ReadWrite.
#[export] Instance AccessMode_eq_dec : EqDecision AccessMode.
Proof. solve_decision. Defined.

Record FsCapabilities := MkFs {
  worktree : AccessMode;
  environment : AccessMode;
  home : AccessMode;
  tmp : AccessMode;
  extra : gmap string AccessMode;
}.

Inductive NetworkCapability : Type :=
| Offline
| LocalhostOnly
| Registries
| Development
| Custom (hosts : gset string)
| Unrestricted.
#[export] Instance NetworkCapability_eq_dec : EqDecision NetworkCapability.
Proof. solve_decision. Defined.

Definition permits_private_ranges (n : NetworkCapability) : bool :=
  match n with
  | Offline | LocalhostOnly | Registries | Development | Custom _ | Unrestricted => false
  end.

Inductive RepoSelector : Set := CurrentRepository | Named (name : string).
#[export] Instance RepoSelector_eq_dec : EqDecision RepoSelector.
Proof. solve_decision. Defined.
#[export] Program Instance RepoSelector_countable : Countable RepoSelector :=
  inj_countable' (λ r, match r with CurrentRepository => None | Named s => Some s end)
    (λ o, match o with None => CurrentRepository | Some s => Named s end) _.
Next Obligation. by intros []. Qed.

Record CredentialScope := MkScope {
  repositories : gset RepoSelector;
  permissions : gset string;
}.

Inductive CredentialRule : Type :=
| Deny
| Ask (s : CredentialScope)
| Allow (s : CredentialScope).

Definition decision (r : CredentialRule) : Decision_ :=
  match r with Deny => DenyIt | Ask _ => AskIt | Allow _ => AllowIt end.

Inductive ContainerCapability : Set := NoContainers | NestedRootless.

Record DeviceSet := MkDevices { device_set : gset string }.

Record ResourceLimits := MkLimits {
  cpu_weight : Z;
  memory_percent : Z;
  pids : Z;
  disk_gib : Z;
}.

Record StepPolicy := MkStep { pause_before_writes : bool; pause_before_network : bool }.

Inductive ObserverMode : Set := Quiet | Live | StepThrough (s : StepPolicy).

Abbreviation Credentials := (gmap string CredentialRule).

Record CapabilityManifest := MkManifest {
  m_session : string;
  m_project : string;
  m_policy_hash : list byte;
  m_filesystem : FsCapabilities;
  m_network : NetworkCapability;
  m_credentials : Credentials;
  m_containers : ContainerCapability;
  m_devices : DeviceSet;
  m_resources : ResourceLimits;
  m_observer : ObserverMode;
  m_tool_images : list string;
  m_agent_image : string;
}.

(** One layer of policy ([policy.rs]): every field may be absent. *)
Record Policy := MkPolicy {
  p_filesystem : option FsCapabilities;
  p_network : option NetworkCapability;
  p_credentials : option Credentials;
  p_containers : option ContainerCapability;
  p_devices : option DeviceSet;
  p_resources : option ResourceLimits;
  p_observer : option ObserverMode;
}.
Definition empty_policy : Policy := MkPolicy None None None None None None None.

(** *** The derived orders *)
Definition decision_rank (d : Decision_) : nat :=
  match d with AllowIt => 0 | AskIt => 1 | DenyIt => 2 end.
Definition decision_max (a b : Decision_) : Decision_ :=
  if (decision_rank a <=? decision_rank b)%nat then b else a.

Definition access_rank (a : AccessMode) : nat :=
  match a with NoAccess => 0 | ReadOnly => 1 | ReadWrite => 2 end.
Definition access_min (a b : AccessMode) : AccessMode :=
  if (access_rank a <=? access_rank b)%nat then a else b.

Definition container_rank (c : ContainerCapability) : nat :=
  match c with NoContainers => 0 | NestedRootless => 1 end.
Definition container_min (a b : ContainerCapability) : ContainerCapability :=
  if (container_rank a <=? container_rank b)%nat then a else b.

Definition wildcard_match (listed service : string) : bool :=
  match strip_suffix ["*"%char] (bytes listed) with
  | Some prefix => starts_with prefix (bytes service)
  | None => false
  end.

(** The decisions of the wildcard rules that match, in the map's order. *)
Definition wildcard_decisions (cs : Credentials) (service : string) : list Decision_ :=
  omap (λ '(listed, rule), if wildcard_match listed service then Some (decision rule) else None)
    (map_to_list cs).

(** [Iterator::max] *)
Definition iter_max (ds : list Decision_) : option Decision_ :=
  match ds with
  | [] => None
  | d :: ds => Some (foldl decision_max d ds)
  end.

Definition credential_decision (cs : Credentials) (service : string) : Decision_ :=
  match cs !! service with
  | Some rule => decision rule
  | None => default DenyIt (iter_max (wildcard_decisions cs service))
  end.

(** ** The lattices ([merge.rs]) *)
Class Lattice (T : Type) := meet : T → T → T.

#[export] Instance AccessMode_lattice : Lattice AccessMode := access_min.
#[export] Instance Container_lattice : Lattice ContainerCapability := container_min.
#[export] Instance Devices_lattice : Lattice DeviceSet := λ a b,
  MkDevices (device_set a ∩ device_set b).
#[export] Instance Resources_lattice : Lattice ResourceLimits := λ a b,
  MkLimits (cpu_weight a `min` cpu_weight b) (memory_percent a `min` memory_percent b)
    (pids a `min` pids b) (disk_gib a `min` disk_gib b).

Definition oversight (o : ObserverMode) : Z :=
  match o with Quiet => 0 | Live => 1 | StepThrough _ => 2 end.
#[export] Instance Observer_lattice : Lattice ObserverMode := λ a b,
  match a, b with
  | StepThrough pa, StepThrough pb =>
      StepThrough (MkStep (pause_before_writes pa || pause_before_writes pb)
                     (pause_before_network pa || pause_before_network pb))
  | _, _ => if (oversight b <=? oversight a)%Z then a else b
  end.

Definition scope_meet (a b : CredentialScope) : CredentialScope :=
  MkScope (repositories a ∩ repositories b) (permissions a ∩ permissions b).
#[export] Instance Credential_lattice : Lattice CredentialRule := λ a b,
  match a, b with
  | Deny, _ | _, Deny => Deny
  | Ask sa, Ask sb | Ask sa, Allow sb | Allow sa, Ask sb => Ask (scope_meet sa sb)
  | Allow sa, Allow sb => Allow (scope_meet sa sb)
  end.

#[export] Instance Fs_lattice : Lattice FsCapabilities := λ a b,
  MkFs (meet (worktree a) (worktree b)) (meet (environment a) (environment b))
    (meet (home a) (home b)) (meet (tmp a) (tmp b))
    (merge (λ ma mb, m ← ma; n ← mb; Some (access_min m n)) (extra a) (extra b)).

Definition net_rank (n : NetworkCapability) : Z :=
  match n with
  | Offline => 0 | LocalhostOnly => 1 | Registries => 2 | Development => 3 | Custom _ => 4
  | Unrestricted => 5
  end.

Definition preset_covers (preset : NetworkCapability) (pat : list byte) : bool :=
  match preset with
  | Unrestricted => true
  | Offline | Custom _ => false
  | LocalhostOnly =>
      let base := default pat (strip_prefix (bytes "*.") pat) in
      eq_ignore_ascii_case base (bytes "localhost")
      || ends_with (bytes ".localhost") (to_ascii_lowercase <$> base)
  | Registries =>
      negb (bool_decide ("*"%char ∈ pat)) && any_matches (bytes <$> REGISTRY_HOSTS) pat
  | Development =>
      negb (bool_decide ("*"%char ∈ pat))
      && any_matches (bytes <$> (REGISTRY_HOSTS ++ DEVELOPMENT_HOSTS)) pat
  end.

Definition covered_by (preset : NetworkCapability) (s : gset string) : gset string :=
  filter (λ pat, preset_covers preset (bytes pat) = true) s.

#[export] Instance Network_lattice : Lattice NetworkCapability := λ a b,
  match a, b with
  | Custom sa, Custom sb => Custom (sa ∩ sb)
  | Custom s, preset | preset, Custom s => Custom (covered_by preset s)
  | _, _ => if (net_rank a <=? net_rank b)%Z then a else b
  end.

(** ** The merge *)
Definition narrow {T} `{Lattice T} (default_ : T) (s u p : option T) : T :=
  let base := default default_ s in
  let base := match u with Some v => meet base v | None => base end in
  match p with Some v => meet base v | None => base end.

Definition merge_credentials (default_ : Credentials) (system user project : Policy) :
    Credentials :=
  let system_rules := default ∅ (p_credentials system) in
  let user_rules := default ∅ (p_credentials user) in
  let project_rules := default ∅ (p_credentials project) in
  let services : gset string :=
    dom default_ ∪ dom system_rules ∪ dom user_rules ∪ dom project_rules in
  set_to_map (λ svc,
    let base := default Deny (match system_rules !! svc with
                              | Some r => Some r
                              | None => default_ !! svc
                              end) in
    (svc, narrow base None (user_rules !! svc) (project_rules !! svc))) services.

(** The image-shipped default ([default.rs]). *)
Definition default_credentials : Credentials :=
  {[ "github" := Ask (MkScope {[ CurrentRepository ]} {[ "contents:read"; "issues:read" ]});
     "npm-publish" := Deny;
     "pypi-publish" := Deny;
     "cloud-*" := Deny;
     "ssh-signing" := Ask (MkScope ∅ ∅) ]}.

Definition set_policy_hash (m : CapabilityManifest) (h : list byte) : CapabilityManifest :=
  MkManifest (m_session m) (m_project m) h (m_filesystem m) (m_network m) (m_credentials m)
    (m_containers m) (m_devices m) (m_resources m) (m_observer m) (m_tool_images m)
    (m_agent_image m).

(** The fields the policy hash covers: all but the session, the project and the hash. *)
Definition hash_input (m : CapabilityManifest) :=
  (m_filesystem m, m_network m, m_credentials m, m_containers m, m_devices m, m_resources m,
   m_observer m, m_tool_images m, m_agent_image m).
Abbreviation HashInput :=
  (FsCapabilities * NetworkCapability * Credentials * ContainerCapability * DeviceSet
   * ResourceLimits * ObserverMode * list string * string)%type.

(** The serializer and BLAKE3 are libraries: one function of the hashed fields. *)
Section merge_.
Context (digest : HashInput → list byte).

Definition policy_hash (m : CapabilityManifest) : list byte := digest (hash_input m).

Definition default_manifest : CapabilityManifest :=
  let manifest :=
    MkManifest "default" "default" (replicate 32 (chr 0))
      (MkFs ReadWrite ReadWrite ReadWrite ReadWrite ∅) Development default_credentials
      NestedRootless (MkDevices ∅) (MkLimits 100 50 4096 20) Live []
      "sha256:0000000000000000000000000000000000000000000000000000000000000000" in
  set_policy_hash manifest (policy_hash manifest).

Definition merge_layers (system user project : Policy) (session project_id : string) :
    CapabilityManifest :=
  let base := default_manifest in
  let manifest :=
    MkManifest session project_id (replicate 32 (chr 0))
      (narrow (m_filesystem base) (p_filesystem system) (p_filesystem user) (p_filesystem project))
      (narrow (m_network base) (p_network system) (p_network user) (p_network project))
      (merge_credentials (m_credentials base) system user project)
      (narrow (m_containers base) (p_containers system) (p_containers user) (p_containers project))
      (narrow (m_devices base) (p_devices system) (p_devices user) (p_devices project))
      (narrow (m_resources base) (p_resources system) (p_resources user) (p_resources project))
      (narrow (m_observer base) (p_observer system) (p_observer user) (p_observer project))
      (m_tool_images base) (m_agent_image base) in
  set_policy_hash manifest (policy_hash manifest).
End merge_.

(** ** What the merge relies on *)
Class PermitsAtMost (T : Type) := permits_at_most : relation T.
Infix "≼" := permits_at_most (at level 70) : policy_scope.
Local Open Scope policy_scope.

Class LatticeLaws (T : Type) `{Lattice T, PermitsAtMost T} := {
  pam_order :: PartialOrder (A := T) permits_at_most;
  meet_lower_l (a b : T) : meet a b ≼ a;
  meet_lower_r (a b : T) : meet a b ≼ b;
  meet_greatest (a b c : T) : c ≼ a → c ≼ b → c ≼ meet a b;
}.

(** Laws of every such lattice. *)
Section lattice_theory.
Context {T : Type} `{LatticeLaws T}.
Implicit Types a b c : T.

Lemma meet_spec a b c : c ≼ meet a b ↔ c ≼ a ∧ c ≼ b.
Proof.
  split; [|intros [? ?]; by apply meet_greatest].
  intros Hc. split; (etrans; [exact Hc|]); [apply meet_lower_l|apply meet_lower_r].
Qed.

Lemma pam_ext a b : (∀ c, c ≼ a ↔ c ≼ b) → a = b.
Proof. intros Hab. apply (anti_symm permits_at_most); apply Hab; reflexivity. Qed.

Lemma meet_comm a b : meet a b = meet b a.
Proof. apply pam_ext. intros c. rewrite !meet_spec. tauto. Qed.

Lemma meet_assoc a b c : meet a (meet b c) = meet (meet a b) c.
Proof. apply pam_ext. intros d. rewrite !meet_spec. tauto. Qed.

Lemma meet_idemp a : meet a a = a.
Proof. apply pam_ext. intros c. rewrite meet_spec. tauto. Qed.

(** [narrow] is the most permissive value below its base and every layer present. *)
Lemma narrow_spec d (s u p : option T) c :
  c ≼ narrow d s u p ↔
  c ≼ default d s ∧ (∀ v, u = Some v → c ≼ v) ∧ (∀ v, p = Some v → c ≼ v).
Proof.
  unfold narrow. destruct u as [v|], p as [w|]; rewrite ?meet_spec; naive_solver.
Qed.

Lemma narrow_lower_project d (s u p : option T) : narrow d s u p ≼ narrow d s u None.
Proof.
  apply narrow_spec.
  pose proof (proj1 (narrow_spec d s u p _) (reflexivity _)) as (? & ? & ?). done.
Qed.

Lemma narrow_lower_user d (s u : option T) : narrow d s u None ≼ narrow d s None None.
Proof.
  apply narrow_spec.
  pose proof (proj1 (narrow_spec d s u None _) (reflexivity _)) as (? & ? & ?). done.
Qed.

Lemma narrow_swap d (s u p : option T) : narrow d s u p = narrow d s p u.
Proof. apply pam_ext. intros c. rewrite !narrow_spec. tauto. Qed.
End lattice_theory.

(** *** The instances *)
#[export] Instance AccessMode_pam : PermitsAtMost AccessMode := λ a b,
  (access_rank a ≤ access_rank b)%nat.
#[export] Instance Container_pam : PermitsAtMost ContainerCapability := λ a b,
  (container_rank a ≤ container_rank b)%nat.
#[export] Instance Devices_pam : PermitsAtMost DeviceSet := λ a b, device_set a ⊆ device_set b.
#[export] Instance Resources_pam : PermitsAtMost ResourceLimits := λ a b,
  (cpu_weight a ≤ cpu_weight b)%Z ∧ (memory_percent a ≤ memory_percent b)%Z ∧
  (pids a ≤ pids b)%Z ∧ (disk_gib a ≤ disk_gib b)%Z.
#[export] Instance Observer_pam : PermitsAtMost ObserverMode := λ a b,
  match a, b with
  | StepThrough x, StepThrough y =>
      (pause_before_writes y = true → pause_before_writes x = true) ∧
      (pause_before_network y = true → pause_before_network x = true)
  | _, _ => (oversight b ≤ oversight a)%Z
  end.
Definition scope_le (a b : CredentialScope) : Prop :=
  repositories a ⊆ repositories b ∧ permissions a ⊆ permissions b.
#[export] Instance Credential_pam : PermitsAtMost CredentialRule := λ a b,
  match a, b with
  | Deny, _ => True
  | Ask x, Ask y | Ask x, Allow y | Allow x, Allow y => scope_le x y
  | _, Deny | Allow _, Ask _ => False
  end.
#[export] Instance Fs_pam : PermitsAtMost FsCapabilities := λ a b,
  worktree a ≼ worktree b ∧ environment a ≼ environment b ∧ home a ≼ home b ∧ tmp a ≼ tmp b ∧
  ∀ path m, extra a !! path = Some m → ∃ n, extra b !! path = Some n ∧ m ≼ n.

#[export] Instance AccessMode_laws : LatticeLaws AccessMode.
Proof.
  split; unfold permits_at_most, AccessMode_pam.
  - split; [split|]; [by intros []|intros ???; lia|].
    intros [] []; cbn; intros; done || lia.
  - intros [] []; cbn; lia.
  - intros [] []; cbn; lia.
  - intros [] [] []; cbn; lia.
Qed.

#[export] Instance Container_laws : LatticeLaws ContainerCapability.
Proof.
  split; unfold permits_at_most, Container_pam.
  - split; [split|]; [by intros []|intros ???; lia|].
    intros [] []; cbn; intros; done || lia.
  - intros [] []; cbn; lia.
  - intros [] []; cbn; lia.
  - intros [] [] []; cbn; lia.
Qed.

#[export] Instance Devices_laws : LatticeLaws DeviceSet.
Proof.
  split; unfold permits_at_most, Devices_pam, meet, Devices_lattice.
  - split; [split|].
    + intros ?. done.
    + intros ???. set_solver.
    + intros [] [] ??. cbn in *. f_equal. by apply (anti_symm (⊆)).
  - cbn. set_solver.
  - cbn. set_solver.
  - cbn. set_solver.
Qed.

#[export] Instance Resources_laws : LatticeLaws ResourceLimits.
Proof.
  split; unfold permits_at_most, Resources_pam, meet, Resources_lattice.
  - split; [split|].
    + intros ?. lia.
    + intros ???. lia.
    + intros [] []; cbn. intros. f_equal; lia.
  - intros. cbn. lia.
  - intros. cbn. lia.
  - intros. cbn. lia.
Qed.

#[export] Instance Observer_laws : LatticeLaws ObserverMode.
Proof.
  split; unfold permits_at_most, Observer_pam, meet, Observer_lattice.
  - split; [split|].
    + intros [| |[]]; cbn; auto with lia.
    + intros [| |[]] [| |[]] [| |[]]; cbn; try lia; naive_solver.
    + intros [| |[[] []]] [| |[[] []]]; cbn; intros; try done; try lia; naive_solver.
  - intros [| |[[] []]] [| |[[] []]]; cbn; try lia; auto.
  - intros [| |[[] []]] [| |[[] []]]; cbn; try lia; auto.
  - intros [| |[[] []]] [| |[[] []]] [| |[[] []]]; cbn; try lia; naive_solver.
Qed.

#[export] Instance Credential_laws : LatticeLaws CredentialRule.
Proof.
  split; unfold permits_at_most, Credential_pam, meet, Credential_lattice, scope_le.
  - split; [split|].
    + intros []; set_solver.
    + intros [] [] []; set_solver.
    + intros [|[]|[]] [|[]|[]]; cbn; try done; intros [] []; do 2 f_equal;
        by apply (anti_symm (⊆)).
  - intros [] []; cbn; try done; set_solver.
  - intros [] []; cbn; try done; set_solver.
  - intros [] [] []; cbn; try done; set_solver.
Qed.

Lemma extra_meet_lookup a b path :
  extra (meet a b) !! path =
  (m ← extra a !! path; n ← extra b !! path; Some (access_min m n)).
Proof.
  unfold meet, Fs_lattice. cbn [extra]. rewrite lookup_merge. unfold diag_None.
  by destruct (extra a !! path), (extra b !! path).
Qed.

#[export] Instance Fs_laws : LatticeLaws FsCapabilities.
Proof.
  split; unfold permits_at_most, Fs_pam.
  - split; [split|].
    + intros a. split_and!; [reflexivity..|]. intros path m Hm. by exists m.
    + intros a b c (? & ? & ? & ? & Hab) (? & ? & ? & ? & Hbc). split_and!; [by etrans..|].
      intros path m (n & Hn & ?)%Hab. destruct (Hbc path n Hn) as (k & ? & ?).
      exists k. split; [done|by etrans].
    + intros [w1 e1 h1 t1 x1] [w2 e2 h2 t2 x2] (? & ? & ? & ? & Hab) (? & ? & ? & ? & Hba).
      cbn in *. f_equal; [by apply (anti_symm permits_at_most)..|].
      apply map_eq. intros path. apply option_eq. intros m. split.
      * intros Hm. destruct (Hab path m Hm) as (n & Hn & ?), (Hba path n Hn) as (k & Hk & ?).
        assert (m = n) as -> by (apply (anti_symm permits_at_most); congruence). done.
      * intros Hm. destruct (Hba path m Hm) as (n & Hn & ?), (Hab path n Hn) as (k & Hk & ?).
        assert (m = n) as -> by (apply (anti_symm permits_at_most); congruence). done.
  - intros a b. split_and!; [apply meet_lower_l..|]. intros path m. rewrite extra_meet_lookup.
    destruct (extra a !! path) as [x|], (extra b !! path) as [y|]; cbn; try done.
    intros [= <-]. exists x. split; [done|]. apply (meet_lower_l x y).
  - intros a b. split_and!; [apply meet_lower_r..|]. intros path m. rewrite extra_meet_lookup.
    destruct (extra a !! path) as [x|], (extra b !! path) as [y|]; cbn; try done.
    intros [= <-]. exists y. split; [done|]. apply (meet_lower_r x y).
  - intros a b c (? & ? & ? & ? & Ha) (? & ? & ? & ? & Hb).
    split_and!; [by apply meet_greatest..|]. intros path m Hm. rewrite extra_meet_lookup.
    destruct (Ha path m Hm) as (x & -> & ?), (Hb path m Hm) as (y & -> & ?).
    exists (access_min x y). split; [done|]. by apply (meet_greatest x y).
Qed.

(** ** Credential decisions *)
Definition at_least (a b : Decision_) : Prop := (decision_rank b ≤ decision_rank a)%nat.

Lemma decision_max_spec a b :
  (decision_max a b = a ∨ decision_max a b = b) ∧
  at_least (decision_max a b) a ∧ at_least (decision_max a b) b.
Proof. destruct a, b; cbv; auto with lia. Qed.

Lemma foldl_max_spec d ds :
  foldl decision_max d ds ∈ d :: ds ∧ ∀ x, x ∈ d :: ds → at_least (foldl decision_max d ds) x.
Proof.
  revert d. induction ds as [|e ds IH]; intros d; cbn [foldl].
  - split; [by left|]. intros x ->%list_elem_of_singleton. by unfold at_least.
  - destruct (decision_max_spec d e) as (Hor & Hd & He), (IH (decision_max d e)) as [Hin Hall].
    split.
    + apply elem_of_cons in Hin as [Hin|Hin]; [|by do 2 right].
      rewrite Hin. destruct Hor as [-> | ->]; [by left|by right; left].
    + intros x Hx. assert (at_least (foldl decision_max (decision_max d e) ds) (decision_max d e))
        as Hm by (apply Hall; by left).
      unfold at_least in *.
      apply elem_of_cons in Hx as [->|Hx]; [lia|]. apply elem_of_cons in Hx as [->|Hx]; [lia|].
      apply Hall. by right.
Qed.

Lemma wildcard_decisions_elem cs service d :
  d ∈ wildcard_decisions cs service ↔
  ∃ listed rule, cs !! listed = Some rule ∧ wildcard_match listed service = true ∧
    d = decision rule.
Proof.
  unfold wildcard_decisions. rewrite list_elem_of_omap. split.
  - intros ([listed rule] & Hin & Hd). apply elem_of_map_to_list in Hin.
    destruct (wildcard_match listed service) eqn:E; [|done]. injection Hd as <-. eauto.
  - intros (listed & rule & Hin & Hm & ->). exists (listed, rule).
    split; [by apply elem_of_map_to_list|]. by rewrite Hm.
Qed.

(** What the wildcard rules decide for a service that is not listed itself. *)
Lemma wildcard_decision_spec cs service :
  cs !! service = None →
  (credential_decision cs service = DenyIt ∧
   (∀ listed rule, cs !! listed = Some rule → wildcard_match listed service = false)) ∨
  ((∃ listed rule, cs !! listed = Some rule ∧ wildcard_match listed service = true ∧
      credential_decision cs service = decision rule) ∧
   (∀ listed rule, cs !! listed = Some rule → wildcard_match listed service = true →
      at_least (credential_decision cs service) (decision rule))).
Proof.
  intros Hn. unfold credential_decision. rewrite Hn.
  assert (∀ d, d ∈ wildcard_decisions cs service ↔
    ∃ listed rule, cs !! listed = Some rule ∧ wildcard_match listed service = true ∧
      d = decision rule) as Hel by apply wildcard_decisions_elem.
  destruct (wildcard_decisions cs service) as [|d ds]; cbn [iter_max default].
  - left. split; [done|]. intros listed rule Hl.
    destruct (wildcard_match listed service) eqn:E; [|done].
    assert (decision rule ∈ []) as [] % not_elem_of_nil by (apply Hel; eauto).
  - right. destruct (foldl_max_spec d ds) as [Hin Hall]. split.
    + apply Hel in Hin as (listed & rule & ? & ? & ?). eauto.
    + intros listed rule Hl Hm. apply Hall, Hel. eauto.
Qed.

Lemma decision_mono (a b : CredentialRule) : a ≼ b → at_least (decision a) (decision b).
Proof. destruct a, b; cbv; try done; intros; lia. Qed.

Lemma at_least_deny d : at_least DenyIt d.
Proof. destruct d; cbv; lia. Qed.

(** Narrowing a map of rules key by key, unlisted keys being [Deny], only makes decisions
    more restrictive, wildcards included. *)
Lemma credential_decision_narrows (upper lower : Credentials) service :
  dom upper ⊆ dom lower →
  (∀ k r, lower !! k = Some r → r ≼ default Deny (upper !! k)) →
  at_least (credential_decision lower service) (credential_decision upper service).
Proof.
  intros Hdom Hle. destruct (lower !! service) as [r|] eqn:El.
  - pose proof (Hle _ _ El) as Hr. unfold credential_decision at 1. rewrite El.
    destruct (upper !! service) as [r'|] eqn:Eu; cbn in Hr.
    + unfold credential_decision. rewrite Eu. by apply decision_mono.
    + destruct r; [|done..]. apply at_least_deny.
  - assert (upper !! service = None) as Eu.
    { apply not_elem_of_dom. apply not_elem_of_dom in El. set_solver. }
    destruct (wildcard_decision_spec lower service El) as [[-> _]|[(k & r & Hk & Hm & Hd) Hall]].
    { apply at_least_deny. }
    destruct (wildcard_decision_spec upper service Eu) as [[_ Hno]|[(k' & r' & Hk' & Hm' & ->) _]].
    + rewrite Hd. pose proof (Hle k r Hk) as Hr.
      destruct (upper !! k) as [r'|] eqn:Ek.
      * by rewrite (Hno k r' Ek) in Hm.
      * destruct r; [|done..]. apply at_least_deny.
    + assert (k' ∈ dom lower) as [r2 Hr2]%elem_of_dom by (apply Hdom, elem_of_dom; eauto).
      pose proof (Hle k' r2 Hr2) as Hr. rewrite Hk' in Hr. cbn in Hr.
      pose proof (Hall k' r2 Hr2 Hm'). pose proof (decision_mono _ _ Hr).
      unfold at_least in *. lia.
Qed.

(** ** The merged credentials *)
Definition layer_rules (p : Policy) : Credentials := default ∅ (p_credentials p).
Definition base_rule (d : Credentials) (system : Policy) (svc : string) : CredentialRule :=
  default Deny (match layer_rules system !! svc with Some r => Some r | None => d !! svc end).

Lemma merge_credentials_lookup d system user project svc r :
  merge_credentials d system user project !! svc = Some r ↔
  svc ∈ dom d ∪ dom (layer_rules system) ∪ dom (layer_rules user) ∪ dom (layer_rules project) ∧
  r = narrow (base_rule d system svc) None (layer_rules user !! svc) (layer_rules project !! svc).
Proof.
  unfold merge_credentials. rewrite lookup_set_to_map by (cbn; auto).
  unfold base_rule, layer_rules. naive_solver.
Qed.

Lemma merge_credentials_narrows d system user project user' project' svc :
  layer_rules user' ⊆ layer_rules user → layer_rules project' ⊆ layer_rules project →
  at_least (credential_decision (merge_credentials d system user project) svc)
           (credential_decision (merge_credentials d system user' project') svc).
Proof.
  intros Hu Hp. apply credential_decision_narrows.
  - intros k. rewrite !elem_of_dom. intros [r [Hin ->]%merge_credentials_lookup].
    eexists. apply merge_credentials_lookup. split; [|reflexivity].
    apply subseteq_dom in Hu, Hp. set_solver.
  - intros k r [Hin ->]%merge_credentials_lookup.
    assert (narrow (base_rule d system k) None (layer_rules user !! k) (layer_rules project !! k)
      ≼ narrow (base_rule d system k) None (layer_rules user' !! k) (layer_rules project' !! k))
      as Hle.
    { apply narrow_spec.
      pose proof (proj1 (narrow_spec (base_rule d system k) None (layer_rules user !! k)
                    (layer_rules project !! k) _) (reflexivity _)) as (Hb & Hu' & Hp').
      split_and!; [done|..].
      - intros v Hv. apply Hu'. by eapply lookup_weaken.
      - intros v Hv. apply Hp'. by eapply lookup_weaken. }
    destruct (merge_credentials d system user' project' !! k) as [r'|] eqn:Ek; cbn [default].
    + apply merge_credentials_lookup in Ek as [_ ->]. done.
    + assert (k ∉ dom d ∪ dom (layer_rules system)) as Hk.
      { intros Hk. assert (is_Some (merge_credentials d system user' project' !! k)) as [? ?].
        - eexists. apply merge_credentials_lookup. split; [set_solver|reflexivity].
        - congruence. }
      pose proof (proj1 (narrow_spec (base_rule d system k) None (layer_rules user !! k)
                    (layer_rules project !! k) _) (reflexivity _)) as [Hb _].
      etrans; [exact Hb|]. unfold base_rule. cbn [default].
      apply not_elem_of_union in Hk as [Hd Hs].
      rewrite (not_elem_of_dom_1 _ _ Hs), (not_elem_of_dom_1 _ _ Hd). done.
Qed.

(** ** The merge narrows *)
Section merge_theorems.
Context (digest : HashInput → list byte).
Abbreviation merge_ := (merge_layers digest).
Implicit Types s u p : Policy.

(** [lower] permits at most what [upper] does, capability by capability; the network is
    compared in [Egress]. *)
Definition manifest_le (lower upper : CapabilityManifest) : Prop :=
  m_filesystem lower ≼ m_filesystem upper ∧ m_containers lower ≼ m_containers upper ∧
  m_devices lower ≼ m_devices upper ∧ m_resources lower ≼ m_resources upper ∧
  m_observer lower ≼ m_observer upper ∧
  ∀ service, at_least (credential_decision (m_credentials lower) service)
                      (credential_decision (m_credentials upper) service).

(** C30. A lower layer can narrow a capability but never widen it: the manifest of
    all three layers permits at most what that of the system and user layers does, and
    that at most what the system layer (over the image default) does, for the mounts,
    containers, devices, resource ceilings, oversight and the decision on every
    credential, listed or matched by a wildcard. *)
Theorem merge_never_widens s u p session project :
  manifest_le (merge_ s u p session project) (merge_ s u empty_policy session project) ∧
  manifest_le (merge_ s u empty_policy session project)
              (merge_ s empty_policy empty_policy session project).
Proof.
  unfold manifest_le, merge_layers. cbn [m_filesystem m_containers m_devices m_resources
    m_observer m_credentials set_policy_hash].
  split; (split_and?;
    [first [apply narrow_lower_user | apply narrow_lower_project]..|]); intros service;
    apply merge_credentials_narrows; try done; apply map_empty_subseteq.
Qed.

(** C38. The merge gives up nothing it need not: the filesystem, resources, observer and devices
    of the manifest are the greatest that the system's (or default) value and every layer
    that sets them permit, and a credential rule is kept exactly as far as all layers allow
    it; swapping the two lower layers changes neither the filesystem, the resources nor the
    credentials; and the policy hash is that of the merged manifest. *)
Theorem merge_is_greatest s u p session project :
  let m := merge_ s u p session project in
  let d := default_manifest digest in
  (∀ c, c ≼ m_filesystem m ↔ c ≼ default (m_filesystem d) (p_filesystem s) ∧
     (∀ v, p_filesystem u = Some v → c ≼ v) ∧ (∀ v, p_filesystem p = Some v → c ≼ v)) ∧
  (∀ c, c ≼ m_resources m ↔ c ≼ default (m_resources d) (p_resources s) ∧
     (∀ v, p_resources u = Some v → c ≼ v) ∧ (∀ v, p_resources p = Some v → c ≼ v)) ∧
  (∀ c, c ≼ m_observer m ↔ c ≼ default (m_observer d) (p_observer s) ∧
     (∀ v, p_observer u = Some v → c ≼ v) ∧ (∀ v, p_observer p = Some v → c ≼ v)) ∧
  (∀ c, c ≼ m_devices m ↔ c ≼ default (m_devices d) (p_devices s) ∧
     (∀ v, p_devices u = Some v → c ≼ v) ∧ (∀ v, p_devices p = Some v → c ≼ v)) ∧
  (∀ svc c, c ≼ default Deny (m_credentials m !! svc) ↔
     c ≼ base_rule (m_credentials d) s svc ∧
     (∀ v, layer_rules u !! svc = Some v → c ≼ v) ∧
     (∀ v, layer_rules p !! svc = Some v → c ≼ v)) ∧
  m_policy_hash m = digest (hash_input m) ∧
  m_filesystem m = m_filesystem (merge_ s p u session project) ∧
  m_resources m = m_resources (merge_ s p u session project) ∧
  m_credentials m = m_credentials (merge_ s p u session project).
Proof.
  cbn zeta. unfold merge_layers. cbn [m_filesystem m_containers m_devices m_resources
    m_observer m_credentials m_policy_hash set_policy_hash].
  split_and?; try (intros c; apply narrow_spec); try done; try apply narrow_swap.
  - intros svc c. set (cs := merge_credentials _ _ _ _).
    destruct (cs !! svc) as [r|] eqn:E.
    + apply merge_credentials_lookup in E as [_ ->]. cbn [from_option id]. by rewrite narrow_spec.
    + cbn [from_option id].
      assert (svc ∉ dom (m_credentials (default_manifest digest)) ∪ dom (layer_rules s)
                ∪ dom (layer_rules u) ∪ dom (layer_rules p)) as Hn.
      { intros Hin. assert (is_Some (cs !! svc)) as [? ?]; [|congruence].
        eexists. apply merge_credentials_lookup. done. }
      apply not_elem_of_union in Hn as [[[Hd Hs]%not_elem_of_union Hu]%not_elem_of_union Hp].
      unfold base_rule. rewrite (not_elem_of_dom_1 _ _ Hd), (not_elem_of_dom_1 _ _ Hs),
        (not_elem_of_dom_1 _ _ Hu), (not_elem_of_dom_1 _ _ Hp). cbn. naive_solver.
  - apply map_eq. intros svc. apply option_eq. intros r.
    rewrite !merge_credentials_lookup, narrow_swap. set_solver.
Qed.
End merge_theorems.

(** The decision on a credential request: the exact rule when there is one; otherwise the
    most restrictive wildcard rule that matches; otherwise denied. *)
Theorem credential_decision_spec cs service :
  (∀ rule, cs !! service = Some rule → credential_decision cs service = decision rule) ∧
  (cs !! service = None →
   (credential_decision cs service = DenyIt ∧
    ∀ listed rule, cs !! listed = Some rule → wildcard_match listed service = false) ∨
   ((∃ listed rule, cs !! listed = Some rule ∧ wildcard_match listed service = true ∧
       credential_decision cs service = decision rule) ∧
    ∀ listed rule, cs !! listed = Some rule → wildcard_match listed service = true →
      at_least (credential_decision cs service) (decision rule))) ∧
  (∀ listed, wildcard_match listed service = true ↔
     ∃ pre suf, listed = of_bytes (pre ++ ["*"%char]) ∧ service = of_bytes (pre ++ suf)).
Proof.
  split_and!.
  - intros rule Hr. unfold credential_decision. by rewrite Hr.
  - apply wildcard_decision_spec.
  - intros listed. unfold wildcard_match. split.
    + destruct (strip_suffix _ _) as [pre|] eqn:E; [|done].
      apply strip_suffix_Some in E. intros [suf Hs]%starts_with_spec. exists pre, suf.
      by rewrite <-E, <-Hs, !of_bytes_bytes.
    + intros (pre & suf & -> & ->). rewrite !bytes_of_bytes.
      rewrite (proj2 (strip_suffix_Some _ _ pre)) by done.
      apply starts_with_spec. by exists suf.
Qed.

Module PolicyExample.
Definition rules : Credentials :=
  {[ "cloud-*" := Ask (MkScope ∅ ∅); "cloud-prod-*" := Deny; "github" := Allow (MkScope ∅ ∅) ]}.
End PolicyExample.

Lemma credential_decision_spec_witness :
  credential_decision PolicyExample.rules "github" = AllowIt ∧
  credential_decision PolicyExample.rules "cloud-prod-db" = DenyIt ∧
  at_least (credential_decision PolicyExample.rules "cloud-prod-db") AskIt.
Proof.
  destruct (credential_decision_spec PolicyExample.rules "github") as (H & _).
  destruct (credential_decision_spec PolicyExample.rules "cloud-prod-db") as (_ & H' & _).
  split_and!.
  - apply (H (Allow (MkScope ∅ ∅))). reflexivity.
  - vm_compute. reflexivity.
  - destruct H' as [[Hd _]|[_ Hall]]; [reflexivity| |].
    + rewrite Hd. apply at_least_deny.
    + apply (Hall "cloud-*" (Ask (MkScope ∅ ∅))); reflexivity.
Defined.
