(* ===== verification/Egress.v ===== *)
(** * Egress: where a session may connect ([crates/ward-proxy]: [addr.rs], [policy.rs], and
      the host parser of [http.rs])

    The proxy decides in two stages: may the name be looked up, and is every address it
    resolves to one that may be connected to.  The resolver is the network: any function
    from names to answers.  The theorems say which addresses are ever reached, that one bad
    address denies the request, and how the network meet of [Policy] relates to what is
    admitted here. *)

From stdpp Require Import base numbers option gmap sorting strings list.
From S2P Require Import Prelude Bytes Policy.
Local Open Scope Z_scope.

(** ** Addresses *)
Record Ipv4Addr := MkV4 { o0 : Z; o1 : Z; o2 : Z; o3 : Z }.
#[export] Instance Ipv4Addr_eq_dec : EqDecision Ipv4Addr.
Proof. solve_decision. Defined.
Record Ipv6Addr := MkV6 {
  s0 : Z; s1 : Z; s2 : Z; s3 : Z; s4 : Z; s5 : Z; s6 : Z; s7 : Z }.
#[export] Instance Ipv6Addr_eq_dec : EqDecision Ipv6Addr.
Proof. solve_decision. Defined.
Inductive IpAddr : Type := V4 (v4 : Ipv4Addr) | V6 (v6 : Ipv6Addr).
#[export] Instance IpAddr_eq_dec : EqDecision IpAddr.
Proof. solve_decision. Defined.

(** *** The predicates of [std::net] the classifier uses *)
Definition v4_is_loopback (i : Ipv4Addr) : bool := o0 i =? 127.
Definition v4_is_unspecified (i : Ipv4Addr) : bool := bool_decide (i = MkV4 0 0 0 0).
Definition v4_is_private (i : Ipv4Addr) : bool :=
  (o0 i =? 10)
  || ((o0 i =? 172) && ((16 <=? o1 i) && (o1 i <=? 31)))
  || ((o0 i =? 192) && (o1 i =? 168)).
Definition v4_is_link_local (i : Ipv4Addr) : bool := (o0 i =? 169) && (o1 i =? 254).
Definition v4_is_multicast (i : Ipv4Addr) : bool := (224 <=? o0 i) && (o0 i <=? 239).
Definition v4_is_broadcast (i : Ipv4Addr) : bool := bool_decide (i = MkV4 255 255 255 255).
Definition v4_is_documentation (i : Ipv4Addr) : bool :=
  ((o0 i =? 192) && (o1 i =? 0) && (o2 i =? 2))
  || ((o0 i =? 198) && (o1 i =? 51) && (o2 i =? 100))
  || ((o0 i =? 203) && (o1 i =? 0) && (o2 i =? 113)).
Definition v6_is_loopback (i : Ipv6Addr) : bool := bool_decide (i = MkV6 0 0 0 0 0 0 0 1).
Definition v6_is_unspecified (i : Ipv6Addr) : bool := bool_decide (i = MkV6 0 0 0 0 0 0 0 0).
Definition v6_is_multicast (i : Ipv6Addr) : bool := Z.land (s0 i) 0xff00 =? 0xff00.
Definition is_loopback (ip : IpAddr) : bool :=
  match ip with V4 i => v4_is_loopback i | V6 i => v6_is_loopback i end.

(** [Ipv4Addr::from(u32)] of two segments. *)
Definition v4_of_segments (hi lo : Z) : Ipv4Addr :=
  MkV4 (Z.shiftr hi 8) (Z.land hi 255) (Z.shiftr lo 8) (Z.land lo 255).
Definition to_ipv4_mapped (i : Ipv6Addr) : option Ipv4Addr :=
  if bool_decide ([s0 i; s1 i; s2 i; s3 i; s4 i; s5 i] = [0; 0; 0; 0; 0; 0xffff])
  then Some (v4_of_segments (s6 i) (s7 i)) else None.

(** *** The classifier *)
Inductive AddrClass : Set :=
| CloudMetadata | Loopback | Unspecified | Private | LinkLocal | UniqueLocal | Multicast
| Reserved.
#[export] Instance AddrClass_eq_dec : EqDecision AddrClass.
Proof. solve_decision. Defined.

Definition METADATA_V4 : Ipv4Addr := MkV4 169 254 169 254.
Definition METADATA_V6 : Ipv6Addr := MkV6 0xfd00 0x0ec2 0 0 0 0 0 0x254.

Definition classify_v4 (ip : Ipv4Addr) : option AddrClass :=
  let a := o0 ip in
  let b := o1 ip in
  if bool_decide (ip = METADATA_V4) then Some CloudMetadata
  else if v4_is_loopback ip then Some Loopback
  else if v4_is_unspecified ip then Some Unspecified
  else if v4_is_private ip || ((a =? 100) && ((64 <=? b) && (b <? 128))) then Some Private
  else if v4_is_link_local ip then Some LinkLocal
  else if v4_is_multicast ip then Some Multicast
  else if (a =? 0) || v4_is_broadcast ip || v4_is_documentation ip || (240 <=? a)
          || ((a =? 198) && ((b =? 18) || (b =? 19)))
       then Some Reserved
  else None.

Definition embedded_v4 (ip : Ipv6Addr) : option Ipv4Addr :=
  let front := [s0 ip; s1 ip; s2 ip; s3 ip; s4 ip; s5 ip] in
  match to_ipv4_mapped ip with
  | Some v4 => Some v4
  | None =>
      if bool_decide (front = [0; 0; 0; 0; 0; 0]) then Some (v4_of_segments (s6 ip) (s7 ip))
      else if bool_decide (front = [0x64; 0xff9b; 0; 0; 0; 0])
           then Some (v4_of_segments (s6 ip) (s7 ip))
      else if s0 ip =? 0x2002 then Some (v4_of_segments (s1 ip) (s2 ip))
      else None
  end.

Definition classify_v6 (ip : Ipv6Addr) : option AddrClass :=
  if bool_decide (ip = METADATA_V6) then Some CloudMetadata
  else if v6_is_loopback ip then Some Loopback
  else if v6_is_unspecified ip then Some Unspecified
  else match embedded_v4 ip with
       | Some v4 => classify_v4 v4
       | None =>
           if Z.land (s0 ip) 0xfe00 =? 0xfc00 then Some UniqueLocal
           else if (Z.land (s0 ip) 0xffc0 =? 0xfe80) || (Z.land (s0 ip) 0xffc0 =? 0xfec0)
                then Some LinkLocal
           else if v6_is_multicast ip then Some Multicast
           else if (s0 ip =? 0x2001) && (s1 ip =? 0x0db8) then Some Reserved
           else None
       end.

Definition classify (ip : IpAddr) : option AddrClass :=
  match ip with V4 v4 => classify_v4 v4 | V6 v6 => classify_v6 v6 end.
Definition is_public (ip : IpAddr) : bool := bool_decide (classify ip = None).

(** ** Hosts *)
Inductive Host : Type := Name (n : list byte) | Ip (ip : IpAddr).
Record Target := MkTarget { t_host : Host; t_port : Z }.

Inductive ParseError : Type := TooLarge | HeadTruncated | Malformed (what : string).

Definition MAX_HOST_LEN : Z := 253.
Definition dot : byte := "."%char.

(** [str::parse::<Ipv4Addr>]: four decimal octets of one to three digits, none with a
    superfluous leading zero. *)
Definition parse_octet (l : list byte) : option Z :=
  if bool_decide (l = []) || (3 <? Z.of_nat (length l))
     || negb (forallb is_ascii_digit l)
     || ((1 <? Z.of_nat (length l)) && bool_decide (head l = Some "0"%char))
     || (255 <? dec_value 0 l)
  then None else Some (dec_value 0 l).

Definition parse_v4 (l : list byte) : option Ipv4Addr :=
  match split_on dot l with
  | [a; b; c; d] =>
      a ← parse_octet a; b ← parse_octet b; c ← parse_octet c; d ← parse_octet d;
      Some (MkV4 a b c d)
  | _ => None
  end.

Definition valid_label (l : list byte) : bool :=
  negb (bool_decide (l = [])) && (Z.of_nat (length l) <=? 63)
  && forallb (λ b, is_ascii_alphanumeric b || bool_decide (b = "-"%char)) l
  && negb (bool_decide (head l = Some "-"%char)) && negb (bool_decide (last l = Some "-"%char)).

Definition parse_host (host : list byte) : result ParseError Host :=
  let host := strip_dot host in
  _ ← fail_if (bool_decide (host = []) || (MAX_HOST_LEN <? Z.of_nat (length host)))
        (Malformed "invalid host");
  let last_label_numeric :=
    match last (split_on dot host) with
    | Some l => negb (bool_decide (l = [])) && forallb is_ascii_digit l
    | None => false
    end in
  if last_label_numeric || forallb (λ b, is_ascii_digit b || bool_decide (b = dot)) host
  then ip ← ok_or (parse_v4 host) (Malformed "invalid IPv4 literal"); Ok (Ip (V4 ip))
  else
    _ ← fail_if (negb (forallb valid_label (split_on dot host))) (Malformed "invalid hostname");
    Ok (Name (to_ascii_lowercase <$> host)).

(** ** The policy *)
Inductive Denial : Set :=
| DenyOffline | NotAllowlisted | IpLiteral | Address (c : AddrClass) | NotLoopback
| Unresolvable.

Record Pinned := MkPinned { addrs : list IpAddr; pinned_port : Z }.

(** [allow_loopback] is only settable in test builds. *)
Record EgressPolicy := MkEgress { capability : NetworkCapability; allow_loopback : bool }.
Definition Policy_new (c : NetworkCapability) : EgressPolicy := MkEgress c false.

Definition is_LocalhostOnly (n : NetworkCapability) : bool :=
  match n with LocalhostOnly => true | _ => false end.

Definition permits_loopback (p : EgressPolicy) : bool :=
  allow_loopback p || is_LocalhostOnly (capability p).

Definition allow_if (cond : bool) (otherwise : Denial) : result Denial unit :=
  if cond then Ok tt else Err otherwise.

Definition check_host (p : EgressPolicy) (t : Target) : result Denial unit :=
  match capability p, t_host t with
  | Offline, _ => Err DenyOffline
  | n, Ip ip =>
      if is_loopback ip && permits_loopback p then Ok tt
      else match n with Unrestricted => Ok tt | _ => Err IpLiteral end
  | Unrestricted, Name _ => Ok tt
  | LocalhostOnly, Name n => allow_if (is_localhost_name n) NotAllowlisted
  | Registries, Name n => allow_if (any_matches (bytes <$> REGISTRY_HOSTS) n) NotAllowlisted
  | Development, Name n =>
      allow_if (any_matches (bytes <$> (REGISTRY_HOSTS ++ DEVELOPMENT_HOSTS)) n) NotAllowlisted
  | Custom set, Name n => allow_if (any_matches (bytes <$> elements set) n) NotAllowlisted
  end.

Definition check_addr (p : EgressPolicy) (ip : IpAddr) : result Denial unit :=
  match classify ip with
  | Some c =>
      if bool_decide (c = Loopback) && permits_loopback p then Ok tt else Err (Address c)
  | None => if is_LocalhostOnly (capability p) then Err NotLoopback else Ok tt
  end.

(** What a name resolves to: [None] is an error of the resolver. *)
Definition Resolver : Type := list byte → option (list IpAddr).

Definition pin (resolver : Resolver) (t : Target) : result Denial Pinned :=
  let addrs := match t_host t with
               | Ip ip => [ip]
               | Name name => default [] (resolver name)
               end in
  _ ← fail_if (bool_decide (addrs = [])) Unresolvable;
  Ok (MkPinned addrs (t_port t)).

Fixpoint check_addrs (p : EgressPolicy) (l : list IpAddr) : result Denial unit :=
  match l with
  | [] => Ok tt
  | ip :: l => _ ← check_addr p ip; check_addrs p l
  end.

Definition evaluate (p : EgressPolicy) (resolver : Resolver) (t : Target) : result Denial Pinned :=
  _ ← check_host p t;
  pinned ← pin resolver t;
  _ ← check_addrs p (addrs pinned);
  Ok pinned.

Definition evaluate_gateway (p : EgressPolicy) (resolver : Resolver) (t : Target) :
    result Denial Pinned :=
  match capability p with
  | Offline => Err DenyOffline
  | _ => pin resolver t
  end.

(** ** Host names *)
Abbreviation lower := (fmap (M := list) to_ascii_lowercase).

Lemma lower_app a b : lower (a ++ b) = lower a ++ lower b.
Proof. apply fmap_app. Qed.

(** A wildcard matches the names that end in its suffix after at least one more label's
    worth of bytes. *)
Lemma host_matches_wild suffix host :
  host_matches (bytes "*." ++ suffix) host = true ↔
  ∃ pre rest, strip_dot host = pre ++ dot :: rest ∧ pre ≠ [] ∧ lower rest = lower suffix.
Proof.
  unfold host_matches. rewrite (proj2 (strip_prefix_Some _ _ suffix)) by done.
  generalize (strip_dot host). intros h. split.
  - intros Hm. bool_inv.
    match goal with H : eq_ignore_ascii_case _ _ = true |- _ =>
      apply eq_ignore_ascii_case_spec in H as Heq end.
    match goal with H : (_ <? _)%nat = true |- _ => apply Nat.ltb_lt in H as Hlt end.
    match goal with H : h !! _ = Some _ |- _ => rename H into Hdot end.
    remember (length h - length suffix - 1)%nat as k eqn:Hk.
    assert (drop k h = dot :: drop (S k) h) as Hd by (by apply drop_S).
    replace (length h - length suffix)%nat with (S k) in Heq by lia.
    exists (take k h), (drop (S k) h). split_and!; [by rewrite <-Hd, take_drop| |done].
    intros Ht%(f_equal length). rewrite length_take in Ht. cbn in Ht. lia.
  - intros (pre & rest & Hh & Hpre & Hr). rewrite Hh.
    pose proof (f_equal length Hr) as Hl. rewrite !length_fmap in Hl.
    rewrite length_app. cbn [length]. apply andb_true_iff. split; [apply andb_true_iff; split|].
    + apply Nat.ltb_lt. destruct pre; [done|]. cbn. lia.
    + apply bool_decide_eq_true.
      replace (length pre + S (length rest) - length suffix - 1)%nat with (length pre) by lia.
      by apply list_lookup_middle.
    + apply eq_ignore_ascii_case_spec.
      replace (length pre + S (length rest) - length suffix)%nat with (length (pre ++ [dot]))
        by (rewrite length_app; cbn; lia).
      replace (pre ++ dot :: rest) with ((pre ++ [dot]) ++ rest) by (by rewrite <-(assoc_L app)).
      by rewrite drop_app_length.
Qed.

Lemma host_matches_exact pattern host :
  strip_prefix (bytes "*.") pattern = None →
  host_matches pattern host = true ↔ lower pattern = lower (strip_dot host).
Proof. intros Hp. unfold host_matches. rewrite Hp. apply eq_ignore_ascii_case_spec. Qed.

Lemma any_matches_spec ps host :
  any_matches ps host = true ↔ ∃ p, p ∈ ps ∧ host_matches p host = true.
Proof. apply existsb_Exists. Qed.

(** What a parsed name looks like: lower case, and no dot at either end. *)
Definition clean_name (n : list byte) : Prop :=
  n ≠ [] ∧ lower n = n ∧ head n ≠ Some dot ∧ last n ≠ Some dot.

Lemma split_on_snoc c l : split_on c (l ++ [c]) = split_on c l ++ [[]].
Proof.
  induction l as [|x l IH]; cbn; [by rewrite bool_decide_true|].
  rewrite IH. destruct (split_on_cons c l) as (w & ws & ->). cbn.
  by case_bool_decide.
Qed.

Lemma to_ascii_lowercase_dot b : to_ascii_lowercase b = dot → b = dot.
Proof. destruct b as [[] [] [] [] [] [] [] []]; vm_compute; congruence. Qed.

Lemma parse_host_Name host n : parse_host host = Ok (Name n) → clean_name n.
Proof.
  unfold parse_host. set (h := strip_dot host). intros Hp.
  apply bind_Ok in Hp as (? & Hne & Hp). apply fail_if_Ok in Hne. bool_inv.
  destruct (_ || forallb _ h); [by res_inv|].
  res_inv. bool_inv.
  match goal with H : forallb valid_label _ = true |- _ =>
    rewrite forallb_Forall in H; rename H into Hl end.
  assert (∀ w, w ∈ split_on dot h → w ≠ []) as Hw.
  { intros w Hin. rewrite Forall_forall in Hl. specialize (Hl w Hin).
    unfold valid_label in Hl. by intros ->. }
  split_and!.
  - by intros ?%fmap_nil_inv.
  - apply lowercase_fmap_idem.
  - destruct h as [|x h']; [done|]. cbn. intros [= ->%to_ascii_lowercase_dot].
    assert ([] ∈ split_on dot (dot :: h')) as []%Hw; [|done]. cbn.
    destruct (split_on_cons dot h') as (w & ws & ->). left.
  - intros Hlast. rewrite fmap_last in Hlast. apply fmap_Some in Hlast as (x & Hx & Hd).
    apply last_Some in Hx as [l' Hl']. symmetry in Hd. apply to_ascii_lowercase_dot in Hd as ->.
    assert ([] ∈ split_on dot h) as []%Hw; [|done].
    rewrite Hl', split_on_snoc. set_solver.
Qed.

Lemma clean_strip_dot n : clean_name n → strip_dot n = n.
Proof.
  intros (_ & _ & _ & Hl). unfold strip_dot.
  destruct (strip_suffix _ n) as [m|] eqn:E; [|done].
  apply strip_suffix_Some in E. rewrite E, last_snoc in Hl. done.
Qed.

Lemma lower_last l : last (lower l) = to_ascii_lowercase <$> last l.
Proof. apply fmap_last. Qed.

(** A pattern that spells a clean name has no trailing dot of its own. *)
Lemma clean_pattern_strip_dot pat n : clean_name n → lower pat = lower n → strip_dot pat = pat.
Proof.
  intros (_ & Hn & _ & Hl) Hp. unfold strip_dot.
  destruct (strip_suffix _ pat) as [m|] eqn:E; [|done].
  apply strip_suffix_Some in E. apply (f_equal last) in Hp.
  rewrite Hn, (lower_last pat), E, last_snoc in Hp. by rewrite <-Hp in Hl.
Qed.

Lemma localhost_subdomain pre : pre ≠ [] → host_matches (bytes "*.localhost") (pre ++ bytes ".localhost") = true.
Proof.
  intros Hpre. apply (host_matches_wild (bytes "localhost")). exists pre, (bytes "localhost").
  split_and!; [|done..]. unfold strip_dot.
  destruct (strip_suffix _ _) as [m|] eqn:E; [|done].
  apply strip_suffix_Some, (f_equal last) in E.
  rewrite last_snoc, last_app in E. vm_compute in E. done.
Qed.

(** A pattern the preset covers matches no clean name that the preset does not admit. *)
Definition admits (c : NetworkCapability) (n : list byte) : bool :=
  is_ok (check_host (Policy_new c) (MkTarget (Name n) 0)).

Lemma literal_no_wild h :
  h ∈ REGISTRY_HOSTS ++ DEVELOPMENT_HOSTS → strip_prefix (bytes "*.") (bytes h) = None.
Proof.
  intros Hin. assert (Forall (λ h, strip_prefix (bytes "*.") (bytes h) = None)
                       (REGISTRY_HOSTS ++ DEVELOPMENT_HOSTS)) as Hall.
  { repeat constructor. }
  rewrite Forall_forall in Hall. by apply Hall.
Qed.

Lemma listed_pattern_covered hosts pat n :
  (∀ h, h ∈ hosts → strip_prefix (bytes "*.") (bytes h) = None) →
  clean_name n → "*"%char ∉ pat → any_matches (bytes <$> hosts) pat = true →
  host_matches pat n = true → any_matches (bytes <$> hosts) n = true.
Proof.
  intros Hlit Hn Hstar Hany Hm.
  assert (strip_prefix (bytes "*.") pat = None) as Hp.
  { destruct (strip_prefix _ pat) as [r|] eqn:E; [|done].
    apply strip_prefix_Some in E. rewrite E in Hstar. set_solver. }
  apply host_matches_exact in Hm; [|done]. rewrite (clean_strip_dot n Hn) in Hm.
  apply any_matches_spec in Hany as (q & (h & -> & Hin)%list_elem_of_fmap & Hq).
  apply host_matches_exact in Hq; [|by apply Hlit].
  rewrite (clean_pattern_strip_dot pat n Hn Hm) in Hq.
  apply any_matches_spec. exists (bytes h). split; [by apply list_elem_of_fmap_2|].
  apply host_matches_exact; [by apply Hlit|]. rewrite (clean_strip_dot n Hn). congruence.
Qed.

Lemma localhost_pattern_covered pat n :
  clean_name n → preset_covers LocalhostOnly pat = true → host_matches pat n = true →
  is_localhost_name n = true.
Proof.
  intros Hn Hc Hm. unfold preset_covers in Hc. unfold is_localhost_name.
  pose proof Hn as (Hne & Hlow & Hhd & _).
  assert (∀ pre rest, n = pre ++ dot :: rest → pre ≠ [] →
    lower rest = bytes "localhost" ∨ (∃ x, lower rest = x ++ bytes ".localhost") →
    host_matches (bytes "*.localhost") n = true) as Hsub.
  { intros pre rest Heq Hpre Hr. rewrite Heq, lower_app in Hlow.
    cbn [fmap list_fmap] in Hlow. apply app_inj_1 in Hlow as [_ Hlow]; [|apply length_fmap].
    injection Hlow as Hrest.
    rewrite Hrest in Hr. destruct Hr as [-> | [x ->]]; rewrite Heq.
    - apply (localhost_subdomain pre Hpre).
    - replace (pre ++ dot :: x ++ bytes ".localhost") with ((pre ++ dot :: x) ++ bytes ".localhost")
        by (by rewrite <-(assoc_L app)).
      apply localhost_subdomain. by destruct pre. }
  destruct (strip_prefix (bytes "*.") pat) as [suffix|] eqn:Ep; cbn [from_option id] in Hc.
  - apply strip_prefix_Some in Ep as ->. apply host_matches_wild in Hm as (pre & rest & Heq & Hpre & Hr).
    rewrite (clean_strip_dot n Hn) in Heq. apply orb_true_iff. right.
    apply (Hsub pre rest Heq Hpre). rewrite Hr.
    apply orb_true_iff in Hc as [Hc|Hc]; [left|right].
    + by apply eq_ignore_ascii_case_spec in Hc.
    + apply ends_with_spec in Hc as [x Hx]. eauto.
  - apply host_matches_exact in Hm; [|done]. rewrite (clean_strip_dot n Hn), Hlow in Hm.
    apply orb_true_iff in Hc as [Hc|Hc]; apply orb_true_iff.
    + left. apply host_matches_exact; [done|]. rewrite (clean_strip_dot n Hn), Hlow.
      apply eq_ignore_ascii_case_spec in Hc. rewrite <-Hm, Hc. done.
    + right. apply ends_with_spec in Hc as [x Hx]. rewrite Hm in Hx. rewrite Hx.
      apply localhost_subdomain. intros ->. by rewrite Hx in Hhd.
Qed.

Lemma preset_covers_sound preset pat n :
  clean_name n → preset_covers preset pat = true → host_matches pat n = true →
  admits preset n = true.
Proof.
  intros Hn Hc Hm. unfold admits, check_host, Policy_new. cbn [capability t_host].
  destruct preset; cbn [preset_covers] in Hc; try done.
  - by rewrite (localhost_pattern_covered pat n).
  - bool_inv. rewrite (listed_pattern_covered REGISTRY_HOSTS pat n); try done.
    intros h Hh. apply literal_no_wild. set_solver.
  - bool_inv. rewrite (listed_pattern_covered (REGISTRY_HOSTS ++ DEVELOPMENT_HOSTS) pat n); try done.
    apply literal_no_wild.
Qed.

Lemma admits_custom set n :
  admits (Custom set) n = true ↔ ∃ pat, pat ∈ set ∧ host_matches (bytes pat) n = true.
Proof.
  unfold admits, check_host, Policy_new. cbn [capability t_host].
  destruct (any_matches _ n) eqn:E; cbn.
  - split; [|done]. intros _. apply any_matches_spec in E as (p & (h & -> & Hh)%list_elem_of_fmap & Hm).
    exists h. split; [by apply elem_of_elements|done].
  - split; [done|]. intros (pat & Hin & Hm). assert (any_matches (bytes <$> elements set) n = true).
    + apply any_matches_spec. exists (bytes pat). split; [|done].
      by apply list_elem_of_fmap_2, elem_of_elements.
    + congruence.
Qed.

Lemma custom_meet_preset set preset n :
  clean_name n → admits (Custom (covered_by preset set)) n = true →
  admits (Custom set) n = true ∧ admits preset n = true.
Proof.
  intros Hn (pat & Hin & Hm)%admits_custom. unfold covered_by in Hin.
  apply elem_of_filter in Hin as [Hc Hin]. split.
  - apply admits_custom. eauto.
  - by apply (preset_covers_sound preset (bytes pat)).
Qed.

Lemma admits_development n :
  admits Registries n = true → admits Development n = true.
Proof.
  unfold admits, check_host, Policy_new. cbn [capability t_host].
  destruct (any_matches (bytes <$> REGISTRY_HOSTS) n) eqn:E; [|done]. intros _.
  apply any_matches_spec in E as (p & Hp & Hm).
  assert (any_matches (bytes <$> (REGISTRY_HOSTS ++ DEVELOPMENT_HOSTS)) n = true) as ->; [|done].
  apply any_matches_spec. exists p. split; [|done]. rewrite fmap_app. set_solver.
Qed.

Lemma admits_unrestricted n : admits Unrestricted n = true.
Proof. done. Qed.

(** The loopback names are the whole of what [LocalhostOnly] admits. *)
Lemma admits_localhost n : admits LocalhostOnly n = is_localhost_name n.
Proof. unfold admits, check_host. cbn. by destruct (is_localhost_name n). Qed.

Lemma network_meet_admits a b n :
  clean_name n → admits (meet a b) n = true →
  (admits a n = true ∧ admits b n = true) ∨
  (is_localhost_name n = true ∧ meet a b = LocalhostOnly).
Proof.
  intros Hn. unfold meet, Network_lattice.
  destruct a, b; cbn [net_rank Z.leb Z.compare Pos.compare Pos.compare_cont]; intros Ha;
    first
      [ by left
      | left; split; [done|]; by apply admits_development
      | left; split; [|done]; by apply admits_development
      | rewrite admits_localhost in Ha; by right
      | apply custom_meet_preset in Ha as [? ?]; [|done]; by left
      | idtac ].
  apply admits_custom in Ha as (pat & Hin & Hm). left. rewrite !admits_custom. set_solver.
Qed.

Section network_merge.
Context (digest : HashInput → list byte).

Lemma narrow_admits d (s u p : option NetworkCapability) n :
  clean_name n → is_localhost_name n = false → admits (narrow d s u p) n = true →
  admits (default d s) n = true ∧ (∀ v, u = Some v → admits v n = true) ∧
  (∀ v, p = Some v → admits v n = true).
Proof.
  intros Hn Hl. unfold narrow.
  assert (∀ a b, admits (meet a b) n = true → admits a n = true ∧ admits b n = true) as Hmeet.
  { intros a b Ha. destruct (network_meet_admits a b n Hn Ha) as [?|[? _]]; [done|congruence]. }
  destruct u as [v|], p as [w|]; intros Ha.
  - apply Hmeet in Ha as [[? ?]%Hmeet ?]. naive_solver.
  - apply Hmeet in Ha as [? ?]. naive_solver.
  - apply Hmeet in Ha as [? ?]. naive_solver.
  - naive_solver.
Qed.

(** Narrowing the network only removes hosts: a name the proxy admits
    under the merged manifest is admitted by the system's (or default) capability and by
    every lower layer that sets one, whatever mix of presets and allowlists they are, for
    every name the request parser can produce other than the loopback names.  For those,
    the one exception is a [LocalhostOnly] rung: a meet that is not [LocalhostOnly] admits
    only what both its operands admit, loopback names included. *)
Theorem network_layers_narrow host n s u p session project :
  parse_host host = Ok (Name n) →
  (is_localhost_name n = false →
   admits (m_network (merge_layers digest s u p session project)) n = true →
   admits (default Development (p_network s)) n = true ∧
   (∀ v, p_network u = Some v → admits v n = true) ∧
   (∀ v, p_network p = Some v → admits v n = true)) ∧
  (∀ a b, admits (meet a b) n = true → meet a b ≠ LocalhostOnly →
     admits a n = true ∧ admits b n = true).
Proof.
  intros Hn%parse_host_Name. split.
  - intros Hl Ha. by apply (narrow_admits Development) in Ha.
  - intros a b Ha Hne. destruct (network_meet_admits a b n Hn Ha) as [?|[_ ?]]; done.
Qed.
End network_merge.

Module EgressExample.
Definition digest0 (i : HashInput) : list byte := [].
Definition custom_layer (hosts : gset string) : Policy :=
  MkPolicy None (Some (Custom hosts)) None None None None None.
Definition localhost_layer : Policy := MkPolicy None (Some LocalhostOnly) None None None None None.
Definition loopback : IpAddr := V4 (MkV4 127 0 0 1).
Definition resolver (n : list byte) : option (list IpAddr) :=
  if bool_decide (n = bytes "localhost") then Some [loopback]
  else Some [V4 (MkV4 93 184 216 34); V4 (MkV4 10 0 0 5)].
End EgressExample.
Import EgressExample.

Lemma network_layers_narrow_witness :
  admits (default Development (p_network empty_policy)) (bytes "github.com") = true ∧
  admits (Custom {[ "github.com"; "*.evil.example" ]}) (bytes "github.com") = true.
Proof.
  destruct (network_layers_narrow digest0 (bytes "GitHub.com") (bytes "github.com") empty_policy
              empty_policy (custom_layer {[ "github.com"; "*.evil.example" ]}) "s" "p")
    as [H _]; [vm_compute; reflexivity|].
  destruct H as (Hb & _ & Hp); [vm_compute; reflexivity..|].
  split; [exact Hb|]. apply Hp. reflexivity.
Defined.

(** The exception is real: a project layer that asks for [LocalhostOnly] under the default
    [Development] network makes the session reach loopback, by name and by literal, which
    [Development] alone refuses. *)
Theorem localhost_layer_widens_loopback digest session project port :
  let upper := Policy_new (m_network (merge_layers digest empty_policy empty_policy empty_policy
                                        session project)) in
  let lower := Policy_new (m_network (merge_layers digest empty_policy empty_policy localhost_layer
                                        session project)) in
  ∀ resolver : Resolver, resolver (bytes "localhost") = Some [loopback] →
  evaluate upper resolver (MkTarget (Name (bytes "localhost")) port) = Err NotAllowlisted ∧
  evaluate lower resolver (MkTarget (Name (bytes "localhost")) port)
  = Ok (MkPinned [loopback] port) ∧
  evaluate upper resolver (MkTarget (Ip loopback) port) = Err IpLiteral ∧
  evaluate lower resolver (MkTarget (Ip loopback) port) = Ok (MkPinned [loopback] port).
Proof.
  intros upper lower_ resolver Hr. split_and!; [vm_compute; reflexivity| |vm_compute; reflexivity..].
  change (m_network _) with LocalhostOnly in lower_. subst lower_.
  unfold evaluate, pin. cbn [t_host]. rewrite Hr. vm_compute. reflexivity.
Qed.

Lemma localhost_layer_widens_loopback_witness :
  evaluate (Policy_new (m_network (merge_layers digest0 empty_policy empty_policy localhost_layer
                                     "s" "p")))
    resolver (MkTarget (Name (bytes "localhost")) 22) = Ok (MkPinned [loopback] 22).
Proof.
  destruct (localhost_layer_widens_loopback digest0 "s" "p" 22 resolver) as (_ & H & _);
    [reflexivity|]. exact H.
Defined.

(** ** Which addresses are public *)
Definition v4_wf (i : Ipv4Addr) : Prop :=
  in_u8 (o0 i) ∧ in_u8 (o1 i) ∧ in_u8 (o2 i) ∧ in_u8 (o3 i).
Definition number (i : Ipv4Addr) : Z := ((o0 i * 256 + o1 i) * 256 + o2 i) * 256 + o3 i.
Definition in_cidr (ip : Ipv4Addr) (block : Ipv4Addr * Z) : Prop :=
  number block.1 ≤ number ip < number block.1 + 2 ^ (32 - block.2).

(** The blocks of [AddrClass]'s documentation, in CIDR notation. *)
Definition denied_v4 : list (Ipv4Addr * Z) :=
  [(MkV4 0 0 0 0, 8); (MkV4 10 0 0 0, 8); (MkV4 100 64 0 0, 10); (MkV4 127 0 0 0, 8);
   (MkV4 169 254 0 0, 16); (MkV4 172 16 0 0, 12); (MkV4 192 0 2 0, 24); (MkV4 192 168 0 0, 16);
   (MkV4 198 18 0 0, 15); (MkV4 198 51 100 0, 24); (MkV4 203 0 113 0, 24); (MkV4 224 0 0 0, 4);
   (MkV4 240 0 0 0, 4)].

(** [cidr] decides that a test on octets is membership in blocks. *)
Ltac cidr_goal :=
  unfold v4_is_loopback, v4_is_private, v4_is_link_local, v4_is_multicast, v4_is_documentation,
    in_cidr, number;
  cbn [fst snd o0 o1 o2 o3];
  change (2 ^ (32 - 8)) with 16777216; change (2 ^ (32 - 10)) with 4194304;
  change (2 ^ (32 - 16)) with 65536; change (2 ^ (32 - 12)) with 1048576;
  change (2 ^ (32 - 24)) with 256; change (2 ^ (32 - 15)) with 131072;
  change (2 ^ (32 - 4)) with 268435456.
Ltac cidr :=
  cidr_goal;
  repeat first [rewrite orb_false_iff | rewrite andb_false_iff | rewrite Z.eqb_neq
               | rewrite Z.leb_gt | rewrite Z.ltb_ge | rewrite orb_false_iff];
  lia.

Lemma if_Some_None {A} (b : bool) (x : A) (o : option A) :
  (if b then Some x else o) = None ↔ b = false ∧ o = None.
Proof. destruct b; naive_solver. Qed.

Lemma classify_v4_None ip :
  classify_v4 ip = None ↔
  ip ≠ METADATA_V4 ∧ v4_is_loopback ip = false ∧ v4_is_unspecified ip = false ∧
  v4_is_private ip = false ∧ (o0 ip =? 100) && ((64 <=? o1 ip) && (o1 ip <? 128)) = false ∧
  v4_is_link_local ip = false ∧ v4_is_multicast ip = false ∧ (o0 ip =? 0) = false ∧
  v4_is_broadcast ip = false ∧ v4_is_documentation ip = false ∧ (240 <=? o0 ip) = false ∧
  (o0 ip =? 198) && ((o1 ip =? 18) || (o1 ip =? 19)) = false.
Proof.
  unfold classify_v4. cbn zeta.
  rewrite !if_Some_None, !orb_false_iff, (bool_decide_eq_false (ip = METADATA_V4)). tauto.
Qed.

Lemma classify_v4_public ip :
  v4_wf ip → classify_v4 ip = None ↔ Forall (λ block, ¬ in_cidr ip block) denied_v4.
Proof.
  intros Hwf. rewrite classify_v4_None. destruct ip as [a b c d].
  unfold v4_wf, in_u8, u8_max in Hwf. cbn [o0 o1 o2 o3] in *.
  set (ip := MkV4 a b c d).
  assert (v4_is_loopback ip = false ↔ ¬ in_cidr ip (MkV4 127 0 0 0, 8)) as -> by (subst ip; cidr).
  assert (v4_is_private ip = false ↔ ¬ in_cidr ip (MkV4 10 0 0 0, 8) ∧
    ¬ in_cidr ip (MkV4 172 16 0 0, 12) ∧ ¬ in_cidr ip (MkV4 192 168 0 0, 16)) as ->
    by (subst ip; cidr).
  assert ((a =? 100) && ((64 <=? b) && (b <? 128)) = false ↔
    ¬ in_cidr ip (MkV4 100 64 0 0, 10)) as -> by (subst ip; cidr).
  assert (v4_is_link_local ip = false ↔ ¬ in_cidr ip (MkV4 169 254 0 0, 16)) as ->
    by (subst ip; cidr).
  assert (v4_is_multicast ip = false ↔ ¬ in_cidr ip (MkV4 224 0 0 0, 4)) as ->
    by (subst ip; cidr).
  assert ((a =? 0) = false ↔ ¬ in_cidr ip (MkV4 0 0 0 0, 8)) as -> by (subst ip; cidr).
  assert (v4_is_documentation ip = false ↔ ¬ in_cidr ip (MkV4 192 0 2 0, 24) ∧
    ¬ in_cidr ip (MkV4 198 51 100 0, 24) ∧ ¬ in_cidr ip (MkV4 203 0 113 0, 24)) as ->
    by (subst ip; cidr).
  assert ((240 <=? a) = false ↔ ¬ in_cidr ip (MkV4 240 0 0 0, 4)) as -> by (subst ip; cidr).
  assert ((a =? 198) && ((b =? 18) || (b =? 19)) = false ↔
    ¬ in_cidr ip (MkV4 198 18 0 0, 15)) as -> by (subst ip; cidr).
  assert (ip = METADATA_V4 → in_cidr ip (MkV4 169 254 0 0, 16)) as Hmeta
    by (intros ->; unfold METADATA_V4; cidr_goal; lia).
  assert (v4_is_unspecified ip = true → in_cidr ip (MkV4 0 0 0 0, 8)) as Hunspec
    by (intros ->%bool_decide_eq_true; cidr_goal; lia).
  assert (v4_is_broadcast ip = true → in_cidr ip (MkV4 240 0 0 0, 4)) as Hbroad
    by (intros ->%bool_decide_eq_true; cidr_goal; lia).
  rewrite <-!not_true_iff_false. unfold denied_v4. rewrite !Forall_cons, Forall_nil. tauto.
Qed.

(** *** IPv6 *)
Definition v6_wf (i : Ipv6Addr) : Prop :=
  in_u16 (s0 i) ∧ in_u16 (s1 i) ∧ in_u16 (s2 i) ∧ in_u16 (s3 i) ∧ in_u16 (s4 i) ∧ in_u16 (s5 i) ∧
  in_u16 (s6 i) ∧ in_u16 (s7 i).

(** A mask of the high bits of a segment keeps the multiple of [2^k] below it. *)
Lemma land_high z k m :
  0 ≤ k → m = Z.ldiff (Z.ones 16) (Z.ones k) → in_u16 z → Z.land z m = z / 2 ^ k * 2 ^ k.
Proof.
  intros Hk -> Hz. unfold in_u16, u16_max in Hz.
  rewrite Z.ldiff_land, Z.land_assoc, Z.land_ones, Z.mod_small by lia.
  by rewrite <-Z.ldiff_land, Z.ldiff_ones_r, Z.shiftl_mul_pow2, Z.shiftr_div_pow2 by lia.
Qed.

(** So the masks on the first segment test intervals. *)
Lemma segment_masks z : in_u16 z →
  (Z.land z 0xfe00 = 0xfc00 ↔ 0xfc00 ≤ z ≤ 0xfdff) ∧
  (Z.land z 0xffc0 = 0xfe80 ↔ 0xfe80 ≤ z ≤ 0xfebf) ∧
  (Z.land z 0xffc0 = 0xfec0 ↔ 0xfec0 ≤ z ≤ 0xfeff) ∧
  (Z.land z 0xff00 = 0xff00 ↔ 0xff00 ≤ z ≤ 0xffff).
Proof.
  intros Hz. rewrite (land_high z 9 0xfe00), (land_high z 6 0xffc0), (land_high z 8 0xff00) by done.
  change (2 ^ 9) with 512. change (2 ^ 6) with 64. change (2 ^ 8) with 256.
  pose proof (Z.div_mod z 512 ltac:(lia)). pose proof (Z.mod_pos_bound z 512 ltac:(lia)).
  pose proof (Z.div_mod z 64 ltac:(lia)). pose proof (Z.mod_pos_bound z 64 ltac:(lia)).
  pose proof (Z.div_mod z 256 ltac:(lia)). pose proof (Z.mod_pos_bound z 256 ltac:(lia)).
  split_and!; lia.
Qed.

Lemma v4_of_segments_wf hi lo : in_u16 hi → in_u16 lo → v4_wf (v4_of_segments hi lo).
Proof.
  unfold in_u16, u16_max, v4_wf, in_u8, u8_max, v4_of_segments. cbn. intros Hh Hl.
  rewrite !Z.shiftr_div_pow2 by lia. change 255 with (Z.ones 8). rewrite !Z.land_ones by lia.
  change (2 ^ 8) with 256. change (Z.ones 8) with 255.
  pose proof (Z.mod_pos_bound hi 256 ltac:(lia)). pose proof (Z.mod_pos_bound lo 256 ltac:(lia)).
  assert (0 ≤ hi / 256 < 256) by (split; [apply Z.div_pos|apply Z.div_lt_upper_bound]; lia).
  assert (0 ≤ lo / 256 < 256) by (split; [apply Z.div_pos|apply Z.div_lt_upper_bound]; lia).
  lia.
Qed.

Lemma embedded_v4_wf ip v4 : v6_wf ip → embedded_v4 ip = Some v4 → v4_wf v4.
Proof.
  intros (H0 & H1 & H2 & H3 & H4 & H5 & H6 & H7). unfold embedded_v4, to_ipv4_mapped.
  repeat case_match; intros [= <-]; simplify_eq; by apply v4_of_segments_wf.
Qed.

(** The classifier names a public address exactly when the address is in none
    of the documented blocks: for IPv4 the thirteen CIDR blocks of [denied_v4] (private,
    carrier-grade NAT, link-local with the metadata endpoint, documentation, benchmark,
    multicast and reserved space); for IPv6, when an embedded IPv4 address is itself public,
    or there is none and the prefix is not unique-local, link-local, site-local, multicast
    or documentation, so nothing private is smuggled inside a transition address. *)
Theorem classify_public_spec :
  (∀ ip, v4_wf ip →
     classify_v4 ip = None ↔ Forall (λ block, ¬ in_cidr ip block) denied_v4) ∧
  (∀ ip, v6_wf ip → classify_v6 ip = None →
     ip ≠ METADATA_V6 ∧ ip ≠ MkV6 0 0 0 0 0 0 0 1 ∧ ip ≠ MkV6 0 0 0 0 0 0 0 0 ∧
     match embedded_v4 ip with
     | Some v4 => Forall (λ block, ¬ in_cidr v4 block) denied_v4
     | None => s0 ip < 0xfc00 ∨ 0xfdff < s0 ip < 0xfe80
     end) ∧
  (∀ ip, v6_wf ip → embedded_v4 ip = None → classify_v6 ip = None ↔
     (s0 ip < 0xfc00 ∨ 0xfdff < s0 ip < 0xfe80) ∧ ¬ (s0 ip = 0x2001 ∧ s1 ip = 0x0db8)).
Proof.
  assert (∀ ip, v6_wf ip → embedded_v4 ip = None → classify_v6 ip = None ↔
     (s0 ip < 0xfc00 ∨ 0xfdff < s0 ip < 0xfe80) ∧ ¬ (s0 ip = 0x2001 ∧ s1 ip = 0x0db8)) as H6.
  { intros ip Hwf He. unfold classify_v6. rewrite He, !if_Some_None. pose proof Hwf as (H0 & _).
    pose proof (segment_masks _ H0) as (Hm1 & Hm2 & Hm3 & Hm4).
    unfold v6_is_multicast, v6_is_loopback, v6_is_unspecified.
    rewrite orb_false_iff, andb_false_iff, !Z.eqb_neq, !bool_decide_eq_false, Hm1, Hm2, Hm3, Hm4.
    unfold in_u16, u16_max in H0. split.
    - intros (_ & _ & _ & ? & [? ?] & ? & ? & _). split; lia.
    - intros [Hs Hd]. split_and!; first [lia | done | intros ->; cbn in *; first [lia | done]]. }
  split_and!; [apply classify_v4_public| |done].
  intros ip Hwf Hc. pose proof Hc as Hcopy. unfold classify_v6 in Hc.
  apply if_Some_None in Hc as [Hm Hc]. apply if_Some_None in Hc as [Hl Hc].
  apply if_Some_None in Hc as [Hu Hc]. unfold v6_is_loopback, v6_is_unspecified in *. bool_inv.
  split_and!; [done..|]. destruct (embedded_v4 ip) as [v4|] eqn:He.
  - apply classify_v4_public; [by eapply embedded_v4_wf|done].
  - by apply H6.
Qed.

Lemma classify_public_spec_witness :
  classify_v4 (MkV4 100 64 0 1) ≠ None ∧
  classify_v6 (MkV6 0x64 0xff9b 0 0 0 0 0x0a00 0x0001) ≠ None ∧
  classify_v6 (MkV6 0x2606 0x4700 0 0 0 0 0 0x1111) = None.
Proof.
  destruct classify_public_spec as (H4 & H6 & H6').
  split_and!.
  - rewrite H4 by (by vm_compute). intros Hall. rewrite Forall_forall in Hall.
    apply (Hall (MkV4 100 64 0 0, 10)); [set_solver|]. by vm_compute.
  - intros Hc. apply H6 in Hc as (_ & _ & _ & Hall); [|by vm_compute].
    change (Forall (λ block, ¬ in_cidr (MkV4 10 0 0 1) block) denied_v4) in Hall.
    rewrite Forall_forall in Hall. apply (Hall (MkV4 10 0 0 0, 8)); [set_solver|]. by vm_compute.
  - apply H6'; [by vm_compute|reflexivity|]. cbn. lia.
Defined.

(** ** Evaluation *)
Lemma check_addrs_Ok p l u : check_addrs p l = Ok u ↔ Forall (λ ip, check_addr p ip = Ok tt) l.
Proof.
  induction l as [|ip l IH]; cbn; [destruct u; split; auto|].
  rewrite bind_Ok, Forall_cons, <-IH. split.
  - intros ([] & ? & ?). done.
  - intros [? ?]. by exists tt.
Qed.

Definition answer (resolver : Resolver) (t : Target) : list IpAddr :=
  match t_host t with Ip ip => [ip] | Name name => default [] (resolver name) end.

Lemma evaluate_Ok p resolver t pinned :
  evaluate p resolver t = Ok pinned ↔
  check_host p t = Ok tt ∧ answer resolver t ≠ [] ∧
  Forall (λ ip, check_addr p ip = Ok tt) (answer resolver t) ∧
  pinned = MkPinned (answer resolver t) (t_port t).
Proof.
  unfold evaluate, pin. fold (answer resolver t). split.
  - intros He. res_inv. bool_inv. cbn [addrs] in *.
    match goal with H : check_addrs _ _ = Ok _ |- _ => apply check_addrs_Ok in H end. done.
  - intros (-> & Hne & Hall & ->). rewrite bind_Ok_l, bool_decide_false by done.
    cbn [fail_if]. rewrite !bind_Ok_l. cbn [addrs].
    by rewrite (proj2 (check_addrs_Ok p _ tt) Hall).
Qed.

Lemma check_addr_new c ip :
  check_addr (Policy_new c) ip = Ok tt ↔
  if is_LocalhostOnly c then classify ip = Some Loopback else classify ip = None.
Proof.
  unfold check_addr, Policy_new, permits_loopback. cbn [capability allow_loopback orb].
  destruct (classify ip) as [k|], (is_LocalhostOnly c); cbn; try naive_solver.
  - rewrite andb_true_r. case_bool_decide; naive_solver.
  - rewrite andb_false_r. naive_solver.
Qed.

(** C31. Whatever the resolver answers, a session connects only to what its
    capability reaches: outside [LocalhostOnly] every pinned address is public, under
    [LocalhostOnly] every one is loopback, offline there is none; the pinned addresses are
    the complete answer that was checked, so nothing is looked up again between the check
    and the connection, and one address that fails denies the whole request. *)
Theorem evaluate_reaches_only c resolver t pinned :
  (evaluate (Policy_new c) resolver t = Ok pinned →
     c ≠ Offline ∧ addrs pinned = answer resolver t ∧ addrs pinned ≠ [] ∧
     pinned_port pinned = t_port t ∧
     Forall (λ ip, if is_LocalhostOnly c then classify ip = Some Loopback else is_public ip = true)
       (addrs pinned) ∧
     match t_host t with
     | Name n => admits c n = true
     | Ip ip => c = Unrestricted ∨ (c = LocalhostOnly ∧ is_loopback ip = true)
     end) ∧
  (∀ ip, ip ∈ answer resolver t → is_public ip = false → c ≠ LocalhostOnly →
     is_ok (evaluate (Policy_new c) resolver t) = false) ∧
  evaluate_gateway (Policy_new Offline) resolver t = Err DenyOffline.
Proof.
  split_and!; [| |done].
  - rewrite evaluate_Ok. intros (Hh & Hne & Hall & ->). cbn [addrs pinned_port].
    split_and!; try done.
    + intros ->. done.
    + eapply Forall_impl; [exact Hall|]. intros ip Hip%check_addr_new. unfold is_public.
      destruct (is_LocalhostOnly c); [done|]. by apply bool_decide_eq_true.
    + unfold admits. unfold check_host, Policy_new, permits_loopback in *.
      cbn [capability allow_loopback t_host orb] in *.
      destruct (t_host t) as [n|ip]; [by destruct c; rewrite ?Hh|].
      destruct c; cbn [is_LocalhostOnly] in Hh; rewrite ?andb_false_r in Hh; try done; [|by left].
      right. split; [done|]. by destruct (is_loopback ip).
  - intros ip Hip Hpub Hc. destruct (evaluate _ _ _) as [pin'|] eqn:He; [|done].
    apply evaluate_Ok in He as (_ & _ & Hall & _). rewrite Forall_forall in Hall.
    specialize (Hall ip Hip). apply check_addr_new in Hall. unfold is_public in Hpub.
    apply bool_decide_eq_false in Hpub. by destruct c.
Qed.

Lemma evaluate_reaches_only_witness :
  is_ok (evaluate (Policy_new Unrestricted) resolver (MkTarget (Name (bytes "rebind.evil")) 80))
  = false ∧
  (∃ pinned, evaluate (Policy_new LocalhostOnly) resolver (MkTarget (Ip loopback) 80) = Ok pinned ∧
     Forall (λ ip, classify ip = Some Loopback) (addrs pinned)).
Proof.
  split.
  - destruct (evaluate_reaches_only Unrestricted resolver (MkTarget (Name (bytes "rebind.evil")) 80)
                (MkPinned [] 0)) as (_ & H & _).
    apply (H (V4 (MkV4 10 0 0 5))); [vm_compute; set_solver|reflexivity|discriminate].
  - exists (MkPinned [loopback] 80). split; [reflexivity|].
    destruct (evaluate_reaches_only LocalhostOnly resolver (MkTarget (Ip loopback) 80)
                (MkPinned [loopback] 80)) as (H & _).
    destruct H as (_ & _ & _ & _ & Hall & _); [reflexivity|]. exact Hall.
Defined.
