(* ===== verification/Http.v ===== *)
(** * Http: request heads and chunked bodies ([crates/ward-proxy/src/http.rs])

    The proxy reads one request per connection from the sandbox: a head of bounded size,
    split at CRLF, whose request line alone selects the destination, and a body whose end it
    finds by [Content-Length] or by following the chunks.  The theorems say what a head is
    however the bytes arrive, that the head sent on holds exactly the lines it should, and
    that the chunk tracker recognises exactly the chunked bodies. *)

From stdpp Require Import base numbers option gmap sorting strings list.
From S2P Require Import Prelude Bytes Policy Egress.
Local Open Scope Z_scope.

(** ** Text ([core::str]) *)
Definition CR : byte := chr 13.
Definition LF : byte := chr 10.
Definition SP : byte := chr 32.
Definition HTAB : byte := chr 9.
Definition crlf : list byte := [CR; LF].

(** [str::split(CRLF)] *)
Fixpoint split_crlf (l : list byte) : list (list byte) :=
  match l with
  | [] => [[]]
  | a :: t =>
      match t with
      | b :: r =>
          if bool_decide (a = CR) && bool_decide (b = LF) then [] :: split_crlf r
          else match split_crlf t with
               | [] => [[a]]
               | w :: ws => (a :: w) :: ws
               end
      | [] => [[a]]
      end
  end.

(** [haystack.windows(needle.len()).position(|w| w == needle)] for a needle that is not
    empty. *)
Fixpoint find_at (needle l : list byte) : option nat :=
  if starts_with needle l then Some O
  else match l with [] => None | _ :: l => S <$> find_at needle l end.

(** [str::split_once] on a string. *)
Definition split_once_str (needle l : list byte) : option (list byte * list byte) :=
  i ← find_at needle l; Some (take i l, drop (i + length needle) l).

(** [str::rsplit_once(c)] *)
Definition rsplit_once (c : byte) (l : list byte) : option (list byte * list byte) :=
  '(a, b) ← split_once c (reverse l); Some (reverse b, reverse a).

Fixpoint trim_start {A} (p : A → bool) (l : list A) : list A :=
  match l with
  | [] => []
  | x :: l' => if p x then trim_start p l' else l
  end.
Definition trim_end {A} (p : A → bool) (l : list A) : list A := reverse (trim_start p (reverse l)).
Definition trim_matches {A} (p : A → bool) (l : list A) : list A := trim_end p (trim_start p l).

(** [char::is_whitespace] on the ASCII characters. *)
Definition is_ascii_space (b : byte) : bool := in_range 9 13 b || bool_decide (b = SP).

(** ** Internet addresses as text ([core::net])

    The parser of an address reads from the front of its input and returns the rest. *)
Definition to_digit (radix : Z) (b : byte) : option Z :=
  let d := if is_ascii_digit b then code b - 48
           else if is_ascii_lowercase b then code b - 87
           else if is_ascii_uppercase b then code b - 55
           else radix in
  if d <? radix then Some d else None.

Fixpoint read_digits (radix : Z) (l : list byte) : list Z * list byte :=
  match l with
  | [] => ([], [])
  | c :: r =>
      match to_digit radix c with
      | Some d => let '(ds, rest) := read_digits radix r in (d :: ds, rest)
      | None => ([], l)
      end
  end.
Definition digits_value (radix : Z) (ds : list Z) : Z := foldl (λ v d, v * radix + d) 0 ds.

Definition read_number (radix : Z) (max_digits : nat) (allow_zero_prefix : bool) (max : Z)
    (l : list byte) : option (Z * list byte) :=
  let '(ds, rest) := read_digits radix l in
  if bool_decide (ds = []) || bool_decide (max_digits < length ds)%nat
     || (negb allow_zero_prefix && bool_decide (head ds = Some 0) && bool_decide (1 < length ds)%nat)
     || (max <? digits_value radix ds)
  then None else Some (digits_value radix ds, rest).

Definition read_given_char (c : byte) (l : list byte) : option (list byte) := strip_prefix [c] l.
Definition read_separator {A} (sep : byte) (index : nat) (inner : list byte → option (A * list byte))
    (l : list byte) : option (A * list byte) :=
  match index with
  | O => inner l
  | S _ => l ← read_given_char sep l; inner l
  end.

Definition read_ipv4_addr (l : list byte) : option (Ipv4Addr * list byte) :=
  let octet i l := read_separator "."%char i (read_number 10 3 false 255) l in
  '(a, l) ← octet 0%nat l; '(b, l) ← octet 1%nat l; '(c, l) ← octet 2%nat l; '(d, l) ← octet 3%nat l;
  Some (MkV4 a b c d, l).

(** The groups read, whether they end in an embedded IPv4 address, and what is left. *)
Fixpoint read_groups (room : nat) (i : nat) (l : list byte) : list Z * bool * list byte :=
  match room with
  | O => ([], false, l)
  | S room =>
      let embedded :=
        match room with
        | O => None
        | S _ => read_separator ":"%char i read_ipv4_addr l
        end in
      match embedded with
      | Some (v4, rest) => ([o0 v4 * 256 + o1 v4; o2 v4 * 256 + o3 v4], true, rest)
      | None =>
          match read_separator ":"%char i (read_number 16 4 true 65535) l with
          | Some (g, rest) =>
              let '(gs, ipv4, rest) := read_groups room (S i) rest in (g :: gs, ipv4, rest)
          | None => ([], false, l)
          end
      end
  end.

Definition v6_of (l : list Z) : Ipv6Addr :=
  MkV6 (nth 0 l 0) (nth 1 l 0) (nth 2 l 0) (nth 3 l 0) (nth 4 l 0) (nth 5 l 0) (nth 6 l 0) (nth 7 l 0).
Definition segments (i : Ipv6Addr) : list Z := [s0 i; s1 i; s2 i; s3 i; s4 i; s5 i; s6 i; s7 i].

Definition read_ipv6_addr (l : list byte) : option (Ipv6Addr * list byte) :=
  let '(front, ipv4, l) := read_groups 8 0 l in
  if bool_decide (length front = 8%nat) then Some (v6_of front, l)
  else if ipv4 then None
  else
    l ← read_given_char ":"%char l;
    l ← read_given_char ":"%char l;
    let '(back, _, l) := read_groups (8 - (length front + 1)) 0 l in
    Some (v6_of (front ++ replicate (8 - length front - length back) 0 ++ back), l).
Definition parse_v6 (l : list byte) : option Ipv6Addr :=
  match read_ipv6_addr l with Some (ip, []) => Some ip | _ => None end.

(** [Display] of the addresses. *)
Definition display_v4 (i : Ipv4Addr) : list byte :=
  dec_display (o0 i) ++ [dot] ++ dec_display (o1 i) ++ [dot] ++ dec_display (o2 i) ++ [dot]
  ++ dec_display (o3 i).

Definition hex_digit (d : Z) : byte := if d <? 10 then chr (48 + d) else chr (87 + d).
Fixpoint hex_go (fuel : nat) (n : Z) (acc : list byte) : list byte :=
  match fuel with
  | O => acc
  | S fuel =>
      let acc := hex_digit (n mod 16) :: acc in
      if n / 16 =? 0 then acc else hex_go fuel (n / 16) acc
  end.
Definition hex_display (n : Z) : list byte := hex_go 4 n [].

(** The longest run of zero segments, the first of them if there are several: the current
    run and the longest one as (start, length). *)
Fixpoint zero_run (i : nat) (current longest : nat * nat) (l : list Z) : nat * nat :=
  match l with
  | [] => longest
  | s :: l =>
      if s =? 0 then
        let current := ((if bool_decide (current.2 = O) then i else current.1), S current.2) in
        zero_run (S i) current (if bool_decide (longest.2 < current.2)%nat then current else longest) l
      else zero_run (S i) (O, O) longest l
  end.
Definition fmt_subslice (l : list Z) : list byte := join_with ":"%char (hex_display <$> l).
Definition display_v6 (i : Ipv6Addr) : list byte :=
  match to_ipv4_mapped i with
  | Some v4 => bytes "::ffff:" ++ display_v4 v4
  | None =>
      let '(start, len) := zero_run 0 (O, O) (O, O) (segments i) in
      if bool_decide (1 < len)%nat
      then fmt_subslice (take start (segments i)) ++ bytes "::"
           ++ fmt_subslice (drop (start + len) (segments i))
      else fmt_subslice (segments i)
  end.

Definition display_host (h : Host) : list byte :=
  match h with
  | Name n => n
  | Ip (V4 ip) => display_v4 ip
  | Ip (V6 ip) => bytes "[" ++ display_v6 ip ++ bytes "]"
  end.
Definition display_target (t : Target) : list byte :=
  display_host (t_host t) ++ bytes ":" ++ dec_display (t_port t).

(** ** Reading a head *)
Definition MAX_HEAD_BYTES : Z := 8 * 1024.
Definition MAX_HEADERS : Z := 100.
Definition terminator : list byte := crlf ++ crlf.
Definition find_terminator (buf : list byte) : option nat := find_at terminator buf.

Record Head := MkHeadBytes { hd_bytes : list byte; hd_remainder : list byte }.

(** A reader is what its successive [read]s into the buffer return: an error, or the bytes
    read, none at the end of the stream. *)
Abbreviation reads IoErr := (list (result IoErr (list byte))).

Fixpoint read_head_from {IoErr} (buf : list byte) (r : reads IoErr) :
    result IoErr (result ParseError Head) * reads IoErr :=
  match r with
  | [] => (Ok (Err HeadTruncated), [])
  | Err e :: r => (Err e, r)
  | Ok chunk :: r =>
      if bool_decide (chunk = []) then (Ok (Err HeadTruncated), r)
      else
        let scan_from := (length buf - 3)%nat in
        let buf := buf ++ chunk in
        match (λ i, i + scan_from)%nat <$> find_terminator (drop scan_from buf) with
        | Some e =>
            if MAX_HEAD_BYTES <? Z.of_nat e then (Ok (Err TooLarge), r)
            else (Ok (Ok (MkHeadBytes (take e buf) (drop (e + 4) buf))), r)
        | None =>
            if MAX_HEAD_BYTES <? Z.of_nat (length buf) then (Ok (Err TooLarge), r)
            else read_head_from buf r
        end
  end.
Definition read_head {IoErr} (r : reads IoErr) : result IoErr (result ParseError Head) * reads IoErr :=
  read_head_from [] r.

(** ** Parsing a head *)
Inductive Method : Type := Connect | Forward (verb path : list byte).
Record HttpRequest := MkRequest { rq_method : Method; rq_target : Target }.
Record Header := MkHeader { h_name : list byte; h_value : list byte }.
Record Parsed := MkParsed {
  p_request : HttpRequest;
  p_version : list byte;
  p_headers : list Header;
  p_origin_form : bool;
}.

Definition is_token_byte (b : byte) : bool :=
  is_ascii_alphanumeric b || bool_decide (b ∈ bytes "!#$%&'*+-.^_`|~").
Definition is_token (s : list byte) : bool := negb (bool_decide (s = [])) && forallb is_token_byte s.

Definition is_blank (b : byte) : bool := bool_decide (b = SP) || bool_decide (b = HTAB).
Definition is_control (b : byte) : bool :=
  ((code b <? 0x20) && negb (bool_decide (b = HTAB))) || (code b =? 0x7f).

(** The body of the loop of [parse_headers]. *)
Definition parse_header_line (line : list byte) : result ParseError Header :=
  _ ← fail_if (bool_decide (LF ∈ line)) (Malformed "bare LF in headers");
  _ ← fail_if (match line with b :: _ => is_blank b | [] => false end) (Malformed "obsolete line folding");
  '(name, value) ← ok_or (split_once ":"%char line) (Malformed "header without colon");
  _ ← fail_if (bool_decide (name = []) || negb (forallb is_token_byte name)) (Malformed "invalid header name");
  let value := trim_matches is_blank value in
  _ ← fail_if (existsb is_control value) (Malformed "control byte in header value");
  Ok (MkHeader name value).
Fixpoint parse_headers_from (headers : list Header) (lines : list (list byte)) :
    result ParseError (list Header) :=
  match lines with
  | [] => Ok headers
  | line :: lines =>
      h ← parse_header_line line;
      let headers := headers ++ [h] in
      _ ← fail_if (MAX_HEADERS <? Z.of_nat (length headers)) (Malformed "too many headers");
      parse_headers_from headers lines
  end.
Definition parse_headers (lines : list (list byte)) : result ParseError (list Header) :=
  parse_headers_from [] lines.

Definition parse_authority (authority : list byte) (default_port : option Z) : result ParseError Target :=
  let bracket := strip_prefix (bytes "[") authority in
  '(host_part, port_part) ←
    match bracket with
    | Some rest =>
        '(inner, after) ← ok_or (split_once "]"%char rest) (Malformed "unterminated IPv6 literal");
        Ok (inner, strip_prefix (bytes ":") after)
    | None =>
        match rsplit_once ":"%char authority with
        | Some (h, p) => Ok (h, Some p)
        | None => Ok (authority, None)
        end
    end;
  port ←
    match port_part, default_port with
    | Some p, _ =>
        ok_or (match dec_parse u16_max p with Some 0 => None | x => x end) (Malformed "invalid port")
    | None, Some d => Ok d
    | None, None => Err (Malformed "CONNECT requires host:port")
    end;
  host ←
    match bracket with
    | Some _ => ip ← ok_or (parse_v6 host_part) (Malformed "invalid IPv6 literal"); Ok (Ip (V6 ip))
    | None => parse_host host_part
    end;
  Ok (MkTarget host port).

(** [rest.find(['/', '?', '#'])] and the two slices it makes. *)
Fixpoint split_authority (l : list byte) : list byte * option (list byte) :=
  match l with
  | [] => ([], None)
  | b :: r =>
      if bool_decide (b ∈ bytes "/?#") then ([], Some l)
      else let '(a, p) := split_authority r in (b :: a, p)
  end.

Definition parse_absolute_uri (verb uri : list byte) : result ParseError HttpRequest :=
  '(scheme, rest) ← ok_or (split_once_str (bytes "://") uri)
                     (Malformed "proxy requires an absolute http:// URI");
  _ ← fail_if (negb (eq_ignore_ascii_case scheme (bytes "http")))
        (Malformed "only http:// URIs can be forwarded");
  let '(authority, path) := split_authority rest in
  let path := default (bytes "/") path in
  _ ← fail_if (bool_decide ("@"%char ∈ authority)) (Malformed "userinfo in URI");
  let path := match path with
              | b :: _ => if bool_decide (b = "/"%char) then path else "/"%char :: path
              | [] => bytes "/"
              end in
  target ← parse_authority authority (Some 80);
  Ok (MkRequest (Forward verb path) target).

Definition parse_origin_form (verb path : list byte) (headers : list Header) :
    result ParseError HttpRequest :=
  host ← ok_or (List.find (λ h, eq_ignore_ascii_case (h_name h) (bytes "host")) headers)
           (Malformed "origin-form request without Host");
  target ← parse_authority (h_value host) (Some 80);
  Ok (MkRequest (Forward verb path) target).

Definition parse (head : list byte) : result ParseError Parsed :=
  _ ← fail_if (negb (forallb is_ascii head)) (Malformed "non-ASCII bytes in head");
  match split_crlf head with
  | [] => Err (Malformed "empty request line")
  | request_line :: lines =>
      _ ← fail_if (bool_decide (LF ∈ request_line)) (Malformed "bare LF in request line");
      match split_on SP request_line with
      | [verb; target; version] =>
          _ ← fail_if (bool_decide (verb = []) || (16 <? Z.of_nat (length verb))
                       || negb (forallb is_ascii_uppercase verb)) (Malformed "invalid method");
          _ ← fail_if (negb (bool_decide (version = bytes "HTTP/1.1")) && negb (bool_decide (version = bytes "HTTP/1.0")))
                (Malformed "unsupported HTTP version");
          headers ← parse_headers lines;
          let origin_form := negb (bool_decide (verb = bytes "CONNECT")) && starts_with (bytes "/") target in
          request ←
            (if bool_decide (verb = bytes "CONNECT")
             then target ← parse_authority target None; Ok (MkRequest Connect target)
             else if origin_form then parse_origin_form verb target headers
             else parse_absolute_uri verb target);
          Ok (MkParsed request version headers origin_form)
      | _ => Err (Malformed "request line is not `METHOD TARGET VERSION`")
      end
  end.

(** ** Rebuilding a head *)
Definition HOP_BY_HOP : list (list byte) :=
  [bytes "connection"; bytes "keep-alive"; bytes "te"; bytes "trailer"; bytes "upgrade"; bytes "host"].

(** The names a [Connection] field lists. *)
Definition connection_options (headers : list Header) : list (list byte) :=
  h ← headers;
  if eq_ignore_ascii_case (h_name h) (bytes "connection")
  then (λ t, lower (trim_matches is_ascii_space t)) <$> split_on ","%char (h_value h)
  else [].

(** Whether [build_head] leaves a field out. *)
Definition is_dropped (dropped : list (list byte)) (h : Header) : bool :=
  let name := lower (h_name h) in
  bool_decide (name ∈ HOP_BY_HOP) || starts_with (bytes "proxy-") name || bool_decide (name ∈ dropped).
Definition surviving (extra_drop : list (list byte)) (headers : list Header) : list Header :=
  List.filter (λ h, negb (is_dropped (extra_drop ++ connection_options headers) h)) headers.

Definition header_line (h : Header) : list byte := h_name h ++ bytes ": " ++ h_value h.
Definition build_head (p : Parsed) (verb path host : list byte) (extra_drop : list (list byte)) : list byte :=
  verb ++ [SP] ++ path ++ [SP] ++ p_version p ++ crlf ++ bytes "Host: " ++ host ++ crlf
  ++ concat ((λ h, header_line h ++ crlf) <$> surviving extra_drop (p_headers p)).

Definition origin_head (p : Parsed) : list byte :=
  match rq_method (p_request p) with
  | Connect => []
  | Forward verb path =>
      build_head p verb path (display_target (rq_target (p_request p))) []
      ++ bytes "Connection: close" ++ crlf ++ crlf
  end.

(** ** Body framing *)
Inductive Framing : Type := FramingNone | FramingLength (n : Z) | FramingChunked.
#[export] Instance Framing_eq_dec : EqDecision Framing.
Proof. solve_decision. Defined.

Fixpoint transfer_encoding (framing : Framing) (headers : list Header) : result ParseError Framing :=
  match headers with
  | [] => Ok framing
  | h :: headers =>
      if eq_ignore_ascii_case (h_name h) (bytes "transfer-encoding")
      then _ ← fail_if (negb (eq_ignore_ascii_case (h_value h) (bytes "chunked")))
                 (Malformed "unsupported Transfer-Encoding");
           transfer_encoding FramingChunked headers
      else transfer_encoding framing headers
  end.
Fixpoint content_length (framing : Framing) (headers : list Header) : result ParseError Framing :=
  match headers with
  | [] => Ok framing
  | h :: headers =>
      if eq_ignore_ascii_case (h_name h) (bytes "content-length")
      then n ← ok_or (dec_parse usize_max (h_value h)) (Malformed "invalid Content-Length");
           match framing with
           | FramingLength seen =>
               if bool_decide (seen = n) then content_length (FramingLength n) headers
               else Err (Malformed "conflicting Content-Length")
           | _ => content_length (FramingLength n) headers
           end
      else content_length framing headers
  end.
Definition framing_of (headers : list Header) : result ParseError Framing :=
  framing ← transfer_encoding FramingNone headers;
  if bool_decide (framing = FramingChunked) then Ok framing else content_length framing headers.
Definition body_framing (p : Parsed) : result ParseError Framing := framing_of (p_headers p).

(** ** Chunked bodies *)

(** [str::from_utf8], as the code points: the well-formed sequences of one to four bytes. *)
Definition cont (b : byte) : bool := in_range 0x80 0xBF b.
Definition push_code (c : Z) (rest : option (list Z)) : option (list Z) := cons c <$> rest.
Fixpoint from_utf8 (l : list byte) : option (list Z) :=
  match l with
  | [] => Some []
  | a :: l =>
      if in_range 0 0x7F a then push_code (code a) (from_utf8 l)
      else match l with
      | [] => None
      | b :: l =>
          let low c := code c - 0x80 in
          if in_range 0xC2 0xDF a && cont b
          then push_code ((code a - 0xC0) * 64 + low b) (from_utf8 l)
          else match l with
          | [] => None
          | c :: l =>
              if ((in_range 0xE0 0xE0 a && in_range 0xA0 0xBF b)
                  || (in_range 0xE1 0xEC a && cont b)
                  || (in_range 0xED 0xED a && in_range 0x80 0x9F b)
                  || (in_range 0xEE 0xEF a && cont b)) && cont c
              then push_code ((code a - 0xE0) * 4096 + low b * 64 + low c) (from_utf8 l)
              else match l with
              | [] => None
              | d :: l =>
                  if ((in_range 0xF0 0xF0 a && in_range 0x90 0xBF b)
                      || (in_range 0xF1 0xF3 a && cont b)
                      || (in_range 0xF4 0xF4 a && in_range 0x80 0x8F b)) && cont c && cont d
                  then push_code ((code a - 0xF0) * 262144 + low b * 4096 + low c * 64 + low d) (from_utf8 l)
                  else None
              end
          end
      end
  end.

(** [char::is_whitespace] *)
Definition is_whitespace (c : Z) : bool :=
  ((9 <=? c) && (c <=? 13))
  || bool_decide (c ∈ [0x20; 0x85; 0xA0; 0x1680; 0x2028; 0x2029; 0x202F; 0x205F; 0x3000])
  || ((0x2000 <=? c) && (c <=? 0x200A)).

(** [usize::from_str_radix(_, 16)] *)
Definition hex_value (c : Z) : option Z :=
  if (48 <=? c) && (c <=? 57) then Some (c - 48)
  else if (97 <=? c) && (c <=? 102) then Some (c - 87)
  else if (65 <=? c) && (c <=? 70) then Some (c - 55)
  else None.
Fixpoint hex_parse_digits (v : Z) (l : list Z) : option Z :=
  match l with
  | [] => Some v
  | c :: l =>
      d ← hex_value c;
      v16 ← checked_mul usize_max v 16;
      v' ← checked_add usize_max v16 d;
      hex_parse_digits v' l
  end.
Definition hex_parse (l : list Z) : option Z :=
  match l with
  | [] => None
  | c :: rest =>
      if c =? 43 then match rest with [] => None | _ => hex_parse_digits 0 rest end
      else hex_parse_digits 0 l
  end.

Definition MAX_CHUNK_LINE : Z := 256.
Inductive ChunkState : Type := Size | Data (remaining : Z) | Trailer | Done.
#[export] Instance ChunkState_eq_dec : EqDecision ChunkState.
Proof. solve_decision. Defined.
Record ChunkTracker := MkTracker { ct_state : ChunkState; ct_line : list byte }.
Definition tracker_new : ChunkTracker := MkTracker Size [].
Definition done (t : ChunkTracker) : bool := bool_decide (ct_state t = Done).

(** The text before the first [;]. *)
Fixpoint before_semicolon (l : list Z) : list Z :=
  match l with [] => [] | c :: l => if c =? 59 then [] else c :: before_semicolon l end.

(** [end_of_line]: the state a whole line leads to. *)
Definition end_of_line (s : ChunkState) (line : list byte) : result ParseError ChunkState :=
  text ← ok_or (from_utf8 line) (Malformed "chunk line is not UTF-8");
  let text := trim_end (λ c, (c =? 13) || (c =? 10)) text in
  match s with
  | Size =>
      n ← ok_or (hex_parse (trim_matches is_whitespace (before_semicolon text)))
            (Malformed "invalid chunk size");
      if n =? 0 then Ok Trailer
      else match checked_add usize_max n 2 with
           | Some with_crlf => Ok (Data with_crlf)
           | None => Err (Malformed "chunk size overflow")
           end
  | Trailer => Ok (if bool_decide (text = []) then Done else Trailer)
  | other => Ok other
  end.

(** The loop of [feed]: [bytes] is what is left and [i] how much was consumed; [None] is a
    loop cut short by its fuel. *)
Fixpoint feed_loop (fuel : nat) (t : ChunkTracker) (i : nat) (bytes : list byte) :
    option (result ParseError nat * ChunkTracker) :=
  match fuel with
  | O => None
  | S fuel =>
      match bytes with
      | [] => Some (Ok i, t)
      | b :: rest =>
          match ct_state t with
          | Done => Some (Ok i, t)
          | Data remaining =>
              let n := Z.to_nat (remaining `min` Z.of_nat (length bytes)) in
              let left_ := remaining - Z.of_nat n in
              feed_loop fuel (MkTracker (if left_ =? 0 then Size else Data left_) (ct_line t)) (i + n) (drop n bytes)
          | s =>
              if MAX_CHUNK_LINE <=? Z.of_nat (length (ct_line t))
              then Some (Err (Malformed "chunk line too long"), t)
              else
                let line := ct_line t ++ [b] in
                if bool_decide (b = LF)
                then match end_of_line s line with
                     | Ok s => feed_loop fuel (MkTracker s []) (S i) rest
                     | Err e => Some (Err e, MkTracker s [])
                     end
                else feed_loop fuel (MkTracker s line) (S i) rest
          end
      end
  end.

(** Every turn but the one that leaves an empty [Data] consumes a byte. *)
Definition feed (t : ChunkTracker) (bytes : list byte) : option (result ParseError nat * ChunkTracker) :=
  feed_loop (S (2 * length bytes)) t 0 bytes.

(** ** Lemmas: searching *)
Lemma find_at_Some needle l i :
  find_at needle l = Some i ↔
  needle `prefix_of` drop i l ∧ (i ≤ length l)%nat ∧ ∀ j, (j < i)%nat → ¬ needle `prefix_of` drop j l.
Proof.
  revert i. induction l as [|x l IH]; intros i; cbn [find_at];
    destruct (starts_with needle _) eqn:E; rewrite ?starts_with_spec in E.
  - split; [intros [= <-]; split_and!; [done|lia|lia]|]. intros (_ & Hi & _). f_equal. cbn in Hi. lia.
  - split; [done|]. intros (Hp & _). rewrite drop_nil in Hp. apply starts_with_spec in Hp. congruence.
  - split; [intros [= <-]; split_and!; [done|lia|lia]|]. intros (_ & _ & Hm).
    destruct i as [|i]; [done|]. by destruct (Hm O); [lia|].
  - assert (¬ needle `prefix_of` x :: l) as Hno by (rewrite <-starts_with_spec; congruence).
    rewrite fmap_Some. setoid_rewrite IH. split.
    + intros (j & (Hp & Hj & Hm) & ->). split_and!; [done|cbn; lia|].
      intros [|k] Hk; [done|]. apply Hm. lia.
    + intros (Hp & Hi & Hm). destruct i as [|i]; [done|]. exists i. split_and!; [done|cbn in Hi; lia| |done].
      intros k Hk. apply (Hm (S k)). lia.
Qed.

Lemma find_at_None needle l :
  needle ≠ [] → find_at needle l = None ↔ ∀ j, ¬ needle `prefix_of` drop j l.
Proof.
  intros Hne. split.
  - intros Hn j Hp. destruct (decide (j ≤ length l)%nat) as [Hj|Hj].
    2:{ rewrite drop_ge in Hp by lia. by apply prefix_nil_inv in Hp. }
    assert (∃ i, find_at needle l = Some i) as [i Hi]; [|congruence].
    clear Hn. revert j Hp Hj. induction l as [|x l IH]; intros j Hp Hj; cbn [find_at];
      destruct (starts_with needle _) eqn:E; eauto.
    + rewrite drop_nil in Hp. apply starts_with_spec in Hp. congruence.
    + destruct j as [|j]; [apply starts_with_spec in Hp; cbn in Hp; congruence|].
      destruct (IH j Hp ltac:(cbn in Hj; lia)) as [i ->]. by exists (S i).
  - intros Hn. destruct (find_at needle l) as [i|] eqn:E; [|done].
    apply find_at_Some in E as (Hp & _). by apply Hn in Hp.
Qed.

(** A search may start where a match would have to end behind what was already searched. *)
Lemma find_at_resume needle l k :
  (k ≤ length l)%nat → (∀ j, (j < k)%nat → ¬ needle `prefix_of` drop j l) →
  (λ i, i + k)%nat <$> find_at needle (drop k l) = find_at needle l.
Proof.
  intros Hk Hno. destruct (decide (needle = [])) as [->|Hne].
  { destruct k as [|k]; [|destruct (Hno O); [lia|apply prefix_nil]].
    rewrite drop_0. by destruct l. }
  destruct (find_at needle l) as [i|] eqn:E.
  - apply find_at_Some in E as (Hp & Hi & Hm).
    assert (k ≤ i)%nat as Hki by (destruct (decide (k ≤ i)%nat); [done|destruct (Hno i); [lia|done]]).
    assert (find_at needle (drop k l) = Some (i - k)%nat) as ->; [|cbn; f_equal; lia].
    apply find_at_Some. rewrite length_drop, drop_drop. split_and!; [|lia|].
    + by replace (k + (i - k))%nat with i by lia.
    + intros j Hj. rewrite drop_drop. apply Hm. lia.
  - assert (find_at needle (drop k l) = None) as ->; [|done].
    apply find_at_None; [done|]. intros j. rewrite drop_drop. by apply find_at_None.
Qed.

Lemma prefix_drop_app (p a b : list byte) (j : nat) :
  (j + length p ≤ length a)%nat → p `prefix_of` drop j (a ++ b) → p `prefix_of` drop j a.
Proof.
  intros Hj [r Hr]. rewrite drop_app_le in Hr by lia.
  exists (drop (length p) (drop j a)). rewrite <-(take_drop (length p) (drop j a)) at 1. f_equal.
  apply (f_equal (take (length p))) in Hr.
  rewrite take_app_length, take_app_le in Hr; [done|]. rewrite length_drop. lia.
Qed.

Lemma find_terminator_app_None a b j :
  find_terminator (a ++ b) = None → ¬ terminator `prefix_of` drop j a.
Proof.
  intros Hn [r Hr]. apply (proj1 (find_at_None terminator (a ++ b) ltac:(done)) Hn j).
  destruct (decide (j ≤ length a)%nat).
  - rewrite drop_app_le, Hr by lia. rewrite <-(assoc_L app). by exists (r ++ b).
  - rewrite drop_ge in Hr by lia. done.
Qed.

(** ** Lemmas: reading a head *)
Definition max_head : nat := Z.to_nat MAX_HEAD_BYTES.

Lemma scan_resume buf c :
  find_terminator buf = None →
  (λ i, i + (length buf - 3))%nat <$> find_terminator (drop (length buf - 3) (buf ++ c)) = find_terminator (buf ++ c).
Proof.
  intros Hn. apply find_at_resume; [rewrite length_app; lia|]. intros j Hj Hp.
  apply (proj1 (find_at_None terminator buf ltac:(done)) Hn j).
  eapply prefix_drop_app; [|done]. cbn. lia.
Qed.

(** What [read_head_from] returns for a stream that ends after the chunks [cs]. *)
Definition head_result {IoErr} (buf : list byte) (cs : list (list byte))
    (x : result IoErr (result ParseError Head) * reads IoErr) : Prop :=
  let stream := buf ++ concat cs in
  match x with
  | (Ok (Ok h), r) =>
      ∃ k c, cs !! k = Some c ∧ r = Ok <$> drop (S k) cs ∧
        buf ++ concat (take (S k) cs) = hd_bytes h ++ terminator ++ hd_remainder h ∧
        find_terminator stream = Some (length (hd_bytes h)) ∧
        Z.of_nat (length (hd_bytes h)) ≤ MAX_HEAD_BYTES ∧ (length (hd_remainder h) < length c)%nat
  | (Ok (Err HeadTruncated), _) =>
      find_terminator stream = None ∧ Z.of_nat (length stream) ≤ MAX_HEAD_BYTES
  | (Ok (Err TooLarge), _) =>
      MAX_HEAD_BYTES < Z.of_nat (length stream) ∧
      ∀ e, find_terminator stream = Some e → MAX_HEAD_BYTES - 3 < Z.of_nat e
  | _ => False
  end.

Lemma find_terminator_app a b e :
  find_terminator a = None → find_terminator (a ++ b) = Some e → (length a < e + 4)%nat.
Proof.
  intros Hn (Hp & _)%find_at_Some. destruct (decide (length a < e + 4)%nat); [done|].
  destruct (proj1 (find_at_None terminator a ltac:(done)) Hn e).
  eapply prefix_drop_app; [|done]. cbn. lia.
Qed.

Lemma find_terminator_extend a b e : find_terminator a = Some e → find_terminator (a ++ b) = Some e.
Proof.
  intros (Hp & He & Hm)%find_at_Some. apply find_at_Some.
  destruct Hp as [r Hr]. assert (e + 4 ≤ length a)%nat as Hle.
  { apply (f_equal length) in Hr. rewrite length_drop, length_app in Hr. cbn in Hr. lia. }
  split_and!.
  - rewrite drop_app_le, Hr by lia. rewrite <-(assoc_L app). by exists (r ++ b).
  - rewrite length_app. lia.
  - intros j Hj Hp. apply (Hm j Hj). eapply prefix_drop_app; [|done]. cbn. lia.
Qed.

Lemma read_head_from_spec {IoErr} (cs : list (list byte)) buf :
  Forall (λ c, c ≠ []) cs → find_terminator buf = None → Z.of_nat (length buf) ≤ MAX_HEAD_BYTES →
  head_result (IoErr := IoErr) buf cs (read_head_from buf (Ok <$> cs)).
Proof.
  intros Hcs. revert buf. induction Hcs as [|c cs Hc Hcs IH]; intros buf Hn Hlen; cbn [read_head_from fmap list_fmap].
  { cbn. by rewrite app_nil_r. }
  rewrite bool_decide_false by done. rewrite scan_resume by done.
  destruct (find_terminator (buf ++ c)) as [e|] eqn:He.
  - pose proof (find_terminator_app _ _ _ Hn He) as Hlt.
    pose proof (find_terminator_extend _ (concat cs) _ He) as Hext. rewrite <-(assoc_L app) in Hext.
    apply find_at_Some in He as (Hp & Hle & _). destruct Hp as [r Hr].
    assert (length (buf ++ c) = (e + (4 + length r)))%nat as Hl.
    { apply (f_equal length) in Hr. rewrite length_drop, !length_app in Hr. rewrite length_app in *.
      cbn in Hr. lia. }
    destruct (Z.ltb_spec MAX_HEAD_BYTES (Z.of_nat e)).
    + cbn. split; [rewrite !length_app in *; lia|]. intros e'. rewrite Hext. intros [= <-]. lia.
    + exists O, c. cbn [hd_bytes hd_remainder]. rewrite length_take, Nat.min_l by lia. cbn [take concat].
      rewrite length_drop, app_nil_r, length_app in *. split_and!; try done; try lia.
      rewrite <-(take_drop e (buf ++ c)) at 1. f_equal. rewrite Hr, <-drop_drop, Hr. done.
  - destruct (Z.ltb_spec MAX_HEAD_BYTES (Z.of_nat (length (buf ++ c)))) as [Hgt|Hle].
    + cbn. rewrite !length_app in *. split; [lia|]. intros e He'. rewrite (assoc_L app) in He'.
      pose proof (find_terminator_app _ _ _ He He') as Hlt. rewrite length_app in Hlt. lia.
    + specialize (IH (buf ++ c) He Hle). revert IH. unfold head_result. cbn [concat].
      destruct (read_head_from _ _) as [[[h|[]]|] r]; rewrite <-?(assoc_L app); try done.
      intros (k & c' & Hk & -> & Hb & H). exists (S k), c'. split_and!; [done|done| |apply H..].
      cbn [take concat]. by rewrite (assoc_L app).
Qed.

(** ** Lemmas: the lines of a head *)
Lemma split_crlf_app a b : LF ∉ a → split_crlf (a ++ crlf ++ b) = a :: split_crlf b.
Proof.
  induction a as [|x a IH]; intros Ha; [done|].
  apply not_elem_of_cons in Ha as [Hx Ha]. cbn [app split_crlf].
  assert (∃ y r, a ++ crlf ++ b = y :: r ∧ y ≠ LF) as (y & r & E & Hy).
  { destruct a as [|y a]; [by exists CR, (LF :: b)|]. apply not_elem_of_cons in Ha as [Hy _]. by exists y, (a ++ crlf ++ b). }
  specialize (IH Ha). rewrite E in *. rewrite (bool_decide_false (y = LF)), andb_false_r, IH; done.
Qed.

Lemma split_crlf_lines (ls : list (list byte)) :
  Forall (λ l, LF ∉ l) ls → split_crlf (concat ((λ l, l ++ crlf) <$> ls)) = ls ++ [[]].
Proof.
  induction 1 as [|l ls Hl _ IH]; [done|]. cbn [fmap list_fmap concat app].
  by rewrite <-(assoc_L app), split_crlf_app, IH.
Qed.

(** The pieces of [split] hold the bytes of the whole, but for the separators. *)
Lemma split_on_elem c l w x : w ∈ split_on c l → x ∈ w → x ∈ l ∧ x ≠ c.
Proof.
  revert w. induction l as [|y l IH]; intros w Hw Hx; cbn in Hw.
  { apply list_elem_of_singleton in Hw. subst. by apply elem_of_nil in Hx. }
  destruct (split_on_cons c l) as (v & vs & E). rewrite E in Hw, IH.
  case_bool_decide as Hyc.
  - apply elem_of_cons in Hw as [->|Hw]; [by apply elem_of_nil in Hx|].
    destruct (IH _ Hw Hx) as [Hin Hne]. split; [by apply elem_of_cons; right|done].
  - apply elem_of_cons in Hw as [->|Hw].
    + apply elem_of_cons in Hx as [->|Hx]; [split; [apply elem_of_cons; auto|done]|].
      destruct (IH v) as [Hin Hne]; [apply elem_of_cons; auto|done|]. split; [by apply elem_of_cons; right|done].
    + destruct (IH w) as [Hin Hne]; [by apply elem_of_cons; right|done|]. split; [by apply elem_of_cons; right|done].
Qed.

Lemma split_once_Some c l a b : split_once c l = Some (a, b) → l = a ++ c :: b.
Proof.
  revert a. induction l as [|x l IH]; intros a; cbn; [done|].
  case_bool_decide as E; [intros [= <- <-]; by subst|].
  destruct (split_once c l) as [[a' b']|]; cbn; [|done]. intros [= <- <-]. cbn. f_equal. by apply IH.
Qed.

Lemma trim_start_suffix {A} (p : A → bool) l : ∃ k, l = k ++ trim_start p l.
Proof.
  induction l as [|x l [k IH]]; [by exists []|]. cbn. destruct (p x); [|by exists []].
  exists (x :: k). by rewrite IH at 1.
Qed.
Lemma trim_end_prefix {A} (p : A → bool) l : ∃ k, l = trim_end p l ++ k.
Proof.
  unfold trim_end. destruct (trim_start_suffix p (reverse l)) as [k E].
  exists (reverse k). apply (f_equal reverse) in E. by rewrite reverse_involutive, reverse_app in E.
Qed.
Lemma trim_matches_elem {A} (p : A → bool) l x : x ∈ trim_matches p l → x ∈ l.
Proof.
  unfold trim_matches. intros Hx. destruct (trim_start_suffix p l) as [k ->].
  destruct (trim_end_prefix p (trim_start p l)) as [k' E].
  apply elem_of_app. right. rewrite E. apply elem_of_app. by left.
Qed.

Lemma split_authority_app l a p :
  split_authority l = (a, p) → l = a ++ default [] p.
Proof.
  revert a. induction l as [|b l IH]; intros a; cbn; [by intros [= <- <-]|].
  case_bool_decide; [by intros [= <- <-]|].
  destruct (split_authority l) as [a' p'] eqn:E. intros [= <- <-]. cbn. f_equal. by apply IH.
Qed.

Lemma split_once_str_elem needle l a b x :
  split_once_str needle l = Some (a, b) → (x ∈ a ∨ x ∈ b → x ∈ l).
Proof.
  unfold split_once_str. destruct (find_at needle l) as [i|]; cbn; [|done]. intros [= <- <-] [Hx|Hx].
  - rewrite <-(take_drop i l). apply elem_of_app. by left.
  - rewrite <-(take_drop (i + length needle) l). apply elem_of_app. by right.
Qed.

(** *** Which bytes a rebuilt head is made of *)
Definition printable (b : byte) : Prop := 0x21 ≤ code b ≤ 0x7e.
Definition plain (l : list byte) : Prop := Forall printable l.

Lemma plain_app a b : plain (a ++ b) ↔ plain a ∧ plain b.
Proof. apply Forall_app. Qed.
Lemma plain_elem l x : plain l → ¬ printable x → x ∉ l.
Proof. intros Hl Hx Hin. by eapply Forall_forall in Hl. Qed.
Lemma plain_bytes s : forallb (in_range 0x21 0x7e) (bytes s) = true → plain (bytes s).
Proof. rewrite forallb_Forall. intros H. eapply Forall_impl; [exact H|]. intros b. apply in_range_spec. Qed.
Lemma plain_digits l : Forall (λ c, is_ascii_digit c = true) l → plain l.
Proof. intros H. eapply Forall_impl; [exact H|]. intros b Hb%in_range_spec. unfold printable. lia. Qed.

Lemma dec_go_digits fuel n acc :
  0 ≤ n → Forall (λ c, is_ascii_digit c = true) acc → Forall (λ c, is_ascii_digit c = true) (dec_go fuel n acc).
Proof.
  revert n acc. induction fuel as [|fuel IH]; intros n acc Hn Hacc; [done|]. cbn [dec_go].
  pose proof (Z.mod_pos_bound n 10 ltac:(lia)). assert (is_ascii_digit (chr (48 + n mod 10)) = true) as Hd.
  { apply in_range_spec. rewrite code_chr; lia. }
  destruct (_ =? _); [by constructor|]. apply IH; [apply Z.div_pos; lia|by constructor].
Qed.
Lemma dec_display_plain n : 0 ≤ n → plain (dec_display n).
Proof. intros Hn. apply plain_digits. by apply dec_go_digits. Qed.

Lemma hex_go_plain fuel n acc : plain acc → plain (hex_go fuel n acc).
Proof.
  revert n acc. induction fuel as [|fuel IH]; intros n acc Hacc; [done|]. cbn [hex_go].
  pose proof (Z.mod_pos_bound n 16 ltac:(lia)).
  assert (plain (hex_digit (n mod 16) :: acc)).
  { constructor; [|done]. unfold hex_digit, printable. destruct (Z.ltb_spec (n mod 16) 10); rewrite code_chr; lia. }
  destruct (_ =? _); [done|]. by apply IH.
Qed.
Lemma join_with_plain c ls : printable c → Forall plain ls → plain (join_with c ls).
Proof.
  intros Hc Hls. induction Hls as [|l ls Hl Hls IH]; [by constructor|].
  cbn. destruct ls; [done|]. apply plain_app. split; [done|]. by constructor.
Qed.
Lemma fmt_subslice_plain l : plain (fmt_subslice l).
Proof.
  apply join_with_plain; [by unfold printable|]. apply Forall_fmap, Forall_true. intros x.
  apply hex_go_plain. constructor.
Qed.

(** The numbers of an address that was parsed are natural numbers. *)
Definition v4_nat (i : Ipv4Addr) : Prop := 0 ≤ o0 i ∧ 0 ≤ o1 i ∧ 0 ≤ o2 i ∧ 0 ≤ o3 i.
Lemma display_v4_plain i : v4_nat i → plain (display_v4 i).
Proof.
  intros (H0 & H1 & H2 & H3). unfold display_v4.
  repeat (apply plain_app; split); try (by apply dec_display_plain); (constructor; [by unfold printable|constructor]).
Qed.
Lemma display_v6_plain i : Forall (λ s, 0 ≤ s) (segments i) → plain (display_v6 i).
Proof.
  intros Hs. unfold display_v6. destruct (to_ipv4_mapped i) as [v4|] eqn:E.
  - apply plain_app. split; [by apply plain_bytes|]. apply display_v4_plain.
    unfold to_ipv4_mapped in E. case_bool_decide; [|done]. injection E as <-. unfold segments in Hs.
    repeat match goal with H : Forall _ (_ :: _) |- _ => apply Forall_cons in H as [? H] end.
    unfold v4_nat, v4_of_segments; cbn. rewrite !Z.shiftr_nonneg, !Z.land_nonneg. lia.
  - destruct (zero_run _ _ _ _) as [start len]. case_bool_decide; [|apply fmt_subslice_plain].
    repeat (apply plain_app; split); try apply fmt_subslice_plain. by apply plain_bytes.
Qed.

(** *** What the parser accepts *)
Lemma to_digit_nonneg radix b d : to_digit radix b = Some d → 0 ≤ d.
Proof.
  unfold to_digit, is_ascii_digit, is_ascii_lowercase, is_ascii_uppercase.
  pose proof (in_range_spec 48 57 b) as H1. pose proof (in_range_spec 97 122 b) as H2.
  pose proof (in_range_spec 65 90 b) as H3.
  destruct (in_range 48 57 b), (in_range 97 122 b), (in_range 65 90 b);
    case_match eqn:E; try done; intros [= <-]; bool_inv; naive_solver lia.
Qed.
Lemma read_digits_nonneg radix l ds r : read_digits radix l = (ds, r) → Forall (λ d, 0 ≤ d) ds.
Proof.
  revert ds. induction l as [|c l IH]; intros ds; cbn; [by intros [= <- <-]|].
  destruct (to_digit radix c) as [d|] eqn:E; [|by intros [= <- <-]].
  destruct (read_digits radix l) as [ds' r'] eqn:E'. intros [= <- <-].
  constructor; [by eapply to_digit_nonneg|by apply IH].
Qed.
Lemma digits_value_nonneg radix ds v :
  0 ≤ radix → 0 ≤ v → Forall (λ d, 0 ≤ d) ds → 0 ≤ foldl (λ v d, v * radix + d) v ds.
Proof. intros Hr Hv Hds. revert v Hv. induction Hds as [|d ds Hd _ IH]; intros v Hv; [done|]. cbn. apply IH. nia. Qed.
Lemma read_number_nonneg radix m z max l v r :
  0 ≤ radix → read_number radix m z max l = Some (v, r) → 0 ≤ v.
Proof.
  intros Hr. unfold read_number. destruct (read_digits radix l) as [ds rest] eqn:E.
  destruct (_ || _); [done|]. intros [= <- <-]. apply digits_value_nonneg; [done|lia|by eapply read_digits_nonneg].
Qed.
Lemma read_separator_Some {A} sep i (inner : list byte → option (A * list byte)) l x :
  read_separator sep i inner l = Some x → ∃ l', inner l' = Some x.
Proof.
  unfold read_separator. destruct i; [by eauto|].
  destruct (read_given_char sep l); cbn [mbind option_bind]; [by eauto|done].
Qed.
Lemma read_ipv4_nat l v r : read_ipv4_addr l = Some (v, r) → v4_nat v.
Proof.
  unfold read_ipv4_addr. intros H.
  repeat match type of H with
  | (?m ≫= _) = Some _ => let E := fresh "E" in destruct m as [[? ?]|] eqn:E; [cbn [mbind option_bind] in H|done];
      apply read_separator_Some in E as (? & E%read_number_nonneg); [|lia]
  end.
  injection H as <- <-. done.
Qed.
Lemma read_groups_nonneg room i l gs b r : read_groups room i l = (gs, b, r) → Forall (λ d, 0 ≤ d) gs.
Proof.
  revert i l gs b r. induction room as [|room IH]; intros i l gs b r; cbn [read_groups]; [by intros [= <- <- <-]|].
  destruct (match room with O => None | S _ => _ end) as [[v4 rest]|] eqn:E.
  { intros [= <- <- <-]. assert (v4_nat v4) as (?&?&?&?).
    { destruct room; [done|]. apply read_separator_Some in E as [? E]. by eapply read_ipv4_nat. }
    repeat constructor; lia. }
  destruct (read_separator _ _ (read_number 16 4 true 65535) l) as [[g rest]|] eqn:Eg; [|by intros [= <- <- <-]].
  destruct (read_groups room (S i) rest) as [[gs' b'] r'] eqn:Er. intros [= <- <- <-].
  constructor; [|by eapply IH]. apply read_separator_Some in Eg as [? Eg]. eapply read_number_nonneg; [|exact Eg]. lia.
Qed.
Lemma v6_of_nonneg l : Forall (λ d, 0 ≤ d) l → Forall (λ d, 0 ≤ d) (segments (v6_of l)).
Proof.
  intros Hl. assert (∀ n, 0 ≤ nth n l 0) as Hn.
  { induction Hl as [|x l Hx _ IH]; intros [|n]; cbn; try lia. apply IH. }
  unfold segments, v6_of; cbn. repeat constructor; apply Hn.
Qed.
Lemma parse_v6_plain l ip : parse_v6 l = Some ip → plain (display_v6 ip).
Proof.
  unfold parse_v6, read_ipv6_addr. intros H. apply display_v6_plain.
  destruct (read_groups 8 0 l) as [[front v4] l1] eqn:Ef. pose proof (read_groups_nonneg _ _ _ _ _ _ Ef) as Hf.
  case_bool_decide.
  { destruct l1; [|done]. injection H as <-. by apply v6_of_nonneg. }
  destruct v4; [done|]. destruct (read_given_char _ l1) as [l2|]; cbn [mbind option_bind] in H; [|done].
  destruct (read_given_char _ l2) as [l3|]; cbn [mbind option_bind] in H; [|done].
  destruct (read_groups _ 0 l3) as [[back v4'] l4] eqn:Eb. pose proof (read_groups_nonneg _ _ _ _ _ _ Eb) as Hb.
  destruct l4; [|done]. injection H as <-. apply v6_of_nonneg. rewrite !Forall_app. split_and!; [done| |done].
  apply Forall_replicate. lia.
Qed.

Lemma parse_octet_nonneg l v : parse_octet l = Some v → 0 ≤ v.
Proof.
  unfold parse_octet. destruct (_ || _) eqn:E; [done|]. intros [= <-]. bool_inv.
  match goal with H : forallb _ _ = true |- _ => rewrite forallb_Forall in H; apply (dec_value_le 0) in H end; lia.
Qed.
Lemma parse_v4_plain l ip : parse_v4 l = Some ip → plain (display_v4 ip).
Proof.
  unfold parse_v4. destruct (split_on dot l) as [|a [|b [|c [|d [|]]]]]; try done. intros H. apply display_v4_plain.
  repeat match type of H with
  | (?m ≫= _) = Some _ => let E := fresh "E" in destruct m eqn:E; [cbn [mbind option_bind] in H|done];
      apply parse_octet_nonneg in E
  end.
  by injection H as <-.
Qed.

Lemma split_on_cover c l x : x ∈ l → x = c ∨ ∃ w, w ∈ split_on c l ∧ x ∈ w.
Proof.
  intros Hx. rewrite <-(join_split c l) in Hx. revert Hx. induction (split_on c l) as [|w ws IH]; cbn.
  { intros []%elem_of_nil. }
  destruct ws as [|w' ws].
  - intros Hx. right. exists w. split; [apply elem_of_cons; auto|done].
  - rewrite elem_of_app, elem_of_cons. intros [Hx|[->|Hx]]; [|by left|].
    + right. exists w. split; [apply elem_of_cons; auto|done].
    + destruct (IH Hx) as [->|(v & Hv & Hxv)]; [by left|]. right. exists v. split; [by apply elem_of_cons; right|done].
Qed.
Lemma alnum_printable b : is_ascii_alphanumeric b = true → printable b.
Proof.
  unfold is_ascii_alphanumeric, is_ascii_lowercase, is_ascii_uppercase, is_ascii_digit, printable.
  rewrite !orb_true_iff, !in_range_spec. lia.
Qed.
Lemma lower_printable b : printable b → printable (to_ascii_lowercase b).
Proof.
  unfold to_ascii_lowercase, is_ascii_uppercase, printable. destruct (in_range 65 90 b) eqn:E; [|done].
  apply in_range_spec in E. rewrite code_chr; lia.
Qed.
Lemma parse_host_plain l h : parse_host l = Ok h → plain (display_host h).
Proof.
  unfold parse_host. set (host := strip_dot l). intros Hp. apply bind_Ok in Hp as (? & _ & Hp).
  destruct (_ || forallb _ host).
  - res_inv. cbn. by eapply parse_v4_plain.
  - res_inv. bool_inv. cbn. apply Forall_fmap, Forall_forall. intros x Hx. cbn. apply lower_printable.
    destruct (split_on_cover dot host x Hx) as [->|(w & Hw & Hxw)]; [by unfold printable|].
    match goal with H : forallb valid_label _ = true |- _ => rewrite forallb_Forall, Forall_forall in H; specialize (H _ Hw) end.
    unfold valid_label in *. bool_inv.
    match goal with H : forallb _ w = true |- _ => rewrite forallb_Forall, Forall_forall in H; specialize (H _ Hxw) end.
    bool_inv. destruct (is_ascii_alphanumeric x) eqn:E; [by apply alnum_printable|]. cbn in *. bool_inv. subst. by unfold printable.
Qed.

Lemma dec_parse_nonneg max l v : dec_parse max l = Some v → 0 ≤ v ≤ max ∨ 0 ≤ v ∧ max < 0.
Proof.
  unfold dec_parse. assert (∀ l v0, 0 ≤ v0 → dec_parse_digits max v0 l = Some v → 0 ≤ v ∧ (v ≤ max ∨ l = [] )) as H.
  { clear l. intros l. induction l as [|c l IH]; intros v0 Hv0; cbn; [intros [= <-]; auto|].
    destruct (is_ascii_digit c) eqn:E; [|done]. apply in_range_spec in E.
    unfold checked_mul, checked_add. destruct (Z.leb_spec (v0 * 10) max); cbn; [|done].
    destruct (Z.leb_spec (v0 * 10 + (code c - 48)) max); cbn; [|done]. intros Hd.
    destruct (IH (v0 * 10 + (code c - 48)) ltac:(lia) Hd) as [Hv [Hm| ->]]; [by auto|]. injection Hd as <-. auto. }
  destruct (default l _) as [|c r]; [done|]. intros Hd. destruct (H _ 0 ltac:(lia) Hd) as [Hv [Hm|Hm]]; [|done]. lia.
Qed.

Lemma parse_authority_Ok a d t :
  parse_authority a d = Ok t → (∀ x, d = Some x → 1 ≤ x ≤ 65535) →
  plain (display_target t) ∧ 1 ≤ t_port t ≤ 65535.
Proof.
  unfold parse_authority. intros H Hd. apply bind_Ok in H as ([host_part port_part] & _ & H).
  apply bind_Ok in H as (port & Hport & H). apply bind_Ok in H as (host & Hhost & H). injection H as <-. cbn [t_port].
  assert (1 ≤ port ≤ 65535) as Hp.
  { destruct port_part as [p|]; [|destruct d; [injection Hport as <-; by apply Hd|done]].
    apply ok_or_Ok in Hport. destruct (dec_parse u16_max p) as [v|] eqn:E; [|done].
    apply dec_parse_nonneg in E. unfold u16_max in E. destruct v; [done|..]; injection Hport as <-; lia. }
  split; [|done]. unfold display_target. cbn [t_host t_port]. apply plain_app. split.
  - destruct (strip_prefix _ a).
    + res_inv. cbn [display_host]. repeat (apply plain_app; split); [by apply plain_bytes| |by apply plain_bytes].
      by eapply parse_v6_plain.
    + by eapply parse_host_plain.
  - apply plain_app. split; [by apply plain_bytes|]. apply dec_display_plain. lia.
Qed.

Record wf_header (h : Header) : Prop := {
  wfh_name : is_token (h_name h) = true;
  wfh_value : existsb is_control (h_value h) = false;
}.
Lemma parse_header_line_Ok line h : parse_header_line line = Ok h → wf_header h.
Proof.
  unfold parse_header_line. intros H.
  apply bind_Ok in H as (? & _ & H). apply bind_Ok in H as (? & _ & H).
  apply bind_Ok in H as ([name value] & _ & H). res_inv. bool_inv. constructor; cbn.
  - unfold is_token. rewrite bool_decide_false by done. done.
  - done.
Qed.
Lemma parse_headers_from_Ok hs lines hs' :
  parse_headers_from hs lines = Ok hs' → Forall wf_header hs → (length hs ≤ 100)%nat →
  Forall wf_header hs' ∧ (length hs' ≤ 100)%nat.
Proof.
  revert hs. induction lines as [|line lines IH]; intros hs; cbn [parse_headers_from]; [by intros [= <-]|].
  intros H Hw Hl. res_inv. bool_inv. eapply IH; [done| |].
  - apply Forall_app. split; [done|]. constructor; [by eapply parse_header_line_Ok|constructor].
  - unfold MAX_HEADERS in *. lia.
Qed.

Record wf_parsed (p : Parsed) : Prop := {
  wfp_version : p_version p = bytes "HTTP/1.1" ∨ p_version p = bytes "HTTP/1.0";
  wfp_headers : Forall wf_header (p_headers p);
  wfp_count : (length (p_headers p) ≤ 100)%nat;
  wfp_target : plain (display_target (rq_target (p_request p)));
  wfp_port : 1 ≤ t_port (rq_target (p_request p)) ≤ 65535;
  wfp_method :
    match rq_method (p_request p) with
    | Connect => True
    | Forward verb path =>
        verb ≠ [] ∧ plain verb ∧ verb ≠ bytes "CONNECT" ∧ SP ∉ path ∧ LF ∉ path ∧ head path = Some "/"%char
    end;
}.
Lemma uppercase_plain l : forallb is_ascii_uppercase l = true → plain l.
Proof.
  rewrite forallb_Forall. intros H. eapply Forall_impl; [exact H|]. intros b Hb%in_range_spec. unfold printable. lia.
Qed.
Lemma split_authority_path rest a p :
  split_authority rest = (a, Some p) → ∀ x, x ∈ p → x ∈ rest.
Proof. intros ->%split_authority_app x Hx. apply elem_of_app. by right. Qed.

Lemma parse_absolute_uri_Ok verb uri r :
  parse_absolute_uri verb uri = Ok r → SP ∉ uri → LF ∉ uri →
  plain (display_target (rq_target r)) ∧ 1 ≤ t_port (rq_target r) ≤ 65535 ∧
  ∃ path, rq_method r = Forward verb path ∧ SP ∉ path ∧ LF ∉ path ∧ head path = Some "/"%char.
Proof.
  unfold parse_absolute_uri. intros H Hsp Hlf. apply bind_Ok in H as ([scheme rest] & Hs & H).
  apply ok_or_Ok in Hs. apply bind_Ok in H as (? & _ & H).
  destruct (split_authority rest) as [authority opath] eqn:Ea.
  apply bind_Ok in H as (? & _ & H). apply bind_Ok in H as (target & Ht & H). injection H as <-.
  apply parse_authority_Ok in Ht as [Hpl Hport]; [|intros ? [= <-]; lia]. split; [done|]. split; [done|].
  eexists. split; [done|].
  assert (∀ x, x ∉ uri → x ≠ "/"%char → x ∉ default ["/"%char] opath) as Hno.
  { intros y Hx Hne. destruct opath as [path|]; [|by intros ->%list_elem_of_singleton].
    intros Hin. apply Hx. eapply split_once_str_elem; [exact Hs|]. right. by eapply split_authority_path. }
  change (default (bytes "/") opath) with (default ["/"%char] opath).
  destruct (default ["/"%char] opath) as [|b path].
  { split_and!; [by intros [=]%list_elem_of_singleton..|done]. }
  assert (SP ∉ b :: path ∧ LF ∉ b :: path) as [? ?] by (split; by apply Hno).
  case_bool_decide; subst; [by split_and!|]. split_and!; [by apply not_elem_of_cons..|done].
Qed.

Lemma parse_origin_form_Ok verb path hs r :
  parse_origin_form verb path hs = Ok r →
  plain (display_target (rq_target r)) ∧ 1 ≤ t_port (rq_target r) ≤ 65535 ∧ rq_method r = Forward verb path.
Proof.
  unfold parse_origin_form. intros H. apply bind_Ok in H as (host & _ & H). apply bind_Ok in H as (t & Ht & H).
  injection H as <-. apply parse_authority_Ok in Ht as [? ?]; [done|]. intros ? [= <-]; lia.
Qed.

Lemma parse_Ok head p : parse head = Ok p → wf_parsed p.
Proof.
  unfold parse. intros H. apply bind_Ok in H as (? & _ & H).
  destruct (split_crlf head) as [|line lines]; [done|]. apply bind_Ok in H as (? & Hlf & H).
  apply fail_if_Ok in Hlf. bool_inv.
  destruct (split_on SP line) as [|verb [|target [|version [|]]]] eqn:Es; try done.
  assert (SP ∉ target ∧ LF ∉ target) as [Hsp Htl].
  { split; intros Hin; eapply (split_on_elem SP line target) in Hin as [? ?]; try done;
      rewrite Es; set_solver. }
  apply bind_Ok in H as (? & Hv & H). apply fail_if_Ok in Hv. apply bind_Ok in H as (? & Hver & H).
  apply fail_if_Ok in Hver. apply bind_Ok in H as (hs & Hhs & H). apply bind_Ok in H as (req & Hreq & H).
  injection H as <-. bool_inv.
  apply parse_headers_from_Ok in Hhs as [Hw Hl]; [|constructor|cbn; lia].
  assert (plain verb) as Hpv by by apply uppercase_plain.
  assert (version = bytes "HTTP/1.1" ∨ version = bytes "HTTP/1.0") as Hve.
  { destruct (decide (version = bytes "HTTP/1.1")); [by left|]. right.
    rewrite bool_decide_false in Hver by done. cbn in Hver. by bool_inv. }
  destruct (bool_decide (verb = bytes "CONNECT")) eqn:Ec; bool_inv.
  { apply bind_Ok in Hreq as (t & Hreq & [= <-]). apply parse_authority_Ok in Hreq as [? ?]; [|done].
    constructor; cbn [p_version p_headers p_request rq_target rq_method]; done. }
  cbn [negb andb] in Hreq. destruct (starts_with (bytes "/") target) eqn:Eo.
  - apply parse_origin_form_Ok in Hreq as (? & ? & Hm).
    apply starts_with_spec in Eo as [k Ek].
    constructor; cbn [p_version p_headers p_request]; try done. rewrite Hm. subst target. by split_and!.
  - apply parse_absolute_uri_Ok in Hreq as (? & ? & path & Hm & ? & ? & ?); [|done..].
    constructor; cbn [p_version p_headers p_request]; try done. rewrite Hm. by split_and!.
Qed.

(** *** The lines of a rebuilt head *)
Definition request_line (p : Parsed) (verb path : list byte) : list byte :=
  verb ++ [SP] ++ path ++ [SP] ++ p_version p.
Definition head_lines (p : Parsed) (verb path host : list byte) (drop : list (list byte)) : list (list byte) :=
  request_line p verb path :: (bytes "Host: " ++ host) :: (header_line <$> surviving drop (p_headers p)).

Lemma build_head_lines p verb path host drop :
  build_head p verb path host drop = concat ((λ l, l ++ crlf) <$> head_lines p verb path host drop).
Proof.
  unfold build_head, head_lines, request_line. cbn [fmap list_fmap concat]. rewrite <-!(assoc_L app).
  do 8 f_equal. by rewrite <-list_fmap_compose.
Qed.

Lemma header_line_LF h : wf_header h → LF ∉ header_line h.
Proof.
  intros [Hn Hv] [Hin|[Hin|Hin]%elem_of_app]%elem_of_app.
  - unfold is_token in Hn. bool_inv.
    match goal with H : forallb _ _ = true |- _ => rewrite forallb_Forall, Forall_forall in H; specialize (H _ Hin) end.
    done.
  - by repeat (apply elem_of_cons in Hin as [?|Hin]); [..|apply elem_of_nil in Hin].
  - assert (existsb is_control (h_value h) = true); [|congruence].
    apply existsb_Exists. by exists LF.
Qed.
Lemma surviving_wf drop hs : Forall wf_header hs → Forall wf_header (surviving drop hs).
Proof.
  unfold surviving. intros H. apply Forall_forall. intros h [Hin _]%list_elem_of_In%List.filter_In.
  apply list_elem_of_In in Hin. by eapply Forall_forall in H.
Qed.
Lemma plain_LF l : plain l → LF ∉ l.
Proof. intros H. apply (plain_elem _ _ H). intros [Hl _]. by apply Hl. Qed.
Lemma plain_SP l : plain l → SP ∉ l.
Proof. intros H. apply (plain_elem _ _ H). intros [Hl _]. by apply Hl. Qed.

Lemma head_lines_LF p verb path host drop :
  wf_parsed p → plain verb → LF ∉ path → LF ∉ host → Forall (λ l, LF ∉ l) (head_lines p verb path host drop).
Proof.
  intros Hw Hv Hp Hh. constructor; [|constructor].
  - unfold request_line. rewrite !not_elem_of_app. split_and!; try done.
    + by apply plain_LF.
    + by intros [=]%list_elem_of_singleton.
    + by intros [=]%list_elem_of_singleton.
    + destruct (wfp_version _ Hw) as [-> | ->]; by apply plain_LF, plain_bytes.
  - rewrite not_elem_of_app. split; [|done]. intros Hin.
    by repeat (apply elem_of_cons in Hin as [?|Hin]); [..|apply elem_of_nil in Hin].
  - apply Forall_fmap. eapply Forall_impl; [apply surviving_wf, Hw|]. apply header_line_LF.
Qed.

Lemma request_line_split p verb path :
  wf_parsed p → plain verb → SP ∉ path → split_on SP (request_line p verb path) = [verb; path; p_version p].
Proof.
  intros Hw Hv Hp. unfold request_line. cbn [app].
  rewrite split_on_app by by apply plain_SP. rewrite split_on_app by done.
  destruct (wfp_version _ Hw) as [-> | ->]; done.
Qed.

Lemma surviving_spec drop hs h :
  h ∈ surviving drop hs ↔
  h ∈ hs ∧ lower (h_name h) ∉ HOP_BY_HOP ∧ starts_with (bytes "proxy-") (lower (h_name h)) = false ∧
  lower (h_name h) ∉ drop ∧ lower (h_name h) ∉ connection_options hs.
Proof.
  unfold surviving, is_dropped. rewrite list_elem_of_In, List.filter_In, <-list_elem_of_In, negb_true_iff, !orb_false_iff,
    !bool_decide_false_iff, not_elem_of_app. tauto.
Qed.

Lemma concat_snoc_lines (ls : list (list byte)) l :
  concat ((λ l, l ++ crlf) <$> ls) ++ l ++ crlf = concat ((λ l, l ++ crlf) <$> (ls ++ [l])).
Proof. rewrite fmap_app, concat_app. cbn. by rewrite app_nil_r. Qed.

(** ** The chunk tracker, one byte at a time *)
Definition is_line_state (s : ChunkState) : bool := match s with Size | Trailer => true | _ => false end.
Definition after_data (remaining : Z) : ChunkState := if remaining =? 0 then Size else Data remaining.

(** The effect of one byte on a tracker that is not done. *)
Definition feed_byte (t : ChunkTracker) (b : byte) : result ParseError unit * ChunkTracker :=
  match ct_state t with
  | Done => (Ok tt, t)
  | Data remaining => (Ok tt, MkTracker (after_data (remaining - 1)) (ct_line t))
  | s =>
      if MAX_CHUNK_LINE <=? Z.of_nat (length (ct_line t)) then (Err (Malformed "chunk line too long"), t)
      else if bool_decide (b = LF)
      then match end_of_line s (ct_line t ++ [b]) with
           | Ok s => (Ok tt, MkTracker s [])
           | Err e => (Err e, MkTracker s [])
           end
      else (Ok tt, MkTracker s (ct_line t ++ [b]))
  end.
Fixpoint feed_bytes (t : ChunkTracker) (i : nat) (l : list byte) : result ParseError nat * ChunkTracker :=
  match l with
  | [] => (Ok i, t)
  | b :: l =>
      if done t then (Ok i, t)
      else match feed_byte t b with
           | (Ok _, t) => feed_bytes t (S i) l
           | (Err e, t) => (Err e, t)
           end
  end.

(** A tracker between calls never counts down from zero. *)
Definition tracker_ok (t : ChunkTracker) : Prop := match ct_state t with Data r => 0 < r | _ => True end.

Lemma end_of_line_ok s l s' : end_of_line s l = Ok s' → is_line_state s = true → tracker_ok (MkTracker s' []).
Proof.
  unfold end_of_line, tracker_ok. intros H Hs. apply bind_Ok in H as (text & _ & H). destruct s; try done; cbn.
  - apply bind_Ok in H as (n & Hn & H). apply ok_or_Ok in Hn. assert (0 ≤ n) as Hn0.
    { assert (∀ l v, 0 ≤ v → hex_parse_digits v l = Some n → 0 ≤ n) as Hd.
      { clear. intros l. induction l as [|c l IH]; intros v Hv; cbn; [by intros [= <-]|].
        destruct (hex_value c) as [d|] eqn:Ed; cbn; [|done]. assert (0 ≤ d).
        { unfold hex_value in Ed. repeat case_match; bool_inv; try done; injection Ed as <-; lia. }
        unfold checked_mul, checked_add. destruct (_ <=? _); cbn; [|done]. destruct (_ <=? _); cbn; [|done].
        apply IH. lia. }
      unfold hex_parse in Hn. destruct (trim_matches _ _) as [|c r]; [done|].
      destruct (c =? 43); [destruct r; [done|]|]; (eapply Hd; [|exact Hn]); lia. }
    destruct (Z.eqb_spec n 0); [by injection H as <-|].
    destruct (checked_add usize_max n 2) eqn:E; [|done]. apply checked_add_Some in E. injection H as <-. lia.
  - injection H as <-. by case_bool_decide.
Qed.
Lemma feed_byte_ok t b t' : tracker_ok t → feed_byte t b = (Ok tt, t') → tracker_ok t'.
Proof.
  destruct t as [s line]. unfold tracker_ok, feed_byte. cbn [ct_state ct_line]. intros Ht.
  assert (is_line_state s = true →
    (if MAX_CHUNK_LINE <=? Z.of_nat (length line) then (Err (Malformed "chunk line too long"), MkTracker s line)
     else if bool_decide (b = LF)
     then match end_of_line s (line ++ [b]) with
          | Ok s => (Ok tt, MkTracker s []) | Err e => (Err e, MkTracker s []) end
     else (Ok tt, MkTracker s (line ++ [b]))) = (Ok tt, t') →
    match ct_state t' with Data r => 0 < r | _ => True end) as Hline.
  { intros Hs. destruct (_ <=? _); [done|]. case_bool_decide.
    - destruct (end_of_line _ _) eqn:E; [|done]. intros [= <-]. by eapply end_of_line_ok in E.
    - intros [= <-]. by destruct s. }
  destruct s; try by apply Hline.
  - intros [= <-]. cbn. unfold after_data. destruct (Z.eqb_spec (remaining - 1) 0); [done|lia].
  - by intros [= <-].
Qed.

(** Chunk data is skipped as a block. *)
Lemma feed_bytes_data n r line i l :
  0 < r → Z.of_nat n ≤ r → (n ≤ length l)%nat →
  feed_bytes (MkTracker (Data r) line) i l = feed_bytes (MkTracker (after_data (r - Z.of_nat n)) line) (i + n) (drop n l).
Proof.
  revert r i l. induction n as [|n IH]; intros r i l Hr Hn Hl.
  { rewrite Z.sub_0_r, Nat.add_0_r, drop_0. unfold after_data. destruct (Z.eqb_spec r 0); [lia|done]. }
  destruct l as [|b l]; [cbn in Hl; lia|]. cbn [feed_bytes drop]. unfold done at 1. cbn [ct_state].
  rewrite (bool_decide_false (_ = Done)) by done. unfold feed_byte at 1. cbn [ct_state ct_line].
  unfold after_data at 1. destruct (Z.eqb_spec (r - 1) 0) as [E|E].
  - assert (n = O) as -> by lia. rewrite drop_0. unfold after_data. replace (r - Z.of_nat 1) with 0 by lia.
    rewrite Nat.add_1_r. done.
  - rewrite (IH (r - 1) (S i) l) by (cbn in Hl; lia).
    replace (r - 1 - Z.of_nat n) with (r - Z.of_nat (S n)) by lia. by replace (S i + n)%nat with (i + S n)%nat by lia.
Qed.

(** The loop ends within its fuel, and does what the bytes one by one do. *)
Lemma feed_loop_bytes fuel t i l :
  tracker_ok t → (2 * length l < fuel)%nat → feed_loop fuel t i l = Some (feed_bytes t i l).
Proof.
  revert t i l. induction fuel as [|fuel IH]; intros t i l Ht Hf; [lia|].
  destruct l as [|b l]; [done|]. cbn [feed_loop]. destruct t as [s line]. cbn [ct_state ct_line].
  destruct s as [|r| |].
  - cbn [feed_bytes]. unfold done, feed_byte. cbn [ct_state ct_line]. rewrite (bool_decide_false (_ = Done)) by done.
    destruct (_ <=? _); [done|]. cbn in Hf. case_bool_decide; [|apply IH; [exact I|lia]].
    destruct (end_of_line _ _) eqn:E; [|done]. apply IH; [by eapply end_of_line_ok|lia].
  - unfold tracker_ok in Ht. cbn in Ht. set (n := Z.to_nat (r `min` Z.of_nat (length (b :: l)))).
    assert (1 ≤ n ≤ length (b :: l))%nat as Hn by (cbn [length] in *; lia).
    rewrite (feed_bytes_data n) by lia. apply IH; [|rewrite length_drop; lia].
    unfold tracker_ok, after_data. cbn [ct_state]. destruct (Z.eqb_spec (r - Z.of_nat n) 0); [done|lia].
  - cbn [feed_bytes]. unfold done, feed_byte. cbn [ct_state ct_line]. rewrite (bool_decide_false (_ = Done)) by done.
    destruct (_ <=? _); [done|]. cbn in Hf. case_bool_decide; [|apply IH; [exact I|lia]].
    destruct (end_of_line _ _) eqn:E; [|done]. apply IH; [by eapply end_of_line_ok|lia].
  - cbn [feed_bytes]. unfold done. cbn [ct_state]. by rewrite (bool_decide_true (Done = Done)).
Qed.

Lemma feed_bytes_app t i a b :
  feed_bytes t i (a ++ b) =
  match feed_bytes t i a with
  | (Ok n, t') => if done t' then (Ok n, t') else feed_bytes t' n b
  | (Err e, t') => (Err e, t')
  end.
Proof.
  revert t i. induction a as [|x a IH]; intros t i; cbn [app feed_bytes].
  - destruct b; cbn [feed_bytes]; destruct (done t) eqn:E; done.
  - destruct (done t) eqn:E; [by rewrite E|]. destruct (feed_byte t x) as [[[]|e] t']; [|done]. apply IH.
Qed.
Lemma feed_bytes_done t i l : done t = true → feed_bytes t i l = (Ok i, t).
Proof. intros H. destruct l; cbn; [done|by rewrite H]. Qed.
Lemma feed_bytes_tracker_ok t i l n t' : tracker_ok t → feed_bytes t i l = (Ok n, t') → tracker_ok t'.
Proof.
  revert t i. induction l as [|b l IH]; intros t i Ht; cbn; [by intros [= _ <-]|].
  destruct (done t); [by intros [= _ <-]|]. destruct (feed_byte t b) as [[[]|e] t1] eqn:Eb; [|done].
  apply IH. by eapply feed_byte_ok.
Qed.
Lemma feed_bytes_shift t i l :
  feed_bytes t i l = ((λ n, (i + n)%nat) <$> (feed_bytes t 0 l).1, (feed_bytes t 0 l).2).
Proof.
  assert (∀ k, feed_bytes t (i + k) l = ((λ n, (i + n)%nat) <$> (feed_bytes t k l).1, (feed_bytes t k l).2)) as H.
  { revert t. induction l as [|b l IH]; intros t k; cbn; [done|]. destruct (done t); [done|].
    destruct (feed_byte t b) as [[[]|e] t1]; [|done]. rewrite <-Nat.add_succ_r. apply IH. }
  specialize (H O). by rewrite Nat.add_0_r in H.
Qed.
Lemma feed_bytes_consumed t i l n t' :
  feed_bytes t i l = (Ok n, t') → (i ≤ n ≤ i + length l)%nat ∧ (done t' = false → n = i + length l)%nat.
Proof.
  revert t i. induction l as [|b l IH]; intros t i; cbn [feed_bytes length]; [intros [= <- <-]; lia|].
  destruct (done t) eqn:E; [intros [= <- <-]; split; [lia|congruence]|].
  destruct (feed_byte t b) as [[[]|e] t1]; [|done]. intros [H1 H2]%IH. split; [lia|]. intros H%H2. lia.
Qed.

(** ** Size lines *)
Lemma trim_start_all {A} (p : A → bool) l r : Forall (λ x, p x = true) l → trim_start p (l ++ r) = trim_start p r.
Proof. induction 1 as [|x l Hx _ IH]; cbn; [done|]. by rewrite Hx. Qed.
Lemma trim_start_stop {A} (p : A → bool) l x r :
  p x = false → trim_start p (l ++ x :: r) = trim_start p l ++ x :: r.
Proof. intros Hx. induction l as [|y l IH]; cbn; [by rewrite Hx|]. by destruct (p y). Qed.
Lemma trim_start_split {A} (p : A → bool) l :
  ∃ k, l = k ++ trim_start p l ∧ Forall (λ x, p x = true) k.
Proof.
  induction l as [|x l (k & E & Hk)]; cbn; [by exists []|]. destruct (p x) eqn:Hx; [|by exists []].
  exists (x :: k). split; [by rewrite E at 1|by constructor].
Qed.
Lemma trim_end_split {A} (p : A → bool) l : ∃ k, l = trim_end p l ++ k ∧ Forall (λ x, p x = true) k.
Proof.
  destruct (trim_start_split p (reverse l)) as (k & E & Hk). exists (reverse k). split.
  - unfold trim_end. rewrite <-reverse_app, <-E. by rewrite reverse_involutive.
  - by apply Forall_reverse.
Qed.
Lemma trim_end_stop {A} (p : A → bool) l x r :
  p x = false → trim_end p (l ++ x :: r) = l ++ x :: trim_end p r.
Proof.
  intros Hx. unfold trim_end. rewrite reverse_app, reverse_cons, <-(assoc_L app). cbn [app].
  rewrite trim_start_stop by done.
  by rewrite reverse_app, reverse_cons, reverse_involutive, <-(assoc_L app).
Qed.
Lemma trim_end_all {A} (p : A → bool) l : trim_end p l = [] ↔ Forall (λ x, p x = true) l.
Proof.
  split.
  - intros E. destruct (trim_end_split p l) as (k & -> & Hk). by rewrite E.
  - intros Hl. unfold trim_end. rewrite <-(app_nil_r (reverse l)), trim_start_all; [done|]. by apply Forall_reverse.
Qed.
Lemma trim_matches_core {A} (p : A → bool) a m b :
  m ≠ [] → Forall (λ x, p x = true) a → Forall (λ x, p x = false) m → Forall (λ x, p x = true) b →
  trim_matches p (a ++ m ++ b) = m.
Proof.
  intros Hne Ha Hm Hb. unfold trim_matches. rewrite trim_start_all by done.
  assert (trim_start p (m ++ b) = m ++ b) as ->.
  { destruct Hm as [|x m Hx _]; [done|]. cbn. by rewrite Hx. }
  destruct (exists_last Hne) as (m' & x & ->). apply Forall_app in Hm as [_ Hx]. inversion_clear Hx as [|?? Hx' _].
  rewrite <-(assoc_L app). cbn [app]. rewrite trim_end_stop by done.
  by rewrite (proj2 (trim_end_all p b) Hb).
Qed.
Lemma trim_matches_split {A} (p : A → bool) l :
  ∃ a b, l = a ++ trim_matches p l ++ b ∧ Forall (λ x, p x = true) a ∧ Forall (λ x, p x = true) b.
Proof.
  destruct (trim_start_split p l) as (a & Ea & Ha). destruct (trim_end_split p (trim_start p l)) as (b & Eb & Hb).
  exists a, b. split_and!; [|done|done]. unfold trim_matches. by rewrite <-Eb.
Qed.

Lemma before_semicolon_split l : ∃ e, l = before_semicolon l ++ e ∧ (e = [] ∨ ∃ x, e = 59 :: x).
Proof.
  induction l as [|c l (e & E & He)]; cbn; [exists []; auto|]. destruct (Z.eqb_spec c 59) as [->|].
  - exists (59 :: l). eauto.
  - exists e. cbn. split; [congruence|done].
Qed.
Lemma before_semicolon_stop l e : Forall (λ c, c ≠ 59) l → before_semicolon (l ++ 59 :: e) = l.
Proof. induction 1 as [|c l Hc _ IH]; cbn; [done|]. rewrite (proj2 (Z.eqb_neq _ _) Hc). by f_equal. Qed.
Lemma before_semicolon_none l : Forall (λ c, c ≠ 59) l → before_semicolon l = l.
Proof. induction 1 as [|c l Hc _ IH]; cbn; [done|]. rewrite (proj2 (Z.eqb_neq _ _) Hc). by f_equal. Qed.

(** The number the hexadecimal digits [ds] write. *)
Definition hex_number (ds : list Z) : Z := foldl (λ v d, v * 16 + d) 0 ds.

Lemma hex_value_range c d : hex_value c = Some d → 0 ≤ d < 16.
Proof. unfold hex_value. repeat case_match; intros [= <-]; bool_inv; lia. Qed.
Lemma hex_fold_mono v ds : 0 ≤ v → Forall (λ d, 0 ≤ d < 16) ds → v ≤ foldl (λ v d, v * 16 + d) v ds.
Proof.
  intros Hv Hds. revert v Hv. induction Hds as [|d ds Hd _ IH]; intros v Hv; cbn; [lia|].
  specialize (IH (v * 16 + d)). lia.
Qed.
Lemma hex_digits_range l ds : mapM hex_value l = Some ds → Forall (λ d, 0 ≤ d < 16) ds.
Proof.
  intros H%mapM_Some. induction H as [|c d l ds Hc _ IH]; constructor; [|done]. by eapply hex_value_range.
Qed.
Lemma hex_parse_digits_spec v l n :
  0 ≤ v ≤ usize_max →
  hex_parse_digits v l = Some n ↔
  ∃ ds, mapM hex_value l = Some ds ∧ n = foldl (λ v d, v * 16 + d) v ds ∧ n ≤ usize_max.
Proof.
  revert v. induction l as [|c l IH]; intros v Hv; cbn.
  { split; [intros [= <-]; exists []; split_and!; (done || lia)|]. by intros (ds & [= <-] & -> & _). }
  destruct (hex_value c) as [d|] eqn:Ec; cbn; [|split; [done|by intros (? & ? & _)]].
  pose proof (hex_value_range _ _ Ec) as Hd. unfold checked_mul, checked_add.
  destruct (Z.leb_spec (v * 16) usize_max); cbn; [destruct (Z.leb_spec (v * 16 + d) usize_max); cbn|].
  - rewrite IH by lia. split.
    + intros (ds & -> & -> & Hn). exists (d :: ds). done.
    + intros (ds & Hds & -> & Hn). destruct (mapM hex_value l) as [ds'|]; [|done]. cbn in Hds. injection Hds as <-. eauto.
  - split; [done|]. intros (ds & Hds & -> & Hn). destruct (mapM hex_value l) as [ds'|] eqn:El; [|done].
    injection Hds as <-. cbn in Hn. pose proof (hex_fold_mono (v * 16 + d) ds') as Hm.
    apply hex_digits_range in El. specialize (Hm ltac:(lia) El). lia.
  - split; [done|]. intros (ds & Hds & -> & Hn). destruct (mapM hex_value l) as [ds'|] eqn:El; [|done].
    injection Hds as <-. cbn in Hn. pose proof (hex_fold_mono (v * 16 + d) ds') as Hm.
    apply hex_digits_range in El. specialize (Hm ltac:(lia) El). lia.
Qed.
Lemma hex_parse_spec l n :
  hex_parse l = Some n ↔
  ∃ sign digits ds, l = sign ++ digits ∧ (sign = [] ∨ sign = [43]) ∧ digits ≠ [] ∧
    mapM hex_value digits = Some ds ∧ n = hex_number ds ∧ n ≤ usize_max.
Proof.
  unfold hex_parse. split.
  - destruct l as [|c rest]; [done|]. destruct (Z.eqb_spec c 43) as [->|].
    + destruct rest as [|d rest]; [done|]. intros (ds & Hds & -> & Hn)%hex_parse_digits_spec; [|unfold usize_max, u64_max; lia].
      exists [43], (d :: rest), ds. split_and!; auto; done.
    + intros (ds & Hds & -> & Hn)%hex_parse_digits_spec; [|unfold usize_max, u64_max; lia].
      exists [], (c :: rest), ds. split_and!; auto; done.
  - intros (sign & digits & ds & -> & [-> | ->] & Hne & Hds & -> & Hn); cbn.
    + destruct digits as [|c rest]; [done|]. destruct (Z.eqb_spec c 43) as [->|]; [done|].
      apply hex_parse_digits_spec; [unfold usize_max, u64_max; lia|]. eauto.
    + destruct digits as [|c rest]; [done|]. apply hex_parse_digits_spec; [unfold usize_max, u64_max; lia|]. eauto.
Qed.

(** ** The language of chunked bodies

    A line ends with its [LF], has at most [MAX_CHUNK_LINE] bytes with it and is UTF-8. A size
    line is a hexadecimal number, which may have a plus sign before it and white space around
    it, and an extension from a semicolon on. A chunk is a size line of some [n > 0], [n] bytes
    and two more, where a [CRLF] belongs; a body is some chunks, a size line of zero and
    trailer lines up to the first blank one. *)
Record is_line (l : list byte) : Prop := {
  il_text : ∃ text, l = text ++ [LF] ∧ LF ∉ text;
  il_length : Z.of_nat (length l) ≤ MAX_CHUNK_LINE;
}.
Definition size_line (l : list byte) (n : Z) : Prop :=
  ∃ space sign digits space' extension ds,
    from_utf8 l = Some (space ++ (sign ++ digits) ++ space' ++ extension) ∧
    Forall (λ c, is_whitespace c = true) space ∧ Forall (λ c, is_whitespace c = true) space' ∧
    (sign = [] ∨ sign = [43]) ∧ digits ≠ [] ∧ mapM hex_value digits = Some ds ∧
    (extension = [] ∨ ∃ text, extension = 59 :: text) ∧ n = hex_number ds ∧ n ≤ usize_max.
(** Nothing but carriage returns and the line feed. *)
Definition blank_text (text : list Z) : Prop := Forall (λ c, c = 13 ∨ c = 10) text.
Inductive trailers : list byte → Prop :=
| trailers_end l text : is_line l → from_utf8 l = Some text → blank_text text → trailers l
| trailers_more l text ls :
    is_line l → from_utf8 l = Some text → ¬ blank_text text → trailers ls → trailers (l ++ ls).
Inductive chunked_body : list byte → Prop :=
| body_last l ls : is_line l → size_line l 0 → trailers ls → chunked_body (l ++ ls)
| body_chunk l data eol rest :
    is_line l → size_line l (Z.of_nat (length data)) → (0 < length data)%nat →
    Z.of_nat (length data) + 2 ≤ usize_max → length eol = 2%nat → chunked_body rest →
    chunked_body (l ++ data ++ eol ++ rest).

(** What [end_of_line] makes of a line is what the grammar says of it. *)
Lemma crlf_whitespace c : (c =? 13) || (c =? 10) = true → is_whitespace c = true.
Proof. intros [->%Z.eqb_eq| ->%Z.eqb_eq]%orb_true_iff; reflexivity. Qed.
Lemma digit_plain c d : hex_value c = Some d → is_whitespace c = false ∧ c ≠ 59 ∧ (c =? 13) || (c =? 10) = false.
Proof.
  intros H. assert (48 ≤ c ≤ 57 ∨ 97 ≤ c ≤ 102 ∨ 65 ≤ c ≤ 70) as Hc.
  { unfold hex_value in H. repeat case_match; try done; bool_inv; lia. }
  split_and!; [|lia|lia]. unfold is_whitespace. rewrite !orb_false_iff. split_and!; [lia| |lia].
  apply bool_decide_eq_false. rewrite !elem_of_cons, elem_of_nil. lia.
Qed.
Lemma number_plain sign digits ds :
  sign = [] ∨ sign = [43] → mapM hex_value digits = Some ds →
  Forall (λ c, is_whitespace c = false ∧ c ≠ 59 ∧ (c =? 13) || (c =? 10) = false) (sign ++ digits).
Proof.
  intros Hs H%mapM_Some. apply Forall_app. split.
  - destruct Hs as [-> | ->]; constructor; [|done]. by vm_compute.
  - induction H as [|c d l ds' Hc _ IH]; constructor; [by eapply digit_plain|done].
Qed.
Lemma whitespace_plain l : Forall (λ c, is_whitespace c = true) l → Forall (λ c, c ≠ 59) l.
Proof. intros H. eapply Forall_impl; [exact H|]. intros c Hc ->. by vm_compute in Hc. Qed.
Lemma size_text_spec l text n :
  from_utf8 l = Some text →
  hex_parse (trim_matches is_whitespace (before_semicolon (trim_end (λ c, (c =? 13) || (c =? 10)) text))) = Some n ↔
  size_line l n.
Proof.
  intros Hl. set (p := λ c, (c =? 13) || (c =? 10)). split.
  - intros (sign & digits & ds & E & Hs & Hne & Hds & -> & Hn)%hex_parse_spec.
    destruct (trim_end_split p text) as (k & Ek & Hk).
    destruct (before_semicolon_split (trim_end p text)) as (e & Ee & He).
    destruct (trim_matches_split is_whitespace (before_semicolon (trim_end p text))) as (a & b & Eab & Ha & Hb).
    rewrite E in Eab. rewrite Eab in Ee. rewrite Ee in Ek. destruct He as [-> |[x ->]].
    + exists a, sign, digits, (b ++ k), [], ds. rewrite Hl, Ek. split_and!; auto.
      * by rewrite !app_nil_r, <-!(assoc_L app).
      * apply Forall_app. split; [done|]. eapply Forall_impl; [exact Hk|]. intros c. apply crlf_whitespace.
    + exists a, sign, digits, b, (59 :: x ++ k), ds. rewrite Hl, Ek. split_and!; eauto.
      by rewrite <-!(assoc_L app).
  - intros (a & sign & digits & b & e & ds & E & Ha & Hb & Hs & Hne & Hds & He & -> & Hn).
    rewrite Hl in E. injection E as ->. pose proof (number_plain _ _ _ Hs Hds) as Hp.
    assert (sign ++ digits ≠ []) as Hne' by (by intros [_ ?]%app_nil).
    assert (∀ b', Forall (λ c, is_whitespace c = true) b' →
              hex_parse (trim_matches is_whitespace (a ++ (sign ++ digits) ++ b')) = Some (hex_number ds)) as Hcore.
    { intros b' Hb'. rewrite trim_matches_core; [|done|done| |done].
      - apply hex_parse_spec. by exists sign, digits, ds.
      - eapply Forall_impl; [exact Hp|]. by intros c []. }
    assert (∀ b', Forall (λ c, is_whitespace c = true) b' → Forall (λ c, c ≠ 59) (a ++ (sign ++ digits) ++ b')) as Hsemi.
    { intros b' Hb'. apply Forall_app. split; [by apply whitespace_plain|].
      apply Forall_app. split; [|by apply whitespace_plain].
      eapply Forall_impl; [exact Hp|]. by intros c (_ & ? & _). }
    destruct He as [-> |[x ->]].
    + rewrite app_nil_r.
      assert (trim_end p (a ++ (sign ++ digits) ++ b) = a ++ (sign ++ digits) ++ trim_end p b) as ->.
      { destruct (exists_last Hne') as (m & c & Em). rewrite Em in Hp |- *. apply Forall_app in Hp as [_ Hp].
        inversion_clear Hp as [|?? (_ & _ & Hc) _].
        replace (a ++ (m ++ [c]) ++ b) with ((a ++ m) ++ c :: b) by (by rewrite <-!(assoc_L app)).
        rewrite trim_end_stop by done. by rewrite <-!(assoc_L app). }
      assert (Forall (λ c, is_whitespace c = true) (trim_end p b)) as Hb'.
      { destruct (trim_end_split p b) as (k & Ek & _). rewrite Ek, Forall_app in Hb. by destruct Hb. }
      rewrite before_semicolon_none by auto. by apply Hcore.
    + replace (a ++ (sign ++ digits) ++ b ++ 59 :: x) with ((a ++ (sign ++ digits) ++ b) ++ 59 :: x)
        by (by rewrite <-!(assoc_L app)).
      rewrite trim_end_stop, before_semicolon_stop by auto. by apply Hcore.
Qed.

Lemma size_line_nonneg l n : size_line l n → 0 ≤ n.
Proof.
  intros (? & ? & digits & ? & ? & ds & _ & _ & _ & _ & _ & Hds & _ & -> & _).
  by apply hex_fold_mono; [|by eapply hex_digits_range].
Qed.
Lemma end_of_line_last l : end_of_line Size l = Ok Trailer ↔ size_line l 0.
Proof.
  unfold end_of_line. destruct (from_utf8 l) as [text|] eqn:E; cbn.
  2: { split; [done|]. intros (? & ? & ? & ? & ? & ? & E' & _). congruence. }
  rewrite <-(size_text_spec l text 0 E). destruct (hex_parse _) as [n|]; cbn; [|done].
  destruct (Z.eqb_spec n 0) as [->|]; [done|]. destruct (checked_add _ _ _); naive_solver.
Qed.
Lemma end_of_line_chunk l r :
  end_of_line Size l = Ok (Data r) ↔ ∃ n, size_line l n ∧ n ≠ 0 ∧ r = n + 2 ∧ n + 2 ≤ usize_max.
Proof.
  unfold end_of_line. destruct (from_utf8 l) as [text|] eqn:E; cbn.
  2: { split; [done|]. intros (n & (? & ? & ? & ? & ? & ? & E' & _) & _). congruence. }
  setoid_rewrite <-(size_text_spec l text _ E). destruct (hex_parse _) as [n|]; cbn; [|naive_solver].
  destruct (Z.eqb_spec n 0) as [->|Hn]; [naive_solver|]. unfold checked_add.
  destruct (Z.leb_spec (n + 2) usize_max); [|split; [done|]; intros (n' & [= <-] & ?); lia].
  split; [intros [= <-]; eauto|]. by intros (n' & [= <-] & _ & -> & _).
Qed.
Lemma end_of_line_trailer l s :
  end_of_line Trailer l = Ok s ↔
  ∃ text, from_utf8 l = Some text ∧ (blank_text text ∧ s = Done ∨ ¬ blank_text text ∧ s = Trailer).
Proof.
  unfold end_of_line. destruct (from_utf8 l) as [text|]; cbn; [|naive_solver].
  assert (trim_end (λ c, (c =? 13) || (c =? 10)) text = [] ↔ blank_text text) as Hb.
  { rewrite trim_end_all. apply Forall_iff. intros c. lia. }
  case_bool_decide as Ht; rewrite Hb in Ht; naive_solver.
Qed.

Lemma feed_byte_line s pre b :
  is_line_state s = true →
  done (MkTracker s pre) = false ∧
  feed_byte (MkTracker s pre) b =
    (if MAX_CHUNK_LINE <=? Z.of_nat (length pre) then (Err (Malformed "chunk line too long"), MkTracker s pre)
     else if bool_decide (b = LF)
     then match end_of_line s (pre ++ [b]) with
          | Ok s' => (Ok tt, MkTracker s' []) | Err e => (Err e, MkTracker s []) end
     else (Ok tt, MkTracker s (pre ++ [b]))).
Proof. intros Hs. split; [|by destruct s]. unfold done. apply bool_decide_false. by destruct s. Qed.
Lemma feed_bytes_text s pre i text rest :
  is_line_state s = true → LF ∉ text → Z.of_nat (length pre + length text) ≤ MAX_CHUNK_LINE →
  feed_bytes (MkTracker s pre) i (text ++ rest) = feed_bytes (MkTracker s (pre ++ text)) (i + length text) rest.
Proof.
  intros Hs. revert pre i. induction text as [|b text IH]; intros pre i Hl Hlen.
  { by rewrite app_nil_r, Nat.add_0_r. }
  apply not_elem_of_cons in Hl as [Hb Hl]. cbn [app feed_bytes length] in *.
  destruct (feed_byte_line s pre b Hs) as [-> ->].
  rewrite (proj2 (Z.leb_gt _ _)), (bool_decide_false (b = LF)) by (done || lia).
  rewrite IH; [|done|rewrite length_app; cbn; lia]. rewrite <-(assoc_L app). cbn. f_equal. lia.
Qed.
Lemma feed_bytes_line s i l rest :
  is_line_state s = true → is_line l →
  feed_bytes (MkTracker s []) i (l ++ rest) =
  match end_of_line s l with
  | Ok s' => feed_bytes (MkTracker s' []) (i + length l) rest
  | Err e => (Err e, MkTracker s [])
  end.
Proof.
  intros Hs [(text & -> & Hl) Hlen]. rewrite length_app in *. cbn [length] in *.
  rewrite <-(assoc_L app), feed_bytes_text by (cbn; (done || lia)). cbn [app feed_bytes].
  destruct (feed_byte_line s text LF Hs) as [-> ->].
  rewrite (proj2 (Z.leb_gt _ _)), (bool_decide_true (LF = LF)) by (done || lia).
  replace (i + (length text + 1))%nat with (S (i + length text)) by lia.
  by destruct (end_of_line _ _).
Qed.

Lemma feed_trailers l i rest :
  trailers l → feed_bytes (MkTracker Trailer []) i (l ++ rest) = (Ok (i + length l)%nat, MkTracker Done []).
Proof.
  intros Hl. revert i. induction Hl as [l text Hl He Hb|l text ls Hl He Hb _ IH]; intros i.
  - assert (end_of_line Trailer l = Ok Done) as E by (apply end_of_line_trailer; eauto).
    by rewrite feed_bytes_line, E, feed_bytes_done.
  - assert (end_of_line Trailer l = Ok Trailer) as E by (apply end_of_line_trailer; eauto).
    rewrite <-(assoc_L app), feed_bytes_line, E by done. rewrite IH, length_app. do 2 f_equal. lia.
Qed.
Lemma end_of_line_data l n : end_of_line Size l = Ok (Data n) → 0 < n.
Proof. intros H. by apply (end_of_line_ok Size l (Data n)) in H. Qed.
Lemma feed_body l i rest :
  chunked_body l → feed_bytes (MkTracker Size []) i (l ++ rest) = (Ok (i + length l)%nat, MkTracker Done []).
Proof.
  intros Hl. revert i. induction Hl as [l ls Hl He Ht|l data eol more Hl He Hpos Hmax Heol _ IH]; intros i.
  - apply end_of_line_last in He. rewrite <-(assoc_L app), feed_bytes_line, He by done. rewrite feed_trailers by done.
    rewrite length_app. do 2 f_equal. lia.
  - assert (end_of_line Size l = Ok (Data (Z.of_nat (length (data ++ eol))))) as He'.
    { apply end_of_line_chunk. rewrite length_app. exists (Z.of_nat (length data)). split_and!; (done || lia). }
    rewrite (assoc_L app data), <-!(assoc_L app l), feed_bytes_line, He' by done.
    rewrite <-(assoc_L app (data ++ eol)).
    rewrite (feed_bytes_data (length (data ++ eol))) by (rewrite ?length_app; lia). rewrite Z.sub_diag.
    rewrite drop_app_length' by done. cbn. rewrite IH, !length_app. do 2 f_equal. lia.
Qed.

(** Conversely, a tracker that is done has read such a body. *)
Lemma feed_line_inv s pre i l n t :
  is_line_state s = true → LF ∉ pre → feed_bytes (MkTracker s pre) i l = (Ok n, t) → done t = true →
  ∃ text rest s', l = text ++ LF :: rest ∧ is_line (pre ++ text ++ [LF]) ∧
    end_of_line s (pre ++ text ++ [LF]) = Ok s' ∧
    feed_bytes (MkTracker s' []) (i + length text + 1) rest = (Ok n, t).
Proof.
  intros Hs. revert pre i. induction l as [|b l IH]; intros pre i Hpre; cbn [feed_bytes].
  { intros [= <- <-]. unfold done. cbn. intros H. bool_inv. by subst s. }
  destruct (feed_byte_line s pre b Hs) as [-> ->].
  destruct (Z.leb_spec MAX_CHUNK_LINE (Z.of_nat (length pre))); [done|].
  destruct (decide (b = LF)) as [->|Hb].
  - rewrite (bool_decide_true (LF = LF)) by done. intros Hf Hd. exists [], l.
    destruct (end_of_line s (pre ++ [LF])) as [s'|] eqn:E; [|done].
    exists s'. split_and!; [done| |done|].
    + constructor; [by exists pre|]. rewrite length_app. cbn. lia.
    + cbn. by rewrite Nat.add_0_r, Nat.add_1_r.
  - rewrite (bool_decide_false (b = LF)) by done. intros Hf Hd.
    destruct (IH (pre ++ [b]) (S i)) as (text & rest & s' & -> & Hl & He & Hr); [set_solver|done|done|].
    exists (b :: text), rest, s'. rewrite <-!(assoc_L app) in *. split_and!; [done..|].
    rewrite <-Hr. cbn. f_equal. lia.
Qed.
Lemma feed_data_inv r i l n t :
  0 < r → feed_bytes (MkTracker (Data r) []) i l = (Ok n, t) → done t = true →
  ∃ data rest, l = data ++ rest ∧ Z.of_nat (length data) = r ∧
    feed_bytes (MkTracker Size []) (i + length data) rest = (Ok n, t).
Proof.
  intros Hr Hf Hd. set (k := Z.to_nat (r `min` Z.of_nat (length l))).
  rewrite (feed_bytes_data k) in Hf by lia. destruct (decide (r ≤ Z.of_nat (length l))) as [Hle|Hgt].
  - exists (take k l), (drop k l). rewrite take_drop, length_take, Nat.min_l by lia. split_and!; [done|lia|].
    replace (r - Z.of_nat k) with 0 in Hf by lia. done.
  - exfalso. rewrite drop_ge in Hf by lia. injection Hf as <- <-. unfold done, after_data in Hd. cbn in Hd.
    destruct (_ =? _); bool_inv; done.
Qed.
Lemma feed_trailers_inv l i n t :
  feed_bytes (MkTracker Trailer []) i l = (Ok n, t) → done t = true →
  ∃ ts rest, l = ts ++ rest ∧ trailers ts ∧ n = (i + length ts)%nat.
Proof.
  revert i. induction l as [l IH] using (well_founded_induction (Wf_nat.well_founded_ltof _ length)).
  intros i Hf Hd. destruct (feed_line_inv Trailer [] _ _ _ _ eq_refl (not_elem_of_nil _) Hf Hd)
    as (text & rest & s & -> & Hl & He & Hr). cbn [app] in Hl, He.
  apply end_of_line_trailer in He as (u & Hu & [[Hblank ->]|[Hblank ->]]).
  - rewrite feed_bytes_done in Hr by done. injection Hr as <- <-. exists (text ++ [LF]), rest.
    split_and!; [by rewrite <-(assoc_L app)|by eapply trailers_end|]. rewrite length_app. cbn. lia.
  - destruct (IH rest) with (i := (i + length text + 1)%nat) as (ts & rest' & -> & Ht & ->); [|done|done|].
    { unfold Wf_nat.ltof. rewrite length_app. cbn. lia. }
    exists ((text ++ [LF]) ++ ts), rest'. split_and!; [by rewrite <-!(assoc_L app)|by eapply trailers_more|].
    rewrite !length_app. cbn. lia.
Qed.
Lemma feed_body_inv l i n t :
  feed_bytes (MkTracker Size []) i l = (Ok n, t) → done t = true →
  ∃ body rest, l = body ++ rest ∧ chunked_body body ∧ n = (i + length body)%nat.
Proof.
  revert i. induction l as [l IH] using (well_founded_induction (Wf_nat.well_founded_ltof _ length)).
  intros i Hf Hd. destruct (feed_line_inv Size [] _ _ _ _ eq_refl (not_elem_of_nil _) Hf Hd)
    as (text & rest & s & -> & Hl & He & Hr). cbn [app] in Hl, He.
  assert (s = Trailer ∨ ∃ r, s = Data r) as [-> |[r ->]].
  { unfold end_of_line in He. apply bind_Ok in He as (x & _ & He). apply bind_Ok in He as (k & _ & He).
    destruct (k =? 0); [injection He as <-; auto|]. destruct (checked_add _ _ _); [|done]. injection He as <-. eauto. }
  - destruct (feed_trailers_inv _ _ _ _ Hr Hd) as (ts & rest' & -> & Ht & ->).
    exists ((text ++ [LF]) ++ ts), rest'. split_and!; [by rewrite <-!(assoc_L app)|apply body_last; [done|by apply end_of_line_last|done]|].
    rewrite !length_app. cbn. lia.
  - pose proof (end_of_line_data _ _ He) as Hpos.
    destruct (feed_data_inv _ _ _ _ _ Hpos Hr Hd) as (data & rest' & -> & Hlen & Hr').
    destruct (IH rest') with (i := (i + length text + 1 + length data)%nat) as (body & rest'' & -> & Hb & ->); [|done|done|].
    { unfold Wf_nat.ltof. rewrite !length_app. cbn. rewrite length_app. lia. }
    apply end_of_line_chunk in He as (k & Hk & Hk0 & -> & Hmax). pose proof (size_line_nonneg _ _ Hk) as Hnn.
    set (m := Z.to_nat k). assert (length (take m data) = m) as Hm by (rewrite length_take; lia).
    exists ((text ++ [LF]) ++ take m data ++ drop m data ++ body), rest''. split_and!.
    + rewrite (assoc_L app (take m data)), take_drop. by rewrite <-!(assoc_L app).
    + apply body_chunk; rewrite ?Hm; [done| |lia|lia|rewrite length_drop; lia|done]. unfold m. by rewrite Z2Nat.id.
    + rewrite (assoc_L app (take m data)), take_drop, !length_app. cbn. lia.
Qed.
Lemma split_crlf_closed (ls : list (list byte)) l :
  Forall (λ l, LF ∉ l) ls → LF ∉ l →
  split_crlf (concat ((λ l, l ++ crlf) <$> ls) ++ l ++ crlf ++ crlf) = ls ++ [l; []; []].
Proof.
  intros Hls Hl. rewrite (assoc_L app l), (assoc_L app (concat _)), concat_snoc_lines.
  pose proof (concat_snoc_lines (ls ++ [l]) []) as E. cbn [app] in E. rewrite E, split_crlf_lines.
  - by rewrite <-!(assoc_L app).
  - rewrite !Forall_app. split_and!; [done|by constructor|]. by constructor; [apply not_elem_of_nil|].
Qed.

(** ** Properties *)

(** The head a client sends is the same however its bytes arrive: what [read_head] returns
    is everything before the first blank line of the stream, with at most one read's worth of
    what follows; a head of up to [MAX_HEAD_BYTES - 3] bytes is always accepted, one above
    [MAX_HEAD_BYTES] never, and a stream that ends first is truncated. *)
Theorem head_any_chunking {IoErr} (cs : list (list byte)) :
  Forall (λ c, c ≠ []) cs → head_result (IoErr := IoErr) [] cs (read_head (Ok <$> cs)).
Proof. intros Hcs. apply read_head_from_spec; [done..|]. cbn. unfold MAX_HEAD_BYTES. lia. Qed.

(** The head sent to an origin server holds exactly the lines it should, whatever the client
    sent: its request line is the verb, the path and the version, its [Host] the address that
    was decided on, and every other field is one of the client's that is neither hop-by-hop
    nor named by [Connection]; nothing the client wrote becomes a line of its own. *)
Theorem forwarded_head_lines head p verb path :
  parse head = Ok p → rq_method (p_request p) = Forward verb path →
  split_crlf (origin_head p) =
    request_line p verb path :: (bytes "Host: " ++ display_target (rq_target (p_request p)))
    :: (header_line <$> surviving [] (p_headers p)) ++ [bytes "Connection: close"; []; []] ∧
  split_on SP (request_line p verb path) = [verb; path; p_version p] ∧
  (∀ h, h ∈ surviving [] (p_headers p) →
     h ∈ p_headers p ∧ wf_header h ∧ lower (h_name h) ∉ HOP_BY_HOP ∧
     lower (h_name h) ∉ connection_options (p_headers p)).
Proof.
  intros Hw%parse_Ok Hm. pose proof (wfp_method _ Hw) as Hv. rewrite Hm in Hv.
  destruct Hv as (_ & Hv & _ & Hsp & Hlf & _). split_and!.
  - unfold origin_head. rewrite Hm, build_head_lines, split_crlf_closed; [done| |by apply (bool_decide_unpack _)].
    apply head_lines_LF; [done..|]. apply plain_LF, Hw.
  - by apply request_line_split.
  - intros h Hh. pose proof Hh as (Hin & Hhop & _ & _ & Hco)%surviving_spec. split_and!; [done| |done..].
    pose proof (wfp_headers _ Hw) as Hf. by eapply Forall_forall in Hf.
Qed.

(** The tracker's loop ends for every input, and skipping data in blocks does what looking at
    the bytes one by one does; so it does not matter in how many pieces a body is fed. *)
Theorem feed_is_bytewise t l :
  tracker_ok t →
  feed t l = Some (feed_bytes t 0 l) ∧
  (∀ a b, l = a ++ b →
     feed t l = Some (match feed_bytes t 0 a with
                      | (Ok n, t') => if done t' then (Ok n, t') else feed_bytes t' n b
                      | (Err e, t') => (Err e, t')
                      end)) ∧
  (∀ n t', feed t l = Some (Ok n, t') → tracker_ok t' ∧ (n ≤ length l)%nat ∧ (done t' = false → n = length l)).
Proof.
  intros Ht. assert (feed t l = Some (feed_bytes t 0 l)) as E by (apply feed_loop_bytes; [done|lia]).
  split_and!; [done| |].
  - intros a b ->. by rewrite E, feed_bytes_app.
  - rewrite E. intros n t' [= Hf]. pose proof (feed_bytes_consumed _ _ _ _ _ Hf) as [Hn Hd]. split_and!; [|lia|done].
    by eapply feed_bytes_tracker_ok.
Qed.

(** C33. The tracker finds the end of a chunked body exactly: it is done after a stretch of input
    if and only if that stretch begins with a chunked body, and then it has consumed that body
    and nothing behind it. A chunked body is what [chunked_body] says: size lines of
    hexadecimal numbers, each followed by that many bytes and two more, one of size zero, and
    trailer lines up to the first blank one. *)
Theorem tracker_recognises_bodies l n t :
  feed tracker_new l = Some (Ok n, t) ∧ done t = true ↔
  chunked_body (take n l) ∧ (n ≤ length l)%nat ∧ t = MkTracker Done [].
Proof.
  unfold feed. rewrite feed_loop_bytes by (try exact I; lia). split.
  - intros ([= Hf] & Hd). destruct (feed_body_inv _ _ _ _ Hf Hd) as (body & rest & -> & Hb & ->).
    pose proof (feed_body body 0 rest Hb) as Hf'. unfold tracker_new in Hf. rewrite Hf in Hf'. injection Hf' as ->.
    cbn. rewrite take_app_length, length_app. split_and!; [done|lia|done].
  - intros (Hb & Hn & ->). pose proof (feed_body _ 0 (drop n l) Hb) as Hf. rewrite take_drop in Hf.
    unfold tracker_new. rewrite Hf, length_take, Nat.min_l by done. done.
Qed.

(** ** Concrete requests *)
Module HttpExample.
Definition line (s : string) : list byte := bytes s ++ crlf.
Definition get : list byte :=
  line "GET http://Docs.example.com/a?b HTTP/1.1" ++ line "Host: elsewhere" ++ line "Proxy-Authorization: x"
  ++ line "Connection: x-hop, close" ++ line "X-Hop: 1" ++ bytes "Accept: */*".
Definition parsed : Parsed :=
  match parse get with Ok p => p | Err _ => MkParsed (MkRequest Connect (MkTarget (Name []) 0)) [] [] false end.
Definition body : list byte := line "5;x=y" ++ line "hello" ++ line "0" ++ line "".
End HttpExample.
Import HttpExample.

Lemma head_any_chunking_witness :
  head_result (IoErr := unit) [] [bytes "GET"; get ++ [CR]; [LF; CR]; [LF; CR]]
    (read_head (Ok <$> [bytes "GET"; get ++ [CR]; [LF; CR]; [LF; CR]])) ∧
  match read_head (IoErr := unit) (Ok <$> [bytes "GET"; get ++ [CR]; [LF; CR]; [LF; CR]]) with
  | (Ok (Ok h), _) => hd_bytes h = bytes "GET" ++ get ∧ hd_remainder h = [CR]
  | _ => False
  end.
Proof.
  split; [|vm_compute; split; reflexivity]. apply (head_any_chunking (IoErr := unit)). repeat constructor; done.
Defined.

Lemma forwarded_head_lines_witness :
  split_crlf (origin_head parsed) =
    [bytes "GET /a?b HTTP/1.1"; bytes "Host: docs.example.com:80"; bytes "Accept: */*"; bytes "Connection: close"; []; []].
Proof.
  destruct (forwarded_head_lines get parsed (bytes "GET") (bytes "/a?b")) as [E _]; [vm_compute; reflexivity..|].
  rewrite E. vm_compute. reflexivity.
Defined.

Lemma feed_is_bytewise_witness :
  feed tracker_new (take 7 body ++ drop 7 body) = Some (Ok 19%nat, MkTracker Done []).
Proof.
  destruct (feed_is_bytewise tracker_new (take 7 body ++ drop 7 body) I) as (_ & E & _).
  rewrite (E _ _ eq_refl). vm_compute. reflexivity.
Defined.

Lemma tracker_recognises_bodies_witness : chunked_body body.
Proof.
  destruct (tracker_recognises_bodies (body ++ bytes "GET") 19 (MkTracker Done [])) as [H _].
  destruct H as [H _]; [vm_compute; split; reflexivity|]. change (take 19 (body ++ bytes "GET")) with body in H. exact H.
Defined.

(** ** Two corners of the grammar *)

(** A carriage return alone passes through the request line: the path keeps it, and the head
    sent on has it too. *)
Theorem bare_cr_is_forwarded :
  match parse (bytes "GET http://example.com/a" ++ [CR] ++ bytes "X:y HTTP/1.1") with
  | Ok p => rq_method (p_request p) = Forward (bytes "GET") (bytes "/a" ++ [CR] ++ bytes "X:y") ∧
            head (split_crlf (origin_head p)) = Some (bytes "GET /a" ++ [CR] ++ bytes "X:y HTTP/1.1")
  | Err _ => False
  end.
Proof. vm_compute. split; reflexivity. Qed.

(** Within three bytes of the limit it depends on the reads whether a head is accepted: the
    same 8191 bytes are a head if the blank line arrives at once, and too large if one byte of
    it arrives alone. *)
Theorem head_limit_depends_on_reads :
  let filler := replicate 8 (replicate 1024 "a"%char) in
  let accepted (cs : list (list byte)) :=
    match read_head (IoErr := unit) (Ok <$> (take 7 filler ++ [take 1023 (replicate 1024 "a"%char) ++ [CR]] ++ cs)) with
    | (Ok (Ok _), _) => true | _ => false end in
  accepted [[LF; CR; LF]] = true ∧ accepted [[LF]; [CR; LF]] = false.
Proof. vm_compute. split; reflexivity. Qed.
