(* ===== verification/Gateway.v ===== *)
(** * Gateway: authenticated routes and the serving of one request
      ([crates/ward-proxy/src/gateway.rs], [serve] and what it calls in [proxy.rs])

    A gateway route maps a path prefix of the proxy to one upstream and adds a credential to
    the requests it forwards.  [serve] takes one request through the checks: a route may
    refuse it (revoked, expired, outside its scope), a hold may, and the egress policy may;
    the credential is read last.  The route's secret is an argument of the rewritten head
    only, and what the host answers (connecting, the handshake, the clock, a pause or a
    revocation that lands in between) is an argument of [serve].  The theorems say when a
    credential leaves the proxy, for whom, and that what is sent is one request. *)

From stdpp Require Import base numbers option gmap sorting strings list.
From S2P Require Import Prelude Bytes Policy Egress Http.
Local Open Scope Z_scope.

(** ** Routes *)

(** [LeaseDeadline]: milliseconds since the epoch; the deadline itself has run out.  The source
    shares it with whoever renews the lease; here it is what it is while one request is served. *)
Definition expired_at (deadline now : Z) : bool := deadline <=? now.

Inductive ScopeDenial : Set := OutsideScope | WriteNotGranted.

Record GatewayRoute := MkRoute {
  g_prefix : list byte;
  g_target : Target;
  g_header : list byte;
  g_value : list byte;
  g_strip : list (list byte);
  g_paths : list (list byte);
  g_write : bool;
  g_credential_id : option Z;
  g_lease : option Z;
}.

Definition bad_prefix_byte (b : byte) : bool :=
  (code b <=? 32) || bool_decide (b = "?"%char) || bool_decide (b = "#"%char) || (0x7f <=? code b).
Definition GatewayRoute_new (prefix upstream_host : list byte) (upstream_port : Z) (header value : list byte) :
    result string GatewayRoute :=
  _ ← fail_if (negb (starts_with (bytes "/") prefix) || (Z.of_nat (length prefix) <? 2) || ends_with (bytes "/") prefix)
        "prefix must be `/name`, without a trailing slash"%string;
  _ ← fail_if (existsb bad_prefix_byte prefix) "prefix contains whitespace, `?`, `#` or a control byte"%string;
  _ ← fail_if (upstream_port =? 0) "upstream port must be non-zero"%string;
  _ ← fail_if (negb (is_token header)) "header name is not a valid HTTP token"%string;
  host ← map_err (λ _, "invalid upstream host"%string) (parse_host upstream_host);
  Ok (MkRoute prefix (MkTarget host upstream_port) header value [] [] true None None).

Definition revocable (g : GatewayRoute) (id : Z) : GatewayRoute :=
  MkRoute (g_prefix g) (g_target g) (g_header g) (g_value g) (g_strip g) (g_paths g) (g_write g) (Some id) (g_lease g).
Definition until (g : GatewayRoute) (deadline : Z) : GatewayRoute :=
  MkRoute (g_prefix g) (g_target g) (g_header g) (g_value g) (g_strip g) (g_paths g) (g_write g) (g_credential_id g)
    (Some deadline).
Definition scope_path (p : list byte) : list byte :=
  let trimmed := trim_end (λ b, bool_decide (b = "/"%char)) p in
  if bool_decide (trimmed = []) || starts_with (bytes "/") trimmed then trimmed else "/"%char :: trimmed.
Definition scope (g : GatewayRoute) (paths : list (list byte)) (write : bool) : GatewayRoute :=
  MkRoute (g_prefix g) (g_target g) (g_header g) (g_value g) (g_strip g) (scope_path <$> paths) write
    (g_credential_id g) (g_lease g).
Definition strip_headers (g : GatewayRoute) (names : list (list byte)) : GatewayRoute :=
  MkRoute (g_prefix g) (g_target g) (g_header g) (g_value g) (g_strip g ++ (lower <$> names)) (g_paths g) (g_write g)
    (g_credential_id g) (g_lease g).
Definition lease_expired (g : GatewayRoute) (now : Z) : bool :=
  match g_lease g with Some d => expired_at d now | None => false end.

Definition under_prefix (path prefix : list byte) : bool :=
  match strip_prefix prefix path with
  | Some [] => true
  | Some (b :: _) => bool_decide (b = "/"%char) || bool_decide (b = "?"%char)
  | None => false
  end.
Definition permits (g : GatewayRoute) (verb stripped_path : list byte) : result ScopeDenial unit :=
  _ ← fail_if (negb (bool_decide (g_paths g = [])) && negb (existsb (under_prefix stripped_path) (g_paths g))) OutsideScope;
  if g_write g then Ok tt
  else
    let path_only := default [] (head (split_on "?"%char stripped_path)) in
    let read_only :=
      if bool_decide (verb ∈ [bytes "GET"; bytes "HEAD"; bytes "OPTIONS"]) then true
      else if bool_decide (verb = bytes "POST") then ends_with (bytes "/git-upload-pack") path_only
      else false in
    if read_only then Ok tt else Err WriteNotGranted.

Definition matches_path (g : GatewayRoute) (path : list byte) : bool := under_prefix path (g_prefix g).
Definition matches (g : GatewayRoute) (p : Parsed) : bool :=
  match rq_method (p_request p) with
  | Forward _ path => matches_path g path
  | Connect => false
  end.
Definition route_strip_prefix (g : GatewayRoute) (path : list byte) : list byte :=
  let rest := default path (strip_prefix (g_prefix g) path) in
  if starts_with (bytes "/") rest then rest else "/"%char :: rest.
Definition route_request (g : GatewayRoute) (p : Parsed) : HttpRequest :=
  MkRequest (match rq_method (p_request p) with
             | Forward verb path => Forward verb (route_strip_prefix g path)
             | Connect => Connect
             end) (g_target g).
Definition host_header (g : GatewayRoute) : list byte :=
  if t_port (g_target g) =? 443 then display_host (t_host (g_target g)) else display_target (g_target g).

(** What [rewrite_head] leaves out of the client's fields. *)
Definition gateway_drop (g : GatewayRoute) (framing : Framing) : list (list byte) :=
  g_strip g ++ [lower (g_header g); bytes "expect"]
  ++ (if bool_decide (framing = FramingChunked) then [bytes "content-length"] else []).
Definition rewrite_head (g : GatewayRoute) (p : Parsed) (framing : Framing) : result string (list byte) :=
  match rq_method (p_request p) with
  | Connect => Err "gateway routes serve forward requests only"%string
  | Forward verb path =>
      let value := g_value g in
      _ ← fail_if (bool_decide (value = []) || existsb is_control value)
            "gateway credential is not a valid header value"%string;
      Ok (build_head p verb (route_strip_prefix g path) (host_header g) (gateway_drop g framing)
          ++ g_header g ++ bytes ": " ++ value ++ crlf ++ bytes "Connection: close" ++ crlf ++ crlf)
  end.

(** ** The body of a gateway request *)

(** What a read of the client's socket can fail with; a timeout that is retried moves
    nothing. *)
Inductive IoKind : Set := Retried | UnexpectedEof | OtherIo.
#[export] Instance IoKind_eq_dec : EqDecision IoKind.
Proof. solve_decision. Defined.

(** [copy_stream] from [source.take(n)]: whether it went well, and what was written. *)
Fixpoint send_length (n : Z) (r : reads IoKind) : result IoKind unit * list byte :=
  if n =? 0 then (Ok tt, [])
  else match r with
  | [] => (Err UnexpectedEof, [])
  | Err Retried :: r => send_length n r
  | Err UnexpectedEof :: _ => (Err UnexpectedEof, [])
  | Err OtherIo :: _ => (Err OtherIo, [])
  | Ok c :: r =>
      if bool_decide (c = []) then (Err UnexpectedEof, [])
      else
        let k := Z.to_nat (n `min` Z.of_nat (length c)) in
        let '(x, w) := send_length (n - Z.of_nat k) r in (x, take k c ++ w)
  end.

(** [copy_stream] from a [ChunkedBody], which ends where the tracker is done; a stream that
    ends before it does ends the copy as well. *)
Fixpoint send_chunked (t : ChunkTracker) (r : reads IoKind) : result IoKind unit * list byte :=
  if done t then (Ok tt, [])
  else match r with
  | [] => (Ok tt, [])
  | Err Retried :: r => send_chunked t r
  | Err UnexpectedEof :: _ => (Ok tt, [])
  | Err OtherIo :: _ => (Err OtherIo, [])
  | Ok c :: r =>
      if bool_decide (c = []) then (Ok tt, [])
      else match feed t c with
           | Some (Ok n, t) =>
               if bool_decide (n = O) then (Ok tt, [])
               else let '(x, w) := send_chunked t r in (x, take n c ++ w)
           | _ => (Err OtherIo, [])
           end
  end.

Definition send_body (framing : Framing) (first : list byte) (client : reads IoKind) : result IoKind unit * list byte :=
  let source := if bool_decide (first = []) then client else Ok first :: client in
  match framing with
  | FramingNone => (Ok tt, [])
  | FramingLength n => send_length n source
  | FramingChunked => send_chunked tracker_new source
  end.

(** ** Serving a request *)

(** What the client and the observer are told. *)
Definition display_parse_error (e : ParseError) : string :=
  match e with
  | TooLarge => "request head exceeds 8192 bytes"
  | HeadTruncated => "connection closed before request head"
  | Malformed what => "malformed request: " +:+ what
  end.
Definition class_label (c : AddrClass) : string :=
  match c with
  | CloudMetadata => "cloud metadata endpoint"
  | Loopback => "loopback"
  | Unspecified => "unspecified address"
  | Private => "private range"
  | LinkLocal => "link-local range"
  | UniqueLocal => "unique-local range"
  | Multicast => "multicast"
  | Reserved => "reserved range"
  end.
Definition display_denial (d : Denial) : string :=
  match d with
  | DenyOffline => "session network mode is offline"
  | NotAllowlisted => "host is not on the session allowlist"
  | IpLiteral => "IP literal destinations are not permitted"
  | Address c => "destination is a " +:+ class_label c
  | NotLoopback => "only loopback destinations are permitted"
  | Unresolvable => "host did not resolve"
  end.
Definition display_scope_denial (d : ScopeDenial) : string :=
  match d with OutsideScope => "outside credential scope" | WriteNotGranted => "write not granted" end.
Definition display_ip (ip : IpAddr) : list byte :=
  match ip with V4 ip => display_v4 ip | V6 ip => display_v6 ip end.
Definition pinned_list (p : Pinned) : list byte := join_with ","%char (display_ip <$> addrs p).

Record Held := MkHeld { held_reason : list byte; held_body : string }.
Record Config := MkConfig {
  cfg_policy : EgressPolicy;
  cfg_resolver : Resolver;
  cfg_gateways : list GatewayRoute;
  cfg_hold : option (Target → option (list byte) → option Held);
}.
(** What can change while a request is served. *)
Record Live := MkLive { lv_paused : bool; lv_revoked : gset Z; lv_now : Z }.

Definition credential_revoked (l : Live) (g : GatewayRoute) : bool :=
  match g_credential_id g with Some id => bool_decide (id ∈ lv_revoked l) | None => false end.

(** Why a route refuses a request: the observer's reason and the text of the answer. *)
Definition gateway_reason (g : GatewayRoute) (what : string) : list byte :=
  bytes "gateway " ++ g_prefix g ++ bytes ": " ++ bytes what.
Definition gateway_refusal (g : GatewayRoute) (req : HttpRequest) (l : Live) : option (list byte * string) :=
  if credential_revoked l g then Some (gateway_reason g "credential revoked", "credential revoked"%string)
  else if lease_expired g (lv_now l) then Some (gateway_reason g "credential lease expired", "credential lease expired"%string)
  else match rq_method req with
       | Forward verb path =>
           match permits g verb path with
           | Ok _ => None
           | Err denial => Some (gateway_reason g (display_scope_denial denial), "request outside credential scope"%string)
           end
       | Connect => None
       end.
Definition hold_refusal (cfg : Config) (gateway : option GatewayRoute) (req : HttpRequest) : option Held :=
  match cfg_hold cfg with
  | None => None
  | Some hold =>
      if bool_decide (gateway = None) && negb (is_ok (check_host (cfg_policy cfg) (rq_target req))) then None
      else hold (rq_target req) (g_prefix <$> gateway)
  end.

(** What became of a connection: closed, answered by the proxy itself, or connected to one of
    the pinned addresses with the bytes the proxy wrote there (a relay goes on from there). *)
Inductive Served : Type :=
| Closed
| Answered (status : Z) (body : string)
| Relayed (to : Pinned) (sent : list byte)
| Exchanged (route : GatewayRoute) (to : Pinned) (sent : list byte).
(** The decision reported to the observer, if any, with its reason. *)
Abbreviation verdict := (option (HttpRequest * bool * list byte)).

(** What the host answers: whether a pinned address was reached, the handshake completed, and
    the writes went through. *)
Record HostIo := MkHost { io_connected : bool; io_tls : bool; io_written : bool }.

Definition serve_gateway (g : GatewayRoute) (pinned : Pinned) (p : Parsed) (framing : Framing) (first : list byte)
    (client : reads IoKind) (l : Live) (io : HostIo) : Served :=
  if negb (io_tls io) then Answered 502 "upstream TLS handshake failed"
  else if lv_paused l then Answered 503 "paused by ward"
  else if credential_revoked l g then Answered 403 "credential revoked"
  else if lease_expired g (lv_now l) then Answered 403 "credential lease expired"
  else match rewrite_head g p framing with
  | Err reason => Answered 502 reason
  | Ok head =>
      if io_written io then Exchanged g pinned (head ++ (send_body framing first client).2)
      else Exchanged g pinned head
  end.

Definition forward_prelude (p : Parsed) (body : list byte) : list byte := origin_head p ++ body.

(** [serve]: [l] is the proxy as the head is parsed, [l'] as the credential is about to be
    read. *)
Definition serve (cfg : Config) (l l' : Live) (io : HostIo) (client : reads IoKind) : verdict * Served :=
  match read_head client with
  | (Err _, _) => (None, Closed)
  | (Ok (Err e), _) => (None, Answered 400 (display_parse_error e))
  | (Ok (Ok head), client) =>
      match parse (hd_bytes head) with
      | Err e => (None, Answered 400 (display_parse_error e))
      | Ok parsed =>
          if lv_paused l then (None, Answered 503 "paused by ward")
          else
            let gateway := List.find (λ g, matches g parsed) (cfg_gateways cfg) in
            if bool_decide (gateway = None) && p_origin_form parsed
            then (None, Answered 400 "proxy requires an absolute http:// URI")
            else match (match gateway with Some _ => body_framing parsed | None => Ok FramingNone end) with
            | Err e => (None, Answered 400 (display_parse_error e))
            | Ok framing =>
                let req := match gateway with Some g => route_request g parsed | None => p_request parsed end in
                match gateway ≫= (λ g, gateway_refusal g req l) with
                | Some (reason, body) => (Some (req, false, reason), Answered 403 body)
                | None =>
                    match hold_refusal cfg gateway req with
                    | Some held => (Some (req, false, held_reason held), Answered 403 (held_body held))
                    | None =>
                    match (match gateway with
                                | Some _ => evaluate_gateway (cfg_policy cfg) (cfg_resolver cfg) (rq_target req)
                                | None => evaluate (cfg_policy cfg) (cfg_resolver cfg) (rq_target req)
                                end) with
                    | Err denial =>
                        (Some (req, false, bytes (display_denial denial)),
                         Answered 403 "destination not permitted by session policy")
                    | Ok pinned =>
                        (Some (req, true, match gateway with
                                          | Some g => bytes "gateway " ++ g_prefix g
                                          | None => bytes "pinned " ++ pinned_list pinned
                                          end),
                         if negb (io_connected io) then Answered 502 "upstream connection failed"
                         else match gateway with
                         | Some g => serve_gateway g pinned parsed framing (hd_remainder head) client l' io
                         | None =>
                             if negb (io_written io) then Closed
                             else match rq_method req with
                             | Connect => Relayed pinned (hd_remainder head)
                             | Forward _ _ => Relayed pinned (forward_prelude parsed (hd_remainder head))
                             end
                         end)
                    end
                    end
                end
            end
      end
  end.

(** ** Lemmas: the lines of a gateway head *)

(** What [GatewayRoute::new] establishes of a route, which its setters keep. *)
Record wf_route (g : GatewayRoute) : Prop := {
  wfr_prefix : ∃ r, g_prefix g = "/"%char :: r;
  wfr_header : is_token (g_header g) = true;
  wfr_host : plain (display_host (t_host (g_target g)));
  wfr_port : 0 < t_port (g_target g);
}.
Lemma GatewayRoute_new_wf prefix host port header value g :
  GatewayRoute_new prefix host port header value = Ok g → 0 ≤ port → wf_route g.
Proof.
  unfold GatewayRoute_new. intros H Hp. apply bind_Ok in H as (? & H1 & H). apply bind_Ok in H as (? & _ & H).
  apply bind_Ok in H as (? & H2 & H). apply bind_Ok in H as (? & H3 & H). apply bind_Ok in H as (h & Hh & [= <-]).
  apply fail_if_Ok in H1, H2, H3. bool_inv. apply map_err_Ok in Hh. constructor; cbn.
  - match goal with H : starts_with _ _ = true |- _ => apply starts_with_spec in H as [r ->] end. by exists r.
  - done.
  - by eapply parse_host_plain.
  - lia.
Qed.
Lemma wf_route_setters g ps w id d names :
  wf_route g → wf_route (scope g ps w) ∧ wf_route (revocable g id) ∧ wf_route (until g d) ∧ wf_route (strip_headers g names).
Proof. intros []. split_and!; by constructor. Qed.

Lemma host_header_LF g : wf_route g → LF ∉ host_header g.
Proof.
  intros Hg. unfold host_header, display_target. destruct (_ =? _); apply plain_LF; [apply Hg|].
  apply plain_app. split; [apply Hg|]. apply plain_app. split; [by apply plain_bytes|].
  apply dec_display_plain. pose proof (wfr_port _ Hg). lia.
Qed.
Lemma route_strip_prefix_elem g path x :
  x ∈ route_strip_prefix g path → x = "/"%char ∨ x ∈ path.
Proof.
  unfold route_strip_prefix. assert (∀ y, y ∈ default path (strip_prefix (g_prefix g) path) → y ∈ path) as Hd.
  { intros y. destruct (strip_prefix _ path) as [r|] eqn:E; [|done]. apply strip_prefix_Some in E as ->.
    intros Hy. apply elem_of_app. by right. }
  destruct (starts_with _ _); [by right; apply Hd|]. intros [->|Hx]%elem_of_cons; [by left|by right; apply Hd].
Qed.

(** The fields of the head a route sends. *)
Definition sent_headers (g : GatewayRoute) (p : Parsed) (framing : Framing) : list Header :=
  MkHeader (bytes "Host") (host_header g) :: surviving (gateway_drop g framing) (p_headers p)
  ++ [MkHeader (g_header g) (g_value g); MkHeader (bytes "Connection") (bytes "close")].

Lemma rewrite_head_lines g p framing out verb path :
  wf_parsed p → wf_route g → rq_method (p_request p) = Forward verb path → rewrite_head g p framing = Ok out →
  split_crlf out =
    request_line p verb (route_strip_prefix g path) :: (header_line <$> sent_headers g p framing) ++ [[]; []].
Proof.
  intros Hp Hg Hm Hr. pose proof (wfp_method _ Hp) as Hf. rewrite Hm in Hf.
  destruct Hf as (_ & Hverb & _ & Hsp & Hlf & _).
  set (cred := MkHeader (g_header g) (g_value g)). set (close := MkHeader (bytes "Connection") (bytes "close")).
  assert (wf_header cred ∧ out = concat ((λ l, l ++ crlf) <$> (head_lines p verb (route_strip_prefix g path) (host_header g)
            (gateway_drop g framing) ++ [header_line cred])) ++ header_line close ++ crlf ++ crlf) as [Hw ->].
  { unfold rewrite_head in Hr. rewrite Hm in Hr. apply bind_Ok in Hr as (? & Hv & Hr). apply fail_if_Ok in Hv. bool_inv.
    split; [constructor; [apply Hg|done]|].
    rewrite <-concat_snoc_lines, <-build_head_lines. unfold header_line, cred. cbn [h_name h_value].
    rewrite <-!(assoc_L app).
    assert (∀ a b : list byte, Ok (E := string) a = Ok b → b = a) as Hinj by congruence. exact (Hinj _ _ Hr). }
  rewrite split_crlf_closed.
  - unfold head_lines, sent_headers. fold cred close. cbn [app fmap list_fmap]. f_equal. f_equal.
    rewrite fmap_app, <-!(assoc_L app). done.
  - apply Forall_app. split; [|by constructor; [apply header_line_LF|]].
    apply head_lines_LF; [done|done| |by apply host_header_LF].
    intros [?|?]%route_strip_prefix_elem; done.
  - by apply (bool_decide_unpack _).
Qed.

(** ** Lemmas: framing *)
Definition named (name : list byte) (h : Header) : bool := eq_ignore_ascii_case (h_name h) name.
Lemma transfer_encoding_filter f (keep : Header → bool) hs :
  (∀ h, h ∈ hs → named (bytes "transfer-encoding") h = true → keep h = true) →
  transfer_encoding f (List.filter keep hs) = transfer_encoding f hs.
Proof.
  revert f. induction hs as [|h hs IH]; intros f Hk; [done|]. cbn [List.filter transfer_encoding].
  assert (∀ h', h' ∈ hs → named (bytes "transfer-encoding") h' = true → keep h' = true) as Hk'.
  { intros h' Hh'. apply Hk. by apply elem_of_cons; right. }
  destruct (keep h) eqn:Ek; cbn [transfer_encoding].
  - destruct (eq_ignore_ascii_case _ _); [|by apply IH]. destruct (fail_if _ _); [by apply IH|done].
  - destruct (eq_ignore_ascii_case _ _) eqn:En; [|by apply IH].
    rewrite Hk in Ek; [done|by apply elem_of_cons; left|exact En].
Qed.
Lemma content_length_filter f (keep : Header → bool) hs :
  (∀ h, h ∈ hs → named (bytes "content-length") h = true → keep h = true) →
  content_length f (List.filter keep hs) = content_length f hs.
Proof.
  revert f. induction hs as [|h hs IH]; intros f Hk; [done|]. cbn [List.filter content_length].
  assert (∀ h', h' ∈ hs → named (bytes "content-length") h' = true → keep h' = true) as Hk'.
  { intros h' Hh'. apply Hk. by apply elem_of_cons; right. }
  destruct (keep h) eqn:Ek; cbn [content_length].
  - destruct (eq_ignore_ascii_case _ _); [|by apply IH]. destruct (ok_or _ _) as [n|]; cbn; [|done].
    destruct f; try by apply IH. case_bool_decide; [by apply IH|done].
  - destruct (eq_ignore_ascii_case _ _) eqn:En; [|by apply IH].
    rewrite Hk in Ek; [done|by apply elem_of_cons; left|exact En].
Qed.
Lemma transfer_encoding_app f a b :
  transfer_encoding f (a ++ b) = (f' ← transfer_encoding f a; transfer_encoding f' b).
Proof.
  revert f. induction a as [|h a IH]; intros f; [done|]. cbn [app transfer_encoding].
  destruct (eq_ignore_ascii_case _ _); [|apply IH]. destruct (fail_if _ _); [apply IH|done].
Qed.
Lemma content_length_app f a b :
  content_length f (a ++ b) = (f' ← content_length f a; content_length f' b).
Proof.
  revert f. induction a as [|h a IH]; intros f; [done|]. cbn [app content_length].
  destruct (eq_ignore_ascii_case _ _); [|apply IH]. destruct (ok_or _ _); cbn; [|done].
  destruct f; try apply IH. case_bool_decide; [apply IH|done].
Qed.
Lemma transfer_encoding_values f hs f' : transfer_encoding f hs = Ok f' → f' = f ∨ f' = FramingChunked.
Proof.
  revert f. induction hs as [|h hs IH]; intros f; cbn; [intros [= <-]; auto|].
  destruct (eq_ignore_ascii_case _ _); [|apply IH]. intros H. apply bind_Ok in H as (? & _ & H). apply IH in H as [->| ->]; auto.
Qed.
Lemma content_length_values f hs f' : content_length f hs = Ok f' → f ≠ FramingChunked → f' ≠ FramingChunked.
Proof.
  revert f. induction hs as [|h hs IH]; intros f; cbn; [by intros [= <-]|].
  destruct (eq_ignore_ascii_case _ _); [|apply IH]. intros H Hf. apply bind_Ok in H as (n & _ & H).
  destruct f; try done; [by eapply IH|]. case_bool_decide; [by eapply IH|done].
Qed.

Definition framing_names : list (list byte) := [bytes "transfer-encoding"; bytes "content-length"].
(** The fields that delimit a body are neither named by [Connection] nor replaced or
    stripped by the route. *)
Definition framing_kept (g : GatewayRoute) (p : Parsed) : Prop :=
  ∀ n, n ∈ framing_names → n ∉ connection_options (p_headers p) ∧ n ∉ g_strip g ∧ n ≠ lower (g_header g).

Lemma named_lower name h : lower name = name → named name h = true → lower (h_name h) = name.
Proof. intros Hn H. apply eq_ignore_ascii_case_spec in H. by rewrite H. Qed.
Lemma surviving_keeps g p drop name h :
  framing_kept g p → name ∈ framing_names → name ∉ drop → named name h = true →
  negb (is_dropped (drop ++ connection_options (p_headers p)) h) = true.
Proof.
  intros Hk Hn Hd Hh. assert (lower name = name ∧ name ∉ HOP_BY_HOP ∧ starts_with (bytes "proxy-") name = false) as (Hl & Hhop & Hpr).
  { apply elem_of_cons in Hn as [->|Hn]; [|apply list_elem_of_singleton in Hn as ->];
      (split; [reflexivity|split; [by apply (bool_decide_unpack _)|reflexivity]]). }
  apply (named_lower _ _ Hl) in Hh. destruct (Hk _ Hn) as [Hc _].
  apply negb_true_iff. unfold is_dropped. rewrite Hh, Hpr, !bool_decide_false; [done| |done].
  by rewrite not_elem_of_app.
Qed.
Lemma not_named_transfer g p : framing_kept g p → named (bytes "transfer-encoding") (MkHeader (g_header g) (g_value g)) = false.
Proof.
  intros Hk. destruct (named _ _) eqn:E; [|done]. apply named_lower in E; [|reflexivity].
  destruct (Hk (bytes "transfer-encoding")) as (_ & _ & Hne); [by left|]. by destruct Hne.
Qed.
Lemma not_named_length g p : framing_kept g p → named (bytes "content-length") (MkHeader (g_header g) (g_value g)) = false.
Proof.
  intros Hk. destruct (named _ _) eqn:E; [|done]. apply named_lower in E; [|reflexivity].
  destruct (Hk (bytes "content-length")) as (_ & _ & Hne); [by right; left|]. by destruct Hne.
Qed.
Lemma sent_transfer_encoding g p framing :
  framing_kept g p →
  transfer_encoding FramingNone (sent_headers g p framing) = transfer_encoding FramingNone (p_headers p).
Proof.
  intros Hk. unfold sent_headers. change (transfer_encoding FramingNone (?h :: ?l)) with (transfer_encoding FramingNone l).
  rewrite transfer_encoding_app. unfold surviving. rewrite transfer_encoding_filter.
  - destruct (transfer_encoding _ _) as [f|]; [|done]. cbn [mbind result_bind transfer_encoding].
    pose proof (not_named_transfer _ _ Hk) as E. unfold named in E. cbn [h_name] in *. by rewrite E.
  - intros h _ Hh. eapply surviving_keeps; [done|by left| |done].
    destruct (Hk (bytes "transfer-encoding")) as (_ & Hs & Hne); [by left|].
    unfold gateway_drop. rewrite !not_elem_of_app. split_and!; [done| |].
    + intros [?|[=]%list_elem_of_singleton]%elem_of_cons. done.
    + case_bool_decide; [by intros [=]%list_elem_of_singleton|apply not_elem_of_nil].
Qed.
Lemma sent_content_length g p framing :
  framing_kept g p → framing ≠ FramingChunked →
  content_length FramingNone (sent_headers g p framing) = content_length FramingNone (p_headers p).
Proof.
  intros Hk Hf. unfold sent_headers. change (content_length FramingNone (?h :: ?l)) with (content_length FramingNone l).
  rewrite content_length_app. unfold surviving. rewrite content_length_filter.
  - destruct (content_length _ _) as [f|]; [|done]. cbn [mbind result_bind content_length].
    pose proof (not_named_length _ _ Hk) as E. unfold named in E. cbn [h_name] in *. by rewrite E.
  - intros h _ Hh. eapply surviving_keeps; [done|by right; left| |done].
    destruct (Hk (bytes "content-length")) as (_ & Hs & Hne); [by right; left|].
    unfold gateway_drop. rewrite bool_decide_false by done. rewrite app_nil_r, !not_elem_of_app. split; [done|].
    intros [?|[=]%list_elem_of_singleton]%elem_of_cons. done.
Qed.
Lemma sent_framing g p framing :
  framing_kept g p → body_framing p = Ok framing → framing_of (sent_headers g p framing) = Ok framing.
Proof.
  intros Hk. unfold body_framing, framing_of. rewrite sent_transfer_encoding by done.
  destruct (transfer_encoding FramingNone (p_headers p)) as [f|] eqn:E; [|done]. cbn [mbind result_bind].
  case_bool_decide as Hc; [done|]. apply transfer_encoding_values in E as [->|?]; [|done].
  intros Hf. rewrite sent_content_length; [done..|]. by eapply content_length_values.
Qed.

(** ** Lemmas: the body *)
Definition received (r : reads IoKind) : list byte :=
  concat (omap (λ x, match x with Ok c => Some c | Err _ => None end) r).
Lemma received_cons x r : received (x :: r) = match x with Ok c => c | Err _ => [] end ++ received r.
Proof. by destruct x. Qed.

Lemma send_length_prefix n r x w :
  0 ≤ n → send_length n r = (x, w) →
  w `prefix_of` received r ∧ Z.of_nat (length w) ≤ n ∧ (x = Ok tt → Z.of_nat (length w) = n).
Proof.
  revert n x w. induction r as [|[c|[]] r IH]; intros n x w Hn; cbn [send_length];
    destruct (Z.eqb_spec n 0) as [E|E]; try (intros [= <- <-]; split_and!; [apply prefix_nil|cbn; lia|cbn; (done || lia)]).
  - case_bool_decide; [intros [= <- <-]; split_and!; [apply prefix_nil|cbn; lia|done]|].
    set (k := Z.to_nat (n `min` Z.of_nat (length c))). destruct (send_length _ r) as [x' w'] eqn:Es. intros [= <- <-].
    destruct (IH (n - Z.of_nat k) x' w') as (Hp & Hl & Hx); [lia|done|]. rewrite received_cons, length_app, length_take, Nat.min_l by lia.
    split_and!; [|lia|intros Hxx%Hx; lia].
    destruct (decide (k = length c)) as [Hk|Hk]; [rewrite take_ge by lia; by apply prefix_app|].
    destruct r; cbn [send_length] in Es; replace (n - Z.of_nat k) with 0 in Es by lia; injection Es as <- <-;
      rewrite app_nil_r; apply prefix_app_r; exists (drop k c); by rewrite take_drop.
  - apply IH. lia.
Qed.

(** The fed part of a stream, for a tracker in mid-body. *)
Lemma send_chunked_prefix t r x w :
  tracker_ok t → send_chunked t r = (x, w) →
  w `prefix_of` received r ∧
  (∀ n t', feed_bytes t 0 (received r) = (Ok n, t') → done t' = true → w `prefix_of` take n (received r)).
Proof.
  revert t x w. induction r as [|c r IH]; intros t x w Ht; cbn [send_chunked].
  { destruct (done t); intros [= <- <-]; (split; [apply prefix_nil|intros; apply prefix_nil]). }
  assert (∀ y, (y, []) = (x, w) → w `prefix_of` received (c :: r) ∧
     (∀ n t', feed_bytes t 0 (received (c :: r)) = (Ok n, t') → done t' = true → w `prefix_of` take n (received (c :: r)))) as Hnil.
  { intros y [= <- <-]. split; [apply prefix_nil|intros; apply prefix_nil]. }
  destruct (done t) eqn:Ed; [apply Hnil|].
  destruct c as [c|[]]; [|rewrite received_cons; by apply IH|apply Hnil..].
  case_bool_decide as Hc; [apply Hnil|]. clear Hnil.
  unfold feed. rewrite feed_loop_bytes by (done || lia).
  destruct (feed_bytes t 0 c) as [[m|e] t1] eqn:Ef; [|intros [= <- <-]; split; [apply prefix_nil|intros; apply prefix_nil]].
  case_bool_decide; [intros [= <- <-]; split; [apply prefix_nil|intros; apply prefix_nil]|].
  destruct (send_chunked t1 r) as [x' w'] eqn:Es. intros [= <- <-]. rewrite received_cons.
  pose proof (feed_bytes_consumed _ _ _ _ _ Ef) as [Hm Hfull].
  rewrite feed_bytes_app, Ef. destruct (done t1) eqn:Ed1.
  - destruct r; cbn in Es; rewrite Ed1 in Es; injection Es as <- <-; rewrite app_nil_r;
      (split; [apply prefix_app_r; exists (drop m c); by rewrite take_drop|]);
      intros n t' [= <- <-] _; rewrite take_app_le by lia; done.
  - rewrite (Hfull eq_refl) in *. cbn [plus] in *. rewrite take_ge by lia.
    destruct (IH t1 x' w') as [Hp Hb]; [|done|].
    { by eapply feed_bytes_tracker_ok. }
    split; [by apply prefix_app|]. intros n t' Hf Hd.
    rewrite (feed_bytes_shift t1 (length c)) in Hf.
    destruct (feed_bytes t1 0 (received r)) as [[n'|e] t2] eqn:Ef2; cbn in Hf; [|done]. injection Hf as <- <-.
    rewrite take_app_add. apply prefix_app. by apply (Hb n' t2).
Qed.

(** With reads that all arrive, the body is sent whole. *)
Lemma received_chunks (cs : list (list byte)) : received (Ok <$> cs) = concat cs.
Proof. induction cs as [|c cs IH]; [done|]. cbn [fmap list_fmap concat]. by rewrite received_cons, IH. Qed.
Lemma send_length_all n cs :
  0 ≤ n → Forall (λ c, c ≠ []) cs → n ≤ Z.of_nat (length (concat cs)) →
  send_length n (Ok <$> cs) = (Ok tt, take (Z.to_nat n) (concat cs)).
Proof.
  intros Hn Hcs. revert n Hn. induction Hcs as [|c cs Hc _ IH]; intros n Hn Hle; cbn [fmap list_fmap send_length concat] in *.
  { cbn in Hle. by replace n with 0 by lia. }
  destruct (Z.eqb_spec n 0) as [->|E]; [done|]. rewrite bool_decide_false by done. rewrite length_app in Hle.
  set (k := Z.to_nat (n `min` Z.of_nat (length c))). rewrite IH by lia. f_equal.
  rewrite take_app. replace (Z.to_nat (n - Z.of_nat k)) with (Z.to_nat n - length c)%nat by lia. f_equal.
  destruct (decide (Z.to_nat n ≤ length c)%nat); [f_equal; lia|]. rewrite !take_ge by lia. done.
Qed.
Lemma send_chunked_all t cs n t' :
  tracker_ok t → Forall (λ c, c ≠ []) cs → feed_bytes t 0 (concat cs) = (Ok n, t') → done t' = true →
  send_chunked t (Ok <$> cs) = (Ok tt, take n (concat cs)).
Proof.
  intros Ht Hcs. revert t n Ht. induction Hcs as [|c cs Hc _ IH]; intros t n Ht Hf Hd; cbn [fmap list_fmap send_chunked concat] in *.
  { injection Hf as <- <-. by rewrite Hd. }
  destruct (done t) eqn:Ed; [rewrite feed_bytes_done in Hf by done; by injection Hf as <- <-|].
  rewrite bool_decide_false by done. unfold feed. rewrite feed_loop_bytes by (done || lia).
  rewrite feed_bytes_app in Hf. destruct (feed_bytes t 0 c) as [[m|e] t1] eqn:Ef; [|done].
  pose proof (feed_bytes_consumed _ _ _ _ _ Ef) as [Hm Hfull].
  assert (m ≠ O) as Hm0.
  { intros ->. destruct c as [|b c]; [done|]. cbn in Ef. rewrite Ed in Ef. destruct (feed_byte t b) as [[[]|] t2]; [|done].
    apply feed_bytes_consumed in Ef. lia. }
  rewrite (bool_decide_false (m = O)) by done. destruct (done t1) eqn:Ed1.
  - injection Hf as <- <-. rewrite take_app_le by lia.
    destruct cs; cbn; by rewrite Ed1, app_nil_r.
  - assert (m = length c) as -> by (by apply Hfull). rewrite feed_bytes_shift in Hf.
    destruct (feed_bytes t1 0 (concat cs)) as [[n'|] t2] eqn:Ef2; cbn in Hf; [|done]. injection Hf as <- <-.
    rewrite (IH t1 n'); [|by eapply feed_bytes_tracker_ok|done|done]. by rewrite take_ge, take_app_add by lia.
Qed.

(** What is let through is not held: the hold was asked about the target of the request that is
    reported, on the route it takes. *)
Lemma served_unheld cfg l l' io client req reason s hold :
  serve cfg l l' io client = (Some (req, true, reason), s) → cfg_hold cfg = Some hold →
  ∃ route, hold (rq_target req) route = None ∧
    ∀ g pinned sent, s = Exchanged g pinned sent → route = Some (g_prefix g) ∧ rq_target req = g_target g.
Proof.
  unfold serve. destruct (read_head client) as [[[head|]|] rest]; try done.
  destruct (parse (hd_bytes head)) as [p|]; [|done]. destruct (lv_paused l); [done|]. intros Hs Hhold.
  destruct (List.find _ _) as [g|]; cbn [mbind option_bind] in Hs.
  - rewrite bool_decide_false in Hs by done. cbn [andb] in Hs. destruct (body_framing p); [|done].
    destruct (gateway_refusal _ _ _) as [[]|]; [done|]. destruct (hold_refusal _ _ _) eqn:Hh; [done|].
    destruct (evaluate_gateway _ _ _); [|done]. injection Hs as <- _ <-. exists (Some (g_prefix g)).
    unfold hold_refusal in Hh. rewrite Hhold, bool_decide_false in Hh by done. split; [done|].
    intros g' pinned sent. destruct (io_connected io); [|done]. unfold serve_gateway. cbn [negb].
    repeat (case_match; try done); intros [= <- _ _]; done.
  - rewrite bool_decide_true in Hs by done. cbn [andb] in Hs. destruct (p_origin_form p); [done|].
    destruct (hold_refusal _ _ _) eqn:Hh; [done|]. destruct (evaluate _ _ _) as [pinned|] eqn:He; [|done].
    injection Hs as <- _ <-. exists None. unfold evaluate in He. apply bind_Ok in He as ([] & He & _).
    unfold hold_refusal in Hh. rewrite Hhold, bool_decide_true, He in Hh by done. split; [done|].
    intros g' pinned' sent. destruct (io_connected io); [|done]. destruct (io_written io); [|done]. by destruct (rq_method _).
Qed.

(** ** Properties *)
Definition secret_ok (v : list byte) : bool := negb (bool_decide (v = []) || existsb is_control v).

(** C8. A credential leaves the proxy only where it may: when an exchange is made on a route, the
    request's path is under the route's prefix and its verb and stripped path are within the
    route's scope; the credential is neither revoked nor expired, and the proxy is not paused,
    when the head is parsed and again when the credential is read; the session is not offline,
    no hold is on the route; and the connection goes to the addresses the route's own upstream
    resolved to, whatever the client named. *)
Theorem credential_confined cfg l l' io client v g pinned sent :
  serve cfg l l' io client = (v, Exchanged g pinned sent) →
  ∃ head rest p verb path,
    read_head client = (Ok (Ok head), rest) ∧ parse (hd_bytes head) = Ok p ∧
    rq_method (p_request p) = Forward verb path ∧
    g ∈ cfg_gateways cfg ∧ under_prefix path (g_prefix g) = true ∧
    permits g verb (route_strip_prefix g path) = Ok tt ∧
    lv_paused l = false ∧ lv_paused l' = false ∧
    credential_revoked l g = false ∧ credential_revoked l' g = false ∧
    lease_expired g (lv_now l) = false ∧ lease_expired g (lv_now l') = false ∧
    capability (cfg_policy cfg) ≠ Offline ∧ pin (cfg_resolver cfg) (g_target g) = Ok pinned ∧
    (∀ hold, cfg_hold cfg = Some hold → hold (g_target g) (Some (g_prefix g)) = None) ∧
    v = Some (MkRequest (Forward verb (route_strip_prefix g path)) (g_target g), true, bytes "gateway " ++ g_prefix g).
Proof.
  unfold serve. destruct (read_head client) as [[[head|]|] rest]; try done.
  destruct (parse (hd_bytes head)) as [p|] eqn:Hp; [|done]. destruct (lv_paused l) eqn:Hpa; [done|].
  destruct (List.find _ _) as [g'|] eqn:Hg; cbn [mbind option_bind].
  2:{ rewrite bool_decide_true by done. destruct (_ && _); [done|]. destruct (hold_refusal _ _ _); [done|].
      destruct (evaluate _ _ _); [|done]. intros [= <- Hx]. destruct (io_connected io); [|done].
      destruct (io_written io); [|done]. by destruct (rq_method _). }
  rewrite bool_decide_false by done. cbn [andb]. destruct (body_framing p) as [framing|] eqn:Hfr; [|done].
  destruct (gateway_refusal _ _ _) as [[]|] eqn:Hre; [done|]. destruct (hold_refusal _ _ _) eqn:Hh; [done|].
  destruct (evaluate_gateway _ _ _) as [pinned'|] eqn:Hev; [|done]. destruct (io_connected io); [|by intros [=]].
  cbn [negb]. unfold serve_gateway. destruct (io_tls io); [|by intros [=]]. cbn [negb].
  destruct (lv_paused l') eqn:Hpa'; [by intros [=]|]. destruct (credential_revoked l' g') eqn:Hr'; [by intros [=]|].
  destruct (lease_expired g' (lv_now l')) eqn:Hl'; [by intros [=]|].
  destruct (rewrite_head g' p framing) as [out|] eqn:Hout; [|by intros [=]].
  intros Hx. assert (g' = g ∧ pinned' = pinned ∧ v = Some (route_request g' p, true, bytes "gateway " ++ g_prefix g')) as (-> & -> & ->).
  { by destruct (io_written io); injection Hx as <- <- <- _. }
  clear Hx. apply find_Some_elem in Hg as [Hin Hm]. unfold rewrite_head in Hout.
  destruct (rq_method (p_request p)) as [|verb path] eqn:Hmeth; [done|].
  unfold gateway_refusal in Hre. destruct (credential_revoked l g) eqn:Hr; [done|].
  destruct (lease_expired g (lv_now l)) eqn:Hle; [done|]. unfold route_request in Hre. rewrite Hmeth in Hre. cbn in Hre.
  destruct (permits g verb _) as [[]|] eqn:Hok; [|done].
  unfold matches in Hm. rewrite Hmeth in Hm. unfold evaluate_gateway in Hev.
  exists head, rest, p, verb, path. split_and!; try done.
  - by destruct (capability _).
  - by destruct (capability _).
  - intros hold Hhold. unfold hold_refusal in Hh. rewrite Hhold in Hh. rewrite bool_decide_false in Hh by done. done.
  - unfold route_request. by rewrite Hmeth.
Qed.

(** The same configuration with other credential values, and an exchange without them. *)
Definition with_secrets (f : GatewayRoute → list byte) (cfg : Config) : Config :=
  MkConfig (cfg_policy cfg) (cfg_resolver cfg)
    ((λ g, MkRoute (g_prefix g) (g_target g) (g_header g) (f g) (g_strip g) (g_paths g) (g_write g)
             (g_credential_id g) (g_lease g)) <$> cfg_gateways cfg) (cfg_hold cfg).
Definition hide (s : Served) : Served :=
  match s with
  | Exchanged g pinned _ =>
      Exchanged (MkRoute (g_prefix g) (g_target g) (g_header g) [] (g_strip g) (g_paths g) (g_write g)
                   (g_credential_id g) (g_lease g)) pinned []
  | s => s
  end.

(** C9. Only the upstream of an exchange sees a secret: two configurations that differ in the
    values of their credentials alone, and agree on which of them can be sent as a header value
    at all (are not empty and hold no control byte), report the same decisions with the same
    reasons, answer the client the same, with the same texts, and relay the same bytes, except
    for what an exchange on a route sends to that route. *)
Theorem secrets_do_not_leak f cfg l l' io client :
  (∀ g, g ∈ cfg_gateways cfg → secret_ok (f g) = secret_ok (g_value g)) →
  (serve (with_secrets f cfg) l l' io client).1 = (serve cfg l l' io client).1 ∧
  hide (serve (with_secrets f cfg) l l' io client).2 = hide (serve cfg l l' io client).2.
Proof.
  intros Hf. unfold serve. destruct (read_head client) as [[[head|]|] rest]; try done.
  destruct (parse (hd_bytes head)) as [p|]; [|done]. destruct (lv_paused l); [done|]. cbn [cfg_gateways with_secrets].
  set (re := λ g, MkRoute (g_prefix g) (g_target g) (g_header g) (f g) (g_strip g) (g_paths g) (g_write g)
                    (g_credential_id g) (g_lease g)).
  assert (List.find (λ g, matches g p) (re <$> cfg_gateways cfg) = re <$> List.find (λ g, matches g p) (cfg_gateways cfg)) as ->.
  { clear Hf. induction (cfg_gateways cfg) as [|g gs IH]; [done|]. cbn. change (matches (re g) p) with (matches g p).
    by destruct (matches g p). }
  destruct (List.find _ _) as [g|] eqn:Hg; [|done]. cbn [fmap option_fmap mbind option_bind option_map].
  apply find_Some_elem in Hg as [Hin _]. specialize (Hf g Hin).
  rewrite !bool_decide_false by done. cbn [andb]. destruct (body_framing p) as [framing|]; [|done].
  change (route_request (re g) p) with (route_request g p).
  change (gateway_refusal (re g) (route_request g p) l) with (gateway_refusal g (route_request g p) l).
  destruct (gateway_refusal _ _ _) as [[]|]; [done|].
  change (hold_refusal (with_secrets f cfg) (Some (re g)) (route_request g p)) with (hold_refusal cfg (Some g) (route_request g p)).
  destruct (hold_refusal _ _ _); [done|]. cbn [cfg_policy cfg_resolver with_secrets].
  destruct (evaluate_gateway _ _ _) as [pinned|]; [|done]. cbn [fst snd]. split; [done|].
  destruct (io_connected io); [|done]. cbn [negb]. unfold serve_gateway. destruct (io_tls io); [|done]. cbn [negb].
  destruct (lv_paused l'); [done|]. change (credential_revoked l' (re g)) with (credential_revoked l' g).
  destruct (credential_revoked l' g); [done|]. change (lease_expired (re g) (lv_now l')) with (lease_expired g (lv_now l')).
  destruct (lease_expired g (lv_now l')); [done|]. unfold rewrite_head. destruct (rq_method (p_request p)); [done|].
  change (g_value (re g)) with (f g). unfold secret_ok in Hf. unfold fail_if.
  destruct (bool_decide (f g = []) || existsb is_control (f g)), (bool_decide (g_value g = []) || existsb is_control (g_value g));
    cbn in Hf |- *; try done; by destruct (io_written io).
Qed.


(** C37. What follows the head upstream is the request's body and nothing behind it: no byte of a
    pipelined request is sent, however the body arrives and wherever it is cut short, and a
    body that arrives whole is sent whole. *)
Theorem gateway_sends_only_the_body framing first client x w :
  send_body framing first client = (x, w) → (∀ n, framing = FramingLength n → 0 ≤ n) →
  let stream := first ++ received client in
  w `prefix_of` stream ∧
  (framing = FramingNone → w = []) ∧
  (∀ n, framing = FramingLength n → Z.of_nat (length w) ≤ n ∧ (x = Ok tt → Z.of_nat (length w) = n)) ∧
  (∀ body rest, framing = FramingChunked → stream = body ++ rest → chunked_body body → w `prefix_of` body) ∧
  (∀ cs, client = Ok <$> cs → Forall (λ c, c ≠ []) cs →
     (∀ n, framing = FramingLength n → n ≤ Z.of_nat (length stream) → x = Ok tt ∧ w = take (Z.to_nat n) stream) ∧
     (∀ body rest, framing = FramingChunked → stream = body ++ rest → chunked_body body → x = Ok tt ∧ w = body)).
Proof.
  intros Hs Hn stream. unfold send_body in Hs.
  set (source := if bool_decide (first = []) then client else Ok first :: client) in Hs.
  assert (received source = stream) as Hrec.
  { unfold source, stream. case_bool_decide; [by subst|]. by rewrite received_cons. }
  assert (∀ cs, client = Ok <$> cs → Forall (λ c, c ≠ []) cs → ∃ cs', source = Ok <$> cs' ∧ Forall (λ c, c ≠ []) cs' ∧ concat cs' = stream) as Hcs.
  { intros cs -> Hcs. unfold source, stream. rewrite received_chunks. case_bool_decide; [subst; eauto|].
    exists (first :: cs). by split_and!; [|constructor|]. }
  destruct framing as [|n|].
  - injection Hs as <- <-. split_and!; try done. apply prefix_nil.
  - destruct (send_length_prefix n source x w) as (Hp & Hl & Hx); [by apply Hn|done|]. rewrite Hrec in Hp.
    split_and!; [done|done|by intros ? [= <-]|done|]. intros cs Hc Hne. split; [|done]. intros ? [= <-] Hle.
    destruct (Hcs cs Hc Hne) as (cs' & E & Hne' & Hcat). rewrite E, send_length_all in Hs; [|by apply Hn|done|by rewrite Hcat].
    rewrite Hcat in Hs. by injection Hs as <- <-.
  - destruct (send_chunked_prefix tracker_new source x w) as (Hp & Hb); [exact I|done|]. rewrite Hrec in Hp, Hb.
    assert (∀ body rest, stream = body ++ rest → chunked_body body →
              feed_bytes tracker_new 0 stream = (Ok (length body), MkTracker Done [])) as Hfeed.
    { intros body rest -> Hbody. by apply (feed_body body 0 rest). }
    split_and!; [done|done|done| |].
    + intros body rest _ E Hbody. pose proof (Hb _ _ (Hfeed _ _ E Hbody) eq_refl) as H.
      by rewrite E, take_app_length in H.
    + intros cs Hc Hne. split; [done|]. intros body rest _ E Hbody.
      destruct (Hcs cs Hc Hne) as (cs' & Esrc & Hne' & Hcat).
      rewrite Esrc, (send_chunked_all _ _ (length body) (MkTracker Done [])) in Hs; [|exact I|done|rewrite Hcat; by eapply Hfeed|done].
      rewrite Hcat, E, take_app_length in Hs. by injection Hs as <- <-.
Qed.

(** ** A concrete proxy *)
Module GatewayExample.
Import HttpExample.
Definition route0 : GatewayRoute :=
  match GatewayRoute_new (bytes "/github") (bytes "api.example.com") 443 (bytes "Authorization") (bytes "Bearer s3cret") with
  | Ok g => until (revocable (scope g [bytes "repos/hexrift/WardOS/"] false) 7) 5000
  | Err _ => MkRoute [] (MkTarget (Name []) 0) [] [] [] [] false None None
  end.
Definition cfg0 : Config :=
  MkConfig (Policy_new Registries) (λ _, Some [V4 (MkV4 93 184 216 34)]) [route0] None.
Definition live0 : Live := MkLive false ∅ 4000.
Definition host0 : HostIo := MkHost true true true.
Definition fetch : list byte :=
  line "POST /github/repos/hexrift/WardOS/git-upload-pack HTTP/1.1" ++ line "Host: ward"
  ++ line "Authorization: placeholder" ++ bytes "Transfer-Encoding: chunked".
Definition client0 : reads IoKind := Ok <$> [fetch ++ crlf ++ crlf ++ take 4 body; drop 4 body ++ bytes "GET /x HTTP/1.1"].
Definition sent0 : list byte := match (serve cfg0 live0 live0 host0 client0).2 with Exchanged _ _ s => s | _ => [] end.
Definition parsed0 : Parsed := match parse fetch with Ok p => p | Err _ => parsed end.
Definition head0 : list byte := match rewrite_head route0 parsed0 FramingChunked with Ok h => h | Err _ => [] end.

(** A client that names its own framing field in [Connection]. *)
Definition hiding : list byte :=
  line "POST /github/repos/hexrift/WardOS/git-upload-pack HTTP/1.1" ++ line "Host: ward"
  ++ line "Transfer-Encoding: chunked" ++ bytes "Connection: transfer-encoding".
Definition hidden : Parsed := match parse hiding with Ok p => p | Err _ => parsed end.
End GatewayExample.
Import HttpExample GatewayExample.

Lemma wf_route0 : wf_route route0.
Proof.
  destruct (GatewayRoute_new (bytes "/github") (bytes "api.example.com") 443 (bytes "Authorization") (bytes "Bearer s3cret"))
    as [g|e] eqn:E; [|vm_compute in E; discriminate E].
  pose proof (GatewayRoute_new_wf _ _ _ _ _ _ E ltac:(lia)) as Hg. unfold route0. rewrite E.
  apply (wf_route_setters _ [] true 0 5000 []), (wf_route_setters _ [] true 7 0 []),
    (wf_route_setters _ [bytes "repos/hexrift/WardOS/"] false 0 0 []), Hg.
Qed.

Lemma credential_confined_witness :
  permits route0 (bytes "POST") (bytes "/repos/hexrift/WardOS/git-upload-pack") = Ok tt ∧
  ∃ p path, parse fetch = Ok p ∧ rq_method (p_request p) = Forward (bytes "POST") path ∧
    under_prefix path (bytes "/github") = true.
Proof.
  assert (serve cfg0 live0 live0 host0 client0 =
    (Some (MkRequest (Forward (bytes "POST") (bytes "/repos/hexrift/WardOS/git-upload-pack")) (g_target route0), true, bytes "gateway /github"),
     Exchanged route0 (MkPinned [V4 (MkV4 93 184 216 34)] 443) sent0)) as E by (vm_compute; reflexivity).
  destruct (credential_confined _ _ _ _ _ _ _ _ _ E)
    as (head & rest & p & verb & path & Hr & Hp & Hm & _ & Hu & Hpm & _ & _ & _ & _ & _ & _ & _ & _ & _ & Hv).
  assert (hd_bytes head = fetch) as Hh by (vm_compute in Hr; injection Hr as <- _; vm_compute; reflexivity).
  rewrite Hh in Hp. injection Hv as Hverb Hpath. subst verb.
  split; [change (permits route0 (bytes "POST") (bytes "/repos/hexrift/WardOS/git-upload-pack") = Ok tt);
          rewrite <-Hpath in Hpm; exact Hpm|].
  exists p, path. split_and!; [exact Hp|exact Hm|exact Hu].
Defined.

Lemma secrets_do_not_leak_witness :
  hide (serve (with_secrets (λ _, bytes "other") cfg0) live0 live0 host0 client0).2 = hide (serve cfg0 live0 live0 host0 client0).2 ∧
  (serve (with_secrets (λ _, bytes "other") cfg0) live0 live0 host0 client0).2 ≠ (serve cfg0 live0 live0 host0 client0).2.
Proof.
  split; [|intros E; vm_compute in E; discriminate E].
  apply (secrets_do_not_leak (λ _, bytes "other") cfg0 live0 live0 host0 client0).
  intros g Hg. apply list_elem_of_singleton in Hg as ->. vm_compute. reflexivity.
Defined.


Lemma body_chunked : chunked_body body.
Proof.
  destruct (feed_body_inv body 0 19 (MkTracker Done [])) as (b & rest & E & Hb & Hn); [vm_compute; reflexivity|done|].
  assert (rest = []) as -> by (apply (f_equal length) in E; rewrite length_app in E; cbn in *; destruct rest; [done|cbn in *; lia]).
  by rewrite app_nil_r in E; subst b.
Qed.
Lemma gateway_sends_only_the_body_witness :
  send_body FramingChunked (take 4 body) (Ok <$> [drop 4 body ++ bytes "GET /x HTTP/1.1"]) = (Ok tt, body).
Proof.
  destruct (send_body FramingChunked (take 4 body) (Ok <$> [drop 4 body ++ bytes "GET /x HTTP/1.1"])) as [x w] eqn:E.
  destruct (gateway_sends_only_the_body FramingChunked (take 4 body) (Ok <$> [drop 4 body ++ bytes "GET /x HTTP/1.1"]) x w E)
    as (_ & _ & _ & _ & H); [done|].
  destruct (H [drop 4 body ++ bytes "GET /x HTTP/1.1"] eq_refl) as [_ Hb]; [repeat constructor; done|].
  destruct (Hb body (bytes "GET /x HTTP/1.1") eq_refl) as [-> ->]; [vm_compute; reflexivity| |done].
  exact body_chunked.
Defined.

(** The proviso of [gateway_head_is_one_request] is needed: a [Connection] field that names
    [Transfer-Encoding] removes it from the head, while the proxy still reads, and sends, a
    chunked body; the upstream is told of no body at all. *)
Theorem connection_hides_framing :
  parse hiding = Ok hidden ∧ body_framing hidden = Ok FramingChunked ∧
  framing_of (sent_headers route0 hidden FramingChunked) = Ok FramingNone ∧
  ∃ out, rewrite_head route0 hidden FramingChunked = Ok out ∧
    split_crlf out =
      [bytes "POST /repos/hexrift/WardOS/git-upload-pack HTTP/1.1"; bytes "Host: api.example.com";
       bytes "Authorization: Bearer s3cret"; bytes "Connection: close"; []; []] ∧
    send_body FramingChunked body [] = (Ok tt, body).
Proof. split_and!; [vm_compute; reflexivity..|]. eexists. split_and!; vm_compute; reflexivity. Qed.
