(* ===== verification/Manifest.v ===== *)
(** * Manifest: capability manifests and admission envelopes

    The grammar of [ward-node-protocol]: the grants of a capability manifest
    ([admission.rs], [output.rs], [actions.rs], [credentials.rs], [hold.rs],
    [resources.rs], [isolation.rs]), the workload and authority of a task, and the signed
    envelope that carries them.  The structural JSON decoding is [serde_json]'s and a
    parameter; everything the crate checks after it is a definition here.  A [String] is
    its bytes. *)

From stdpp Require Import base numbers option gmap sorting strings vector list.
From S2P Require Import Prelude Bytes Ids Authority Policy Egress.

Local Open Scope Z_scope.

Abbreviation Blake3Hash := (vec byte 32).

Definition slen {A} (l : list A) : Z := Z.of_nat (length l).

(** [(index, x)] with [list[..index].contains(x)], for some index. *)
Fixpoint repeated_from {A} `{EqDecision A} (seen l : list A) : bool :=
  match l with
  | [] => false
  | x :: l => bool_decide (x ∈ seen) || repeated_from (seen ++ [x]) l
  end.
Definition repeated {A} `{EqDecision A} (l : list A) : bool := repeated_from [] l.

(** ** Errors *)
Inductive OutputError : Set := TooManyFiles | InvalidPath | DuplicatePath | MalformedResult.
Inductive ActionError : Set := ActionInvalidGrant.
Inductive CredentialError : Set := InvalidGrant | InvalidService | InvalidHost | HostNotAllowlisted.
Inductive HoldError : Set := InvalidHold | HostNotGranted | ServiceNotGranted | ApprovalNotGranted.
Inductive IsolationError : Set := ImplicitMinimum.
Inductive ResourceError : Set := EmptyLimits | ZeroLimit.

Inductive TaskAdmissionError : Set :=
| EmptyArgv | EmptyProgram | TooManyArguments | ArgumentTooLong | ArgvTooLong | NulInArgument
| EmptyManifest | ManifestTooLarge | ManifestHashMismatch | MalformedManifest
| EmptyHostAllowlist | TooManyHosts | InvalidHostPattern | DuplicateHost
| MalformedOutputGrant (e : OutputError) | MalformedResourceGrant
| MalformedActionGrant (e : ActionError) | MalformedCredentialGrant (e : CredentialError)
| MalformedHold (e : HoldError) | MalformedIsolation (e : IsolationError)
| AdapterProgram | ZeroBudget | ZeroAdmissionVersion | LineageTooLong | InvalidLifetime
| EmptyEnvelope | EnvelopeTooLarge | MalformedEnvelope.

(** ** The workload's arguments *)
Definition MAX_ARGS : Z := 256.
Definition MAX_ARG_BYTES : Z := 4096.
Definition MAX_TOTAL_BYTES : Z := 16 * 1024.

(** The loop of [WorkloadArgv::new] over the arguments. *)
Fixpoint argv_total (total : Z) (args : list (list byte)) : result TaskAdmissionError Z :=
  match args with
  | [] => Ok total
  | arg :: args =>
      _ ← fail_if (MAX_ARG_BYTES <? slen arg) ArgumentTooLong;
      _ ← fail_if (bool_decide (chr 0 ∈ arg)) NulInArgument;
      argv_total (saturating_add usize_max total (slen arg)) args
  end.

Definition WorkloadArgv_new (args : list (list byte)) :
    result TaskAdmissionError (list (list byte)) :=
  match args with
  | [] => Err EmptyArgv
  | program :: _ =>
      _ ← fail_if (bool_decide (program = [])) EmptyProgram;
      _ ← fail_if (MAX_ARGS <? slen args) TooManyArguments;
      total ← argv_total 0 args;
      _ ← fail_if (MAX_TOTAL_BYTES <? total) ArgvTooLong;
      Ok args
  end.

(** ** Host patterns *)
Definition MAX_HOSTS : Z := 64.
Definition MAX_HOST_BYTES : Z := 253.

Definition is_dns_label (label : list byte) : bool :=
  (1 <=? slen label) && (slen label <=? 63)
  && forallb (λ b, is_ascii_lowercase b || is_ascii_digit b || bool_decide (b = "-"%char)) label
  && negb (starts_with ["-"%char] label) && negb (ends_with ["-"%char] label).

Definition is_host_pattern (pattern : list byte) : bool :=
  let name := default pattern (strip_prefix (bytes "*.") pattern) in
  negb (bool_decide (name = [])) && (slen name <=? MAX_HOST_BYTES)
  && forallb is_dns_label (split_on dot name).

Fixpoint check_patterns (seen patterns : list (list byte)) : result TaskAdmissionError unit :=
  match patterns with
  | [] => Ok tt
  | p :: patterns =>
      _ ← fail_if (negb (is_host_pattern p)) InvalidHostPattern;
      _ ← fail_if (bool_decide (p ∈ seen)) DuplicateHost;
      check_patterns (seen ++ [p]) patterns
  end.

Definition HostAllowlist : Type := list (list byte).
Definition HostAllowlist_new (patterns : list (list byte)) :
    result TaskAdmissionError HostAllowlist :=
  _ ← fail_if (bool_decide (patterns = [])) EmptyHostAllowlist;
  _ ← fail_if (MAX_HOSTS <? slen patterns) TooManyHosts;
  _ ← check_patterns [] patterns;
  Ok patterns.

Definition pattern_covers (host pattern : list byte) : bool :=
  match strip_prefix (bytes "*.") pattern with
  | Some name =>
      match strip_suffix name host ≫= strip_suffix [dot] with
      | Some labels => negb (bool_decide (labels = []))
      | None => false
      end
  | None => bool_decide (pattern = host)
  end.
Definition allowlist_covers (l : HostAllowlist) (host : list byte) : bool :=
  existsb (pattern_covers host) l.

Inductive NetworkGrant : Type := GrantOffline | GrantCustom (hosts : HostAllowlist).

(** ** Output *)
Definition MAX_OUTPUT_STDIO_BYTES : Z := 1024 * 1024.
Definition MAX_OUTPUT_FILES_BYTES : Z := 8 * 1024 * 1024.
Definition MAX_OUTPUT_FILES : Z := 64.
Definition MAX_OUTPUT_PATH_BYTES : Z := 255.

Definition path_byte (b : byte) : bool :=
  is_ascii_alphanumeric b || bool_decide (b ∈ ["."%char; "_"%char; "-"%char]).
Definition path_component (c : list byte) : bool :=
  negb (bool_decide (c = []) || bool_decide (c = bytes ".") || bool_decide (c = bytes ".."))
  && forallb path_byte c.
Definition OutputPath_new (path : list byte) : result OutputError (list byte) :=
  _ ← fail_if (bool_decide (path = []) || (MAX_OUTPUT_PATH_BYTES <? slen path)) InvalidPath;
  _ ← fail_if (negb (forallb path_component (split_on "/"%char path))) InvalidPath;
  Ok path.

Record OutputGrant := MkOutput {
  stdio_bytes : Z;
  files : list (list byte);
  files_bytes : Z;
}.
Definition OutputGrant_new (stdio : Z) (fs : list (list byte)) (fsb : Z) :
    result OutputError OutputGrant :=
  _ ← fail_if (MAX_OUTPUT_FILES <? slen fs) TooManyFiles;
  _ ← fail_if (repeated fs) DuplicatePath;
  Ok (MkOutput stdio fs fsb).
Definition output_within_ceilings (o : OutputGrant) : bool :=
  (stdio_bytes o <=? MAX_OUTPUT_STDIO_BYTES) && (files_bytes o <=? MAX_OUTPUT_FILES_BYTES).

(** ** Actions *)
Definition MAX_ACTION_PENDING : Z := 8.
Definition MAX_ACTION_TOTAL : Z := 64.
Definition MAX_ACTION_WAIT_SECS : Z := 3600.

Inductive ActionKind : Set := Approval | Decision__.
#[export] Instance ActionKind_eq_dec : EqDecision ActionKind.
Proof. solve_decision. Defined.

Record ActionGrant := MkActions {
  kinds : list ActionKind;
  max_pending : Z;
  max_total : Z;
  wait_secs : Z;
}.
Definition ActionGrant_new (ks : list ActionKind) (pending total wait : Z) :
    result ActionError ActionGrant :=
  _ ← fail_if (bool_decide (ks = []) || repeated ks || (pending =? 0) || (total =? 0)
               || (wait =? 0) || (total <? pending)) ActionInvalidGrant;
  Ok (MkActions ks pending total wait).
Definition actions_within_ceilings (a : ActionGrant) : bool :=
  (max_pending a <=? MAX_ACTION_PENDING) && (max_total a <=? MAX_ACTION_TOTAL)
  && (wait_secs a <=? MAX_ACTION_WAIT_SECS).

(** ** Resources *)
Definition MAX_RESOURCE_PIDS : Z := 65536.

Record NodeCapacity := MkCapacity { logical_cpus : Z; memory_bytes : Z }.
Record ResourceGrant := MkResources {
  cpu_millis : option Z;
  grant_memory : option Z;
  grant_pids : option Z;
}.
Definition positive_limit (limit : option Z) : result ResourceError (option Z) :=
  match limit with
  | None => Ok None
  | Some v => _ ← fail_if (v =? 0) ZeroLimit; Ok (Some v)
  end.
Definition ResourceGrant_new (cpu memory pids : option Z) : result ResourceError ResourceGrant :=
  _ ← fail_if (bool_decide (cpu = None) && bool_decide (memory = None)
               && bool_decide (pids = None)) EmptyLimits;
  c ← positive_limit cpu; m ← positive_limit memory; p ← positive_limit pids;
  Ok (MkResources c m p).
Definition limit_at_most (limit : option Z) (ceiling : Z) : bool :=
  match limit with None => true | Some v => v <=? ceiling end.
Definition resources_within_ceilings (g : ResourceGrant) (c : NodeCapacity) : bool :=
  limit_at_most (cpu_millis g) (saturating_mul u64_max (logical_cpus c) 1000)
  && limit_at_most (grant_memory g) (memory_bytes c)
  && limit_at_most (grant_pids g) MAX_RESOURCE_PIDS.

Record ResourceCapabilities := MkResourceCaps { caps_cpu : bool; caps_memory : bool; caps_pids : bool }.
Definition enforces (c : ResourceCapabilities) (g : ResourceGrant) : bool :=
  (bool_decide (cpu_millis g = None) || caps_cpu c)
  && (bool_decide (grant_memory g = None) || caps_memory c)
  && (bool_decide (grant_pids g = None) || caps_pids c).

(** ** Credentials *)
Definition MAX_CREDENTIAL_GRANTS : Z := 4.
Definition MAX_CREDENTIAL_SERVICE_BYTES : Z := 32.

Definition is_service (service : list byte) : bool :=
  match service with
  | [] => false
  | b :: _ =>
      (slen service <=? MAX_CREDENTIAL_SERVICE_BYTES) && is_ascii_lowercase b
      && forallb (λ b, is_ascii_lowercase b || is_ascii_digit b || bool_decide (b = "-"%char)) service
  end.
(** Of the two forms [IpAddr] parses, only dotted IPv4 is within the host grammar at all: an
    IPv6 literal has a [:], which no label may hold. *)
Definition is_host_name (host : list byte) : bool :=
  negb (starts_with (bytes "*.") host) && bool_decide (parse_v4 host = None)
  && is_ok (HostAllowlist_new [host]).

Record CredentialGrant := MkCredential {
  cg_service : list byte;
  cg_host : list byte;
  ttl_secs : Z;
}.
Definition CredentialGrant_new (service host : list byte) (ttl : Z) :
    result CredentialError CredentialGrant :=
  _ ← fail_if (negb (is_service service)) InvalidService;
  _ ← fail_if (negb (is_host_name host)) InvalidHost;
  _ ← fail_if (ttl =? 0) InvalidGrant;
  Ok (MkCredential service host ttl).

Definition CredentialGrants : Type := list CredentialGrant.
Definition CredentialGrants_new (grants : list CredentialGrant) :
    result CredentialError CredentialGrants :=
  _ ← fail_if (bool_decide (length grants = 0%nat) || (MAX_CREDENTIAL_GRANTS <? slen grants)
               || repeated (cg_service <$> grants)) InvalidGrant;
  Ok grants.
Definition credentials_within (grants : CredentialGrants) (allowlist : option HostAllowlist) :
    result CredentialError unit :=
  match allowlist with
  | Some l => fail_if (negb (forallb (λ g, allowlist_covers l (cg_host g)) grants))
                HostNotAllowlisted
  | None => Err HostNotAllowlisted
  end.

(** ** Holds *)
Definition MAX_HOLDS : Z := 8.

Record HoldGrant := MkHold { hold_hosts : list (list byte); hold_services : list (list byte) }.
Definition HoldGrant_new (hosts services : list (list byte)) : result HoldError HoldGrant :=
  let count := slen hosts + slen services in
  _ ← fail_if ((count =? 0) || (MAX_HOLDS <? count) || repeated hosts || repeated services
               || negb (forallb is_host_pattern hosts) || negb (forallb is_service services))
        InvalidHold;
  Ok (MkHold hosts services).

Definition hold_within (h : HoldGrant) (allowlist : option HostAllowlist)
    (credentials : option CredentialGrants) (ks : option (list ActionKind)) :
    result HoldError unit :=
  _ ← fail_if (negb (forallb (λ host, match allowlist with
                                      | Some l => bool_decide (host ∈ l)
                                      | None => false end) (hold_hosts h))) HostNotGranted;
  _ ← fail_if (negb (forallb (λ service, match credentials with
                                         | Some c => existsb (λ g, bool_decide (cg_service g = service)) c
                                         | None => false end) (hold_services h))) ServiceNotGranted;
  fail_if (negb (match ks with Some ks => bool_decide (Approval ∈ ks) | None => false end))
    ApprovalNotGranted.

(** ** Isolation *)
Inductive IsolationLevel : Set := Sandbox | Container | Microvm | Vm.
#[export] Instance IsolationLevel_eq_dec : EqDecision IsolationLevel.
Proof. solve_decision. Defined.
(** The derived [Ord]: the order of the variants. *)
Definition level_rank (l : IsolationLevel) : Z :=
  match l with Sandbox => 0 | Container => 1 | Microvm => 2 | Vm => 3 end.

Record IsolationGrant := MkIsolation { minimum : IsolationLevel }.
Definition IsolationGrant_new (l : IsolationLevel) : result IsolationError IsolationGrant :=
  match l with Sandbox => Err ImplicitMinimum | _ => Ok (MkIsolation l) end.

(** ** The manifest *)
Record CapabilityManifest := MkManifest {
  cm_network : NetworkGrant;
  cm_output : option OutputGrant;
  cm_resources : option ResourceGrant;
  cm_actions : option ActionGrant;
  cm_credentials : option CredentialGrants;
  cm_hold : option HoldGrant;
  cm_isolation : option IsolationGrant;
}.

Definition allowlist (m : CapabilityManifest) : option HostAllowlist :=
  match cm_network m with GrantOffline => None | GrantCustom l => Some l end.

Definition with_credentials (m : CapabilityManifest) (credentials : CredentialGrants) :
    result CredentialError CapabilityManifest :=
  _ ← credentials_within credentials (allowlist m);
  Ok (MkManifest (cm_network m) (cm_output m) (cm_resources m) (cm_actions m)
        (Some credentials) (cm_hold m) (cm_isolation m)).

Definition with_hold (m : CapabilityManifest) (hold : HoldGrant) :
    result HoldError CapabilityManifest :=
  _ ← hold_within hold (allowlist m) (cm_credentials m) (kinds <$> cm_actions m);
  Ok (MkManifest (cm_network m) (cm_output m) (cm_resources m) (cm_actions m)
        (cm_credentials m) (Some hold) (cm_isolation m)).

Definition minimum_isolation (m : CapabilityManifest) : IsolationLevel :=
  match cm_isolation m with Some i => minimum i | None => Sandbox end.

(** What [serde_json] decodes of a manifest before the crate's own checks. *)
Inductive NetworkGrantWire : Type := WireOffline | WireCustom (patterns : list (list byte)).
Record CapabilityManifestWire := MkManifestWire {
  mw_network : NetworkGrantWire;
  mw_output : option (Z * list (list byte) * Z);
  mw_resources : option (option Z * option Z * option Z);
  mw_actions : option (list ActionKind * Z * Z * Z);
  mw_credentials : option (list (list byte * list byte * Z));
  mw_hold : option (option (list (list byte)) * option (list (list byte)));
  mw_isolation : option IsolationLevel;
}.

(** [Option::map(try_from).transpose()] *)
Definition transpose {E A B} (f : A → result E B) (o : option A) : result E (option B) :=
  match o with None => Ok None | Some a => b ← f a; Ok (Some b) end.

Fixpoint collect {E A B} (f : A → result E B) (l : list A) : result E (list B) :=
  match l with [] => Ok [] | a :: l => b ← f a; bs ← collect f l; Ok (b :: bs) end.

Definition network_of_wire (w : NetworkGrantWire) : result TaskAdmissionError NetworkGrant :=
  match w with
  | WireOffline => Ok GrantOffline
  | WireCustom patterns => l ← HostAllowlist_new patterns; Ok (GrantCustom l)
  end.

Definition grants_from_wire (w : list (list byte * list byte * Z)) :
    result CredentialError CredentialGrants :=
  grants ← collect (λ '(service, host, ttl), CredentialGrant_new service host ttl) w;
  CredentialGrants_new grants.

Definition hold_from_wire (w : option (list (list byte)) * option (list (list byte))) :
    result HoldError HoldGrant :=
  _ ← fail_if (bool_decide (w.1 = Some []) || bool_decide (w.2 = Some [])) InvalidHold;
  HoldGrant_new (default [] w.1) (default [] w.2).

Definition manifest_of_wire (w : CapabilityManifestWire) :
    result TaskAdmissionError CapabilityManifest :=
  network ← network_of_wire (mw_network w);
  output ← map_err MalformedOutputGrant
             (transpose (λ '(s, f, b), OutputGrant_new s f b) (mw_output w));
  resources ← map_err (λ _, MalformedResourceGrant)
                (transpose (λ '(c, m, p), ResourceGrant_new c m p) (mw_resources w));
  actions ← map_err MalformedActionGrant
              (transpose (λ '(k, p, t, s), ActionGrant_new k p t s) (mw_actions w));
  isolation ← map_err MalformedIsolation (transpose IsolationGrant_new (mw_isolation w));
  let manifest := MkManifest network output resources actions None None isolation in
  manifest ← match mw_credentials w with
             | None => Ok manifest
             | Some grants =>
                 map_err MalformedCredentialGrant
                   (grants ← grants_from_wire grants; with_credentials manifest grants)
             end;
  match mw_hold w with
  | None => Ok manifest
  | Some hold =>
      map_err MalformedHold (hold ← hold_from_wire hold; with_hold manifest hold)
  end.

(** ** Lowercase hex *)
Definition lower_digit (c : byte) : option Z :=
  if is_ascii_digit c then Some (code c - 48)
  else if in_range 97 102 c then Some (code c - 97 + 10) else None.

Fixpoint decode_hex (l : list byte) : option (list byte) :=
  match l with
  | [] => Some []
  | [_] => None
  | c :: d :: l =>
      hi ← lower_digit c; lo ← lower_digit d; rest ← decode_hex l;
      Some (chr (Z.lor (Z.shiftl hi 4) lo) :: rest)
  end.

(** ** Workload, authority and envelope *)
Abbreviation ExecutionAttemptId := N.
Abbreviation NodeId := N.
Abbreviation SessionId := N.

Record TaskBinding := MkBinding {
  tb_task : TaskId;
  tb_attempt : ExecutionAttemptId;
  tb_lease : LeaseId;
}.
#[export] Instance TaskBinding_eq_dec : EqDecision TaskBinding.
Proof. solve_decision. Defined.

Definition MAX_MANIFEST_BYTES : Z := 8 * 1024.
Definition MAX_ADMISSION_LINEAGE : Z := 16.
Definition MAX_ADMISSION_ENVELOPE_BYTES : Z := 32 * 1024.

Definition validate_program (program : list byte) : bool :=
  negb (bool_decide (program = [])) && (slen program <=? 4096)
  && negb (bool_decide (chr 0 ∈ program))
  && (negb (bool_decide ("/"%char ∈ program)) || starts_with ["/"%char] program).

Record TaskAdmissionAuthority := MkAuthority {
  ta_lease : UntrustedAuthorityLease;
  ta_lineage : list UntrustedAuthorityLease;
}.
Definition TaskAdmissionAuthority_new (lease : UntrustedAuthorityLease)
    (lineage : list UntrustedAuthorityLease) : result TaskAdmissionError TaskAdmissionAuthority :=
  _ ← fail_if (MAX_ADMISSION_LINEAGE <? slen lineage) LineageTooLong;
  Ok (MkAuthority lease lineage).

Definition AdmissionVersion_new (value : Z) : result TaskAdmissionError Z :=
  _ ← fail_if (value =? 0) ZeroAdmissionVersion; Ok value.

Definition check_envelope_size (len : Z) : result TaskAdmissionError unit :=
  _ ← fail_if (len =? 0) EmptyEnvelope;
  fail_if (MAX_ADMISSION_ENVELOPE_BYTES <? len) EnvelopeTooLarge.

(** [AdmissionEnvelopeJson::new] *)
Definition AdmissionEnvelopeJson_new (json : list byte) : result TaskAdmissionError (list byte) :=
  _ ← check_envelope_size (slen json); Ok json.

Record CapabilityManifestBytes := MkManifestBytes {
  cmb_hash : Blake3Hash;
  cmb_bytes : list byte;
  cmb_manifest : CapabilityManifest;
}.

Record TaskWorkload := MkWorkload {
  tw_argv : list (list byte);
  tw_manifest : CapabilityManifestBytes;
  tw_snapshot : Blake3Hash;
  tw_budget_ms : Z;
  tw_adapter : option (list byte);
}.

Record TaskAdmissionEnvelope := MkEnvelope {
  e_binding : TaskBinding;
  e_agent : AgentId;
  e_node : NodeId;
  e_session : SessionId;
  e_authority : TaskAdmissionAuthority;
  e_workload : TaskWorkload;
  e_issued_at : Z;
  e_expires_at : Z;
  e_version : Z;
}.

(** What [serde_json] decodes of an envelope before the crate's own checks. *)
Record TaskAdmissionEnvelopeWire := MkEnvelopeWire {
  ew_binding : TaskBinding;
  ew_agent : AgentId;
  ew_node : NodeId;
  ew_session : SessionId;
  ew_lease : UntrustedAuthorityLease;
  ew_lineage : list UntrustedAuthorityLease;
  ew_argv : list (list byte);
  ew_manifest_hash : list byte;
  ew_manifest_hex : list byte;
  ew_snapshot : list byte;
  ew_budget_ms : Z;
  ew_adapter : option (list byte);
  ew_issued_at : Z;
  ew_expires_at : Z;
  ew_version : Z;
}.

(** [TaskWorkload::new] *)
Definition TaskWorkload_new (argv : list (list byte)) (m : CapabilityManifestBytes)
    (snapshot : Blake3Hash) (budget_ms : Z) : result TaskAdmissionError TaskWorkload :=
  _ ← fail_if (budget_ms =? 0) ZeroBudget;
  Ok (MkWorkload argv m snapshot budget_ms None).

(** [LaunchSpec::new] is called with no arguments, variables or settings, so its one check
    left is the program's. *)
Definition with_adapter (w : TaskWorkload) (adapter : list byte) :
    result TaskAdmissionError TaskWorkload :=
  _ ← fail_if (negb (validate_program (default [] (head (tw_argv w))))) AdapterProgram;
  Ok (MkWorkload (tw_argv w) (tw_manifest w) (tw_snapshot w) (tw_budget_ms w) (Some adapter)).

Definition TaskAdmissionEnvelope_new (e : TaskAdmissionEnvelope) :
    result TaskAdmissionError TaskAdmissionEnvelope :=
  _ ← fail_if (e_expires_at e <=? e_issued_at e) InvalidLifetime; Ok e.

Section Decoding.
Context (blake3 : list byte → Blake3Hash).
Context (parse_manifest : list byte → option CapabilityManifestWire).
Context (parse_envelope : list byte → option TaskAdmissionEnvelopeWire).

(** [CapabilityManifest::decode_json]: the declared paths are validated while [serde_json]
    decodes, so a bad one makes the manifest malformed. *)
Definition manifest_decode_json (b : list byte) : result TaskAdmissionError CapabilityManifest :=
  w ← ok_or (parse_manifest b) MalformedManifest;
  _ ← fail_if (match mw_output w with
               | Some (_, fs, _) => negb (forallb (λ p, is_ok (OutputPath_new p)) fs)
               | None => false end) MalformedManifest;
  manifest_of_wire w.

Definition CapabilityManifestBytes_new (b : list byte) :
    result TaskAdmissionError CapabilityManifestBytes :=
  _ ← fail_if (bool_decide (b = [])) EmptyManifest;
  _ ← fail_if (MAX_MANIFEST_BYTES <? slen b) ManifestTooLarge;
  m ← manifest_decode_json b;
  Ok (MkManifestBytes (blake3 b) b m).

Definition hash_of_hex (hex : list byte) : option Blake3Hash :=
  b ← decode_hex hex; match decide (length b = 32%nat) with
                      | left H => Some (eq_rect _ (vec byte) (list_to_vec b) _ H)
                      | right _ => None
                      end.

(** [impl Deserialize for CapabilityManifestBytes] *)
Definition manifest_bytes_of_wire (hash hex : list byte) :
    result TaskAdmissionError CapabilityManifestBytes :=
  hash ← ok_or (hash_of_hex hash) MalformedManifest;
  _ ← fail_if (saturating_mul usize_max MAX_MANIFEST_BYTES 2 <? slen hex) ManifestTooLarge;
  b ← ok_or (decode_hex hex) MalformedManifest;
  m ← CapabilityManifestBytes_new b;
  _ ← fail_if (bool_decide (cmb_hash m ≠ hash)) ManifestHashMismatch;
  Ok m.

(** The nested [Deserialize] implementations of an envelope (the grant set of every lease is
    one of them); whichever fails, [decode_json] reports a malformed envelope. *)
Definition envelope_of_wire (w : TaskAdmissionEnvelopeWire) :
    result TaskAdmissionError TaskAdmissionEnvelope :=
  _ ← fail_if (negb (forallb (λ l, is_ok (GrantSet_deserialize (w_grants l)))
                       (ew_lease w :: ew_lineage w))) MalformedEnvelope;
  authority ← TaskAdmissionAuthority_new (ew_lease w) (ew_lineage w);
  argv ← WorkloadArgv_new (ew_argv w);
  m ← manifest_bytes_of_wire (ew_manifest_hash w) (ew_manifest_hex w);
  snapshot ← ok_or (hash_of_hex (ew_snapshot w)) MalformedEnvelope;
  workload ← TaskWorkload_new argv m snapshot (ew_budget_ms w);
  workload ← match ew_adapter w with
             | Some a => with_adapter workload a
             | None => Ok workload
             end;
  version ← AdmissionVersion_new (ew_version w);
  Ok (MkEnvelope (ew_binding w) (ew_agent w) (ew_node w) (ew_session w) authority workload
        (ew_issued_at w) (ew_expires_at w) version).

Definition decode_json (b : list byte) : result TaskAdmissionError TaskAdmissionEnvelope :=
  _ ← check_envelope_size (slen b);
  w ← ok_or (parse_envelope b) MalformedEnvelope;
  e ← map_err (λ _, MalformedEnvelope) (envelope_of_wire w);
  TaskAdmissionEnvelope_new e.
End Decoding.

(** [AttemptEgress::start] builds the attempt's proxy policy from the granted patterns. *)
Definition attempt_capability (l : HostAllowlist) : NetworkCapability :=
  Custom (list_to_set (of_bytes <$> l)).

(** ** Lemmas *)
Lemma repeated_from_false {A} `{EqDecision A} (seen l : list A) :
  repeated_from seen l = false ↔ NoDup l ∧ (∀ x, x ∈ l → x ∉ seen).
Proof.
  revert seen. induction l as [|x l IH]; intros seen; cbn.
  { split; [|done]. split; [constructor|]. intros y Hy. by apply elem_of_nil in Hy. }
  rewrite orb_false_iff, bool_decide_eq_false, IH, NoDup_cons. split.
  - intros (Hx & Hnd & Hs). split_and!; [|done|].
    + intros Hin. apply (Hs x Hin). set_solver.
    + intros y [->|Hy]%elem_of_cons; [done|]. intros Hin. apply (Hs y Hy). set_solver.
  - intros ((Hx & Hnd) & Hs). split_and!; [by apply Hs, list_elem_of_here|done|].
    intros y Hy [Hin|Heq%list_elem_of_singleton]%elem_of_app.
    + apply (Hs y); [by apply list_elem_of_further|done].
    + by subst.
Qed.

Lemma repeated_false {A} `{EqDecision A} (l : list A) : repeated l = false ↔ NoDup l.
Proof.
  unfold repeated. rewrite repeated_from_false. split; [by intros [? _]|].
  intros Hl. split; [done|]. intros x _ Hx. by apply elem_of_nil in Hx.
Qed.

Lemma check_patterns_Ok seen ps u :
  check_patterns seen ps = Ok u ↔
  Forall (λ p, is_host_pattern p = true) ps ∧ NoDup ps ∧ (∀ p, p ∈ ps → p ∉ seen).
Proof.
  rewrite <-repeated_from_false. revert seen. destruct u.
  induction ps as [|p ps IH]; intros seen; cbn; [split; [split; [constructor|done]|done]|].
  rewrite !check_Ok, IH, negb_false_iff, orb_false_iff, Forall_cons. tauto.
Qed.

Lemma HostAllowlist_new_Ok ps l :
  HostAllowlist_new ps = Ok l ↔
  l = ps ∧ 1 ≤ slen ps ≤ MAX_HOSTS ∧ Forall (λ p, is_host_pattern p = true) ps ∧ NoDup ps.
Proof.
  unfold HostAllowlist_new, slen. rewrite !check_Ok.
  destruct ps as [|p ps].
  { cbn. split; [intros [[=] _]|]. intros (_ & [? _] & _). lia. }
  rewrite bool_decide_eq_false_2 by done.
  destruct (check_patterns [] (p :: ps)) as [[]|e] eqn:E.
  - apply check_patterns_Ok in E as (Hp & Hnd & _). cbn. split.
    + intros (_ & Hl%Z.ltb_ge & [= <-]). split_and!; try done; cbn; lia.
    + intros (-> & [_ Hl] & _). split_and!; [done|apply Z.ltb_ge, Hl|done].
  - split; [intros (_ & _ & [=])|]. intros (-> & [_ Hl] & Hp & Hnd).
    assert (check_patterns [] (p :: ps) = Ok tt) as Hc; [|congruence].
    apply check_patterns_Ok. split_and!; [done..|]. intros x _ Hx. by apply elem_of_nil in Hx.
Qed.

Lemma split_on_Forall (P : byte → Prop) c l :
  Forall (Forall P) (split_on c l) → Forall (λ b, b = c ∨ P b) l.
Proof.
  induction l as [|x l IH]; cbn; [done|].
  destruct (split_on_cons c l) as (w & ws & E). rewrite E in *.
  case_bool_decide; intros Hf.
  - apply Forall_cons in Hf as [_ Hf]. constructor; [by left|by apply IH].
  - apply Forall_cons in Hf as [Hxw Hws]. apply Forall_cons in Hxw as [Hx Hw].
    constructor; [by right|]. apply IH. by constructor.
Qed.

Lemma label_lower label :
  is_dns_label label = true → label ≠ [] ∧ Forall (λ b, to_ascii_lowercase b = b) label.
Proof.
  unfold is_dns_label, slen. intros Hl. bool_inv. split; [by intros ->|].
  match goal with H : forallb _ label = true |- _ => rewrite forallb_Forall in H; rename H into Hb end.
  eapply Forall_impl; [exact Hb|]. intros b Hc. cbn in Hc. unfold to_ascii_lowercase.
  destruct (is_ascii_uppercase b) eqn:E; [|done].
  apply in_range_spec in E. rewrite !orb_true_iff in Hc.
  destruct Hc as [[Hc|Hc]|Hc]; [apply in_range_spec in Hc; lia..|].
  apply bool_decide_eq_true in Hc as ->. vm_compute in E. by destruct E.
Qed.

Lemma split_on_head c l : head l = Some c → head (split_on c l) = Some [].
Proof.
  destruct l as [|x l]; cbn; [done|]. intros [= ->].
  destruct (split_on_cons c l) as (w & ws & ->). by rewrite bool_decide_eq_true_2.
Qed.

Lemma dotted_labels_clean name :
  name ≠ [] → forallb is_dns_label (split_on dot name) = true → clean_name name.
Proof.
  intros Hne Hl. rewrite forallb_Forall in Hl.
  assert (Forall (λ w, w ≠ [] ∧ Forall (λ b, to_ascii_lowercase b = b) w) (split_on dot name)) as Hw.
  { eapply Forall_impl; [exact Hl|]. apply label_lower. }
  assert ([] ∉ split_on dot name) as Hempty.
  { intros Hin. rewrite Forall_forall in Hw. by destruct (Hw [] Hin) as [[] _]. }
  split_and!; [done| | |].
  - unfold lower. assert (Forall (λ b, to_ascii_lowercase b = b) name) as Hb.
    { eapply Forall_impl; [apply (split_on_Forall (λ b, to_ascii_lowercase b = b) dot)|].
      - eapply Forall_impl; [exact Hw|]. by intros w [_ ?].
      - intros b [->|Hb]; [done|exact Hb]. }
    clear -Hb. induction Hb as [|b l Hb _ IH]; cbn; [done|]. by rewrite Hb, IH.
  - intros Hd. apply split_on_head in Hd. apply Hempty.
    apply head_Some in Hd as [ws ->]. apply list_elem_of_here.
  - intros [l' ->]%last_Some. apply Hempty. rewrite split_on_snoc. set_solver.
Qed.

Lemma is_host_pattern_clean p :
  is_host_pattern p = true → clean_name (default p (strip_prefix (bytes "*.") p)).
Proof. unfold is_host_pattern. intros Hp. bool_inv. by apply dotted_labels_clean. Qed.

(** The node's own cover test is the proxy's, on the names the proxy compares. *)
Lemma pattern_covers_host_matches p n :
  is_host_pattern p = true → clean_name n → pattern_covers n p = host_matches p n.
Proof.
  intros Hp%is_host_pattern_clean Hn. apply Bool.eq_true_iff_eq. unfold pattern_covers.
  destruct (strip_prefix (bytes "*.") p) as [name|] eqn:E; cbn [from_option id] in Hp.
  - apply strip_prefix_Some in E as ->. rewrite host_matches_wild, (clean_strip_dot n Hn).
    destruct (strip_suffix name n ≫= strip_suffix [dot]) as [labels|] eqn:El.
    + apply bind_Some in El as (m & Hm & Hlab). apply strip_suffix_Some in Hm, Hlab. subst.
      rewrite negb_true_iff, bool_decide_eq_false. rewrite <-app_assoc. split.
      * intros Hne. by exists labels, name.
      * intros (pre & rest & Heq & Hne & Hlow) ->. cbn in Heq. destruct pre as [|b pre]; [done|].
        apply (f_equal length) in Heq as Hlen. apply (f_equal length) in Hlow.
        unfold lower in Hlow. rewrite !length_fmap in Hlow. rewrite length_app in Hlen. cbn in Hlen. lia.
    + split; [done|]. intros (pre & rest & -> & Hne & Hlow). exfalso.
      assert (rest = name) as ->.
      { destruct Hp as (_ & Hp & _). destruct Hn as (_ & Hn & _).
        rewrite Hp in Hlow. rewrite <-Hlow. unfold lower in *.
        rewrite fmap_app in Hn. cbn in Hn. apply app_inj_1 in Hn as [_ Hn]; [|by rewrite length_fmap].
        injection Hn as Hn. symmetry. exact Hn. }
      assert (strip_suffix name (pre ++ dot :: name) = Some (pre ++ [dot])) as Hs.
      { apply strip_suffix_Some. by rewrite <-app_assoc. }
      rewrite Hs in El. change (strip_suffix [dot] (pre ++ [dot]) = None) in El.
      by rewrite (proj2 (strip_suffix_Some [dot] _ pre)) in El.
  - rewrite host_matches_exact, bool_decide_eq_true, (clean_strip_dot n Hn) by done.
    destruct Hp as (_ & -> & _). by destruct Hn as (_ & -> & _).
Qed.

Lemma allowlist_covers_admits l n :
  Forall (λ p, is_host_pattern p = true) l → clean_name n →
  allowlist_covers l n = admits (attempt_capability l) n.
Proof.
  intros Hl Hn. apply Bool.eq_true_iff_eq. unfold allowlist_covers, attempt_capability.
  rewrite existsb_Exists, admits_custom. rewrite Forall_forall in Hl. split.
  - intros (p & Hin & Hc). exists (of_bytes p). split.
    + apply elem_of_list_to_set. by apply list_elem_of_fmap_2.
    + rewrite bytes_of_bytes, <-pattern_covers_host_matches; auto.
  - intros (s & (p & -> & Hin)%elem_of_list_to_set%list_elem_of_fmap & Hm).
    exists p. split; [done|]. rewrite bytes_of_bytes in Hm.
    by rewrite pattern_covers_host_matches by auto.
Qed.

(** ** Coherence of a decoded manifest *)
Definition network_ok (n : NetworkGrant) : Prop :=
  ∀ l, n = GrantCustom l →
    1 ≤ slen l ≤ MAX_HOSTS ∧ Forall (λ p, is_host_pattern p = true) l ∧ NoDup l.

(** Credentials only for hosts the attempt's own proxy admits, one per service. *)
Definition credentials_ok (m : CapabilityManifest) : Prop :=
  ∀ cs, cm_credentials m = Some cs →
    1 ≤ slen cs ≤ MAX_CREDENTIAL_GRANTS ∧ NoDup (cg_service <$> cs) ∧
    ∃ l, cm_network m = GrantCustom l ∧
      Forall (λ g, admits (attempt_capability l) (cg_host g) = true ∧ parse_v4 (cg_host g) = None
                   ∧ ttl_secs g ≠ 0) cs.

(** A hold names only what the manifest grants, and the attempt can ask for approval. *)
Definition hold_ok (m : CapabilityManifest) : Prop :=
  ∀ h, cm_hold m = Some h →
    1 ≤ slen (hold_hosts h) + slen (hold_services h) ≤ MAX_HOLDS ∧
    (∀ host, host ∈ hold_hosts h → ∃ l, cm_network m = GrantCustom l ∧ host ∈ l) ∧
    (∀ service, service ∈ hold_services h →
       ∃ cs, cm_credentials m = Some cs ∧ service ∈ cg_service <$> cs) ∧
    ∃ a, cm_actions m = Some a ∧ Approval ∈ kinds a.

Definition actions_ok (a : ActionGrant) : Prop :=
  kinds a ≠ [] ∧ NoDup (kinds a) ∧ max_pending a ≠ 0 ∧ wait_secs a ≠ 0 ∧
  max_pending a ≤ max_total a.

Record coherent (m : CapabilityManifest) : Prop := {
  coh_network : network_ok (cm_network m);
  coh_credentials : credentials_ok m;
  coh_hold : hold_ok m;
  coh_actions : ∀ a, cm_actions m = Some a → actions_ok a;
  coh_output : ∀ o, cm_output m = Some o → NoDup (files o) ∧ slen (files o) ≤ MAX_OUTPUT_FILES;
  coh_isolation : ∀ i, cm_isolation m = Some i → minimum i ≠ Sandbox;
}.

Lemma transpose_Some {E A B} (f : A → result E B) o b :
  transpose f o = Ok (Some b) → ∃ a, o = Some a ∧ f a = Ok b.
Proof. destruct o as [a|]; cbn; [|done]. intros H. res_inv. simplify_eq. eauto. Qed.

Lemma collect_Forall {E A B} (f : A → result E B) (P : B → Prop) l bs :
  (∀ a b, f a = Ok b → P b) → collect f l = Ok bs → Forall P bs.
Proof.
  intros Hf. revert bs. induction l as [|a l IH]; cbn; intros bs H; res_inv; eauto.
Qed.

Lemma is_host_name_clean h :
  is_host_name h = true → clean_name h ∧ parse_v4 h = None.
Proof.
  unfold is_host_name. intros Hh. bool_inv.
  match goal with H : is_ok _ = true |- _ => apply is_ok_Ok in H as [l Hl] end.
  apply HostAllowlist_new_Ok in Hl as (-> & _ & Hp & _). apply Forall_cons in Hp as [Hp _].
  apply is_host_pattern_clean in Hp.
  destruct (strip_prefix (bytes "*.") h) as [name|] eqn:E; [|done].
  apply strip_prefix_Some in E. subst h.
  match goal with H : starts_with _ _ = false |- _ => rename H into Hs end.
  assert (starts_with (bytes "*.") (bytes "*." ++ name) = true) as Ht; [|congruence].
  apply starts_with_spec. by eexists.
Qed.

Lemma network_of_wire_ok w n : network_of_wire w = Ok n → network_ok n.
Proof.
  destruct w as [|ps]; cbn; intros H; res_inv; intros l Hl; simplify_eq.
  by match goal with H : HostAllowlist_new _ = Ok _ |- _ =>
    apply HostAllowlist_new_Ok in H as (-> & ? & ? & ?) end.
Qed.

Lemma with_credentials_ok m w cs m' :
  network_ok (cm_network m) → cm_hold m = None →
  grants_from_wire w = Ok cs → with_credentials m cs = Ok m' →
  credentials_ok m' ∧ cm_network m' = cm_network m ∧ cm_actions m' = cm_actions m ∧
  cm_output m' = cm_output m ∧ cm_isolation m' = cm_isolation m ∧ cm_hold m' = None.
Proof.
  intros Hn Hh Hg Hw. unfold grants_from_wire, CredentialGrants_new in Hg.
  unfold with_credentials, credentials_within, allowlist in Hw. res_inv. bool_inv.
  split; [|done]. intros cs' [= <-]. cbn in *.
  match goal with H : repeated _ = false |- _ => apply repeated_false in H end.
  destruct (cm_network m) as [|l] eqn:En; [done|]. res_inv. bool_inv.
  match goal with H : forallb _ cs = true |- _ => rewrite forallb_Forall in H; rename H into Hcov end.
  match goal with H : collect _ _ = Ok _ |- _ => apply (collect_Forall _ (λ g,
    clean_name (cg_host g) ∧ parse_v4 (cg_host g) = None ∧ ttl_secs g ≠ 0)) in H; [rename H into Hall|] end.
  - split_and!; [unfold slen; lia|done|done|]. exists l. split; [done|].
    apply Forall_forall. intros g Hin. rewrite Forall_forall in Hall, Hcov.
    destruct (Hall g Hin) as (Hc & Hv & Ht). split; [|done].
    rewrite <-allowlist_covers_admits; [by apply Hcov| |done]. by apply (Hn l).
  - intros [[svc host] ttl] g Hnew. unfold CredentialGrant_new in Hnew. res_inv. bool_inv. cbn.
    match goal with H : is_host_name _ = true |- _ => apply is_host_name_clean in H as [? ?] end.
    split_and!; done.
Qed.

Lemma with_hold_ok m w h m' :
  hold_from_wire w = Ok h → with_hold m h = Ok m' →
  hold_ok m' ∧ cm_network m' = cm_network m ∧ cm_actions m' = cm_actions m ∧
  cm_output m' = cm_output m ∧ cm_isolation m' = cm_isolation m ∧
  cm_credentials m' = cm_credentials m.
Proof.
  intros Hh Hw. unfold hold_from_wire, HoldGrant_new in Hh.
  unfold with_hold, hold_within, allowlist in Hw. res_inv. bool_inv.
  split; [|done]. intros h' [= <-]. cbn in *.
  repeat match goal with H : forallb _ _ = true |- _ =>
    rewrite forallb_Forall, Forall_forall in H end.
  split_and!.
  - unfold slen in *. lia.
  - unfold slen in *. lia.
  - intros host Hin.
    destruct (cm_network m) as [|l].
    + match goal with H : ∀ x, x ∈ default [] w.1 → false = true |- _ => by specialize (H host Hin) end.
    + exists l. split; [done|].
      match goal with H : ∀ x, x ∈ default [] w.1 → bool_decide (x ∈ l) = true |- _ =>
        specialize (H host Hin); by apply bool_decide_eq_true in H end.
  - intros service Hin.
    match goal with H : ∀ x, x ∈ default [] w.2 → match cm_credentials m with _ => _ end = true |- _ =>
      specialize (H service Hin); rename H into Hs end.
    destruct (cm_credentials m) as [cs|]; [|done]. exists cs. split; [done|].
    apply existsb_Exists in Hs as (g & Hg & <-%bool_decide_eq_true). by apply list_elem_of_fmap_2.
  - destruct (cm_actions m) as [a|]; cbn in *; [|done]. exists a. split; [done|].
    by match goal with H : bool_decide (Approval ∈ _) = true |- _ => apply bool_decide_eq_true in H end.
Qed.

Lemma manifest_of_wire_coherent w m : manifest_of_wire w = Ok m → coherent m.
Proof.
  unfold manifest_of_wire. intros H. res_inv.
  repeat match goal with H : map_err _ _ = Ok _ |- _ => apply map_err_Ok in H end.
  rename H into Hnet, H0 into Hout, H2 into Hact, H3 into Hiso, H4 into Hcred, H5 into Hhold.
  apply network_of_wire_ok in Hnet as Hnok.
  assert (credentials_ok x4 ∧ cm_network x4 = x ∧ cm_actions x4 = x2 ∧ cm_output x4 = x0 ∧
          cm_isolation x4 = x3 ∧ cm_hold x4 = None) as (Hc & <- & <- & <- & <- & Hnone).
  { destruct (mw_credentials w) as [grants|]; [|by simplify_eq].
    apply map_err_Ok in Hcred. res_inv.
    match goal with H : with_credentials ?m0 _ = Ok _ |- _ =>
      by apply (with_credentials_ok m0 grants _ x4) in H end. }
  assert (hold_ok m ∧ cm_network m = cm_network x4 ∧ cm_actions m = cm_actions x4 ∧
          cm_output m = cm_output x4 ∧ cm_isolation m = cm_isolation x4 ∧
          cm_credentials m = cm_credentials x4) as (Hh & En & Ea & Eo & Ei & Ec).
  { destruct (mw_hold w) as [hold|]; [|simplify_eq; split; [by intros ? ?; congruence|done]].
    apply map_err_Ok in Hhold. res_inv. by eapply with_hold_ok. }
  split; [by rewrite En| |done|..].
  - intros cs. rewrite Ec, En. apply Hc.
  - intros a Ha. rewrite Ea in Ha. rewrite Ha in Hact.
    apply transpose_Some in Hact as ([[[ks p] t] s] & _ & Hact).
    unfold ActionGrant_new in Hact. res_inv. bool_inv.
    match goal with H : repeated _ = false |- _ => apply repeated_false in H end.
    unfold actions_ok. cbn. split_and?; done || lia.
  - intros o Ho. rewrite Eo in Ho. rewrite Ho in Hout.
    apply transpose_Some in Hout as ([[s f] b] & _ & Hout).
    unfold OutputGrant_new in Hout. res_inv. bool_inv.
    match goal with H : repeated _ = false |- _ => apply repeated_false in H end. done.
  - intros i Hi. rewrite Ei in Hi. rewrite Hi in Hiso.
    apply transpose_Some in Hiso as (l & _ & Hl). destruct l; cbn in Hl; res_inv; done.
Qed.

(** ** The workload's arguments can be passed to [exec] *)
Fixpoint argv_bytes (args : list (list byte)) : Z :=
  match args with [] => 0 | a :: args => slen a + argv_bytes args end.
Definition argv_ok (args : list (list byte)) : Prop :=
  (∃ program rest, args = program :: rest ∧ program ≠ []) ∧ slen args ≤ MAX_ARGS ∧
  Forall (λ a, slen a ≤ MAX_ARG_BYTES ∧ chr 0 ∉ a) args ∧ argv_bytes args ≤ MAX_TOTAL_BYTES.

Lemma argv_bytes_nonneg args : 0 ≤ argv_bytes args.
Proof. induction args as [|a args IH]; cbn; unfold slen; lia. Qed.

Lemma argv_total_Ok t args t' :
  argv_total t args = Ok t' → t ≤ usize_max →
  t' = (t + argv_bytes args) `min` usize_max ∧
  Forall (λ a, slen a ≤ MAX_ARG_BYTES ∧ chr 0 ∉ a) args.
Proof.
  revert t. induction args as [|a args IH]; cbn; intros t H Ht.
  { res_inv. split; [lia|done]. }
  apply check_Ok in H as [Hlen H]. apply check_Ok in H as [Hnul H]. bool_inv.
  apply IH in H as [-> Hall]; [|unfold saturating_add; lia].
  pose proof (argv_bytes_nonneg args). split; [|by constructor].
  unfold saturating_add. cbn. lia.
Qed.

Lemma WorkloadArgv_new_Ok args args' : WorkloadArgv_new args = Ok args' → args' = args ∧ argv_ok args.
Proof.
  unfold WorkloadArgv_new. destruct args as [|p rest]; [done|]. intros H.
  apply check_Ok in H as [Hp H]. apply check_Ok in H as [Hn H].
  apply bind_Ok in H as (t & Ht & H). apply check_Ok in H as [Htot H]. res_inv. bool_inv.
  split; [done|]. apply argv_total_Ok in Ht as [-> Hall]; [|done].
  split_and!; [by eexists _, _|done|done|].
  unfold usize_max, u64_max, MAX_TOTAL_BYTES in *. lia.
Qed.

(** ** Properties *)

Lemma decode_json_fit blake3 parse_manifest parse_envelope b e :
  decode_json blake3 parse_manifest parse_envelope b = Ok e →
  let w := e_workload e in let m := tw_manifest w in
  1 ≤ slen b ≤ MAX_ADMISSION_ENVELOPE_BYTES ∧ argv_ok (tw_argv w) ∧
  cmb_hash m = blake3 (cmb_bytes m) ∧ 1 ≤ slen (cmb_bytes m) ≤ MAX_MANIFEST_BYTES ∧
  coherent (cmb_manifest m) ∧
  Forall (λ l, canonical (w_grants l)) (ta_lease (e_authority e) :: ta_lineage (e_authority e)) ∧
  slen (ta_lineage (e_authority e)) ≤ MAX_ADMISSION_LINEAGE ∧
  e_issued_at e < e_expires_at e ∧ tw_budget_ms w ≠ 0 ∧ e_version e ≠ 0.
Proof.
  unfold decode_json, check_envelope_size, TaskAdmissionEnvelope_new. intros H. res_inv. bool_inv.
  match goal with H : map_err _ _ = Ok _ |- _ => apply map_err_Ok in H; rename H into He end.
  unfold envelope_of_wire, TaskAdmissionAuthority_new, manifest_bytes_of_wire,
    CapabilityManifestBytes_new, manifest_decode_json, TaskWorkload_new, AdmissionVersion_new in He.
  res_inv. bool_inv.
  match goal with H : WorkloadArgv_new _ = Ok _ |- _ => apply WorkloadArgv_new_Ok in H as [-> ?] end.
  match goal with H : manifest_of_wire _ = Ok _ |- _ => apply manifest_of_wire_coherent in H end.
  match goal with H : forallb _ (ew_lease ?x :: _) = true |- _ =>
    rewrite forallb_Forall in H; rename H into Hcan; rename x into w end.
  assert (Forall (λ l, canonical (w_grants l)) (ew_lease w :: ew_lineage w)) as Hcan'.
  { eapply Forall_impl; [exact Hcan|]. intros l Hl. apply is_ok_Ok in Hl as [g Hg].
    by apply GrantSet_deserialize_Ok in Hg as [_ ?]. }
  assert (∀ b : list byte, b ≠ [] → 1 ≤ slen b) as Hne.
  { intros [|? ?] ?; [done|]. unfold slen. cbn. lia. }
  match goal with H : match ew_adapter _ with _ => _ end = Ok ?x |- _ =>
    assert (tw_argv x = ew_argv _ ∧ tw_manifest x = MkManifestBytes _ _ _ ∧ tw_budget_ms x = ew_budget_ms _)
      as (Ea & Em & Eb) by
      (destruct (ew_adapter _); [unfold with_adapter in H|]; res_inv; done) end.
  cbn in *. rewrite Ea, Em, Eb. cbn. split_and?; try done; try lia; try (by apply Hne).
  unfold slen in *. lia.
Qed.

(** An admission envelope that decodes is fit to run, whatever the bytes were: its
    arguments can be passed to [exec], its manifest bytes are those its hash names and its
    manifest is coherent (in particular every credential is for a host the attempt's own
    proxy admits, and every hold is on something granted, with a way to ask), and its
    lineage, lifetime, budget and version are within bounds. *)
Theorem envelope_fit_to_run blake3 parse_manifest parse_envelope b e :
  decode_json blake3 parse_manifest parse_envelope b = Ok e →
  let w := e_workload e in let m := tw_manifest w in
  1 ≤ slen b ≤ MAX_ADMISSION_ENVELOPE_BYTES ∧ argv_ok (tw_argv w) ∧
  cmb_hash m = blake3 (cmb_bytes m) ∧ 1 ≤ slen (cmb_bytes m) ≤ MAX_MANIFEST_BYTES ∧
  coherent (cmb_manifest m) ∧
  Forall (λ l, canonical (w_grants l)) (ta_lease (e_authority e) :: ta_lineage (e_authority e)) ∧
  slen (ta_lineage (e_authority e)) ≤ MAX_ADMISSION_LINEAGE ∧
  e_issued_at e < e_expires_at e ∧ tw_budget_ms w ≠ 0 ∧ e_version e ≠ 0.
Proof. apply decode_json_fit. Qed.

(** The node's allowlist is the proxy's: for every name the request parser can produce, a
    valid allowlist covers it exactly when the proxy the attempt is given admits it. *)
Theorem allowlist_is_proxy_policy ps l host n :
  HostAllowlist_new ps = Ok l → parse_host host = Ok (Name n) →
  allowlist_covers l n = admits (attempt_capability l) n.
Proof.
  intros (-> & _ & Hp & _)%HostAllowlist_new_Ok Hn%parse_host_Name.
  by apply allowlist_covers_admits.
Qed.

(** ** A concrete envelope *)
Module ManifestExample.
Import AuthorityExample.
Definition hash0 : Blake3Hash := vreplicate 32 (chr 0).
Definition blake (_ : list byte) : Blake3Hash := hash0.
Definition hosts : list (list byte) := [bytes "deploy.example.com"; bytes "*.crates.io"].
Definition manifest_wire : CapabilityManifestWire :=
  MkManifestWire (WireCustom hosts) (Some (1024, [bytes "out/report.txt"], 4096))
    (Some (Some 500, None, Some 64)) (Some ([Approval], 1, 2, 300))
    (Some [(bytes "artifacts", bytes "static.crates.io", 600)])
    (Some (Some [bytes "deploy.example.com"], Some [bytes "artifacts"])) None.
Definition parse_m (b : list byte) : option CapabilityManifestWire :=
  if bool_decide (b = bytes "manifest") then Some manifest_wire else None.
Definition envelope_wire : TaskAdmissionEnvelopeWire :=
  MkEnvelopeWire (MkBinding 5 1 2) 101 90 91 (untrusted_of child_lease) [untrusted_of root_lease]
    [bytes "build"; bytes "--release"] (encode_hex hash0) (encode_hex (bytes "manifest"))
    (encode_hex hash0) 60000 None 2000 3000 5.
Definition parse_e (b : list byte) : option TaskAdmissionEnvelopeWire :=
  if bool_decide (b = bytes "envelope") then Some envelope_wire else None.
Definition envelope0 : result TaskAdmissionError TaskAdmissionEnvelope :=
  decode_json blake parse_m parse_e (bytes "envelope").
End ManifestExample.
Import ManifestExample.

Lemma envelope_fit_to_run_witness :
  match envelope0 with
  | Ok e => coherent (cmb_manifest (tw_manifest (e_workload e))) ∧ argv_ok (tw_argv (e_workload e))
  | Err _ => False
  end.
Proof.
  destruct envelope0 as [e|err] eqn:E; [|vm_compute in E; discriminate E].
  apply (envelope_fit_to_run blake parse_m parse_e) in E as (_ & Ha & _ & _ & Hc & _). split; [exact Hc|exact Ha].
Defined.

Lemma allowlist_is_proxy_policy_witness :
  allowlist_covers hosts (bytes "static.crates.io")
  = admits (attempt_capability hosts) (bytes "static.crates.io") ∧
  allowlist_covers hosts (bytes "static.crates.io") = true.
Proof.
  split; [|vm_compute; reflexivity].
  apply (allowlist_is_proxy_policy hosts hosts (bytes "Static.Crates.io.")); vm_compute; reflexivity.
Defined.
