(* ===== verification/Actions.v ===== *)
(** * Actions: the action channel of an attempt ([crates/ward-node/src/actions.rs], with the
      requests of [crates/ward-node-protocol/src/actions.rs] and the held capabilities of
      [hold.rs])

    A workload asks for approvals on its channel; the node opens requests of its own for the
    capabilities its manifest holds.  The channel's threads only queue records; the registry
    appends them, and what is answered is recorded.  The state is [Channel], with two facts of
    the world beside it: the records that were appended, and what the workload was told.
    Whether an append or a send succeeds is the call's [Oracle]; an instant is a number of
    milliseconds.  The theorems say that a held capability is released only by a recorded
    approval, that every request is answered exactly once, and how much a hostile workload can
    make the node record. *)

From stdpp Require Import base numbers option gmap sorting strings vector list.
From S2P Require Import Prelude Bytes Policy Egress Http Gateway Manifest.
Local Open Scope Z_scope.

Abbreviation OperationId := N.

(** ** Requests *)
Definition MAX_ACTION_ID_BYTES : Z := 64.
Definition MAX_ACTION_SUMMARY_BYTES : Z := 512.
Definition MAX_ACTION_DETAIL_BYTES : Z := 16 * 1024.
Definition MAX_ACTION_LINE_BYTES : Z := 128 * 1024.
Definition MAX_ACTION_CONNECTIONS : nat := 8.
Definition MAX_ACTION_REFUSALS : Z := 16.

Inductive ActionRequestError : Set := TooLong | MalformedRequest.
Inductive ActionDecision : Set := Approved | Denied | Expired | Cancelled.
#[export] Instance ActionDecision_eq_dec : EqDecision ActionDecision.
Proof. solve_decision. Defined.
Definition answerable (d : ActionDecision) : bool := match d with Approved | Denied => true | _ => false end.

Definition action_id_byte (b : byte) : bool :=
  is_ascii_alphanumeric b || bool_decide (b ∈ bytes "._:-").
Definition ActionId_new (id : list byte) : result ActionRequestError (list byte) :=
  _ ← fail_if (bool_decide (id = []) || (MAX_ACTION_ID_BYTES <? slen id) || negb (forallb action_id_byte id)) MalformedRequest;
  Ok id.
Record ActionRequest := MkActionRequest {
  ar_id : list byte;
  ar_kind : ActionKind;
  ar_summary : list byte;
  ar_detail : list byte;
}.
Definition check_text (summary detail : list byte) : result ActionRequestError unit :=
  _ ← fail_if ((MAX_ACTION_SUMMARY_BYTES <? slen summary) || (MAX_ACTION_DETAIL_BYTES <? slen detail)) TooLong;
  fail_if (bool_decide (summary = [])) MalformedRequest.
Definition ActionRequest_new (id : list byte) (kind : ActionKind) (summary detail : list byte) :
    result ActionRequestError ActionRequest :=
  _ ← check_text summary detail;
  Ok (MkActionRequest id kind summary detail).

(** ** Held capabilities *)
Inductive HeldCapability : Type := HeldHost (pattern : list byte) | HeldService (name : list byte).
#[export] Instance HeldCapability_eq_dec : EqDecision HeldCapability.
Proof. solve_decision. Defined.
Definition held_summary (h : HeldCapability) : list byte :=
  match h with HeldHost p => bytes "network " ++ p | HeldService n => bytes "credential " ++ n end.
Definition held_detail (h : HeldCapability) : list byte :=
  match h with
  | HeldHost p => bytes "the node refuses requests to " ++ p ++ bytes " until this is approved"
  | HeldService n => bytes "the node injects no " ++ n ++ bytes " credential until this is approved"
  end.
Definition hold_request_id (index : nat) : list byte := bytes "hold:" ++ dec_display (Z.of_nat index + 1).
Definition held_of (g : HoldGrant) : list HeldCapability := (HeldHost <$> hold_hosts g) ++ (HeldService <$> hold_services g).

(** ** Lines of the channel *)
Inductive NodeActionRefusal : Set :=
| Oversized | MalformedLine_ | ControlRequest | KindNotGranted | DuplicateId | TooManyPending | TooManyRequests.

(** What [serde_json] makes of a line: nothing, an object with one of the members of the node's
    own protocols, or the fields of a request where they have their types. *)
Inductive LineJson : Type :=
| NotJson
| ControlObject
| RequestFields (id : list byte) (kind : ActionKind) (summary detail : list byte)
| OtherJson.
Definition classify_line (json : list byte → LineJson) (line : list byte) : result NodeActionRefusal ActionRequest :=
  _ ← fail_if (MAX_ACTION_LINE_BYTES <? slen line) Oversized;
  match json line with
  | NotJson | OtherJson => Err MalformedLine_
  | ControlObject => Err ControlRequest
  | RequestFields id kind summary detail =>
      id ← map_err (λ _, MalformedLine_) (ActionId_new id);
      map_err (λ e, match e with TooLong => Oversized | MalformedRequest => MalformedLine_ end)
        (ActionRequest_new id kind summary detail)
  end.

(** ** The channel *)
Record Pending := MkPending {
  pd_request : ActionRequest;
  pd_conn : option Z;
  pd_deadline : Z;
  pd_recorded : bool;
  pd_hold : option HeldCapability;
}.
Record HoldSlot := MkSlot { hs_held : HeldCapability; hs_action : option Z }.
Definition slot_covers (s : HoldSlot) (host service : option (list byte)) : bool :=
  match hs_held s with
  | HeldHost pattern => match host with Some h => host_matches pattern h | None => false end
  | HeldService name => bool_decide (service = Some name)
  end.

Inductive ActionEvent : Type :=
| NodeActionRequested (action : Z) (kind : ActionKind) (summary_bytes : Z) (summary : Blake3Hash)
    (detail_bytes : Z) (detail : Blake3Hash)
| NodeActionAnswered (action : Z) (decision : ActionDecision) (operation : option OperationId)
    (note_bytes : Z) (note : option Blake3Hash)
| NodeActionRefused (reason : NodeActionRefusal) (bytes : Z).

Abbreviation AnswerKey := (Z * ActionDecision * option (list byte))%type.
Record Channel := MkChannel {
  next_action : Z;
  sent : Z;
  ids : gset (list byte);
  pending : gmap Z Pending;
  answered : gmap Z ActionDecision;
  answer_ops : gmap OperationId AnswerKey;
  queue : list ActionEvent;
  connections : gset Z;
  next_conn : Z;
  refusals : Z;
  paused_since : option Z;
  closed : bool;
  holds : list HoldSlot;
  (** the records tried and the ones appended, and what was written to the workload *)
  tries : nat;
  appended : list ActionEvent;
  told : list (Z * list byte * ActionDecision * option (list byte));
}.
(** Whether the [n]th append of the attempt succeeds, and the reply to a request. *)
Record Oracle := MkOracle { or_record : nat → bool; or_send : Z → bool }.

Definition set_pending (c : Channel) (p : gmap Z Pending) : Channel :=
  MkChannel (next_action c) (sent c) (ids c) p (answered c) (answer_ops c) (queue c) (connections c) (next_conn c)
    (refusals c) (paused_since c) (closed c) (holds c) (tries c) (appended c) (told c).
Definition set_answered (c : Channel) (x : gmap Z ActionDecision) : Channel :=
  MkChannel (next_action c) (sent c) (ids c) (pending c) x (answer_ops c) (queue c) (connections c) (next_conn c)
    (refusals c) (paused_since c) (closed c) (holds c) (tries c) (appended c) (told c).
Definition set_answer_ops (c : Channel) (x : gmap OperationId AnswerKey) : Channel :=
  MkChannel (next_action c) (sent c) (ids c) (pending c) (answered c) x (queue c) (connections c) (next_conn c)
    (refusals c) (paused_since c) (closed c) (holds c) (tries c) (appended c) (told c).
Definition set_queue (c : Channel) (x : list ActionEvent) : Channel :=
  MkChannel (next_action c) (sent c) (ids c) (pending c) (answered c) (answer_ops c) x (connections c) (next_conn c)
    (refusals c) (paused_since c) (closed c) (holds c) (tries c) (appended c) (told c).
Definition set_connections (c : Channel) (x : gset Z) (next : Z) : Channel :=
  MkChannel (next_action c) (sent c) (ids c) (pending c) (answered c) (answer_ops c) (queue c) x next
    (refusals c) (paused_since c) (closed c) (holds c) (tries c) (appended c) (told c).
Definition set_refusals (c : Channel) (x : Z) : Channel :=
  MkChannel (next_action c) (sent c) (ids c) (pending c) (answered c) (answer_ops c) (queue c) (connections c)
    (next_conn c) x (paused_since c) (closed c) (holds c) (tries c) (appended c) (told c).
Definition set_paused_since (c : Channel) (x : option Z) : Channel :=
  MkChannel (next_action c) (sent c) (ids c) (pending c) (answered c) (answer_ops c) (queue c) (connections c)
    (next_conn c) (refusals c) x (closed c) (holds c) (tries c) (appended c) (told c).
Definition set_holds (c : Channel) (x : list HoldSlot) : Channel :=
  MkChannel (next_action c) (sent c) (ids c) (pending c) (answered c) (answer_ops c) (queue c) (connections c)
    (next_conn c) (refusals c) (paused_since c) (closed c) x (tries c) (appended c) (told c).
Definition set_appended (c : Channel) (n : nat) (x : list ActionEvent) : Channel :=
  MkChannel (next_action c) (sent c) (ids c) (pending c) (answered c) (answer_ops c) (queue c) (connections c)
    (next_conn c) (refusals c) (paused_since c) (closed c) (holds c) n x (told c).
Definition set_told (c : Channel) (x : list (Z * list byte * ActionDecision * option (list byte))) : Channel :=
  MkChannel (next_action c) (sent c) (ids c) (pending c) (answered c) (answer_ops c) (queue c) (connections c)
    (next_conn c) (refusals c) (paused_since c) (closed c) (holds c) (tries c) (appended c) x.

(** ** Operations *)
Section channel.
Context (blake3 : list byte → Blake3Hash) (json : list byte → LineJson) (grant : ActionGrant).

Definition requested_event (action : Z) (request : ActionRequest) : ActionEvent :=
  NodeActionRequested action (ar_kind request) (slen (ar_summary request)) (blake3 (ar_summary request))
    (slen (ar_detail request)) (blake3 (ar_detail request)).
Definition answered_event (action : Z) (decision : ActionDecision) (operation : option OperationId)
    (note : option (list byte)) : ActionEvent :=
  NodeActionAnswered action decision operation (from_option slen 0 note) (blake3 <$> note).

(** The registry's append. *)
Definition record (o : Oracle) (e : ActionEvent) (c : Channel) : bool * Channel :=
  let ok := or_record o (tries c) in
  (ok, set_appended c (S (tries c)) (if ok then appended c ++ [e] else appended c)).
Definition push (e : ActionEvent) (c : Channel) : Channel := set_queue c (queue c ++ [e]).
Definition wait_ms : Z := wait_secs grant * 1000.

(** The entries of [pending] in the order of their numbers. *)
Definition entries (c : Channel) : list (Z * Pending) := btree (pending c).

Definition reply (o : Oracle) (action : Z) (p : Pending) (d : ActionDecision) (note : option (list byte)) (c : Channel) : Channel :=
  match pd_conn p with
  | None => c
  | Some conn =>
      if bool_decide (conn ∈ connections c) then
        if or_send o action then set_told c (told c ++ [(action, ar_id (pd_request p), d, note)])
        else set_connections c (connections c ∖ {[conn]}) (next_conn c)
      else c
  end.
Definition mark_answered (action : Z) (d : ActionDecision) (c : Channel) : Channel :=
  set_answered c (<[action := d]> (answered c)).
Definition remove_pending (action : Z) (c : Channel) : Channel := set_pending c (delete action (pending c)).

Definition waiting (c : Channel) : Z :=
  Z.of_nat (size (filter (λ e : Z * Pending, is_Some (pd_conn e.2)) (pending c))).
Definition allows (k : ActionKind) : bool := bool_decide (k ∈ kinds grant).
Definition count_action (workload : bool) (id : list byte) (c : Channel) : Channel :=
  MkChannel (next_action c + 1) (if workload then sent c + 1 else sent c)
    (if workload then {[id]} ∪ ids c else ids c) (pending c) (answered c) (answer_ops c) (queue c) (connections c)
    (next_conn c) (refusals c) (paused_since c) (closed c) (holds c) (tries c) (appended c) (told c).
Definition insert_pending (action : Z) (p : Pending) (c : Channel) : Channel := set_pending c (<[action := p]> (pending c)).

Definition register (now conn : Z) (request : ActionRequest) (c : Channel) :
    result (option NodeActionRefusal) unit * Channel :=
  if closed c then (Err None, c)
  else if negb (allows (ar_kind request)) then (Err (Some KindNotGranted), c)
  else if bool_decide (ar_id request ∈ ids c) then (Err (Some DuplicateId), c)
  else if max_pending grant <=? waiting c then (Err (Some TooManyPending), c)
  else if max_total grant <=? sent c then (Err (Some TooManyRequests), c)
  else
    let c := count_action true (ar_id request) c in
    let action := next_action c in
    let deadline := default now (paused_since c) + wait_ms in
    (Ok tt, insert_pending action (MkPending request (Some conn) deadline false None)
              (push (requested_event action request) c)).

(** *** Held capabilities *)
Definition hold_request (index : nat) (held : HeldCapability) : result ActionRequestError ActionRequest :=
  ActionRequest_new (hold_request_id index) Approval (held_summary held) (held_detail held).
Definition open (index : nat) (slot : HoldSlot) (now : Z) (c : Channel) : option Z * Channel :=
  match hold_request index (hs_held slot) with
  | Err _ => (None, c)
  | Ok request =>
      let c := count_action false [] c in
      let action := next_action c in
      let started := default now (paused_since c) in
      let c := push (requested_event action request) c in
      let c := insert_pending action (MkPending request None (started + wait_ms) false (Some (hs_held slot))) c in
      (Some action, set_holds c (<[index := MkSlot (hs_held slot) (Some action)]> (holds c)))
  end.
Inductive HeldState : Set := HoldCancelled | HoldAnswered (d : ActionDecision) (action : Z) | HoldHeld (action : Z).
(** The [Held] of a state, for the observer and the client; [hold_state] never answers with an
    approved one. *)
Definition held_texts (h : HeldState) : Held :=
  let answer_texts (name : string) (action : Z) (body : string) :=
    MkHeld (bytes "hold:" ++ bytes name ++ bytes ":" ++ dec_display action) body in
  match h with
  | HoldCancelled => MkHeld (bytes "hold:cancelled") "approval cancelled"
  | HoldAnswered Approved action => answer_texts "approved" action ""
  | HoldAnswered Denied action => answer_texts "denied" action "approval denied"
  | HoldAnswered Expired action => answer_texts "expired" action "approval expired"
  | HoldAnswered Cancelled action => answer_texts "cancelled" action "approval cancelled"
  | HoldHeld action => answer_texts "held" action "held for approval"
  end.
(** An index is one of [holds]: the source's indexing cannot panic. *)
Definition hold_state (index : nat) (now : Z) (c : Channel) : option HeldState * Channel :=
  match holds c !! index with
  | None => (None, c)
  | Some slot =>
      let '(opened, c) :=
        match hs_action slot with
        | Some action => (Some action, c)
        | None => if closed c then (None, c) else open index slot now c
        end in
      (match opened with
       | None => Some HoldCancelled
       | Some action =>
           match answered c !! action with
           | Some Approved => None
           | Some d => Some (HoldAnswered d action)
           | None => Some (HoldHeld action)
           end
       end, c)
  end.
Definition covering (host service : option (list byte)) (c : Channel) : list nat :=
  List.filter (λ i, from_option (λ s, slot_covers s host service) false (holds c !! i)) (seq 0 (length (holds c))).
Fixpoint hold_states (now : Z) (indices : list nat) (c : Channel) : list HeldState * Channel :=
  match indices with
  | [] => ([], c)
  | i :: indices =>
      let '(r, c) := hold_state i now c in
      let '(rs, c) := hold_states now indices c in
      (match r with Some h => h :: rs | None => rs end, c)
  end.
Definition held (host service : option (list byte)) (now : Z) (c : Channel) : option HeldState * Channel :=
  let '(rs, c) := hold_states now (covering host service c) c in (head rs, c).
(** [ActionHold::held], what the attempt's proxy asks. *)
Definition strip_slash (prefix : list byte) : option (list byte) :=
  match prefix with b :: rest => if bool_decide (bytes "/" = [b]) then Some rest else None | [] => None end.
Definition ask_hold (now : Z) (target : Target) (route : option (list byte)) (c : Channel) : option HeldState * Channel :=
  held (match t_host target with Name name => Some name | Ip _ => None end) (route ≫= strip_slash) now c.

(** *** Closing *)
Definition shut (c : Channel) : Channel :=
  MkChannel (next_action c) (sent c) (ids c) (pending c) (answered c) (answer_ops c) (queue c) ∅ (next_conn c)
    (refusals c) (paused_since c) true (holds c) (tries c) (appended c) (told c).
Definition close_one (o : Oracle) (c : Channel) (e : Z * Pending) : Channel :=
  reply o e.1 e.2 Cancelled None (push (answered_event e.1 Cancelled None None) (mark_answered e.1 Cancelled c)).
Definition close (o : Oracle) (c : Channel) : Channel :=
  if closed c then c else shut (foldl (close_one o) (set_pending c ∅) (entries c)).
Definition refuse (o : Oracle) (reason : NodeActionRefusal) (n : Z) (c : Channel) : Channel :=
  if closed c then c
  else
    let c := push (NodeActionRefused reason n) (set_refusals c (refusals c + 1)) in
    if MAX_ACTION_REFUSALS <=? refusals c then close o c else c.
Definition withdraw_one (c : Channel) (action : Z) : Channel :=
  push (answered_event action Cancelled None None) (mark_answered action Cancelled (remove_pending action c)).
Definition withdraw (conn : Z) (c : Channel) : Channel :=
  let withdrawn := (List.filter (λ e, bool_decide (pd_conn e.2 = Some conn)) (entries c)).*1 in
  let c := foldl withdraw_one c withdrawn in
  set_connections c (connections c ∖ {[conn]}) (next_conn c).

(** *** The registry's side *)
Definition mark_recorded (action : Z) (c : Channel) : Channel :=
  set_pending c (alter (λ p, MkPending (pd_request p) (pd_conn p) (pd_deadline p) true (pd_hold p)) action (pending c)).
Definition flush_one (o : Oracle) (c : Channel) (e : ActionEvent) : Channel :=
  let '(recorded, c) := record o e c in
  match e with
  | NodeActionRequested action _ _ _ _ _ =>
      if recorded then mark_recorded action c
      else match pending c !! action with
           | Some p => reply o action p Cancelled None (mark_answered action Cancelled (remove_pending action c))
           | None => c
           end
  | _ => c
  end.
Definition flush (o : Oracle) (c : Channel) : Channel := foldl (flush_one o) (set_queue c []) (queue c).
Definition is_due (now : Z) (p : Pending) : bool := pd_recorded p && (pd_deadline p <=? now).
Definition expire_one (o : Oracle) (c : Channel) (action : Z) : Channel :=
  let c := (record o (answered_event action Expired None None) c).2 in
  match pending c !! action with
  | Some p => reply o action p Expired None (mark_answered action Expired (remove_pending action c))
  | None => c
  end.
Definition expire (o : Oracle) (now : Z) (c : Channel) : Channel :=
  match paused_since c with
  | Some _ => c
  | None => foldl (expire_one o) c (List.filter (λ e, is_due now e.2) (entries c)).*1
  end.
Definition due (now : Z) (c : Channel) : bool :=
  negb (bool_decide (queue c = []))
  || bool_decide (paused_since c = None) && existsb (λ e, is_due now e.2) (map_to_list (pending c)).
Definition tend (o : Oracle) (now : Z) (c : Channel) : Channel := expire o now (flush o c).
Record PendingAction := MkPendingAction {
  pa_action : Z; pa_request : ActionRequest; pa_expires_in_ms : Z; pa_hold : option HeldCapability }.
Definition PendingAction_of (clock : Z) (e : Z * Pending) : option PendingAction :=
  if e.1 =? 0 then None
  else Some (MkPendingAction e.1 (pd_request e.2) (saturating_sub (pd_deadline e.2) clock `min` u64_max) (pd_hold e.2)).
Definition list_actions (o : Oracle) (now : Z) (c : Channel) : list PendingAction * Channel :=
  let c := tend o now c in
  let clock := default now (paused_since c) in
  (omap (PendingAction_of clock) (List.filter (λ e, pd_recorded e.2) (entries c)), c).

Inductive ActionRejectionReason : Set :=
| TaskNotFound | AttemptMismatch | LeaseMismatch | InvalidState | UnsupportedOperation | ResourceUnavailable | StaleOperation
| UnknownRequest | AlreadyAnswered.
Definition replay (op : OperationId) (action : Z) (d : ActionDecision) (note : option (list byte)) (c : Channel) :
    option (result ActionRejectionReason ActionDecision) :=
  key ← answer_ops c !! op;
  Some (if bool_decide (key = (action, d, note)) then Ok d else Err StaleOperation).
Definition answer (o : Oracle) (now : Z) (op : OperationId) (action : Z) (d : ActionDecision)
    (note : option (list byte)) (c : Channel) : result ActionRejectionReason ActionDecision * Channel :=
  match replay op action d note c with
  | Some replayed => (replayed, c)
  | None =>
      let c := tend o now c in
      match pending c !! action with
      | Some p =>
          if pd_recorded p then
            let '(recorded, c) := record o (answered_event action d (Some op) note) c in
            if negb recorded then (Err ResourceUnavailable, c)
            else
              let c := reply o action p d note (remove_pending action c) in
              let c := mark_answered action d c in
              (Ok d, set_answer_ops c (<[op := (action, d, note)]> (answer_ops c)))
          else (Err (if bool_decide (is_Some (answered c !! action)) then AlreadyAnswered else UnknownRequest), c)
      | None => (Err (if bool_decide (is_Some (answered c !! action)) then AlreadyAnswered else UnknownRequest), c)
      end
  end.
Definition delay (ms : Z) (p : Pending) : Pending :=
  MkPending (pd_request p) (pd_conn p) (pd_deadline p + ms) (pd_recorded p) (pd_hold p).
Definition set_paused (paused : bool) (now : Z) (c : Channel) : Channel :=
  match paused, paused_since c with
  | true, None => set_paused_since c (Some now)
  | false, Some since => set_paused_since (set_pending c (delay (saturating_sub now since) <$> pending c)) None
  | _, _ => c
  end.
Definition finish_one (o : Oracle) (c : Channel) (e : Z * Pending) : Channel :=
  let c := (record o (answered_event e.1 Cancelled None None) c).2 in
  reply o e.1 e.2 Cancelled None (mark_answered e.1 Cancelled c).
Definition finish (o : Oracle) (c : Channel) : Channel :=
  let c := flush o c in
  let c := foldl (finish_one o) (set_pending c ∅) (entries c) in
  flush o (if closed c then c else shut c).

(** *** Connections *)
Definition accept (spawned : bool) (c : Channel) : option Z * Channel :=
  if closed c then (None, c)
  else if (MAX_ACTION_CONNECTIONS <=? size (connections c))%nat then (None, c)
  else
    let conn := next_conn c in
    let c := set_connections c ({[conn]} ∪ connections c) (conn + 1) in
    if spawned then (Some conn, c) else (None, withdraw conn c).
(** What [read_until] gave: nothing, or bytes of at most two more than a line may have. *)
Definition chomp (line : list byte) : option (list byte) :=
  match rev line with
  | b :: rest =>
      if bool_decide (b = LF) then
        Some (rev (match rest with r :: rest' => if bool_decide (r = CR) then rest' else rest | [] => rest end))
      else None
  | [] => None
  end.
(** One turn of a connection's loop; the flag says whether the loop goes on. *)
Definition serve_line (o : Oracle) (now conn : Z) (line : list byte) (c : Channel) : bool * Channel :=
  match line with
  | [] => (false, c)
  | _ =>
      match chomp line with
      | None => (false, refuse o (if MAX_ACTION_LINE_BYTES <? slen line then Oversized else MalformedLine_) (slen line) c)
      | Some text =>
          let '(refused, c) :=
            match classify_line json text with
            | Ok request =>
                let '(r, c) := register now conn request c in (match r with Ok _ => None | Err e => Some e end, c)
            | Err reason => (Some (Some reason), c)
            end in
          match refused with
          | None => (true, c)
          | Some (Some reason) => (false, refuse o reason (slen line) c)
          | Some None => (false, c)
          end
      end
  end.
Definition start (holding : option HoldGrant) : Channel :=
  let holds := (λ h, MkSlot h None) <$> from_option held_of [] holding in
  MkChannel 0 0 (list_to_set (hold_request_id <$> seq 0 (length holds))) ∅ ∅ ∅ [] ∅ 0 0 None false holds 0 [] [].

(** Dropping the channel. *)
Definition drop_channel (c : Channel) : Channel := if closed c then c else shut c.

(** ** Runs *)
(** One step of the channel at an instant: a connection, a line, a question of the proxy, or a
    call of the registry.  A control plane's answer is approved or denied, which its decoding
    enforces. *)
Inductive step (now : Z) : Channel → Channel → Prop :=
| step_accept spawned c : step now c (accept spawned c).2
| step_line o conn line c : step now c (serve_line o now conn line c).2
| step_withdraw conn c : step now c (withdraw conn c)
| step_hold target route c : step now c (ask_hold now target route c).2
| step_tend o c : step now c (tend o now c)
| step_list o c : step now c (list_actions o now c).2
| step_answer o op action d note c : answerable d = true → step now c (answer o now op action d note c).2
| step_paused paused c : step now c (set_paused paused now c)
| step_finish o c : step now c (finish o c)
| step_drop c : step now c (drop_channel c).

(** A run is a sequence of steps on a clock that does not go back. *)
Inductive run (T : Z) (c : Channel) : Z → Channel → Prop :=
| run_refl : run T c T c
| run_step T' now c' c'' : run T c T' c' → T' ≤ now → step now c' c'' → run T c now c''.

(** ** The invariant *)
(** The answer to request [action] is in the log, after the record of the request. *)
Definition recorded_answer (c : Channel) (action : Z) (r : ActionRequest) (d : ActionDecision) (op : OperationId) : Prop :=
  ∃ l1 l2 n h, appended c = l1 ++ NodeActionAnswered action d (Some op) n h :: l2 ∧ requested_event action r ∈ l1.
Definition event_action (e : ActionEvent) : option Z :=
  match e with NodeActionRequested a _ _ _ _ _ => Some a | _ => None end.
Definition told_actions (c : Channel) : list Z := (λ t : Z * list byte * ActionDecision * option (list byte), t.1.1.1) <$> told c.
Definition opened (hs : list HoldSlot) : nat := length (List.filter (λ s, bool_decide (is_Some (hs_action s))) hs).

(** What a run only adds to: answers, the operations that gave them, records and opened holds. *)
Record grows (b c : Channel) : Prop := MkGrows {
  gr_answered : answered b ⊆ answered c;
  gr_ops : answer_ops b ⊆ answer_ops c;
  gr_appended : appended b `prefix_of` appended c;
  gr_slots i h a : holds b !! i = Some (MkSlot h (Some a)) → holds c !! i = Some (MkSlot h (Some a));
  gr_held : hs_held <$> holds c = hs_held <$> holds b;
}.
Lemma grows_refl c : grows c c.
Proof. by split. Qed.

Section from.
Context (base : Channel).
(** The requests in hand [H] are neither pending nor answered, the records in hand [q] are off the
    queue, and [s] records may still be written before the next answer; [n] capabilities are
    held, [T] is the clock and [base] an earlier state. *)
Record ch_ok (n : nat) (T : Z) (H : gset Z) (q : list ActionEvent) (s : Z) (c : Channel) : Prop := MkChOk {
  ok_split a : 1 ≤ a ≤ next_action c ↔ a ∈ dom (pending c) ∨ a ∈ H ∨ a ∈ dom (answered c);
  ok_disjoint : dom (pending c) ## dom (answered c);
  ok_hand : H ## dom (pending c) ∪ dom (answered c);
  ok_decided a d : answered c !! a = Some d → answerable d = true →
    ∃ r op, recorded_answer c a r d op ∧
      ∀ i h, holds c !! i = Some (MkSlot h (Some a)) → hold_request i h = Ok r;
  ok_slot i h a : holds c !! i = Some (MkSlot h (Some a)) →
    1 ≤ a ≤ next_action c ∧
    ∀ p, pending c !! a = Some p → pd_hold p = Some h ∧ hold_request i h = Ok (pd_request p);
  ok_slots i j s1 s2 a : holds c !! i = Some s1 → holds c !! j = Some s2 →
    hs_action s1 = Some a → hs_action s2 = Some a → i = j;
  ok_told a id d note : (a, id, d, note) ∈ told c → answered c !! a = Some d;
  ok_told_once : NoDup (told_actions c);
  ok_recorded a p : pending c !! a = Some p → pd_recorded p = true → requested_event a (pd_request p) ∈ appended c;
  ok_queued a p : pending c !! a = Some p → pd_recorded p = false →
    requested_event a (pd_request p) ∈ q ++ queue c;
  ok_event e a : e ∈ q ++ queue c → event_action e = Some a →
    a ≤ next_action c ∧ ∀ p, pending c !! a = Some p → e = requested_event a (pd_request p);
  ok_budget : slen (appended c) + slen q + slen (queue c) + s
              ≤ next_action c + Z.of_nat (size (answered c)) + refusals c;
  ok_waiting : waiting c ≤ max_pending grant;
  ok_sent : 0 ≤ sent c ≤ max_total grant;
  ok_next : next_action c = sent c + Z.of_nat (opened (holds c));
  ok_holds : length (holds c) = n;
  ok_connections : (size (connections c) ≤ MAX_ACTION_CONNECTIONS)%nat;
  ok_clock a p : pending c !! a = Some p → pd_deadline p ≤ default T (paused_since c) + wait_ms;
  ok_pause since : paused_since c = Some since → since ≤ T;
  ok_refusals : 0 ≤ refusals c ≤ MAX_ACTION_REFUSALS;
  ok_closed : closed c = true → connections c = ∅;
  ok_grows : grows base c;
}.
(** The fields an operation does not touch. *)
Ltac ok_fields :=
  split; try done;
  try (by match goal with G : grows _ _ |- grows _ _ => destruct G; split end).
(** Between the operations nothing is in hand, and a channel with no refusals left is closed. *)
Definition channel_ok (n : nat) (T : Z) (c : Channel) : Prop :=
  ch_ok n T ∅ [] 0 c ∧ (refusals c = MAX_ACTION_REFUSALS → closed c = true).

(** *** Lemmas: what the operations leave alone *)
Lemma recorded_answer_app c c' l a r d op :
  appended c' = appended c ++ l → recorded_answer c a r d op → recorded_answer c' a r d op.
Proof. intros E (l1 & l2 & m & h & E1 & Hr). exists l1, (l2 ++ l), m, h. by rewrite E, E1, <- app_assoc. Qed.
Lemma elem_of_entries c a p : (a, p) ∈ entries c ↔ pending c !! a = Some p.
Proof. apply elem_of_btree. Qed.
Lemma NoDup_entries c : NoDup (entries c).*1.
Proof. apply NoDup_btree. Qed.
Lemma waiting_mono c c' :
  (∀ a p', pending c' !! a = Some p' → ∃ p, pending c !! a = Some p ∧ pd_conn p = pd_conn p') → waiting c' ≤ waiting c.
Proof.
  intros Hp. unfold waiting. rewrite <- !size_dom. apply inj_le, subseteq_size. intros a.
  rewrite !elem_of_dom. intros [p' (Hl & Hc)%map_lookup_filter_Some]. destruct (Hp _ _ Hl) as (p & Hl' & E).
  exists p. apply map_lookup_filter_Some. split; [done|]. cbn in *. by rewrite E.
Qed.
Lemma ch_ok_slack n T H q s s' c : s' ≤ s → ch_ok n T H q s c → ch_ok n T H q s' c.
Proof. intros Hs []. ok_fields. lia. Qed.
Lemma ch_ok_later n T T' H q s c : T ≤ T' → ch_ok n T H q s c → ch_ok n T' H q s c.
Proof.
  intros Hs []. ok_fields.
  - intros a p Hp. specialize (ok_clock0 a p Hp). destruct (paused_since c); cbn in *; lia.
  - intros since Hsi. specialize (ok_pause0 since Hsi). lia.
Qed.

(** *** Lemmas: the parts of an operation keep the invariant *)
Lemma record_ok n T H q s o e c : ch_ok n T H q s c → ch_ok n T H q (s - 1) (record o e c).2.
Proof.
  intros []. assert (∃ l, appended (record o e c).2 = appended c ++ l ∧ slen l ≤ 1) as (l & E & Hl).
  { unfold record. cbn. destruct (or_record o _); [by exists [e]|exists []; by rewrite app_nil_r]. }
  ok_fields.
  - intros a d Ha Hd. destruct (ok_decided0 a d Ha Hd) as (r & op & Hr & Hs). exists r, op. split; [|done].
    by eapply recorded_answer_app.
  - intros a p Hp Hre. rewrite E, elem_of_app. left. by apply ok_recorded0.
  - rewrite E. unfold slen in *. rewrite length_app. cbn -[Z.of_nat]. lia.
  - destruct ok_grows0. split; try done. rewrite E. by apply prefix_app_r.
Qed.
Lemma push_ok n T H q s e c : event_action e = None → ch_ok n T H q s c → ch_ok n T H q (s - 1) (push e c).
Proof.
  intros He []. ok_fields; cbn.
  - intros a p Hp Hre. rewrite app_assoc, elem_of_app. left. by apply ok_queued0.
  - intros e' a. rewrite app_assoc, elem_of_app, list_elem_of_singleton. intros [Hin| ->] Ha; [|congruence].
    by apply ok_event0.
  - unfold slen in *. rewrite length_app. cbn -[Z.of_nat]. lia.
Qed.
Lemma told_answered n T H q s c a : ch_ok n T H q s c → a ∈ told_actions c → a ∈ dom (answered c).
Proof.
  intros [] ([[[a' id] d] note] & -> & Hin)%list_elem_of_fmap. apply elem_of_dom. eexists. by eapply ok_told0.
Qed.
Lemma reply_ok n T H q s o a p d note c :
  answered c !! a = Some d → a ∉ told_actions c → ch_ok n T H q s c → ch_ok n T H q s (reply o a p d note c).
Proof.
  intros Ha Hn Hok. unfold reply. destruct (pd_conn p) as [conn|]; [|done].
  case_bool_decide as Hc; [|done]. destruct (or_send o a); destruct Hok; ok_fields; cbn.
  - intros a' id d' note'. rewrite elem_of_app, list_elem_of_singleton. intros [?|[= -> -> -> ->]]; [by eapply ok_told0|done].
  - unfold told_actions in *. cbn. rewrite fmap_app. apply NoDup_app. split_and!; [done| |apply NoDup_singleton].
    intros x Hx Hx'. apply list_elem_of_singleton in Hx'. by subst x.
  - etrans; [|exact ok_connections0]. apply subseteq_size. set_solver.
  - intros Hcl. specialize (ok_closed0 Hcl). set_solver.
Qed.
Lemma mark_ok n T H q s a d c :
  a ∈ H →
  (answerable d = true → ∃ r op, recorded_answer c a r d op ∧
     ∀ i h, holds c !! i = Some (MkSlot h (Some a)) → hold_request i h = Ok r) →
  ch_ok n T H q s c → ch_ok n T (H ∖ {[a]}) q (s + 1) (mark_answered a d c).
Proof.
  intros Ha Hd []. assert (answered c !! a = None) as Hna by (apply not_elem_of_dom; set_solver).
  ok_fields; unfold mark_answered, set_answered; cbn.
  - intros a'. rewrite ok_split0, dom_insert_L. destruct (decide (a' = a)); set_solver.
  - rewrite dom_insert_L. set_solver.
  - rewrite dom_insert_L. set_solver.
  - intros a' d'. destruct (decide (a' = a)) as [->|Hne].
    + rewrite lookup_insert_eq. intros [= ->] Hd'. by apply Hd.
    + rewrite lookup_insert_ne by done. apply ok_decided0.
  - intros a' id d' note Hin. specialize (ok_told0 _ _ _ _ Hin). rewrite lookup_insert_ne; [done|]. congruence.
  - rewrite map_size_insert_None by done. lia.
  - destruct ok_grows0. split; try done. cbn. etrans; [done|]. by apply insert_subseteq.
Qed.
Lemma remove_ok n T H q s a c :
  a ∈ dom (pending c) → ch_ok n T H q s c → ch_ok n T ({[a]} ∪ H) q s (remove_pending a c).
Proof.
  intros Ha []. assert (∀ b p, delete a (pending c) !! b = Some p → pending c !! b = Some p) as Hdel.
  { intros b p [_ ?]%lookup_delete_Some. done. }
  ok_fields; unfold remove_pending, set_pending; cbn.
  - intros b. rewrite ok_split0, dom_delete_L. destruct (decide (b = a)); set_solver.
  - rewrite dom_delete_L. set_solver.
  - rewrite dom_delete_L. set_solver.
  - intros i h b Hs. destruct (ok_slot0 i h b Hs) as [Hb Hp]. split; [done|]. intros p Hp'. by apply Hp, Hdel.
  - intros b p Hp. by apply ok_recorded0, Hdel.
  - intros b p Hp. by apply ok_queued0, Hdel.
  - intros e b He Hb. destruct (ok_event0 e b He Hb) as [Hle Hp]. split; [done|]. intros p Hp'. by apply Hp, Hdel.
  - etrans; [|exact ok_waiting0]. apply waiting_mono. cbn. intros b p Hp. exists p. by split; [apply Hdel|].
  - intros b p Hp. by eapply ok_clock0, Hdel.
Qed.
Lemma take_ok n T q s c : ch_ok n T ∅ q s c → ch_ok n T (dom (pending c)) q s (set_pending c ∅).
Proof.
  intros []. ok_fields; unfold set_pending; cbn.
  - intros b. rewrite ok_split0. set_solver.
  - set_solver.
  - set_solver.
  - intros e b He Hb. destruct (ok_event0 e b He Hb) as [Hle Hp]. split; [done|]. intros p. by rewrite lookup_empty.
  - etrans; [|exact ok_waiting0]. apply waiting_mono. cbn. intros b p. by rewrite lookup_empty.
Qed.
Lemma mark_recorded_ok n T H q s a c :
  (∀ p, pending c !! a = Some p → requested_event a (pd_request p) ∈ appended c) →
  ch_ok n T H q s c → ch_ok n T H q s (mark_recorded a c).
Proof.
  intros Ha [].
  assert (∀ b p, pending (mark_recorded a c) !! b = Some p → ∃ p', pending c !! b = Some p' ∧
    pd_request p = pd_request p' ∧ pd_conn p = pd_conn p' ∧ pd_deadline p = pd_deadline p' ∧ pd_hold p = pd_hold p' ∧
    (p = p' ∨ a = b)) as Hp.
  { intros b p. unfold mark_recorded, set_pending. cbn. destruct (decide (a = b)) as [<-|Hne].
    - rewrite lookup_alter_eq. intros (p' & Hp' & ->)%fmap_Some. exists p'. eauto 10.
    - rewrite lookup_alter_ne by done. intros Hp. exists p. eauto 10. }
  assert (dom (pending (mark_recorded a c)) = dom (pending c)) as Ed by apply dom_alter_L.
  split; rewrite ?Ed; try done; cycle -1; [destruct ok_grows0; by split|..].
  - intros i h b Hs. destruct (ok_slot0 i h b Hs) as [Hb Hpb]. split; [done|].
    intros p (p' & Hp' & -> & _ & _ & -> & _)%Hp. by apply Hpb.
  - intros b p (p' & Hp' & Er & _ & _ & _ & [->| <-])%Hp Hre; [by apply ok_recorded0|]. rewrite Er. by apply Ha.
  - intros b p Hpb Hre. destruct (Hp b p Hpb) as (p' & Hp' & Er & _ & _ & _ & [->| <-]); [by apply ok_queued0|].
    unfold mark_recorded, set_pending in Hpb. cbn in Hpb. rewrite lookup_alter_eq, Hp' in Hpb. by injection Hpb as <-.
  - intros e b He Hb. destruct (ok_event0 e b He Hb) as [Hle Hpb]. split; [done|].
    intros p (p' & Hp' & -> & _)%Hp. by apply Hpb.
  - etrans; [|exact ok_waiting0]. apply waiting_mono. intros b p (p' & Hp' & _ & -> & _)%Hp. eauto.
  - intros b p (p' & Hp' & _ & _ & -> & _)%Hp. by eapply ok_clock0.
Qed.
Lemma dequeue_ok n T H s c : ch_ok n T H [] s c → ch_ok n T H (queue c) s (set_queue c []).
Proof. intros []. ok_fields; unfold set_queue; cbn in *; rewrite ?app_nil_r; try done. unfold slen in *. cbn -[Z.of_nat] in *. lia. Qed.

(** An answer of the node's own needs no record of a decision. *)
Lemma mark_node_ok n T H q s a d c :
  a ∈ H → answerable d = false → ch_ok n T H q s c → ch_ok n T (H ∖ {[a]}) q (s + 1) (mark_answered a d c).
Proof. intros Ha Hd. apply mark_ok; [done|]. rewrite Hd. discriminate. Qed.
Lemma in_hand_untold n T H q s a c : a ∈ H → ch_ok n T H q s c → a ∉ told_actions c.
Proof. intros Ha Hok Hin%(told_answered _ _ _ _ _ _ _ Hok). pose proof (ok_hand _ _ _ _ _ _ Hok). set_solver. Qed.
Lemma answered_lookup a d c : answered (mark_answered a d c) !! a = Some d.
Proof. apply lookup_insert_eq. Qed.
(** A pending request is answered by the node. *)
Lemma node_answers_ok n T H q s o a p d c :
  a ∈ H → answerable d = false → ch_ok n T H q s c →
  ch_ok n T (H ∖ {[a]}) q (s + 1) (reply o a p d None (mark_answered a d c)).
Proof.
  intros Ha Hd Hok. apply reply_ok; [apply answered_lookup|exact (in_hand_untold n T H q s a c Ha Hok)|by apply mark_node_ok].
Qed.
Lemma settle_ok n T q s o a p d c :
  pending c !! a = Some p → answerable d = false → ch_ok n T ∅ q s c →
  ch_ok n T ∅ q (s + 1) (reply o a p d None (mark_answered a d (remove_pending a c))).
Proof.
  intros Ha Hd Hok. assert (a ∈ dom (pending c)) as Hin by by apply elem_of_dom.
  apply (remove_ok _ _ _ _ _ a) in Hok; [|done]. apply (node_answers_ok _ _ _ _ _ o a p d) in Hok; [|set_solver|done].
  by replace (({[a]} ∪ ∅) ∖ {[a]} : gset Z) with (∅ : gset Z) in Hok by set_solver.
Qed.

(** *** Lemmas: the operations keep the invariant *)
(** Answering one request leaves the others pending. *)
Lemma reply_pending o a p d note c : pending (reply o a p d note c) = pending c.
Proof. unfold reply. destruct (pd_conn p); [|done]. by repeat case_match. Qed.
Lemma flush_one_ok n T q s o e c : ch_ok n T ∅ (e :: q) s c → ch_ok n T ∅ q s (flush_one o c e).
Proof.
  intros Hok. assert (ch_ok n T ∅ (e :: q) (s - 1) (record o e c).2) as Hrec by by apply record_ok.
  assert (∀ a, event_action e = Some a → ∀ p, pending c !! a = Some p → e = requested_event a (pd_request p)) as Hev.
  { intros a Ha. apply (ok_event _ _ _ _ _ _ Hok e a); [by left|done]. }
  (* once a request is recorded or gone, its record is out of hand *)
  assert (∀ c', ch_ok n T ∅ (e :: q) (s - 1) c' →
    (∀ a p, pending c' !! a = Some p → pd_recorded p = false → event_action e ≠ Some a) → ch_ok n T ∅ q s c') as Hdrop.
  { intros c' [] Hne. ok_fields.
    - intros a p Hp Hr. specialize (ok_queued0 a p Hp Hr). apply elem_of_cons in ok_queued0 as [E|?]; [|done].
      destruct (Hne a p Hp Hr). by rewrite <- E.
    - intros e' a Hin. apply ok_event0. by right.
    - unfold slen in *. cbn -[Z.of_nat] in *. lia. }
  unfold flush_one. destruct (record o e c) as [ok c'] eqn:Er. cbn [snd] in Hrec.
  assert (pending c' = pending c) as Hpc by (unfold record in Er; by injection Er as <- <-).
  destruct e as [a k sb sd db dd|a d op nb nh|reason nb]; try by apply Hdrop.
  destruct ok.
  - apply Hdrop.
    + apply mark_recorded_ok; [|done]. rewrite Hpc. intros p Hp. rewrite <- (Hev a eq_refl p Hp).
      unfold record in Er. injection Er as Eo <-. rewrite Eo. cbn. apply elem_of_app. right. by left.
    + intros b p. unfold mark_recorded. cbn. rewrite lookup_alter. case_decide; [|congruence].
      intros (? & _ & ->)%fmap_Some. done.
  - destruct (pending c' !! a) as [p|] eqn:Hp.
    + apply Hdrop; [eapply ch_ok_slack, settle_ok; [|done..]; lia|].
      intros b p'. rewrite reply_pending. cbn. rewrite lookup_delete_Some. intros [? _] _ [= <-]. done.
    + apply Hdrop; [done|]. intros b p' Hp' _ [= <-]. congruence.
Qed.
Lemma flush_ok n T s o c : ch_ok n T ∅ [] s c → ch_ok n T ∅ [] s (flush o c).
Proof.
  intros Hok%dequeue_ok. unfold flush. revert Hok. generalize (set_queue c []). induction (queue c) as [|e q IH]; [done|].
  intros c' Hok. cbn [foldl]. by apply IH, flush_one_ok.
Qed.
Lemma record_pending o e c : pending (record o e c).2 = pending c.
Proof. done. Qed.
Lemma expire_one_ok n T s o a c : a ∈ dom (pending c) → ch_ok n T ∅ [] s c → ch_ok n T ∅ [] s (expire_one o c a).
Proof.
  intros [p Hp]%elem_of_dom Hok. unfold expire_one. rewrite record_pending, Hp.
  replace s with (s - 1 + 1) by lia. apply settle_ok; [by rewrite record_pending|done|by apply record_ok].
Qed.
Lemma expire_one_pending o a c : pending (expire_one o c a) = delete a (pending c).
Proof.
  unfold expire_one. rewrite record_pending. destruct (pending c !! a) eqn:E; [by rewrite reply_pending|].
  by rewrite delete_id.
Qed.
Lemma expire_loop_ok n T s o l c :
  NoDup l → (∀ a, a ∈ l → a ∈ dom (pending c)) → ch_ok n T ∅ [] s c → ch_ok n T ∅ [] s (foldl (expire_one o) c l).
Proof.
  intros Hl. revert c. induction Hl as [|a l Ha _ IH]; intros c Hin Hok; [done|]. cbn [foldl]. apply IH.
  - intros b Hb. rewrite expire_one_pending, dom_delete_L. set_solver.
  - apply expire_one_ok; [|done]. set_solver.
Qed.
(** The numbers of some of the pending requests. *)
Lemma chosen_NoDup (f : Z * Pending → bool) c : NoDup (List.filter f (entries c)).*1.
Proof.
  eapply sublist_NoDup; [apply (NoDup_entries c)|].
  induction (entries c) as [|e l IH]; [done|]. cbn. destruct (f e); cbn; by constructor.
Qed.
Lemma chosen_elem (f : Z * Pending → bool) c a :
  a ∈ (List.filter f (entries c)).*1 ↔ ∃ p, pending c !! a = Some p ∧ f (a, p) = true.
Proof.
  rewrite list_elem_of_fmap. split.
  - intros ([b p] & -> & Hin). apply list_elem_of_In, filter_In in Hin as [Hin Hf]. exists p. split; [|done].
    by apply elem_of_entries, list_elem_of_In.
  - intros (p & Hp & Hf). exists (a, p). split; [done|]. apply list_elem_of_In, filter_In. split; [|done].
    by apply list_elem_of_In, elem_of_entries.
Qed.
Lemma expire_ok n T s o now c : ch_ok n T ∅ [] s c → ch_ok n T ∅ [] s (expire o now c).
Proof.
  intros Hok. unfold expire. destruct (paused_since c); [done|]. apply expire_loop_ok; [apply chosen_NoDup| |done].
  intros a (p & Hp & _)%chosen_elem. by apply elem_of_dom.
Qed.
Lemma tend_ok n T s o now c : ch_ok n T ∅ [] s c → ch_ok n T ∅ [] s (tend o now c).
Proof. intros. by apply expire_ok, flush_ok. Qed.
Lemma withdraw_one_ok n T s a c : a ∈ dom (pending c) → ch_ok n T ∅ [] s c → ch_ok n T ∅ [] s (withdraw_one c a).
Proof.
  intros Ha Hok. unfold withdraw_one. replace s with (s + 1 - 1) by lia. apply push_ok; [done|].
  replace (∅ : gset Z) with (({[a]} ∪ ∅) ∖ {[a]} : gset Z) by set_solver.
  apply mark_node_ok; [set_solver|done|]. by apply remove_ok.
Qed.
Lemma connections_ok n T H q s cs next c :
  (size cs ≤ MAX_ACTION_CONNECTIONS)%nat → (closed c = true → cs = ∅) → ch_ok n T H q s c → ch_ok n T H q s (set_connections c cs next).
Proof. intros Hs Hc []. ok_fields. Qed.
Lemma withdraw_ok n T s conn c : ch_ok n T ∅ [] s c → ch_ok n T ∅ [] s (withdraw conn c).
Proof.
  intros Hok. unfold withdraw. set (l := (List.filter _ _).*1).
  assert (ch_ok n T ∅ [] s (foldl withdraw_one c l)) as Hok'.
  { assert (NoDup l ∧ ∀ a, a ∈ l → a ∈ dom (pending c)) as [Hl Hin].
    { split; [apply chosen_NoDup|]. intros a (p & Hp & _)%chosen_elem. by apply elem_of_dom. }
    clearbody l. revert c Hin Hok. induction Hl as [|a l Ha _ IH]; intros c Hin Hok; [done|]. cbn [foldl]. apply IH.
    - intros b Hb. cbn. rewrite dom_delete_L. set_solver.
    - apply withdraw_one_ok; [set_solver|done]. }
  apply connections_ok; [| |done].
  - etrans; [|exact (ok_connections _ _ _ _ _ _ Hok')]. apply subseteq_size. set_solver.
  - intros Hc%(ok_closed _ _ _ _ _ _ Hok'). set_solver.
Qed.
(** A loop that answers what is in hand. *)
Lemma in_hand_loop_ok (f : Channel → Z * Pending → Channel) n T q s l H c :
  (∀ a p H c, a ∈ H → ch_ok n T H q s c → ch_ok n T (H ∖ {[a]}) q s (f c (a, p))) →
  NoDup l.*1 → H = list_to_set l.*1 → ch_ok n T H q s c → ch_ok n T ∅ q s (foldl f c l).
Proof.
  intros Hf. revert H c. induction l as [|[a p] l IH]; intros H c; cbn [fmap list_fmap foldl fst list_to_set]; [by intros _ ->|].
  intros [Ha Hl]%NoDup_cons -> Hok. eapply IH; [done|reflexivity|].
  apply (Hf a p) in Hok; [|set_solver].
  replace (({[a]} ∪ list_to_set l.*1) ∖ {[a]} : gset Z) with (list_to_set l.*1 : gset Z) in Hok; [done|]. set_solver.
Qed.
Lemma entries_dom c : dom (pending c) = list_to_set (entries c).*1.
Proof. apply btree_dom. Qed.
Lemma shut_ok n T H q s c : ch_ok n T H q s c → ch_ok n T H q s (shut c).
Proof. intros []. ok_fields. cbn. rewrite size_empty. lia. Qed.
Lemma close_one_ok n T H q s o a p c : a ∈ H → ch_ok n T H q s c → ch_ok n T (H ∖ {[a]}) q s (close_one o c (a, p)).
Proof.
  intros Ha Hok. unfold close_one. cbn [fst snd]. apply reply_ok; [apply answered_lookup| |].
  - exact (in_hand_untold n T H q s a c Ha Hok).
  - replace s with (s + 1 - 1) by lia. apply push_ok; [done|]. by apply mark_node_ok.
Qed.
Lemma close_ok n T s o c : ch_ok n T ∅ [] s c → ch_ok n T ∅ [] s (close o c).
Proof.
  intros Hok. unfold close. destruct (closed c); [done|]. apply shut_ok.
  eapply in_hand_loop_ok; [intros; by apply close_one_ok|apply NoDup_entries|apply entries_dom|by apply take_ok].
Qed.
Lemma refuse_ok n T o reason b c : channel_ok n T c → channel_ok n T (refuse o reason b c).
Proof.
  intros [Hok Hcl]. unfold refuse. destruct (closed c) eqn:Ec; [by split; [|done]|].
  assert (refusals c + 1 ≤ MAX_ACTION_REFUSALS) as Hr.
  { destruct (ok_refusals _ _ _ _ _ _ Hok). destruct (decide (refusals c = MAX_ACTION_REFUSALS)) as [E|]; [|lia].
    by specialize (Hcl E). }
  assert (ch_ok n T ∅ [] 0 (push (NodeActionRefused reason b) (set_refusals c (refusals c + 1)))) as Hok'.
  { replace 0 with (0 + 1 - 1) by lia. apply push_ok; [done|]. destruct Hok. ok_fields; cbn; lia. }
  cbn [refusals push set_queue set_refusals]. destruct (Z.leb_spec MAX_ACTION_REFUSALS (refusals c + 1)) as [Hge|Hlt].
  - split; [by apply close_ok|]. unfold close. cbn [closed push set_queue set_refusals]. rewrite Ec. by intros _.
  - split; [done|]. cbn [refusals push set_queue set_refusals]. lia.
Qed.
Lemma finish_one_ok n T H q s o a p c : a ∈ H → ch_ok n T H q s c → ch_ok n T (H ∖ {[a]}) q s (finish_one o c (a, p)).
Proof.
  intros Ha Hok. unfold finish_one. cbn [fst snd]. replace s with (s - 1 + 1) by lia.
  apply node_answers_ok; [done..|by apply record_ok].
Qed.
Lemma finish_loop_ok n T s o c :
  ch_ok n T ∅ [] s c → ch_ok n T ∅ [] s (foldl (finish_one o) (set_pending (flush o c) ∅) (entries (flush o c))).
Proof.
  intros Hok%(flush_ok _ _ _ o).
  eapply in_hand_loop_ok; [intros; by apply finish_one_ok|apply NoDup_entries|apply entries_dom|by apply take_ok].
Qed.
Lemma finish_ok n T s o c : ch_ok n T ∅ [] s c → ch_ok n T ∅ [] s (finish o c).
Proof.
  intros Hok%(finish_loop_ok _ _ _ o). unfold finish. revert Hok. set (c2 := foldl _ _ _). intros Hok.
  apply flush_ok. destruct (closed c2); [done|by apply shut_ok].
Qed.

(** A new request. *)
Definition fresh (c : Channel) (r : ActionRequest) (conn : option Z) (now : Z) (h : option HeldCapability) (workload : bool) : Channel :=
  let c := count_action workload (ar_id r) c in
  insert_pending (next_action c) (MkPending r conn (default now (paused_since c) + wait_ms) false h)
    (push (requested_event (next_action c) r) c).
Lemma fresh_pending c r conn now h w a p :
  pending (fresh c r conn now h w) !! a = Some p →
  a = next_action c + 1 ∧ p = MkPending r conn (default now (paused_since c) + wait_ms) false h ∨
  a ≠ next_action c + 1 ∧ pending c !! a = Some p.
Proof.
  unfold fresh. cbn. destruct (decide (a = next_action c + 1)) as [->|Hne].
  - rewrite lookup_insert_eq. intros [= <-]. by left.
  - rewrite lookup_insert_ne by done. intros Hp. by right.
Qed.
Lemma fresh_number n T H q s c : ch_ok n T H q s c → 0 ≤ next_action c ∧ ∀ a, a ∈ dom (pending c) ∨ a ∈ H ∨ a ∈ dom (answered c) → a ≤ next_action c.
Proof. intros []. split; [lia|]. intros a Ha%ok_split0. lia. Qed.
(** The slots after a new request: as they were, or with the request's number in one of them. *)
Record slots_ok (c : Channel) (r : ActionRequest) (h : option HeldCapability) (w : bool) (hs : list HoldSlot) : Prop := MkSlotsOk {
  so_slot j hd a : hs !! j = Some (MkSlot hd (Some a)) →
    holds c !! j = Some (MkSlot hd (Some a)) ∨ a = next_action c + 1 ∧ h = Some hd ∧ hold_request j hd = Ok r;
  so_once j k s1 s2 : hs !! j = Some s1 → hs !! k = Some s2 → hs_action s1 = Some (next_action c + 1) →
    hs_action s2 = Some (next_action c + 1) → j = k;
  so_keeps j hd a : holds c !! j = Some (MkSlot hd (Some a)) → hs !! j = Some (MkSlot hd (Some a));
  so_held : hs_held <$> hs = hs_held <$> holds c;
  so_length : length hs = length (holds c);
  so_opened : Z.of_nat (opened hs) = Z.of_nat (opened (holds c)) + if w then 0 else 1;
}.
Lemma fresh_ok n T s c r conn now h w hs :
  now ≤ T → waiting (fresh c r conn now h w) ≤ max_pending grant → (w = true → sent c + 1 ≤ max_total grant) →
  slots_ok c r h w hs → ch_ok n T ∅ [] s c → ch_ok n T ∅ [] s (set_holds (fresh c r conn now h w) hs).
Proof.
  intros Hnow Hwait Hw [] Hok. pose proof (fresh_number _ _ _ _ _ _ Hok) as [Hn0 Hnum]. destruct Hok.
  assert (∀ a, a ∈ dom (pending c) ∨ a ∈ dom (answered c) → a ≠ next_action c + 1) as Hnew.
  { intros a Ha ->. assert (next_action c + 1 ≤ next_action c); [|lia]. apply Hnum. naive_solver. }
  assert (∀ i hd a, holds c !! i = Some (MkSlot hd (Some a)) → a ≠ next_action c + 1) as Hold.
  { intros i hd a [Ha _]%ok_slot0. lia. }
  ok_fields; cbn [next_action pending answered holds told appended queue sent refusals connections paused_since set_holds].
  - intros a. cbn. rewrite dom_insert_L. specialize (ok_split0 a). rewrite elem_of_union, elem_of_singleton.
    destruct (decide (a = next_action c + 1)) as [->|Hne]; [split; [tauto|lia]|].
    split; [|intros [[?|?]|[?|?]]; try done; assert (1 ≤ a ≤ next_action c) by (apply ok_split0; tauto); lia].
    intros. assert (1 ≤ a ≤ next_action c) as Hin by lia. apply ok_split0 in Hin. tauto.
  - cbn. rewrite dom_insert_L. intros a. rewrite elem_of_union, elem_of_singleton. intros [->|Ha] Hb; [|by apply (ok_disjoint0 a)].
    by destruct (Hnew (next_action c + 1)); auto.
  - intros a d Ha Hd. destruct (ok_decided0 a d Ha Hd) as (r' & op & Hr & Hs). exists r', op. split; [done|].
    intros i hd [?|(-> & _)]%so_slot0; [by apply Hs|]. destruct (Hnew (next_action c + 1)); [|done]. right. by apply elem_of_dom.
  - intros i hd a Hs. cbn [next_action]. destruct (so_slot0 _ _ _ Hs) as [Hs'|(-> & -> & Hr)].
    + destruct (ok_slot0 _ _ _ Hs') as [Ha Hp]. split; [cbn; lia|]. intros p [[-> _]|[_ ?]]%fresh_pending; [|by apply Hp].
      by destruct (Hold _ _ _ Hs').
    + split; [cbn; lia|]. by intros p [[_ ->]|[? _]]%fresh_pending.
  - intros i j [h1 o1] [h2 o2] a H1 H2 E1 E2. cbn in E1, E2. subst o1 o2. destruct (so_slot0 _ _ _ H1) as [H1'|(-> & _)].
    + destruct (so_slot0 _ _ _ H2) as [H2'|(-> & _)]; [by eapply ok_slots0|]. by destruct (Hold _ _ _ H1').
    + by eapply so_once0.
  - intros a p [[_ ->]|[_ ?]]%fresh_pending; [done|by apply ok_recorded0].
  - intros a p [[-> ->]|[_ ?]]%fresh_pending Hr; cbn; apply elem_of_app; [right; by left|left; by apply ok_queued0].
  - intros e a He Ha. cbn in He. apply elem_of_app in He as [He|He%list_elem_of_singleton].
    + destruct (ok_event0 e a He Ha) as [Hle Hp]. split; [cbn; lia|]. intros p [[-> _]|[_ ?]]%fresh_pending; [lia|by apply Hp].
    + subst e. cbn in Ha. injection Ha as <-. split; [cbn; lia|]. by intros p [[_ ->]|[? _]]%fresh_pending.
  - unfold slen in *. cbn -[Z.of_nat] in *. rewrite length_app. cbn -[Z.of_nat]. lia.
  - cbn. destruct w; [specialize (Hw eq_refl)|]; lia.
  - cbn. rewrite so_opened0. destruct w; lia.
  - by rewrite so_length0.
  - intros a p [[_ ->]|[_ ?]]%fresh_pending; [cbn|by eapply ok_clock0]. destruct (paused_since c); cbn; lia.
  - destruct ok_grows0. split; try done; cbn; [auto|congruence].
Qed.
Lemma waiting_insert c a p :
  pending c !! a = None → waiting (insert_pending a p c) ≤ waiting c + if pd_conn p then 1 else 0.
Proof.
  intros Ha. unfold waiting, insert_pending, set_pending. cbn [pending].
  destruct (pd_conn p) as [x|] eqn:E; cycle 1.
  - rewrite map_filter_insert_False, delete_id by (done || (cbn; rewrite E; intros [? [=]])). lia.
  - rewrite map_filter_insert_True by (cbn; rewrite E; by eexists).
    rewrite map_size_insert_None; [lia|]. apply map_lookup_filter_None. by left.
Qed.
Lemma fresh_waiting n T s c r conn now h w :
  ch_ok n T ∅ [] s c → waiting (fresh c r conn now h w) ≤ waiting c + if conn then 1 else 0.
Proof.
  intros Hok. pose proof (fresh_number _ _ _ _ _ _ Hok) as [_ Hnum]. unfold fresh. cbn zeta.
  etrans; [apply waiting_insert|done]. cbn. apply not_elem_of_dom. intros Hin.
  assert (next_action c + 1 ≤ next_action c); [|lia]. apply Hnum. by left.
Qed.
Lemma same_slots_ok n T s c r w : ch_ok n T ∅ [] s c → w = true → slots_ok c r None w (holds c).
Proof.
  intros Hok ->. split; [auto| |done..|lia]. intros j k [hd1 o1] [hd2 o2] H1 H2 E1 E2. cbn in E1, E2. subst.
  destruct (ok_slot _ _ _ _ _ _ Hok _ _ _ H1). lia.
Qed.
Lemma register_ok n T s now conn r c : now ≤ T → ch_ok n T ∅ [] s c → ch_ok n T ∅ [] s (register now conn r c).2.
Proof.
  intros Hnow Hok. unfold register. destruct (closed c); [done|]. destruct (negb _); [done|].
  destruct (bool_decide _); [done|]. destruct (Z.leb_spec (max_pending grant) (waiting c)) as [|Hw]; [done|].
  destruct (Z.leb_spec (max_total grant) (sent c)) as [|Ht]; [done|]. cbn [snd].
  change (ch_ok n T ∅ [] s (set_holds (fresh c r (Some conn) now None true) (holds c))).
  apply fresh_ok; [done| |lia|by eapply same_slots_ok|done].
  pose proof (fresh_waiting _ _ _ c r (Some conn) now None true Hok). cbn in *. lia.
Qed.
Lemma opened_insert hs i h a :
  hs !! i = Some (MkSlot h None) → Z.of_nat (opened (<[i := MkSlot h (Some a)]> hs)) = Z.of_nat (opened hs) + 1.
Proof.
  intros Hi. rewrite insert_take_drop by by eapply lookup_lt_Some.
  rewrite <- (take_drop_middle hs i _ Hi) at 3. unfold opened. rewrite !List.filter_app, !length_app. cbn [List.filter].
  rewrite (bool_decide_true (is_Some (hs_action (MkSlot h (Some a))))) by by eexists.
  rewrite (bool_decide_false (is_Some (hs_action (MkSlot h None)))) by (intros [? [=]]). cbn [length]. lia.
Qed.
Lemma open_slots_ok n T s c i h r :
  ch_ok n T ∅ [] s c → holds c !! i = Some (MkSlot h None) → hold_request i h = Ok r →
  slots_ok c r (Some h) false (<[i := MkSlot h (Some (next_action c + 1))]> (holds c)).
Proof.
  intros Hok Hi Hr. pose proof (lookup_lt_Some _ _ _ Hi) as Hlt.
  assert (∀ j s', <[i := MkSlot h (Some (next_action c + 1))]> (holds c) !! j = Some s' →
    j = i ∧ s' = MkSlot h (Some (next_action c + 1)) ∨ holds c !! j = Some s' ∧ hs_action s' ≠ Some (next_action c + 1)) as Hl.
  { intros j s' Hj. destruct (decide (j = i)) as [->|Hne].
    - rewrite list_lookup_insert_eq in Hj by done. injection Hj as <-. by left.
    - rewrite list_lookup_insert_ne in Hj by done. right. split; [done|]. intros E. destruct s' as [h' o']. cbn in E. subst.
      destruct (ok_slot _ _ _ _ _ _ Hok _ _ _ Hj). lia. }
  split.
  - intros j hd a [[-> [= -> ->]]|[? _]]%Hl; auto.
  - intros j k s1 s2 [[-> _]|[_ ?]]%Hl [[-> _]|[_ ?]]%Hl; done.
  - intros j hd a Hj. rewrite list_lookup_insert_ne; [done|]. congruence.
  - rewrite list_fmap_insert. apply list_insert_id. by rewrite list_lookup_fmap, Hi.
  - by rewrite length_insert.
  - by apply opened_insert.
Qed.
Lemma open_ok n T s i slot now c :
  now ≤ T → holds c !! i = Some slot → hs_action slot = None → ch_ok n T ∅ [] s c → ch_ok n T ∅ [] s (open i slot now c).2.
Proof.
  intros Hnow Hi Ha Hok. destruct slot as [h o]. cbn in Ha. subst o. unfold open. cbn [hs_held].
  destruct (hold_request i h) as [r|] eqn:Hr; [|done]. cbn [snd].
  change (ch_ok n T ∅ [] s (set_holds (fresh c r None now (Some h) false) (<[i := MkSlot h (Some (next_action c + 1))]> (holds c)))).
  apply fresh_ok; [done| |done|by eapply open_slots_ok|done].
  pose proof (fresh_waiting _ _ _ c r None now (Some h) false Hok). pose proof (ok_waiting _ _ _ _ _ _ Hok). cbn in *. lia.
Qed.
Lemma hold_state_ok n T s i now c : now ≤ T → ch_ok n T ∅ [] s c → ch_ok n T ∅ [] s (hold_state i now c).2.
Proof.
  intros Hnow Hok. unfold hold_state. destruct (holds c !! i) as [slot|] eqn:Hi; [|done].
  destruct (hs_action slot) as [a|] eqn:Ha; [done|]. destruct (closed c); [done|].
  pose proof (open_ok n T s i slot now c Hnow Hi Ha Hok). by destruct (open i slot now c).
Qed.
Lemma hold_states_ok n T s l now c : now ≤ T → ch_ok n T ∅ [] s c → ch_ok n T ∅ [] s (hold_states now l c).2.
Proof.
  intros Hnow. revert c. induction l as [|i l IH]; intros c Hok; [done|]. cbn [hold_states].
  apply (hold_state_ok _ _ _ i now) in Hok; [|done]. destruct (hold_state i now c) as [r c']. cbn [snd] in Hok.
  apply IH in Hok. by destruct (hold_states now l c').
Qed.
Lemma ask_hold_ok n T s now target route c : now ≤ T → ch_ok n T ∅ [] s c → ch_ok n T ∅ [] s (ask_hold now target route c).2.
Proof.
  intros Hnow Hok. unfold ask_hold, held. set (l := covering _ _ _). apply (hold_states_ok _ _ _ l now) in Hok; [|done].
  by destruct (hold_states now l c).
Qed.
(** An answer in the log, after the record of the request it answers. *)
Lemma reply_mark o a p d note x d' c : mark_answered x d' (reply o a p d note c) = reply o a p d note (mark_answered x d' c).
Proof. unfold reply. destruct (pd_conn p); [|done]. cbn [connections mark_answered set_answered]. by repeat case_match. Qed.
(** What appending, answering and telling leave alone. *)
Definition kept (c : Channel) : Z * gmap OperationId AnswerKey * Z * bool * option Z * list HoldSlot :=
  (next_action c, answer_ops c, refusals c, closed c, paused_since c, holds c).
Lemma reply_kept o a p d note c : kept (reply o a p d note c) = kept c.
Proof. unfold reply. destruct (pd_conn p); [|done]. by repeat case_match. Qed.
Lemma kept_loop {A} (f : Channel → A → Channel) l c : (∀ c x, kept (f c x) = kept c) → kept (foldl f c l) = kept c.
Proof. intros Hf. revert c. induction l as [|x l IH]; intros c; [done|]. cbn [foldl]. by rewrite IH, Hf. Qed.
Lemma flush_kept o c : kept (flush o c) = kept c.
Proof.
  unfold flush. rewrite kept_loop; [done|]. intros c' e. unfold flush_one. cbn. destruct e; try done.
  destruct (or_record _ _); [done|]. cbn. destruct (pending c' !! action); [by rewrite reply_kept|done].
Qed.
Lemma tend_kept o now c : kept (tend o now c) = kept c.
Proof.
  unfold tend, expire. rewrite <- (flush_kept o c). destruct (paused_since (flush o c)); [done|].
  apply kept_loop. intros c' a. unfold expire_one. cbn. destruct (pending c' !! a); [by rewrite reply_kept|done].
Qed.
Lemma tend_ops o now c : answer_ops (tend o now c) = answer_ops c.
Proof. pose proof (tend_kept o now c) as E. by injection E. Qed.
Lemma reply_ops o a p d note c : answer_ops (reply o a p d note c) = answer_ops c.
Proof. pose proof (reply_kept o a p d note c) as E. by injection E. Qed.
Lemma answer_ok n T o now op a d note c :
  ch_ok n T ∅ [] 0 c → ch_ok n T ∅ [] 0 (answer o now op a d note c).2.
Proof.
  intros Hok. unfold answer. destruct (replay _ _ _ _ _) eqn:Hrp; [done|].
  assert (answer_ops (tend o now c) !! op = None) as Hops.
  { rewrite tend_ops. unfold replay in Hrp. by destruct (answer_ops c !! op). }
  revert Hops. clear Hrp. apply (tend_ok _ _ _ o now) in Hok. revert Hok.
  generalize (tend o now c). clear c. intros c Hok Hops.
  destruct (pending c !! a) as [p|] eqn:Hp; [|done]. destruct (pd_recorded p) eqn:Hre; [|done].
  destruct (record o (answered_event a d (Some op) note) c) as [ok c'] eqn:Er.
  assert (c' = (record o (answered_event a d (Some op) note) c).2) as Ec by by rewrite Er.
  assert (ok = or_record o (tries c)) as Eo by (unfold record in Er; by injection Er).
  destruct ok; cbn [negb snd].
  2:{ destruct Hok. subst c'. unfold record. rewrite <- Eo. ok_fields. }
  assert (ch_ok n T ∅ [] (-1) c') as Hok' by (subst c'; by apply (record_ok _ _ _ _ 0)).
  assert (pending c' = pending c ∧ holds c' = holds c) as [Ep Eh] by by subst c'.
  assert (recorded_answer c' a (pd_request p) d op) as Hrec.
  { exists (appended c), [], (from_option slen 0 note), (blake3 <$> note). split; [|by apply (ok_recorded _ _ _ _ _ _ Hok)].
    subst c'. unfold record. by rewrite <- Eo. }
  assert (ch_ok n T ∅ [] 0 (mark_answered a d (reply o a p d note (remove_pending a c')))) as Hfin.
  { rewrite reply_mark. assert (a ∈ dom (pending c')) as Hin by (rewrite Ep; by apply elem_of_dom).
    pose proof (remove_ok _ _ _ _ _ a _ Hin Hok') as Hrm.
    apply reply_ok; [apply answered_lookup|exact (in_hand_untold n T ({[a]} ∪ ∅) [] (-1) a _ ltac:(set_solver) Hrm)|].
    replace (∅ : gset Z) with (({[a]} ∪ ∅) ∖ {[a]} : gset Z) by set_solver. apply (mark_ok _ _ _ _ (-1)); [set_solver| |done].
    intros _. exists (pd_request p), op. split; [done|]. intros i h Hs. cbn in Hs. rewrite Eh in Hs.
    by destruct (ok_slot _ _ _ _ _ _ Hok _ _ _ Hs) as [_ [_ Hr]%(λ f, f p Hp)]. }
  destruct Hfin. ok_fields. destruct ok_grows0. split; try done. cbn. rewrite reply_ops. cbn. etrans; [exact gr_ops0|].
  cbn. rewrite reply_ops. apply insert_subseteq. by subst c'.
Qed.

Lemma pause_ok n T now paused c : T ≤ now → ch_ok n T ∅ [] 0 c → ch_ok n now ∅ [] 0 (set_paused paused now c).
Proof.
  intros Hnow Hok. pose proof (ch_ok_later _ _ _ _ _ _ _ Hnow Hok) as Hlater. unfold set_paused.
  destruct paused, (paused_since c) as [since|] eqn:Hs; try done.
  - destruct Hok. ok_fields; cbn.
    + intros a p Hp. specialize (ok_clock0 a p Hp). rewrite Hs in ok_clock0. cbn in *. lia.
    + intros s [= <-]. lia.
  - destruct Hok. unfold set_paused_since, set_pending.
    assert (∀ a p, (delay (saturating_sub now since) <$> pending c) !! a = Some p →
      ∃ p', pending c !! a = Some p' ∧ p = delay (saturating_sub now since) p') as Hl.
    { intros a p. rewrite lookup_fmap. intros (p' & Hp & ->)%fmap_Some. eauto. }
    ok_fields; cbn [pending next_action answered]; rewrite ?dom_fmap_L; try done.
    + intros i h a Hi. destruct (ok_slot0 _ _ _ Hi) as [Ha Hp]. split; [done|]. intros p (p' & Hp' & ->)%Hl. exact (Hp p' Hp').
    + intros a p (p' & Hp' & ->)%Hl. exact (ok_recorded0 a p' Hp').
    + intros a p (p' & Hp' & ->)%Hl. exact (ok_queued0 a p' Hp').
    + intros e a He Ha. destruct (ok_event0 e a He Ha) as [Hle Hp]. split; [done|]. intros p (p' & Hp' & ->)%Hl. exact (Hp p' Hp').
    + etrans; [|exact ok_waiting0]. apply waiting_mono. cbn [pending]. intros a p (p' & Hp' & ->)%Hl. eauto.
    + intros a p (p' & Hp' & ->)%Hl. specialize (ok_clock0 a p' Hp'). specialize (ok_pause0 _ Hs). rewrite Hs in ok_clock0.
      cbn in *. unfold saturating_sub. lia.
Qed.
Lemma accept_ok n T s spawned c : ch_ok n T ∅ [] s c → ch_ok n T ∅ [] s (accept spawned c).2.
Proof.
  intros Hok. unfold accept. destruct (closed c) eqn:Hcl; [done|].
  destruct (Nat.leb_spec MAX_ACTION_CONNECTIONS (size (connections c))) as [|Hlt]; [done|].
  assert (ch_ok n T ∅ [] s (set_connections c ({[next_conn c]} ∪ connections c) (next_conn c + 1))) as Hok'.
  { apply connections_ok; [|by rewrite Hcl|done]. pose proof (size_union_alt ({[next_conn c]} : gset Z) (connections c)) as E.
    rewrite E, size_singleton. assert (size (connections c ∖ {[next_conn c]}) ≤ size (connections c))%nat; [|lia].
    apply subseteq_size. set_solver. }
  destruct spawned; [done|]. by apply withdraw_ok.
Qed.

(** *** Lemmas: the refusals that are left *)
Definition spent_closed (c : Channel) : Prop := refusals c = MAX_ACTION_REFUSALS → closed c = true.
Lemma kept_spent c c' : kept c' = kept c → spent_closed c → spent_closed c'.
Proof. unfold kept, spent_closed. intros [= _ _ -> -> _ _]. done. Qed.
Lemma withdraw_kept conn c : kept (withdraw conn c) = kept c.
Proof. unfold withdraw. change (kept (set_connections ?c _ _)) with (kept c). by rewrite kept_loop. Qed.
Lemma answer_kept o now op a d note c :
  refusals (answer o now op a d note c).2 = refusals c ∧ closed (answer o now op a d note c).2 = closed c.
Proof.
  unfold answer. destruct (replay _ _ _ _ _); [done|]. pose proof (tend_kept o now c) as E. injection E as _ _ Er Ec _ _.
  rewrite <- Er, <- Ec. generalize (tend o now c). clear. intros c. destruct (pending c !! a) as [p|]; [|done].
  destruct (pd_recorded p); [|done]. cbn. destruct (or_record _ _); [|done]. cbn.
  match goal with |- context [reply ?o ?a ?p ?d ?n ?c] => pose proof (reply_kept o a p d n c) as E end. by injection E as _ _ -> -> _ _.
Qed.
Lemma finish_kept o c : refusals (finish o c) = refusals c ∧ closed (finish o c) = true.
Proof.
  unfold finish. set (c2 := foldl _ _ _). assert (kept c2 = kept c) as E2.
  { unfold c2. rewrite kept_loop; [apply flush_kept|]. intros c' e. unfold finish_one. by rewrite reply_kept. }
  pose proof (flush_kept o (if closed c2 then c2 else shut c2)) as E. injection E as _ _ -> -> _ _. injection E2 as _ _ Er Ec _ _.
  destruct (closed c2) eqn:E; cbn; by rewrite ?E.
Qed.
Lemma hold_states_kept now l c :
  refusals (hold_states now l c).2 = refusals c ∧ closed (hold_states now l c).2 = closed c.
Proof.
  revert c. induction l as [|i l IH]; intros c; [done|]. cbn [hold_states].
  assert (refusals (hold_state i now c).2 = refusals c ∧ closed (hold_state i now c).2 = closed c) as [Er Ec].
  { unfold hold_state. destruct (holds c !! i) as [s|]; [|done]. destruct (hs_action s); [done|]. destruct (closed c) eqn:E; [done|].
    unfold open. by destruct (hold_request i (hs_held s)). }
  destruct (hold_state i now c) as [r c']. cbn in Er, Ec. specialize (IH c'). destruct (hold_states now l c') as [rs c''].
  cbn in *. destruct IH as [-> ->]. done.
Qed.
Lemma register_kept now conn r c :
  refusals (register now conn r c).2 = refusals c ∧ closed (register now conn r c).2 = closed c.
Proof. unfold register. by repeat case_match. Qed.

(** *** Steps and runs *)
Lemma serve_line_ok n T now o conn line c :
  now ≤ T → channel_ok n T c → channel_ok n T (serve_line o now conn line c).2.
Proof.
  intros Hnow Hok. unfold serve_line. destruct line as [|b line]; [done|]. destruct (chomp _) as [text|]; [|by apply refuse_ok].
  destruct (classify_line json text) as [r|e]; [|by apply refuse_ok].
  pose proof (register_kept now conn r c) as [Er Ec].
  assert (channel_ok n T (register now conn r c).2) as Hreg.
  { destruct Hok as [Hok Hs]. split; [by apply register_ok|]. by rewrite Er, Ec. }
  destruct (register now conn r c) as [[[]|[e|]] c']; [done|by apply refuse_ok|done].
Qed.
Lemma step_ok n T now c c' : T ≤ now → channel_ok n T c → step now c c' → channel_ok n now c'.
Proof.
  intros Hle [Hok0 Hs] Hst. pose proof (ch_ok_later _ _ _ _ _ _ _ Hle Hok0) as Hok.
  destruct Hst as [spawned c|o conn line c|conn c|target route c|o c|o c|o op a d note c Hd|paused c|o c|c].
  - split; [by apply accept_ok|]. unfold accept. destruct (closed c) eqn:E; [by intros _|]. case_match; [by rewrite <- E in Hs|].
    destruct spawned; [by rewrite <- E in Hs|]. cbn [snd]. eapply kept_spent; [apply withdraw_kept|]. by unfold spent_closed; cbn; rewrite E.
  - by apply serve_line_ok.
  - split; [by apply withdraw_ok|]. by eapply kept_spent; [apply withdraw_kept|].
  - split; [by apply ask_hold_ok|]. unfold ask_hold, held. set (l := covering _ _ _).
    destruct (hold_states_kept now l c) as [Er Ec]. destruct (hold_states now l c). cbn in *. by rewrite Er, Ec.
  - split; [by apply tend_ok|]. by eapply kept_spent; [apply tend_kept|].
  - split; [by apply tend_ok|]. by eapply kept_spent; [apply tend_kept|].
  - split; [by apply answer_ok|]. destruct (answer_kept o now op a d note c) as [-> ->]. done.
  - split; [by eapply pause_ok|]. unfold set_paused. by repeat case_match.
  - split; [by apply finish_ok|]. destruct (finish_kept o c) as [_ ->]. done.
  - unfold drop_channel. destruct (closed c) eqn:E; [by split|]. split; [by apply shut_ok|done].
Qed.
End from.

Lemma ch_ok_rebase b n T H q s c : ch_ok b n T H q s c → ch_ok c n T H q s c.
Proof. intros []. by split. Qed.
Lemma channel_ok_rebase b n T c : channel_ok b n T c → channel_ok c n T c.
Proof. intros [Hok ?]. split; [by eapply ch_ok_rebase|done]. Qed.
Lemma run_ok b n T c T' c' : channel_ok b n T c → run T c T' c' → channel_ok b n T' c'.
Proof. intros Hok Hr. induction Hr as [|T1 now c1 c2 _ IH Hle Hst]; [done|]. by eapply step_ok. Qed.
Lemma run_grows b n T c T' c' : channel_ok b n T c → run T c T' c' → grows c c'.
Proof. intros Hok%channel_ok_rebase Hr. by apply (ok_grows _ _ _ _ _ _ _ (proj1 (run_ok _ _ _ _ _ _ Hok Hr))). Qed.

(** A grant's bounds are unsigned. *)
Hypothesis grant_unsigned : 0 ≤ max_pending grant ∧ 0 ≤ max_total grant.
Lemma start_ok holding T : channel_ok (start holding) (length (from_option held_of [] holding)) T (start holding).
Proof.
  destruct grant_unsigned as [Hp Ht].
  assert (∀ i s, holds (start holding) !! i = Some s → hs_action s = None) as Hs.
  { intros i s. cbn. rewrite list_lookup_fmap. intros (? & _ & ->)%fmap_Some. done. }
  assert (opened (holds (start holding)) = O) as Ho.
  { cbn. unfold opened. by induction (from_option held_of [] holding). }
  split; [|done]. split; try done.
  - intros a. cbn. rewrite !dom_empty_L, !elem_of_empty. split; [lia|tauto].
  - intros i h a Hi. by specialize (Hs _ _ Hi).
  - intros i j s1 s2 a Hi _ E. specialize (Hs _ _ Hi). congruence.
  - by intros a id d note ?%elem_of_nil.
  - by apply NoDup_nil.
  - by intros e a ?%elem_of_nil.
  - by rewrite Ho.
  - cbn. by rewrite length_fmap.
  - cbn. rewrite size_empty. lia.
Qed.

(** A state the channel of a manifest's hold can be in at [T]. *)
Definition reaches (holding : option HoldGrant) (T : Z) (c : Channel) : Prop := ∃ T0, run T0 (start holding) T c.
Lemma reaches_ok holding T c : reaches holding T c → channel_ok c (length (from_option held_of [] holding)) T c.
Proof. intros (T0 & Hr). eapply channel_ok_rebase, run_ok; [apply start_ok|done]. Qed.
Lemma reaches_run holding T c T' c' : reaches holding T c → run T c T' c' → reaches holding T' c'.
Proof. intros (T0 & Hr) Hr'. exists T0. induction Hr'; [done|by econstructor]. Qed.
Lemma reaches_held holding T c i s :
  reaches holding T c → holds c !! i = Some s → from_option held_of [] holding !! i = Some (hs_held s).
Proof.
  intros (T0 & Hr) Hi. pose proof (run_grows _ _ _ _ _ _ (start_ok holding T0) Hr) as Hg.
  pose proof (gr_held _ _ Hg) as E. assert ((hs_held <$> holds c) !! i = Some (hs_held s)) as Hl by by rewrite list_lookup_fmap, Hi.
  rewrite E in Hl. cbn in Hl. rewrite <- list_fmap_compose, list_fmap_id in Hl. done.
Qed.
Lemma reaches_holds holding T c i h :
  reaches holding T c → from_option held_of [] holding !! i = Some h → ∃ s, holds c !! i = Some s ∧ hs_held s = h.
Proof.
  intros Hr Hi. pose proof (ok_holds _ _ _ _ _ _ _ (proj1 (reaches_ok _ _ _ Hr))) as Hlen.
  pose proof (lookup_lt_Some _ _ _ Hi) as Hlt. rewrite <- Hlen in Hlt. apply lookup_lt_is_Some in Hlt as [s Hs].
  exists s. split; [done|]. pose proof (reaches_held _ _ _ _ _ Hr Hs). congruence.
Qed.

(** *** Lemmas: what the proxy is told *)
Lemma hold_state_None n T i s now c c' :
  ch_ok c n T ∅ [] 0 c → holds c !! i = Some s → hold_state i now c = (None, c') →
  c' = c ∧ ∃ a, hs_action s = Some a ∧ answered c !! a = Some Approved.
Proof.
  intros Hok Hi. unfold hold_state. rewrite Hi. destruct (hs_action s) as [a|].
  - destruct (answered c !! a) as [[]|] eqn:Ea; try done. intros [= <-]. eauto.
  - destruct (closed c); [done|]. unfold open. destruct (hold_request i (hs_held s)) as [r|]; [|done]. cbn.
    assert (answered c !! (next_action c + 1) = None) as ->; [|done].
    apply not_elem_of_dom. intros Hin. assert (next_action c + 1 ≤ next_action c); [|lia].
    apply (fresh_number _ _ _ _ _ _ _ Hok). by right; right.
Qed.
Lemma hold_states_nil n T l now c c' :
  ch_ok c n T ∅ [] 0 c → (∀ i, i ∈ l → is_Some (holds c !! i)) → hold_states now l c = ([], c') →
  c' = c ∧ ∀ i s, i ∈ l → holds c !! i = Some s → ∃ a, hs_action s = Some a ∧ answered c !! a = Some Approved.
Proof.
  intros Hok. induction l as [|i l IH]; intros Hl.
  { intros [= <-]. split; [done|]. by intros i s ?%elem_of_nil. }
  cbn [hold_states]. destruct (hold_state i now c) as [[h|] c1] eqn:E1; [by destruct (hold_states now l c1)|].
  destruct (Hl i) as [s Hs]; [by left|]. destruct (hold_state_None _ _ _ _ _ _ _ Hok Hs E1) as [-> Ha].
  destruct (hold_states now l c) as [rs c2] eqn:E2. intros [= -> ->].
  destruct IH as [-> Hrest]; [intros j Hj; apply Hl; by right|done|]. split; [done|].
  intros j s' [->|Hj]%elem_of_cons Hs'; [|by apply (Hrest j)]. rewrite Hs in Hs'. by injection Hs' as <-.
Qed.
Lemma elem_of_covering host service c i :
  i ∈ covering host service c ↔ ∃ s, holds c !! i = Some s ∧ slot_covers s host service = true.
Proof.
  unfold covering. rewrite list_elem_of_In, filter_In, <- list_elem_of_In, elem_of_seq. split.
  - intros [_ Hc]. destruct (holds c !! i) as [s|]; [by exists s|done].
  - intros (s & Hs & Hc). rewrite Hs. split; [|done]. pose proof (lookup_lt_Some _ _ _ Hs). lia.
Qed.
Definition target_name (t : Target) : option (list byte) := match t_host t with Name name => Some name | Ip _ => None end.
Lemma ask_hold_passes n T now target route c c' :
  ch_ok c n T ∅ [] 0 c → ask_hold now target route c = (None, c') →
  c' = c ∧ ∀ i s, holds c !! i = Some s → slot_covers s (target_name target) (route ≫= strip_slash) = true →
    ∃ a, hs_action s = Some a ∧ answered c !! a = Some Approved.
Proof.
  intros Hok. unfold ask_hold, held. fold (target_name target). set (l := covering _ _ _).
  destruct (hold_states now l c) as [[|h rs] c1] eqn:E; [|done]. intros [= <-].
  destruct (hold_states_nil n T l now c c1 Hok) as [-> Ha]; [|done|].
  { intros i (s & Hs & _)%elem_of_covering. by exists s. }
  split; [done|]. intros i s Hs Hc. apply (Ha i s); [|done]. apply elem_of_covering. eauto.
Qed.

(** *** Lemmas: every request is answered *)
Lemma expire_loop_pending o l c : pending (foldl (expire_one o) c l) = foldl (λ m a, delete a m) (pending c) l.
Proof. revert c. induction l as [|a l IH]; intros c; [done|]. cbn [foldl]. by rewrite IH, expire_one_pending. Qed.
Lemma delete_loop_Some {A} l (m : gmap Z A) a p :
  foldl (λ m a, delete a m) m l !! a = Some p → a ∉ l ∧ m !! a = Some p.
Proof.
  revert m. induction l as [|b l IH]; intros m; cbn [foldl]; [intros; split; [apply not_elem_of_nil|done]|].
  intros [Ha [Hne Hm]%lookup_delete_Some]%IH. split; [|done]. rewrite not_elem_of_cons. by split; [congruence|].
Qed.
Lemma reply_queue o a p d note c : queue (reply o a p d note c) = queue c.
Proof. unfold reply. destruct (pd_conn p); [|done]. by repeat case_match. Qed.
Lemma flush_queue o c : queue (flush o c) = [].
Proof.
  unfold flush. assert (queue (set_queue c []) = []) as E by done. revert E. generalize (set_queue c []).
  induction (queue c) as [|e q IH]; intros c' E; [done|]. cbn [foldl]. apply IH.
  unfold flush_one. cbn. destruct e; try done. destruct (or_record _ _); [done|]. cbn.
  destruct (pending c' !! action); [by rewrite reply_queue|done].
Qed.
Lemma flush_records b n T o c a p :
  ch_ok b n T ∅ [] 0 c → pending (flush o c) !! a = Some p → pd_recorded p = true.
Proof.
  intros Hok Hp. apply (flush_ok _ _ _ _ o) in Hok. destruct (pd_recorded p) eqn:E; [done|].
  pose proof (ok_queued _ _ _ _ _ _ _ Hok _ _ Hp E) as Hin. rewrite flush_queue in Hin. by apply elem_of_nil in Hin.
Qed.
Lemma tend_pending b n T o now c a p :
  ch_ok b n T ∅ [] 0 c → paused_since c = None → pending (tend o now c) !! a = Some p →
  pending (flush o c) !! a = Some p ∧ now < pd_deadline p.
Proof.
  intros Hok Hpa. unfold tend, expire. pose proof (flush_kept o c) as E. injection E as _ _ _ _ E _. rewrite E, Hpa.
  rewrite expire_loop_pending. intros [Hn Hp]%delete_loop_Some. split; [done|].
  rewrite chosen_elem in Hn. unfold is_due in Hn. pose proof (flush_records _ _ _ _ _ _ _ Hok Hp) as Hre.
  destruct (Z.leb_spec (pd_deadline p) now); [|done]. destruct Hn. exists p. split; [done|]. cbn. rewrite Hre. cbn. lia.
Qed.
Lemma all_answered b n T c a :
  ch_ok b n T ∅ [] 0 c → pending c = ∅ → 1 ≤ a ≤ next_action c → is_Some (answered c !! a).
Proof.
  intros Hok Hp [Hin|[Hin|Hin]]%(ok_split _ _ _ _ _ _ _ Hok); [|set_solver|by apply elem_of_dom].
  rewrite Hp in Hin. set_solver.
Qed.

Lemma closed_serve_line o now conn line c : closed c = true → (serve_line o now conn line c).2 = c.
Proof.
  intros Hc. assert (∀ reason b, refuse o reason b c = c) as Hr by (intros; unfold refuse; by rewrite Hc).
  unfold serve_line. destruct line as [|b line]; [done|]. destruct (chomp _); [|apply Hr].
  destruct (classify_line _ _); [|apply Hr]. unfold register. by rewrite Hc.
Qed.
Lemma flush_empty o c : pending c = ∅ → pending (flush o c) = ∅.
Proof.
  unfold flush. change (pending c) with (pending (set_queue c [])). generalize (set_queue c []).
  induction (queue c) as [|e q IH]; intros c' E; [done|]. cbn [foldl]. apply IH.
  unfold flush_one. cbn. destruct e; try done. destruct (or_record _ _); cbn.
  - by rewrite E.
  - by rewrite E, lookup_empty.
Qed.
Lemma flush_connections o c : connections (flush o c) ⊆ connections c.
Proof.
  unfold flush. change (connections c) with (connections (set_queue c [])). generalize (set_queue c []).
  induction (queue c) as [|e q IH]; intros c'; [done|]. cbn [foldl]. etrans; [apply IH|].
  unfold flush_one. cbn. destruct e; try done. destruct (or_record _ _); [done|]. cbn.
  destruct (pending c' !! action) as [p|]; [|done]. unfold reply. destruct (pd_conn p); [|done]. repeat case_match; cbn; set_solver.
Qed.
(** A slot with an approved request: the approval and the request are in the log. *)
Lemma approved_slot b n T c i h a :
  ch_ok b n T ∅ [] 0 c → holds c !! i = Some (MkSlot h (Some a)) → answered c !! a = Some Approved →
  ∃ a r op, hold_request i h = Ok r ∧ recorded_answer c a r Approved op.
Proof.
  intros Hok Hi Ha. destruct (ok_decided _ _ _ _ _ _ _ Hok _ _ Ha eq_refl) as (r & op & Hr & Hs). exists a, r, op. eauto.
Qed.

Lemma ask_hold_approved holding T c now target route c' :
  reaches holding T c → ask_hold now target route c = (None, c') →
  c' = c ∧ ∀ i h, from_option held_of [] holding !! i = Some h →
    slot_covers (MkSlot h None) (target_name target) (route ≫= strip_slash) = true →
    ∃ a r op, hold_request i h = Ok r ∧ recorded_answer c a r Approved op.
Proof.
  intros Hr Hask. pose proof (proj1 (reaches_ok _ _ _ Hr)) as Hok.
  destruct (ask_hold_passes _ _ _ _ _ _ _ Hok Hask) as [-> Ha]. split; [done|]. intros i h Hi Hc.
  destruct (reaches_holds _ _ _ _ _ Hr Hi) as ([h' o] & Hs & E). cbn in E. subst h'.
  destruct (Ha _ _ Hs Hc) as (a & E & Hap). cbn in E. subst o. by eapply approved_slot.
Qed.

(** ** Properties *)
(** C27. A request is answered at the latest when the channel is tended to after its wait: at any
    instant a full wait after a state the channel reached unpaused, whatever appends and sends
    fail, nothing is pending and every request has its answer. *)
Theorem requests_are_answered holding T c o now :
  reaches holding T c → paused_since c = None → T + wait_ms ≤ now →
  pending (tend o now c) = ∅ ∧ ∀ a, 1 ≤ a ≤ next_action c → is_Some (answered (tend o now c) !! a).
Proof.
  intros [Hok _]%reaches_ok Hpa Hnow.
  assert (pending (tend o now c) = ∅) as He.
  { apply map_empty. intros a. destruct (pending _ !! a) as [p|] eqn:Hp; [|done].
    destruct (tend_pending _ _ _ _ _ _ _ _ Hok Hpa Hp) as [Hf Hlt]. apply (flush_ok _ _ _ _ o) in Hok.
    pose proof (ok_clock _ _ _ _ _ _ _ Hok _ _ Hf) as Hc. pose proof (flush_kept o c) as E. injection E as _ _ _ _ E _.
    rewrite E, Hpa in Hc. cbn in Hc. lia. }
  split; [done|]. intros a Ha. eapply all_answered; [by apply tend_ok|done|].
  pose proof (tend_kept o now c) as E. injection E as -> _ _ _ _ _. done.
Qed.

(** The end of an attempt answers everything and closes the channel for good: nothing is pending
    or queued, every request has its answer, and no line of a later connection becomes a request
    or a record. *)
Theorem finish_settles holding T c o :
  reaches holding T c →
  let c' := finish o c in
  pending c' = ∅ ∧ queue c' = [] ∧ closed c' = true ∧ connections c' = ∅ ∧
  (∀ a, 1 ≤ a ≤ next_action c → is_Some (answered c' !! a)) ∧
  (∀ o' now conn line, (serve_line o' now conn line c').2 = c') ∧ (∀ spawned, accept spawned c' = (None, c')).
Proof.
  intros [Hok Hs]%reaches_ok c'. pose proof (finish_ok _ _ _ _ o _ Hok) as Hok'. fold c' in Hok'.
  destruct (finish_kept o c) as [_ Hcl]. fold c' in Hcl.
  assert (pending c' = ∅ ∧ connections c' = ∅ ∧ next_action c' = next_action c) as (Hp & Hc & Hn).
  { unfold c', finish. pose proof (finish_loop_ok _ _ _ _ o _ Hok) as H2. revert H2. set (c2 := foldl _ _ _). intros H2. assert (pending c2 = ∅ ∧ kept c2 = kept c) as [Hp Hk].
    { unfold c2. split; [|rewrite kept_loop; [apply flush_kept|intros ? e; unfold finish_one; by rewrite reply_kept]].
      assert (pending (set_pending (flush o c) ∅) = ∅) as E by done. revert E. generalize (set_pending (flush o c) ∅).
      generalize (entries (flush o c)). intros l. induction l as [|e l IH]; intros c3 E; [done|]. cbn [foldl]. apply IH. unfold finish_one. by rewrite reply_pending. }
    assert (next_action c2 = next_action c) as Hn by by injection Hk.
    pose proof (ok_closed _ _ _ _ _ _ _ H2) as Hcc.
    split_and!.
    - apply flush_empty. by destruct (closed c2).
    - apply set_eq. intros x. split; [|set_solver]. intros Hx%flush_connections. destruct (closed c2); [by rewrite (Hcc eq_refl) in Hx|done].
    - pose proof (flush_kept o (if closed c2 then c2 else shut c2)) as E. injection E as -> _ _ _ _ _. by destruct (closed c2). }
  split_and!; [done|apply flush_queue|done|done| | |].
  - intros a Ha. eapply all_answered; [done|done|by rewrite Hn].
  - intros. by apply closed_serve_line.
  - intros. unfold accept. by rewrite Hcl.
Qed.

(** C26. A held capability is released by a recorded approval alone: when the proxy lets a request
    through, with its hold answered by the attempt's channel, then for every held capability that
    covers the host of the request or the credential route it takes, the log has the record of
    the node's own request for that capability and, after it, an approval by an operation of the
    control plane; and answering the proxy changed nothing. *)
Theorem held_until_approved holding T c now cfg l l' io client req reason s :
  reaches holding T c →
  cfg_hold cfg = Some (λ target route, held_texts <$> (ask_hold now target route c).1) →
  serve cfg l l' io client = (Some (req, true, reason), s) →
  ∃ route, (∀ g pinned sent, s = Exchanged g pinned sent → route = Some (g_prefix g)) ∧
    (ask_hold now (rq_target req) route c).2 = c ∧
    ∀ i h, from_option held_of [] holding !! i = Some h →
      slot_covers (MkSlot h None) (target_name (rq_target req)) (route ≫= strip_slash) = true →
      ∃ a r op, hold_request i h = Ok r ∧ recorded_answer c a r Approved op.
Proof.
  intros Hr Hhold Hs. destruct (served_unheld _ _ _ _ _ _ _ _ _ Hs Hhold) as (route & Hh & Hg). exists route.
  destruct (ask_hold now (rq_target req) route c) as [res c'] eqn:Hask. cbn in Hh.
  destruct res as [x|]; [done|]. destruct (ask_hold_approved _ _ _ _ _ _ _ Hr Hask) as [-> Ha].
  split_and!; [|done|done]. intros g pinned sent E. by destruct (Hg _ _ _ E).
Qed.

(** A refusal is final: once the request for a held capability is denied, expired or cancelled,
    every later question about a request the capability covers is refused. *)
Theorem hold_refusal_is_final holding T c T' c' now i h a d target route :
  reaches holding T c → holds c !! i = Some (MkSlot h (Some a)) → answered c !! a = Some d → d ≠ Approved →
  run T c T' c' → slot_covers (MkSlot h None) (target_name target) (route ≫= strip_slash) = true →
  (ask_hold now target route c').1 ≠ None.
Proof.
  intros Hr Hi Ha Hd Hrun Hc. pose proof (run_grows _ _ _ _ _ _ (reaches_ok _ _ _ Hr) Hrun) as [Hans _ _ Hsl _].
  pose proof (proj1 (reaches_ok _ _ _ (reaches_run _ _ _ _ _ Hr Hrun))) as Hok.
  destruct (ask_hold now target route c') as [res c''] eqn:Hask. cbn. intros ->.
  destruct (ask_hold_passes _ _ _ _ _ _ _ Hok Hask) as [_ Hpass]. destruct (Hpass _ _ (Hsl _ _ _ Hi) Hc) as (a' & [= <-] & Hap).
  apply (lookup_weaken _ _ _ _ Ha) in Hans. congruence.
Qed.

(** Every request is answered once and the workload told the truth: a number the channel gave out
    is pending or answered and never both; the workload is told of a request at most once, and
    what the answer is; an approval or a denial is in the log before that, after the record of
    the request; and no later step changes an answer. *)
Theorem answers_are_recorded_and_final holding T c T' c' :
  reaches holding T c → run T c T' c' →
  (∀ a, 1 ≤ a ≤ next_action c ↔ a ∈ dom (pending c) ∨ a ∈ dom (answered c)) ∧
  dom (pending c) ## dom (answered c) ∧ NoDup (told_actions c) ∧
  (∀ a id d note, (a, id, d, note) ∈ told c → answered c !! a = Some d) ∧
  (∀ a d, answered c !! a = Some d → answerable d = true → ∃ r op, recorded_answer c a r d op) ∧
  (∀ a d, answered c !! a = Some d → answered c' !! a = Some d).
Proof.
  intros Hr Hrun. pose proof (reaches_ok _ _ _ Hr) as [Hok Hs].
  pose proof (run_grows _ _ _ _ _ _ (conj Hok Hs) Hrun) as [Hans _ _ _ _]. destruct Hok. split_and!; try done.
  - intros a. rewrite ok_split0. set_solver.
  - intros a d Ha Hd. destruct (ok_decided0 a d Ha Hd) as (r & op & Hrec & _). eauto.
  - intros a d Ha. by eapply lookup_weaken.
Qed.

(** An operation answers once: after the control plane's answer was accepted, the same operation
    is accepted again at any later point without acting, and any other answer under its id is
    refused as stale. *)
Theorem answers_are_idempotent holding T c o now op a d note c1 T' c2 o' now' a' d' note' :
  reaches holding T c → T ≤ now → answerable d = true → answer o now op a d note c = (Ok d, c1) → run now c1 T' c2 →
  answer o' now' op a' d' note' c2 = (if bool_decide ((a', d', note') = (a, d, note)) then Ok d else Err StaleOperation, c2).
Proof.
  intros Hr Hle Hd Ha Hrun. assert (answer_ops c1 !! op = Some (a, d, note)) as Hop.
  { unfold answer in Ha. destruct (replay op a d note c) as [x|] eqn:Er.
    - injection Ha as -> <-. unfold replay in Er. destruct (answer_ops c !! op) as [k|]; [|done]. cbn in Er.
      case_bool_decide as E; [by subst|done].
    - revert Ha. generalize (tend o now c). clear. intros c Ha. destruct (pending c !! a) as [p|]; [|done].
      destruct (pd_recorded p); [|done]. cbn in Ha. destruct (or_record o (tries c)); [|done]. injection Ha as <-. apply lookup_insert_eq. }
  assert (channel_ok c1 (length (from_option held_of [] holding)) now c1) as Hok.
  { apply reaches_ok. eapply reaches_run; [done|]. eapply run_step; [apply run_refl|done|].
    pose proof (step_answer now o op a d note c Hd) as Hst. by rewrite Ha in Hst. }
  destruct (run_grows _ _ _ _ _ _ Hok Hrun) as [_ Hops _ _ _]. unfold answer, replay.
  rewrite (lookup_weaken _ _ _ _ Hop Hops). cbn. case_bool_decide as E1; case_bool_decide as E2; congruence.
Qed.

(** C39. What a hostile workload can make the node do is bounded by its grant: the numbers given out,
    the requests waiting, the connections served and, over the whole attempt, the records: two
    per request and one per refusal. *)
Theorem channel_is_bounded holding T c :
  reaches holding T c →
  let held := Z.of_nat (length (from_option held_of [] holding)) in
  0 ≤ next_action c ≤ max_total grant + held ∧ waiting c ≤ max_pending grant ∧
  (size (connections c) ≤ MAX_ACTION_CONNECTIONS)%nat ∧
  slen (appended c) + slen (queue c) ≤ 2 * (max_total grant + held) + MAX_ACTION_REFUSALS.
Proof.
  intros [Hok _]%reaches_ok. cbn zeta. destruct Hok. unfold slen in *. cbn [length] in *.
  assert (Z.of_nat (opened (holds c)) ≤ Z.of_nat (length (holds c))) as Ho.
  { unfold opened. pose proof (List.filter_length_le (λ s, bool_decide (is_Some (hs_action s))) (holds c)). lia. }
  rewrite <- ok_holds0 in *.
  assert (Z.of_nat (size (answered c)) ≤ next_action c) as Hsz.
  { rewrite <- size_dom. etrans; [apply inj_le, (subseteq_size _ (list_to_set (seqZ 1 (next_action c))))|].
    - intros a Ha. apply elem_of_list_to_set, elem_of_seqZ. assert (1 ≤ a ≤ next_action c) by (apply ok_split0; tauto). lia.
    - rewrite size_list_to_set by apply NoDup_seqZ. rewrite length_seqZ. lia. }
  split_and!; [lia|lia|done|done|lia].
Qed.
End channel.

(** ** Examples *)
Module ActionsExample.
Definition hash (l : list byte) : Blake3Hash := chr (Z.of_nat (length l)) ::: vreplicate 31 (chr 0).
Definition grant0 : ActionGrant := MkActions [Approval] 2 4 60.
Definition hold0 : option HoldGrant := Some (MkHold [bytes "api.example.com"] [bytes "github"]).
Definition fine : Oracle := MkOracle (λ _, true) (λ _, true).
Definition json0 (l : list byte) : LineJson := RequestFields l Approval (bytes "deploy") [].
Definition github : Target := g_target GatewayExample.route0.
(** The proxy asks, the node records the two requests, the control plane answers them. *)
Definition c1 : Channel := (ask_hold hash grant0 1 github (Some (bytes "/github")) (start hold0)).2.
Definition c2 : Channel := tend hash fine 2 c1.
Definition c3 : Channel := (answer hash fine 3 1 1 Approved None c2).2.
Definition c4 : Channel := (answer hash fine 4 2 2 Approved None c3).2.
Definition denied : Channel := (answer hash fine 3 1 1 Denied None c2).2.
(** A workload asks on its own connection. *)
Definition w1 : Channel := (accept hash true c2).2.
Definition w2 : Channel := (serve_line hash json0 grant0 fine 3 0 (bytes "build-1" ++ [LF]) w1).2.
Definition asked : Config := MkConfig (cfg_policy GatewayExample.cfg0) (cfg_resolver GatewayExample.cfg0) (cfg_gateways GatewayExample.cfg0)
  (Some (λ target route, held_texts <$> (ask_hold hash grant0 5 target route c4).1)).
Definition request0 : HttpRequest :=
  match (serve asked GatewayExample.live0 GatewayExample.live0 GatewayExample.host0 GatewayExample.client0).1 with
  | Some (r, _, _) => r | None => MkRequest Connect github end.
End ActionsExample.
Import ActionsExample.

Lemma reaches_step holding T now c c' :
  reaches hash json0 grant0 holding T c → T ≤ now → step hash json0 grant0 now c c' → reaches hash json0 grant0 holding now c'.
Proof. intros Hr Hle Hst. eapply reaches_run; [done|]. eapply run_step; [apply run_refl|done|done]. Qed.
Lemma reach1 : reaches hash json0 grant0 hold0 1 c1.
Proof. apply (reaches_step hold0 0 1 (start hold0)); [exists 0; apply run_refl|done|apply step_hold]. Qed.
Lemma reach2 : reaches hash json0 grant0 hold0 2 c2.
Proof. apply (reaches_step hold0 1 2 c1); [apply reach1|done|apply step_tend]. Qed.
Lemma reach4 : reaches hash json0 grant0 hold0 4 c4.
Proof.
  apply (reaches_step hold0 3 4 c3); [apply (reaches_step hold0 2 3 c2); [apply reach2|done|]|done|]; by apply step_answer.
Qed.
Lemma reach_denied : reaches hash json0 grant0 hold0 3 denied.
Proof. apply (reaches_step hold0 2 3 c2); [apply reach2|done|by apply step_answer]. Qed.
Lemma reach_asked : reaches hash json0 grant0 hold0 3 w2.
Proof.
  apply (reaches_step hold0 2 3 w1); [apply (reaches_step hold0 2 2 c2); [apply reach2|done|apply step_accept]|done|apply step_line].
Qed.
Lemma grant0_unsigned : 0 ≤ max_pending grant0 ∧ 0 ≤ max_total grant0.
Proof. split; vm_compute; discriminate. Qed.

Lemma held_until_approved_witness :
  (∃ s, serve asked GatewayExample.live0 GatewayExample.live0 GatewayExample.host0 GatewayExample.client0 = (Some (request0, true, bytes "gateway /github"), s)) ∧
  ∃ a r op, hold_request 1 (HeldService (bytes "github")) = Ok r ∧ recorded_answer hash c4 a r Approved op.
Proof.
  assert (∃ s, serve asked GatewayExample.live0 GatewayExample.live0 GatewayExample.host0 GatewayExample.client0 = (Some (request0, true, bytes "gateway /github"), s) ∧
     ∃ p w, s = Exchanged GatewayExample.route0 p w) as (s & Hs & p & w & Hx)
    by (eexists; split; [vm_compute; reflexivity|eexists _, _; vm_compute; reflexivity]).
  split; [exists s; exact Hs|].
  destruct (held_until_approved hash json0 grant0 grant0_unsigned hold0 4 c4 5 asked _ _ _ _ _ _ s reach4 eq_refl Hs)
    as (route & Hg & _ & Hh).
  rewrite (Hg _ _ _ Hx) in Hh. apply (Hh 1%nat); vm_compute; reflexivity.
Defined.
Lemma requests_are_answered_witness :
  map_size (pending w2) = 3%nat ∧ pending (tend hash fine 60003 w2) = ∅.
Proof.
  split; [vm_compute; reflexivity|].
  apply (requests_are_answered hash json0 grant0 grant0_unsigned hold0 3 w2 fine 60003 reach_asked); [vm_compute; reflexivity|vm_compute; discriminate].
Defined.
Lemma finish_settles_witness :
  map_size (pending w2) = 3%nat ∧ is_Some (answered (finish hash fine w2) !! 3).
Proof.
  split; [vm_compute; reflexivity|].
  apply (finish_settles hash json0 grant0 grant0_unsigned hold0 3 w2 fine reach_asked). vm_compute. split; discriminate.
Defined.
Lemma hold_refusal_is_final_witness :
  (ask_hold hash grant0 9 github None denied).1 ≠ None.
Proof.
  apply (hold_refusal_is_final hash json0 grant0 grant0_unsigned hold0 3 denied 3 denied 9 0 (HeldHost (bytes "api.example.com")) 1 Denied);
    [apply reach_denied|vm_compute; reflexivity|vm_compute; reflexivity|discriminate|apply run_refl|vm_compute; reflexivity].
Defined.
Lemma answers_are_recorded_and_final_witness :
  ∃ r op, recorded_answer hash denied 1 r Denied op.
Proof.
  apply (answers_are_recorded_and_final hash json0 grant0 grant0_unsigned hold0 3 denied 3 denied reach_denied (run_refl _ _ _ _ _));
    vm_compute; reflexivity.
Defined.
Lemma answers_are_idempotent_witness :
  (answer hash fine 9 1 1 Approved None c3).1 = Ok Approved ∧ (answer hash fine 9 1 2 Approved None c3).1 = Err StaleOperation.
Proof.
  split;
    (rewrite (answers_are_idempotent hash json0 grant0 grant0_unsigned hold0 2 c2 fine 3 1 1 Approved None c3 3 c3);
      [vm_compute; reflexivity|apply reach2|lia|reflexivity|vm_compute; reflexivity|apply run_refl]).
Defined.
Lemma channel_is_bounded_witness :
  slen (appended w2) + slen (queue w2) ≤ 28 ∧ next_action w2 = 3.
Proof.
  split; [|vm_compute; reflexivity].
  apply (channel_is_bounded hash json0 grant0 grant0_unsigned hold0 3 w2 reach_asked).
Defined.
