(* ===== verification/Approvals.v ===== *)
(** * Approvals: the questions a session holds for its user, and the temporary authority it shows
      ([crates/ward-daemon/src/approvals.rs])

    [State] is what the daemon keeps under the lock of its approvals: the questions held with
    their decision clocks, the answers a session remembers, the credentials its launches were
    granted, the revocations being waited for, and two bounded histories.  Each operation is one
    hold of that lock; an instant is a number of nanoseconds, the wall clock one of milliseconds.
    The slots that connections revoking the same grant share are addresses into a store, so that
    a joiner reads what the leader published.  The theorems say that the clock of a question
    counts exactly the time the session runs, that an answer is taken only in that time, and how
    grants are numbered, suspended, revoked and retired. *)

From stdpp Require Import base numbers option gmap sorting strings list.
From S2P Require Import Prelude Bytes.
Local Open Scope Z_scope.

(** ** Questions *)
Inductive Lifetime : Set := LifetimeOnce | LifetimeSession | LifetimeLaunch | LifetimeLaunchUnknown.
Record Authority := MkAuthority {
  au_rule : list byte;
  au_destination : list byte;
  au_network : list byte;
  au_method : list byte;
  au_credential : list byte;
  au_repository : option (list byte);
  au_lifetime : option Lifetime;
}.
Fixpoint join (sep : list byte) (parts : list (list byte)) : list byte :=
  match parts with
  | [] => []
  | [p] => p
  | p :: parts => p ++ sep ++ join sep parts
  end.
Definition dot_sep : list byte := bytes " · ".
Definition authority_scope (a : Authority) : list byte :=
  join dot_sep
    ([au_method a]
     ++ (if bool_decide (au_network a = bytes "none") then [] else [au_network a])
     ++ (if bool_decide (au_credential a = bytes "none") then [] else [au_credential a])).

Record Countdown := MkCountdown { cd_remaining_ms : Z; cd_timeout_ms : Z; cd_held : bool }.
Record Approval := MkApproval {
  ap_id : Z;
  ap_tool : list byte;
  ap_summary : list byte;
  ap_claim : list byte;
  ap_authority : Authority;
  ap_requested_at : Z;
  ap_countdown : option Countdown;
}.
Definition Approval_new (id : Z) (tool summary : list byte) (authority : Authority) (at_ms : Z) : Approval :=
  MkApproval id tool summary (tool ++ bytes " " ++ summary) authority at_ms None.

Inductive RevokeState : Set := Active | Suspended | Revoking | Revoked | Unconfirmed | Expired.
#[export] Instance RevokeState_eq_dec : EqDecision RevokeState.
Proof. solve_decision. Defined.
Record Credential := MkCredential {
  cr_id : Z;
  cr_service : list byte;
  cr_hosts : list (list byte);
  cr_permissions : list (list byte);
  cr_granted_at : Z;
  cr_launch_key : option Z;
  cr_state : RevokeState;
  cr_expires_at : option Z;
}.
Inductive GrantKind : Set := GrantApproval | GrantCredential.
#[export] Instance GrantKind_eq_dec : EqDecision GrantKind.
Proof. solve_decision. Defined.
Record Grant := MkGrant {
  gr_id : Z;
  gr_kind : GrantKind;
  gr_label : list byte;
  gr_scope : list byte;
  gr_lifetime : Lifetime;
  gr_granted_at : Z;
  gr_state : RevokeState;
}.
Definition session_grant (a : Approval) (at_ms id : Z) : Grant :=
  MkGrant id GrantApproval (ap_tool a ++ bytes " " ++ au_destination (ap_authority a))
    (authority_scope (ap_authority a)) LifetimeSession at_ms Active.

Definition service_name (service : list byte) : list byte :=
  if bool_decide (service = bytes "github") then bytes "GitHub" else service.
Definition LEASE_NOTE_MARK : list byte := bytes " · provider ".
(** [split(mark).next()]: what is before the first mark. *)
Fixpoint before (mark l : list byte) : list byte :=
  if starts_with mark l then [] else match l with [] => [] | b :: l => b :: before mark l end.
Definition with_lease_note (scope : list byte) (note : option (list byte)) : list byte :=
  let base := before LEASE_NOTE_MARK scope in
  match note ≫= strip_prefix (bytes "provider ") with
  | Some rest => base ++ LEASE_NOTE_MARK ++ rest
  | None => base
  end.
Definition credential_grant (c : Credential) (unknown : gset Z) (notes : gmap Z (list byte)) : Grant :=
  let scope := join (bytes ", ") (cr_permissions c) ++ dot_sep ++ join (bytes ", ") (cr_hosts c) in
  MkGrant (cr_id c) GrantCredential (service_name (cr_service c)) (with_lease_note scope (notes !! cr_id c))
    (match cr_launch_key c with
     | Some key => if bool_decide (key ∈ unknown) then LifetimeLaunchUnknown else LifetimeLaunch
     | None => LifetimeLaunch
     end)
    (cr_granted_at c) (cr_state c).

Inductive RevokeOutcome : Set := Withdrawn | WithdrawnInFlight (n : Z) | RevokeUnconfirmed.
Inductive ApprovalDecision : Set := Allow | AllowSession | Deny.
#[export] Instance ApprovalDecision_eq_dec : EqDecision ApprovalDecision.
Proof. solve_decision. Defined.
Definition decision_str (d : ApprovalDecision) : list byte :=
  bytes (match d with Allow => "allow" | AllowSession => "allow-session" | Deny => "deny" end).
Definition decision_from_str (s : list byte) : option ApprovalDecision :=
  if bool_decide (s = bytes "allow") then Some Allow
  else if bool_decide (s = bytes "allow-session") then Some AllowSession
  else if bool_decide (s = bytes "deny") then Some Deny
  else None.
Inductive Outcome : Set := Answered (d : ApprovalDecision) | Remembered | TimedOut | SessionClosed.
#[export] Instance Outcome_eq_dec : EqDecision Outcome.
Proof. solve_decision. Defined.
Inductive HookDecision : Set := HookAllow | HookDeny.
Definition response (o : Outcome) : HookDecision :=
  match o with
  | Answered Allow | Answered AllowSession | Remembered => HookAllow
  | Answered Deny | TimedOut | SessionClosed => HookDeny
  end.

(** ** The decision clock *)
Record Clock := MkClock { ck_timeout : Z; ck_left : Z; ck_running_since : option Z }.
Definition clock_start (timeout now : Z) (paused : bool) : Clock :=
  MkClock timeout timeout (if paused then None else Some now).
Definition clock_remaining (c : Clock) (now : Z) : Z :=
  match ck_running_since c with
  | Some since => saturating_sub (ck_left c) (saturating_sub now since)
  | None => ck_left c
  end.
Definition clock_hold (now : Z) (c : Clock) : Clock :=
  match ck_running_since c with
  | Some _ => MkClock (ck_timeout c) (clock_remaining c now) None
  | None => c
  end.
Definition clock_run (now : Z) (c : Clock) : Clock :=
  match ck_running_since c with
  | None => MkClock (ck_timeout c) (ck_left c) (Some now)
  | Some _ => c
  end.
Definition millis (d : Z) : Z := (d / 1000000) `min` u64_max.
Definition clock_countdown (c : Clock) (now : Z) : Countdown :=
  MkCountdown (millis (clock_remaining c now)) (millis (ck_timeout c)) (bool_decide (ck_running_since c = None)).

(** ** The state *)
Record Held := MkHeld { h_approval : Approval; h_answer : option ApprovalDecision; h_clock : option Clock }.
Definition shown (h : Held) (now : Z) : Approval :=
  let a := h_approval h in
  match h_answer h with
  | None => MkApproval (ap_id a) (ap_tool a) (ap_summary a) (ap_claim a) (ap_authority a) (ap_requested_at a)
              ((λ c, clock_countdown c now) <$> h_clock h)
  | Some _ => a
  end.
Record ApprovalRecord := MkRecord { ar_approval : Approval; ar_outcome : option Outcome; ar_decided_at : option Z }.
Definition HISTORY_CAP : nat := 200.
Definition GRANT_HISTORY_CAP : nat := 200.

Record State := MkState {
  held : list Held;
  remembered : gmap (list byte * list byte) Grant;
  credentials : list Credential;
  next_grant_id : Z;
  unknown_launches : gset Z;
  closed : bool;
  paused : bool;
  history : list ApprovalRecord;
  handoff : gmap Z Outcome;
  unclaimed : gmap Z (Approval * Outcome);
  revoke_wait : gmap Z nat;
  grant_history : list Grant;
  lease_notes : gmap Z (list byte);
  (** the slots of the revoke waits, which outlive their entry in [revoke_wait] *)
  slots : list (option RevokeOutcome);
}.
Definition State_new : State := MkState [] ∅ [] 0 ∅ false false [] ∅ ∅ ∅ [] ∅ [].

Definition set_held (s : State) (x : list Held) : State :=
  MkState x (remembered s) (credentials s) (next_grant_id s) (unknown_launches s) (closed s) (paused s) (history s)
    (handoff s) (unclaimed s) (revoke_wait s) (grant_history s) (lease_notes s) (slots s).
Definition set_remembered (s : State) (x : gmap (list byte * list byte) Grant) : State :=
  MkState (held s) x (credentials s) (next_grant_id s) (unknown_launches s) (closed s) (paused s) (history s)
    (handoff s) (unclaimed s) (revoke_wait s) (grant_history s) (lease_notes s) (slots s).
Definition set_credentials (s : State) (x : list Credential) : State :=
  MkState (held s) (remembered s) x (next_grant_id s) (unknown_launches s) (closed s) (paused s) (history s)
    (handoff s) (unclaimed s) (revoke_wait s) (grant_history s) (lease_notes s) (slots s).
Definition set_next_grant_id (s : State) (x : Z) : State :=
  MkState (held s) (remembered s) (credentials s) x (unknown_launches s) (closed s) (paused s) (history s)
    (handoff s) (unclaimed s) (revoke_wait s) (grant_history s) (lease_notes s) (slots s).
Definition set_unknown (s : State) (x : gset Z) : State :=
  MkState (held s) (remembered s) (credentials s) (next_grant_id s) x (closed s) (paused s) (history s)
    (handoff s) (unclaimed s) (revoke_wait s) (grant_history s) (lease_notes s) (slots s).
Definition set_closed (s : State) : State :=
  MkState (held s) (remembered s) (credentials s) (next_grant_id s) (unknown_launches s) true (paused s) (history s)
    (handoff s) (unclaimed s) (revoke_wait s) (grant_history s) (lease_notes s) (slots s).
Definition set_pause_flag (s : State) (x : bool) : State :=
  MkState (held s) (remembered s) (credentials s) (next_grant_id s) (unknown_launches s) (closed s) x (history s)
    (handoff s) (unclaimed s) (revoke_wait s) (grant_history s) (lease_notes s) (slots s).
Definition set_history (s : State) (x : list ApprovalRecord) : State :=
  MkState (held s) (remembered s) (credentials s) (next_grant_id s) (unknown_launches s) (closed s) (paused s) x
    (handoff s) (unclaimed s) (revoke_wait s) (grant_history s) (lease_notes s) (slots s).
Definition set_claims (s : State) (h : gmap Z Outcome) (u : gmap Z (Approval * Outcome)) : State :=
  MkState (held s) (remembered s) (credentials s) (next_grant_id s) (unknown_launches s) (closed s) (paused s) (history s)
    h u (revoke_wait s) (grant_history s) (lease_notes s) (slots s).
Definition set_waits (s : State) (w : gmap Z nat) (x : list (option RevokeOutcome)) : State :=
  MkState (held s) (remembered s) (credentials s) (next_grant_id s) (unknown_launches s) (closed s) (paused s) (history s)
    (handoff s) (unclaimed s) w (grant_history s) (lease_notes s) x.
Definition set_grant_history (s : State) (x : list Grant) : State :=
  MkState (held s) (remembered s) (credentials s) (next_grant_id s) (unknown_launches s) (closed s) (paused s) (history s)
    (handoff s) (unclaimed s) (revoke_wait s) x (lease_notes s) (slots s).
Definition set_lease_notes (s : State) (x : gmap Z (list byte)) : State :=
  MkState (held s) (remembered s) (credentials s) (next_grant_id s) (unknown_launches s) (closed s) (paused s) (history s)
    (handoff s) (unclaimed s) (revoke_wait s) (grant_history s) x (slots s).

(** [VecDeque] with a cap: the oldest entry leaves first. *)
Definition push_capped {A} (cap : nat) (l : list A) (x : A) : list A :=
  (if (cap <=? length l)%nat then tail l else l) ++ [x].
Definition mint_grant_id (s : State) : Z * State := (next_grant_id s + 1, set_next_grant_id s (next_grant_id s + 1)).
Definition record_history (a : Approval) (o : Outcome) (at_ms : Z) (s : State) : State :=
  set_history s (push_capped HISTORY_CAP (history s) (MkRecord a (Some o) (Some at_ms))).
Definition record_grant_history (g : Grant) (s : State) : State :=
  set_grant_history s (push_capped GRANT_HISTORY_CAP (grant_history s) g).

Definition with_state (c : Credential) (x : RevokeState) : Credential :=
  MkCredential (cr_id c) (cr_service c) (cr_hosts c) (cr_permissions c) (cr_granted_at c) (cr_launch_key c) x (cr_expires_at c).
Definition with_expiry (c : Credential) (x : option Z) : Credential :=
  MkCredential (cr_id c) (cr_service c) (cr_hosts c) (cr_permissions c) (cr_granted_at c) (cr_launch_key c) (cr_state c) x.
(** Retire a credential that left the list into the history. *)
Definition retire (x : RevokeState) (s : State) (c : Credential) : State :=
  record_grant_history (credential_grant (with_state c x) (unknown_launches s) (lease_notes s)) s.

Definition still_live (now_ms : Z) (c : Credential) : bool :=
  bool_decide (cr_state c = Revoking) || bool_decide (cr_state c = Unconfirmed)
  || match cr_expires_at c with None => true | Some e => now_ms <? e end.
Definition sweep_expired_credentials (now_ms : Z) (s : State) : State :=
  let expired := List.filter (λ c, negb (still_live now_ms c)) (credentials s) in
  foldl (retire Expired) (set_credentials s (List.filter (still_live now_ms) (credentials s))) expired.

Definition is_remembered (tool summary : list byte) (s : State) : bool :=
  bool_decide (is_Some (remembered s !! (tool, summary))).

(** ** Credentials *)
Definition same_grant (service : list byte) (permissions : list (list byte)) (key : option Z) (c : Credential) : bool :=
  bool_decide (cr_service c = service) && bool_decide (cr_permissions c = permissions) && bool_decide (cr_launch_key c = key).
Definition add_host (host : list byte) (c : Credential) : Credential :=
  if bool_decide (host ∈ cr_hosts c) then c
  else MkCredential (cr_id c) (cr_service c) (cr_hosts c ++ [host]) (cr_permissions c) (cr_granted_at c) (cr_launch_key c)
         (cr_state c) (cr_expires_at c).
(** Change the first element that satisfies [p]. *)
Fixpoint alter_first {A} (p : A → bool) (f : A → A) (l : list A) : list A :=
  match l with
  | [] => []
  | x :: l => if p x then f x :: l else x :: alter_first p f l
  end.
Fixpoint remove_first {A} (p : A → bool) (l : list A) : list A :=
  match l with
  | [] => []
  | x :: l => if p x then l else x :: remove_first p l
  end.
Definition record_credential_with_expiry (service host : list byte) (permissions : list (list byte)) (key : option Z)
    (granted_at : Z) (expires_at : option Z) (s : State) : Z * State :=
  match List.find (same_grant service permissions key) (credentials s) with
  | Some c =>
      (cr_id c, set_credentials s (alter_first (same_grant service permissions key) (add_host host) (credentials s)))
  | None =>
      let '(id, s) := mint_grant_id s in
      let c := MkCredential id service [host] permissions granted_at key (if paused s then Suspended else Active) expires_at in
      (id, set_credentials s (credentials s ++ [c]))
  end.

Inductive LeaseRetire : Set := RetireRevoked | RetireExpired.
Record LeaseNote := MkNote { ln_id : Z; ln_text : list byte; ln_retire : option LeaseRetire; ln_expires_at : option Z }.
Definition has_id (id : Z) (c : Credential) : bool := cr_id c =? id.
Definition retirable (c : Credential) : bool := bool_decide (cr_state c = Active) || bool_decide (cr_state c = Suspended).
Definition retire_state (r : LeaseRetire) : RevokeState := match r with RetireRevoked => Revoked | RetireExpired => Expired end.
(** Change the last element that satisfies [p] ([iter_mut().rev().find]). *)
Definition alter_last {A} (p : A → bool) (f : A → A) (l : list A) : list A := rev (alter_first p f (rev l)).
Definition note_grant (text : list byte) (g : Grant) : Grant :=
  MkGrant (gr_id g) (gr_kind g) (gr_label g) (with_lease_note (gr_scope g) (Some text)) (gr_lifetime g) (gr_granted_at g) (gr_state g).
Definition note_lease (note : LeaseNote) (s : State) : State :=
  let known := existsb (has_id (ln_id note)) (credentials s) || existsb (λ g, gr_id g =? ln_id note) (grant_history s) in
  if negb known then s
  else
    let s := set_lease_notes s (<[ln_id note := ln_text note]> (lease_notes s)) in
    match List.find (has_id (ln_id note)) (credentials s) with
    | Some c =>
        let c := match ln_expires_at note with Some ms => with_expiry c (Some ms) | None => c end in
        let s := set_credentials s (alter_first (has_id (ln_id note)) (λ _, c) (credentials s)) in
        match ln_retire note with
        | Some r =>
            if retirable c
            then retire (retire_state r) (set_credentials s (remove_first (has_id (ln_id note)) (credentials s))) c
            else s
        | None => s
        end
    | None =>
        set_grant_history s
          (alter_last (λ g, (gr_id g =? ln_id note) && bool_decide (gr_kind g = GrantCredential)) (note_grant (ln_text note))
             (grant_history s))
    end.

Definition retire_launch (key : Z) (s : State) : State :=
  set_unknown (set_credentials s (List.filter (λ c, negb (bool_decide (cr_launch_key c = Some key))) (credentials s)))
    (unknown_launches s ∖ {[key]}).
Definition mark_launch_unknown (key : Z) (s : State) : State := set_unknown s ({[key]} ∪ unknown_launches s).
Definition credentials_at (now_ms : Z) (s : State) : list Credential * State :=
  let s := sweep_expired_credentials now_ms s in (credentials s, s).

(** The order of a map keyed by two strings. *)
Fixpoint bytes_leb (a b : list byte) : bool :=
  match a, b with
  | [], _ => true
  | _ :: _, [] => false
  | x :: a, y :: b => if code x =? code y then bytes_leb a b else code x <? code y
  end.
Definition key_leb (a b : list byte * list byte) : bool :=
  if bool_decide (a.1 = b.1) then bytes_leb a.2 b.2 else bytes_leb a.1 b.1.
Definition entry_le (x y : (list byte * list byte) * Grant) : Prop := key_leb x.1 y.1 = true.
#[export] Instance entry_le_dec : RelDecision entry_le.
Proof. intros x y. unfold entry_le. apply _. Defined.
Definition remembered_list (s : State) : list ((list byte * list byte) * Grant) := merge_sort entry_le (map_to_list (remembered s)).
Definition kind_rank (k : GrantKind) : Z := match k with GrantApproval => 0 | GrantCredential => 1 end.
Definition grant_le (x y : Grant) : Prop :=
  gr_granted_at x < gr_granted_at y ∨ gr_granted_at x = gr_granted_at y ∧ kind_rank (gr_kind x) ≤ kind_rank (gr_kind y).
#[export] Instance grant_le_dec : RelDecision grant_le.
Proof. intros x y. unfold grant_le. apply _. Defined.
Definition live_grants (s : State) : list Grant :=
  ((λ c, credential_grant c (unknown_launches s) (lease_notes s)) <$> credentials s) ++ (remembered_list s).*2.
Definition grants_at (now_ms : Z) (s : State) : list Grant * State :=
  let s := sweep_expired_credentials now_ms s in (merge_sort grant_le (live_grants s), s).
Definition grant_history_at (now_ms : Z) (s : State) : list Grant * State :=
  let s := (grants_at now_ms s).2 in (grant_history s, s).

(** ** Revoking *)
Inductive RevokeStart : Type := StartCredential (service : list byte) (slot : nat) (leader : bool) | StartApproval.
Definition revoked_grant (g : Grant) : Grant :=
  MkGrant (gr_id g) (gr_kind g) (gr_label g) (gr_scope g) (gr_lifetime g) (gr_granted_at g) Revoked.
Definition begin_revoke_wait (id : Z) (s : State) : option RevokeStart * State :=
  match List.find (has_id id) (credentials s) with
  | Some c =>
      let s := set_credentials s (alter_first (has_id id) (λ c, with_state c Revoking) (credentials s)) in
      match revoke_wait s !! id with
      | Some slot => (Some (StartCredential (cr_service c) slot false), s)
      | None =>
          let slot := length (slots s) in
          (Some (StartCredential (cr_service c) slot true), set_waits s (<[id := slot]> (revoke_wait s)) (slots s ++ [None]))
      end
  | None =>
      match List.find (λ e : (list byte * list byte) * Grant, gr_id e.2 =? id) (remembered_list s) with
      | Some (key, g) =>
          (Some StartApproval, record_grant_history (revoked_grant g) (set_remembered s (delete key (remembered s))))
      | None => (None, s)
      end
  end.
Definition finish_revoke (id : Z) (o : RevokeOutcome) (s : State) : bool * State :=
  match List.find (has_id id) (credentials s) with
  | None => (false, s)
  | Some c =>
      match o with
      | Withdrawn | WithdrawnInFlight _ =>
          (true, retire Revoked (set_credentials s (remove_first (has_id id) (credentials s))) c)
      | RevokeUnconfirmed =>
          (negb (bool_decide (cr_state c = Unconfirmed)),
           set_credentials s (alter_first (has_id id) (λ c, with_state c Unconfirmed) (credentials s)))
      end
  end.
Definition publish_revoke_wait (id : Z) (slot : nat) (o : RevokeOutcome) (s : State) : State :=
  set_waits s (delete id (revoke_wait s)) (<[slot := Some o]> (slots s)).
(** What a joiner reads of its slot; nothing within its bound is an unconfirmed revoke. *)
Definition join_revoke_wait (slot : nat) (s : State) : RevokeOutcome :=
  default RevokeUnconfirmed (default None (slots s !! slot)).

(** ** Questions *)
Inductive AnswerError : Set := NotPending | AlreadyAnswered | ClockRanOut | WhilePaused.
Definition is_held (id : Z) (h : Held) : bool := ap_id (h_approval h) =? id.
Definition register_at (a : Approval) (timeout : option Z) (now : Z) (s : State) : result unit State :=
  if closed s then Err tt
  else Ok (set_held s (held s ++ [MkHeld a None ((λ t, clock_start t now (paused s)) <$> timeout)])).

Definition remember (a : Approval) (at_ms : Z) (s : State) : State :=
  let '(id, s) := mint_grant_id s in
  set_remembered s (<[(ap_tool a, ap_summary a) := session_grant a at_ms id]> (remembered s)).
Definition unclaim (a : Approval) (o : Outcome) (s : State) : State :=
  set_claims s (handoff s) (<[ap_id a := (a, o)]> (unclaimed s)).
Definition with_clock (h : Held) (c : Clock) : Held := MkHeld (h_approval h) (h_answer h) (Some c).
(** One turn of the loop of [wait]: an outcome, or nothing when the thread goes back to sleep. *)
Definition wait_once (id timeout now now_ms : Z) (s : State) : option Outcome * State :=
  match List.find (is_held id) (held s) with
  | None => (Some (default SessionClosed (handoff s !! id)), s)
  | Some h =>
      match h_answer h with
      | Some answer =>
          let s := set_held s (remove_first (is_held id) (held s)) in
          let s := if bool_decide (answer = AllowSession) then remember (h_approval h) now_ms s else s in
          let s := record_history (h_approval h) (Answered answer) now_ms s in
          (Some (Answered answer), unclaim (h_approval h) (Answered answer) s)
      | None =>
          let clock := default (clock_start timeout now (paused s)) (h_clock h) in
          let s := set_held s (alter_first (is_held id) (λ h, with_clock h clock) (held s)) in
          if paused s then (None, s)
          else if clock_remaining clock now =? 0 then
            let s := set_held s (remove_first (is_held id) (held s)) in
            let s := record_history (h_approval h) TimedOut now_ms s in
            (Some TimedOut, unclaim (h_approval h) TimedOut s)
          else (None, s)
      end
  end.
Definition with_answer (h : Held) (d : ApprovalDecision) : Held := MkHeld (h_approval h) (Some d) (h_clock h).
Definition answer (id : Z) (d : ApprovalDecision) (now : Z) (s : State) : result AnswerError State :=
  if paused s then Err WhilePaused
  else match List.find (is_held id) (held s) with
  | None => Err NotPending
  | Some h =>
      if bool_decide (is_Some (h_answer h)) then Err AlreadyAnswered
      else if from_option (λ c, clock_remaining c now =? 0) false (h_clock h) then Err ClockRanOut
      else Ok (set_held s (alter_first (is_held id) (λ h, with_answer h d) (held s)))
  end.
Definition pending_at (now : Z) (s : State) : list Approval :=
  (λ h, shown h now) <$> List.filter (λ h, bool_decide (h_answer h = None)) (held s).
Definition record_le (x y : ApprovalRecord) : Prop :=
  ap_requested_at (ar_approval x) < ap_requested_at (ar_approval y)
  ∨ ap_requested_at (ar_approval x) = ap_requested_at (ar_approval y) ∧ ap_id (ar_approval x) ≤ ap_id (ar_approval y).
#[export] Instance record_le_dec : RelDecision record_le.
Proof. intros x y. unfold record_le. apply _. Defined.
Definition approvals_at (now : Z) (s : State) : list ApprovalRecord :=
  merge_sort record_le (((λ h, MkRecord (shown h now) None None) <$> held s) ++ history s).

Definition held_outcome (h : Held) : Outcome := match h_answer h with Some d => Answered d | None => SessionClosed end.
Definition close_one (now_ms : Z) (s : State) (h : Held) : State :=
  let o := held_outcome h in
  let s := if bool_decide (o = Answered AllowSession) then remember (h_approval h) now_ms s else s in
  let s := record_history (h_approval h) o now_ms s in
  set_claims s (<[ap_id (h_approval h) := o]> (handoff s)) (unclaimed s).
Definition claim_one (s : State) (e : Z * (Approval * Outcome)) : State :=
  set_claims s (<[e.1 := e.2.2]> (handoff s)) (unclaimed s).
Definition close (now_ms : Z) (s : State) : list (Approval * Outcome) * State :=
  let s := set_closed s in
  let drained := held s in
  let s := foldl (close_one now_ms) (set_held s []) drained in
  let settled := btree (unclaimed s) in
  let s := foldl claim_one (set_claims s (handoff s) ∅) settled in
  (((λ h, (h_approval h, held_outcome h)) <$> drained) ++ settled.*2, s).
Definition take_recorded (id : Z) (s : State) : bool * State :=
  match handoff s !! id with
  | Some _ => (true, set_claims s (delete id (handoff s)) (unclaimed s))
  | None => (false, set_claims s (handoff s) (delete id (unclaimed s)))
  end.

(** ** Pausing *)
Definition with_grant_state (g : Grant) (x : RevokeState) : Grant :=
  MkGrant (gr_id g) (gr_kind g) (gr_label g) (gr_scope g) (gr_lifetime g) (gr_granted_at g) x.
Definition resume_expires (p : bool) (now_ms : Z) (c : Credential) : bool :=
  negb p && bool_decide (cr_state c = Suspended) && match cr_expires_at c with Some e => e <=? now_ms | None => false end.
Definition move_state (from to : RevokeState) (c : Credential) : Credential :=
  if bool_decide (cr_state c = from) then with_state c to else c.
Definition move_grant (from to : RevokeState) (g : Grant) : Grant :=
  if bool_decide (gr_state g = from) then with_grant_state g to else g.
Definition set_paused (p : bool) (now now_ms : Z) (s : State) : State :=
  let s := set_pause_flag s p in
  let tick := if p then clock_hold now else clock_run now in
  let s := set_held s ((λ h, MkHeld (h_approval h) (h_answer h) (tick <$> h_clock h)) <$> held s) in
  let '(from, to) := if p then (Active, Suspended) else (Suspended, Active) in
  let expired := List.filter (resume_expires p now_ms) (credentials s) in
  let kept := List.filter (λ c, negb (resume_expires p now_ms c)) (credentials s) in
  let s := set_credentials s (move_state from to <$> kept) in
  let s := foldl (retire Expired) s expired in
  set_remembered s (move_grant from to <$> remembered s).

(** ** Lemmas: lists *)
Section first.
Context {A : Type} (key : A → Z) (id : Z).
Let p (x : A) : bool := key x =? id.
Lemma first_unique l x : NoDup (key <$> l) → x ∈ l → key x = id → List.find p l = Some x.
Proof.
  induction l as [|y l IH]; cbn; [by intros _ ?%elem_of_nil|]. intros [Hy Hl]%NoDup_cons [->|Hx]%elem_of_cons Hk.
  - unfold p. by rewrite Hk, Z.eqb_refl.
  - unfold p at 1. destruct (Z.eqb_spec (key y) id) as [E|]; [|by apply IH]. destruct Hy. rewrite E, <- Hk.
    by apply list_elem_of_fmap_2.
Qed.
Lemma find_key l x : List.find p l = Some x → x ∈ l ∧ key x = id.
Proof. intros [Hx E]%find_Some_elem. unfold p in E. split; [done|lia]. Qed.
Lemma find_no_key l : List.find p l = None → ∀ x, x ∈ l → key x ≠ id.
Proof. intros H x Hx E. pose proof (find_None_elem _ _ H x Hx) as Hp. unfold p in Hp. lia. Qed.
Lemma remove_first_filter l : NoDup (key <$> l) → remove_first p l = List.filter (λ x, negb (p x)) l.
Proof.
  induction l as [|y l IH]; cbn; [done|]. intros [Hy Hl]%NoDup_cons. destruct (p y) eqn:E; cbn; [|by rewrite IH].
  symmetry. apply List.forallb_filter_id, forallb_Forall, Forall_forall. intros x Hx.
  unfold p in *. apply negb_true_iff. apply Z.eqb_neq. intros Ex. destruct Hy. replace (key y) with (key x) by lia. by apply list_elem_of_fmap_2.
Qed.
Lemma alter_first_fmap f l :
  NoDup (key <$> l) → (∀ x, key (f x) = key x) → alter_first p f l = (λ x, if p x then f x else x) <$> l.
Proof.
  intros Hl Hf. induction l as [|y l IH]; cbn; [done|]. apply NoDup_cons in Hl as [Hy Hl].
  destruct (p y) eqn:E; [|by rewrite IH]. f_equal. symmetry. rewrite <- list_fmap_id. apply list_fmap_ext. intros i x Hx.
  destruct (p x) eqn:Ex; [|done]. destruct Hy. unfold p in *. replace (key y) with (key x) by lia.
  apply list_elem_of_fmap_2. by eapply list_elem_of_lookup_2.
Qed.
Lemma elem_of_remove_first l x : NoDup (key <$> l) → x ∈ remove_first p l ↔ x ∈ l ∧ key x ≠ id.
Proof.
  intros Hl. rewrite remove_first_filter by done. rewrite list_elem_of_In, filter_In, <- list_elem_of_In. unfold p.
  rewrite negb_true_iff, Z.eqb_neq. done.
Qed.
Lemma remove_first_sublist l : remove_first p l `sublist_of` l.
Proof. induction l as [|y l IH]; cbn; [done|]. destruct (p y); [by apply sublist_cons|by apply sublist_skip]. Qed.
Lemma remove_first_NoDup l : NoDup (key <$> l) → NoDup (key <$> remove_first p l).
Proof. intros Hl. eapply sublist_NoDup; [exact Hl|]. apply fmap_sublist, remove_first_sublist. Qed.
Lemma alter_first_keys f l : (∀ x, key (f x) = key x) → key <$> alter_first p f l = key <$> l.
Proof. intros Hf. induction l as [|y l IH]; cbn; [done|]. destruct (p y); cbn; by rewrite ?Hf, ?IH. Qed.
End first.
Lemma sublist_filter {A} (f : A → bool) l : List.filter f l `sublist_of` l.
Proof. induction l as [|x l IH]; cbn; [done|]. destruct (f x); by constructor. Qed.

(** ** Lemmas: the clock *)
Lemma clock_later c now now' since :
  ck_running_since c = Some since → since ≤ now ≤ now' →
  clock_remaining c now' = saturating_sub (clock_remaining c now) (now' - now).
Proof. intros E ?. unfold clock_remaining, saturating_sub. rewrite E. lia. Qed.
Lemma clock_hold_remaining c now t : clock_remaining (clock_hold now c) t = if ck_running_since c then clock_remaining c now else clock_remaining c t.
Proof. unfold clock_hold. destruct (ck_running_since c) eqn:E; [done|]. done. Qed.
Lemma clock_run_remaining c now :
  ck_running_since c = None → 0 ≤ ck_left c → clock_remaining (clock_run now c) now = clock_remaining c now.
Proof. intros E ?. unfold clock_run, clock_remaining, saturating_sub. rewrite E. cbn. lia. Qed.

(** ** Lemmas: what leaves the questions alone *)
Definition questions_of (s : State) : list Held * gmap Z Outcome * gmap Z (Approval * Outcome) * bool * bool :=
  (held s, handoff s, unclaimed s, closed s, paused s).
(** The questions stay, and no answer is newly remembered. *)
Definition questions_kept (s s' : State) : Prop :=
  questions_of s' = questions_of s ∧ ∀ k, is_Some (remembered s' !! k) → is_Some (remembered s !! k).
Lemma questions_kept_refl s : questions_kept s s.
Proof. by split. Qed.
Lemma questions_kept_trans s1 s2 s3 : questions_kept s1 s2 → questions_kept s2 s3 → questions_kept s1 s3.
Proof. intros [E1 H1] [E2 H2]. split; [congruence|auto]. Qed.
Lemma retire_kept x s c : questions_kept s (retire x s c).
Proof. by split. Qed.
Lemma retire_all_kept x l s : questions_kept s (foldl (retire x) s l).
Proof.
  revert s. induction l as [|c l IH]; intros s; [apply questions_kept_refl|]. cbn [foldl].
  eapply questions_kept_trans; [apply retire_kept|apply IH].
Qed.
Lemma sweep_kept now_ms s : questions_kept s (sweep_expired_credentials now_ms s).
Proof. unfold sweep_expired_credentials. eapply questions_kept_trans; [|apply retire_all_kept]. by split. Qed.
Lemma record_credential_kept service host permissions key at_ms expires s :
  questions_kept s (record_credential_with_expiry service host permissions key at_ms expires s).2.
Proof. unfold record_credential_with_expiry. by destruct (List.find _ _). Qed.
Lemma note_lease_kept note s : questions_kept s (note_lease note s).
Proof.
  unfold note_lease. destruct (negb _); [apply questions_kept_refl|]. destruct (List.find _ _); [|by split].
  destruct (ln_retire note); [|by split]. destruct (retirable _); by split.
Qed.
Lemma begin_revoke_kept id s : questions_kept s (begin_revoke_wait id s).2.
Proof.
  unfold begin_revoke_wait. destruct (List.find _ _); [cbn; by destruct (revoke_wait s !! id)|].
  destruct (List.find _ _) as [[key g]|]; [|apply questions_kept_refl]. split; [done|]. cbn. intros k [g' [_ Hg]%lookup_delete_Some]. by exists g'.
Qed.
Lemma finish_revoke_kept id o s : questions_kept s (finish_revoke id o s).2.
Proof. unfold finish_revoke. destruct (List.find _ _); [|apply questions_kept_refl]. by destruct o. Qed.

(** ** The invariant of the grants *)
Definition credential_ids (s : State) : list Z := cr_id <$> credentials s.
Definition remembered_ids (s : State) : list Z := (λ e : (list byte * list byte) * Grant, gr_id e.2) <$> map_to_list (remembered s).
Definition retired_ids (s : State) : list Z := gr_id <$> grant_history s.
Definition live_ids (s : State) : list Z := credential_ids s ++ remembered_ids s.
Definition all_ids (s : State) : list Z := live_ids s ++ retired_ids s.
Definition is_terminal (x : RevokeState) : bool := match x with Revoked | Expired => true | _ => false end.

(** Numbers are given out once; what is live is not terminal and what is retired is; nothing is
    suspended in a running session, and no credential is active in a paused one; the histories
    are bounded. *)
Record grants_ok (s : State) : Prop := MkGrantsOk {
  g_once : NoDup (all_ids s);
  g_range id : id ∈ all_ids s → 1 ≤ id ≤ next_grant_id s;
  g_next : 0 ≤ next_grant_id s;
  g_credentials c : c ∈ credentials s → is_terminal (cr_state c) = false ∧
    (paused s = true → cr_state c ≠ Active) ∧ (paused s = false → cr_state c ≠ Suspended);
  g_remembered k g : remembered s !! k = Some g → gr_kind g = GrantApproval ∧
    (gr_state g = Active ∨ gr_state g = Suspended ∧ paused s = true);
  g_retired g : g ∈ grant_history s → is_terminal (gr_state g) = true;
  g_retired_cap : (length (grant_history s) ≤ GRANT_HISTORY_CAP)%nat;
  g_history_cap : (length (history s) ≤ HISTORY_CAP)%nat;
}.

(** *** Lemmas: numbers *)
Lemma submseteq_nodup {A} (l k : list A) : l ⊆+ k → NoDup k → NoDup l.
Proof. intros (k' & E)%submseteq_Permutation Hk. rewrite E in Hk. by apply NoDup_app in Hk as [? _]. Qed.
Lemma push_capped_sub {A} cap (l : list A) x : push_capped cap l x ⊆+ x :: l.
Proof.
  unfold push_capped. rewrite (Permutation_app_comm _ [x]). apply submseteq_skip. destruct (_ <=? _)%nat; [|done].
  destruct l; [done|]. by apply submseteq_cons.
Qed.
Lemma push_capped_length {A} cap (l : list A) x : (0 < cap)%nat → (length l ≤ cap)%nat → (length (push_capped cap l x) ≤ cap)%nat.
Proof. intros. unfold push_capped. rewrite length_app. cbn. destruct (Nat.leb_spec cap (length l)); [destruct l|]; cbn in *; lia. Qed.
Lemma push_capped_elem {A} cap (l : list A) x y : y ∈ push_capped cap l x → y = x ∨ y ∈ l.
Proof. intros Hy. apply elem_of_cons. eapply elem_of_submseteq; [done|apply push_capped_sub]. Qed.
(** What the numbers do in a step: some are dropped, the next ones are given out, and what is
    live was, or is new. *)
Record ids_step (s s' : State) : Prop := MkIdsStep {
  is_minted : Z;
  is_minted_nonneg : 0 ≤ is_minted;
  is_next : next_grant_id s' = next_grant_id s + is_minted;
  is_all : all_ids s' ⊆+ seqZ (next_grant_id s + 1) is_minted ++ all_ids s;
  is_credentials : credential_ids s' ⊆ seqZ (next_grant_id s + 1) is_minted ++ credential_ids s;
  is_answers : remembered_ids s' ⊆ seqZ (next_grant_id s + 1) is_minted ++ remembered_ids s;
}.
Lemma ids_step_same s s' : next_grant_id s' = next_grant_id s → all_ids s' ⊆+ all_ids s →
  credential_ids s' ⊆ credential_ids s → remembered_ids s' ⊆ remembered_ids s → ids_step s s'.
Proof. intros ????. exists 0; cbn; [lia..|done|done|done]. Qed.
Lemma ids_step_mint s s' : next_grant_id s' = next_grant_id s + 1 → all_ids s' ⊆+ (next_grant_id s + 1) :: all_ids s →
  credential_ids s' ⊆ (next_grant_id s + 1) :: credential_ids s → remembered_ids s' ⊆ (next_grant_id s + 1) :: remembered_ids s →
  ids_step s s'.
Proof. intros ????. by exists 1; [lia|..]. Qed.
Lemma ids_step_trans s1 s2 s3 : ids_step s1 s2 → ids_step s2 s3 → ids_step s1 s3.
Proof.
  intros [n Hn Hx Ha Hc Hr] [m Hm Hx' Ha' Hc' Hr']. rewrite Hx in *. replace (next_grant_id s1 + n + 1) with (next_grant_id s1 + 1 + n) in * by lia.
  exists (n + m); [lia|lia|..]; rewrite seqZ_app by lia.
  - etrans; [exact Ha'|]. rewrite (Permutation_app_comm (seqZ _ n) (seqZ _ m)), <- app_assoc. by apply submseteq_skips_l.
  - set_solver.
  - set_solver.
Qed.
Lemma ids_step_ok s s' : ids_step s s' → grants_ok s →
  NoDup (all_ids s') ∧ (∀ id, id ∈ all_ids s' → 1 ≤ id ≤ next_grant_id s') ∧ 0 ≤ next_grant_id s'.
Proof.
  intros [n Hn Hx Ha _ _] []. rewrite Hx. split_and!; [|..|lia].
  - eapply submseteq_nodup; [exact Ha|]. apply NoDup_app. split_and!; [apply NoDup_seqZ| |done]. intros x Hin%elem_of_seqZ Hold%g_range0. lia.
  - intros id Hid. eapply elem_of_submseteq in Hid; [|exact Ha]. apply elem_of_app in Hid as [Hin%elem_of_seqZ|Hin%g_range0]; lia.
Qed.
(** A number that was given out and is no longer live never is again. *)
Lemma ids_step_gone s s' id : ids_step s s' → id ≤ next_grant_id s → id ∉ live_ids s → id ∉ live_ids s'.
Proof.
  intros [n Hn _ _ Hc Hr] Hid Hgone. unfold live_ids in *. intros [Hin%Hc|Hin%Hr]%elem_of_app; apply elem_of_app in Hin as [Hin%elem_of_seqZ|?]; (lia || set_solver).
Qed.
Lemma ids_step_answer s s' id : ids_step s s' → id ≤ next_grant_id s → id ∉ remembered_ids s → id ∉ remembered_ids s'.
Proof. intros [n Hn _ _ _ Hr] Hid Hgone Hin%Hr. apply elem_of_app in Hin as [Hin%elem_of_seqZ|?]; [lia|done]. Qed.
Definition grants_step (s s' : State) : Prop := grants_ok s → grants_ok s' ∧ ids_step s s'.
Lemma grants_step_trans s1 s2 s3 : grants_step s1 s2 → grants_step s2 s3 → grants_step s1 s3.
Proof. intros H1 H2 [H3 ?]%H1. destruct (H2 H3) as [? ?]. split; [done|]. by eapply ids_step_trans. Qed.
(** Nothing that concerns a grant. *)
Definition grants_of (s : State) : list Credential * gmap (list byte * list byte) Grant * Z * bool * list Grant :=
  (credentials s, remembered s, next_grant_id s, paused s, grant_history s).
Lemma grants_step_same s s' : grants_of s' = grants_of s → (length (history s) ≤ HISTORY_CAP → length (history s') ≤ HISTORY_CAP)%nat →
  grants_step s s'.
Proof.
  intros E Hh []. injection E as E1 E2 E3 E4 E5. unfold all_ids, live_ids, credential_ids, remembered_ids, retired_ids in *.
  split; [split|apply ids_step_same]; unfold all_ids, live_ids, credential_ids, remembered_ids, retired_ids; rewrite ?E1, ?E2, ?E3, ?E4, ?E5; auto.
Qed.

(** *** Lemmas: retiring *)
Lemma retire_all_fields x l s :
  let s' := foldl (retire x) s l in
  credentials s' = credentials s ∧ remembered s' = remembered s ∧ next_grant_id s' = next_grant_id s ∧ paused s' = paused s ∧
  history s' = history s ∧ retired_ids s' ⊆+ (cr_id <$> l) ++ retired_ids s ∧
  (∀ g, g ∈ grant_history s' → g ∈ grant_history s ∨ gr_state g = x) ∧
  ((length (grant_history s) ≤ GRANT_HISTORY_CAP)%nat → (length (grant_history s') ≤ GRANT_HISTORY_CAP)%nat).
Proof.
  revert s. induction l as [|c l IH]; intros s; cbn zeta; [split_and!; auto|]. cbn [foldl fmap list_fmap].
  destruct (IH (retire x s c)) as (-> & -> & -> & -> & -> & Hids & Hst & Hcap). split_and!; try done.
  - etrans; [exact Hids|]. cbn [app]. rewrite Permutation_middle. apply submseteq_skips_l. unfold retired_ids, retire, record_grant_history.
    etrans; [apply fmap_submseteq, push_capped_sub|]. done.
  - intros g [Hg|?]%Hst; [|by right]. apply push_capped_elem in Hg as [->|?]; [by right|by left].
  - intros Hl. apply Hcap. apply push_capped_length; [unfold GRANT_HISTORY_CAP; lia|done].
Qed.
Lemma filter_split_perm {A} (f : A → bool) l : List.filter f l ++ List.filter (λ x, negb (f x)) l ≡ₚ l.
Proof.
  induction l as [|x l IH]; [done|]. cbn. destruct (f x); cbn [negb app]; [by rewrite IH|]. rewrite <- Permutation_middle. by rewrite IH.
Qed.
(** Retire credentials that left the list, whatever was done to those that stay. *)
Lemma retire_grants x gone kept s :
  is_terminal x = true → (cr_id <$> gone) ++ (cr_id <$> kept) ⊆+ credential_ids s →
  (∀ c, c ∈ kept → is_terminal (cr_state c) = false ∧ (paused s = true → cr_state c ≠ Active) ∧ (paused s = false → cr_state c ≠ Suspended)) →
  grants_step s (foldl (retire x) (set_credentials s kept) gone).
Proof.
  intros Hx Hids Hkept Hok. destruct (retire_all_fields x gone (set_credentials s kept)) as (E1 & E2 & E3 & E4 & E5 & Hsub & Hst & Hcap).
  assert (ids_step s (foldl (retire x) (set_credentials s kept) gone)) as Hstep.
  { apply ids_step_same; [done|..]; unfold all_ids, live_ids, credential_ids, remembered_ids; rewrite ?E1, ?E2; cbn [credentials set_credentials remembered].
    - etrans; [apply submseteq_skips_l, Hsub|]. change (retired_ids (set_credentials s kept)) with (retired_ids s).
      etrans; [|apply submseteq_skips_r, submseteq_skips_r; exact Hids]. unfold remembered_ids. solve_submseteq.
    - apply elem_of_subseteq. intros id Hid. eapply elem_of_submseteq; [|exact Hids]. apply elem_of_app. by right.
    - done. }
  split; [|done]. destruct (ids_step_ok _ _ Hstep Hok) as (? & ? & ?). destruct Hok.
  split; rewrite ?E1, ?E2, ?E4, ?E5; try done; [|by apply Hcap]. intros g [Hg| ->]%Hst; [by apply g_retired0|done].
Qed.
Lemma filter_keys_sub {A} (key : A → Z) (f : A → bool) l :
  (key <$> List.filter (λ x, negb (f x)) l) ++ (key <$> List.filter f l) ⊆+ key <$> l.
Proof. rewrite Permutation_app_comm, <- fmap_app, filter_split_perm. done. Qed.
Lemma elem_of_filter_bool {A} (f : A → bool) (l : list A) x : x ∈ List.filter f l ↔ x ∈ l ∧ f x = true.
Proof. by rewrite list_elem_of_In, filter_In, <- list_elem_of_In. Qed.
Lemma sweep_grants now_ms s : grants_step s (sweep_expired_credentials now_ms s).
Proof.
  intros Hok. unfold sweep_expired_credentials. apply retire_grants; [done|apply (filter_keys_sub cr_id)| |done].
  intros c [Hc _]%elem_of_filter_bool. by apply Hok.
Qed.
(** Credentials changed in place, or dropped without a trace. *)
Lemma set_credentials_grants l s :
  (cr_id <$> l) ⊆+ credential_ids s →
  (grants_ok s → ∀ c, c ∈ l → is_terminal (cr_state c) = false ∧ (paused s = true → cr_state c ≠ Active) ∧ (paused s = false → cr_state c ≠ Suspended)) →
  grants_step s (set_credentials s l).
Proof. intros ? Hl Hok. by apply (retire_grants Expired [] l s); auto. Qed.
Lemma alter_first_elem {A} (p : A → bool) f l x : x ∈ alter_first p f l → x ∈ l ∨ ∃ y, y ∈ l ∧ p y = true ∧ x = f y.
Proof.
  induction l as [|y l IH]; cbn; [by left|]. destruct (p y) eqn:E; intros [->|Hx]%elem_of_cons; rewrite ?elem_of_cons.
  - right. exists y. by rewrite elem_of_cons; auto.
  - auto.
  - auto.
  - destruct (IH Hx) as [?|(z & ? & ? & ?)]; [auto|]. right. exists z. rewrite elem_of_cons. auto.
Qed.
Lemma alter_first_fkeys {A} (key : A → Z) (p : A → bool) f l : (∀ x, key (f x) = key x) → key <$> alter_first p f l = key <$> l.
Proof. intros Hf. induction l as [|y l IH]; cbn; [done|]. destruct (p y); cbn; by rewrite ?Hf, ?IH. Qed.
Lemma alter_credential_grants p f s :
  (∀ c, cr_id (f c) = cr_id c) → (∀ c, cr_state (f c) = cr_state c ∨ cr_state (f c) ∈ [Revoking; Unconfirmed]) →
  grants_step s (set_credentials s (alter_first p f (credentials s))).
Proof.
  intros Hid Hst. apply set_credentials_grants; [by rewrite alter_first_fkeys|]. intros [] c [Hc|(y & Hy & _ & ->)]%alter_first_elem; [by apply g_credentials0|].
  destruct (g_credentials0 y Hy) as (? & ? & ?). destruct (Hst y) as [->|Hx]; [done|]. rewrite !elem_of_cons, elem_of_nil in Hx. by destruct Hx as [->|[->|[]]].
Qed.
Lemma record_credential_grants service host permissions key at_ms expires s :
  grants_step s (record_credential_with_expiry service host permissions key at_ms expires s).2.
Proof.
  unfold record_credential_with_expiry. destruct (List.find _ _) as [c|]; cbn [snd].
  - apply alter_credential_grants; intros x; unfold add_host; case_bool_decide; auto.
  - cbn. intros Hok. match goal with |- grants_ok ?x ∧ _ => assert (ids_step s x) as Hstep end.
    { apply ids_step_mint; [done|..]; unfold all_ids, live_ids, credential_ids, remembered_ids, retired_ids; cbn; rewrite ?fmap_app; cbn.
      - rewrite <- !app_assoc. cbn. rewrite Permutation_middle. solve_submseteq.
      - set_solver.
      - set_solver. }
    split; [|done]. destruct (ids_step_ok _ _ Hstep Hok) as (? & ? & ?). destruct Hok. split; try done. cbn.
    intros c [Hc| ->%list_elem_of_singleton]%elem_of_app; [by apply g_credentials0|]. cbn. by destruct (paused s).
Qed.
Lemma remove_first_find {A} (p : A → bool) l x : List.find p l = Some x → x :: remove_first p l ≡ₚ l.
Proof. induction l as [|y l IH]; cbn; [done|]. destruct (p y); [by intros [= ->]|]. intros E. etrans; [apply Permutation_swap|]. by rewrite (IH E). Qed.
Lemma remove_first_elem {A} (p : A → bool) l x : x ∈ remove_first p l → x ∈ l.
Proof. induction l as [|y l IH]; cbn; [done|]. destruct (p y); rewrite !elem_of_cons; naive_solver. Qed.
Lemma retire_one_grants x id c s :
  is_terminal x = true → List.find (has_id id) (credentials s) = Some c →
  grants_step s (retire x (set_credentials s (remove_first (has_id id) (credentials s))) c).
Proof.
  intros Hx Hf Hok. apply (retire_grants x [c] (remove_first (has_id id) (credentials s)) s); try done.
  - apply Permutation_submseteq. exact (fmap_Permutation cr_id _ _ (remove_first_find _ _ _ Hf)).
  - intros y Hy%remove_first_elem. by apply Hok.
Qed.
Lemma alter_last_fmap {A B} (p : A → bool) (f : A → A) (g : A → B) l : (∀ x, g (f x) = g x) → g <$> alter_last p f l = g <$> l.
Proof.
  intros Hg. assert (∀ k : list A, rev k = reverse k) as Hr by (intros; apply rev_alt). unfold alter_last. rewrite !Hr, fmap_reverse.
  transitivity (reverse (g <$> reverse l)); [f_equal|by rewrite fmap_reverse, reverse_involutive].
  induction (reverse l) as [|x k IH]; cbn; [done|]. destruct (p x); cbn; by rewrite ?Hg, ?IH.
Qed.
Lemma alter_history_grants p text s : grants_step s (set_grant_history s (alter_last p (note_grant text) (grant_history s))).
Proof.
  intros [].
  assert (retired_ids (set_grant_history s (alter_last p (note_grant text) (grant_history s))) = retired_ids s) as E by by apply alter_last_fmap.
  assert (gr_state <$> alter_last p (note_grant text) (grant_history s) = gr_state <$> grant_history s) as Es by by apply alter_last_fmap.
  assert (length (alter_last p (note_grant text) (grant_history s)) = length (grant_history s)) as El.
  { rewrite <- (length_fmap gr_state (alter_last _ _ _)), Es. apply length_fmap. }
  split; [split|apply ids_step_same; try done]; unfold all_ids; rewrite ?E; try done.
  - intros g Hg. apply (list_elem_of_fmap_2 gr_state) in Hg. cbn in Hg. rewrite Es in Hg. apply list_elem_of_fmap in Hg as (g' & -> & Hg'). by apply g_retired0.
  - cbn. by rewrite El.
Qed.
Lemma find_alter_first {A} (p : A → bool) f l x : List.find p l = Some x → p (f x) = true → List.find p (alter_first p f l) = Some (f x).
Proof. induction l as [|y l IH]; cbn; [done|]. destruct (p y) eqn:E; cbn; [intros [= ->] ->; done|]. rewrite E. auto. Qed.
Lemma note_lease_grants note s : grants_step s (note_lease note s).
Proof.
  unfold note_lease. destruct (negb _); [by apply grants_step_same|]. set (s1 := set_lease_notes s _).
  apply (grants_step_trans _ s1); [by apply grants_step_same|]. clearbody s1. clear s. destruct (List.find _ _) as [c|] eqn:Hf; [|apply alter_history_grants].
  set (c' := match ln_expires_at note with Some ms => with_expiry c (Some ms) | None => c end).
  assert (cr_id c' = ln_id note ∧ cr_state c' = cr_state c ∧ c ∈ credentials s1) as (Hid & Hst & Hc).
  { destruct (find_key cr_id _ _ _ Hf) as [? ?]. unfold c'. by destruct (ln_expires_at note). }
  set (s2 := set_credentials s1 (alter_first (has_id (ln_id note)) (λ _, c') (credentials s1))).
  assert (List.find (has_id (ln_id note)) (credentials s2) = Some c') as Hf2.
  { apply (find_alter_first _ (λ _, c') _ _ Hf). unfold has_id. lia. }
  assert (grants_step s1 s2) as H2.
  { apply set_credentials_grants.
    - apply reflexive_eq. unfold credential_ids. clear Hf2 Hc. revert Hf. induction (credentials s1) as [|y l IH]; cbn; [done|].
      destruct (has_id (ln_id note) y) eqn:E; cbn; [intros _; f_equal; unfold has_id in E; lia|]. intros Hf. f_equal. by apply IH.
    - intros [] x [Hx|(y & _ & _ & ->)]%alter_first_elem; [by apply g_credentials0|]. rewrite Hst. by apply g_credentials0. }
  clearbody s2. destruct (ln_retire note) as [r|]; [|done]. destruct (retirable c'); [|done].
  eapply grants_step_trans; [exact H2|]. apply retire_one_grants; [by destruct r|done].
Qed.
(** *** Lemmas: what is remembered *)
Lemma remembered_ids_insert (k : list byte * list byte) (g : Grant) (m : gmap (list byte * list byte) Grant) :
  (λ e : (list byte * list byte) * Grant, gr_id e.2) <$> map_to_list (<[k := g]> m)
  ⊆+ gr_id g :: ((λ e : (list byte * list byte) * Grant, gr_id e.2) <$> map_to_list m).
Proof.
  rewrite <- insert_delete_eq. rewrite map_to_list_insert by apply lookup_delete_eq. cbn. apply submseteq_skip.
  destruct (m !! k) as [x|] eqn:E; [|by rewrite delete_id]. rewrite <- (map_to_list_delete m k x) by done. by apply submseteq_cons.
Qed.
Lemma elem_remembered_ids s id : id ∈ remembered_ids s ↔ ∃ k g, remembered s !! k = Some g ∧ gr_id g = id.
Proof.
  unfold remembered_ids. rewrite list_elem_of_fmap. split.
  - intros ([k g] & -> & H%elem_of_map_to_list). eauto.
  - intros (k & g & H & <-). exists (k, g). split; [done|]. by apply elem_of_map_to_list.
Qed.
Lemma remember_grants a at_ms s : grants_step s (remember a at_ms s).
Proof.
  intros Hok. assert (ids_step s (remember a at_ms s)) as Hstep.
  { apply ids_step_mint; [done|..]; unfold all_ids, live_ids, credential_ids, remembered_ids, retired_ids; cbn.
    - etrans; [apply submseteq_skips_r, submseteq_skips_l, remembered_ids_insert|]. rewrite <- !app_assoc. cbn. by rewrite <- Permutation_middle.
    - set_solver.
    - apply elem_of_subseteq. intros id Hid. eapply elem_of_submseteq in Hid; [|apply remembered_ids_insert]. set_solver. }
  split; [|done]. destruct (ids_step_ok _ _ Hstep Hok) as (? & ? & ?). destruct Hok. split; try done. cbn.
  intros k g [[_ <-]|[_ ?]]%lookup_insert_Some; [|by eapply g_remembered0]. split; [done|by left].
Qed.
Lemma set_held_grants l s : grants_step s (set_held s l).
Proof. by apply grants_step_same. Qed.
Lemma set_claims_grants h u s : grants_step s (set_claims s h u).
Proof. by apply grants_step_same. Qed.
Lemma record_history_grants a o at_ms s : grants_step s (record_history a o at_ms s).
Proof. apply grants_step_same; [done|]. intros. apply push_capped_length; [unfold HISTORY_CAP; lia|done]. Qed.
Lemma wait_once_grants id timeout now now_ms s : grants_step s (wait_once id timeout now now_ms s).2.
Proof.
  unfold wait_once. destruct (List.find _ _) as [h|]; [|by apply grants_step_same]. destruct (h_answer h) as [d|].
  - cbn [snd]. eapply grants_step_trans; [|apply set_claims_grants]. eapply grants_step_trans; [|apply record_history_grants].
    eapply grants_step_trans; [apply (set_held_grants (remove_first (is_held id) (held s)))|].
    case_bool_decide; [apply remember_grants|by apply grants_step_same].
  - cbn zeta. destruct (paused _); [apply set_held_grants|]. destruct (_ =? _); [|apply set_held_grants]. cbn [snd].
    eapply grants_step_trans; [|apply set_claims_grants]. eapply grants_step_trans; [|apply record_history_grants]. by apply grants_step_same.
Qed.
Lemma foldl_grants {A} (f : State → A → State) l s : (∀ s x, grants_step s (f s x)) → grants_step s (foldl f s l).
Proof. intros Hf. revert s. induction l as [|x l IH]; intros s; [by apply grants_step_same|]. cbn. eapply grants_step_trans; [apply Hf|apply IH]. Qed.
Lemma close_grants now_ms s : grants_step s (close now_ms s).2.
Proof.
  unfold close. cbn [snd]. eapply grants_step_trans; [|apply foldl_grants; intros; apply set_claims_grants].
  eapply grants_step_trans; [|apply set_claims_grants]. eapply grants_step_trans; [by apply (grants_step_same _ (set_held (set_closed s) []))|].
  apply foldl_grants. intros s' h. unfold close_one. eapply grants_step_trans; [|apply set_claims_grants].
  eapply grants_step_trans; [|apply record_history_grants]. case_bool_decide; [apply remember_grants|by apply grants_step_same].
Qed.
Lemma take_recorded_grants id s : grants_step s (take_recorded id s).2.
Proof. unfold take_recorded. destruct (handoff s !! id); by apply grants_step_same. Qed.

(** *** Lemmas: revoking and pausing *)
Lemma revoke_approval_grants k g s :
  remembered s !! k = Some g → grants_step s (record_grant_history (revoked_grant g) (set_remembered s (delete k (remembered s)))).
Proof.
  intros Hk Hok. set (s' := record_grant_history _ _).
  assert (remembered_ids s ≡ₚ gr_id g :: remembered_ids s') as Hp.
  { unfold remembered_ids. cbn. by rewrite <- (map_to_list_delete (remembered s) k g). }
  assert (ids_step s s') as Hstep.
  { apply ids_step_same; [done|..]; unfold all_ids, live_ids; change (credential_ids s') with (credential_ids s).
    - rewrite Hp. etrans; [apply submseteq_skips_l; unfold s', retired_ids, record_grant_history; apply fmap_submseteq, push_capped_sub|]. cbn.
      rewrite <- !app_assoc. cbn. by rewrite (Permutation_middle (remembered_ids s')).
    - done.
    - apply elem_of_subseteq. intros id. rewrite Hp. set_solver. }
  split; [|done]. destruct (ids_step_ok _ _ Hstep Hok) as (? & ? & ?). destruct Hok. split; try done.
  - intros k' g' Hk'. apply (lookup_delete_Some (remembered s)) in Hk' as [_ ?]. by eapply g_remembered0.
  - intros g' [->|?]%push_capped_elem; [done|by apply g_retired0].
  - apply (push_capped_length GRANT_HISTORY_CAP); [unfold GRANT_HISTORY_CAP; lia|done].
Qed.
Lemma begin_revoke_grants id s : grants_step s (begin_revoke_wait id s).2.
Proof.
  unfold begin_revoke_wait. destruct (List.find _ (credentials s)) as [c|].
  - eapply grants_step_trans; [apply (alter_credential_grants (has_id id) (λ c, with_state c Revoking)); [done|]; intros; right; set_solver|].
    cbn [credentials set_credentials revoke_wait slots]. destruct (revoke_wait s !! id); by apply grants_step_same.
  - destruct (List.find _ _) as [[k g]|] eqn:Hf; [|by apply grants_step_same]. cbn [snd]. apply revoke_approval_grants.
    apply find_Some_elem in Hf as [Hf _]. unfold remembered_list in Hf. rewrite merge_sort_Permutation in Hf. by apply elem_of_map_to_list.
Qed.
Lemma finish_revoke_grants id o s : grants_step s (finish_revoke id o s).2.
Proof.
  unfold finish_revoke. destruct (List.find _ _) as [c|] eqn:Hf; [|by apply grants_step_same].
  destruct o; cbn [snd]; [by apply retire_one_grants..|]. apply alter_credential_grants; [done|]. intros. right. set_solver.
Qed.
Lemma retire_launch_grants key s : grants_step s (retire_launch key s).
Proof.
  unfold retire_launch. set (l := List.filter _ _). apply (grants_step_trans _ (set_credentials s l)); [|by apply grants_step_same]. apply set_credentials_grants.
  - apply fmap_submseteq, sublist_submseteq, sublist_filter.
  - intros [] c [Hc _]%elem_of_filter_bool. by apply g_credentials0.
Qed.
Lemma set_paused_grants p now now_ms s : grants_step s (set_paused p now now_ms s).
Proof.
  intros Hok. unfold set_paused.
  set (s1 := set_held (set_pause_flag s p) _). set (from := if p then Active else Suspended). set (to := if p then Suspended else Active).
  replace (if p then (Active, Suspended) else (Suspended, Active)) with (from, to) by by destruct p. cbn zeta iota.
  set (gone := List.filter (resume_expires p now_ms) (credentials s1)).
  set (kept := List.filter (λ c, negb (resume_expires p now_ms c)) (credentials s1)).
  destruct (retire_all_fields Expired gone (set_credentials s1 (move_state from to <$> kept))) as (E1 & E2 & E3 & E4 & E5 & Hsub & Hst & Hcap).
  set (s2 := foldl _ _ _) in *. clearbody s2.
  assert (∀ c, cr_id (move_state from to c) = cr_id c) as Hmid by (intros; unfold move_state; by case_bool_decide).
  assert (∀ g, gr_id (move_grant from to g) = gr_id g) as Hgid by (intros; unfold move_grant; by case_bool_decide).
  assert (cr_id <$> (move_state from to <$> kept) = cr_id <$> kept) as Hk.
  { rewrite <- list_fmap_compose. apply list_fmap_ext. intros i x _. apply Hmid. }
  assert (remembered_ids (set_remembered s2 (move_grant from to <$> remembered s2)) ≡ₚ remembered_ids s) as Hr.
  { unfold remembered_ids. cbn. rewrite map_to_list_fmap, E2, <- list_fmap_compose. apply reflexive_eq, list_fmap_ext. intros i x _. apply Hgid. }
  assert ((cr_id <$> gone) ++ (cr_id <$> kept) ≡ₚ credential_ids s) as Hc.
  { rewrite <- fmap_app. exact (fmap_Permutation cr_id _ _ (filter_split_perm (resume_expires p now_ms) (credentials s))). }
  assert (ids_step s (set_remembered s2 (move_grant from to <$> remembered s2))) as Hstep.
  { apply ids_step_same; [exact E3|..]; [unfold all_ids, live_ids; rewrite Hr; unfold credential_ids at 1|unfold credential_ids at 1|];
      cbn [credentials set_remembered]; rewrite ?E1; cbn [credentials set_credentials]; rewrite ?Hk.
    - etrans; [apply submseteq_skips_l, Hsub|]. rewrite <- Hc. change (retired_ids (set_credentials s1 _)) with (retired_ids s). solve_submseteq.
    - apply elem_of_subseteq. intros id. rewrite <- Hc, elem_of_app. tauto.
    - apply elem_of_subseteq. intros id. by rewrite Hr. }
  split; [|done]. destruct (ids_step_ok _ _ Hstep Hok) as (? & ? & ?). destruct Hok. split; try done; cbn [credentials remembered grant_history history paused set_remembered];
    rewrite ?E1, ?E2, ?E4, ?E5; cbn [credentials remembered grant_history history paused set_credentials]; try done.
  - intros c (x & -> & [Hx _]%elem_of_filter_bool)%list_elem_of_fmap. destruct (g_credentials0 x Hx) as (? & ? & ?). unfold move_state, from, to, s1. cbn.
    destruct p; case_bool_decide; cbn; split_and!; congruence || done.
  - intros k g (x & <- & Hx)%lookup_fmap_Some. destruct (g_remembered0 k x Hx) as [? Hs]. unfold move_grant, from, to, s1. cbn.
    destruct p; case_bool_decide; cbn; (split; [done|]); destruct Hs as [?|[? ?]]; auto; congruence.
  - intros g [Hg| ->]%Hst; [by apply g_retired0|done].
  - by apply Hcap.
Qed.
Lemma State_new_grants : grants_ok State_new.
Proof. split; try done; cbn; try (by intros ? ?%elem_of_nil); [by apply NoDup_nil|unfold GRANT_HISTORY_CAP; lia|unfold HISTORY_CAP; lia]. Qed.

(** *** Lemmas: a revocation *)
Lemma credential_id_facts s id : grants_ok s → id ∈ credential_ids s → id ≤ next_grant_id s ∧ id ∉ remembered_ids s.
Proof.
  intros [] Hid. assert (id ∈ all_ids s) as H by (unfold all_ids, live_ids; set_solver). split; [apply (g_range0 id H)|].
  unfold all_ids, live_ids in g_once0. apply NoDup_app in g_once0 as [(_ & Hd & _)%NoDup_app _]. by apply Hd.
Qed.
Lemma has_id_in s id c : List.find (has_id id) (credentials s) = Some c → id ∈ credential_ids s.
Proof. intros [Hc <-]%(find_key cr_id). by apply list_elem_of_fmap_2. Qed.
Lemma has_id_out s id : List.find (has_id id) (credentials s) = None → id ∉ credential_ids s.
Proof. intros H (c & -> & Hc)%list_elem_of_fmap. by apply (find_no_key cr_id _ _ H c Hc). Qed.
(** What a revocation finds: a live credential, whose proxy must say; an answer, gone at once. *)
Lemma begin_revoke_spec id s : grants_ok s →
  match begin_revoke_wait id s with
  | (Some (StartCredential _ _ _), s') => id ≤ next_grant_id s' ∧ id ∉ remembered_ids s'
  | (Some StartApproval, s') => id ≤ next_grant_id s' ∧ id ∉ live_ids s'
  | (None, s') => s' = s ∧ id ∉ live_ids s
  end.
Proof.
  intros Hok. unfold begin_revoke_wait. destruct (List.find _ (credentials s)) as [c|] eqn:Hc.
  - pose proof (credential_id_facts s id Hok (has_id_in _ _ _ Hc)). cbn. by destruct (revoke_wait s !! id).
  - apply has_id_out in Hc. destruct (List.find _ _) as [[k g]|] eqn:Hf.
    + apply find_Some_elem in Hf as [Hk Hid]. unfold remembered_list in Hk. rewrite merge_sort_Permutation in Hk. apply elem_of_map_to_list in Hk.
      cbn in Hid. assert (gr_id g = id) as <- by lia.
      assert (remembered_ids s ≡ₚ gr_id g :: remembered_ids (set_remembered s (delete k (remembered s)))) as Hp
        by (unfold remembered_ids; cbn; by rewrite <- (map_to_list_delete (remembered s) k g)).
      destruct Hok. unfold all_ids, live_ids in *. apply NoDup_app in g_once0 as [(_ & _ & Hn)%NoDup_app _]. rewrite Hp in Hn. apply NoDup_cons in Hn as [Hn _].
      assert (gr_id g ∈ remembered_ids s) as Hin by (rewrite Hp; left). split; [apply (g_range0 (gr_id g)); set_solver|].
      intros [?|?]%elem_of_app; done.
    + split; [done|]. unfold live_ids. intros [?|(k & g & Hk & Hid)%elem_remembered_ids]%elem_of_app; [done|].
      assert ((k, g) ∈ remembered_list s) as Hin by (unfold remembered_list; rewrite merge_sort_Permutation; by apply elem_of_map_to_list).
      pose proof (find_None_elem _ _ Hf _ Hin) as Hne. cbn in Hne. lia.
Qed.
Lemma finish_revoke_spec id o s : grants_ok s → id ≤ next_grant_id s → id ∉ remembered_ids s →
  (o ≠ RevokeUnconfirmed → id ≤ next_grant_id (finish_revoke id o s).2 ∧ id ∉ live_ids (finish_revoke id o s).2) ∧
  ((finish_revoke id o s).1 = true → id ∈ credential_ids s).
Proof.
  intros [] Hle Hrem. unfold finish_revoke. destruct (List.find _ _) as [c|] eqn:Hc.
  - split; [|intros _; by eapply has_id_in]. unfold all_ids, live_ids in g_once0. apply NoDup_app in g_once0 as [(Hn & _ & _)%NoDup_app _].
    assert (id ∉ cr_id <$> remove_first (has_id id) (credentials s)) as Hout.
    { intros (x & -> & Hx)%list_elem_of_fmap. by apply (elem_of_remove_first cr_id _ _ _ Hn) in Hx as [_ ?]. }
    destruct o; [..|done]; intros _; (split; [done|]); unfold live_ids; intros [?|?]%elem_of_app; done.
  - split; [|done]. intros _. split; [done|]. unfold live_ids. apply has_id_out in Hc. intros [?|?]%elem_of_app; done.
Qed.
(** What is shown has a live number. *)
Lemma grants_at_live now_ms s g : grants_ok s → g ∈ (grants_at now_ms s).1 → gr_id g ∈ live_ids s.
Proof.
  intros Hok. destruct (sweep_grants now_ms s Hok) as [_ [n Hn Hx _ Hc Hr]]. unfold grants_at. cbn [fst]. rewrite merge_sort_Permutation.
  assert (next_grant_id (sweep_expired_credentials now_ms s) = next_grant_id s) as En.
  { unfold sweep_expired_credentials. by destruct (retire_all_fields Expired (List.filter (λ c, negb (still_live now_ms c)) (credentials s)) (set_credentials s (List.filter (still_live now_ms) (credentials s)))) as (_ & _ & E & _). }
  assert (n = 0) as -> by lia. cbn in Hc, Hr. unfold live_grants, live_ids. intros [(c & -> & Hin)%list_elem_of_fmap|Hin]%elem_of_app; apply elem_of_app.
  - left. apply Hc. by apply (list_elem_of_fmap_2 cr_id).
  - right. apply Hr. apply list_elem_of_fmap in Hin as ([k g'] & -> & Hin). unfold remembered_list in Hin. rewrite merge_sort_Permutation in Hin.
    apply elem_of_map_to_list in Hin. apply elem_remembered_ids. eauto.
Qed.
