(* ===== verification/Hold.v ===== *)
(** * Hold: questions and revocations as the session daemon serves them
      ([crates/ward-daemon/src/daemon.rs], around [approvals.rs])

    The daemon serves each connection on a thread and serialises what they do to the log under
    one lock; a thread that holds a question waits with that lock released.  [World] is the
    approvals, the log, and where each thread is; a [step] is what one thread does while it has
    the lock, so a run is any interleaving of them.  Beside the source's state the world keeps
    facts about the past: which question a record answers, the time the session has run, when
    each question was asked and which answers were taken.  An append can fail; the world knows
    that one did.  The theorems say that a question is answered in the log exactly once, whoever
    gets there first, that an agent is allowed only what its user allowed in time, and that a
    revocation is recorded once. *)

From stdpp Require Import base numbers option gmap sorting strings list.
From S2P Require Import Prelude Bytes Ids Approvals.
Local Open Scope Z_scope.

(** ** Records *)
Inductive CapabilityKind : Set := FileWrite | FileRead | Network | Exec | OtherKind.
Definition capability_kind (tool : list byte) : CapabilityKind :=
  if bool_decide (tool ∈ bytes <$> ["Write"; "Edit"; "MultiEdit"; "NotebookEdit"]%string) then FileWrite
  else if bool_decide (tool ∈ bytes <$> ["Read"; "Grep"; "Glob"; "LS"]%string) then FileRead
  else if bool_decide (tool ∈ bytes <$> ["WebFetch"; "WebSearch"]%string) then Network
  else if bool_decide (tool = bytes "Bash") then Exec
  else OtherKind.
Inductive DecisionSource : Set := ByUser | ByTimeout | BySessionEnded.
Inductive GrantScope : Set := ScopeOnce | ScopeSession.
Inductive LogEvent : Type :=
| CapabilityRequested (kind : CapabilityKind) (target reason : list byte)
| CapabilityDecided (kind : CapabilityKind) (target : list byte) (decision : HookDecision) (by_ : DecisionSource)
    (grant : option GrantScope)
| CredentialRevoked (service : list byte)
| OtherEvent.

Section served.
(** [ShortText::new], which bounds and sanitises what is shown. *)
Context (short_text : list byte → list byte).

Definition target_text (tool summary : list byte) : list byte := short_text (tool ++ bytes " " ++ summary).
Definition requested_event (tool summary reason : list byte) : LogEvent :=
  CapabilityRequested (capability_kind tool) (target_text tool summary) (short_text reason).
Definition decided_event (tool summary : list byte) (o : Outcome) : LogEvent :=
  let '(decision, by_, grant) :=
    match o with
    | Answered Allow => (HookAllow, ByUser, Some ScopeOnce)
    | Answered AllowSession | Remembered => (HookAllow, ByUser, Some ScopeSession)
    | Answered Deny => (HookDeny, ByUser, None)
    | TimedOut => (HookDeny, ByTimeout, None)
    | SessionClosed => (HookDeny, BySessionEnded, None)
    end in
  CapabilityDecided (capability_kind tool) (target_text tool summary) decision by_ grant.

(** ** The world *)
(** Where the thread of a question is: waiting for the answer, with it in hand, or done. *)
Inductive Thread : Type :=
| Waiting (id : Z) (tool summary : list byte) (timeout : Z)
| Collected (id : Z) (tool summary : list byte) (o : Outcome)
| Finished (id : Z) (tool summary : list byte) (o : Outcome).
Record Question := MkQuestion { q_tool : list byte; q_summary : list byte; q_timeout : Z; q_asked : Z }.
(** The question a record settles, or the grant whose revocation it records. *)
Inductive About : Set := NoOne | Settles (id : Z) | Revokes (id : Z).
#[export] Instance About_eq_dec : EqDecision About.
Proof. solve_decision. Defined.
(** Where the thread of a revocation is. *)
Inductive Revoker : Type :=
| RevokeWaiting (id : Z) (service : list byte) (slot : nat) (leader : bool)
| RevokeDecided (id : Z) (service : list byte) (slot : option nat) (o : RevokeOutcome)
| RevokeFinished (id : Z) (o : RevokeOutcome)
(** withdrawn, with a service name that cannot be recorded: the connection is told an error *)
| RevokeErrored (id : Z).
Record World := MkWorld {
  w_state : State;
  (** the log: each record, and what it is about *)
  w_log : list (LogEvent * About);
  w_sealed : bool;
  w_threads : gmap Z Thread;
  w_revokers : gmap Z Revoker;
  w_now : Z;
  (** facts: an append failed, the time the session ran, the questions held, the answers taken *)
  w_lost : bool;
  w_ran : Z;
  w_questions : gmap Z Question;
  w_answers : gmap Z (ApprovalDecision * Z);
}.
Definition World_new : World := MkWorld State_new [] false ∅ ∅ 0 false 0 ∅ ∅.

Definition on_state (f : State → State) (w : World) : World :=
  MkWorld (f (w_state w)) (w_log w) (w_sealed w) (w_threads w) (w_revokers w) (w_now w) (w_lost w) (w_ran w) (w_questions w) (w_answers w).
Definition set_thread (conn : Z) (t : Thread) (w : World) : World :=
  MkWorld (w_state w) (w_log w) (w_sealed w) (<[conn := t]> (w_threads w)) (w_revokers w) (w_now w) (w_lost w) (w_ran w) (w_questions w) (w_answers w).
Definition note_question (id : Z) (q : Question) (w : World) : World :=
  MkWorld (w_state w) (w_log w) (w_sealed w) (w_threads w) (w_revokers w) (w_now w) (w_lost w) (w_ran w) (<[id := q]> (w_questions w)) (w_answers w).
Definition note_answer (id : Z) (d : ApprovalDecision) (w : World) : World :=
  MkWorld (w_state w) (w_log w) (w_sealed w) (w_threads w) (w_revokers w) (w_now w) (w_lost w) (w_ran w) (w_questions w)
    (<[id := (d, w_ran w)]> (w_answers w)).
(** Time passes; it counts while the session runs. *)
Definition advance (now : Z) (w : World) : World :=
  MkWorld (w_state w) (w_log w) (w_sealed w) (w_threads w) (w_revokers w) now (w_lost w)
    (if paused (w_state w) then w_ran w else w_ran w + (now - w_now w)) (w_questions w) (w_answers w).

(** An append: refused once the log is sealed, and it may fail ([ok]); its number is the seq. *)
Definition append (ok : bool) (e : LogEvent) (about : About) (w : World) : option Z * World :=
  if w_sealed w then (None, w)
  else if ok then
    (Some (Z.of_nat (length (w_log w))),
     MkWorld (w_state w) (w_log w ++ [(e, about)]) (w_sealed w) (w_threads w) (w_revokers w) (w_now w) (w_lost w) (w_ran w)
       (w_questions w) (w_answers w))
  else (None, MkWorld (w_state w) (w_log w) (w_sealed w) (w_threads w) (w_revokers w) (w_now w) true (w_ran w) (w_questions w) (w_answers w)).

(** ** What the threads do *)
(** The first part of [hold]: the question is recorded and held, or answered by what is
    remembered.  [authority] is what the daemon derived of the manifest and its credentials. *)
Definition hold_begin (conn : Z) (tool summary reason : list byte) (timeout : Z)
    (authority : list Credential → Authority) (ok : bool) (now_ms : Z) (w : World) : World :=
  match append ok (requested_event tool summary reason) NoOne w with
  | (None, w) => w
  | (Some id, w) =>
      if is_remembered tool summary (w_state w) then set_thread conn (Collected id tool summary Remembered) w
      else
        let '(creds, s) := credentials_at now_ms (w_state w) in
        let w := on_state (λ _, s) w in
        match register_at (Approval_new id tool summary (authority creds) now_ms) (Some timeout) (w_now w) s with
        | Err _ => w
        | Ok s => note_question id (MkQuestion tool summary timeout (w_ran w))
                    (set_thread conn (Waiting id tool summary timeout) (on_state (λ _, s) w))
        end
  end.
(** One turn of its wait. *)
Definition hold_wait (conn now_ms : Z) (w : World) : World :=
  match w_threads w !! conn with
  | Some (Waiting id tool summary timeout) =>
      let '(o, s) := wait_once id timeout (w_now w) now_ms (w_state w) in
      let w := on_state (λ _, s) w in
      match o with Some o => set_thread conn (Collected id tool summary o) w | None => w end
  | _ => w
  end.
(** The last part: under the lock, the record is appended unless a close did. *)
Definition hold_end (conn : Z) (ok : bool) (w : World) : World :=
  match w_threads w !! conn with
  | Some (Collected id tool summary o) =>
      let '(recorded, s) := take_recorded id (w_state w) in
      let w := on_state (λ _, s) w in
      let w := if recorded then w else (append ok (decided_event tool summary o) (Settles id) w).2 in
      set_thread conn (Finished id tool summary o) w
  | _ => w
  end.
Definition answer_question (id : Z) (d : ApprovalDecision) (w : World) : World :=
  match answer id d (w_now w) (w_state w) with
  | Ok s => note_answer id d (on_state (λ _, s) w)
  | Err _ => w
  end.
Definition close_append (ok : Z → bool) (w : World) (e : Approval * Outcome) : World :=
  (append (ok (ap_id e.1)) (decided_event (ap_tool e.1) (ap_summary e.1) e.2) (Settles (ap_id e.1)) w).2.
Definition close_pending_approvals (ok : Z → bool) (now_ms : Z) (w : World) : World :=
  let '(released, s) := close now_ms (w_state w) in
  foldl (close_append ok) (on_state (λ _, s) w) released.
(** A stop or a seal: the open questions are settled first; the log itself may fail to seal. *)
Definition seal (ok : Z → bool) (sealed : bool) (now_ms : Z) (w : World) : World :=
  let w := close_pending_approvals ok now_ms w in
  MkWorld (w_state w) (w_log w) (w_sealed w || sealed) (w_threads w) (w_revokers w) (w_now w) (w_lost w) (w_ran w) (w_questions w) (w_answers w).

(** *** Revocations *)
Definition set_revoker (conn : Z) (r : Revoker) (w : World) : World :=
  MkWorld (w_state w) (w_log w) (w_sealed w) (w_threads w) (<[conn := r]> (w_revokers w)) (w_now w) (w_lost w) (w_ran w)
    (w_questions w) (w_answers w).
Definition revoke_begin (conn id : Z) (w : World) : World :=
  let '(start, s) := begin_revoke_wait id (w_state w) in
  let w := on_state (λ _, s) w in
  match start with
  | None => w
  | Some StartApproval => set_revoker conn (RevokeFinished id Withdrawn) w
  | Some (StartCredential service slot leader) => set_revoker conn (RevokeWaiting id service slot leader) w
  end.
(** The leader learns what the proxy acknowledged; a joiner reads the slot. *)
Definition revoke_wait_ends (conn : Z) (ack : RevokeOutcome) (w : World) : World :=
  match w_revokers w !! conn with
  | Some (RevokeWaiting id service slot true) => set_revoker conn (RevokeDecided id service (Some slot) ack) w
  | Some (RevokeWaiting id service slot false) =>
      set_revoker conn (RevokeDecided id service None (join_revoke_wait slot (w_state w))) w
  | _ => w
  end.
Definition is_unconfirmed (o : RevokeOutcome) : bool := match o with RevokeUnconfirmed => true | _ => false end.
Definition revoke_end (conn : Z) (ok : bool) (w : World) : World :=
  match w_revokers w !! conn with
  | Some (RevokeDecided id service slot o) =>
      let s := match slot with Some slot => publish_revoke_wait id slot o (w_state w) | None => w_state w end in
      let '(performed, s) := finish_revoke id o s in
      let w := on_state (λ _, s) w in
      if performed && negb (is_unconfirmed o) then
        match ServiceId_new service with
        | Ok service => set_revoker conn (RevokeFinished id o) (append ok (CredentialRevoked service) (Revokes id) w).2
        | Err _ => set_revoker conn (RevokeErrored id) w
        end
      else set_revoker conn (RevokeFinished id o) w
  | _ => w
  end.

(** *** Steps *)
Inductive act : World → World → Prop :=
| act_hold_begin conn tool summary reason timeout authority ok now_ms w :
    w_threads w !! conn = None → 0 ≤ timeout →
    act w (hold_begin conn tool summary reason timeout authority ok now_ms w)
| act_hold_wait conn now_ms w : act w (hold_wait conn now_ms w)
| act_hold_end conn ok w : act w (hold_end conn ok w)
| act_answer id d w : act w (answer_question id d w)
| act_paused p now_ms w : act w (on_state (set_paused p (w_now w) now_ms) w)
| act_seal ok sealed now_ms w : act w (seal ok sealed now_ms w)
| act_append ok e w : act w (append ok e NoOne w).2
| act_credential service host permissions key at_ms expires w :
    act w (on_state (λ s, (record_credential_with_expiry service host permissions key at_ms expires s).2) w)
| act_lease note w : act w (on_state (note_lease note) w)
| act_retire key w : act w (on_state (retire_launch key) w)
| act_unknown key w : act w (on_state (mark_launch_unknown key) w)
| act_grants now_ms w : act w (on_state (λ s, (grants_at now_ms s).2) w)
| act_credentials now_ms w : act w (on_state (λ s, (credentials_at now_ms s).2) w)
| act_revoke_begin conn id w : w_revokers w !! conn = None → act w (revoke_begin conn id w)
| act_revoke_wait conn ack w : act w (revoke_wait_ends conn ack w)
| act_revoke_end conn ok w : act w (revoke_end conn ok w).
(** Time passes, and a thread acts. *)
Inductive step (w : World) : World → Prop :=
| step_at now w' : w_now w ≤ now → act (advance now w) w' → step w w'.
Definition reachable (w : World) : Prop := rtc step World_new w.

(** ** The invariant *)
Definition held_id (h : Held) : Z := ap_id (h_approval h).
Definition thread_id (t : Thread) : Z :=
  match t with Waiting id _ _ _ | Collected id _ _ _ | Finished id _ _ _ => id end.
(** The records that settle a question. *)
Definition decided (w : World) (id : Z) : list LogEvent :=
  omap (λ e : LogEvent * About, if bool_decide (e.2 = Settles id) then Some e.1 else None) (w_log w).
Definition settled (w : World) (id : Z) (q : Question) (o : Outcome) : Prop :=
  decided w id = [decided_event (q_tool q) (q_summary q) o] ∨ w_lost w = true ∧ decided w id = [].
(** What an outcome says of the user: the answer was given, and in time; or there was none. *)
Definition outcome_ok (w : World) (id : Z) (q : Question) (o : Outcome) : Prop :=
  match o with
  | Answered d => ∃ r, w_answers w !! id = Some (d, r)
  | TimedOut => w_answers w !! id = None ∧ q_timeout q ≤ w_ran w - q_asked q
  | SessionClosed => w_answers w !! id = None
  | Remembered => False
  end.
(** An earlier answer for the session covers the tool on the target. *)
Definition allowed_before (w : World) (tool summary : list byte) : Prop :=
  ∃ id q r, w_questions w !! id = Some q ∧ q_tool q = tool ∧ q_summary q = summary ∧ w_answers w !! id = Some (AllowSession, r).
Definition clock_ok (w : World) (q : Question) (c : Clock) : Prop :=
  ck_timeout c = q_timeout q ∧ 0 ≤ ck_left c ∧
  match ck_running_since c with Some since => paused (w_state w) = false ∧ since ≤ w_now w | None => paused (w_state w) = true end ∧
  clock_remaining c (w_now w) = saturating_sub (q_timeout q) (w_ran w - q_asked q).
Definition same_question (a : Approval) (q : Question) : Prop := ap_tool a = q_tool q ∧ ap_summary a = q_summary q.
Definition held_ok (w : World) (h : Held) : Prop :=
  ∃ q c, w_questions w !! held_id h = Some q ∧ same_question (h_approval h) q ∧ h_clock h = Some c ∧ clock_ok w q c ∧
    h_answer h = fst <$> w_answers w !! held_id h.
(** Question [id] is neither held nor waiting to be recorded. *)
Definition free (w : World) (id : Z) : Prop :=
  (∀ h, h ∈ held (w_state w) → held_id h ≠ id) ∧ unclaimed (w_state w) !! id = None.
Definition thread_ok (w : World) (t : Thread) : Prop :=
  match t with
  | Waiting id tool summary timeout =>
      ∃ q, w_questions w !! id = Some q ∧ q_tool q = tool ∧ q_summary q = summary ∧ q_timeout q = timeout ∧
        ((∃ h, h ∈ held (w_state w) ∧ held_id h = id) ∨ is_Some (handoff (w_state w) !! id))
  | Collected id tool summary o =>
      o = Remembered ∧ w_questions w !! id = None ∧ allowed_before w tool summary ∨
      ∃ q, w_questions w !! id = Some q ∧ q_tool q = tool ∧ q_summary q = summary ∧ outcome_ok w id q o ∧
        ((∃ a, unclaimed (w_state w) !! id = Some (a, o)) ∨ handoff (w_state w) !! id = Some o)
  | Finished id tool summary o =>
      o = Remembered ∧ w_questions w !! id = None ∧ allowed_before w tool summary ∨
      ∃ q, w_questions w !! id = Some q ∧ q_tool q = tool ∧ q_summary q = summary ∧ outcome_ok w id q o ∧ settled w id q o ∧ free w id
  end.
Record inv (w : World) : Prop := MkInv {
  i_nodup : NoDup (held_id <$> held (w_state w));
  i_held h : h ∈ held (w_state w) → held_ok w h ∧ handoff (w_state w) !! held_id h = None ∧
    unclaimed (w_state w) !! held_id h = None ∧ decided w (held_id h) = [];
  i_unclaimed id a o : unclaimed (w_state w) !! id = Some (a, o) →
    ap_id a = id ∧ handoff (w_state w) !! id = None ∧ decided w id = [] ∧
    ∃ q, w_questions w !! id = Some q ∧ same_question a q ∧ outcome_ok w id q o;
  i_handoff id o : handoff (w_state w) !! id = Some o →
    ∃ q, w_questions w !! id = Some q ∧ outcome_ok w id q o ∧ settled w id q o;
  i_threads conn t : w_threads w !! conn = Some t → thread_ok w t ∧ 0 ≤ thread_id t < Z.of_nat (length (w_log w));
  i_thread_once c1 c2 t1 t2 : w_threads w !! c1 = Some t1 → w_threads w !! c2 = Some t2 → thread_id t1 = thread_id t2 → c1 = c2;
  i_questions id q : w_questions w !! id = Some q →
    0 ≤ id < Z.of_nat (length (w_log w)) ∧ q_asked q ≤ w_ran w ∧ 0 ≤ q_timeout q ∧
    ((∃ h, h ∈ held (w_state w) ∧ held_id h = id) ∨ is_Some (unclaimed (w_state w) !! id) ∨ ∃ o, settled w id q o);
  i_closed : closed (w_state w) = true → held (w_state w) = [] ∧ unclaimed (w_state w) = ∅;
  i_sealed : w_sealed w = true → closed (w_state w) = true;
  i_answers id d r : w_answers w !! id = Some (d, r) → ∃ q, w_questions w !! id = Some q ∧ r - q_asked q < q_timeout q;
  i_remembered k : is_Some (remembered (w_state w) !! k) → allowed_before w k.1 k.2;
  i_log e id : (e, Settles id) ∈ w_log w → 0 ≤ id < Z.of_nat (length (w_log w));
}.

Lemma inv_new : inv World_new.
Proof.
  split; try done; cbn.
  - by apply NoDup_nil.
  - by intros h ?%elem_of_nil.
  - intros k [x Hx]. by rewrite lookup_empty in Hx.
  - by intros e id ?%elem_of_nil.
Qed.

(** *** Lemmas: time *)
Lemma advance_inv now w : w_now w ≤ now → inv w → inv (advance now w).
Proof.
  intros Hnow []. assert (w_ran w ≤ w_ran (advance now w)) as Hran by (cbn; destruct (paused _); lia).
  assert (∀ id q o, outcome_ok w id q o → outcome_ok (advance now w) id q o) as Ho.
  { intros id q [d| | |]; [done|done| |done]. intros [? ?]. split; [done|]. cbn [w_ran advance] in *. lia. }
  split; try done.
  - intros h Hh. destruct (i_held0 h Hh) as ((q & c & Hq & Hs & Hc & (Ht & Hl & Hrun & Hrem) & Ha) & Hrest). split; [|done].
    exists q, c. split_and!; try done. assert (q_asked q ≤ w_ran w) by by eapply i_questions0. unfold clock_ok. cbn. split_and!; [done..| |].
    + destruct (ck_running_since c); [|done]. destruct Hrun. split; [done|]. lia.
    + destruct (ck_running_since c) as [since|] eqn:Es.
      * destruct Hrun as [Hp Hsn]. rewrite (clock_later c (w_now w) now since) by (done || lia). rewrite Hrem. cbn. rewrite Hp.
        unfold saturating_sub. lia.
      * rewrite Hrun. revert Hrem. unfold clock_remaining. by rewrite Es.
  - intros id a o Hu. destruct (i_unclaimed0 id a o Hu) as (? & ? & ? & q & ? & ? & ?). split_and!; try done. eauto.
  - intros id o Hh. destruct (i_handoff0 id o Hh) as (q & ? & ? & ?). eauto.
  - intros conn t Ht. destruct (i_threads0 conn t Ht) as [Hok Hlt]. split; [|done]. destruct t; [done|..].
    + destruct Hok as [?|(q & ? & ? & ? & ? & ?)]; [by left|]. right. exists q. auto 10.
    + destruct Hok as [?|(q & ? & ? & ? & ? & ? & ?)]; [by left|]. right. exists q. auto 10.
  - intros id q Hq. destruct (i_questions0 id q Hq) as (? & ? & ? & ?). split; [done|]. split; [|done]. cbn [w_ran advance] in *. lia.
Qed.
(** *** Lemmas: what concerns no question *)
Lemma kept_inv f w : questions_kept (w_state w) (f (w_state w)) → inv w → inv (on_state f w).
Proof.
  intros [E Hrem] []. injection E as Eh Eho Eu Ec Ep.
  assert (∀ q c, clock_ok w q c → clock_ok (on_state f w) q c) as Hclock.
  { intros q c. unfold clock_ok. cbn. by rewrite Ep. }
  split; cbn; rewrite ?Eh, ?Eho, ?Eu, ?Ec; try done.
  - intros h Hh. destruct (i_held0 h Hh) as ((q & c & ? & ? & ? & ? & ?) & ?). split; [|done]. exists q, c. auto 10.
  - intros conn t Ht. destruct (i_threads0 conn t Ht) as [Hok Hlt]. split; [|done].
    destruct t; unfold thread_ok, free in *; cbn in *; rewrite ?Eh, ?Eho, ?Eu; done.
  - intros k Hk. by apply i_remembered0, Hrem.
Qed.
Lemma decided_app w id l : omap (λ e : LogEvent * About, if bool_decide (e.2 = Settles id) then Some e.1 else None) (w_log w ++ l)
  = decided w id ++ omap (λ e : LogEvent * About, if bool_decide (e.2 = Settles id) then Some e.1 else None) l.
Proof. unfold decided. by rewrite omap_app. Qed.
(** A record about [id] alone, or about no question: the others are as they were. *)
Lemma append_decided ok e about w id : about ≠ Settles id → decided (append ok e about w).2 id = decided w id.
Proof.
  intros Hne. unfold append. destruct (w_sealed w); [done|]. destruct ok; [|done]. cbn. unfold decided at 1. cbn.
  rewrite decided_app. cbn. rewrite bool_decide_false by done. apply app_nil_r.
Qed.
Lemma append_lost ok e about w : w_lost w = true → w_lost (append ok e about w).2 = true.
Proof. unfold append. destruct (w_sealed w); [done|]. by destruct ok. Qed.
Lemma append_fields ok e about w :
  let w' := (append ok e about w).2 in
  w_state w' = w_state w ∧ w_sealed w' = w_sealed w ∧ w_threads w' = w_threads w ∧ w_now w' = w_now w ∧ w_ran w' = w_ran w ∧
  w_questions w' = w_questions w ∧ w_answers w' = w_answers w ∧ (length (w_log w) ≤ length (w_log w'))%nat ∧
  ∀ x, x ∈ w_log w' → x ∈ w_log w ∨ x = (e, about).
Proof.
  unfold append. destruct (w_sealed w) eqn:E; [cbn; split_and!; auto|]. destruct ok; cbn; rewrite ?E, ?length_app; split_and!; try done; try lia.
  - intros x. rewrite elem_of_app, list_elem_of_singleton. done.
  - auto.
Qed.

(** *** Lemmas: threads *)
(** Facts of the past stay. *)
Record later (w w' : World) : Prop := MkLater {
  l_questions : w_questions w ⊆ w_questions w';
  l_answers : w_answers w ⊆ w_answers w';
}.
(** Nothing that the thread of question [id] relies on is lost. *)
Record keeps (w w' : World) (id : Z) : Prop := MkKeeps {
  k_none : w_questions w !! id = None → w_questions w' !! id = None;
  k_outcome q o : w_questions w !! id = Some q →
    (∀ h, h ∈ held (w_state w) → held_id h ≠ id) → outcome_ok w id q o → outcome_ok w' id q o;
  k_held : (∃ h, h ∈ held (w_state w) ∧ held_id h = id) → (∃ h, h ∈ held (w_state w') ∧ held_id h = id) ∨ is_Some (handoff (w_state w') !! id);
  k_free : free w id → free w' id;
  k_handoff o : handoff (w_state w) !! id = Some o → handoff (w_state w') !! id = Some o;
  k_unclaimed a o : unclaimed (w_state w) !! id = Some (a, o) →
    (∃ a', unclaimed (w_state w') !! id = Some (a', o)) ∨ handoff (w_state w') !! id = Some o;
  k_settled q o : w_questions w !! id = Some q → free w id → settled w id q o → settled w' id q o;
}.
Lemma allowed_before_later w w' tool summary : later w w' → allowed_before w tool summary → allowed_before w' tool summary.
Proof. intros [Hq Ha] (id & q & r & ? & ? & ? & ?). exists id, q, r. split_and!; try done; by eapply lookup_weaken. Qed.
Lemma in_hand_not_held w id : inv w → is_Some (unclaimed (w_state w) !! id) ∨ is_Some (handoff (w_state w) !! id) →
  ∀ h, h ∈ held (w_state w) → held_id h ≠ id.
Proof. intros [] Hu h Hh <-. destruct (i_held0 h Hh) as (_ & E1 & E2 & _). destruct Hu as [[? E]|[? E]]; congruence. Qed.
Lemma thread_ok_keeps w w' t : inv w → later w w' → keeps w w' (thread_id t) → thread_ok w t → thread_ok w' t.
Proof.
  intros Hinv Hl Hk Ht. pose proof Hl as [Hq _]. pose proof Hk as []. destruct t as [id tool summary timeout|id tool summary o|id tool summary o]; cbn in *.
  - destruct Ht as (q & E & ? & ? & ? & Hp). exists q. split_and!; try done; [by eapply lookup_weaken|].
    destruct Hp as [Hp|[o Ho]]; [by apply k_held0|]. right. exists o. by apply k_handoff0.
  - destruct Ht as [(? & ? & ?)|(q & E & ? & ? & Ho & Hp)].
    { left. split_and!; [done|by apply k_none0|by eapply allowed_before_later]. }
    right. exists q. split_and!; try done; [by eapply lookup_weaken| |].
    + apply k_outcome0; [done| |done]. apply in_hand_not_held; [done|]. destruct Hp as [[a Hp]| ->]; [left|right]; by eexists.
    + destruct Hp as [[a Hp]|Hp]; [by eapply k_unclaimed0|right; by apply k_handoff0].
  - destruct Ht as [(? & ? & ?)|(q & E & ? & ? & Ho & Hs & Hn)].
    { left. split_and!; [done|by apply k_none0|by eapply allowed_before_later]. }
    right. exists q. split_and!; try done; [by eapply lookup_weaken|apply k_outcome0; [done|by apply Hn|done]|by apply k_settled0|by apply k_free0].
Qed.
Lemma outcome_ok_mono w w' id q o :
  w_answers w' !! id = w_answers w !! id → w_ran w ≤ w_ran w' → outcome_ok w id q o → outcome_ok w' id q o.
Proof. intros E Hr. destruct o; cbn; rewrite ?E; try done. intros [? ?]. split; [done|lia]. Qed.

(** *** Lemmas: records *)
Lemma append_inv ok e about w :
  (∀ id, about = Settles id → w_questions w !! id = None ∧ 0 ≤ id < Z.of_nat (length (w_log w))) →
  inv w → inv (append ok e about w).2.
Proof.
  intros Hab Hinv. pose proof (append_fields ok e about w) as (Es & Ese & Et & En & Er & Eq & Ea & Hlen & Hin). cbn zeta in *.
  assert (∀ id, is_Some (w_questions w !! id) → decided (append ok e about w).2 id = decided w id) as Hd.
  { intros id [q Hq]. apply append_decided. intros ->. by destruct (Hab id eq_refl) as [? _]; congruence. }
  assert (∀ id q o, w_questions w !! id = Some q → settled w id q o → settled (append ok e about w).2 id q o) as Hs.
  { intros id q o Hq [Hset|[Hl Hset]]; [left|right]; [by rewrite Hd by by eexists|]. split; [by apply append_lost|by rewrite Hd by by eexists]. }
  assert (∀ id q o, outcome_ok w id q o → outcome_ok (append ok e about w).2 id q o) as Ho.
  { intros id q o. apply outcome_ok_mono; [by rewrite Ea|lia]. }
  pose proof Hinv as []. split; rewrite ?Es, ?Ese, ?Et, ?Eq, ?Ea; try done.
  - intros h Hh. destruct (i_held0 h Hh) as ((q & c & Hq & ? & ? & Hc & ?) & ? & ? & ?). split_and!; try done; [|by rewrite Hd by by eexists].
    assert (clock_ok (append ok e about w).2 q c) by (unfold clock_ok in *; by rewrite Es, En, Er).
    exists q, c. rewrite Eq, Ea. by split_and!.
  - intros id a o Hu. destruct (i_unclaimed0 id a o Hu) as (? & ? & ? & q & ? & ? & ?). split; [done|]. split; [done|]. split; [by rewrite Hd by by eexists|]. exists q. auto.
  - intros id o Hh. destruct (i_handoff0 id o Hh) as (q & ? & ? & ?). exists q. auto.
  - intros conn t Ht. destruct (i_threads0 conn t Ht) as [Hok Hlt]. split; [|lia]. eapply thread_ok_keeps; [done| | |done].
    + split; by rewrite ?Eq, ?Ea.
    + split; unfold free; rewrite ?Es, ?Eq; try done; [by intros; apply Ho|by left|by intros a o ->; left; eexists|by intros; apply Hs].
  - intros id q Hq. destruct (i_questions0 id q Hq) as (? & ? & ? & Hp). split; [lia|]. rewrite Er. split; [done|]. split; [done|].
    destruct Hp as [?|[?|[o ?]]]; [by left|by right; left|]. right; right. exists o. by apply Hs.
  - intros k Hk. destruct (i_remembered0 k Hk) as (id & q & r & ? & ? & ? & ?). exists id, q, r. by rewrite Eq, Ea.
  - intros e' id [Hin'|[= -> <-]]%Hin; [specialize (i_log0 _ _ Hin'); lia|]. destruct (Hab id eq_refl). lia.
Qed.
Lemma set_thread_inv conn t w :
  thread_ok w t → 0 ≤ thread_id t < Z.of_nat (length (w_log w)) →
  (∀ c t', w_threads w !! c = Some t' → thread_id t' = thread_id t → c = conn) → inv w → inv (set_thread conn t w).
Proof.
  intros Ht Hlt Hone []. split; try done; cbn.
  - intros c t'. destruct (decide (conn = c)) as [<-|Hne].
    + rewrite lookup_insert_eq. by intros [= <-].
    + rewrite lookup_insert_ne by done. apply i_threads0.
  - intros c1 c2 t1 t2. destruct (decide (conn = c1)) as [<-|H1], (decide (conn = c2)) as [<-|H2];
      rewrite ?lookup_insert_eq, ?lookup_insert_ne by done; try done.
    + intros [= <-] E2 E. symmetry. by eapply Hone.
    + intros E1 [= <-] E. by eapply Hone.
    + apply i_thread_once0.
Qed.
Lemma decided_nil w id : (∀ e, (e, Settles id) ∉ w_log w) → decided w id = [].
Proof.
  unfold decided. induction (w_log w) as [|[e a] l IH]; [done|]. intros Hn. cbn. case_bool_decide as E; cbn in E.
  - subst a. by destruct (Hn e); left.
  - apply IH. intros e' Hin. apply (Hn e'). by right.
Qed.
(** A new question is held. *)
Lemma register_inv id q a c w :
  inv w → closed (w_state w) = false → w_questions w !! id = None → 0 ≤ id < Z.of_nat (length (w_log w)) →
  (∀ e, (e, Settles id) ∉ w_log w) → ap_id a = id → same_question a q → q_asked q = w_ran w → 0 ≤ q_timeout q →
  c = clock_start (q_timeout q) (w_now w) (paused (w_state w)) →
  (∀ conn t, w_threads w !! conn = Some t → thread_id t ≠ id) →
  inv (note_question id q (on_state (λ s, set_held s (held s ++ [MkHeld a None (Some c)])) w)).
Proof.
  intros Hinv Hcl Hq Hid Hlog Ha Hsame Hasked Htime Hc Hth. set (w' := note_question _ _ _). pose proof Hinv as [].
  assert (∀ i q', w_questions w !! i = Some q' → i ≠ id ∧ w_questions w' !! i = Some q') as Hqs.
  { intros i q' E. assert (i ≠ id) by congruence. split; [done|]. cbn. by rewrite lookup_insert_ne. }
  assert (w_answers w !! id = None) as Han.
  { destruct (w_answers w !! id) as [[d r]|] eqn:E; [|done]. destruct (i_answers0 _ _ _ E) as (q' & E' & _). congruence. }
  assert (∀ h, h ∈ held (w_state w) → held_id h ≠ id) as Hnh.
  { intros h Hh. destruct (i_held0 h Hh) as ((q' & _ & E & _) & _). by apply Hqs in E as [? _]. }
  assert (∀ i, i ≠ id → keeps w w' i) as Hkeeps.
  { intros i Hi. split; cbn; try done.
    - intros E. by rewrite lookup_insert_ne.
    - intros (h & Hh & E). left. exists h. split; [|done]. apply elem_of_app. by left.
    - intros [Hf ?]. split; [|done]. intros h. cbn. intros [Hh|Hh%list_elem_of_singleton]%elem_of_app; [by apply Hf|].
      subst h. unfold held_id. cbn. congruence.
    - intros a' o ->. left. by eexists. }
  assert (later w w') as Hlater.
  { split; cbn; [|done]. by apply insert_subseteq. }
  split; try done.
  - cbn. rewrite fmap_app. apply NoDup_app. split_and!; [done| |apply NoDup_singleton].
    intros x (h & -> & Hh)%list_elem_of_fmap Hx%list_elem_of_singleton. unfold held_id at 2 in Hx. cbn in Hx. apply (Hnh h Hh). congruence.
  - intros h. cbn. rewrite elem_of_app, list_elem_of_singleton. intros [Hh| ->].
    + destruct (i_held0 h Hh) as ((q' & c' & E & ? & ? & ? & ?) & ? & ? & ?). split_and!; try done.
      exists q', c'. split; [by apply Hqs|]. by split_and!.
    + split_and!; [|..].
      * exists q, c. unfold held_id. cbn. rewrite Ha, lookup_insert_eq, Han. split_and!; try done.
        subst c. unfold clock_ok, clock_start, clock_remaining, saturating_sub. cbn. split_and!; [done|done|by destruct (paused _)|].
        rewrite Hasked. destruct (paused (w_state w)); lia.
      * unfold held_id. cbn. rewrite Ha. destruct (handoff (w_state w) !! id) eqn:E; [|done].
        destruct (i_handoff0 _ _ E) as (? & ? & _). congruence.
      * unfold held_id. cbn. rewrite Ha. destruct (unclaimed (w_state w) !! id) as [[a' o]|] eqn:E; [|done].
        destruct (i_unclaimed0 _ _ _ E) as (_ & _ & _ & ? & ? & _). congruence.
      * unfold held_id. cbn. rewrite Ha. by apply decided_nil.
  - intros i a' o Hu. destruct (i_unclaimed0 i a' o Hu) as (? & ? & ? & q' & ? & ? & ?). split_and!; try done. exists q'. split; [by apply Hqs|done].
  - intros i o Hh. destruct (i_handoff0 i o Hh) as (q' & ? & ? & ?). exists q'. split; [by apply Hqs|done].
  - intros conn t Ht. destruct (i_threads0 conn t Ht) as [Hok Hlt]. split; [|done].
    eapply thread_ok_keeps; [done|done|apply Hkeeps; by eapply Hth|done].
  - intros i q'. cbn. destruct (decide (i = id)) as [->|Hne].
    + rewrite lookup_insert_eq. intros [= <-]. split; [done|]. rewrite Hasked. split; [done|]. split; [done|]. left.
      exists (MkHeld a None (Some c)). split; [|done]. apply elem_of_app. right. by left.
    + rewrite lookup_insert_ne by done. intros E. destruct (i_questions0 i q' E) as (? & ? & ? & Hp). split; [done|]. split; [done|]. split; [done|].
      destruct Hp as [(h & Hh & Ei)|Hp]; [|by right]. left. exists h. split; [|done]. apply elem_of_app. by left.
  - cbn. by rewrite Hcl.
  - intros i d r E. destruct (i_answers0 i d r E) as (q' & ? & ?). exists q'. split; [by apply Hqs|done].
  - intros k Hk. eapply allowed_before_later; [done|]. by apply i_remembered0.
Qed.
Lemma fresh_id w id :
  inv w → Z.of_nat (length (w_log w)) ≤ id →
  w_questions w !! id = None ∧ (∀ e, (e, Settles id) ∉ w_log w) ∧ ∀ conn t, w_threads w !! conn = Some t → thread_id t ≠ id.
Proof.
  intros [] Hid. split_and!.
  - destruct (w_questions w !! id) as [q|] eqn:E; [|done]. destruct (i_questions0 id q E). lia.
  - intros e Hin. specialize (i_log0 e id Hin). lia.
  - intros conn t Ht E. destruct (i_threads0 conn t Ht). lia.
Qed.
Lemma hold_begin_inv conn tool summary reason timeout authority ok now_ms w :
  w_threads w !! conn = None → 0 ≤ timeout → inv w →
  inv (hold_begin conn tool summary reason timeout authority ok now_ms w).
Proof.
  intros Hconn Htime Hinv. unfold hold_begin.
  pose proof (append_inv ok (requested_event tool summary reason) NoOne w ltac:(done) Hinv) as Hinv1.
  destruct (append ok (requested_event tool summary reason) NoOne w) as [[id|] w1] eqn:Eap; [|done]. cbn [snd] in Hinv1.
  pose proof (fresh_id w (Z.of_nat (length (w_log w))) Hinv ltac:(lia)) as (Hq & Hlog & Hth).
  unfold append in Eap. destruct (w_sealed w); [done|]. destruct ok; [|done]. injection Eap as Eid Ew1.
  assert (w_questions w1 !! id = None ∧ 0 ≤ id < Z.of_nat (length (w_log w1)) ∧ (∀ e, (e, Settles id) ∉ w_log w1) ∧
    (∀ c t, w_threads w1 !! c = Some t → thread_id t ≠ id) ∧ w_threads w1 !! conn = None) as (Hq1 & Hid1 & Hlog1 & Hth1 & Hc1).
  { subst id w1. cbn. rewrite length_app. cbn [length]. split_and!; try done; try lia.
    intros e. rewrite elem_of_app, list_elem_of_singleton. intros [Hin|[=]]. by apply (Hlog e). }
  clear Hq Hlog Hth Eid Ew1. destruct (is_remembered tool summary (w_state w1)) eqn:Er.
  - apply set_thread_inv; [|cbn; lia| |done].
    + left. split; [done|]. split; [done|]. apply bool_decide_eq_true in Er. by apply (i_remembered _ Hinv1 (tool, summary)).
    + intros c t Ht E. by destruct (Hth1 c t Ht).
  - unfold credentials_at. pose proof (sweep_kept now_ms (w_state w1)) as Hk.
    assert (inv (on_state (λ _, sweep_expired_credentials now_ms (w_state w1)) w1)) as Hinv2.
    { apply (kept_inv (sweep_expired_credentials now_ms)) in Hinv1; [done|]. apply sweep_kept. }
    revert Hinv2. generalize (sweep_expired_credentials now_ms (w_state w1)). clear Hk. intros s2 Hinv2.
    unfold register_at. cbn [w_now on_state]. destruct (closed s2) eqn:Ecl; [done|].
    set (a := Approval_new _ _ _ _ _). set (q := MkQuestion _ _ _ _).
    assert (inv (note_question id q (on_state (λ s, set_held s (held s ++ [MkHeld a None (Some (clock_start timeout (w_now w1) (paused s2)))]))
                  (on_state (λ _, s2) w1)))) as Hinv3.
    { apply register_inv; try done. }
    apply (set_thread_inv conn (Waiting id tool summary timeout)) in Hinv3; [done| |cbn; lia|].
    + exists q. cbn. rewrite lookup_insert_eq. split_and!; try done. left. eexists. split; [apply elem_of_app; right; by left|done].
    + intros c t Ht E. by destruct (Hth1 c t Ht).
Qed.
(** A held question is collected by its thread. *)
Lemma collect_inv conn id tool summary timeout h o s' w :
  inv w → w_threads w !! conn = Some (Waiting id tool summary timeout) → h ∈ held (w_state w) → held_id h = id →
  (∀ q, w_questions w !! id = Some q → outcome_ok w id q o) →
  held s' = remove_first (is_held id) (held (w_state w)) → handoff s' = handoff (w_state w) →
  unclaimed s' = <[id := (h_approval h, o)]> (unclaimed (w_state w)) → closed s' = closed (w_state w) → paused s' = paused (w_state w) →
  (∀ k, is_Some (remembered s' !! k) → is_Some (remembered (w_state w) !! k) ∨ k = (tool, summary) ∧ o = Answered AllowSession) →
  inv (set_thread conn (Collected id tool summary o) (on_state (λ _, s') w)).
Proof.
  intros Hinv Hconn Hh Hid Ho Eh Eho Eu Ec Ep Hrem. set (w' := set_thread _ _ _). pose proof Hinv as [].
  destruct (i_held0 h Hh) as ((q & c & Hq & Hsame & _) & Hno & _ & Hnd). rewrite Hid in *. specialize (Ho q Hq).
  assert (∀ h', h' ∈ held s' ↔ h' ∈ held (w_state w) ∧ held_id h' ≠ id) as Hheld.
  { intros h'. rewrite Eh. by apply (elem_of_remove_first held_id). }
  assert (∃ q', w_questions w !! id = Some q' ∧ q_tool q' = tool ∧ q_summary q' = summary) as (q' & Hq' & Et & Es).
  { destruct (i_threads0 _ _ Hconn) as [(q' & ? & ? & ? & _) _]. eauto. }
  assert (q' = q) as -> by congruence.
  assert (later w w') as Hl by by split.
  assert (∀ i, i ≠ id → keeps w w' i) as Hkeeps.
  { intros i Hi. split; cbn; rewrite ?Eho; try done.
    - intros (h' & Hh' & E). left. exists h'. rewrite Hheld. split; [|done]. split; [done|congruence].
    - intros [Hf Hu]. split; cbn; [intros h' [Hh' _]%Hheld; by apply Hf|by rewrite Eu, lookup_insert_ne].
    - intros a' o'. rewrite Eu, lookup_insert_ne by done. intros ->. left. by eexists. }
  split; cbn; try done.
  - rewrite Eh. by apply remove_first_NoDup.
  - intros h' [Hh' Hne]%Hheld. destruct (i_held0 h' Hh') as ((q1 & c1 & ? & ? & ? & Hc1 & ?) & ? & ? & ?).
    rewrite Eho, Eu, lookup_insert_ne by done. split_and!; try done. exists q1, c1. split_and!; try done.
    all: unfold clock_ok in *; cbn; by rewrite Ep.
  - intros i a o'. rewrite Eu, Eho. destruct (decide (i = id)) as [->|Hne].
    + rewrite lookup_insert_eq. intros [= <- <-]. split_and!; try done. exists q. by split_and!.
    + rewrite lookup_insert_ne by done. apply i_unclaimed0.
  - intros i o'. rewrite Eho. apply i_handoff0.
  - intros c' t. destruct (decide (conn = c')) as [<-|Hne].
    + rewrite lookup_insert_eq. intros [= <-]. split.
      * right. exists q. split_and!; try done. left. cbn. rewrite Eu, lookup_insert_eq. by eexists.
      * by destruct (i_threads0 _ _ Hconn).
    + rewrite lookup_insert_ne by done. intros Ht. destruct (i_threads0 c' t Ht) as [Hok Hlt]. split; [|done].
      eapply thread_ok_keeps; [done|done| |done]. apply Hkeeps. intros E. apply Hne. by eapply i_thread_once0.
  - intros c1 c2 t1 t2. destruct (decide (conn = c1)) as [<-|H1], (decide (conn = c2)) as [<-|H2];
      rewrite ?lookup_insert_eq, ?lookup_insert_ne by done; try done.
    + intros [= <-] E2 E. by eapply (i_thread_once0 _ _ _ _ Hconn).
    + intros E1 [= <-] E. by eapply (i_thread_once0 _ _ _ _ E1 Hconn).
    + apply i_thread_once0.
  - intros i q1 Hq1. destruct (i_questions0 i q1 Hq1) as (? & ? & ? & Hp). split; [done|]. split; [done|]. split; [done|].
    rewrite Eu. destruct (decide (i = id)) as [->|Hne]; [right; left; rewrite lookup_insert_eq; by eexists|].
    rewrite lookup_insert_ne by done. destruct Hp as [(h' & Hh' & E)|Hp]; [|by right]. left. exists h'. rewrite Hheld. split; [|done].
    split; [done|congruence].
  - rewrite Ec. intros Hcl. destruct (i_closed0 Hcl) as [E _]. rewrite E in Hh. by apply elem_of_nil in Hh.
  - by rewrite Ec.
  - intros k [Hk|[-> ->]]%Hrem; [by apply i_remembered0|]. destruct Ho as [r Hr]. exists id, q, r. by split_and!.
Qed.
Lemma alter_first_id {A} (p : A → bool) f l x : List.find p l = Some x → f x = x → alter_first p f l = l.
Proof.
  intros Hf E. induction l as [|y l IH]; cbn in *; [done|]. destruct (p y); [|by rewrite IH]. injection Hf as ->. by rewrite E.
Qed.
Lemma same_held_inv s' w : s' = w_state w → inv w → inv (on_state (λ _, s') w).
Proof. intros ->. by destruct w. Qed.
Lemma set_held_same s : set_held s (held s) = s.
Proof. by destruct s. Qed.
Lemma remember_keys a at_ms s k :
  is_Some (remembered (remember a at_ms s) !! k) → is_Some (remembered s !! k) ∨ k = (ap_tool a, ap_summary a).
Proof. cbn. rewrite lookup_insert_is_Some. naive_solver. Qed.
Lemma hold_wait_inv conn now_ms w : inv w → inv (hold_wait conn now_ms w).
Proof.
  intros Hinv. unfold hold_wait. destruct (w_threads w !! conn) as [[id tool summary timeout| |]|] eqn:Hconn; try done.
  unfold wait_once. destruct (List.find (is_held id) (held (w_state w))) as [h|] eqn:Hf; cycle 1.
  - (* not held: a close handed the outcome over *)
    destruct (i_threads _ Hinv _ _ Hconn) as [(q & Hq & Et & Es & _ & Hp) Hlt].
    destruct Hp as [(h & Hh & E)|[o Ho]]; [by destruct (find_no_key held_id id _ Hf h Hh)|]. rewrite Ho.
    apply set_thread_inv; [|done| |by apply same_held_inv].
    + right. destruct (i_handoff _ Hinv _ _ Ho) as (q' & Hq' & Hok & _). assert (q' = q) as -> by congruence.
      exists q. split_and!; try done. by right.
    + intros c t Ht E. by eapply (i_thread_once _ Hinv _ _ _ _ Ht Hconn).
  - destruct (find_key held_id id _ _ Hf) as [Hh Hid]. pose proof (i_held _ Hinv h Hh) as ((q & c & Hq & Hsame & Hck & Hclock & Hans) & _).
    destruct (i_threads _ Hinv _ _ Hconn) as [(q' & Hq' & Et & Es & Eti & _) _]. rewrite Hid in *. assert (q' = q) as -> by congruence.
    assert (h_approval h = h_approval h ∧ ap_id (h_approval h) = id ∧ ap_tool (h_approval h) = tool ∧ ap_summary (h_approval h) = summary) as (_ & Ei & Eto & Esu).
    { destruct Hsame. split_and!; try done; congruence. }
    destruct (h_answer h) as [d|] eqn:Ean.
    + eapply (collect_inv conn id tool summary timeout h); try done.
      * intros q1 Hq1. destruct (w_answers w !! id) as [[d' r]|] eqn:E; [|done]. injection Hans as ->. by exists r.
      * cbn. by case_bool_decide.
      * cbn. by case_bool_decide.
      * cbn. rewrite Ei. by case_bool_decide.
      * cbn. by case_bool_decide.
      * cbn. by case_bool_decide.
      * cbn. intros k. case_bool_decide as Ed; [|by left]. subst d. intros [?|Hk]%(remember_keys _ now_ms (set_held (w_state w) (remove_first (is_held id) (held (w_state w))))); [by left|right].
        by rewrite <- Eto, <- Esu.
    + rewrite Hck. change (default (clock_start timeout (w_now w) (paused (w_state w))) (Some c)) with c. rewrite (alter_first_id _ _ _ h) by (done || by destruct h; cbn in *; subst).
      rewrite set_held_same. destruct (paused (w_state w)) eqn:Hp; [by apply same_held_inv|].
      destruct (Z.eqb_spec (clock_remaining c (w_now w)) 0) as [Hz|Hz]; [|by apply same_held_inv].
      eapply (collect_inv conn id tool summary timeout h); try done.
      * intros q1 Hq1. assert (q1 = q) as -> by congruence. split; [by destruct (w_answers w !! id)|].
        destruct Hclock as (_ & _ & _ & Hrem). rewrite Hz in Hrem. unfold saturating_sub in Hrem. lia.
      * cbn. by rewrite Ei.
      * cbn. by left.
Qed.
(** The thread of a question that is settled or recorded now is done. *)
Lemma finish_thread_inv conn id tool summary o w w' :
  inv w → w_threads w !! conn = Some (Collected id tool summary o) → later w w' → (∀ i, i ≠ id → keeps w w' i) →
  w_threads w' = <[conn := Finished id tool summary o]> (w_threads w) → thread_ok w' (Finished id tool summary o) →
  (length (w_log w) ≤ length (w_log w'))%nat →
  (∀ c t, w_threads w' !! c = Some t → thread_ok w' t ∧ 0 ≤ thread_id t < Z.of_nat (length (w_log w'))) ∧
  (∀ c1 c2 t1 t2, w_threads w' !! c1 = Some t1 → w_threads w' !! c2 = Some t2 → thread_id t1 = thread_id t2 → c1 = c2).
Proof.
  intros Hinv Hconn Hl Hk Eth Hok Hlen. rewrite Eth. pose proof Hinv as []. split.
  - intros c t. destruct (decide (conn = c)) as [<-|Hne].
    + rewrite lookup_insert_eq. intros [= <-]. split; [done|]. destruct (i_threads0 _ _ Hconn) as [_ Hlt]. cbn in *. lia.
    + rewrite lookup_insert_ne by done. intros Ht. destruct (i_threads0 c t Ht) as [Hok' Hlt]. split; [|lia].
      eapply thread_ok_keeps; [done|done| |done]. apply Hk. intros E. apply Hne. by eapply i_thread_once0.
  - intros c1 c2 t1 t2. destruct (decide (conn = c1)) as [<-|H1], (decide (conn = c2)) as [<-|H2];
      rewrite ?lookup_insert_eq, ?lookup_insert_ne by done; try done.
    + intros [= <-] E2 E. by eapply (i_thread_once0 _ _ _ _ Hconn).
    + intros E1 [= <-] E. by eapply (i_thread_once0 _ _ _ _ E1 Hconn).
    + apply i_thread_once0.
Qed.
Lemma release_inv conn id tool summary o q w w' l :
  inv w → w_threads w !! conn = Some (Collected id tool summary o) → w_questions w !! id = Some q →
  q_tool q = tool → q_summary q = summary → outcome_ok w id q o →
  (∀ h, h ∈ held (w_state w) → held_id h ≠ id) →
  held (w_state w') = held (w_state w) → closed (w_state w') = closed (w_state w) → paused (w_state w') = paused (w_state w) →
  remembered (w_state w') = remembered (w_state w) →
  handoff (w_state w') = delete id (handoff (w_state w)) → unclaimed (w_state w') = delete id (unclaimed (w_state w)) →
  w_threads w' = <[conn := Finished id tool summary o]> (w_threads w) → w_now w' = w_now w → w_ran w' = w_ran w →
  w_questions w' = w_questions w → w_answers w' = w_answers w → w_sealed w' = w_sealed w → (w_lost w = true → w_lost w' = true) →
  w_log w' = w_log w ++ l → (∀ x, x ∈ l → x.2 = Settles id) → settled w' id q o → inv w'.
Proof.
  intros Hinv Hconn Hq Et Es Ho Hnh Eh Ec Ep Er Eho Eu Eth En Era Eq Ea Ese Hlost Elog Hl Hset. pose proof Hinv as [].
  assert (∀ i, i ≠ id → decided w' i = decided w i) as Hd.
  { intros i Hi. unfold decided. rewrite Elog, decided_app. replace (omap _ l) with (@nil LogEvent); [apply app_nil_r|].
    clear -Hl Hi. induction l as [|[e a] l IH]; [done|]. cbn. assert (a = Settles id) as -> by (apply (Hl (e, a)); by left).
    rewrite bool_decide_false by congruence. apply IH. intros x Hx. apply Hl. by right. }
  assert (∀ i q o, i ≠ id → settled w i q o → settled w' i q o) as Hs.
  { intros i q' o' Hi [?|[? ?]]; [left|right]; rewrite Hd by done; auto. }
  assert (∀ i q o, outcome_ok w i q o → outcome_ok w' i q o) as Hoo.
  { intros i q' o'. apply outcome_ok_mono; [by rewrite Ea|lia]. }
  assert (later w w') as Hlat by (split; by rewrite ?Eq, ?Ea).
  assert (∀ i, i ≠ id → keeps w w' i) as Hk.
  { intros i Hi. split; unfold free; rewrite ?Eq, ?Eh, ?Eho, ?Eu, ?lookup_delete_ne by done; try done; [intros; by apply Hoo|by left|
      intros a o' ->; left; by eexists|intros; by apply Hs]. }
  destruct (finish_thread_inv conn id tool summary o w w') as [Ht1 Ht2]; try done.
  { right. exists q. unfold free. rewrite Eq, Eh, Eu, lookup_delete_eq. split_and!; try done. by apply Hoo. }
  { rewrite Elog, length_app. lia. }
  split; rewrite ?Eh, ?Ec, ?Er, ?Eq, ?Ea, ?Ese, ?Era; try done.
  - intros h Hh. destruct (i_held0 h Hh) as ((q1 & c1 & ? & ? & ? & Hc1 & ?) & ? & ? & ?).
    specialize (Hnh h Hh). rewrite Eho, Eu, !lookup_delete_ne, Hd by congruence. split; [|done].
    exists q1, c1. assert (clock_ok w' q1 c1) by (unfold clock_ok in *; by rewrite Ep, En, Era). rewrite Eq, Ea. by split_and!.
  - intros i a o'. rewrite Eu, Eho. intros [Hne Hu]%lookup_delete_Some. destruct (i_unclaimed0 i a o' Hu) as (? & ? & ? & q1 & ? & ? & ?).
    rewrite lookup_delete_ne, Hd by done. split_and!; try done. exists q1. auto.
  - intros i o'. rewrite Eho. intros [Hne Hh]%lookup_delete_Some. destruct (i_handoff0 i o' Hh) as (q1 & ? & ? & ?). exists q1. auto.
  - intros i q1 Hq1. destruct (i_questions0 i q1 Hq1) as (? & ? & ? & Hp). rewrite Elog, length_app. split; [lia|]. split; [done|]. split; [done|].
    destruct (decide (i = id)) as [->|Hne]; [assert (q1 = q) as -> by congruence; right; right; by exists o|].
    rewrite Eu, lookup_delete_ne by done. destruct Hp as [?|[?|[o' ?]]]; [by left|by right; left|right; right; exists o'; auto].
  - intros Hcl. destruct (i_closed0 Hcl) as [-> E]. split; [done|]. rewrite Eu, E. apply delete_empty.
  - intros k Hk'. eapply allowed_before_later; [done|]. by apply i_remembered0.
  - intros e i. rewrite Elog, length_app, elem_of_app. intros [Hin|Hin]; [specialize (i_log0 _ _ Hin); lia|].
    specialize (Hl _ Hin). cbn in Hl. injection Hl as ->. destruct (i_questions0 id q Hq). lia.
Qed.
Lemma set_claims_same s : set_claims s (handoff s) (unclaimed s) = s.
Proof. by destruct s. Qed.
Lemma hold_end_inv conn ok w : inv w → inv (hold_end conn ok w).
Proof.
  intros Hinv. unfold hold_end. destruct (w_threads w !! conn) as [[|id tool summary o|]|] eqn:Hconn; try done. pose proof Hinv as [].
  destruct (i_threads0 _ _ Hconn) as [Hok Hlt]. cbn [thread_id] in Hlt. unfold take_recorded.
  destruct Hok as [(-> & Hq & Hall)|(q & Hq & Et & Es & Ho & Hp)].
  - (* remembered: nothing was held *)
    assert (handoff (w_state w) !! id = None) as ->.
    { destruct (handoff (w_state w) !! id) as [x|] eqn:E; [|done]. destruct (i_handoff0 _ _ E) as (? & ? & _). congruence. }
    assert (unclaimed (w_state w) !! id = None) as Hu.
    { destruct (unclaimed (w_state w) !! id) as [[a x]|] eqn:E; [|done]. destruct (i_unclaimed0 _ _ _ E) as (_ & _ & _ & ? & ? & _). congruence. }
    rewrite delete_id, set_claims_same by done. assert (on_state (λ _, w_state w) w = w) as -> by by destruct w.
    pose proof (append_inv ok (decided_event tool summary Remembered) (Settles id) w) as Hinv'.
    pose proof (append_fields ok (decided_event tool summary Remembered) (Settles id) w) as (_ & _ & Eth & _ & _ & Eq & Ea & Hlen & _).
    apply set_thread_inv; [|cbn [thread_id]; lia| |apply Hinv'; [by intros i [= <-]|done]].
    + left. rewrite Eq. split_and!; try done. eapply allowed_before_later; [|done]. split; by rewrite ?Eq, ?Ea.
    + intros c t. rewrite Eth. intros Ht E. by eapply (i_thread_once0 _ _ _ _ Ht Hconn).
  - assert (∀ h, h ∈ held (w_state w) → held_id h ≠ id) as Hnh.
    { apply in_hand_not_held; [done|]. destruct Hp as [[a ->]| ->]; [left|right]; by eexists. }
    destruct (handoff (w_state w) !! id) as [o'|] eqn:Eho.
    + (* a close recorded it *)
      assert (o' = o) as ->. { destruct Hp as [[a Hu]|[= <-]]; [|done]. destruct (i_unclaimed0 _ _ _ Hu) as (_ & ? & _). congruence. }
      destruct (i_handoff0 _ _ Eho) as (q' & Hq' & _ & Hset). assert (q' = q) as -> by congruence.
      eapply (release_inv conn id tool summary o q w _ []); try done.
      * cbn. rewrite delete_id; [done|]. destruct (unclaimed (w_state w) !! id) as [[a x]|] eqn:E; [|done].
        destruct (i_unclaimed0 _ _ _ E) as (_ & ? & _). congruence.
      * cbn. by rewrite app_nil_r.
      * by intros x ?%elem_of_nil.
    + destruct Hp as [[a Hu]|[=]]. destruct (i_unclaimed0 _ _ _ Hu) as (_ & _ & Hd & _).
      assert (w_sealed w = false) as Hse.
      { destruct (w_sealed w); [|done]. destruct (i_closed0 (i_sealed0 eq_refl)) as [_ E]. by rewrite E, lookup_empty in Hu. }
      unfold append. cbn [w_sealed on_state]. rewrite Hse. destruct ok; cbn [snd].
      * eapply (release_inv conn id tool summary o q w _ [(decided_event tool summary o, Settles id)]); try done.
        -- cbn. by rewrite delete_id.
        -- by intros x ->%list_elem_of_singleton.
        -- left. unfold decided. cbn. rewrite decided_app, Hd. cbn. rewrite bool_decide_true by done. by rewrite Et, Es.
      * eapply (release_inv conn id tool summary o q w _ []); try done.
        -- cbn. by rewrite delete_id.
        -- cbn. by rewrite app_nil_r.
        -- by intros x ?%elem_of_nil.
        -- right. done.
Qed.
Lemma answer_inv id d w : inv w → inv (answer_question id d w).
Proof.
  intros Hinv. unfold answer_question, answer. destruct (paused (w_state w)) eqn:Hpa; [done|].
  destruct (List.find (is_held id) (held (w_state w))) as [h|] eqn:Hf; [|done]. case_bool_decide as Han; [done|].
  destruct (from_option _ false (h_clock h)) eqn:Hck; [done|]. pose proof Hinv as [].
  destruct (find_key held_id id _ _ Hf) as [Hh Hid]. destruct (i_held0 h Hh) as ((q & c & Hq & Hsame & Hc & Hclock & Ha) & Hno & Hnu & Hnd).
  rewrite Hid in *. assert (h_answer h = None) as Hna by (destruct (h_answer h); [by destruct Han|done]).
  assert (w_answers w !! id = None) as Hnone by (rewrite Hna in Ha; by destruct (w_answers w !! id)).
  assert (w_ran w - q_asked q < q_timeout q) as Htime.
  { rewrite Hc in Hck. cbn in Hck. apply Z.eqb_neq in Hck. destruct Hclock as (_ & _ & _ & Hrem). rewrite Hrem in Hck. unfold saturating_sub in Hck. lia. }
  assert (alter_first (is_held id) (λ h, with_answer h d) (held (w_state w))
    = (λ h, if is_held id h then with_answer h d else h) <$> held (w_state w)) as Eal.
  { by apply (alter_first_fmap held_id id). }
  rewrite Eal. set (w' := note_answer _ _ _).
  assert (∀ h', h' ∈ held (w_state w') → ∃ h0, h0 ∈ held (w_state w) ∧ held_id h' = held_id h0 ∧ h_approval h' = h_approval h0 ∧
    h_clock h' = h_clock h0 ∧ (held_id h0 ≠ id ∧ h_answer h' = h_answer h0 ∨ held_id h0 = id ∧ h_answer h' = Some d)) as Hheld.
  { intros h'. cbn. intros (h0 & -> & Hh0)%list_elem_of_fmap. exists h0. split; [done|]. unfold is_held. fold (held_id h0).
    destruct (Z.eqb_spec (held_id h0) id); cbn; auto 10. }
  assert (∀ h0, h0 ∈ held (w_state w) → ∃ h', h' ∈ held (w_state w') ∧ held_id h' = held_id h0) as Hback.
  { intros h0 Hh0. eexists. split; [cbn; by apply list_elem_of_fmap_2|]. unfold is_held. by destruct (_ =? _). }
  assert (∀ i, i ≠ id → w_answers w' !! i = w_answers w !! i) as Hans by (intros i Hi; cbn; by rewrite lookup_insert_ne).
  assert (∀ i q o, i ≠ id → outcome_ok w i q o → outcome_ok w' i q o) as Ho.
  { intros i q' o Hi. apply outcome_ok_mono; [by apply Hans|done]. }
  assert (later w w') as Hl by (split; [done|]; cbn; by apply insert_subseteq).
  assert (∀ i, keeps w w' i) as Hk.
  { intros i. split; cbn [w_questions w_state handoff unclaimed note_answer on_state set_held]; try done.
    - intros q' o Hq' Hn. destruct (decide (i = id)) as [->|]; [by destruct (Hn h Hh)|by apply Ho].
    - intros (h0 & Hh0 & <-). left. by apply Hback.
    - intros [Hfr ?]. split; [|done]. intros h' (h0 & Hh0 & -> & _)%Hheld. by apply Hfr.
    - intros a o Hu. left. by exists a. }
  split; try done.
  - cbn. rewrite <- Eal. by rewrite (alter_first_keys held_id id).
  - intros h' (h0 & Hh0 & E & Eap & Eck & Hcase)%Hheld. rewrite E. destruct (i_held0 h0 Hh0) as ((q1 & c1 & Hq1 & Hs1 & Hc1 & Hcl1 & Ha1) & ? & ? & ?).
    split; [|done]. exists q1, c1. unfold held_ok. rewrite E, Eap, Eck. split_and!; try done. cbn.
    destruct Hcase as [[Hne ->]|[-> ->]]; [by rewrite lookup_insert_ne|by rewrite lookup_insert_eq].
  - intros i a o Hu. destruct (i_unclaimed0 i a o Hu) as (? & ? & ? & q1 & ? & ? & ?). split_and!; try done. exists q1.
    assert (i ≠ id) by (intros ->; cbn in Hu; congruence). auto.
  - intros i o Hh'. destruct (i_handoff0 i o Hh') as (q1 & ? & ? & ?). exists q1.
    assert (i ≠ id) by (intros ->; cbn in Hh'; congruence). auto.
  - intros conn t Ht. destruct (i_threads0 conn t Ht) as [Hok Hlt]. split; [|done]. eapply thread_ok_keeps; [done|done|apply Hk|done].
  - intros i q1 Hq1. destruct (i_questions0 i q1 Hq1) as (? & ? & ? & Hp). split; [done|]. split; [done|]. split; [done|].
    destruct Hp as [(h0 & Hh0 & <-)|Hp]; [left; by apply Hback|by right].
  - intros Hcl. destruct (i_closed0 Hcl) as [E _]. rewrite E in Hh. by apply elem_of_nil in Hh.
  - intros i d' r. cbn. destruct (decide (i = id)) as [->|Hne].
    + rewrite lookup_insert_eq. intros [= <- <-]. by exists q.
    + rewrite lookup_insert_ne by done. apply i_answers0.
  - intros k Hk'. eapply allowed_before_later; [done|]. by apply i_remembered0.
Qed.
Lemma set_paused_fields p now now_ms s :
  let s' := set_paused p now now_ms s in
  held s' = (λ h, MkHeld (h_approval h) (h_answer h) ((if p then clock_hold now else clock_run now) <$> h_clock h)) <$> held s ∧
  handoff s' = handoff s ∧ unclaimed s' = unclaimed s ∧ closed s' = closed s ∧ paused s' = p ∧
  ∀ k, is_Some (remembered s' !! k) → is_Some (remembered s !! k).
Proof.
  cbn zeta. unfold set_paused. set (s1 := set_held _ _). destruct (if p then (Active, Suspended) else (Suspended, Active)) as [from to].
  set (s2 := set_credentials s1 _). destruct (retire_all_kept Expired (List.filter (resume_expires p now_ms) (credentials s1)) s2) as [E Hr].
  injection E as Eh Eho Eu Ec Ep. cbn. rewrite Eh, Eho, Eu, Ec, Ep. split_and!; try done.
  intros k. rewrite lookup_fmap. intros Hk%fmap_is_Some. by apply Hr in Hk.
Qed.
Lemma tick_ok (p : bool) c now :
  match ck_running_since c with Some since => since ≤ now | None => True end → 0 ≤ ck_left c →
  let c' := (if p then clock_hold now else clock_run now) c in
  ck_timeout c' = ck_timeout c ∧ 0 ≤ ck_left c' ∧ clock_remaining c' now = clock_remaining c now ∧
  match ck_running_since c' with Some since => p = false ∧ since ≤ now | None => p = true end.
Proof.
  intros Hrun Hl. cbn zeta. unfold clock_hold, clock_run, clock_remaining, saturating_sub.
  destruct p, (ck_running_since c) eqn:E; cbn; rewrite ?E; split_and!; try done; lia.
Qed.
Lemma pause_inv p now_ms w : inv w → inv (on_state (set_paused p (w_now w) now_ms) w).
Proof.
  intros Hinv. pose proof (set_paused_fields p (w_now w) now_ms (w_state w)) as (Eh & Eho & Eu & Ec & Ep & Hrem). cbn zeta in *.
  set (w' := on_state _ w). change (set_paused p (w_now w) now_ms (w_state w)) with (w_state w') in *. pose proof Hinv as [].
  set (tick := λ h, _) in Eh.
  assert (∀ i, keeps w w' i) as Hk.
  { intros i. split; unfold free; rewrite ?Eh, ?Eho, ?Eu; try done.
    - intros (h & Hh & <-). left. exists (tick h). split; [by apply list_elem_of_fmap_2|done].
    - intros [Hfr ?]. split; [|done]. intros h (h0 & -> & Hh0)%list_elem_of_fmap. by apply (Hfr h0).
    - intros a o ->. left. by eexists. }
  split; rewrite ?Eh, ?Eho, ?Eu, ?Ec; try done.
  - rewrite <- list_fmap_compose. done.
  - intros h (h0 & -> & Hh0)%list_elem_of_fmap. destruct (i_held0 h0 Hh0) as ((q & c & Hq & Hs & Hc & (Ht & Hl & Hrun & Hrm) & Ha) & Hrest).
    split; [|done]. destruct (tick_ok p c (w_now w)) as (H1 & H2 & H3 & H4); [by destruct (ck_running_since c); [destruct Hrun|]|done|].
    exists q, ((if p then clock_hold (w_now w) else clock_run (w_now w)) c). split_and!; try done; cbn [tick h_clock h_approval h_answer].
    + by rewrite Hc.
    + unfold clock_ok. rewrite Ep. change (w_now w') with (w_now w). rewrite H3. split_and!; try done. congruence.
  - intros conn t Ht. destruct (i_threads0 conn t Ht) as [Hok Hlt]. split; [|done]. by eapply thread_ok_keeps; [done|by split|apply Hk|].
  - intros i q Hq. destruct (i_questions0 i q Hq) as (? & ? & ? & Hp). split; [done|]. split; [done|]. split; [done|].
    destruct Hp as [(h & Hh & <-)|Hp]; [|by right]. left. exists (tick h). split; [by apply list_elem_of_fmap_2|done].
  - intros Hcl. destruct (i_closed0 Hcl) as [-> ->]. done.
  - intros k Hk'. by apply i_remembered0, Hrem.
Qed.

(** *** Lemmas: closing *)
Lemma fold_handoff (l : list (Z * Outcome)) (m : gmap Z Outcome) :
  NoDup l.*1 →
  (∀ i o, (i, o) ∈ l → foldl (λ m e, <[e.1 := e.2]> m) m l !! i = Some o) ∧
  (∀ i, i ∉ l.*1 → foldl (λ m e, <[e.1 := e.2]> m) m l !! i = m !! i).
Proof.
  revert m. induction l as [|[j o] l IH]; intros m; [by split; [intros ??[]%elem_of_nil|]|].
  cbn [fmap list_fmap fst snd foldl]. intros [Hj Hl]%NoDup_cons. destruct (IH (<[j := o]> m) Hl) as [H1 H2]. split.
  - intros i o' [[= -> ->]|Hin]%elem_of_cons; [|by apply H1]. rewrite H2 by done. apply lookup_insert_eq.
  - intros i Hi. rewrite not_elem_of_cons in Hi. destruct Hi. rewrite H2 by done. by rewrite lookup_insert_ne.
Qed.
Definition released_ids (l : list (Approval * Outcome)) : list (Z * Outcome) := (λ e, (ap_id e.1, e.2)) <$> l.
(** What [close] hands out, and the state it leaves. *)
Definition releases (s : State) : list (Approval * Outcome) :=
  ((λ h, (h_approval h, held_outcome h)) <$> held s) ++ (btree (unclaimed s)).*2.
Lemma close_one_fields now_ms s h :
  let s' := close_one now_ms s h in
  held s' = held s ∧ unclaimed s' = unclaimed s ∧ closed s' = closed s ∧ paused s' = paused s ∧
  handoff s' = <[held_id h := held_outcome h]> (handoff s) ∧
  ∀ k, is_Some (remembered s' !! k) → is_Some (remembered s !! k) ∨
    k = (ap_tool (h_approval h), ap_summary (h_approval h)) ∧ h_answer h = Some AllowSession.
Proof.
  cbn zeta. unfold close_one. case_bool_decide as Ho; cbn; split_and!; try done; [|by left].
  intros k [?|Hk]%(remember_keys _ now_ms s); [by left|]. right. split; [done|]. unfold held_outcome in Ho. destruct (h_answer h); [by injection Ho as ->|done].
Qed.
Lemma close_spec now_ms s :
  (∀ i a o, unclaimed s !! i = Some (a, o) → ap_id a = i) →
  (close now_ms s).1 = releases s ∧
  let s' := (close now_ms s).2 in
  held s' = [] ∧ unclaimed s' = ∅ ∧ closed s' = true ∧ paused s' = paused s ∧
  handoff s' = foldl (λ m e, <[e.1 := e.2]> m) (handoff s) (released_ids (releases s)) ∧
  ∀ k, is_Some (remembered s' !! k) → is_Some (remembered s !! k) ∨
    ∃ h, h ∈ held s ∧ k = (ap_tool (h_approval h), ap_summary (h_approval h)) ∧ h_answer h = Some AllowSession.
Proof.
  intros Hids. unfold close. set (s1 := foldl (close_one now_ms) _ _).
  assert (∀ l s0, let s' := foldl (close_one now_ms) s0 l in held s' = held s0 ∧ unclaimed s' = unclaimed s0 ∧ closed s' = closed s0 ∧
    paused s' = paused s0 ∧ handoff s' = foldl (λ m e, <[e.1 := e.2]> m) (handoff s0) ((λ h, (held_id h, held_outcome h)) <$> l) ∧
    ∀ k, is_Some (remembered s' !! k) → is_Some (remembered s0 !! k) ∨
      ∃ h, h ∈ l ∧ k = (ap_tool (h_approval h), ap_summary (h_approval h)) ∧ h_answer h = Some AllowSession) as Hloop.
  { intros l. induction l as [|h l IH]; intros s0; cbn zeta; [split_and!; auto|]. cbn [foldl fmap list_fmap fst snd].
    destruct (IH (close_one now_ms s0 h)) as (-> & -> & -> & -> & -> & Hr). destruct (close_one_fields now_ms s0 h) as (-> & -> & -> & -> & -> & Hr1).
    split_and!; try done. intros k [[?|[-> ?]]%Hr1|(h' & ? & ?)]%Hr; [by left|right; exists h; split; [by left|done]|].
    right. exists h'. split; [by right|done]. }
  destruct (Hloop (held (set_closed s)) (set_held (set_closed s) [])) as (Eh & Eu & Ec & Ep & Eho & Hr). fold s1 in Eh, Eu, Ec, Ep, Eho, Hr.
  clearbody s1. cbn in Eh, Eu, Ec, Ep, Eho, Hr.
  assert (∀ l s0, let s' := foldl claim_one s0 l in held s' = held s0 ∧ unclaimed s' = unclaimed s0 ∧ closed s' = closed s0 ∧
    paused s' = paused s0 ∧ remembered s' = remembered s0 ∧ handoff s' = foldl (λ m e, <[e.1 := e.2]> m) (handoff s0) ((λ e, (e.1, e.2.2)) <$> l)) as Hclaim.
  { intros l. induction l as [|e l IH]; intros s0; cbn zeta; [done|]. cbn [foldl fmap list_fmap fst snd].
    destruct (IH (claim_one s0 e)) as (-> & -> & -> & -> & -> & ->). done. }
  destruct (Hclaim (btree (unclaimed s1)) (set_claims s1 (handoff s1) ∅)) as (Eh2 & Eu2 & Ec2 & Ep2 & Er2 & Eho2). cbn in Eh2, Eu2, Ec2, Ep2, Er2, Eho2.
  cbn [fst snd]. split; [unfold releases; by rewrite Eu|]. cbn zeta. split_and!.
  - by rewrite Eh2.
  - done.
  - by rewrite Ec2.
  - by rewrite Ep2.
  - rewrite Eho2, Eho, Eu, <- foldl_app. f_equal. unfold released_ids, releases. rewrite fmap_app, <- !list_fmap_compose. f_equal.
    apply list_fmap_ext. intros j [i [a o]] Hj. cbn. f_equal. symmetry. apply (Hids i a o). apply elem_of_btree. by eapply list_elem_of_lookup_2.
  - intros k. rewrite Er2. apply Hr.
Qed.
(** The records of a close. *)
Lemma close_append_spec ok l w :
  w_sealed w = false → NoDup (released_ids l).*1 →
  let w' := foldl (close_append ok) w l in
  w_state w' = w_state w ∧ w_sealed w' = false ∧ w_threads w' = w_threads w ∧ w_now w' = w_now w ∧ w_ran w' = w_ran w ∧
  w_questions w' = w_questions w ∧ w_answers w' = w_answers w ∧ (w_lost w = true → w_lost w' = true) ∧
  (length (w_log w) ≤ length (w_log w'))%nat ∧
  (∀ e i, (e, Settles i) ∈ w_log w' → (e, Settles i) ∈ w_log w ∨ i ∈ (released_ids l).*1) ∧
  (∀ i, i ∉ (released_ids l).*1 → decided w' i = decided w i) ∧
  (∀ a o, (a, o) ∈ l → decided w' (ap_id a) = decided w (ap_id a) ++ [decided_event (ap_tool a) (ap_summary a) o] ∨
     w_lost w' = true ∧ decided w' (ap_id a) = decided w (ap_id a)).
Proof.
  revert w. induction l as [|[a o] l IH]; intros w Hs Hnd; cbn zeta.
  { split_and!; try done; [by left|by intros a o ?%elem_of_nil]. }
  cbn [foldl released_ids fmap list_fmap fst snd] in *. apply NoDup_cons in Hnd as [Ha Hnd].
  set (w1 := close_append ok w (a, o)).
  pose proof (append_fields (ok (ap_id a)) (decided_event (ap_tool a) (ap_summary a) o) (Settles (ap_id a)) w) as HF.
  change (append _ _ _ w).2 with w1 in HF. destruct HF as (F1 & F2 & F3 & F4 & F5 & F6 & F7 & F8 & F9).
  destruct (IH w1) as (G1 & G2 & G3 & G4 & G5 & G6 & G7 & G8 & G9 & G10 & G11 & G12); [by rewrite F2|done|].
  assert (∀ i, i ≠ ap_id a → decided w1 i = decided w i) as Hother by (intros i Hi; apply append_decided; cbn; congruence).
  assert (w_lost w = true → w_lost w1 = true) as Hlost by apply append_lost.
  assert (decided w1 (ap_id a) = decided w (ap_id a) ++ [decided_event (ap_tool a) (ap_summary a) o] ∨
    w_lost w1 = true ∧ decided w1 (ap_id a) = decided w (ap_id a)) as Hself.
  { unfold w1, close_append, append. cbn [fst snd]. rewrite Hs. destruct (ok (ap_id a)); [left|by right]. cbn.
    unfold decided at 1. cbn. rewrite decided_app. cbn. by rewrite bool_decide_true. }
  rewrite G1, G2, G3, G4, G5, G6, G7. split_and!; try done; try congruence; [auto|lia|..].
  - intros e i [[?|[= -> ->]]%F9|?]%G10; [by left|right; by left|right; by right].
  - intros i Hi. apply not_elem_of_cons in Hi as [Hi1 Hi2]. by rewrite G11, Hother by done.
  - intros a' o' [[= -> ->]|Hin]%elem_of_cons.
    + rewrite G11 by done. destruct Hself as [->|[Hl ->]]; [by left|right; auto].
    + assert (ap_id a' ≠ ap_id a). { intros E. apply Ha. rewrite <- E. apply list_elem_of_fmap. exists (ap_id a', o').
        split; [done|]. apply list_elem_of_fmap. by exists (a', o'). }
      rewrite <- (Hother (ap_id a')) by done. by apply G12.
Qed.
Definition with_sealed (b : bool) (w : World) : World :=
  MkWorld (w_state w) (w_log w) b (w_threads w) (w_revokers w) (w_now w) (w_lost w) (w_ran w) (w_questions w) (w_answers w).
Lemma with_sealed_inv b w : (b = true → closed (w_state w) = true) → inv w → inv (with_sealed b w).
Proof. intros Hb []. by split. Qed.
Lemma releases_NoDup w : inv w → NoDup (released_ids (releases (w_state w))).*1.
Proof.
  intros []. unfold released_ids, releases. rewrite fmap_app, fmap_app, <- !list_fmap_compose.
  replace ((λ x, _) <$> btree (unclaimed (w_state w))) with ((btree (unclaimed (w_state w))).*1); cycle 1.
  { apply list_fmap_ext. intros j [i [a o]] Hj%list_elem_of_lookup_2. apply elem_of_btree in Hj. by destruct (i_unclaimed0 i a o Hj) as [<- _]. }
  apply NoDup_app. split_and!; [exact i_nodup0| |apply NoDup_btree].
  intros i (h & -> & Hh)%list_elem_of_fmap Hi. apply list_elem_of_fmap in Hi as ([j [a o]] & E & Hin%elem_of_btree). cbn in E.
  destruct (i_held0 h Hh) as (_ & _ & Hu & _). unfold held_id in Hu. rewrite E in Hu. cbn in *. congruence.
Qed.
Lemma elem_of_releases w a o : inv w → (a, o) ∈ releases (w_state w) ↔
  (∃ h, h ∈ held (w_state w) ∧ a = h_approval h ∧ o = held_outcome h) ∨ unclaimed (w_state w) !! ap_id a = Some (a, o).
Proof.
  intros Hinv. unfold releases. rewrite elem_of_app, !list_elem_of_fmap. split.
  - intros [(h & [= -> ->] & Hh)|([i [a' o']] & [= -> ->] & Hin%elem_of_btree)]; [left; eauto|right].
    by destruct (i_unclaimed _ Hinv i a' o' Hin) as [-> _].
  - intros [(h & Hh & -> & ->)|Hu]; [left; by exists h|right]. exists (ap_id a, (a, o)). split; [done|]. by apply elem_of_btree.
Qed.
(** Each released question has its question and an outcome that is so, and no record yet. *)
Lemma released_ok w a o : inv w → (a, o) ∈ releases (w_state w) →
  ∃ q, w_questions w !! ap_id a = Some q ∧ same_question a q ∧ outcome_ok w (ap_id a) q o ∧
    handoff (w_state w) !! ap_id a = None ∧ decided w (ap_id a) = [].
Proof.
  intros Hinv [(h & Hh & -> & ->)|Hu]%elem_of_releases; [|by destruct (i_unclaimed _ Hinv _ _ _ Hu) as (_ & ? & ? & q & ? & ? & ?); exists q|done].
  destruct (i_held _ Hinv h Hh) as ((q & c & Hq & Hs & _ & _ & Ha) & ? & _ & ?). exists q. split_and!; try done.
  unfold held_id, held_outcome in *. rewrite Ha. destruct (w_answers w !! ap_id (h_approval h)) as [[d r]|] eqn:E; cbn; [by exists r|done].
Qed.
Lemma released_elem w i : inv w → i ∈ (released_ids (releases (w_state w))).*1 ↔ ¬ free w i.
Proof.
  intros Hinv. assert (i ∈ (released_ids (releases (w_state w))).*1 ↔ ∃ a o, (a, o) ∈ releases (w_state w) ∧ ap_id a = i) as ->.
  { unfold released_ids. rewrite <- list_fmap_compose, list_elem_of_fmap. split; [intros ([a o] & -> & ?)|intros (a & o & ? & <-)]; eauto.
    by exists (a, o). }
  split.
  - intros (a & o & Hin & <-) [Hf Hu]. apply elem_of_releases in Hin as [(h & Hh & -> & _)|?]; [by apply (Hf h Hh)|congruence|done].
  - intros Hnf. destruct (unclaimed (w_state w) !! i) as [[a o]|] eqn:Hu.
    + exists a, o. destruct (i_unclaimed _ Hinv _ _ _ Hu) as [<- _]. split; [|done]. apply elem_of_releases; auto.
    + destruct (decide (Exists (λ h, held_id h = i) (held (w_state w)))) as [He|Hne].
      * apply Exists_exists in He as (h & Hh & E). exists (h_approval h), (held_outcome h). split; [|done]. apply elem_of_releases; eauto.
      * destruct Hnf. split; [|done]. intros h Hh E. apply Hne, Exists_exists. eauto.
Qed.
Lemma close_pending_inv ok now_ms w :
  inv w → inv (close_pending_approvals ok now_ms w) ∧ closed (w_state (close_pending_approvals ok now_ms w)) = true.
Proof.
  intros Hinv. unfold close_pending_approvals. destruct (close_spec now_ms (w_state w)) as (Er & Eh & Eu & Ec & Ep & Eho & Hrem).
  { intros i a o Hu. by destruct (i_unclaimed _ Hinv i a o Hu). }
  destruct (close now_ms (w_state w)) as [l s'] eqn:Ecl. cbn [fst snd] in *. subst l.
  destruct (fold_handoff (released_ids (releases (w_state w))) (handoff (w_state w)) (releases_NoDup w Hinv)) as [Hho1 Hho2]. rewrite <- Eho in Hho1, Hho2.
  set (w1 := on_state (λ _, s') w). destruct (w_sealed w) eqn:Hse.
  { (* already sealed: there is nothing to release *)
    destruct (i_closed _ Hinv (i_sealed _ Hinv Hse)) as [E1 E2].
    assert (releases (w_state w) = []) as Erel by (unfold releases; by rewrite E1, E2). rewrite Erel in *. cbn [foldl]. split; [|done].
    apply (kept_inv (λ _, s')); [|done]. split; [|intros k [?|(h & Hh & _)]%Hrem; [done|]; rewrite E1 in Hh; by apply elem_of_nil in Hh].
    unfold questions_of. cbn in Eho. rewrite Eh, Eu, Ec, Ep, Eho, E1, E2. by rewrite (i_sealed _ Hinv Hse). }
  destruct (close_append_spec ok (releases (w_state w)) w1 Hse (releases_NoDup w Hinv))
    as (G1 & G2 & G3 & G4 & G5 & G6 & G7 & G8 & G9 & G10 & G11 & G12).
  set (w2 := foldl (close_append ok) w1 (releases (w_state w))) in *. pose proof Hinv as [].
  cbn in G3, G4, G5, G6, G7, G8, G9. change (w_state w1) with s' in G1. rewrite G1. split; [|done].
  assert (∀ i q o, outcome_ok w i q o → outcome_ok w2 i q o) as Hoo by (intros i q o; apply outcome_ok_mono; [by rewrite G7|lia]).
  assert (∀ a o q, (a, o) ∈ releases (w_state w) → w_questions w !! ap_id a = Some q → settled w2 (ap_id a) q o) as Hset.
  { intros a o q Hin Hq. destruct (released_ok w a o Hinv Hin) as (q' & Hq' & [Et Es] & _ & _ & Hd). assert (q' = q) as -> by congruence.
    destruct (G12 a o Hin) as [E|[? E]]; change (decided w1 (ap_id a)) with (decided w (ap_id a)) in E; rewrite Hd in E; [left|by right].
    by rewrite <- Et, <- Es. }
  assert (∀ i q o, i ∉ (released_ids (releases (w_state w))).*1 → settled w i q o → settled w2 i q o) as Hothers.
  { intros i q o Hi. specialize (G11 i Hi). change (decided w1 i) with (decided w i) in G11. intros [?|[? ?]]; [left|right]; rewrite G11; auto. }
  assert (∀ i q o, free w i → settled w i q o → settled w2 i q o) as Hfree.
  { intros i q o Hf. apply Hothers. by rewrite released_elem by done; intros ?. }
  assert (∀ a o, (a, o) ∈ releases (w_state w) → handoff s' !! ap_id a = Some o) as Hgive.
  { intros a o Hin. apply Hho1. apply list_elem_of_fmap. by exists (a, o). }
  assert (∀ i, free w i → handoff s' !! i = handoff (w_state w) !! i) as Hsame.
  { intros i Hf. apply Hho2. by rewrite released_elem by done; intros ?. }
  assert (∀ i o, handoff (w_state w) !! i = Some o → free w i) as Hhfree.
  { intros i o Hi. split; [apply in_hand_not_held; [done|right; by eexists]|]. destruct (unclaimed (w_state w) !! i) as [[a o']|] eqn:E; [|done].
    destruct (i_unclaimed0 _ _ _ E) as (_ & ? & _). congruence. }
  assert (∀ i, keeps w w2 i) as Hk.
  { intros i. split; unfold free; rewrite ?G1, ?G6, ?Eh, ?Eu; try done.
    - intros q o _ _. apply Hoo.
    - intros (h & Hh & <-). right. exists (held_outcome h). apply (Hgive (h_approval h)), elem_of_releases; eauto.
    - intros _. split; [by intros h ?%elem_of_nil|done].
    - intros o Hi. by rewrite Hsame by by eapply Hhfree.
    - intros a o Hu. right. destruct (i_unclaimed0 _ _ _ Hu) as [<- _]. apply (Hgive a), elem_of_releases; auto.
    - intros q o Hq Hf. by apply Hfree. }
  assert (later w w2) as Hl by (split; by rewrite ?G6, ?G7).
  split; rewrite ?G1, ?G3, ?G6, ?G7, ?Eh, ?Eu, ?Ec; try done.
  - by apply NoDup_nil.
  - by intros h ?%elem_of_nil.
  - intros i o Hi. destruct (decide (i ∈ (released_ids (releases (w_state w))).*1)) as [Hin|Hnin].
    + apply list_elem_of_fmap in Hin as ([i' o'] & -> & ([a o''] & [= -> ->] & Hin)%list_elem_of_fmap). cbn in Hi. rewrite (Hgive _ _ Hin) in Hi. injection Hi as <-.
      destruct (released_ok w a o'' Hinv Hin) as (q & Hq & _ & Ho & _). exists q. split_and!; [done|by apply Hoo|by apply Hset].
    + rewrite Hho2 in Hi by done. destruct (i_handoff0 i o Hi) as (q & Hq & Ho & Hs). exists q. split_and!; [done|by apply Hoo|].
      apply Hfree; [by eapply Hhfree|done].
  - intros conn t Ht. destruct (i_threads0 conn t Ht) as [Hok Hlt]. split; [|lia]. by eapply thread_ok_keeps; [done|done|apply Hk|].
  - intros i q Hq. destruct (i_questions0 i q Hq) as (? & ? & ? & Hp). split; [lia|]. rewrite G5. split; [done|]. split; [done|]. right; right.
    destruct Hp as [(h & Hh & <-)|[[[a o] Hu]|[o Hs]]].
    + exists (held_outcome h). apply (Hset (h_approval h)); [|done]. apply elem_of_releases; eauto.
    + exists o. destruct (i_unclaimed0 _ _ _ Hu) as [<- _]. apply Hset; [|done]. apply elem_of_releases; auto.
    + destruct (decide (i ∈ (released_ids (releases (w_state w))).*1)) as [Hin|Hnin]; [|exists o; by apply Hothers].
      apply list_elem_of_fmap in Hin as ([i' o'] & -> & ([a o''] & [= -> ->] & Hin)%list_elem_of_fmap). exists o''. by apply (Hset a).
  - intros k [Hk'|(h & Hh & -> & Ha)]%Hrem; [eapply allowed_before_later; [done|]; by apply i_remembered0|].
    destruct (i_held0 h Hh) as ((q & c & Hq & [Et Es] & _ & _ & Hans) & _). rewrite Ha in Hans.
    destruct (w_answers w !! held_id h) as [[d r]|] eqn:E; [|done]. injection Hans as <-. exists (held_id h), q, r. by rewrite G6, G7.
  - intros e i [Hin|Hin]%G10; [specialize (i_log0 _ _ Hin); lia|].
    apply list_elem_of_fmap in Hin as ([i' o'] & -> & ([a o''] & [= -> ->] & Hin)%list_elem_of_fmap).
    destruct (released_ok w a o'' Hinv Hin) as (q & Hq & _). destruct (i_questions0 _ _ Hq). cbn. lia.
Qed.
Lemma seal_inv ok sealed now_ms w : inv w → inv (seal ok sealed now_ms w).
Proof. intros Hinv. destruct (close_pending_inv ok now_ms w Hinv) as [H1 H2]. by apply (with_sealed_inv _ (close_pending_approvals ok now_ms w)). Qed.

(** *** Runs *)
Lemma set_revoker_inv conn r w : inv w → inv (set_revoker conn r w).
Proof. intros []. by split. Qed.
Lemma revoke_begin_inv conn id w : inv w → inv (revoke_begin conn id w).
Proof.
  intros Hinv. unfold revoke_begin. pose proof (kept_inv (λ s, (begin_revoke_wait id s).2) w (begin_revoke_kept id _) Hinv) as Hk.
  destruct (begin_revoke_wait id (w_state w)) as [start s] eqn:E. unfold on_state in *. rewrite E in Hk. cbn [snd] in Hk.
  destruct start as [[]|]; [by apply set_revoker_inv..|done].
Qed.
Lemma revoke_wait_inv conn ack w : inv w → inv (revoke_wait_ends conn ack w).
Proof. intros Hinv. unfold revoke_wait_ends. destruct (w_revokers w !! conn) as [[? ? ? []| | |]|]; try done; by apply set_revoker_inv. Qed.
Lemma revoke_end_inv conn ok w : inv w → inv (revoke_end conn ok w).
Proof.
  intros Hinv. unfold revoke_end. destruct (w_revokers w !! conn) as [[|id service slot o| |]|]; try done.
  set (s := match slot with Some slot => _ | None => _ end).
  assert (questions_kept (w_state w) (finish_revoke id o s).2) as Hk.
  { eapply questions_kept_trans; [|apply finish_revoke_kept]. unfold s. destruct slot; [by split|apply questions_kept_refl]. }
  destruct (finish_revoke id o s) as [performed s']. cbn [snd] in Hk. pose proof (kept_inv (λ _, s') w Hk Hinv) as Hinv'.
  destruct (_ && _); [|by apply set_revoker_inv]. destruct (ServiceId_new service); apply set_revoker_inv; [by apply append_inv|done].
Qed.
Lemma act_inv w w' : act w w' → inv w → inv w'.
Proof.
  destruct 1; intros Hinv.
  - by apply hold_begin_inv.
  - by apply hold_wait_inv.
  - by apply hold_end_inv.
  - by apply answer_inv.
  - by apply pause_inv.
  - by apply seal_inv.
  - by apply append_inv.
  - apply kept_inv; [apply record_credential_kept|done].
  - apply kept_inv; [apply note_lease_kept|done].
  - apply kept_inv; [by split|done].
  - apply kept_inv; [by split|done].
  - apply kept_inv; [apply sweep_kept|done].
  - apply kept_inv; [apply sweep_kept|done].
  - by apply revoke_begin_inv.
  - by apply revoke_wait_inv.
  - by apply revoke_end_inv.
Qed.
Lemma reachable_inv w : reachable w → inv w.
Proof.
  apply (rtc_ind_r inv World_new); [apply inv_new|]. intros w1 w2 _ [now w' Hle Hact] Hinv. eapply act_inv; [done|]. by apply advance_inv.
Qed.

(** ** Properties *)
(** What the thread of a question has been told, or is told when it next wakes. *)
Definition told_outcome (w : World) (t : Thread) : option Outcome :=
  match t with
  | Waiting id _ _ timeout => (wait_once id timeout (w_now w) 0 (w_state w)).1
  | Collected _ _ _ o | Finished _ _ _ o => Some o
  end.

(** C21. A question is settled in the log exactly once, whoever gets there first, its own thread or a
    stop that seals the log: there is never a second record; once the log is sealed there is one,
    and it records the outcome the thread of the question was told or is about to be told; and a
    thread that is done has its outcome in the log.  The records of appends that failed excepted. *)
Theorem question_decided_once w id q :
  reachable w → w_questions w !! id = Some q →
  (length (decided w id) ≤ 1)%nat ∧
  (w_lost w = false → w_sealed w = true → ∃ o, decided w id = [decided_event (q_tool q) (q_summary q) o]) ∧
  (w_lost w = false → ∀ conn t o, w_threads w !! conn = Some t → thread_id t = id → told_outcome w t = Some o →
     w_sealed w = true ∨ (∃ tool summary, t = Finished id tool summary o) →
     decided w id = [decided_event (q_tool q) (q_summary q) o]).
Proof.
  intros Hinv%reachable_inv Hq. pose proof Hinv as []. destruct (i_questions0 id q Hq) as (_ & _ & _ & Hp).
  assert (∀ o, w_lost w = false → settled w id q o → decided w id = [decided_event (q_tool q) (q_summary q) o]) as Hset.
  { intros o Hl [?|[? _]]; [done|congruence]. }
  split_and!.
  - destruct Hp as [(h & Hh & <-)|[[[a o] Hu]|[o [->|[_ ->]]]]]; try (cbn; lia).
    + destruct (i_held0 h Hh) as (_ & _ & _ & ->). cbn. lia.
    + destruct (i_unclaimed0 _ _ _ Hu) as (_ & _ & -> & _). cbn. lia.
  - intros Hl Hs. destruct (i_closed0 (i_sealed0 Hs)) as [E1 E2]. rewrite E1, E2 in Hp.
    destruct Hp as [(h & Hh%elem_of_nil & _)|[[x Hx]|[o Ho]]]; [done|by rewrite lookup_empty in Hx|]. exists o. by apply Hset.
  - intros Hl conn t o Ht Hid Htold Hwhen. destruct (i_threads0 conn t Ht) as [Hok _].
    destruct t as [id' tool summary timeout|id' tool summary o'|id' tool summary o']; cbn in Hid, Htold; subst id'.
    + destruct Hwhen as [Hs|(? & ? & [=])]. destruct (i_closed0 (i_sealed0 Hs)) as [E1 _]. unfold wait_once in Htold. rewrite E1 in Htold. cbn in Htold.
      destruct Hok as (_ & _ & _ & _ & _ & [(h & Hh & _)|[o' Ho]]); [rewrite E1 in Hh; by apply elem_of_nil in Hh|]. rewrite Ho in Htold. injection Htold as <-.
      destruct (i_handoff0 _ _ Ho) as (q' & Hq' & _ & Hse). apply Hset; [done|]. by replace q with q' by congruence.
    + destruct Hwhen as [Hs|(? & ? & [=])]. injection Htold as <-. destruct (i_closed0 (i_sealed0 Hs)) as [_ E2].
      destruct Hok as [(_ & E & _)|(q' & Hq' & _ & _ & _ & [[a Hu]|Ho])]; [congruence|by rewrite E2, lookup_empty in Hu|].
      destruct (i_handoff0 _ _ Ho) as (q2 & Hq2 & _ & Hse). apply Hset; [done|]. by replace q with q2 by congruence.
    + injection Htold as <-. destruct Hok as [(_ & E & _)|(q' & Hq' & _ & _ & _ & Hse & _)]; [congruence|].
      apply Hset; [done|]. by replace q with q' by congruence.
Qed.

(** C22. An agent is allowed only what its user allowed, in time: when a question ends in an allow, its
    user answered that very question so before its decision time of running session was used up,
    or answered an earlier question on the same tool and target for the session, in its time; and
    a question that timed out was open for its whole decision time, without an answer. *)
Theorem allowed_by_the_user w conn id tool summary o :
  reachable w →
  w_threads w !! conn = Some (Collected id tool summary o) ∨ w_threads w !! conn = Some (Finished id tool summary o) →
  (response o = HookAllow → ∃ id' q d r,
     w_questions w !! id' = Some q ∧ q_tool q = tool ∧ q_summary q = summary ∧ w_answers w !! id' = Some (d, r) ∧
     r - q_asked q < q_timeout q ∧ (id' = id ∧ d ≠ Deny ∨ o = Remembered ∧ d = AllowSession)) ∧
  (o = TimedOut → ∃ q, w_questions w !! id = Some q ∧ w_answers w !! id = None ∧ q_timeout q ≤ w_ran w - q_asked q).
Proof.
  intros Hinv%reachable_inv Ht. pose proof Hinv as [].
  assert (o = Remembered ∧ allowed_before w tool summary ∨
    ∃ q, w_questions w !! id = Some q ∧ q_tool q = tool ∧ q_summary q = summary ∧ outcome_ok w id q o) as Hok.
  { destruct Ht as [Ht|Ht]; destruct (i_threads0 _ _ Ht) as [Hok _].
    - destruct Hok as [(? & _ & ?)|(q & ? & ? & ? & ? & _)]; [by left|right; eauto 10].
    - destruct Hok as [(? & _ & ?)|(q & ? & ? & ? & ? & _)]; [by left|right; eauto 10]. }
  clear Ht. split.
  - intros Hr. destruct Hok as [(-> & id' & q & r & Hq & ? & ? & Ha)|(q & Hq & ? & ? & Ho)].
    + destruct (i_answers0 _ _ _ Ha) as (q' & Hq' & Hlt). exists id', q, AllowSession, r. replace q' with q in Hlt by congruence. split_and!; auto.
    + destruct o as [d| | |]; try done. destruct Ho as [r Ha]. destruct (i_answers0 _ _ _ Ha) as (q' & Hq' & Hlt).
      exists id, q, d, r. replace q' with q in Hlt by congruence. split_and!; try done. left. split; [done|]. by intros ->.
  - intros ->. destruct Hok as [[? _]|(q & Hq & _ & _ & Ho)]; [done|]. exists q. by split.
Qed.

(** C23. A wait ends: once a question was answered, or the session is not paused and has run for the
    question's decision time since it was asked, or the session is closing, the thread of the
    question that looks at it is not put back to sleep. *)
Theorem waits_end w conn id tool summary timeout q now_ms :
  reachable w → w_threads w !! conn = Some (Waiting id tool summary timeout) → w_questions w !! id = Some q →
  is_Some (w_answers w !! id) ∨ (paused (w_state w) = false ∧ q_timeout q ≤ w_ran w - q_asked q) ∨ closed (w_state w) = true →
  ∃ o, w_threads (hold_wait conn now_ms w) !! conn = Some (Collected id tool summary o).
Proof.
  intros Hinv%reachable_inv Hconn Hq Hend. unfold hold_wait. rewrite Hconn.
  assert (∃ o, (wait_once id timeout (w_now w) now_ms (w_state w)).1 = Some o) as [o Ho].
  { unfold wait_once. destruct (List.find _ _) as [h|] eqn:Hf; [|cbn; eauto]. destruct (find_key held_id id _ _ Hf) as [Hh Hid].
    destruct (i_held _ Hinv h Hh) as ((q' & c & Hq' & _ & Hc & (_ & _ & _ & Hrem) & Ha) & _). rewrite Hid in *. replace q' with q in * by congruence.
    destruct (h_answer h) as [d|]; [cbn; eauto|]. destruct Hend as [[x Hx]|[[Hp Htime]|Hcl]].
    - rewrite Hx in Ha. done.
    - rewrite Hc. change (default _ (Some c)) with c. cbn [paused set_held]. rewrite Hp.
      assert (clock_remaining c (w_now w) = 0) as -> by (rewrite Hrem; unfold saturating_sub; lia). cbn. eauto.
    - destruct (i_closed _ Hinv Hcl) as [E _]. rewrite E in Hh. by apply elem_of_nil in Hh. }
  destruct (wait_once _ _ _ _ _) as [o' s']. cbn in Ho. subst o'. exists o. cbn. apply lookup_insert_eq.
Qed.

(** ** Grants and revocations *)
(** The records of the revocation of a grant. *)
Definition revocations (w : World) (id : Z) : list LogEvent :=
  omap (λ e : LogEvent * About, if bool_decide (e.2 = Revokes id) then Some e.1 else None) (w_log w).
(** The number was given out, and nothing live has it. *)
Definition gone (s : State) (id : Z) : Prop := id ≤ next_grant_id s ∧ id ∉ live_ids s.
Definition revoker_ok (s : State) (r : Revoker) : Prop :=
  match r with
  | RevokeWaiting id _ _ _ | RevokeDecided id _ _ _ => id ≤ next_grant_id s ∧ id ∉ remembered_ids s
  | RevokeFinished id o => is_unconfirmed o = false → gone s id
  | RevokeErrored id => gone s id
  end.
(** What holds of the grants since the state was [s0]. *)
Record rev_inv (s0 : State) (w : World) : Prop := MkRevInv {
  r_grants : grants_ok (w_state w);
  r_since : ids_step s0 (w_state w);
  r_revokers conn r : w_revokers w !! conn = Some r → revoker_ok (w_state w) r;
  r_recorded id : revocations w id ≠ [] → gone (w_state w) id;
  r_once id : (length (revocations w id) ≤ 1)%nat;
}.
Lemma ids_step_next s s' : ids_step s s' → next_grant_id s ≤ next_grant_id s'.
Proof. intros [n]. lia. Qed.
Lemma gone_step s s' id : ids_step s s' → gone s id → gone s' id.
Proof. intros H [? ?]. split; [pose proof (ids_step_next _ _ H); lia|]. by eapply ids_step_gone. Qed.
(** A step that only changes the grants. *)
Lemma rev_inv_frame s0 w w' :
  grants_step (w_state w) (w_state w') → w_revokers w' = w_revokers w → (∀ id, revocations w' id = revocations w id) → rev_inv s0 w → rev_inv s0 w'.
Proof.
  intros Hstep Er El []. destruct (Hstep r_grants0) as [? Hids]. split; [done|by eapply ids_step_trans|..].
  - intros conn r. rewrite Er. intros Hr%r_revokers0. destruct r; cbn in *; [destruct Hr; split; [pose proof (ids_step_next _ _ Hids); lia|]..|intros ?|];
      eauto using gone_step, ids_step_answer.
  - intros id. rewrite El. intros ?. eapply gone_step; [done|]. eauto.
  - intros id. by rewrite El.
Qed.
Lemma revocations_append ok e about w id :
  about ≠ Revokes id → revocations (append ok e about w).2 id = revocations w id.
Proof.
  intros Hne. unfold append. destruct (w_sealed w); [done|]. destruct ok; [|done]. cbn. unfold revocations. cbn. rewrite omap_app. cbn.
  rewrite bool_decide_false by done. apply app_nil_r.
Qed.
Lemma append_frame ok e about w : w_revokers (append ok e about w).2 = w_revokers w ∧ w_state (append ok e about w).2 = w_state w.
Proof. unfold append. destruct (w_sealed w); [done|]. by destruct ok. Qed.
Lemma append_rev s0 ok e about w : (∀ id, about ≠ Revokes id) → rev_inv s0 w → rev_inv s0 (append ok e about w).2.
Proof.
  intros Hne. destruct (append_frame ok e about w) as [Er Es]. apply rev_inv_frame; [rewrite Es; by apply grants_step_same|done|].
  intros id. by apply revocations_append.
Qed.
Lemma on_state_rev s0 f w : grants_step (w_state w) (f (w_state w)) → rev_inv s0 w → rev_inv s0 (on_state f w).
Proof. intros. by apply (rev_inv_frame s0 w). Qed.
Lemma set_thread_rev s0 conn t w : rev_inv s0 w → rev_inv s0 (set_thread conn t w).
Proof. apply rev_inv_frame; [by apply grants_step_same|done|done]. Qed.
Lemma hold_begin_rev s0 conn tool summary reason timeout authority ok now_ms w :
  rev_inv s0 w → rev_inv s0 (hold_begin conn tool summary reason timeout authority ok now_ms w).
Proof.
  intros Hinv. unfold hold_begin. pose proof (append_rev s0 ok (requested_event tool summary reason) NoOne w ltac:(done) Hinv) as H1.
  destruct (append _ _ _ _) as [[id|] w1]; cbn [snd] in H1; [|done]. destruct (is_remembered _ _ _); [by apply set_thread_rev|].
  unfold credentials_at. cbv zeta. pose proof (on_state_rev s0 (sweep_expired_credentials now_ms) w1 (sweep_grants _ _) H1) as H2.
  unfold on_state in *. set (s := sweep_expired_credentials now_ms (w_state w1)) in *. clearbody s. unfold register_at. destruct (closed s); [done|].
  revert H2. apply rev_inv_frame; [|done|done]. by apply grants_step_same.
Qed.
Lemma hold_wait_rev s0 conn now_ms w : rev_inv s0 w → rev_inv s0 (hold_wait conn now_ms w).
Proof.
  intros Hinv. unfold hold_wait. destruct (w_threads w !! conn) as [[id tool summary timeout| |]|]; try done.
  pose proof (on_state_rev s0 (λ s, (wait_once id timeout (w_now w) now_ms s).2) w (wait_once_grants _ _ _ _ _) Hinv) as H1.
  unfold on_state in *. destruct (wait_once _ _ _ _ _) as [[o|] s]; [by apply set_thread_rev|done].
Qed.
Lemma hold_end_rev s0 conn ok w : rev_inv s0 w → rev_inv s0 (hold_end conn ok w).
Proof.
  intros Hinv. unfold hold_end. destruct (w_threads w !! conn) as [[|id tool summary o|]|]; try done.
  pose proof (on_state_rev s0 (λ s, (take_recorded id s).2) w (take_recorded_grants _ _) Hinv) as H1.
  unfold on_state in *. destruct (take_recorded _ _) as [[] s]; apply set_thread_rev; [done|]. by apply append_rev.
Qed.
Lemma answer_rev s0 id d w : rev_inv s0 w → rev_inv s0 (answer_question id d w).
Proof.
  unfold answer_question, answer. destruct (paused _); [done|]. destruct (List.find _ _); [|done]. destruct (bool_decide _); [done|].
  destruct (from_option _ _ _); [done|]. apply rev_inv_frame; [|done|done]. by apply grants_step_same.
Qed.
Lemma seal_rev s0 ok sealed now_ms w : rev_inv s0 w → rev_inv s0 (seal ok sealed now_ms w).
Proof.
  intros Hinv. assert (rev_inv s0 (close_pending_approvals ok now_ms w)) as H1.
  { unfold close_pending_approvals. pose proof (on_state_rev s0 (λ s, (close now_ms s).2) w (close_grants _ _) Hinv) as H1. unfold on_state in *.
    destruct (close now_ms (w_state w)) as [released s]. cbn [snd] in H1. revert H1. generalize (MkWorld s (w_log w) (w_sealed w) (w_threads w) (w_revokers w) (w_now w) (w_lost w) (w_ran w) (w_questions w) (w_answers w)).
    induction released as [|e l IH]; intros w1 H1; [done|]. cbn. apply IH. by apply append_rev. }
  revert H1. apply rev_inv_frame; [by apply grants_step_same|done|done].
Qed.
Lemma set_revoker_rev s0 conn r w : revoker_ok (w_state w) r → rev_inv s0 w → rev_inv s0 (set_revoker conn r w).
Proof. intros Hr []. split; try done. cbn. intros conn' r' [[_ <-]|[_ ?]]%lookup_insert_Some; [done|by eapply r_revokers0]. Qed.
Lemma revoke_begin_rev s0 conn id w : rev_inv s0 w → rev_inv s0 (revoke_begin conn id w).
Proof.
  intros Hinv. unfold revoke_begin. pose proof (on_state_rev s0 (λ s, (begin_revoke_wait id s).2) w (begin_revoke_grants _ _) Hinv) as H1.
  pose proof (begin_revoke_spec id (w_state w) (r_grants _ _ Hinv)) as Hspec. unfold on_state in *.
  destruct (begin_revoke_wait _ _) as [[[service slot leader|]|] s]; cbn [fst snd] in *; [..|done].
  - by apply set_revoker_rev.
  - apply set_revoker_rev; [by intros _|done].
Qed.
Lemma revoke_wait_rev s0 conn ack w : rev_inv s0 w → rev_inv s0 (revoke_wait_ends conn ack w).
Proof.
  intros Hinv. unfold revoke_wait_ends. destruct (w_revokers w !! conn) as [[id service slot []| | |]|] eqn:E; try done;
    (apply set_revoker_rev; [exact (r_revokers _ _ Hinv _ _ E)|done]).
Qed.
Lemma append_revoked_rev s0 ok service id w :
  gone (w_state w) id → revocations w id = [] → rev_inv s0 w → rev_inv s0 (append ok (CredentialRevoked service) (Revokes id) w).2.
Proof.
  intros Hgone Hnone []. destruct (append_frame ok (CredentialRevoked service) (Revokes id) w) as [Er Es].
  assert (∀ id', revocations (append ok (CredentialRevoked service) (Revokes id) w).2 id' = revocations w id' ∨
    id' = id ∧ revocations (append ok (CredentialRevoked service) (Revokes id) w).2 id' = [CredentialRevoked service]) as Hrec.
  { intros id'. destruct (decide (id' = id)) as [->|]; [|left; apply revocations_append; congruence].
    unfold append. destruct (w_sealed w); [by left|]. destruct ok; [|by left]. right. split; [done|]. unfold revocations in *. cbn. rewrite omap_app, Hnone. cbn.
    by rewrite bool_decide_true. }
  split; rewrite ?Es, ?Er; try done.
  - intros id' Hne. destruct (Hrec id') as [E|[-> _]]; [rewrite E in Hne; auto|done].
  - intros id'. destruct (Hrec id') as [->|[_ ->]]; [done|cbn; lia].
Qed.
Lemma revoke_end_rev s0 conn ok w : rev_inv s0 w → rev_inv s0 (revoke_end conn ok w).
Proof.
  intros Hinv. unfold revoke_end. destruct (w_revokers w !! conn) as [[|id service slot o| |]|] eqn:E; try done.
  destruct (r_revokers _ _ Hinv _ _ E) as [Hle Hrem]. set (s := match slot with Some slot => _ | None => _ end).
  assert (grants_of s = grants_of (w_state w) ∧ history s = history (w_state w)) as [Es Eh] by (unfold s; by destruct slot).
  assert (rev_inv s0 (on_state (λ _, s) w)) as H1.
  { apply on_state_rev; [|done]. apply grants_step_same; [done|]. by rewrite Eh. }
  clearbody s. injection Es as E1 E2 E3 _ _.
  assert (id ≤ next_grant_id s ∧ id ∉ remembered_ids s) as [Hle' Hrem'] by (unfold remembered_ids; by rewrite E2, E3).
  pose proof (on_state_rev s0 (λ s, (finish_revoke id o s).2) (on_state (λ _, s) w) (finish_revoke_grants _ _ _) H1) as H2.
  pose proof (finish_revoke_spec id o s (r_grants _ _ H1) Hle' Hrem') as [Hgone Hperf].
  unfold on_state in *. cbn [w_state w_log w_sealed w_threads w_revokers w_now w_lost w_ran w_questions w_answers] in *.
  destruct (finish_revoke id o s) as [performed s']. cbn [fst snd] in *.
  destruct performed; cbn [andb]; [|apply set_revoker_rev; [intros Hu; apply Hgone; by destruct o|done]].
  destruct o; cbn [negb is_unconfirmed]; [| |by apply set_revoker_rev].
  all: assert (revocations w id = []) as Hnone by
    (destruct (revocations w id) eqn:Er; [done|]; destruct (r_recorded _ _ H1 id) as [_ Hn]; [by unfold revocations in *; cbn; rewrite Er|];
     destruct Hn; unfold live_ids; apply elem_of_app; left; by apply Hperf).
  all: destruct (ServiceId_new service) as [sid|];
    [apply set_revoker_rev; [intros _; cbn [w_state]; rewrite (proj2 (append_frame _ _ _ _)); by apply Hgone|apply append_revoked_rev; [by apply Hgone|done|done]]
    |apply set_revoker_rev; [by apply Hgone|done]].
Qed.
Lemma act_rev s0 w w' : act w w' → rev_inv s0 w → rev_inv s0 w'.
Proof.
  destruct 1; intros Hinv; eauto using hold_begin_rev, hold_wait_rev, hold_end_rev, answer_rev, seal_rev, revoke_begin_rev, revoke_wait_rev, revoke_end_rev.
  - apply on_state_rev; [apply set_paused_grants|done].
  - by apply append_rev.
  - apply on_state_rev; [apply record_credential_grants|done].
  - apply on_state_rev; [apply note_lease_grants|done].
  - apply on_state_rev; [apply retire_launch_grants|done].
  - apply on_state_rev; [by apply grants_step_same|done].
  - apply on_state_rev; [apply sweep_grants|done].
  - apply on_state_rev; [apply sweep_grants|done].
Qed.
Lemma steps_rev s0 w w' : rtc step w w' → rev_inv s0 w → rev_inv s0 w'.
Proof.
  induction 1 as [|w1 w2 w3 [now w' Hle Hact] _ IH]; [done|]. intros []. apply IH. eapply act_rev; [done|]. by split.
Qed.
Lemma reachable_rev w : reachable w → rev_inv (w_state w) w.
Proof.
  intros Hr. destruct (steps_rev State_new _ _ Hr) as [? ? ? ? ?].
  { split; [apply State_new_grants|by apply ids_step_same|..]; cbn; [by intros|done|lia]. }
  split; try done. by apply ids_step_same.
Qed.

(** C25. The temporary authority of a session is kept in order, whatever its connections do and in
    whatever order: every grant has its own number, given out once, over what is live and what
    is in the history; what is live is not revoked or expired, and what is in the history is; no
    credential is active while the session is paused, and nothing is suspended while it runs;
    and both histories stay within their caps. *)
Theorem grants_in_order w : reachable w → grants_ok (w_state w).
Proof. intros Hr. apply (reachable_rev w Hr). Qed.

(** C24. A revocation is final, and is recorded once: however many connections revoke a grant at the
    same time, at most one record says so; and once it is recorded, or one of them was told that
    the grant was withdrawn, the grant is not shown in any later state, in whatever order the
    connections act, and a further revocation finds no such grant. *)
Theorem revocation_is_final w w' id :
  reachable w → rtc step w w' →
  (length (revocations w' id) ≤ 1)%nat ∧
  (revocations w id ≠ [] ∨ (∃ conn o, w_revokers w !! conn = Some (RevokeFinished id o) ∧ is_unconfirmed o = false) →
   ∀ now_ms, Forall (λ g, gr_id g ≠ id) (grants_at now_ms (w_state w')).1 ∧ (begin_revoke_wait id (w_state w')).1 = None).
Proof.
  intros Hr%reachable_rev Hsteps. pose proof (steps_rev _ _ _ Hsteps Hr) as Hr'. split; [apply Hr'|]. intros Hdone now_ms.
  assert (gone (w_state w) id) as Hgone.
  { destruct Hdone as [?|(conn & o & Hc & Ho)]; [by apply Hr|]. exact (r_revokers _ _ Hr _ _ Hc Ho). }
  apply (gone_step _ _ _ (r_since _ _ Hr')) in Hgone as [Hle Hgone]. split.
  - apply Forall_forall. intros g Hg <-. apply Hgone. eapply grants_at_live; [apply Hr'|done].
  - pose proof (begin_revoke_spec id (w_state w') (r_grants _ _ Hr')) as Hspec. unfold begin_revoke_wait in *.
    destruct (List.find _ _) as [c|] eqn:Hc.
    + destruct Hgone. unfold live_ids. apply elem_of_app. left. by eapply has_id_in.
    + destruct (List.find _ (remembered_list _)) as [[k g]|] eqn:Hf; [|done]. destruct Hgone. unfold live_ids. apply elem_of_app. right.
      apply find_Some_elem in Hf as [Hk Hid]. unfold remembered_list in Hk. rewrite merge_sort_Permutation in Hk. apply elem_of_map_to_list in Hk.
      apply elem_remembered_ids. exists k, g. cbn in Hid. split; [done|lia].
Qed.
End served.
