(* ===== verification/HoldRuns.v ===== *)
(** * HoldRuns: runs of the session daemon's questions and revocations

    Concrete runs of the steps of Hold.v: a question that is asked, allowed for the session,
    collected and recorded; the same asked again; an answer collected in a pause; a credential
    that two connections revoke.  They show the hypotheses of that file's theorems to hold, and
    two runs the daemon admits that its documentation does not expect. *)

From stdpp Require Import base numbers option gmap strings list relations.
From S2P Require Import Prelude Bytes Approvals Hold.
Local Open Scope Z_scope.

(** ** Runs *)
Module Example.
Definition text (t : list byte) : list byte := t.
Definition tool : list byte := bytes "Bash".
Definition summary : list byte := bytes "cargo publish".
Definition reason : list byte := bytes "publishes a crate".
Definition authority (_ : list Credential) : Authority :=
  MkAuthority (bytes "ask") (bytes "host") (bytes "none") (bytes "run") (bytes "none") None (Some LifetimeOnce).
Definition minute : Z := 60000000000.

(** A question is asked, allowed for the session, collected and recorded. *)
Definition asked : World := hold_begin text 1 tool summary reason minute authority true 1001 (advance 1 World_new).
Definition allowed : World := answer_question 0 AllowSession (advance 2 asked).
Definition collected : World := hold_wait 1 1003 (advance 3 allowed).
Definition recorded : World := hold_end text 1 true (advance 4 collected).
(** The same is asked again and answered by what is remembered; the session is sealed before
    the thread of that question comes to its record. *)
Definition asked_again : World := hold_begin text 2 tool summary reason minute authority true 1005 (advance 5 recorded).
Definition sealed : World := seal text (λ _, true) true 1006 (advance 6 asked_again).
Definition answered_again : World := hold_end text 2 true (advance 7 sealed).
(** The session is paused between the answer and its collection. *)
Definition held_up : World := on_state (set_paused true (w_now (advance 3 allowed)) 1003) (advance 3 allowed).
Definition collected_paused : World := hold_wait 1 1004 (advance 4 held_up).
(** A credential is granted and two connections revoke it. *)
Definition granted : World :=
  on_state (λ s, (record_credential_with_expiry (bytes "github") (bytes "api.github.com") [bytes "contents:read"] None 1001 None s).2) (advance 1 World_new).
Definition revoking : World := revoke_begin 8 1 (advance 3 (revoke_begin 7 1 (advance 2 granted))).
Definition acknowledged : World := revoke_wait_ends 7 Withdrawn (advance 4 revoking).
Definition withdrawn : World := revoke_end 7 true (advance 5 acknowledged).
Definition joined : World := revoke_wait_ends 8 RevokeUnconfirmed (advance 6 withdrawn).
Definition both_told : World := revoke_end 8 true (advance 7 joined).

Lemma step_on now w w' w0 : act text w0 w' → w0 = advance now w → (w_now w <=? now) = true → reachable text w → reachable text w'.
Proof. intros Hact -> Hle%Z.leb_le Hw. eapply rtc_r; [exact Hw|]. by eapply step_at. Qed.
Ltac take rule t := eapply (step_on t); [apply rule; done|reflexivity|vm_compute; reflexivity|].
Lemma reachable_allowed : reachable text allowed.
Proof. take act_answer 2. take act_hold_begin 1. apply rtc_refl. Qed.
Lemma reachable_recorded : reachable text recorded.
Proof. take act_hold_end 4. take act_hold_wait 3. apply reachable_allowed. Qed.
Lemma reachable_answered_again : reachable text answered_again.
Proof. take act_hold_end 7. take act_seal 6. take act_hold_begin 5. apply reachable_recorded. Qed.
Lemma reachable_collected_paused : reachable text collected_paused.
Proof. take act_hold_wait 4. take act_paused 3. apply reachable_allowed. Qed.
Lemma reachable_withdrawn : reachable text withdrawn.
Proof. take act_revoke_end 5. take act_revoke_wait 4. take act_revoke_begin 3. take act_revoke_begin 2. take act_credential 1. apply rtc_refl. Qed.
Lemma withdrawn_both_told : rtc (step text) withdrawn both_told.
Proof.
  apply (rtc_l _ _ joined); [apply (step_at _ _ 6); [by apply Z.leb_le; vm_compute|apply act_revoke_wait]|].
  apply (rtc_l _ _ both_told); [apply (step_at _ _ 7); [by apply Z.leb_le; vm_compute|apply act_revoke_end]|]. apply rtc_refl.
Qed.
End Example.

(** A question that a remembered answer settles can be left without its record: when the session
    is sealed between the two holds of the lock, the log has the request, no append failed, the
    agent is told to go ahead, and no record says that or why it was allowed. *)
Theorem remembered_can_lose_its_record :
  ∃ short_text w conn id tool summary,
    reachable short_text w ∧ w_lost w = false ∧ w_sealed w = true ∧
    w_threads w !! conn = Some (Finished id tool summary Remembered) ∧
    (∃ reason, w_log w !! Z.to_nat id = Some (requested_event short_text tool summary reason, NoOne)) ∧ decided w id = [].
Proof.
  exists Example.text, Example.answered_again, 2, 2, Example.tool, Example.summary. split; [apply Example.reachable_answered_again|].
  split_and!; try (vm_compute; reflexivity). exists Example.reason. vm_compute. reflexivity.
Qed.

(** An answer for the session that is collected while the session is paused is shown as active. *)
Theorem remembered_while_paused_is_active :
  ∃ short_text w g, reachable short_text w ∧ paused (w_state w) = true ∧ (grants_at 0 (w_state w)).1 = [g] ∧ gr_state g = Active.
Proof.
  exists Example.text, Example.collected_paused. eexists. split; [apply Example.reachable_collected_paused|].
  split_and!; vm_compute; reflexivity.
Qed.

(** ** Witnesses *)
Lemma question_decided_once_witness :
  decided Example.recorded 0 = [decided_event Example.text Example.tool Example.summary (Answered AllowSession)].
Proof.
  apply (question_decided_once Example.text Example.recorded 0 (MkQuestion Example.tool Example.summary Example.minute 1)
           Example.reachable_recorded ltac:(vm_compute; reflexivity)) with (conn := 1)
           (t := Finished 0 Example.tool Example.summary (Answered AllowSession)); try (vm_compute; reflexivity).
  right. do 2 eexists. reflexivity.
Defined.
Lemma allowed_by_the_user_witness :
  ∃ id' q d r, w_questions Example.recorded !! id' = Some q ∧ w_answers Example.recorded !! id' = Some (d, r) ∧ r - q_asked q < q_timeout q.
Proof.
  destruct (allowed_by_the_user Example.text Example.recorded 1 0 Example.tool Example.summary (Answered AllowSession)) as [H _];
    [apply Example.reachable_recorded|right; vm_compute; reflexivity|]. destruct (H eq_refl) as (id' & q & d & r & Hq & _ & _ & Ha & Hr & _).
  exists id', q, d, r. repeat split; assumption.
Defined.
Lemma waits_end_witness :
  ∃ o, w_threads (hold_wait 1 1003 Example.allowed) !! 1 = Some (Collected 0 Example.tool Example.summary o).
Proof.
  apply (waits_end Example.text Example.allowed 1 0 Example.tool Example.summary Example.minute (MkQuestion Example.tool Example.summary Example.minute 1) 1003);
    [apply Example.reachable_allowed|vm_compute; reflexivity|vm_compute; reflexivity|]. left. exists (AllowSession, 2). vm_compute. reflexivity.
Defined.
Lemma grants_in_order_witness : credentials (w_state Example.withdrawn) = [] ∧ grants_ok (w_state Example.withdrawn).
Proof. split; [vm_compute; reflexivity|]. apply (grants_in_order Example.text), Example.reachable_withdrawn. Defined.
Lemma revocation_is_final_witness :
  length (revocations Example.withdrawn 1) = 1%nat ∧ (length (revocations Example.both_told 1) ≤ 1)%nat ∧
  (begin_revoke_wait 1 (w_state Example.both_told)).1 = None.
Proof.
  destruct (revocation_is_final Example.text Example.withdrawn Example.both_told 1 Example.reachable_withdrawn Example.withdrawn_both_told) as [H1 H2].
  split; [vm_compute; reflexivity|]. split; [exact H1|]. apply (H2 ltac:(left; vm_compute; discriminate) 0).
Defined.
