(* ===== verification/Pause.v ===== *)
(** * Pause: the lifecycle of a session, its owners and its durable records
      ([crates/ward-daemon/src/pause.rs], [acks.rs] and [launches.rs])

    A session's lifecycle is derived from a few files of its directory: the pause marker, the
    owners of the hold, the intent of an operation under way, the stop marker, and the event
    log with its seal.  [Disk] is those files.  This file has the data, the one transition table
    every request and every launch is decided by, what a reader without a daemon makes of the
    files, and the components that confirm a hold.  A text is the list of its characters; a
    detail or a refusal is kept as the value its words render. *)

From stdpp Require Import base numbers option gmap sorting strings list.
From S2P Require Import Prelude Bytes Http Approvals.
Local Open Scope Z_scope.

Definition text : Set := list Z.
Definition txt (s : string) : text := code <$> bytes s.

(** ** Owners of a hold *)
Inductive Owner : Set := OwnerUser | OwnerCapture | OwnerStop.
Record Capturer := MkCapturer { cp_op : text; cp_pid : Z; cp_started : text; cp_reason : text }.
Record Holders := MkHolders { ho_user : bool; ho_stop : bool; ho_captures : list Capturer }.
Definition no_holders : Holders := MkHolders false false [].
Definition for_user : Holders := MkHolders true false [].
Definition for_stop : Holders := MkHolders false true [].
Definition for_capture (c : Capturer) : Holders := MkHolders false false [c].
Definition holders_empty (h : Holders) : bool := negb (ho_user h) && negb (ho_stop h) && bool_decide (ho_captures h = []).
Definition held_only_for_capture (h : Holders) : bool :=
  negb (ho_user h) && negb (ho_stop h) && negb (bool_decide (ho_captures h = [])).
Definition owners (h : Holders) : list Owner :=
  (if ho_user h then [OwnerUser] else []) ++ (if bool_decide (ho_captures h = []) then [] else [OwnerCapture])
  ++ (if ho_stop h then [OwnerStop] else []).
Definition add_capture (c : Capturer) (h : Holders) : Holders := MkHolders (ho_user h) (ho_stop h) (ho_captures h ++ [c]).
Definition remove_capture (op : text) (h : Holders) : Holders :=
  MkHolders (ho_user h) (ho_stop h) (List.filter (λ c, negb (bool_decide (cp_op c = op))) (ho_captures h)).
(** [dead] are the processes of captures that are gone. *)
Definition prune_dead (dead : list Z) (h : Holders) : Holders :=
  MkHolders (ho_user h) (ho_stop h) (List.filter (λ c, negb (bool_decide (cp_pid c ∈ dead))) (ho_captures h)).
Definition with_user (b : bool) (h : Holders) : Holders := MkHolders b (ho_stop h) (ho_captures h).
Definition with_stop (h : Holders) : Holders := MkHolders (ho_user h) true (ho_captures h).

(** ** Components of a hold *)
Inductive Component : Set := Proxy | ApprovalsComponent | Credentials.
Definition HOLD_ORDER : list Component := [Proxy; ApprovalsComponent; Credentials].
Definition release_order : list Component := rev HOLD_ORDER.
#[export] Instance Component_eq_dec : EqDecision Component.
Proof. solve_decision. Defined.
Inductive Phase : Set := PhaseHeld | PhaseReleased.
Definition ACK_TIMEOUT_SECS : Z := 2.
Inductive AckOutcome : Set := Acknowledged | AckTimedOut (after_secs : Z) | AckError (reason : text).
#[export] Instance AckOutcome_eq_dec : EqDecision AckOutcome.
Proof. solve_decision. Defined.
Record Acknowledgement := MkAck { ack_component : Component; ack_outcome : AckOutcome }.
Definition confirmed (a : Acknowledgement) : bool := bool_decide (ack_outcome a = Acknowledged).
Definition dec_text (n : Z) : text := code <$> dec_display n.
Definition component_str (c : Component) : text :=
  txt (match c with Proxy => "egress proxy" | ApprovalsComponent => "approvals" | Credentials => "credentials" end).
Definition ack_text (a : Acknowledgement) : text :=
  let name := component_str (ack_component a) in
  match ack_outcome a with
  | Acknowledged => name
  | AckTimedOut n => name ++ txt " (no acknowledgement within " ++ dec_text n ++ txt "s)"
  | AckError reason => name ++ txt " (" ++ reason ++ txt ")"
  end.
Definition first_unconfirmed (acks : list Acknowledgement) : option Acknowledgement := List.find (λ a, negb (confirmed a)) acks.
Definition phase_held (p : Phase) : bool := match p with PhaseHeld => true | PhaseReleased => false end.
Definition confirm_approvals (now : Z) (p : Phase) (s : State) : AckOutcome :=
  if negb (Bool.eqb (paused s) (phase_held p))
  then AckError (txt (if phase_held p then "hold not applied" else "hold not released"))
  else
    let lagging := List.filter (λ a, match ap_countdown a with Some c => negb (Bool.eqb (cd_held c) (phase_held p)) | None => false end)
                     (pending_at now s) in
    if bool_decide (length lagging = 0%nat) then Acknowledged
    else AckError (dec_text (Z.of_nat (length lagging)) ++ txt " decision clock(s) still " ++ txt (if phase_held p then "running" else "held")).
Definition confirm_credentials (now_ms : Z) (p : Phase) (s : State) : AckOutcome * State :=
  let '(wrong, word) := match p with PhaseHeld => (Active, txt "active") | PhaseReleased => (Suspended, txt "suspended") end in
  let '(gs, s) := grants_at now_ms s in
  let lagging := length (List.filter (λ g, bool_decide (gr_state g = wrong)) gs) in
  (if bool_decide (lagging = 0%nat) then Acknowledged
   else AckError (dec_text (Z.of_nat lagging) ++ txt " grant(s) still " ++ word), s).

(** The reason of a hold that names the component it could not confirm. *)
Definition UNCONFIRMED_MARK : text := txt " - unconfirmed: ".
Definition SHORT_TEXT_MAX_BYTES : nat := 256.
Definition utf8_len (c : Z) : nat := if c <? 0x80 then 1 else if c <? 0x800 then 2 else if c <? 0x10000 then 3 else 4.
Definition text_bytes (t : text) : nat := sum_list (utf8_len <$> t).
(** [String::pop] while the text is longer than [room]. *)
Fixpoint pop_to (fuel : nat) (room : nat) (t : text) : text :=
  match fuel with
  | O => t
  | S fuel => if (room <? text_bytes t)%nat then pop_to fuel room (removelast t) else t
  end.
Definition unconfirmed_reason (reason : text) (a : Acknowledgement) : text :=
  let suffix := UNCONFIRMED_MARK ++ ack_text a in
  pop_to (length reason) (SHORT_TEXT_MAX_BYTES - text_bytes suffix) reason ++ suffix.

(** ** Records *)
Inductive EndReason : Set := UserStop | AgentExited (exit_code : Z) | PolicyKill | EndTimeout | DaemonShutdown | EndError.
Inductive PauseMethod : Set := CgroupFreezer | Sigstop.
Inductive AgentState : Set := Idle | Working | WaitingState | Blocked | Verifying | Finished | PausedState.
#[export] Instance AgentState_eq_dec : EqDecision AgentState.
Proof. solve_decision. Defined.
(** What a hold could not confirm. *)
Inductive Detail : Type :=
| Unacknowledged (a : Acknowledgement)
| NotStopped (pending : Z)
| NotEnded (pending : Z)
| BarrierUnconfirmed.
Inductive SessionEvent : Type :=
| SessionPaused (method : PauseMethod) (reason : text)
| SessionPauseUnsettled (method : PauseMethod) (reason : text) (unconfirmed : option Acknowledgement) (pending : Z)
| SessionResumed (paused_for : Z)
| WorkloadsTerminated (ended pending : Z) (barrier_confirmed : bool)
| AgentStateChanged (s : AgentState)
| CommandStarted (pid : Z)
| CommandFinished (pid : Z)
| LaunchAborted (pid : Z)
| CredentialGranted (service subject : list byte) (permissions : list (list byte)) (expires_ms : Z)
| CredentialGrantedLaunch (launch_seq : Z)
| QuestionDecided (a : Approval) (o : Outcome)
| SessionEnded (reason : EndReason)
| AnotherEvent.
Definition hold_record (method : PauseMethod) (reason : text) (unsettled : option Z) (unconfirmed : option Acknowledgement) : SessionEvent :=
  match unsettled, unconfirmed with
  | None, None => SessionPaused method reason
  | pending, ack => SessionPauseUnsettled method (from_option (unconfirmed_reason reason) reason ack) ack (default 0 pending)
  end.
Definition hold_uncertainty (unsettled : option Z) (unconfirmed : option Acknowledgement) : option Detail :=
  match unsettled, unconfirmed with
  | _, Some a => Some (Unacknowledged a)
  | Some n, None => Some (NotStopped n)
  | None, None => None
  end.
Definition unsettled_detail (unconfirmed : option Acknowledgement) (pending : Z) : Detail :=
  match unconfirmed with Some a => Unacknowledged a | None => NotStopped pending end.
Definition terminated_detail (pending : Z) (barrier : bool) : option Detail :=
  if 0 <? pending then Some (NotEnded pending) else if barrier then None else Some BarrierUnconfirmed.

(** ** The intent of an operation *)
Inductive Verb : Type :=
| VerbPause (reason : text)
| VerbStop (reason : EndReason)
| VerbCapture (reason : text) (c : Capturer)
| VerbResume.
Record Intent := MkIntent { in_op : text; in_started_ms : Z; in_verb : Verb }.

(** ** The lifecycle *)
Inductive Lifecycle : Set := Running | Pausing | LPaused | Resuming | Stopping | Stopped | Incomplete.
#[export] Instance Lifecycle_eq_dec : EqDecision Lifecycle.
Proof. solve_decision. Defined.
Definition in_flight (s : Lifecycle) : bool := match s with Pausing | Resuming => true | _ => false end.
Definition admits_launch (s : Lifecycle) : bool := match s with Running => true | _ => false end.
Definition holds (s : Lifecycle) : bool := match s with LPaused | Stopping | Incomplete => true | _ => false end.
Inductive Operation : Set := OpPause | OpResume | OpStop | OpHoldForStop | OpHoldForCapture | OpLaunch.
Definition enters (op : Operation) : Lifecycle :=
  match op with
  | OpPause | OpHoldForCapture => Pausing
  | OpResume => Resuming
  | OpStop | OpHoldForStop => Stopping
  | OpLaunch => Running
  end.
(** Why an operation is refused. *)
Inductive Refusal : Type :=
| LaunchRefused (s : Lifecycle)
| LogSealed
| NotPaused
| InFlight (s : Lifecycle) (op : Operation)
| StopBegun
| StoppingRefused (op : Operation)
| AlreadyPaused
| HeldForCapture (c : Capturer).
Definition held_by_any (h : Holders) : bool := ho_user h || ho_stop h || negb (bool_decide (ho_captures h = [])).
Definition transition (s : Lifecycle) (h : Holders) (op : Operation) : result Refusal Lifecycle :=
  match op with
  | OpLaunch => if admits_launch s then Ok Running else Err (LaunchRefused s)
  | _ =>
    match s, op with
    | Stopped, _ => Err LogSealed
    | Running, OpResume => Err NotPaused
    | Running, _ => Ok (enters op)
    | (Pausing | Resuming), _ => Err (InFlight s op)
    | (Stopping | LPaused | Incomplete), (OpStop | OpHoldForStop) => Ok Stopping
    | Stopping, OpResume => Err StopBegun
    | Stopping, OpPause =>
        if negb (held_by_any h) then Err (StoppingRefused op)
        else if ho_user h || ho_stop h then Err AlreadyPaused else Ok s
    | (LPaused | Incomplete), OpPause => if ho_user h || ho_stop h then Err AlreadyPaused else Ok s
    | (LPaused | Incomplete), OpResume =>
        if ho_stop h then Err StopBegun
        else match ho_user h, ho_captures h with
             | false, c :: _ => Err (HeldForCapture c)
             | _, _ => Ok Resuming
             end
    | Stopping, OpHoldForCapture => if negb (held_by_any h) then Err (StoppingRefused op) else Ok s
    | (LPaused | Incomplete), OpHoldForCapture => Ok s
    | _, OpLaunch => Err (LaunchRefused s)
    end
  end.

(** ** The launch register *)
Inductive LaunchState : Set := LaunchOpen | LaunchFinished | LaunchAbortedState | LaunchUnknown.
#[export] Instance LaunchState_eq_dec : EqDecision LaunchState.
Proof. solve_decision. Defined.
Record LaunchRecord := MkLaunch { la_handle : Z; la_pid : Z; la_admitted : Z; la_state : LaunchState; la_ended : option Z }.
Definition Launches : Type := list LaunchRecord.
Definition launches_admit (handle pid now : Z) (l : Launches) : Launches :=
  if existsb (λ r, la_handle r =? handle) l then l else l ++ [MkLaunch handle pid now LaunchOpen None].
Definition is_open (handle : Z) (r : LaunchRecord) : bool := (la_handle r =? handle) && bool_decide (la_state r = LaunchOpen).
Definition launches_end (handle : Z) (st : LaunchState) (now : Z) (l : Launches) : bool * Launches :=
  if existsb (is_open handle) l
  then (true, alter_first (is_open handle) (λ r, MkLaunch (la_handle r) (la_pid r) (la_admitted r) st (Some now)) l)
  else (false, l).
Definition launches_open (l : Launches) : list LaunchRecord := List.filter (λ r, bool_decide (la_state r = LaunchOpen)) l.
Definition launches_state_of (handle : Z) (l : Launches) : option LaunchState :=
  la_state <$> List.find (λ r, la_handle r =? handle) l.

(** ** The session's directory *)
Record Disk := MkDisk {
  d_marker : option text;
  (** the owners of the hold; [Some None] is a file that cannot be read *)
  d_held_by : option (option Holders);
  d_intent : option Intent;
  d_stop : bool;
  d_log : list SessionEvent;
  d_sealed : bool;
  d_launches : Launches;
}.
Definition DEFAULT_REASON : text := txt "ward pause".
Definition STOP_REASON : text := txt "ward stop".
Definition reason_text (reason : text) : text :=
  let reason := trim_matches is_whitespace reason in if bool_decide (reason = []) then DEFAULT_REASON else reason.
Definition marker_text (reason : text) : text := reason ++ [10].
Definition verb_lifecycle (v : Verb) : Lifecycle :=
  match v with VerbPause _ | VerbCapture _ _ => Pausing | VerbResume => Resuming | VerbStop _ => Stopping end.
Definition lifecycle_marks (d : Disk) : Lifecycle * option Intent :=
  match d_intent d with
  | Some i => (verb_lifecycle (in_verb i), Some i)
  | None =>
      (if d_sealed d then Stopped else if d_stop d then Stopping
       else if bool_decide (is_Some (d_marker d)) then LPaused else Running, None)
  end.
Definition readable_holders (d : Disk) : option Holders := d_held_by d ≫= id.
Definition launch_admission (d : Disk) : result Refusal unit :=
  _ ← transition (lifecycle_marks d).1 (default no_holders (readable_holders d)) OpLaunch; Ok tt.

(** What the log says of the hold: [unconfirmed_detail] of [acks.rs]. *)
Definition detail_step (detail : option Detail) (e : SessionEvent) : option Detail :=
  match e with
  | SessionPauseUnsettled _ _ a n => Some (unsettled_detail a n)
  | WorkloadsTerminated _ n b => terminated_detail n b
  | SessionPaused _ _ | SessionResumed _ | SessionEnded _ => None
  | _ => detail
  end.
Definition unconfirmed_detail (log : list SessionEvent) : option Detail := foldl detail_step None log.
Record LifecycleReport := MkReport {
  rp_state : Lifecycle; rp_detail : option (text + Detail); rp_op : option text; rp_held_by : list Owner; rp_open : list Z }.
Definition lifecycle_on_disk (dead : list Z) (d : Disk) : result unit LifecycleReport :=
  let '(s, intent) := lifecycle_marks d in
  let '(s, detail, op) :=
    match intent with
    | Some i => (s, match in_verb i with VerbPause r | VerbCapture r _ => Some (inl r) | _ => None end, Some (in_op i))
    | None =>
        if holds s then match unconfirmed_detail (d_log d) with Some x => (Incomplete, Some (inr x), None) | None => (s, None, None) end
        else (s, None, None)
    end in
  held ← match d_marker d with
         | Some _ =>
             h ← match d_held_by d with None => Ok for_user | Some None => Err tt | Some (Some h) => Ok h end;
             let h := prune_dead dead h in
             Ok (owners (if d_stop d then with_stop h else h))
         | None => Ok []
         end;
  Ok (MkReport s detail op held (la_handle <$> launches_open (d_launches d))).

(** What a restarted daemon reads back: [read_log_tail] of [daemon.rs]. *)
Record LogTail := MkTail {
  t_held : bool; t_agent : option AgentState; t_launches : list (Z * Z); t_unconfirmed : option Detail }.
Definition remove_last {A} (p : A → bool) (l : list A) : list A := reverse (remove_first p (reverse l)).
Definition tail_step (t : LogTail) (r : Z * SessionEvent) : LogTail :=
  let '(seq, e) := r in
  match e with
  | AgentStateChanged s => MkTail (t_held t) (Some s) (t_launches t) (t_unconfirmed t)
  | SessionPaused _ _ => MkTail true (t_agent t) (t_launches t) None
  | SessionPauseUnsettled _ _ a n => MkTail true (t_agent t) (t_launches t) (Some (unsettled_detail a n))
  | SessionResumed _ => MkTail false (t_agent t) (t_launches t) None
  | WorkloadsTerminated _ n b => MkTail ((0 <? n) || negb b) (t_agent t) (t_launches t) (terminated_detail n b)
  | CommandStarted pid => MkTail (t_held t) (t_agent t) (t_launches t ++ [(seq, pid)]) (t_unconfirmed t)
  | CommandFinished pid | LaunchAborted pid =>
      MkTail (t_held t) (t_agent t) (remove_last (λ x, x.2 =? pid) (t_launches t)) (t_unconfirmed t)
  | _ => t
  end.
Definition numbered (log : list SessionEvent) : list (Z * SessionEvent) := imap (λ i e, (Z.of_nat i, e)) log.
Definition read_log_tail (log : list SessionEvent) : LogTail := foldl tail_step (MkTail false None [] None) (numbered log).
