(* ===== verification/Session.v ===== *)
(** * Session: pausing, holding, resuming and stopping a session, and restarting on one
      ([crates/ward-daemon/src/daemon.rs], [pause.rs])

    The daemon's lifecycle operations as programs over a [World]: the session's directory, what
    the daemon has in memory, and the session's processes.  A program performs one effect after
    the other; what the host does at each is an [Answer], which the operation takes from a list:
    whether the effect succeeds, how much of it is left behind when it does not, whether the
    daemon dies there, what a freeze, a thaw or a turn of the kill loop reached, what the
    components report, and what others did in the meantime (a process that ends, a client that launches one, connections at
    the approvals).  So a statement about every list of answers is one about every failure and
    every crash, at every point.  Running out of answers is a crash.  [reconcile] is what a
    daemon does when it starts on the directory. *)

From stdpp Require Import base numbers option gmap sorting strings list.
From S2P Require Import Prelude Bytes Http Approvals Pause.
Local Open Scope Z_scope.

(** ** The world *)
Record Frozen := MkFrozen { fr_method : PauseMethod; fr_pids : list Z; fr_cgroup : option text }.
Record Termination := MkTermination {
  tm_method : PauseMethod; tm_ended : Z; tm_remaining : option Frozen; tm_barrier : bool }.
Record Paused := MkPaused { p_frozen : Frozen; p_since : Z; p_holders : Holders; p_ended : Z }.
(** One turn of the loop that kills the session's processes: what the rescan found, and what
    has not ended. *)
Record Round := MkRound { rd_found : list Z; rd_present : list Z }.
(** How much of an effect that fails, or dies, is left behind. *)
Inductive Landing : Set := Untouched | Partial | Whole.
Record Answer := MkAnswer {
  a_crash : bool; a_ok : bool; a_landing : Landing;
  a_exits : bool; a_launch : bool; a_approvals : option State;
  a_frozen : Frozen; a_stable : bool; a_count : Z; a_ack : AckOutcome; a_scan : list Z; a_round : Round; a_rounds : list Round;
  a_now : Z; a_ms : Z; a_op : text; a_dead : list Z }.
Record Served := MkServed {
  s_log : bool;
  s_paused : option Paused;
  s_unconfirmed : option Detail;
  s_approvals : State;
  s_open_launches : list (Z * Z * Z);
  s_agent : option AgentState;
  s_launches : Launches }.
Definition Served_new : Served := MkServed true None None State_new [] None [].
Record World := MkWorld {
  w_disk : Disk;
  w_served : Served;
  (** the session's processes: whether any exists, and whether any is held stopped *)
  w_exist : bool;
  w_stopped : bool;
  w_locked : bool;
  (** facts: some effect failed, a marker could not be written, and a thaw or a kill left a
      process stopped *)
  w_faults : bool;
  w_unmarked : bool;
  w_missed : bool;
  w_host : list Answer }.

Definition with_disk (d : Disk) (w : World) : World :=
  MkWorld d (w_served w) (w_exist w) (w_stopped w) (w_locked w) (w_faults w) (w_unmarked w) (w_missed w) (w_host w).
Definition with_served (s : Served) (w : World) : World :=
  MkWorld (w_disk w) s (w_exist w) (w_stopped w) (w_locked w) (w_faults w) (w_unmarked w) (w_missed w) (w_host w).
Definition with_procs (exist stopped : bool) (w : World) : World :=
  MkWorld (w_disk w) (w_served w) exist stopped (w_locked w) (w_faults w) (w_unmarked w) (w_missed w) (w_host w).
Definition with_lock_flag (b : bool) (w : World) : World :=
  MkWorld (w_disk w) (w_served w) (w_exist w) (w_stopped w) b (w_faults w) (w_unmarked w) (w_missed w) (w_host w).
Definition with_host (h : list Answer) (w : World) : World :=
  MkWorld (w_disk w) (w_served w) (w_exist w) (w_stopped w) (w_locked w) (w_faults w) (w_unmarked w) (w_missed w) h.
Definition note_fault (w : World) : World :=
  MkWorld (w_disk w) (w_served w) (w_exist w) (w_stopped w) (w_locked w) true (w_unmarked w) (w_missed w) (w_host w).
Definition note_unmarked (w : World) : World :=
  MkWorld (w_disk w) (w_served w) (w_exist w) (w_stopped w) (w_locked w) true true (w_missed w) (w_host w).
Definition note_missed (w : World) : World :=
  MkWorld (w_disk w) (w_served w) (w_exist w) (w_stopped w) (w_locked w) (w_faults w) (w_unmarked w) true (w_host w).

Definition set_marker (x : option text) (d : Disk) : Disk :=
  MkDisk x (d_held_by d) (d_intent d) (d_stop d) (d_log d) (d_sealed d) (d_launches d).
Definition set_held_by (x : option (option Holders)) (d : Disk) : Disk :=
  MkDisk (d_marker d) x (d_intent d) (d_stop d) (d_log d) (d_sealed d) (d_launches d).
Definition set_intent (x : option Intent) (d : Disk) : Disk :=
  MkDisk (d_marker d) (d_held_by d) x (d_stop d) (d_log d) (d_sealed d) (d_launches d).
Definition set_stop (d : Disk) : Disk :=
  MkDisk (d_marker d) (d_held_by d) (d_intent d) true (d_log d) (d_sealed d) (d_launches d).
Definition add_record (e : SessionEvent) (d : Disk) : Disk :=
  MkDisk (d_marker d) (d_held_by d) (d_intent d) (d_stop d) (d_log d ++ [e]) (d_sealed d) (d_launches d).
Definition set_sealed (d : Disk) : Disk :=
  MkDisk (d_marker d) (d_held_by d) (d_intent d) (d_stop d) (d_log d) true (d_launches d).
Definition set_register (x : Launches) (d : Disk) : Disk :=
  MkDisk (d_marker d) (d_held_by d) (d_intent d) (d_stop d) (d_log d) (d_sealed d) x.

Definition set_log (b : bool) (s : Served) : Served :=
  MkServed b (s_paused s) (s_unconfirmed s) (s_approvals s) (s_open_launches s) (s_agent s) (s_launches s).
Definition set_hold (p : option Paused) (s : Served) : Served :=
  MkServed (s_log s) p (s_unconfirmed s) (s_approvals s) (s_open_launches s) (s_agent s) (s_launches s).
Definition set_unconfirmed (x : option Detail) (s : Served) : Served :=
  MkServed (s_log s) (s_paused s) x (s_approvals s) (s_open_launches s) (s_agent s) (s_launches s).
Definition set_approvals (x : State) (s : Served) : Served :=
  MkServed (s_log s) (s_paused s) (s_unconfirmed s) x (s_open_launches s) (s_agent s) (s_launches s).
Definition set_open (x : list (Z * Z * Z)) (s : Served) : Served :=
  MkServed (s_log s) (s_paused s) (s_unconfirmed s) (s_approvals s) x (s_agent s) (s_launches s).
Definition set_agent (x : option AgentState) (s : Served) : Served :=
  MkServed (s_log s) (s_paused s) (s_unconfirmed s) (s_approvals s) (s_open_launches s) x (s_launches s).
Definition set_launches (x : Launches) (s : Served) : Served :=
  MkServed (s_log s) (s_paused s) (s_unconfirmed s) (s_approvals s) (s_open_launches s) (s_agent s) x.

(** ** Programs *)
Inductive Why : Type :=
| Refused (r : Refusal) | AppendFailed | Sealed | UnreadableHolders | CaptureUnconfirmed
| ReleaseUnconfirmed (a : Acknowledgement) | HoldUnconfirmed (a : Acknowledgement)
| StopIncomplete (ended pending : Z) | StopUnconfirmed (a : Acknowledgement) | StopNotFinished | Wrapped.
Inductive Error : Type := ErrDaemon (why : Why) | ErrIo.
Inductive Res (A : Type) : Type := Done (a : A) | Failed (e : Error) | Crashed.
Arguments Done {A} a.
Arguments Failed {A} e.
Arguments Crashed {A}.
Definition M (A : Type) : Type := World → Res A * World.
#[export] Instance M_ret : MRet M := λ A a w, (Done a, w).
#[export] Instance M_bind : MBind M := λ A B f m w,
  match m w with
  | (Done a, w) => f a w
  | (Failed e, w) => (Failed e, w)
  | (Crashed, w) => (Crashed, w)
  end.
Definition fail {A} (e : Error) : M A := λ w, (Failed e, w).
(** A result that is looked at, or dropped ([let _ =]). *)
Definition attempt {A} (m : M A) : M (result Error A) := λ w,
  match m w with
  | (Done a, w) => (Done (Ok a), w)
  | (Failed e, w) => (Done (Err e), w)
  | (Crashed, w) => (Crashed, w)
  end.
Definition ignore {A} (m : M A) : M unit := _ ← attempt m; mret tt.
Definition map_error {A} (f : Error → Error) (m : M A) : M A := λ w,
  match m w with (Failed e, w) => (Failed (f e), w) | r => r end.
Definition gets {A} (f : World → A) : M A := λ w, (Done (f w), w).
Definition modify (f : Served → Served) : M unit := λ w, (Done tt, with_served (f (w_served w)) w).
Fixpoint each {A} (f : A → M unit) (l : list A) : M unit :=
  match l with [] => mret tt | x :: l => _ ← f x; each f l end.

(** ** Effects *)
(** The approvals of a session that is not paused have nothing suspended and every clock running:
    what their own connections leave (see Approvals.v and Hold.v). *)
Definition clock_runs (h : Held) : bool :=
  match h_clock h with Some c => bool_decide (is_Some (ck_running_since c)) | None => true end.
Definition in_step (s : State) : bool :=
  paused s
  || forallb (λ c, negb (bool_decide (cr_state c = Suspended))) (credentials s)
     && forallb (λ e : (list byte * list byte) * Grant, negb (bool_decide (gr_state e.2 = Suspended))) (map_to_list (remembered s))
     && forallb clock_runs (held s).
(** What others did since the last effect: the approvals' connections never pause or resume, and
    a client's launch is admitted under the session's lock by what the directory says. *)
Definition others (a : Answer) (w : World) : World :=
  let w := match a_approvals a with
           | Some s =>
               let s := set_pause_flag s (paused (s_approvals (w_served w))) in
               if in_step s then with_served (set_approvals s (w_served w)) w else w
           | None => w
           end in
  let w := if a_exits a then with_procs false false w else w in
  if a_launch a && negb (w_locked w) && is_ok (launch_admission (w_disk w)) then with_procs true (w_stopped w) w else w.
Definition effect {A} (act : Answer → World → Res A * World) : M A := λ w,
  match w_host w with
  | [] => (Crashed, w)
  | a :: rest => act a (others a (with_host rest w))
  end.
Definition landed (a : Answer) (whole partial : Disk → Disk) (w : World) : World :=
  match a_landing a with
  | Untouched => w
  | Partial => with_disk (partial (w_disk w)) w
  | Whole => with_disk (whole (w_disk w)) w
  end.
(** A change to the directory: it happens, or fails or dies with some of it left behind. *)
Definition write (whole partial : Disk → Disk) (note : World → World) (e : Error) : M unit := effect (λ a w,
  if a_crash a then (Crashed, landed a whole partial w)
  else if a_ok a then (Done tt, with_disk (whole (w_disk w)) w)
  else (Failed e, note (landed a whole partial w))).
(** A file is removed, or is not. *)
Definition unlink (whole : Disk → Disk) : M unit := effect (λ a w,
  if a_crash a then (Crashed, landed a whole id w)
  else if a_ok a then (Done tt, with_disk (whole (w_disk w)) w)
  else (Failed ErrIo, note_fault w)).
(** Something the daemon learns, or does in memory. *)
Definition learn {A} (f : Answer → World → A * World) : M A := effect (λ a w,
  if a_crash a then (Crashed, w) else let '(x, w) := f a w in (Done x, w)).

Definition write_marker (reason : text) : M unit :=
  write (set_marker (Some (marker_text reason))) (set_marker (Some [])) note_unmarked ErrIo.
Definition clear_marker : M unit := unlink (set_marker None).
Definition write_held_by (h : Holders) : M unit := write (set_held_by (Some (Some h))) (set_held_by (Some None)) note_fault ErrIo.
Definition clear_held_by : M unit := unlink (set_held_by None).
Definition write_stop_marker : M unit := write set_stop set_stop note_fault ErrIo.
(** The intent is renamed into place: there is no part of it. *)
Definition record_intent (v : Verb) : M unit := effect (λ a w,
  let whole := set_intent (Some (MkIntent (a_op a) (a_ms a) v)) in
  if a_crash a then (Crashed, landed a whole id w)
  else if a_ok a then (Done tt, with_disk (whole (w_disk w)) w)
  else (Failed ErrIo, note_fault (landed a whole id w))).
Definition clear_intent : M unit := write (set_intent None) id note_fault ErrIo.
Definition write_register (l : Launches) : M unit := write (set_register l) id note_fault ErrIo.
Definition raw_append (e : SessionEvent) : M Z :=
  log ← gets (λ w, s_log (w_served w));
  if negb log then fail (ErrDaemon Sealed)
  else seq ← gets (λ w, Z.of_nat (length (d_log (w_disk w))));
    _ ← write (add_record e) id note_fault (ErrDaemon AppendFailed);
    mret seq.
Definition take_lock : M unit := effect (λ a w,
  if a_crash a then (Crashed, w) else if a_ok a then (Done tt, with_lock_flag true w) else (Failed ErrIo, note_fault w)).
(** The lock of the session, held to the end of the function that takes it. *)
Definition with_lock {A} (m : M A) : M A := λ w,
  match take_lock w with
  | (Done _, w) => let '(r, w) := m w in (r, with_lock_flag false w)
  | (Failed e, w) => (Failed e, w)
  | (Crashed, w) => (Crashed, w)
  end.

(** *** Processes *)
Definition hold_procs (w : World) : World := with_procs (w_exist w) (w_stopped w || w_exist w) w.
Definition freeze : M (Frozen * bool) := effect (λ a w,
  if a_crash a then (Crashed, match a_landing a with Untouched => w | _ => hold_procs w end)
  else (Done (a_frozen a, a_stable a), hold_procs w)).
Definition freeze_for_capture : M (Frozen * bool) := effect (λ a w,
  if a_crash a then (Crashed, match a_landing a with Untouched => w | _ => hold_procs w end)
  else if bool_decide (fr_pids (a_frozen a) = []) then (Done (a_frozen a, true), w)
  else (Done (a_frozen a, a_stable a), hold_procs w)).
Definition stabilize (f : Frozen) : M (Frozen * bool) := effect (λ a w,
  if a_crash a then (Crashed, match a_landing a with Untouched => w | _ => hold_procs w end)
  else (Done (MkFrozen (fr_method f) (fr_pids (a_frozen a)) (fr_cgroup f), a_stable a), hold_procs w)).
(** A thaw and a kill address the cgroup, or the processes that were recorded, and drop every
    error.  Whether they reached all that is stopped is the host's answer; nothing recorded
    reaches nothing.  A process they did not reach stays stopped, and nothing says so. *)
Definition reached (f : Frozen) (a : Answer) : bool :=
  a_ok a && (bool_decide (is_Some (fr_cgroup f)) || negb (bool_decide (fr_pids f = []))).
Definition let_run (f : Frozen) (a : Answer) (w : World) : World :=
  if reached f a then with_procs (w_exist w) false w else if w_stopped w then note_missed w else w.
Definition thaw (f : Frozen) : M unit := effect (λ a w,
  if a_crash a then (Crashed, match a_landing a with Whole => let_run f a w | _ => w end)
  else (Done tt, let_run f a w)).
Definition kill_frozen (f : Frozen) : M unit := effect (λ a w,
  if a_crash a then (Crashed, w) else (Done tt, let_run f a w)).

(** The loop of [terminate_with]: every process found is killed and watched; it ends at the first
    turn after which nothing that was seen is present, or at the last one before the deadline,
    which is the last of [rounds]. *)
Definition see (seen : list Z) (pid : Z) : list Z := if bool_decide (pid ∈ seen) then seen else seen ++ [pid].
Definition saturated_u32 (n : nat) : Z := Z.of_nat n `min` u32_max.
Fixpoint terminate_loop (seen : list Z) (round : Round) (rounds : list Round) : Z * list Z :=
  let seen := foldl see seen (rd_found round) in
  let pending := List.filter (λ pid, bool_decide (pid ∈ rd_present round)) seen in
  let result := (saturated_u32 (length seen - length pending), pending) in
  match rounds with
  | [] => result
  | next :: rounds => if bool_decide (pending = []) then result else terminate_loop seen next rounds
  end.
Definition terminate_with (frozen : list Z) (round : Round) (rounds : list Round) : Z * list Z :=
  terminate_loop (foldl see [] frozen) round rounds.
Definition nothing_to_terminate : Termination := MkTermination Sigstop 0 None true.
(** The tree is frozen (again, when a hold has it), killed and watched.  A first scan that finds
    nothing, and a watch that ends with everything seen gone behind a confirmed barrier, are
    taken to have seen every process of the session. *)
Definition terminate (held : option Frozen) : M Termination := effect (λ a w,
  if a_crash a then (Crashed, match a_landing a with Untouched => w | _ => hold_procs w end)
  else match held, a_scan a with
  | None, [] => (Done nothing_to_terminate, with_procs false false w)
  | _, _ =>
      let frozen := match held with
                    | Some f => MkFrozen (fr_method f) (fr_pids (a_frozen a)) (fr_cgroup f)
                    | None => a_frozen a
                    end in
      let '(ended, pending) := terminate_with (fr_pids frozen) (a_round a) (a_rounds a) in
      let cgroup := if bool_decide (pending = []) then None else fr_cgroup frozen in
      let remaining := if negb (bool_decide (pending = [])) || negb (a_stable a)
                       then Some (MkFrozen (fr_method frozen) pending cgroup) else None in
      (Done (MkTermination (fr_method frozen) ended remaining (a_stable a)),
       match remaining with None => with_procs false false w | Some _ => hold_procs w end)
  end).
(** How many of the frozen are not stopped, when that was not confirmed in time. *)
Definition count_unsettled (stable : bool) : M (option Z) := learn (λ a w,
  (if stable then None else if a_count a =? 0 then None else Some (a_count a), w)).
Definition settle (f : Frozen) : M (option Z) := learn (λ a w,
  (if a_stable a then None else if a_count a =? 0 then None else Some (a_count a), w)).

(** *** Approvals and components *)
Definition pause_approvals (p : bool) : M unit := learn (λ a w,
  (tt, with_served (set_approvals (set_paused p (a_now a) (a_ms a) (s_approvals (w_served w))) (w_served w)) w)).
Definition confirm_one (p : Phase) (c : Component) : M Acknowledgement := learn (λ a w,
  let s := s_approvals (w_served w) in
  match c with
  | Proxy => (MkAck c (a_ack a), w)
  | ApprovalsComponent => (MkAck c (confirm_approvals (a_now a) p s), w)
  | Credentials => let '(o, s) := confirm_credentials (a_ms a) p s in
                   (MkAck c o, with_served (set_approvals s (w_served w)) w)
  end).
Fixpoint confirm_each (p : Phase) (l : list Component) : M (list Acknowledgement) :=
  match l with
  | [] => mret []
  | c :: l => a ← confirm_one p c; acks ← confirm_each p l; mret (a :: acks)
  end.
Definition confirm_components (p : Phase) : M (list Acknowledgement) :=
  confirm_each p (match p with PhaseHeld => HOLD_ORDER | PhaseReleased => release_order end).
Definition now_instant : M Z := learn (λ a w, (a_now a, w)).
Definition instant_at (unix_ms : Z) : M Z := learn (λ a w,
  (let t := a_now a - saturating_sub (a_ms a) unix_ms * 1000000 in if 0 <=? t then t else a_now a, w)).
Definition wall_ms : M Z := learn (λ a w, (a_ms a, w)).

(** ** Appends and their bookkeeping *)
Definition INTERNAL_CONN : Z := u64_max.
Definition hold_of (w : World) : option Paused := s_paused (w_served w).
Definition marker_exists (w : World) : bool := bool_decide (is_Some (d_marker (w_disk w))).
Definition modify_approvals (f : State → State) : M unit := modify (λ s, set_approvals (f (s_approvals s)) s).
Definition register_launch (handle pid : Z) : M unit :=
  now ← wall_ms;
  _ ← modify (λ s, set_launches (launches_admit handle pid now (s_launches s)) s);
  l ← gets (λ w, s_launches (w_served w));
  ignore (write_register l).
Definition end_launch (handle : Z) (st : LaunchState) : M unit :=
  now ← wall_ms;
  l ← gets (λ w, s_launches (w_served w));
  let '(ended, l) := launches_end handle st now l in
  if ended then _ ← modify (set_launches l); ignore (write_register l) else mret tt.
Definition host_of_subject (subject : list byte) : list byte :=
  match rsplit_once ":"%char subject with Some (h, _) => h | None => subject end.
(** The launch of a connection that was opened last. *)
Definition conn_launch (conn : Z) (l : list (Z * Z * Z)) : option Z :=
  (λ x, x.1.2) <$> List.find (λ x : Z * Z * Z, x.1.1 =? conn) (reverse l).
Definition expires_at (granted_at expires : Z) : option Z :=
  if expires <=? u64_max then Some ((granted_at + expires) `min` u64_max) else None.
Definition record_credential_grant (service subject : list byte) (permissions : list (list byte)) (key : option Z) (expires : Z) : M Z :=
  granted_at ← wall_ms;
  id ← (λ w, let '(id, s) := record_credential_with_expiry service (host_of_subject subject) permissions key granted_at
                               (expires_at granted_at expires) (s_approvals (w_served w)) in
             (Done id, with_served (set_approvals s (w_served w)) w)) : M Z;
  _ ← match key with Some launch_seq => ignore (raw_append (CredentialGrantedLaunch launch_seq)) | None => mret tt end;
  mret id.
Definition launch_started (conn seq pid : Z) : M unit :=
  _ ← modify (λ s, set_open (s_open_launches s ++ [(conn, seq, pid)]) s);
  register_launch seq pid.
Definition launch_of (conn pid : Z) (x : Z * Z * Z) : bool := (x.1.1 =? conn) && (x.2 =? pid).
Definition launch_finished (conn pid : Z) (st : LaunchState) : M unit :=
  l ← gets (λ w, s_open_launches (w_served w));
  match List.find (launch_of conn pid) (reverse l) with
  | None => mret tt
  | Some (_, key, _) =>
      _ ← modify (set_open (remove_last (launch_of conn pid) l));
      _ ← modify_approvals (retire_launch key);
      end_launch key st
  end.
(** An append, with what its record means to the daemon; the grant it makes, if it is one. *)
Definition handle_append (conn : Z) (e : SessionEvent) : M (option Z) :=
  key ← gets (λ w, conn_launch conn (s_open_launches (w_served w)));
  seq ← raw_append e;
  match e with
  | AgentStateChanged st => _ ← modify (set_agent (Some st)); mret None
  | CredentialGranted service subject permissions expires =>
      id ← record_credential_grant service subject permissions key expires; mret (Some id)
  | CommandStarted pid => _ ← launch_started conn seq pid; mret None
  | CommandFinished pid => _ ← launch_finished conn pid LaunchFinished; mret None
  | LaunchAborted pid => _ ← launch_finished conn pid LaunchAbortedState; mret None
  | _ => mret None
  end.
Definition append (e : SessionEvent) : M unit := _ ← handle_append INTERNAL_CONN e; mret tt.
Definition disconnect_open_launches (conn : Z) : M unit :=
  l ← gets (λ w, s_open_launches (w_served w));
  _ ← modify (set_open (List.filter (λ x, negb (x.1.1 =? conn)) l));
  each (λ key, _ ← modify_approvals (mark_launch_unknown key); end_launch key LaunchUnknown)
    ((λ x, x.1.2) <$> List.filter (λ x : Z * Z * Z, x.1.1 =? conn) l).
Definition abort_open_launches_for_stop : M unit :=
  l ← gets (λ w, s_open_launches (w_served w));
  each (λ x : Z * Z * Z, _ ← handle_append x.1.1 (LaunchAborted x.2); mret tt) l.
Definition close_pending_approvals : M unit :=
  now_ms ← wall_ms;
  released ← (λ w, let '(released, s) := close now_ms (s_approvals (w_served w)) in
                   (Done released, with_served (set_approvals s (w_served w)) w)) : M (list (Approval * Outcome));
  each (λ e : Approval * Outcome, ignore (append (QuestionDecided e.1 e.2))) released.
(** Sealing gives up the log whether or not it succeeds. *)
Definition seal_log : M unit :=
  _ ← modify (set_log false);
  write set_sealed id note_fault (ErrDaemon Sealed).

(** ** The lifecycle *)
Definition lifecycle (w : World) : Lifecycle :=
  if negb (s_log (w_served w)) then Stopped
  else
    let stop_begun := d_stop (w_disk w) in
    match hold_of w with
    | Some p =>
        if bool_decide (is_Some (s_unconfirmed (w_served w))) then Incomplete
        else if ho_stop (p_holders p) || stop_begun then Stopping else LPaused
    | None => if stop_begun then Stopping else Running
    end.
Definition with_holders (h : Holders) (p : Paused) : Paused := MkPaused (p_frozen p) (p_since p) h (p_ended p).
Definition prune : M unit := learn (λ a w,
  (tt, with_served (set_hold ((λ p, with_holders (prune_dead (a_dead a) (p_holders p)) p) <$> hold_of w) (w_served w)) w)).
Definition current_holders (w : World) : Holders := from_option p_holders no_holders (hold_of w).
Definition enter (op : Operation) : M Lifecycle :=
  _ ← prune;
  r ← gets (λ w, transition (lifecycle w) (current_holders w) op);
  match r with Ok s => mret s | Err e => fail (ErrDaemon (Refused e)) end.

(** ** Pausing *)
Definition put_hold (p : option Paused) : M unit := modify (set_hold p).
Definition put_unconfirmed (x : option Detail) : M unit := modify (set_unconfirmed x).
Definition take_hold : M (option Paused) := p ← gets hold_of; _ ← put_hold None; mret p.
(** [a.and_then(b)] of results, and [?] on one that was kept. *)
Definition of_result {A} (r : result Error A) : M A := match r with Ok a => mret a | Err e => fail e end.
Definition take_back_user_layer (fresh : bool) (f : Frozen) (since : Z) (before : Holders) (ended : Z) (unconfirmed : option Detail) : M unit :=
  if fresh then
    _ ← pause_approvals false; _ ← ignore clear_marker; _ ← ignore clear_held_by; thaw f
  else
    _ ← match ho_captures before with c :: _ => ignore (write_marker (cp_reason c)) | [] => mret tt end;
    _ ← ignore (write_held_by before);
    _ ← put_unconfirmed unconfirmed;
    put_hold (Some (MkPaused f since before ended)).
Record PauseOutcome := MkOutcome { po_record : SessionEvent; po_unsettled : option Z; po_unconfirmed : option Acknowledgement }.
Definition is_confirmed_pause (e : SessionEvent) : bool := match e with SessionPaused _ _ => true | _ => false end.
Definition pause_entered (reason : text) : M PauseOutcome :=
  let reason := reason_text reason in
  _ ← record_intent (VerbPause reason);
  with_lock (
    layered ← take_hold;
    layered_unconfirmed ← gets (λ w, s_unconfirmed (w_served w));
    _ ← put_unconfirmed None;
    '(frozen, since, before, ended) ←
      match layered with
      | Some p => mret (p_frozen p, p_since p, p_holders p, p_ended p)
      | None => '(f, _) ← freeze; now ← now_instant; mret (f, now, no_holders, 0)
      end;
    let fresh := holders_empty before in
    let holders := with_user true before in
    marked ← attempt (_ ← write_marker reason; write_held_by holders);
    match marked with
    | Err e =>
        _ ← take_back_user_layer fresh frozen since before ended layered_unconfirmed;
        _ ← ignore clear_intent;
        fail e
    | Ok _ =>
        _ ← pause_approvals true;
        unsettled ← settle frozen;
        acks ← confirm_components PhaseHeld;
        let unconfirmed := first_unconfirmed acks in
        let event := hold_record (fr_method frozen) reason unsettled unconfirmed in
        let uncertain := hold_uncertainty unsettled unconfirmed in
        recorded ← attempt (append event);
        match recorded with
        | Err e =>
            if is_confirmed_pause event then
              _ ← take_back_user_layer fresh frozen since before ended layered_unconfirmed;
              _ ← ignore clear_intent;
              fail e
            else
              _ ← put_unconfirmed uncertain;
              _ ← put_hold (Some (MkPaused frozen since holders ended));
              fail (ErrDaemon Wrapped)
        | Ok _ =>
            _ ← ignore clear_intent;
            _ ← put_unconfirmed uncertain;
            _ ← put_hold (Some (MkPaused frozen since holders ended));
            mret (MkOutcome event unsettled unconfirmed)
        end
    end).
Definition pause (reason : text) : M PauseOutcome := _ ← enter OpPause; pause_entered reason.

(** ** Releasing *)
Definition read_marker_reason (w : World) : text := reason_text (default [] (d_marker (w_disk w))).
Fixpoint release_components (marker_reason : text) (p : Paused) (l : list Component) : M unit :=
  match l with
  | [] => mret tt
  | c :: l =>
      cleared ← (if bool_decide (c = Proxy) then attempt clear_marker else mret (Ok tt));
      match cleared with
      | Err e => _ ← pause_approvals true; _ ← put_hold (Some p); fail e
      | Ok _ =>
          ack ← confirm_one PhaseReleased c;
          if confirmed ack then release_components marker_reason p l
          else
            _ ← pause_approvals true;
            _ ← put_hold (Some p);
            _ ← (if bool_decide (c = Proxy) then ignore (write_marker marker_reason) else mret tt);
            fail (ErrDaemon (ReleaseUnconfirmed ack))
      end
  end.
(** The record of the end of a hold. *)
Definition release_hold (p : Paused) : M SessionEvent :=
  marker_reason ← gets read_marker_reason;
  _ ← pause_approvals false;
  _ ← release_components marker_reason p release_order;
  _ ← ignore clear_held_by;
  _ ← thaw (p_frozen p);
  now ← now_instant;
  let e := SessionResumed (saturating_sub now (p_since p)) in
  _ ← append e;
  mret e.
Definition resume_entered : M SessionEvent :=
  with_lock (
    held ← take_hold;
    match held with
    | None => fail (ErrDaemon (Refused NotPaused))
    | Some p =>
        recorded ← attempt (record_intent VerbResume);
        match recorded with
        | Err e => _ ← put_hold (Some p); fail e
        | Ok _ =>
            match ho_captures (p_holders p) with
            | c :: _ =>
                let q := with_holders (with_user false (p_holders p)) p in
                relabelled ← attempt (_ ← write_held_by (p_holders q); write_marker (cp_reason c));
                match relabelled with
                | Err e =>
                    _ ← put_hold (Some (with_holders (with_user true (p_holders q)) q));
                    _ ← ignore clear_intent;
                    fail e
                | Ok _ =>
                    _ ← put_hold (Some q);
                    let e := hold_record (fr_method (p_frozen q)) (cp_reason c) None None in
                    _ ← append e;
                    _ ← ignore clear_intent;
                    mret e
                end
            | [] =>
                released ← attempt (release_hold p);
                _ ← ignore clear_intent;
                of_result released
            end
        end
    end).
Definition resume : M SessionEvent := _ ← enter OpResume; resume_entered.

(** ** Holding for a capture *)
Definition unsettled_or_zero (stable : bool) : M (option Z) :=
  if stable then mret None else n ← count_unsettled false; mret (Some (default 0 n)).
Definition new_operation_id : M text := effect (λ a w,
  if a_crash a then (Crashed, w) else if a_ok a then (Done (a_op a), w) else (Failed ErrIo, note_fault w)).
Definition set_holders (h : Holders) : M unit := p ← gets hold_of; put_hold (with_holders h <$> p).
Definition take_back_capture (f : Frozen) : M unit :=
  _ ← pause_approvals false; _ ← ignore clear_held_by; _ ← ignore clear_marker; _ ← thaw f; ignore clear_intent.
Definition hold_for_capture_entered (reason : text) (pid : Z) (started : text) : M (option text) :=
  with_lock (
    op ← new_operation_id;
    let capturer := MkCapturer op pid started reason in
    held ← take_hold;
    match held with
    | Some p =>
        '(frozen, stable) ← stabilize (p_frozen p);
        unsettled ← unsettled_or_zero stable;
        let before := p_holders p in
        let holders := add_capture capturer before in
        _ ← put_hold (Some (MkPaused frozen (p_since p) holders (p_ended p)));
        acks ← confirm_components PhaseHeld;
        if bool_decide (is_Some unsettled) || bool_decide (is_Some (first_unconfirmed acks)) then
          _ ← set_holders before; fail (ErrDaemon CaptureUnconfirmed)
        else
          written ← attempt (write_held_by holders);
          match written with
          | Err e => _ ← set_holders before; fail e
          | Ok _ => mret (Some op)
          end
    | None =>
        _ ← record_intent (VerbCapture reason capturer);
        '(frozen, stable) ← freeze_for_capture;
        if bool_decide (fr_pids frozen = []) then _ ← ignore clear_intent; mret None
        else
          let holders := for_capture capturer in
          marked ← attempt (_ ← write_marker reason; write_held_by holders);
          match marked with
          | Err e => _ ← take_back_capture frozen; fail e
          | Ok _ =>
              _ ← pause_approvals true;
              acks ← confirm_components PhaseHeld;
              unsettled ← unsettled_or_zero stable;
              if bool_decide (is_Some unsettled) || bool_decide (is_Some (first_unconfirmed acks)) then
                _ ← take_back_capture frozen; fail (ErrDaemon CaptureUnconfirmed)
              else
                recorded ← attempt (append (hold_record (fr_method frozen) reason None None));
                match recorded with
                | Err e => _ ← take_back_capture frozen; fail e
                | Ok _ =>
                    _ ← ignore clear_intent;
                    _ ← put_unconfirmed None;
                    now ← now_instant;
                    _ ← put_hold (Some (MkPaused frozen now holders 0));
                    mret (Some op)
                end
          end
    end).
Definition hold_for_capture (reason : text) (pid : Z) (started : text) : M (option text) :=
  _ ← enter OpHoldForCapture; hold_for_capture_entered reason pid started.
Definition captured_by (op : text) (p : Paused) : bool := existsb (λ c, bool_decide (cp_op c = op)) (ho_captures (p_holders p)).
Definition prune_holders (h : Holders) : M Holders := learn (λ a w, (prune_dead (a_dead a) h, w)).
Definition release_capture (op : text) : M (option SessionEvent) :=
  held ← gets hold_of;
  if negb (from_option (captured_by op) false held) then mret None
  else with_lock (
    held ← take_hold;
    match held with
    | None => mret None
    | Some p =>
        remaining ← prune_holders (remove_capture op (p_holders p));
        if holders_empty remaining then e ← release_hold p; mret (Some e)
        else
          written ← attempt (write_held_by remaining);
          _ ← put_hold (Some (with_holders remaining p));
          _ ← of_result written;
          mret None
    end).

(** ** Holding for a stop *)
Definition hold_for_stop_entered (reason : text) : M (option Z) :=
  with_lock (
    _ ← record_intent (VerbPause (reason_text reason));
    _ ← write_stop_marker;
    held ← take_hold;
    match held with
    | Some p =>
        '(frozen, stable) ← stabilize (p_frozen p);
        unsettled ← unsettled_or_zero stable;
        exists_ ← gets marker_exists;
        marker ← (if exists_ : bool then mret (Ok tt) else attempt (write_marker (reason_text reason))) : M (result Error unit);
        _ ← pause_approvals true;
        let holders := with_stop (p_holders p) in
        owners ← attempt (write_held_by holders);
        _ ← put_unconfirmed (hold_uncertainty unsettled None);
        _ ← put_hold (Some (MkPaused frozen (p_since p) holders (p_ended p)));
        _ ← of_result marker;
        _ ← of_result owners;
        _ ← ignore clear_intent;
        acks ← confirm_components PhaseHeld;
        match first_unconfirmed acks with
        | Some ack => _ ← put_unconfirmed (hold_uncertainty unsettled (Some ack)); fail (ErrDaemon (HoldUnconfirmed ack))
        | None => mret unsettled
        end
    | None =>
        let reason := reason_text reason in
        '(frozen, stable) ← freeze;
        marked ← attempt (write_marker reason);
        match marked with
        | Err e => _ ← thaw frozen; fail e
        | Ok _ =>
            _ ← pause_approvals true;
            unsettled ← unsettled_or_zero stable;
            owners ← attempt (write_held_by for_stop);
            _ ← put_unconfirmed (hold_uncertainty unsettled None);
            now ← now_instant;
            _ ← put_hold (Some (MkPaused frozen now for_stop 0));
            _ ← of_result owners;
            acks ← confirm_components PhaseHeld;
            let unconfirmed := first_unconfirmed acks in
            _ ← match unconfirmed with
                | Some _ => put_unconfirmed (hold_uncertainty unsettled unconfirmed)
                | None => mret tt
                end;
            _ ← map_error (λ _, ErrDaemon Wrapped) (append (hold_record (fr_method frozen) reason unsettled unconfirmed));
            _ ← ignore clear_intent;
            match unconfirmed with Some ack => fail (ErrDaemon (HoldUnconfirmed ack)) | None => mret unsettled end
        end
    end).
Definition hold_for_stop (reason : text) : M (option Z) := _ ← enter OpHoldForStop; hold_for_stop_entered reason.

(** ** Stopping *)
Definition saturating_add_u32 (a b : Z) : Z := (a + b) `min` u32_max.
Definition pending_of (t : Termination) : Z := match tm_remaining t with None => 0 | Some f => Z.of_nat (length (fr_pids f)) `min` u32_max end.
Definition STOP_SETTLE_SECS : Z := 2.
Definition stop_hold_reason (pending : Z) : text :=
  txt "ward stop: " ++ dec_text pending ++ txt " process(es) not confirmed ended within " ++ dec_text STOP_SETTLE_SECS ++ txt "s".
Definition since_or_now (since : option Z) : M Z := match since with Some t => mret t | None => now_instant end.
Definition hold_for_incomplete_stop (remaining : Frozen) (since : option Z) (ended : Z) (barrier : bool) : M Error :=
  let pending := Z.of_nat (length (fr_pids remaining)) `min` u32_max in
  _ ← attempt (write_marker (stop_hold_reason pending));
  _ ← ignore (write_held_by for_stop);
  _ ← put_unconfirmed (Some (if 0 <? pending then NotEnded pending else BarrierUnconfirmed));
  since ← since_or_now since;
  _ ← put_hold (Some (MkPaused remaining since for_stop 0));
  logged ← attempt (append (WorkloadsTerminated ended pending barrier));
  _ ← (if is_ok logged then ignore clear_intent else mret tt);
  mret (ErrDaemon (StopIncomplete ended pending)).
Definition hold_for_unconfirmed_stop (ack : Acknowledgement) (method : PauseMethod) (since : option Z) (ended : Z) : M Error :=
  _ ← attempt (write_marker (unconfirmed_reason STOP_REASON ack));
  _ ← ignore (write_held_by for_stop);
  since ← since_or_now since;
  _ ← put_hold (Some (MkPaused (MkFrozen method [] None) since for_stop ended));
  _ ← put_unconfirmed (Some (Unacknowledged ack));
  logged ← attempt (append (hold_record method STOP_REASON None (Some ack)));
  _ ← (if is_ok logged then ignore clear_intent else mret tt);
  mret (ErrDaemon (StopUnconfirmed ack)).
(** The processes are gone: the components confirm the hold before that is recorded. *)
Definition end_confirmed (method : PauseMethod) (since : option Z) (ended : Z) (retrying : bool) : M Z :=
  acks ← confirm_components PhaseHeld;
  match first_unconfirmed acks with
  | Some ack => e ← hold_for_unconfirmed_stop ack method since ended; fail (A:=Z) e
  | None =>
      _ ← ignore clear_marker;
      _ ← ignore clear_held_by;
      _ ← (if (0 <? ended) || retrying
           then map_error (λ _, ErrDaemon Wrapped) (append (WorkloadsTerminated ended 0 true))
           else mret tt);
      mret ended
  end.
Definition end_workloads : M Z :=
  with_lock (
    _ ← map_error (λ _, ErrDaemon Wrapped) write_stop_marker;
    held ← take_hold;
    let since := p_since <$> held in
    let retrying := from_option (λ p, ho_stop (p_holders p)) false held in
    let carried := from_option p_ended 0 held in
    exists_ ← gets marker_exists;
    _ ← (if exists_ : bool then mret tt else map_error (λ _, ErrDaemon Wrapped) (write_marker STOP_REASON)) : M unit;
    _ ← pause_approvals true;
    outcome ← terminate (p_frozen <$> held);
    let ended := saturating_add_u32 (tm_ended outcome) carried in
    match tm_remaining outcome with
    | None => end_confirmed (tm_method outcome) since ended retrying
    | Some remaining => e ← hold_for_incomplete_stop remaining since ended (tm_barrier outcome); fail (A:=Z) e
    end).
(** The end of the session's record; sealing answers with the number of processes ended. *)
Definition end_session (reason : EndReason) (ended : Z) : M Z :=
  _ ← abort_open_launches_for_stop;
  agent ← gets (λ w, s_agent (w_served w));
  _ ← (if bool_decide (agent = Some Finished) then mret tt else append (AgentStateChanged Finished));
  _ ← close_pending_approvals;
  _ ← raw_append (SessionEnded reason);
  _ ← seal_log;
  _ ← ignore clear_intent;
  mret ended.
Definition stop_entered (reason : EndReason) : M Z :=
  _ ← record_intent (VerbStop reason);
  ended ← end_workloads;
  end_session reason ended.
Definition stop (reason : EndReason) : M Z :=
  log ← gets (λ w, s_log (w_served w));
  if negb log then fail (ErrDaemon Sealed)
  else _ ← enter OpStop; stop_entered reason.
(** Closing the log alone; what a hold froze is killed rather than left stopped. *)
Definition seal_request : M unit :=
  held ← take_hold;
  _ ← match held with
      | Some p => _ ← kill_frozen (p_frozen p); _ ← ignore clear_marker; ignore clear_held_by
      | None => mret tt
      end;
  _ ← close_pending_approvals;
  log ← gets (λ w, s_log (w_served w));
  if negb log then fail (ErrDaemon Sealed) else seal_log.

(** ** Restarting *)
Definition read_holders : M (option Holders) :=
  h ← gets (λ w, d_held_by (w_disk w));
  match h with None => mret None | Some None => fail (ErrDaemon UnreadableHolders) | Some (Some h) => mret (Some h) end.
Definition recorded_holders : M Holders :=
  read ← read_holders;
  marked ← gets marker_exists;
  h ← prune_holders (default (if marked : bool then for_user else no_holders) read);
  stop ← gets (λ w, d_stop (w_disk w));
  mret (if stop : bool then with_stop h else h).
(** When the marker was written, as far as the host says. *)
Definition marker_since : M Z := now_instant.
Definition adopt_hold (reason : text) (since : Z) (recorded : bool) (logged : option Detail) (holders : Holders) : M unit :=
  with_lock (
    '(frozen, stable) ← freeze;
    marked ← gets marker_exists;
    _ ← (if marked : bool then mret tt else write_marker reason) : M unit;
    _ ← write_held_by holders;
    _ ← pause_approvals true;
    unsettled ← count_unsettled stable;
    acks ← confirm_components PhaseHeld;
    let unconfirmed := first_unconfirmed acks in
    _ ← (if negb recorded || bool_decide (is_Some unconfirmed)
         then append (hold_record (fr_method frozen) reason unsettled unconfirmed) else mret tt);
    _ ← put_unconfirmed (match hold_uncertainty unsettled unconfirmed with Some x => Some x | None => logged end);
    put_hold (Some (MkPaused frozen since holders 0))).
(** Let go of what a hold left behind that the log says is over. *)
Definition let_go (f : Frozen) : M unit :=
  _ ← pause_approvals false; _ ← ignore clear_marker; _ ← ignore clear_held_by; thaw f.
(** A release that is refused leaves the hold standing; an error of the directory is reported. *)
Definition release_or_stand (p : Paused) : M unit :=
  r ← attempt (release_hold p);
  match r with Ok _ | Err (ErrDaemon _) => mret tt | Err e => fail e end.
Definition finish_resume (since : Z) (recorded : bool) : M unit :=
  with_lock (
    '(frozen, _) ← freeze;
    let p := MkPaused frozen since for_user 0 in
    _ ← put_unconfirmed None;
    if negb recorded then let_go frozen
    else
      marked ← gets marker_exists;
      _ ← (if marked : bool then mret tt else write_marker DEFAULT_REASON) : M unit;
      _ ← write_held_by (p_holders p);
      _ ← pause_approvals true;
      release_or_stand p).
Definition release_orphaned_hold (since : Z) (recorded : bool) : M unit :=
  with_lock (
    '(frozen, _) ← freeze;
    let p := MkPaused frozen since no_holders 0 in
    _ ← put_unconfirmed None;
    if negb recorded then let_go frozen
    else _ ← pause_approvals true; release_or_stand p).
Definition register_missing (x : Z * Z * Z) : M unit :=
  l ← gets (λ w, s_launches (w_served w));
  match launches_state_of x.1.2 l with
  | Some _ => mret tt
  | None =>
      now ← wall_ms;
      let l := launches_admit x.1.2 x.2 now l in
      _ ← modify (set_launches l);
      ignore (write_register l)
  end.
Definition read_launch_register (open : list (Z * Z)) : M unit :=
  l ← gets (λ w, d_launches (w_disk w));
  _ ← modify (set_launches l);
  let open := (λ x, (INTERNAL_CONN, x.1, x.2)) <$>
    List.filter (λ x : Z * Z, negb (bool_decide (launches_state_of x.1 l = Some LaunchUnknown))) open in
  _ ← modify (set_open open);
  each register_missing open.
Definition finish_stop (reason : EndReason) (logged : option Detail) : M bool :=
  marked ← gets marker_exists;
  _ ← (if marked : bool then
         reason ← gets read_marker_reason;
         since ← marker_since;
         h ← recorded_holders;
         adopt_hold reason since true logged (with_stop h)
       else mret tt) : M unit;
  answer ← attempt (stop reason);
  intent ← gets (λ w, d_intent (w_disk w));
  match intent with
  | Some _ => fail (ErrDaemon StopNotFinished)
  | None => sealed ← gets (λ w, negb (s_log (w_served w))); mret sealed
  end.
Definition reconcile_entered : M bool :=
  tail ← gets (λ w, read_log_tail (d_log (w_disk w)));
  _ ← modify (set_agent (t_agent tail));
  _ ← read_launch_register (t_launches tail);
  intent ← gets (λ w, d_intent (w_disk w));
  match intent with
  | Some (MkIntent _ started v) =>
      match v with
      | VerbStop reason => finish_stop reason (t_unconfirmed tail)
      | VerbPause reason =>
          h ← recorded_holders;
          since ← instant_at started;
          _ ← adopt_hold (reason_text reason) since (t_held tail) (t_unconfirmed tail) (with_user true h);
          _ ← clear_intent;
          mret false
      | VerbResume =>
          marked ← gets marker_exists;
          since ← (if marked : bool then marker_since else instant_at started) : M Z;
          _ ← finish_resume since (t_held tail);
          _ ← clear_intent;
          mret false
      | VerbCapture _ capturer =>
          h ← recorded_holders;
          let h := remove_capture (cp_op capturer) h in
          marked ← gets marker_exists;
          reason ← gets read_marker_reason;
          since ← (if marked : bool then marker_since else instant_at started) : M Z;
          _ ← (if holders_empty h then release_orphaned_hold since (t_held tail)
               else adopt_hold (if marked : bool then reason else cp_reason capturer) since (t_held tail) (t_unconfirmed tail) h);
          _ ← clear_intent;
          mret false
      end
  | None =>
      marked ← gets marker_exists;
      if marked : bool then
        reason ← gets read_marker_reason;
        since ← marker_since;
        h ← recorded_holders;
        _ ← (if holders_empty h then release_orphaned_hold since (t_held tail)
             else adopt_hold reason since (t_held tail) (t_unconfirmed tail) h);
        mret false
      else mret false
  end.
(** A daemon that starts on the session: nothing is in memory, and the log is opened. *)
Definition restart : M bool := λ w,
  let w := with_lock_flag false (with_served Served_new w) in
  if d_sealed (w_disk w) then (Failed (ErrDaemon Sealed), w) else reconcile_entered w.

(** ** Requests, crashes and restarts *)
Inductive Request : Type :=
| Pause (reason : text)
| Resume
| HoldForCapture (reason : text) (pid : Z) (started : text)
| ReleaseCapture (op : text)
| HoldForStop (reason : text)
| Stop (reason : EndReason)
| Seal
| Append (conn : Z) (e : SessionEvent)
| Disconnect (conn : Z).
Definition void {A} (m : M A) : M unit := _ ← m; mret tt.
Definition handle (r : Request) : M unit :=
  match r with
  | Pause reason => void (pause reason)
  | Resume => void resume
  | HoldForCapture reason pid started => void (hold_for_capture reason pid started)
  | ReleaseCapture op => void (release_capture op)
  | HoldForStop reason => void (hold_for_stop reason)
  | Stop reason => void (stop reason)
  | Seal => seal_request
  | Append conn e => void (handle_append conn e)
  | Disconnect conn => disconnect_open_launches conn
  end.
(** Where the session is: served by a daemon, or without one. *)
Inductive Where : Set := Serving | Down.
Definition after {A} (served : A → bool) (r : Res A) : Where :=
  match r with Done a => if served a then Serving else Down | Failed _ => Serving | Crashed => Down end.
(** A request that may be asked is served, or others act, or the daemon dies, or one starts; a
    start that fails or seals ends. *)
Inductive step (asked : Request → bool) : Where * World → Where * World → Prop :=
| step_request r host w : asked r = true →
    step asked (Serving, w) (let '(x, w') := handle r (with_host host w) in (after (λ _, true) x, w'))
| step_others a w at_ : step asked (at_, w) (at_, others a w)
| step_crash w : step asked (Serving, w) (Down, with_lock_flag false w)
| step_restart host w :
    step asked (Down, w) (let '(x, w') := restart (with_host host w) in
                          (match x with Done false => Serving | _ => Down end, w')).
Definition anything (r : Request) : bool := true.
Definition no_captures (r : Request) : bool := match r with HoldForCapture _ _ _ => false | _ => true end.
Definition Disk_new : Disk := MkDisk None None None false [] false [].
(** A session that has just started, with or without a process. *)
Definition World_new (exist : bool) : World := MkWorld Disk_new Served_new exist false false false false false [].
Definition reachable (asked : Request → bool) (x : Where * World) : Prop := ∃ exist, rtc (step asked) (Serving, World_new exist) x.
