(* ===== verification/SessionLogic.v ===== *)
(** * SessionLogic: rules for the programs of Session.v

    What every program respects is proved once, for any relation that its effects respect.  What
    the operations do to the few facts that matter (is there a marker, an intent, a hold, a
    stopped process) is followed effect by effect over a [View] of the world: a rule per effect,
    the invariant of a session at rest ([rest]) and of one without a daemon ([down]), and the
    tactics [follow], which goes through a program with those rules, and [finish], which decides
    what is left at each of its ends by evaluating the booleans of the view. *)

From stdpp Require Import base numbers option gmap sorting strings list relations.
From S2P Require Import Prelude Bytes Http Approvals Pause Session.
Local Open Scope Z_scope.

(** ** What every program respects *)
Section respects.
Context (R : World → World → Prop) `{!PreOrder R}.
Record effects_respect : Prop := MkEffects {
  re_others a w : R w (others a w);
  re_host h w : R w (with_host h w);
  re_served s w : R w (with_served s w);
  re_lock b w : R w (with_lock_flag b w);
  re_fault w : R w (note_fault w);
  re_unmarked w : R w (note_unmarked w);
  re_missed w : R w (note_missed w);
  re_marker x w : R w (with_disk (set_marker x (w_disk w)) w);
  re_held_by x w : R w (with_disk (set_held_by x (w_disk w)) w);
  re_intent x w : R w (with_disk (set_intent x (w_disk w)) w);
  re_stop w : R w (with_disk (set_stop (w_disk w)) w);
  re_record e w : R w (with_disk (add_record e (w_disk w)) w);
  re_sealed w : R w (with_disk (set_sealed (w_disk w)) w);
  re_register x w : R w (with_disk (set_register x (w_disk w)) w);
  re_hold w : R w (hold_procs w);
  re_thaw w : R w (with_procs (w_exist w) false w);
  re_gone w : R w (with_procs false false w);
}.
Context (HR : effects_respect).
Definition respects {A} (m : M A) : Prop := ∀ w, R w (m w).2.
Lemma respects_ret {A} (a : A) : respects (mret a).
Proof. intros w. reflexivity. Qed.
Lemma respects_fail {A} e : respects (fail (A:=A) e).
Proof. intros w. reflexivity. Qed.
Lemma respects_gets {A} (f : World → A) : respects (gets f).
Proof. intros w. reflexivity. Qed.
Lemma respects_bind {A B} (m : M A) (f : A → M B) : respects m → (∀ a, respects (f a)) → respects (m ≫= f).
Proof.
  intros Hm Hf w. unfold mbind, M_bind. specialize (Hm w). destruct (m w) as [[a|e|] w']; cbn in *; [|done|done]. etrans; [done|apply Hf].
Qed.
Lemma respects_attempt {A} (m : M A) : respects m → respects (attempt m).
Proof. intros Hm w. unfold attempt. specialize (Hm w). by destruct (m w) as [[]]. Qed.
Lemma respects_map_error {A} f (m : M A) : respects m → respects (map_error f m).
Proof. intros Hm w. unfold map_error. specialize (Hm w). by destruct (m w) as [[]]. Qed.
Lemma respects_modify f : respects (modify f).
Proof. intros w. apply HR. Qed.
Lemma respects_effect {A} (act : Answer → World → Res A * World) : (∀ a w, R w (act a w).2) → respects (effect act).
Proof.
  intros Hact w. unfold effect. destruct (w_host w) as [|a rest]; [done|]. etrans; [apply (re_host HR rest)|]. etrans; [apply (re_others HR a)|]. apply Hact.
Qed.
Lemma respects_learn {A} (f : Answer → World → A * World) : (∀ a w, R w (f a w).2) → respects (learn f).
Proof. intros Hf. apply respects_effect. intros a w. destruct (a_crash a); [done|]. specialize (Hf a w). by destruct (f a w). Qed.
Lemma respects_landed whole partial a w :
  (∀ w, R w (with_disk (whole (w_disk w)) w)) → (∀ w, R w (with_disk (partial (w_disk w)) w)) → R w (landed a whole partial w).
Proof. intros ??. unfold landed. destruct (a_landing a); done || auto. Qed.
Lemma respects_disk_id w : R w (with_disk (id (w_disk w)) w).
Proof. by destruct w. Qed.
Lemma respects_write whole partial note e :
  (∀ w, R w (with_disk (whole (w_disk w)) w)) → (∀ w, R w (with_disk (partial (w_disk w)) w)) → (∀ w, R w (note w)) →
  respects (write whole partial note e).
Proof.
  intros Hw Hp Hn. apply respects_effect. intros a w. destruct (a_crash a); [by apply respects_landed|]. destruct (a_ok a); [apply Hw|].
  etrans; [by apply (respects_landed whole partial a)|apply Hn].
Qed.
Lemma respects_unlink whole : (∀ w, R w (with_disk (whole (w_disk w)) w)) → respects (unlink whole).
Proof.
  intros Hw. apply respects_effect. intros a w. destruct (a_crash a); [apply respects_landed; [done|apply respects_disk_id]|].
  destruct (a_ok a); [apply Hw|apply HR].
Qed.
Lemma respects_with_lock {A} (m : M A) : respects m → respects (with_lock m).
Proof.
  intros Hm w. unfold with_lock. assert (respects take_lock) as Hl.
  { apply respects_effect. intros a w'. destruct (a_crash a); [done|]. destruct (a_ok a); apply HR. }
  specialize (Hl w). destruct (take_lock w) as [[]w1]; cbn in *; [|done|done]. specialize (Hm w1). destruct (m w1) as [r w2]. cbn in *.
  etrans; [done|]. etrans; [done|]. apply HR.
Qed.
Lemma respects_state {A} (f : World → A * Served) : respects (λ w, let '(x, s) := f w in (Done x, with_served s w)).
Proof. intros w. destruct (f w). apply HR. Qed.
Lemma respects_each {A} (f : A → M unit) l : (∀ x, respects (f x)) → respects (each f l).
Proof. intros Hf. induction l as [|x l IH]; cbn; [apply respects_ret|]. by apply respects_bind; [|intros _]. Qed.

Create HintDb respects.
Ltac resp_step :=
  match goal with
  | |- ∀ _, _ => intros
  | |- respects (mret _) => apply respects_ret
  | |- respects (fail _) => apply respects_fail
  | |- respects (gets _) => apply respects_gets
  | |- respects (modify _) => apply respects_modify
  | |- respects (_ ≫= _) => apply respects_bind
  | |- respects (attempt _) => apply respects_attempt
  | |- respects (map_error _ _) => apply respects_map_error
  | |- respects (with_lock _) => apply respects_with_lock
  | |- respects (each _ _) => apply respects_each
  | |- respects (match ?x with _ => _ end) => destruct x
  | |- respects _ => solve [auto with respects nocore]
  end.
Ltac resp := repeat resp_step; auto with respects nocore.
Ltac resp_effect := apply respects_effect; intros a w; repeat case_match; cbn [snd]; try reflexivity; try apply HR.

Lemma respects_ignore {A} (m : M A) : respects m → respects (ignore m).
Proof. intros. unfold ignore. resp. Qed.
Lemma respects_write_marker x : respects (write_marker x).
Proof. apply respects_write; apply HR. Qed.
Lemma respects_clear_marker : respects clear_marker.
Proof. apply respects_unlink, HR. Qed.
Lemma respects_write_held_by x : respects (write_held_by x).
Proof. apply respects_write; apply HR. Qed.
Lemma respects_clear_held_by : respects clear_held_by.
Proof. apply respects_unlink, HR. Qed.
Lemma respects_write_stop_marker : respects write_stop_marker.
Proof. apply respects_write; apply HR. Qed.
Lemma respects_record_intent v : respects (record_intent v).
Proof.
  apply respects_effect. intros a w. assert (R w (landed a (set_intent (Some (MkIntent (a_op a) (a_ms a) v))) id w)) as H.
  { apply respects_landed; [intros; apply HR|intros; apply respects_disk_id]. }
  destruct (a_crash a); [done|]. destruct (a_ok a); [apply HR|]. etrans; [exact H|apply HR].
Qed.
Lemma respects_clear_intent : respects clear_intent.
Proof. apply respects_write; try apply HR. apply respects_disk_id. Qed.
Lemma respects_write_register x : respects (write_register x).
Proof. apply respects_write; try apply HR. apply respects_disk_id. Qed.
Lemma respects_raw_append e : respects (raw_append e).
Proof. unfold raw_append. resp. apply respects_write; try apply HR. apply respects_disk_id. Qed.
Lemma respects_seal_log : respects seal_log.
Proof. unfold seal_log. resp. apply respects_write; try apply HR. apply respects_disk_id. Qed.
Lemma respects_freeze : respects freeze.
Proof. resp_effect. Qed.
Lemma respects_freeze_for_capture : respects freeze_for_capture.
Proof. resp_effect. Qed.
Lemma respects_stabilize f : respects (stabilize f).
Proof. resp_effect. Qed.
Lemma respects_let_run f a w : R w (let_run f a w).
Proof. unfold let_run. destruct (reached f a); [apply HR|]. destruct (w_stopped w); [apply HR|done]. Qed.
Lemma respects_thaw f : respects (thaw f).
Proof. apply respects_effect. intros a w. destruct (a_crash a); [destruct (a_landing a)|]; cbn; done || apply respects_let_run. Qed.
Lemma respects_kill_frozen f : respects (kill_frozen f).
Proof. apply respects_effect. intros a w. destruct (a_crash a); cbn; done || apply respects_let_run. Qed.
Lemma respects_terminate f : respects (terminate f).
Proof.
  apply respects_effect. intros a w. destruct (a_crash a); [destruct (a_landing a); cbn; done || apply HR|].
  destruct f as [f|]; [|destruct (a_scan a); [apply HR|]]; cbv zeta; case_match; case_match; apply HR.
Qed.
Lemma respects_new_operation_id : respects new_operation_id.
Proof. resp_effect. Qed.
Lemma respects_count_unsettled b : respects (count_unsettled b).
Proof. apply respects_learn. done. Qed.
Lemma respects_settle f : respects (settle f).
Proof. apply respects_learn. done. Qed.
Lemma respects_now_instant : respects now_instant.
Proof. apply respects_learn. done. Qed.
Lemma respects_instant_at x : respects (instant_at x).
Proof. apply respects_learn. done. Qed.
Lemma respects_wall_ms : respects wall_ms.
Proof. apply respects_learn. done. Qed.
Lemma respects_prune_holders h : respects (prune_holders h).
Proof. apply respects_learn. done. Qed.
Lemma respects_pause_approvals p : respects (pause_approvals p).
Proof. apply respects_learn. intros. apply HR. Qed.
Lemma respects_prune : respects prune.
Proof. apply respects_learn. intros. apply HR. Qed.
Lemma respects_confirm_one p c : respects (confirm_one p c).
Proof. apply respects_learn. intros a w. destruct c; cbv zeta; [done|done|]. destruct (confirm_credentials (a_ms a) p (s_approvals (w_served w))). apply HR. Qed.
#[local] Hint Resolve respects_ignore respects_write_marker respects_clear_marker respects_write_held_by respects_clear_held_by
  respects_write_stop_marker respects_record_intent respects_clear_intent respects_write_register respects_raw_append respects_seal_log
  respects_freeze respects_freeze_for_capture respects_stabilize respects_thaw respects_kill_frozen respects_terminate
  respects_new_operation_id respects_count_unsettled respects_settle respects_now_instant respects_instant_at respects_wall_ms
  respects_prune_holders respects_pause_approvals respects_prune respects_confirm_one : respects.
Lemma respects_confirm_each p l : respects (confirm_each p l).
Proof. induction l; cbn; resp. Qed.
Lemma respects_confirm_components p : respects (confirm_components p).
Proof. apply respects_confirm_each. Qed.
#[local] Hint Resolve respects_confirm_components : respects.
Lemma respects_end_launch k st : respects (end_launch k st).
Proof. unfold end_launch. resp. Qed.
Lemma respects_register_launch k pid : respects (register_launch k pid).
Proof. unfold register_launch. resp. Qed.
#[local] Hint Resolve respects_end_launch respects_register_launch : respects.
Lemma respects_handle_append conn e : respects (handle_append conn e).
Proof.
  unfold handle_append, record_credential_grant, launch_started, launch_finished, modify_approvals. resp.
  intros w. destruct (record_credential_with_expiry _ _ _ _ _ _ _). apply HR.
Qed.
#[local] Hint Resolve respects_handle_append : respects.
Lemma respects_append e : respects (append e).
Proof. unfold append. resp. Qed.
#[local] Hint Resolve respects_append : respects.
Lemma respects_close_pending_approvals : respects close_pending_approvals.
Proof. unfold close_pending_approvals. resp. intros w. destruct (close _ _). apply HR. Qed.
Lemma respects_enter op : respects (enter op).
Proof. unfold enter. resp. Qed.
Lemma respects_take_hold : respects take_hold.
Proof. unfold take_hold, put_hold. resp. Qed.
Lemma respects_put_hold p : respects (put_hold p).
Proof. apply respects_modify. Qed.
Lemma respects_put_unconfirmed p : respects (put_unconfirmed p).
Proof. apply respects_modify. Qed.
Lemma respects_of_result {A} (r : result Error A) : respects (of_result r).
Proof. unfold of_result. resp. Qed.
#[local] Hint Resolve respects_close_pending_approvals respects_enter respects_take_hold respects_put_hold respects_put_unconfirmed
  respects_of_result : respects.
Lemma respects_pause reason : respects (pause reason).
Proof. unfold pause, pause_entered, take_back_user_layer. resp. Qed.
Lemma respects_release_components r p l : respects (release_components r p l).
Proof. induction l; cbn; resp. Qed.
#[local] Hint Resolve respects_release_components : respects.
Lemma respects_release_hold p : respects (release_hold p).
Proof. unfold release_hold. resp. Qed.
#[local] Hint Resolve respects_release_hold : respects.
Lemma respects_resume : respects resume.
Proof. unfold resume, resume_entered. resp. Qed.
Lemma respects_unsettled_or_zero b : respects (unsettled_or_zero b).
Proof. unfold unsettled_or_zero. resp. Qed.
#[local] Hint Resolve respects_unsettled_or_zero : respects.
Lemma respects_hold_for_capture reason pid started : respects (hold_for_capture reason pid started).
Proof. unfold hold_for_capture, hold_for_capture_entered, take_back_capture, set_holders. resp. Qed.
Lemma respects_release_capture op : respects (release_capture op).
Proof. unfold release_capture. resp. Qed.
Lemma respects_hold_for_stop reason : respects (hold_for_stop reason).
Proof. unfold hold_for_stop, hold_for_stop_entered. resp. Qed.
Lemma respects_end_confirmed method since n retrying : respects (end_confirmed method since n retrying).
Proof. unfold end_confirmed, hold_for_unconfirmed_stop, since_or_now. resp. Qed.
#[local] Hint Resolve respects_end_confirmed : respects.
Lemma respects_end_workloads : respects end_workloads.
Proof. unfold end_workloads, hold_for_incomplete_stop, since_or_now. resp. Qed.
#[local] Hint Resolve respects_end_workloads : respects.
Lemma respects_end_session reason n : respects (end_session reason n).
Proof. unfold end_session, abort_open_launches_for_stop. resp. Qed.
#[local] Hint Resolve respects_end_session : respects.
Lemma respects_stop reason : respects (stop reason).
Proof. unfold stop, stop_entered. resp. Qed.
#[local] Hint Resolve respects_stop : respects.
Lemma respects_handle r : respects (handle r).
Proof.
  destruct r; cbn [handle]; unfold void, seal_request, disconnect_open_launches, modify_approvals; resp;
    auto using respects_pause, respects_resume, respects_hold_for_capture, respects_release_capture, respects_hold_for_stop.
Qed.
Lemma respects_recorded_holders : respects recorded_holders.
Proof. unfold recorded_holders, read_holders. resp. Qed.
Lemma respects_adopt_hold r s b l h : respects (adopt_hold r s b l h).
Proof. unfold adopt_hold. resp. Qed.
Lemma respects_release_orphaned_hold s b : respects (release_orphaned_hold s b).
Proof. unfold release_orphaned_hold, let_go, release_or_stand. resp. Qed.
Lemma respects_finish_resume s b : respects (finish_resume s b).
Proof. unfold finish_resume, let_go, release_or_stand. resp. Qed.
#[local] Hint Resolve respects_recorded_holders respects_adopt_hold respects_release_orphaned_hold respects_finish_resume : respects.
Lemma respects_restart : respects restart.
Proof.
  assert (respects reconcile_entered) as H.
  { unfold reconcile_entered, read_launch_register, register_missing, finish_stop, marker_since. resp. }
  intros w. unfold restart. cbv zeta. assert (R w (with_lock_flag false (with_served Served_new w))) as Hw by (etrans; [apply (re_served HR Served_new)|apply (re_lock HR)]).
  destruct (d_sealed _); [exact Hw|]. etrans; [exact Hw|apply H].
Qed.
Lemma steps_respect asked at_ at' w w' : rtc (step asked) (at_, w) (at', w') → R w w'.
Proof.
  intros H. change (R (at_, w).2 (at', w').2). induction H as [x|x y z Hstep _ IH]; [done|]. etrans; [|exact IH]. clear IH.
  destruct Hstep as [r host u _|a u at1|u|host u]; cbn [snd].
  - pose proof (respects_handle r (with_host host u)) as Hr. destruct (handle r _). cbn in *. etrans; [apply (re_host HR host)|done].
  - apply HR.
  - apply HR.
  - pose proof (respects_restart (with_host host u)) as Hr. destruct (restart _). cbn in *. etrans; [apply (re_host HR host)|done].
Qed.
End respects.

(** ** What a stop leaves behind *)
(** A stop has begun, and no process of the session exists. *)
Definition ended (w : World) : Prop := d_stop (w_disk w) = true ∧ w_exist w = false.
Lemma stop_refuses_launches d : d_stop d = true → is_ok (launch_admission d) = false.
Proof.
  intros Hs. unfold launch_admission, lifecycle_marks. destruct (d_intent d) as [[op t v]|]; [by destruct v|]. rewrite Hs. by destruct (d_sealed d).
Qed.
Lemma ended_others a w : ended w → ended (others a w).
Proof.
  intros [Hs He]. unfold others. set (w1 := match a_approvals a with Some _ => _ | None => _ end).
  assert (w_disk w1 = w_disk w ∧ w_exist w1 = w_exist w) as [Ed Ee].
  { unfold w1. destruct (a_approvals a); [|done]. cbv zeta. by destruct (in_step _). }
  set (w2 := if a_exits a then _ else _). assert (w_disk w2 = w_disk w ∧ w_exist w2 = false) as [Ed2 Ee2].
  { unfold w2. destruct (a_exits a); cbn; by rewrite ?Ed, ?Ee. }
  clearbody w1 w2. rewrite Ed2, (stop_refuses_launches _ Hs), andb_false_r. split; congruence.
Qed.
#[export] Instance impl_preorder {A} (P : A → Prop) : PreOrder (λ x y, P x → P y).
Proof. split; [by intros ?|]. intros x y z ???. auto. Qed.
Lemma ended_effects : effects_respect (λ w w', ended w → ended w').
Proof. split; [exact ended_others|..]; intros; cbv beta in *; match goal with H : ended _ |- _ => destruct H; by split end. Qed.
Lemma stop_begun_effects : effects_respect (λ w w', d_stop (w_disk w) = true → d_stop (w_disk w') = true).
Proof.
  split; try (intros; cbn in *; done). intros a w Hs. unfold others. destruct (a_approvals a); cbv zeta; [destruct (in_step _)|];
    destruct (a_exits a); destruct (_ && _); cbn; done.
Qed.
Lemma bind_Done {A B} (m : M A) (f : A → M B) w b w' :
  (m ≫= f) w = (Done b, w') → ∃ a w1, m w = (Done a, w1) ∧ f a w1 = (Done b, w').
Proof. unfold mbind, M_bind. destruct (m w) as [[a| |] w1]; [|done|done]. eauto. Qed.
Lemma attempt_Done {A} (m : M A) w r w' : attempt m w = (Done r, w') → ∃ x, m w = (x, w').
Proof. unfold attempt. destruct (m w) as [[] w1]; intros [= <- <-]; eauto. Qed.
Lemma with_lock_Done {A} (m : M A) w a w' :
  with_lock m w = (Done a, w') → ∃ w1 w2, take_lock w = (Done tt, w1) ∧ m w1 = (Done a, w2) ∧ w' = with_lock_flag false w2.
Proof.
  unfold with_lock. destruct (take_lock w) as [[[]| |] w1]; [|done|done]. destruct (m w1) as [[] w2] eqn:E; intros [= <- <-]. eauto.
Qed.
Lemma map_error_Done {A} f (m : M A) w a w' : map_error f m w = (Done a, w') → m w = (Done a, w').
Proof. unfold map_error. by destruct (m w) as [[] w1]. Qed.
Ltac done_inv :=
  repeat match goal with
  | H : (_ ≫= _) _ = (Done _, _) |- _ => apply bind_Done in H as (? & ? & ? & ?)
  | H : mret _ _ = (Done _, _) |- _ => injection H as ? ?; subst
  | H : gets _ _ = (Done _, _) |- _ => injection H as ? ?; subst
  | H : fail _ _ = (Done _, _) |- _ => discriminate H
  | H : map_error _ _ _ = (Done _, _) |- _ => apply map_error_Done in H
  | H : with_lock _ _ = (Done _, _) |- _ => apply with_lock_Done in H as (? & ? & ? & ? & ?); subst
  end.
Lemma respects_Done R `{!PreOrder R} (HR : effects_respect R) {A} (m : M A) w r w' :
  respects R m → m w = (r, w') → R w w'.
Proof. intros Hm E. specialize (Hm w). by rewrite E in Hm. Qed.
Lemma write_stop_marker_Done w a w' : write_stop_marker w = (Done a, w') → d_stop (w_disk w') = true.
Proof.
  unfold write_stop_marker, write, effect. destruct (w_host w) as [|x rest]; [done|]. destruct (a_crash x); [done|].
  destruct (a_ok x); [|done]. by intros [= <- <-].
Qed.
Lemma terminate_Done f w t w' : terminate f w = (Done t, w') → tm_remaining t = None → w_exist w' = false.
Proof.
  unfold terminate, effect. destruct (w_host w) as [|x rest]; [done|]. destruct (a_crash x); [done|].
  destruct f as [f|]; [|destruct (a_scan x); [by intros [= <- <-]|]]; cbv zeta; case_match;
    (destruct (negb _ || negb _); [by intros [= <- <-]|]); by intros [= <- <-].
Qed.
Lemma end_workloads_ends w n w' : end_workloads w = (Done n, w') → ended w'.
Proof.
  intros H. unfold end_workloads in H. apply with_lock_Done in H as (w1 & w2 & _ & H & ->).
  apply bind_Done in H as (u & w3 & Hs%map_error_Done%write_stop_marker_Done & H). apply bind_Done in H as (held & w4 & H4 & H).
  apply bind_Done in H as (x & w5 & H5 & H). apply bind_Done in H as (u5 & w6 & H6 & H). apply bind_Done in H as (u6 & w7 & H7 & H).
  apply bind_Done in H as (t & w8 & H8 & H). pose proof stop_begun_effects as HS. pose proof ended_effects as HE.
  assert (d_stop (w_disk w8) = true) as Hs8.
  { eapply (respects_Done _ HS _ _ _ _ (respects_terminate _ HS _) H8). eapply (respects_Done _ HS _ _ _ _ (respects_pause_approvals _ HS _) H7).
    refine (respects_Done _ HS _ _ _ _ _ H6 _); [destruct x; [by apply respects_ret; apply _|apply respects_map_error, respects_write_marker; [apply _|done]]|].
    eapply (respects_Done _ HS _ _ _ _ (respects_gets _ _) H5). by eapply (respects_Done _ HS _ _ _ _ (respects_take_hold _ HS) H4). }
  destruct (tm_remaining t) as [f|] eqn:Et; [apply bind_Done in H as (e & ? & _ & [=])|].
  assert (ended w8) as He by (split; [done|by eapply terminate_Done]).
  assert (ended w2) as [? ?]; [|by split]. refine (respects_Done _ HE _ _ _ _ _ H He).
  by apply respects_end_confirmed; [apply _|].
Qed.

(** ** Following the operations *)
(** What matters of a world; [v_stopped] is a bound of the processes that are stopped, unless a
    thaw or a kill missed one, and
    [v_nocap] promises that no capture ever held the session. *)
Record View := MkView {
  v_marker : bool; v_intent : bool; v_stop : bool; v_held : bool; v_log : bool; v_sealed : bool;
  v_paused : bool; v_stopped : bool; v_faults : bool; v_unmarked : bool; v_nocap : bool }.
Definition owned (h : Holders) : bool := bool_decide (ho_captures h = []) && (ho_user h || ho_stop h).
Definition uncaptured (p : Paused) : bool := bool_decide (ho_captures (p_holders p) = []).
Definition not_capture (v : Verb) : bool := match v with VerbCapture _ _ => false | _ => true end.
Definition no_capture (w : World) : Prop :=
  (∀ h, d_held_by (w_disk w) = Some (Some h) → owned h = true) ∧
  (∀ p, hold_of w = Some p → uncaptured p = true) ∧
  (∀ i, d_intent (w_disk w) = Some i → not_capture (in_verb i) = true).
Definition some {A} (o : option A) : bool := match o with Some _ => true | None => false end.
Record sat (v : View) (w : World) : Prop := MkSat {
  sat_marker : some (d_marker (w_disk w)) = v_marker v;
  sat_intent : some (d_intent (w_disk w)) = v_intent v;
  sat_stop : d_stop (w_disk w) = v_stop v;
  sat_held : some (hold_of w) = v_held v;
  sat_log : s_log (w_served w) = v_log v;
  sat_sealed : d_sealed (w_disk w) = v_sealed v;
  sat_paused : paused (s_approvals (w_served w)) = v_paused v;
  sat_stopped : w_stopped w = true → w_missed w = true ∨ v_stopped v = true;
  sat_faults : w_faults w = v_faults v;
  sat_unmarked : w_unmarked w = v_unmarked v;
  sat_step : in_step (s_approvals (w_served w)) = true;
  sat_nocap : v_nocap v = true → no_capture w;
}.
Definition vmarker (b : bool) (v : View) : View :=
  MkView b (v_intent v) (v_stop v) (v_held v) (v_log v) (v_sealed v) (v_paused v) (v_stopped v) (v_faults v) (v_unmarked v) (v_nocap v).
Definition vintent (b : bool) (v : View) : View :=
  MkView (v_marker v) b (v_stop v) (v_held v) (v_log v) (v_sealed v) (v_paused v) (v_stopped v) (v_faults v) (v_unmarked v) (v_nocap v).
Definition vstop (v : View) : View :=
  MkView (v_marker v) (v_intent v) true (v_held v) (v_log v) (v_sealed v) (v_paused v) (v_stopped v) (v_faults v) (v_unmarked v) (v_nocap v).
Definition vheld (b : bool) (v : View) : View :=
  MkView (v_marker v) (v_intent v) (v_stop v) b (v_log v) (v_sealed v) (v_paused v) (v_stopped v) (v_faults v) (v_unmarked v) (v_nocap v).
Definition vlog (b : bool) (v : View) : View :=
  MkView (v_marker v) (v_intent v) (v_stop v) (v_held v) b (v_sealed v) (v_paused v) (v_stopped v) (v_faults v) (v_unmarked v) (v_nocap v).
Definition vsealed (v : View) : View :=
  MkView (v_marker v) (v_intent v) (v_stop v) (v_held v) (v_log v) true (v_paused v) (v_stopped v) (v_faults v) (v_unmarked v) (v_nocap v).
Definition vpaused (b : bool) (v : View) : View :=
  MkView (v_marker v) (v_intent v) (v_stop v) (v_held v) (v_log v) (v_sealed v) b (v_stopped v) (v_faults v) (v_unmarked v) (v_nocap v).
Definition vstopped (b : bool) (v : View) : View :=
  MkView (v_marker v) (v_intent v) (v_stop v) (v_held v) (v_log v) (v_sealed v) (v_paused v) b (v_faults v) (v_unmarked v) (v_nocap v).
Definition vfault (v : View) : View :=
  MkView (v_marker v) (v_intent v) (v_stop v) (v_held v) (v_log v) (v_sealed v) (v_paused v) (v_stopped v) true (v_unmarked v) (v_nocap v).
Definition vunmarked (v : View) : View :=
  MkView (v_marker v) (v_intent v) (v_stop v) (v_held v) (v_log v) (v_sealed v) (v_paused v) (v_stopped v) true true (v_nocap v).
Definition vnocap (b : bool) (v : View) : View :=
  MkView (v_marker v) (v_intent v) (v_stop v) (v_held v) (v_log v) (v_sealed v) (v_paused v) (v_stopped v) (v_faults v) (v_unmarked v) b.

Lemma others_fields a w :
  let w' := others a w in
  w_disk w' = w_disk w ∧ hold_of w' = hold_of w ∧ s_log (w_served w') = s_log (w_served w) ∧
  paused (s_approvals (w_served w')) = paused (s_approvals (w_served w)) ∧ (w_stopped w' = true → w_stopped w = true) ∧
  w_faults w' = w_faults w ∧ w_unmarked w' = w_unmarked w ∧ w_missed w' = w_missed w ∧
  (in_step (s_approvals (w_served w)) = true → in_step (s_approvals (w_served w')) = true).
Proof.
  unfold others, hold_of. destruct (a_approvals a) as [s|]; cbv zeta; [destruct (in_step (set_pause_flag _ _)) eqn:E|];
    destruct (a_exits a); destruct (_ && _); cbn; split_and!; done || (by intros; first [exact E|assumption]) || auto.
Qed.
Lemma sat_others v a w : sat v w → sat v (others a w).
Proof.
  intros []. destruct (others_fields a w) as (Ed & Eh & El & Ep & Es & Ef & Eu & Em & Ei). split; rewrite ?Ed, ?Eh, ?El, ?Ep, ?Ef, ?Eu, ?Em; auto.
  intros Hn. unfold no_capture. rewrite Ed, Eh. exact (sat_nocap0 Hn).
Qed.
Lemma sat_host v h w : sat v w → sat v (with_host h w).
Proof. by intros []. Qed.
Lemma sat_lock v b w : sat v w → sat v (with_lock_flag b w).
Proof. by intros []. Qed.
Lemma sat_fault v w : sat v w → sat (vfault v) (note_fault w).
Proof. by intros []. Qed.
Lemma sat_note_unmarked v w : sat v w → sat (vunmarked v) (note_unmarked w).
Proof. by intros []. Qed.
Lemma sat_weaken b v w : sat v w → sat (vnocap (v_nocap v && b) v) w.
Proof. intros []. split; try done. cbn. intros [? ?]%andb_true_iff. auto. Qed.
Lemma sat_set_marker x v w : sat v w → sat (vmarker (some x) v) (with_disk (set_marker x (w_disk w)) w).
Proof. by intros []. Qed.
Lemma sat_set_stop v w : sat v w → sat (vstop v) (with_disk (set_stop (w_disk w)) w).
Proof. by intros []. Qed.
Lemma sat_add_record e v w : sat v w → sat v (with_disk (add_record e (w_disk w)) w).
Proof. by intros []. Qed.
Lemma sat_set_sealed v w : sat v w → sat (vsealed v) (with_disk (set_sealed (w_disk w)) w).
Proof. by intros []. Qed.
Lemma sat_set_register x v w : sat v w → sat v (with_disk (set_register x (w_disk w)) w).
Proof. by intros []. Qed.
Lemma sat_set_intent x v w :
  sat v w → sat (vnocap (v_nocap v && from_option (λ i, not_capture (in_verb i)) true x) (vintent (some x) v)) (with_disk (set_intent x (w_disk w)) w).
Proof.
  intros []. split; try done. cbn. intros [Hn Hx]%andb_true_iff. destruct (sat_nocap0 Hn) as (? & ? & ?). split_and!; try done. cbn. by intros i ->.
Qed.
Lemma sat_set_held_by x v w :
  sat v w → sat (vnocap (v_nocap v && match x with Some (Some h) => owned h | _ => true end) v) (with_disk (set_held_by x (w_disk w)) w).
Proof.
  intros []. split; try done. cbn. intros [Hn Hx]%andb_true_iff. destruct (sat_nocap0 Hn) as (? & ? & ?). split_and!; try done. cbn. by intros h ->.
Qed.
Lemma sat_set_hold p v w :
  sat v w → sat (vnocap (v_nocap v && from_option uncaptured true p) (vheld (some p) v)) (with_served (set_hold p (w_served w)) w).
Proof.
  intros []. split; try done. cbn. intros [Hn Hx]%andb_true_iff. destruct (sat_nocap0 Hn) as (? & ? & ?). split_and!; try done. cbn. by intros q ->.
Qed.
Lemma sat_hold_procs v w : sat v w → sat (vstopped true v) (hold_procs w).
Proof. intros []. split; try done. intros _. by right. Qed.
Lemma sat_procs b v w : sat v w → sat (vstopped false v) (with_procs b false w).
Proof. by intros []. Qed.
Lemma sat_let_run f a v w : sat v w → sat (vstopped false v) (let_run f a w).
Proof.
  intros Hs. unfold let_run. destruct (reached f a); [by apply sat_procs|]. destruct Hs.
  destruct (w_stopped w) eqn:E; split; try done; [by left|by rewrite E].
Qed.
Lemma sat_stopped_bound b v w : sat (vstopped b v) w → (b = true → v_stopped v = true) → sat v w.
Proof. intros [] Hb. split; try done. intros [?|?]%sat_stopped0; [by left|right; auto]. Qed.
(** Memory that is neither the hold, the log nor the approvals. *)
Lemma sat_served s v w : sat v w → s_log s = s_log (w_served w) → s_paused s = s_paused (w_served w) →
  paused (s_approvals s) = paused (s_approvals (w_served w)) → in_step (s_approvals s) = true → sat v (with_served s w).
Proof.
  intros [] El Ep Ea Ei. split; cbn; rewrite ?El, ?Ea; try done; [unfold hold_of; cbn; by rewrite Ep|].
  intros Hn. unfold no_capture, hold_of. cbn. rewrite Ep. exact (sat_nocap0 Hn).
Qed.

(** *** The approvals stay in step *)
Lemma in_step_spec s : in_step s = true ↔ paused s = true ∨
  (∀ c, c ∈ credentials s → cr_state c ≠ Suspended) ∧ (∀ k g, remembered s !! k = Some g → gr_state g ≠ Suspended) ∧
  (∀ h, h ∈ held s → clock_runs h = true).
Proof.
  unfold in_step. rewrite orb_true_iff, !andb_true_iff, !forallb_forall. setoid_rewrite <- list_elem_of_In. setoid_rewrite negb_true_iff.
  setoid_rewrite bool_decide_eq_false. split; (intros [?|Hr]; [by left|right]).
  - destruct Hr as [[Hc Hr] Hh]. split_and!; try done. intros k g Hk. apply (Hr (k, g)). by apply elem_of_map_to_list.
  - destruct Hr as (Hc & Hr & Hh). split_and!; try done. intros [k g] Hk%elem_of_map_to_list. by eapply Hr.
Qed.
Lemma in_step_paused s : paused s = true → in_step s = true.
Proof. intros H. apply in_step_spec. by left. Qed.
Lemma in_step_same s s' :
  paused s' = paused s → (∀ c, c ∈ credentials s' → c ∈ credentials s ∨ (cr_state c = Suspended → paused s = true)) →
  (∀ k g, remembered s' !! k = Some g → remembered s !! k = Some g ∨ gr_state g ≠ Suspended) → (∀ h, h ∈ held s' → h ∈ held s) →
  in_step s = true → in_step s' = true.
Proof.
  intros Hp Hc Hr Hh. rewrite !in_step_spec, Hp. intros [?|(H1 & H2 & H3)]; [by left|]. destruct (paused s) eqn:Ep; [by left|]. right. split_and!.
  - intros c [?|Hx]%Hc; [by apply H1|]. by intros ?%Hx.
  - intros k g [?|?]%Hr; [by eapply H2|done].
  - auto.
Qed.
Lemma retire_all_questions x l s : paused (foldl (retire x) s l) = paused s ∧ held (foldl (retire x) s l) = held s.
Proof. destruct (retire_all_kept x l s) as [E _]. by injection E as -> _ _ _ ->. Qed.
Lemma sweep_in_step ms s : in_step s = true → in_step (sweep_expired_credentials ms s) = true.
Proof.
  unfold sweep_expired_credentials. set (s1 := set_credentials s _). set (l := List.filter (λ _, negb _) _).
  destruct (retire_all_fields Expired l s1) as (E1 & E2 & _). destruct (retire_all_questions Expired l s1) as [E3 E4].
  apply in_step_same; rewrite ?E1, ?E2, ?E3, ?E4; cbn; auto. intros c [? _]%elem_of_filter_bool. by left.
Qed.
Lemma retire_launch_in_step key s : in_step s = true → in_step (retire_launch key s) = true.
Proof. apply in_step_same; cbn; auto. intros c [? _]%elem_of_filter_bool. by left. Qed.
Lemma mark_unknown_in_step key s : in_step s = true → in_step (mark_launch_unknown key s) = true.
Proof. apply in_step_same; cbn; auto. Qed.
Lemma record_credential_in_step service host permissions key at_ms expires s :
  in_step s = true → in_step (record_credential_with_expiry service host permissions key at_ms expires s).2 = true.
Proof.
  intros H. unfold record_credential_with_expiry. destruct (List.find _ _); cbn [snd].
  - revert H. rewrite !in_step_spec. intros [?|(H1 & H2 & H3)]; [by left|right]. split_and!; try done. cbn.
    intros c' [?|(y & Hy & _ & ->)]%alter_first_elem; [by apply H1|]. unfold add_host. case_bool_decide; exact (H1 y Hy).
  - revert H. apply in_step_same; cbn; auto. intros c [?| ->%list_elem_of_singleton]%elem_of_app; [by left|right]. cbn. by destruct (paused s).
Qed.
Lemma remember_in_step a ms s : in_step s = true → in_step (remember a ms s) = true.
Proof. apply in_step_same; cbn; auto. intros k g [[_ <-]|[_ ?]]%lookup_insert_Some; [by right|by left]. Qed.
Lemma close_fold_in_step ms l s : in_step s = true →
  in_step (foldl (close_one ms) s l) = true ∧ paused (foldl (close_one ms) s l) = paused s.
Proof.
  revert s. induction l as [|h l IH]; intros t Hi; [done|]. cbn [foldl]. destruct (IH (close_one ms t h)) as [? ->].
  - unfold close_one. cbv zeta. case_bool_decide; [|exact Hi]. exact (remember_in_step (h_approval h) ms t Hi).
  - split; [done|]. unfold close_one. cbv zeta. by case_bool_decide.
Qed.
Lemma claim_fold_in_step l s : in_step s = true → in_step (foldl claim_one s l) = true ∧ paused (foldl claim_one s l) = paused s.
Proof. revert s. induction l as [|e l IH]; intros t Hi; [done|]. cbn [foldl]. by apply (IH (claim_one t e)). Qed.
Lemma close_in_step ms s : in_step s = true → in_step (close ms s).2 = true ∧ paused (close ms s).2 = paused s.
Proof.
  intros H. unfold close. cbn [snd]. assert (in_step (set_held (set_closed s) []) = true) as Hi.
  { revert H. apply in_step_same; cbn; auto. by intros h ?%elem_of_nil. }
  destruct (close_fold_in_step ms (held (set_closed s)) _ Hi) as [H1 H2]. set (s1 := foldl (close_one ms) _ _) in *. clearbody s1.
  destruct (claim_fold_in_step (btree (unclaimed s1)) (set_claims s1 (handoff s1) ∅) H1) as [H3 H4]. split; [exact H3|]. rewrite H4. exact H2.
Qed.
Lemma set_paused_flag p now ms s : paused (set_paused p now ms s) = p.
Proof.
  unfold set_paused. destruct p; cbn zeta iota; match goal with |- context [foldl (retire ?x) ?s ?l] => destruct (retire_all_questions x l s) as [E _] end; exact E.
Qed.
Lemma set_paused_in_step p now ms s : in_step (set_paused p now ms s) = true.
Proof.
  destruct p; [apply in_step_paused, set_paused_flag|]. apply in_step_spec. right. unfold set_paused. cbn zeta iota.
  match goal with |- context [foldl (retire Expired) ?s ?l] =>
    destruct (retire_all_questions Expired l s) as [_ Eh]; destruct (retire_all_fields Expired l s) as (Ec & Er & _) end.
  cbn [credentials remembered held set_remembered]. rewrite Ec, Er, Eh. cbn [credentials remembered held set_credentials set_held]. split_and!.
  - intros c (x & -> & _)%list_elem_of_fmap. unfold move_state. case_bool_decide; [done|done].
  - intros k g (x & <- & _)%lookup_fmap_Some. unfold move_grant. case_bool_decide; [done|done].
  - intros h (x & -> & _)%list_elem_of_fmap. unfold clock_runs. cbn. destruct (h_clock x) as [c|]; [|done]. cbn. unfold clock_run.
    destruct (ck_running_since c) eqn:E; [by rewrite E|done].
Qed.
(** Released, the approvals and the credentials confirm at once. *)
Lemma released_approvals now s : in_step s = true → paused s = false → confirm_approvals now PhaseReleased s = Acknowledged.
Proof.
  intros Hs Hp. apply in_step_spec in Hs as [?|(_ & _ & Hh)]; [congruence|]. unfold confirm_approvals. rewrite Hp. cbn [phase_held Bool.eqb negb].
  match goal with |- context [length ?l = 0%nat] => assert (l = []) as -> end; [|done].
  apply elem_of_nil_inv. intros a [Ha Hc]%elem_of_filter_bool. unfold pending_at in Ha.
  apply list_elem_of_fmap in Ha as (h & -> & [Hin Ha]%elem_of_filter_bool). apply bool_decide_eq_true in Ha. specialize (Hh h Hin). unfold clock_runs in Hh.
  unfold shown in Hc. rewrite Ha in Hc. cbn in Hc. destruct (h_clock h) as [c|]; [|done]. cbn in Hc. unfold clock_countdown in Hc. cbn in Hc.
  destruct (ck_running_since c); done.
Qed.
Lemma released_credentials ms s : in_step s = true → paused s = false →
  (confirm_credentials ms PhaseReleased s).1 = Acknowledged.
Proof.
  intros Hs Hp. unfold confirm_credentials, grants_at. cbn [fst]. pose proof (sweep_in_step ms s Hs) as H1.
  assert (paused (sweep_expired_credentials ms s) = false) as H2.
  { rewrite <- Hp. unfold sweep_expired_credentials. by match goal with |- context [foldl (retire ?x) ?s ?l] => destruct (retire_all_questions x l s) as [E _] end. }
  apply in_step_spec in H1 as [?|(Hc & Hr & _)]; [congruence|].
  match goal with |- context [bool_decide (length ?l = 0%nat)] => assert (l = []) as -> end; [|done].
  apply elem_of_nil_inv. intros g [Hg Hw%bool_decide_eq_true]%elem_of_filter_bool. rewrite merge_sort_Permutation in Hg. unfold live_grants in Hg.
  apply elem_of_app in Hg as [(c & -> & Hin)%list_elem_of_fmap|([k g'] & -> & Hin)%list_elem_of_fmap]; [by apply (Hc c Hin)|].
  unfold remembered_list in Hin. rewrite merge_sort_Permutation in Hin. apply elem_of_map_to_list in Hin. by apply (Hr k g' Hin).
Qed.
Lemma confirm_credentials_state ms p s : (confirm_credentials ms p s).2 = sweep_expired_credentials ms s.
Proof. unfold confirm_credentials, grants_at. destruct p; reflexivity. Qed.

(** *** Rules *)
Definition wp {A} (m : M A) (Q : Res A → World → Prop) (w : World) : Prop := Q (m w).1 (m w).2.
Lemma swp_mono {A} (m : M A) (Q Q' : Res A → World → Prop) w : wp m Q w → (∀ r w', Q r w' → Q' r w') → wp m Q' w.
Proof. unfold wp. auto. Qed.
Lemma swp_ret {A} (a : A) Q w : Q (Done a) w → wp (mret a) Q w.
Proof. done. Qed.
Lemma swp_fail {A} e (Q : Res A → World → Prop) w : Q (Failed e) w → wp (fail e) Q w.
Proof. done. Qed.
Lemma swp_gets {A} (f : World → A) (Q : Res A → World → Prop) w : Q (Done (f w)) w → wp (gets f) Q w.
Proof. done. Qed.
Definition then_ {A B} (f : A → M B) (Q : Res B → World → Prop) (r : Res A) (w : World) : Prop :=
  match r with Done a => wp (f a) Q w | Failed e => Q (Failed e) w | Crashed => Q Crashed w end.
Lemma swp_bind {A B} (m : M A) (f : A → M B) Q w : wp m (then_ f Q) w → wp (m ≫= f) Q w.
Proof. unfold wp, then_, mbind, M_bind. by destruct (m w) as [[]]. Qed.
Lemma swp_attempt {A} (m : M A) (Q : Res (result Error A) → World → Prop) w :
  wp m (λ r w, match r with Done a => Q (Done (Ok a)) w | Failed e => Q (Done (Err e)) w | Crashed => Q Crashed w end) w → wp (attempt m) Q w.
Proof. unfold wp, attempt. by destruct (m w) as [[]]. Qed.
Lemma swp_ignore {A} (m : M A) (Q : Res unit → World → Prop) w :
  wp m (λ r w, match r with Crashed => Q Crashed w | _ => Q (Done tt) w end) w → wp (ignore m) Q w.
Proof. unfold wp, ignore, attempt, mbind, M_bind. by destruct (m w) as [[]]. Qed.
Lemma swp_map_error {A} f (m : M A) (Q : Res A → World → Prop) w :
  wp m (λ r w, match r with Failed e => Q (Failed (f e)) w | r => Q r w end) w → wp (map_error f m) Q w.
Proof. unfold wp, map_error. by destruct (m w) as [[]]. Qed.
Lemma swp_effect {A} (act : Answer → World → Res A * World) (Q : Res A → World → Prop) v w :
  sat v w → (∀ w', sat v w' → Q Crashed w') → (∀ a w', sat v w' → Q (act a w').1 (act a w').2) → wp (effect act) Q w.
Proof.
  intros Hs Hc Hq. unfold wp, effect. destruct (w_host w) as [|a rest]; [by apply Hc|]. apply Hq. by apply sat_others, sat_host.
Qed.
Lemma swp_learn {A} (f : Answer → World → A * World) (Q : Res A → World → Prop) v w :
  sat v w → (∀ w', sat v w' → Q Crashed w') → (∀ a w', sat v w' → Q (Done (f a w').1) (f a w').2) → wp (learn f) Q w.
Proof.
  intros Hs Hc Hq. eapply swp_effect; [done|done|]. intros a w' Hs'. cbn. destruct (a_crash a); [by apply Hc|]. specialize (Hq a w' Hs'). by destruct (f a w').
Qed.
Lemma swp_with_lock {A} (m : M A) (Q : Res A → World → Prop) v w :
  sat v w → (∀ w', sat v w' → Q Crashed w') → (∀ w', sat (vfault v) w' → Q (Failed ErrIo) w') →
  (∀ w', sat v w' → wp m (λ r w, Q r (with_lock_flag false w)) w') → wp (with_lock m) Q w.
Proof.
  intros Hs Hc Hf Hm. unfold wp, with_lock, take_lock, effect. destruct (w_host w) as [|a rest]; [by apply Hc|].
  assert (sat v (others a (with_host rest w))) as H1 by by apply sat_others, sat_host. destruct (a_crash a); [by apply Hc|].
  destruct (a_ok a); [|by apply Hf, sat_fault]. specialize (Hm _ (sat_lock v true _ H1)). unfold wp in Hm. by destruct (m _).
Qed.
Lemma swp_state {A} (f : World → Res A * World) (Q : Res A → World → Prop) w : Q (f w).1 (f w).2 → wp f Q w.
Proof. done. Qed.

(** A change of the directory that moves the view by [g], or part of the way by [g']. *)
Lemma swp_write whole partial note e (g g' n : View → View) (Q : Res unit → World → Prop) v w :
  sat v w →
  (∀ w, sat v w → sat (g v) (with_disk (whole (w_disk w)) w)) → (∀ w, sat v w → sat (g' v) (with_disk (partial (w_disk w)) w)) →
  (∀ v w, sat v w → sat (n v) (note w)) →
  (∀ w', sat (g v) w' → Q (Done tt) w') →
  (∀ w' v', v' = v ∨ v' = g' v ∨ v' = g v → sat (n v') w' → Q (Failed e) w') →
  (∀ w' v', v' = v ∨ v' = g' v ∨ v' = g v → sat v' w' → Q Crashed w') →
  wp (write whole partial note e) Q w.
Proof.
  intros Hs Hw Hp Hn Hd Hf Hc. eapply swp_effect; [done|by eauto|]. intros a w' Hs'. cbn. unfold landed.
  destruct (a_crash a); [destruct (a_landing a); cbn; eauto 6|]. destruct (a_ok a); [cbn; eauto|]. destruct (a_landing a); cbn; eauto 6.
Qed.
Lemma swp_unlink whole (g : View → View) (Q : Res unit → World → Prop) v w :
  sat v w → (∀ w, sat v w → sat (g v) (with_disk (whole (w_disk w)) w)) →
  (∀ w', sat (g v) w' → Q (Done tt) w') → (∀ w', sat (vfault v) w' → Q (Failed ErrIo) w') →
  (∀ w' v', v' = v ∨ v' = g v → sat v' w' → Q Crashed w') → wp (unlink whole) Q w.
Proof.
  intros Hs Hw Hd Hf Hc. eapply swp_effect; [done|by eauto|]. intros a w' Hs'. cbn. unfold landed.
  assert (sat v (with_disk (w_disk w') w')) by by destruct Hs'.
  destruct (a_crash a); [destruct (a_landing a); cbn; eauto|]. destruct (a_ok a); cbn; eauto using sat_fault.
Qed.
Lemma sat_disk_id v w : sat v w → sat v (with_disk (id (w_disk w)) w).
Proof. by intros []. Qed.
Lemma swp_write_marker reason (Q : Res unit → World → Prop) v w :
  sat v w → (∀ w', sat (vmarker true v) w' → Q (Done tt) w') →
  (∀ w' b, sat (vunmarked (vmarker b v)) w' → Q (Failed ErrIo) w') →
  (∀ w' b, implb (v_marker v) b = true → sat (vmarker b v) w' → Q Crashed w') → wp (write_marker reason) Q w.
Proof.
  intros Hs Hd Hf Hc. assert (vmarker (v_marker v) v = v) as E by by destruct v.
  eapply (swp_write _ _ _ _ (vmarker true) (vmarker true) vunmarked); 
    [done|exact (sat_set_marker (Some (marker_text reason)) v)|exact (sat_set_marker (Some []) v)|exact sat_note_unmarked|done|..].
  - intros w' v' [->|[->| ->]]; [rewrite <- E at 1|..]; apply Hf.
  - intros w' v' [->|[->| ->]]; [rewrite <- E at 1|..]; apply Hc; by destruct (v_marker v).
Qed.
Lemma swp_clear_marker (Q : Res unit → World → Prop) v w :
  sat v w → (∀ w', sat (vmarker false v) w' → Q (Done tt) w') → (∀ w', sat (vfault v) w' → Q (Failed ErrIo) w') →
  (∀ w' b, implb b (v_marker v) = true → sat (vmarker b v) w' → Q Crashed w') → wp clear_marker Q w.
Proof.
  intros Hs Hd Hf Hc. assert (vmarker (v_marker v) v = v) as E by by destruct v.
  eapply (swp_unlink _ (vmarker false)); [done|exact (sat_set_marker None v)|done|done|].
  intros w' v' [->| ->]; [rewrite <- E at 1|]; apply Hc; by destruct (v_marker v).
Qed.
Lemma swp_write_held_by h (Q : Res unit → World → Prop) v w :
  let v' := vnocap (v_nocap v && owned h) v in
  sat v w → (∀ w', sat v' w' → Q (Done tt) w') → (∀ w', sat (vfault v') w' → Q (Failed ErrIo) w') →
  (∀ w', sat v' w' → Q Crashed w') → wp (write_held_by h) Q w.
Proof.
  intros v' Hs Hd Hf Hc. eapply (swp_write _ _ _ _ (λ _, v') (λ _, v') vfault Q v').
  - by apply sat_weaken.
  - intros w' Hs'. apply (sat_set_held_by (Some (Some h)) v') in Hs'. cbn in Hs'. unfold v' in *. cbn in *.
    replace (v_nocap v && owned h && owned h) with (v_nocap v && owned h) in Hs' by by destruct (v_nocap v), (owned h). done.
  - intros w' Hs'. apply (sat_set_held_by (Some None) v') in Hs'. cbn in Hs'. unfold v' in *. cbn in *. by rewrite andb_true_r in Hs'.
  - exact sat_fault.
  - done.
  - intros w' x [->|[->| ->]]; apply Hf.
  - intros w' x [->|[->| ->]]; apply Hc.
Qed.
Lemma swp_clear_held_by (Q : Res unit → World → Prop) v w :
  sat v w → (∀ w', sat v w' → Q (Done tt) w') → (∀ w', sat (vfault v) w' → Q (Failed ErrIo) w') →
  (∀ w', sat v w' → Q Crashed w') → wp clear_held_by Q w.
Proof.
  intros Hs Hd Hf Hc. eapply (swp_unlink _ id); [done| |done|done|].
  - intros w' Hs'. apply (sat_set_held_by None v) in Hs'. rewrite andb_true_r in Hs'. by destruct v.
  - intros w' v' [->| ->]; apply Hc.
Qed.
Lemma swp_write_stop_marker (Q : Res unit → World → Prop) v w :
  sat v w → (∀ w', sat (vstop v) w' → Q (Done tt) w') →
  (∀ w' v', v' = v ∨ v' = vstop v → sat (vfault v') w' → Q (Failed ErrIo) w') →
  (∀ w' v', v' = v ∨ v' = vstop v → sat v' w' → Q Crashed w') → wp write_stop_marker Q w.
Proof.
  intros Hs Hd Hf Hc. eapply (swp_write _ _ _ _ vstop vstop vfault Q v); [done|exact (sat_set_stop v)|exact (sat_set_stop v)|exact sat_fault|done|..].
  - intros w' v' [->|[->| ->]]; apply Hf; auto.
  - intros w' v' [->|[->| ->]]; apply Hc; auto.
Qed.
Lemma swp_record_intent verb (Q : Res unit → World → Prop) v w :
  let v' b := vnocap (v_nocap v && not_capture verb) (vintent b v) in
  sat v w → (∀ w', sat (v' true) w' → Q (Done tt) w') →
  (∀ w' b, implb (v_intent v) b = true → sat (vfault (v' b)) w' → Q (Failed ErrIo) w') →
  (∀ w' b, implb (v_intent v) b = true → sat (v' b) w' → Q Crashed w') → wp (record_intent verb) Q w.
Proof.
  intros v' Hs Hd Hf Hc. assert (sat (v' (v_intent v)) w) as Hs0 by (apply (sat_weaken (not_capture verb)) in Hs; by destruct v).
  assert (∀ a w', sat (v' (v_intent v)) w' → sat (v' true) (with_disk (set_intent (Some (MkIntent (a_op a) (a_ms a) verb)) (w_disk w')) w')) as Hw.
  { intros a w' Hs'. apply (sat_set_intent (Some (MkIntent (a_op a) (a_ms a) verb))) in Hs'. cbn in Hs'. unfold v' in *. cbn in *.
    by replace (v_nocap v && not_capture verb && not_capture verb) with (v_nocap v && not_capture verb) in Hs' by by destruct (v_nocap v), (not_capture verb). }
  eapply swp_effect; [exact Hs0|intros w'; apply Hc; by destruct (v_intent v)|]. intros a w' Hs'. cbn. unfold landed.
  assert (sat (v' (v_intent v)) (with_disk (w_disk w') w')) as Hi by by destruct Hs'.
  assert (∀ l, ∃ b, implb (v_intent v) b = true ∧ sat (v' b) (match l with Untouched => w' | Partial => with_disk (id (w_disk w')) w'
    | Whole => with_disk (set_intent (Some (MkIntent (a_op a) (a_ms a) verb)) (w_disk w')) w' end)) as Hl.
  { intros []; [exists (v_intent v)|exists (v_intent v)|exists true]; split; try done; try (by destruct (v_intent v)). by apply Hw. }
  destruct (Hl (a_landing a)) as (b & Hb & Hsl). destruct (a_crash a); [by eapply Hc|]. destruct (a_ok a); [by apply Hd, Hw|].
  cbn. eapply Hf; [exact Hb|]. by apply sat_fault.
Qed.
Lemma swp_clear_intent (Q : Res unit → World → Prop) v w :
  sat v w → (∀ w', sat (vintent false v) w' → Q (Done tt) w') →
  (∀ w' b, sat (vfault (vintent b v)) w' → Q (Failed ErrIo) w') →
  (∀ w' b, implb b (v_intent v) = true → sat (vintent b v) w' → Q Crashed w') → wp clear_intent Q w.
Proof.
  intros Hs Hd Hf Hc. assert (vintent (v_intent v) v = v) as E by by destruct v.
  eapply (swp_write _ _ _ _ (vintent false) id vfault Q v); [done| |exact (sat_disk_id v)|exact sat_fault|done|..].
  - intros w' Hs'. apply (sat_set_intent None) in Hs'. cbn in Hs'. rewrite andb_true_r in Hs'. by destruct v.
  - intros w' v' [->|[->| ->]]; unfold id; [rewrite <- E at 1|rewrite <- E at 1|]; apply Hf.
  - intros w' v' [->|[->| ->]]; unfold id; [rewrite <- E at 1|rewrite <- E at 1|]; apply Hc; by destruct (v_intent v).
Qed.
Lemma swp_raw_append e (Q : Res Z → World → Prop) v w :
  sat v w → (∀ w' seq, v_log v = true → sat v w' → Q (Done seq) w') →
  (∀ w' v' why, v' = vfault v ∨ v_log v = false ∧ v' = v → sat v' w' → Q (Failed (ErrDaemon why)) w') →
  (∀ w', sat v w' → Q Crashed w') → wp (raw_append e) Q w.
Proof.
  intros Hs Hd Hf Hc. unfold raw_append. apply swp_bind, swp_gets. unfold then_. rewrite (sat_log _ _ Hs). destruct (v_log v) eqn:El; cbn [negb].
  - apply swp_bind, swp_gets. cbn. apply swp_bind. eapply (swp_write _ _ _ _ id id vfault _ v); [done|exact (sat_add_record e v)|exact (sat_disk_id v)|exact sat_fault|..].
    + intros w' Hs'. cbn. apply swp_ret. by apply Hd.
    + intros w' v' [->|[->| ->]] Hs'; cbn; eapply Hf; eauto.
    + intros w' v' [->|[->| ->]] Hs'; cbn; by apply Hc.
  - apply swp_fail. eapply Hf; eauto.
Qed.
Lemma swp_write_register l (Q : Res unit → World → Prop) v w :
  sat v w → (∀ w', sat v w' → Q (Done tt) w') → (∀ w', sat (vfault v) w' → Q (Failed ErrIo) w') → (∀ w', sat v w' → Q Crashed w') →
  wp (write_register l) Q w.
Proof.
  intros Hs Hd Hf Hc. eapply (swp_write _ _ _ _ id id vfault Q v); [done|exact (sat_set_register l v)|exact (sat_disk_id v)|exact sat_fault|done|..];
    intros w' v' [->|[->| ->]]; auto.
Qed.
Lemma swp_seal_log (Q : Res unit → World → Prop) v w :
  sat v w → (∀ w', sat (vsealed (vlog false v)) w' → Q (Done tt) w') →
  (∀ w' v' why, v' = vlog false v ∨ v' = vsealed (vlog false v) → sat (vfault v') w' → Q (Failed (ErrDaemon why)) w') →
  (∀ w' v', v' = vlog false v ∨ v' = vsealed (vlog false v) → sat v' w' → Q Crashed w') → wp seal_log Q w.
Proof.
  intros Hs Hd Hf Hc. unfold seal_log. apply swp_bind. unfold modify. cbn. assert (sat (vlog false v) (with_served (set_log false (w_served w)) w)) as H1 by by destruct Hs.
  eapply (swp_write _ _ _ _ vsealed id vfault Q (vlog false v)); [done|exact (sat_set_sealed _)|exact (sat_disk_id _)|exact sat_fault|done|..];
    intros w' v' [->|[->| ->]]; eauto.
Qed.
(** Freezing and thawing. *)
Lemma swp_freezing (act : Answer → World → Res (Frozen * bool) * World) (Q : Res (Frozen * bool) → World → Prop) v w :
  (∀ a w, act a w = (Crashed, w) ∨ act a w = (Crashed, hold_procs w) ∨ ∃ x, act a w = (Done x, hold_procs w) ∨ act a w = (Done x, w)) →
  sat v w → (∀ w' x, sat (vstopped true v) w' → Q (Done x) w') → (∀ w', sat (vstopped true v) w' → Q Crashed w') → wp (effect act) Q w.
Proof.
  intros Hact Hs Hd Hc. assert (∀ w', sat v w' → sat (vstopped true v) w') as Hw by (intros w' []; split; try done; by right).
  eapply swp_effect; [done|by auto|]. intros a w' Hs'. destruct (Hact a w') as [->|[->|(x & [->| ->])]]; cbn; auto using sat_hold_procs.
Qed.
Lemma swp_freeze (Q : Res (Frozen * bool) → World → Prop) v w :
  sat v w → (∀ w' x, sat (vstopped true v) w' → Q (Done x) w') → (∀ w', sat (vstopped true v) w' → Q Crashed w') → wp freeze Q w.
Proof. apply swp_freezing. intros a w'. destruct (a_crash a); [destruct (a_landing a)|]; eauto. Qed.
Lemma swp_freeze_for_capture (Q : Res (Frozen * bool) → World → Prop) v w :
  sat v w → (∀ w' x, sat (vstopped true v) w' → Q (Done x) w') → (∀ w', sat (vstopped true v) w' → Q Crashed w') → wp freeze_for_capture Q w.
Proof. apply swp_freezing. intros a w'. destruct (a_crash a); [destruct (a_landing a)|destruct (bool_decide _)]; eauto. Qed.
Lemma swp_stabilize f (Q : Res (Frozen * bool) → World → Prop) v w :
  sat v w → (∀ w' x, sat (vstopped true v) w' → Q (Done x) w') → (∀ w', sat (vstopped true v) w' → Q Crashed w') → wp (stabilize f) Q w.
Proof. apply swp_freezing. intros a w'. destruct (a_crash a); [destruct (a_landing a)|]; eauto. Qed.
Lemma swp_thaw f (Q : Res unit → World → Prop) v w :
  sat v w → (∀ w', sat (vstopped false v) w' → Q (Done tt) w') → (∀ w', sat v w' → Q Crashed w') → wp (thaw f) Q w.
Proof.
  intros Hs Hd Hc. eapply swp_effect; [done|done|]. intros a w' Hs'. cbn. destruct (a_crash a); [|cbn; by apply Hd, sat_let_run].
  destruct (a_landing a); cbn; apply Hc; try done. by eapply sat_stopped_bound; [apply sat_let_run|].
Qed.
Lemma swp_kill_frozen f (Q : Res unit → World → Prop) v w :
  sat v w → (∀ w', sat (vstopped false v) w' → Q (Done tt) w') → (∀ w', sat v w' → Q Crashed w') → wp (kill_frozen f) Q w.
Proof.
  intros Hs Hd Hc. eapply swp_effect; [done|done|]. intros a w' Hs'. cbn. destruct (a_crash a); [by apply Hc|]. cbn. by apply Hd, sat_let_run.
Qed.
Lemma swp_terminate f (Q : Res Termination → World → Prop) v w :
  sat v w → (∀ w' t, tm_remaining t = None → sat (vstopped false v) w' → Q (Done t) w') →
  (∀ w' t x, tm_remaining t = Some x → sat (vstopped true v) w' → Q (Done t) w') →
  (∀ w', sat (vstopped true v) w' → Q Crashed w') → wp (terminate f) Q w.
Proof.
  intros Hs Hd Hd' Hc. assert (∀ w', sat v w' → sat (vstopped true v) w') as Hw by (intros w' []; split; try done; by right).
  eapply swp_effect; [done|by auto|]. intros a w' Hs'. cbn. destruct (a_crash a).
  - destruct (a_landing a); cbn; auto using sat_hold_procs.
  - destruct f as [f|]; [|destruct (a_scan a); [by apply Hd; [|apply sat_procs]|]]; cbv zeta; case_match;
      (destruct (negb _ || negb _);
       [eapply Hd'; [reflexivity|by apply sat_hold_procs]|eapply Hd; [reflexivity|by apply sat_procs]]).
Qed.
Lemma swp_pause_approvals p (Q : Res unit → World → Prop) v w :
  sat v w → (∀ w', sat (vpaused p v) w' → Q (Done tt) w') → (∀ w', sat v w' → Q Crashed w') → wp (pause_approvals p) Q w.
Proof.
  intros Hs Hd Hc. eapply swp_learn; [done|done|]. intros a w' Hs'. cbn. apply Hd. destruct Hs'.
  split; try done; cbn; [apply set_paused_flag|apply set_paused_in_step].
Qed.
Lemma sat_sweep ms v w : sat v w →
  sat v (with_served (set_approvals (sweep_expired_credentials ms (s_approvals (w_served w))) (w_served w)) w).
Proof.
  intros Hs. apply sat_served; try done; [|by apply sweep_in_step, Hs]. cbn. unfold sweep_expired_credentials.
  by match goal with |- context [foldl (retire ?x) ?s ?l] => destruct (retire_all_questions x l s) as [E _] end.
Qed.
Lemma swp_confirm_one p c (Q : Res Acknowledgement → World → Prop) v w :
  sat v w → (∀ w' a, ack_component a = c → (p = PhaseReleased → v_paused v = false → c ≠ Proxy → confirmed a = true) → sat v w' → Q (Done a) w') →
  (∀ w', sat v w' → Q Crashed w') → wp (confirm_one p c) Q w.
Proof.
  intros Hs Hd Hc. eapply swp_learn; [done|done|]. intros a w' Hs'. cbv zeta. pose proof (sat_step _ _ Hs') as Hi. pose proof (sat_paused _ _ Hs') as Hp.
  destruct c; cbn [fst snd].
  - by apply Hd.
  - apply Hd; [done| |done]. intros -> Hv _. unfold confirmed. cbn. by rewrite released_approvals by congruence.
  - pose proof (confirm_credentials_state (a_ms a) p (s_approvals (w_served w'))) as E.
    destruct (confirm_credentials _ _ _) as [o s] eqn:Eo. cbn in E. subst s. cbn [fst snd]. apply Hd; [done| |by apply sat_sweep].
    intros -> Hv _. unfold confirmed. cbn. pose proof (released_credentials (a_ms a) (s_approvals (w_served w'))) as Hr. rewrite Eo in Hr. cbn in Hr.
    by rewrite Hr by congruence.
Qed.
Lemma swp_confirm_each p l (Q : Res (list Acknowledgement) → World → Prop) v w :
  sat v w → (∀ w' acks, sat v w' → Q (Done acks) w') → (∀ w', sat v w' → Q Crashed w') → wp (confirm_each p l) Q w.
Proof.
  revert Q w. induction l as [|c l IH]; intros Q w Hs Hd Hc; cbn [confirm_each]; [by apply swp_ret, Hd|]. apply swp_bind.
  eapply swp_confirm_one; [done| |done]. intros w' a _ _ Hs'. cbn. apply swp_bind. eapply IH; [done| |done]. intros w'' acks Hs''. cbn. by apply swp_ret, Hd.
Qed.
Lemma swp_confirm_components p (Q : Res (list Acknowledgement) → World → Prop) v w :
  sat v w → (∀ w' acks, sat v w' → Q (Done acks) w') → (∀ w', sat v w' → Q Crashed w') → wp (confirm_components p) Q w.
Proof. apply swp_confirm_each. Qed.
(** What only tells the daemon something. *)
Lemma swp_told {A} (f : Answer → World → A) (Q : Res A → World → Prop) v w :
  sat v w → (∀ w' x, sat v w' → Q (Done x) w') → (∀ w', sat v w' → Q Crashed w') → wp (learn (λ a w, (f a w, w))) Q w.
Proof. intros Hs Hd Hc. eapply swp_learn; [done|done|]. intros a w' Hs'. by apply Hd. Qed.

(** *** Rules for what the daemon keeps in memory *)
Lemma swp_put_hold p (Q : Res unit → World → Prop) v w :
  sat v w → (∀ w', sat (vnocap (v_nocap v && from_option uncaptured true p) (vheld (some p) v)) w' → Q (Done tt) w') → wp (put_hold p) Q w.
Proof. intros Hs Hd. apply Hd. by apply (sat_set_hold p). Qed.
Lemma swp_modify f (Q : Res unit → World → Prop) v w :
  sat v w → (∀ s, s_log (f s) = s_log s ∧ s_paused (f s) = s_paused s ∧ s_approvals (f s) = s_approvals s) →
  (∀ w', sat v w' → Q (Done tt) w') → wp (modify f) Q w.
Proof.
  intros Hs Hf Hd. apply Hd. destruct (Hf (w_served w)) as (? & ? & E). apply sat_served; try done; rewrite E; [done|]. apply Hs.
Qed.
Lemma swp_put_unconfirmed x (Q : Res unit → World → Prop) v w : sat v w → (∀ w', sat v w' → Q (Done tt) w') → wp (put_unconfirmed x) Q w.
Proof. intros Hs. by apply swp_modify. Qed.
Lemma swp_modify_approvals f (Q : Res unit → World → Prop) v w :
  sat v w → (∀ s, paused (f s) = paused s ∧ (in_step s = true → in_step (f s) = true)) →
  (∀ w', sat v w' → Q (Done tt) w') → wp (modify_approvals f) Q w.
Proof.
  intros Hs Hf Hd. apply Hd. destruct (Hf (s_approvals (w_served w))) as [? E]. apply sat_served; try done. apply E, Hs.
Qed.
Lemma swp_take_hold (Q : Res (option Paused) → World → Prop) v w :
  sat v w → (∀ w' p, some p = v_held v → (v_nocap v = true → from_option uncaptured true p = true) → sat (vheld false v) w' → Q (Done p) w') →
  wp take_hold Q w.
Proof.
  intros Hs Hd. unfold take_hold. apply swp_bind, swp_gets. cbn. apply swp_bind. eapply swp_put_hold; [done|]. intros w' Hs'. cbn. apply swp_ret. apply Hd.
  - apply Hs.
  - intros Hn. destruct (hold_of w) eqn:E; [|done]. cbn. by eapply (sat_nocap _ _ Hs Hn).
  - cbn in Hs'. rewrite andb_true_r in Hs'. by destruct v.
Qed.
Lemma prune_captures dead h : ho_captures h = [] → ho_captures (prune_dead dead h) = [].
Proof. unfold prune_dead. cbn. by intros ->. Qed.
Lemma prune_owned dead h : owned h = true → owned (prune_dead dead h) = true.
Proof. unfold owned. rewrite !andb_true_iff, !bool_decide_eq_true. intros [H ?]. split; [by apply prune_captures|done]. Qed.
Lemma swp_enter op (Q : Res Lifecycle → World → Prop) v w :
  op ≠ OpLaunch → sat v w →
  (∀ w' s, v_log v = true → (op = OpResume → v_held v = true) → sat v w' → Q (Done s) w') →
  (∀ w' r, sat v w' → Q (Failed (ErrDaemon (Refused r))) w') → (∀ w', sat v w' → Q Crashed w') → wp (enter op) Q w.
Proof.
  intros Hop Hs Hd Hf Hc. unfold enter. apply swp_bind. eapply swp_learn; [done|done|]. intros a w' Hs'. cbn [fst snd].
  set (w1 := with_served _ w'). assert (sat v w1) as H1.
  { pose proof (sat_held _ _ Hs') as Eh. pose proof (sat_nocap _ _ Hs') as En. destruct Hs'. split; try done.
    - cbn. rewrite <- Eh. unfold hold_of. by destruct (s_paused (w_served w')).
    - intros Hn. destruct (En Hn) as (? & Hp & ?). split_and!; try done. unfold w1, hold_of. cbn. intros p.
      unfold hold_of in *. destruct (s_paused (w_served w')) as [q|]; [|done]. cbn. intros [= <-]. specialize (Hp q eq_refl). unfold uncaptured in *. cbn.
      apply bool_decide_eq_true in Hp. apply bool_decide_eq_true. by apply (prune_captures (a_dead a)). }
  clearbody w1. clear Hs'. cbn. apply swp_bind, swp_gets. cbn. destruct (transition _ _ _) as [s|r] eqn:E; [|by apply swp_fail, Hf]. apply swp_ret. apply Hd; [..|done].
  - rewrite <- (sat_log _ _ H1). unfold lifecycle in E. destruct (s_log (w_served w1)); [done|]. cbn in E. by destruct op.
  - intros ->. rewrite <- (sat_held _ _ H1). unfold lifecycle in E. destruct (s_log (w_served w1)); [|done]. cbn in E.
    destruct (hold_of w1); [done|]. by destruct (d_stop (w_disk w1)).
Qed.

(** *** Rules for appends *)
(** The same, unless something failed. *)
Definition fv (v v' : View) : Prop := v' = v ∨ v' = vfault v.
Lemma fv_refl v : fv v v.
Proof. by left. Qed.
Lemma fv_fault v : fv v (vfault v).
Proof. by right. Qed.
Lemma fv_trans v1 v2 v3 : fv v1 v2 → fv v2 v3 → fv v1 v3.
Proof. intros [->| ->] [->| ->]; by (left + right). Qed.
Lemma fv_log v v' : fv v v' → v_log v' = v_log v.
Proof. by intros [->| ->]. Qed.
#[export] Hint Resolve fv_refl fv_fault : core.
Lemma swp_fv_ignore_register l (Q : Res unit → World → Prop) v w :
  sat v w → (∀ w' v', fv v v' → sat v' w' → Q (Done tt) w') → (∀ w', sat v w' → Q Crashed w') → wp (ignore (write_register l)) Q w.
Proof. intros Hs Hd Hc. apply swp_ignore. eapply swp_write_register; eauto. Qed.
Lemma swp_wall_ms (Q : Res Z → World → Prop) v w :
  sat v w → (∀ w' x, sat v w' → Q (Done x) w') → (∀ w', sat v w' → Q Crashed w') → wp wall_ms Q w.
Proof. apply swp_told. Qed.
Lemma swp_register_launch k pid (Q : Res unit → World → Prop) v w :
  sat v w → (∀ w' v', fv v v' → sat v' w' → Q (Done tt) w') → (∀ w', sat v w' → Q Crashed w') → wp (register_launch k pid) Q w.
Proof.
  intros Hs Hd Hc. unfold register_launch. apply swp_bind. eapply swp_wall_ms; [done| |done]. intros w1 x H1. cbn. apply swp_bind.
  eapply swp_modify; [done|done|]. intros w2 H2. cbn. apply swp_bind, swp_gets. cbn. eapply swp_fv_ignore_register; [done|done|done].
Qed.
Lemma swp_end_launch k st (Q : Res unit → World → Prop) v w :
  sat v w → (∀ w' v', fv v v' → sat v' w' → Q (Done tt) w') → (∀ w', sat v w' → Q Crashed w') → wp (end_launch k st) Q w.
Proof.
  intros Hs Hd Hc. unfold end_launch. apply swp_bind. eapply swp_wall_ms; [done| |done]. intros w1 x H1. cbn. apply swp_bind, swp_gets. cbn.
  destruct (launches_end _ _ _ _) as [[] l]; [|apply swp_ret; eauto]. apply swp_bind. eapply swp_modify; [done|done|]. intros w2 H2. cbn.
  eapply swp_fv_ignore_register; [done|done|done].
Qed.
Lemma swp_handle_append conn e (Q : Res (option Z) → World → Prop) v w :
  sat v w → (∀ w' x v', v_log v = true → fv v v' → sat v' w' → Q (Done x) w') →
  (∀ w' why v', v' = vfault v ∨ v_log v = false ∧ v' = v → sat v' w' → Q (Failed (ErrDaemon why)) w') →
  (∀ w' v', fv v v' → sat v' w' → Q Crashed w') → wp (handle_append conn e) Q w.
Proof.
  intros Hs Hd Hf Hc. unfold handle_append. apply swp_bind, swp_gets. cbn. apply swp_bind. eapply swp_raw_append;
    [done| |intros w' v' why Hv H1; cbn; by eapply Hf|intros w0 H1; cbn; eapply Hc; [apply fv_refl|done]].
  intros w1 seq Hl H1. cbn. destruct e; try (by apply swp_ret; eauto).
  - apply swp_bind. eapply swp_modify; [done|done|]. intros w2 H2. apply swp_ret. eauto.
  - apply swp_bind. unfold launch_started. apply swp_bind. eapply swp_modify; [done|done|]. intros w2 H2. cbn.
    eapply swp_register_launch; [done| |intros w0 H0; cbn; eapply Hc; [apply fv_refl|done]]. intros w3 v' Hv H3. apply swp_ret. eauto.
  - apply swp_bind. unfold launch_finished. apply swp_bind, swp_gets. cbn. destruct (List.find _ _) as [[[? key] ?]|]; [|cbn; apply swp_ret; apply swp_ret; eauto].
    apply swp_bind. eapply swp_modify; [done|done|]. intros w2 H2. cbn. apply swp_bind. eapply swp_modify_approvals; [done|by split; [|apply retire_launch_in_step]|].
    intros w3 H3. cbn. eapply swp_end_launch; [done| |intros w0 H0; cbn; eapply Hc; [apply fv_refl|done]]. intros w4 v' Hv H4. apply swp_ret. eauto.
  - apply swp_bind. unfold launch_finished. apply swp_bind, swp_gets. cbn. destruct (List.find _ _) as [[[? key] ?]|]; [|cbn; apply swp_ret; apply swp_ret; eauto].
    apply swp_bind. eapply swp_modify; [done|done|]. intros w2 H2. cbn. apply swp_bind. eapply swp_modify_approvals; [done|by split; [|apply retire_launch_in_step]|].
    intros w3 H3. cbn. eapply swp_end_launch; [done| |intros w0 H0; cbn; eapply Hc; [apply fv_refl|done]]. intros w4 v' Hv H4. apply swp_ret. eauto.
  - apply swp_bind. unfold record_credential_grant. apply swp_bind. eapply swp_wall_ms; [done| |intros w0 H0; cbn; eapply Hc; [apply fv_refl|done]]. intros w2 t H2. cbn. apply swp_bind, swp_state.
    set (s' := record_credential_with_expiry _ _ _ _ _ _ _).
    assert (sat v (with_served (set_approvals s'.2 (w_served w2)) w2)) as H3.
    { unfold s'. apply sat_served; try done; [|by apply record_credential_in_step, H2]. cbn. by destruct (record_credential_kept service (host_of_subject subject) permissions (conn_launch conn (s_open_launches (w_served w))) t (expires_at t expires_ms) (s_approvals (w_served w2))) as [[= _ _ _ _ ->] _]. }
    clearbody s'. destruct s' as [id s']. cbn in *. apply swp_bind. destruct (conn_launch _ _) as [key|]; [|apply swp_ret; cbn; apply swp_ret; cbn; apply swp_ret; eauto].
    apply swp_ignore. eapply swp_raw_append; [done|..].
    + intros w4 x _ H4. cbn. apply swp_ret. cbn. apply swp_ret. eauto.
    + intros w4 v' why Hv H4. cbn. apply swp_ret. cbn. apply swp_ret. destruct Hv as [->|[? ->]]; eauto.
    + intros w4 H4. cbn. by eapply Hc; [apply fv_refl|].
Qed.
Lemma swp_append e (Q : Res unit → World → Prop) v w :
  sat v w → (∀ w' v', v_log v = true → fv v v' → sat v' w' → Q (Done tt) w') →
  (∀ w' why v', v' = vfault v ∨ v_log v = false ∧ v' = v → sat v' w' → Q (Failed (ErrDaemon why)) w') →
  (∀ w' v', fv v v' → sat v' w' → Q Crashed w') → wp (append e) Q w.
Proof.
  intros Hs Hd Hf Hc. unfold append. apply swp_bind. eapply swp_handle_append; [done| |done|done]. intros w' x v' Hl Hv H1. cbn. apply swp_ret. eauto.
Qed.
(** A loop whose body changes nothing but that something may fail. *)
Lemma swp_each {A} (f : A → M unit) l (Q : Res unit → World → Prop) v w :
  (∀ x w v' (Q' : Res unit → World → Prop), fv v v' → sat v' w → (∀ w' v'', fv v v'' → sat v'' w' → Q' (Done tt) w') →
     (∀ e w' v'', v'' = vfault v ∨ v_log v = false ∧ fv v v'' → sat v'' w' → Q' (Failed (ErrDaemon e)) w') →
     (∀ w' v'', fv v v'' → sat v'' w' → Q' Crashed w') → wp (f x) Q' w) →
  sat v w → (∀ w' v', fv v v' → sat v' w' → Q (Done tt) w') →
  (∀ e w' v', v' = vfault v ∨ v_log v = false ∧ fv v v' → sat v' w' → Q (Failed (ErrDaemon e)) w') →
  (∀ w' v', fv v v' → sat v' w' → Q Crashed w') → wp (each f l) Q w.
Proof.
  intros Hf Hs Hd He Hc. assert (∃ v', fv v v' ∧ sat v' w) as (v0 & H0 & Hs0) by eauto. clear Hs. revert w v0 H0 Hs0.
  induction l as [|x l IH]; intros w v0 H0 Hs0; cbn [each]; [apply swp_ret; eauto|]. apply swp_bind. eapply (Hf x w v0); [done|done| |done|done].
  intros w' v'' Hv Hs'. cbn. by eapply IH.
Qed.
Lemma swp_decided_each (l : list (Approval * Outcome)) (Q : Res unit → World → Prop) v w :
  (∀ w' v', fv v v' → sat v' w' → Q (Done tt) w') → (∀ w' v', fv v v' → sat v' w' → Q Crashed w') →
  ∀ v0, fv v v0 → sat v0 w → wp (each (λ e : Approval * Outcome, ignore (append (QuestionDecided e.1 e.2))) l) Q w.
Proof.
  intros Hd Hc. revert w. induction l as [|e l IH]; intros w v0 H0 Hs0; cbn [each]; [apply swp_ret; by eapply Hd|].
  apply swp_bind, swp_ignore. eapply swp_append; [done|..].
  - intros w3 v' _ Hv H3. cbn. eapply IH; [|done]. by eapply fv_trans.
  - intros w3 why v' Hv H3. cbn. eapply IH; [|done]. eapply fv_trans; [done|]. destruct Hv as [->|[_ ->]]; auto.
  - intros w3 v' Hv H3. cbn. eapply Hc; [|done]. by eapply fv_trans.
Qed.
Lemma swp_close_pending_approvals (Q : Res unit → World → Prop) v w :
  sat v w → (∀ w' v', fv v v' → sat v' w' → Q (Done tt) w') → (∀ w' v', fv v v' → sat v' w' → Q Crashed w') →
  wp close_pending_approvals Q w.
Proof.
  intros Hs Hd Hc. unfold close_pending_approvals. apply swp_bind. eapply swp_wall_ms; [done| |intros w0 H0; cbn; by eapply Hc; [apply fv_refl|]].
  intros w1 t H1. unfold then_. apply swp_bind. unfold wp at 1. pose proof (close_in_step t (s_approvals (w_served w1)) (sat_step _ _ H1)) as [Hi Hp].
  destruct (close t (s_approvals (w_served w1))) as [released s]. cbn [snd] in Hi, Hp. unfold then_. cbn [fst snd].
  eapply swp_decided_each; [done|done|apply fv_refl|]. by apply sat_served.
Qed.
Lemma swp_abort_open_launches (Q : Res unit → World → Prop) v w :
  sat v w → (∀ w' v', fv v v' → sat v' w' → Q (Done tt) w') →
  (∀ e w' v', v' = vfault v ∨ v_log v = false ∧ fv v v' → sat v' w' → Q (Failed (ErrDaemon e)) w') →
  (∀ w' v', fv v v' → sat v' w' → Q Crashed w') → wp abort_open_launches_for_stop Q w.
Proof.
  intros Hs Hd He Hc. unfold abort_open_launches_for_stop. apply swp_bind, swp_gets. cbn. eapply swp_each; [|done..].
  intros x w1 v1 Q' Hv H1 Hd1 He1 Hc1. apply swp_bind. eapply swp_handle_append; [done|..].
  - intros w2 y v2 _ Hv2 H2. cbn. apply swp_ret. eapply Hd1; [|done]. by eapply fv_trans.
  - intros w2 why v2 Hv2 H2. cbn. eapply He1; [|done]. destruct Hv2 as [->|[Hl ->]].
    + left. by destruct Hv as [->| ->].
    + right. split; [by rewrite <- (fv_log _ _ Hv)|done].
  - intros w2 v2 Hv2 H2. cbn. eapply Hc1; [|done]. by eapply fv_trans.
Qed.

(** ** The invariant *)
Definition allb (f : bool → bool) : bool := f true && f false.
Lemma allb_spec f : allb f = true → ∀ b, f b = true.
Proof. unfold allb. intros [? ?]%andb_true_iff []; done. Qed.
Lemma imp_eqb (a x c : bool) : (if Bool.eqb a x then c else true) = true → a = x → c = true.
Proof. intros H ->. by rewrite eqb_reflx in H. Qed.
(** A stopped process is known to the directory, when no capture ever held the session. *)
Definition down (v : View) : bool :=
  implb (v_nocap v && v_stopped v) (v_unmarked v || v_marker v || v_intent v || v_stop v) && implb (v_unmarked v) (v_faults v).
(** What the daemon has in memory fits: a hold keeps the approvals paused and a marker up. *)
Definition calm (v : View) : bool :=
  implb (v_log v) (implb (v_held v) (v_paused v) && implb (negb (v_held v) && negb (v_stop v)) (negb (v_paused v)))
  && implb (v_held v) (v_unmarked v || v_marker v || v_stop v)
  && implb (v_nocap v && v_stopped v) (v_held v || v_stop v || v_intent v || v_unmarked v) && down v.
(** The directory says what the daemon knows, unless something failed. *)
Definition agrees (v : View) : bool :=
  implb (negb (v_faults v))
    (if v_log v then negb (v_intent v) && negb (v_sealed v) && implb (negb (v_stop v)) (Bool.eqb (v_marker v) (v_held v)) else v_sealed v).
Definition rest (v : View) : bool := calm v && agrees v.
Definition post {A} (n : bool) (r : Res A) (w : World) : Prop :=
  ∃ v, sat v w ∧ implb n (v_nocap v) && match r with Crashed => down v | _ => rest v end = true.

(** *** Following a program *)
Lemma sat_marker_exists v w : sat v w → marker_exists w = v_marker v.
Proof. intros Hs. rewrite <- (sat_marker _ _ Hs). unfold marker_exists, some. by destruct (d_marker (w_disk w)). Qed.
Ltac view_bools :=
  repeat match goal with
  | H : ?a = ?x |- ?c = true => lazymatch type of x with bool => revert H; apply (imp_eqb a x c) end
  end;
  repeat match goal with b : bool |- _ => clear b || (revert b; apply allb_spec) end;
  vm_compute; reflexivity.
Ltac views_in H :=
  lazy beta iota delta [v_marker v_intent v_stop v_held v_log v_sealed v_paused v_stopped v_faults v_unmarked v_nocap
    vmarker vintent vstop vheld vlog vsealed vpaused vstopped vfault vunmarked vnocap some from_option andb orb] in H.
Ltac wsimpl := lazy beta iota delta [then_ id fst snd negb andb orb is_ok p_frozen p_since p_holders p_ended ho_user ho_stop ho_captures with_user with_stop with_holders no_holders for_user for_stop for_capture].
Ltac tidy :=
  repeat match goal with
  | H : _ ∨ _ |- _ => destruct H
  | H : fv _ _ |- _ => destruct H
  | H : _ ∧ _ |- _ => destruct H
  | H : ?v' = _ |- _ => is_var v'; lazymatch type of v' with View => subst v' end
  end.
Ltac bools :=
  repeat match goal with
  | H : ?x = ?b |- _ => is_var b; lazymatch type of b with bool => subst b end
  | H : ?b = ?x |- _ => is_var b; lazymatch type of b with bool => subst b end
  | H : true = true |- _ => clear H
  | H : false = false |- _ => clear H
  | H : true = false |- _ => discriminate H
  | H : false = true |- _ => discriminate H
  | H : ?a = ?a → _ |- _ => specialize (H eq_refl)
  | H : _ ≠ _ → _ |- _ => specialize (H ltac:(discriminate))
  end.
Ltac view_hyps :=
  repeat match goal with
  | H : sat _ _ |- _ => progress views_in H
  | H : ?a = ?b |- _ => lazymatch type of b with bool => progress views_in H end
  | H : ?a = ?b → _ |- _ => lazymatch type of b with bool => progress views_in H end
  end.
Ltac after_rule := intros; tidy; view_hyps; bools; wsimpl.
Lemma swp_set_holders h (Q : Res unit → World → Prop) v w :
  sat v w → (∀ w', sat (vnocap (v_nocap v && bool_decide (ho_captures h = [])) v) w' → Q (Done tt) w') → wp (set_holders h) Q w.
Proof.
  intros Hs Hd. unfold set_holders. apply swp_bind, swp_gets. cbn [then_]. eapply swp_put_hold; [done|]. intros w' H'. apply Hd.
  pose proof (sat_held _ _ Hs) as Eh. destruct (hold_of w) as [p|] eqn:E; cbn in *; rewrite Eh in H'.
  - unfold uncaptured in H'. cbn in H'. by destruct v.
  - apply (sat_weaken (bool_decide (ho_captures h = []))) in H'. cbn in H'. rewrite andb_true_r in H'. by destruct v.
Qed.
Lemma swp_new_operation_id (Q : Res text → World → Prop) v w :
  sat v w → (∀ w' x, sat v w' → Q (Done x) w') → (∀ w', sat (vfault v) w' → Q (Failed ErrIo) w') → (∀ w', sat v w' → Q Crashed w') →
  wp new_operation_id Q w.
Proof.
  intros Hs Hd Hf Hc. eapply swp_effect; [done|done|]. intros a w' Hs'. cbn. destruct (a_crash a); [by apply Hc|]. destruct (a_ok a); [by apply Hd|by apply Hf, sat_fault].
Qed.
(** The rule of the effect the program starts with. *)
Ltac rule H :=
  lazymatch goal with
  | |- wp (write_marker _) _ _ => eapply swp_write_marker; [exact H|..]
  | |- wp clear_marker _ _ => eapply swp_clear_marker; [exact H|..]
  | |- wp (write_held_by _) _ _ => eapply swp_write_held_by; [exact H|..]
  | |- wp clear_held_by _ _ => eapply swp_clear_held_by; [exact H|..]
  | |- wp write_stop_marker _ _ => eapply swp_write_stop_marker; [exact H|..]
  | |- wp (record_intent _) _ _ => eapply swp_record_intent; [exact H|..]
  | |- wp clear_intent _ _ => eapply swp_clear_intent; [exact H|..]
  | |- wp (raw_append _) _ _ => eapply swp_raw_append; [exact H|..]
  | |- wp seal_log _ _ => eapply swp_seal_log; [exact H|..]
  | |- wp freeze _ _ => eapply swp_freeze; [exact H|..]
  | |- wp freeze_for_capture _ _ => eapply swp_freeze_for_capture; [exact H|..]
  | |- wp (stabilize _) _ _ => eapply swp_stabilize; [exact H|..]
  | |- wp (thaw _) _ _ => eapply swp_thaw; [exact H|..]
  | |- wp (kill_frozen _) _ _ => eapply swp_kill_frozen; [exact H|..]
  | |- wp (terminate _) _ _ => eapply swp_terminate; [exact H|..]
  | |- wp (pause_approvals _) _ _ => eapply swp_pause_approvals; [exact H|..]
  | |- wp (confirm_one _ _) _ _ => eapply swp_confirm_one; [exact H|..]
  | |- wp (confirm_components _) _ _ => eapply swp_confirm_components; [exact H|..]
  | |- wp (put_hold _) _ _ => eapply swp_put_hold; [exact H|..]
  | |- wp (put_unconfirmed _) _ _ => eapply swp_put_unconfirmed; [exact H|..]
  | |- wp take_hold _ _ => eapply swp_take_hold; [exact H|..]
  | |- wp (enter _) _ _ => eapply swp_enter; [discriminate|exact H|..]
  | |- wp (append _) _ _ => eapply swp_append; [exact H|..]
  | |- wp close_pending_approvals _ _ => eapply swp_close_pending_approvals; [exact H|..]
  | |- wp abort_open_launches_for_stop _ _ => eapply swp_abort_open_launches; [exact H|..]
  | |- wp (set_holders _) _ _ => eapply swp_set_holders; [exact H|..]
  | |- wp new_operation_id _ _ => eapply swp_new_operation_id; [exact H|..]
  | |- wp (with_lock _) _ _ => eapply swp_with_lock; [exact H|..]
  | |- wp (learn (λ _ _, (_, _))) _ _ => eapply swp_told; [exact H|..]
  | |- wp now_instant _ _ => eapply swp_told; [exact H|..]
  | |- wp (instant_at _) _ _ => eapply swp_told; [exact H|..]
  | |- wp (settle _) _ _ => eapply swp_told; [exact H|..]
  | |- wp (count_unsettled _) _ _ => eapply swp_told; [exact H|..]
  | |- wp (prune_holders _) _ _ => eapply swp_told; [exact H|..]
  end.
(** A hold that is taken, by what owns it. *)
Ltac open_hold p :=
  let f := fresh "f" in let t := fresh "t" in let n := fresh "n" in let caps := fresh "caps" in
  destruct p as [[f t [? ? caps] n]|]; [destruct caps|].
Ltac opened := try match goal with p : option Paused |- _ => open_hold p end.
Ltac stuck e :=
  lazymatch e with
  | context [match ?e' with _ => _ end] => stuck e'
  | _ => lazymatch type of e with
         | bool => lazymatch e with
                   | holders_empty (MkHolders _ _ _) => let E := fresh "E" in destruct e eqn:E
                   | _ => destruct e
                   end
         | option Paused => open_hold e
         | _ => destruct e
         end
  end.
Definition unreleased (p : Paused) (ack : Acknowledgement) : M unit :=
  _ ← pause_approvals true; _ ← put_hold (Some p); fail (ErrDaemon (ReleaseUnconfirmed ack)).
Lemma release_components_eq reason p : release_components reason p release_order =
  (ack ← confirm_one PhaseReleased Credentials;
   if confirmed ack then
     ack ← confirm_one PhaseReleased ApprovalsComponent;
     if confirmed ack then
       cleared ← attempt clear_marker;
       match cleared with
       | Err e => _ ← pause_approvals true; _ ← put_hold (Some p); fail e
       | Ok _ =>
           ack ← confirm_one PhaseReleased Proxy;
           if confirmed ack then mret tt
           else _ ← pause_approvals true; _ ← put_hold (Some p); _ ← ignore (write_marker reason); fail (ErrDaemon (ReleaseUnconfirmed ack))
       end
     else unreleased p ack
   else unreleased p ack).
Proof. reflexivity. Qed.
Ltac follow1 :=
  lazymatch goal with
  | H : sat ?v ?w |- wp _ _ (with_lock_flag ?b ?w) => apply (sat_lock v b w) in H; revert H; generalize (with_lock_flag b w); intros
  | |- wp (_ ≫= _) _ _ => apply swp_bind
  | |- wp (release_components _ _ _) _ _ => rewrite release_components_eq
  | |- wp (unreleased _ _) _ _ => unfold unreleased
  | |- wp (of_result ?r) _ _ => unfold of_result
  | |- wp (mret _) _ _ => apply swp_ret; wsimpl
  | |- wp (fail _) _ _ => apply swp_fail; wsimpl
  | |- wp (attempt _) _ _ => apply swp_attempt
  | |- wp (ignore _) _ _ => apply swp_ignore
  | |- wp (map_error _ _) _ _ => apply swp_map_error
  | H : sat ?v ?w |- wp (gets marker_exists) _ ?w => apply swp_gets; rewrite (sat_marker_exists v w H); lazy beta iota delta [v_marker]; wsimpl
  | H : sat ?v ?w |- wp (gets (λ w, s_log (w_served w))) _ ?w => apply swp_gets; rewrite (sat_log v w H); lazy beta iota delta [v_log]; wsimpl
  | H : sat ?v ?w |- wp (gets (λ w, d_stop (w_disk w))) _ ?w => apply swp_gets; rewrite (sat_stop v w H); lazy beta iota delta [v_stop]; wsimpl
  | |- wp (gets _) _ _ => apply swp_gets; wsimpl
  | H : ?e = _ |- wp (match ?e with _ => _ end) _ _ => rewrite H; wsimpl
  | |- wp (match ?e with _ => _ end) _ _ => stuck e; wsimpl
  | |- wp ((match ?e with _ => _ end) _) _ _ => stuck e; wsimpl
  | H : sat ?v ?w |- wp take_hold _ ?w => rule H; clear H; intros; opened; view_hyps; bools; wsimpl
  | H : sat ?v ?w |- wp _ _ ?w => rule H; clear H; after_rule
  end.
(** Where the program ends: the view it has reached is one of those claimed. *)
Ltac captured :=
  repeat match goal with
  | H : _ = true → _ = true |- _ => rewrite <- implb_true_iff in H
  | H : _ → _ |- _ => clear H
  end.
Ltac ends :=
  unfold post;
  lazymatch goal with
  | H : sat ?v ?w |- ∃ _, sat _ ?w ∧ _ => exists v; split; [exact H|]
  | H : sat ?v ?w |- ∃ _, sat _ (with_lock_flag _ ?w) ∧ _ => exists v; split; [by apply sat_lock|]
  end.
Ltac follow := repeat (wsimpl; follow1).
Ltac finish := ends; repeat match goal with H : sat _ _ |- _ => clear H end; captured; view_bools.
