(* ===== verification/SessionInv.v ===== *)
(** * SessionInv: the operations of Session.v keep the invariant of a session

    The rule of every request: from a session at rest ([rest]) each ends at rest, whatever fails
    on the way, and a daemon that dies anywhere in it leaves what [down] promises.  A restart
    takes that back to a session at rest, or leaves it down.  [inv] is that for runs. *)

From stdpp Require Import base numbers option gmap sorting strings list relations.
From S2P Require Import Prelude Bytes Http Approvals Pause Session SessionLogic.
Local Open Scope Z_scope.

(** ** The operations keep the invariant *)
Lemma swp_pause reason v w : sat v w → rest v = true → wp (pause reason) (post (v_nocap v)) w.
Proof. intros Hs Hr. destruct v. unfold pause, pause_entered, take_back_user_layer. follow; finish. Qed.
Lemma swp_resume v w : sat v w → rest v = true → wp resume (post (v_nocap v)) w.
Proof. intros Hs Hr. destruct v. unfold resume, resume_entered, release_hold. follow; finish. Qed.
Lemma swp_hold_for_capture reason pid started v w : sat v w → rest v = true → wp (hold_for_capture reason pid started) (post false) w.
Proof. intros Hs Hr. destruct v. unfold hold_for_capture, hold_for_capture_entered, take_back_capture, unsettled_or_zero. follow; finish. Qed.
Lemma not_captured op v w : sat v w → v_nocap v = true → from_option (captured_by op) false (hold_of w) = false.
Proof.
  intros Hs Hn. destruct (sat_nocap _ _ Hs Hn) as (_ & Hp & _). destruct (hold_of w) as [p|]; [|done]. specialize (Hp p eq_refl). cbn.
  unfold captured_by. by apply bool_decide_eq_true in Hp as ->.
Qed.
Lemma swp_release_capture op v w : sat v w → rest v = true → wp (release_capture op) (post (v_nocap v)) w.
Proof.
  intros Hs Hr. unfold release_capture. apply swp_bind, swp_gets. cbn [then_]. destruct (v_nocap v) eqn:En.
  - rewrite (not_captured _ _ _ Hs En). cbn [negb]. destruct v. cbn in En. subst. follow; finish.
  - destruct (negb _); destruct v; cbn in En; subst; [follow; finish|]. unfold release_hold. follow; finish.
Qed.
Lemma swp_hold_for_stop reason v w : sat v w → rest v = true → wp (hold_for_stop reason) (post (v_nocap v)) w.
Proof. intros Hs Hr. destruct v. unfold hold_for_stop, hold_for_stop_entered, unsettled_or_zero. follow; finish. Qed.
Lemma swp_seal_request v w : sat v w → rest v = true → wp seal_request (post (v_nocap v)) w.
Proof. intros Hs Hr. destruct v. unfold seal_request. follow; finish. Qed.
(** The processes are gone and the session's record is still open. *)
Definition closing (v : View) : bool := v_stop v && negb (v_held v) && v_log v && calm v.
Lemma swp_end_session reason k n v w : sat v w → closing v && implb n (v_nocap v) = true → wp (end_session reason k) (post n) w.
Proof. intros Hs Hr. destruct v. unfold end_session. follow; finish. Qed.
Definition closing_post (n : bool) (r : Res Z) (w : World) : Prop :=
  ∃ v, sat v w ∧ implb n (v_nocap v) && match r with Done _ => closing v | Failed _ => rest v | Crashed => down v end = true.
Definition open (v : View) : bool := calm v && v_log v && (v_faults v || negb (v_sealed v)).
Lemma swp_end_workloads v w : sat v w → open v && v_intent v = true → wp end_workloads (closing_post (v_nocap v)) w.
Proof.
  intros Hs Hr. destruct v. unfold end_workloads, end_confirmed, hold_for_incomplete_stop, hold_for_unconfirmed_stop, since_or_now.
  follow; unfold closing_post; finish.
Qed.
(** A stop, also one that a restart repeats: then what it was asked is still recorded. *)
Definition stop_post (i n : bool) (r : Res Z) (w : World) : Prop :=
  ∃ v, sat v w ∧ implb n (v_nocap v) && match r with Crashed => down v | _ => calm v && (agrees v || i && v_intent v) end = true.
Lemma post_stop i n r w : post n r w → stop_post i n r w.
Proof.
  intros (v & Hs & H). exists v. split; [exact Hs|]. destruct r; [..|exact H]; apply andb_true_iff in H as [-> H]; unfold rest in H;
    by apply andb_true_iff in H as [-> ->].
Qed.
Lemma swp_stop_entered reason v w : sat v w → open v && v_intent v = true → wp (end_workloads ≫= end_session reason) (post (v_nocap v)) w.
Proof.
  intros Hs Hr. apply swp_bind. eapply swp_mono; [by eapply swp_end_workloads|]. intros [k| |] w' (v' & Hs' & H); [|by exists v'..].
  eapply swp_end_session; [done|]. by rewrite andb_comm.
Qed.
Lemma swp_stop_open i reason v w :
  sat v w → calm v && (if v_log v then open v else true) && (agrees v || i && v_intent v) = true → wp (stop reason) (stop_post i (v_nocap v)) w.
Proof.
  intros Hs Hr. unfold stop. apply swp_bind, swp_gets. rewrite (sat_log _ _ Hs). destruct v as [m t s h l se p st f u n]. wsimpl. cbn [v_log]. destruct l; cbn [negb].
  2: follow; unfold stop_post; finish.
  apply swp_bind. rule Hs; clear Hs; after_rule; [|unfold stop_post; finish..].
  unfold stop_entered. apply swp_bind. match goal with H : sat _ w' |- _ => rule H; clear H end; after_rule; [|unfold stop_post; finish..].
  match goal with H : sat _ _ |- _ => apply (swp_stop_entered reason) in H as Hw end.
  - eapply swp_mono; [exact Hw|]. cbn [v_nocap]. intros r w1 H1. apply post_stop. destruct n; exact H1.
  - captured. clear -Hr. view_bools.
Qed.
Lemma swp_stop reason v w : sat v w → rest v = true → wp (stop reason) (post (v_nocap v)) w.
Proof.
  intros Hs Hr. eapply swp_mono; [apply (swp_stop_open false); [done|]|].
  - destruct v. clear Hs. view_bools.
  - intros r w' (v' & Hs' & H). exists v'. split; [done|]. destruct r; [..|done]; unfold rest; by rewrite orb_false_r in H.
Qed.
Lemma swp_append_request conn e v w : sat v w → rest v = true → wp (handle_append conn e) (post (v_nocap v)) w.
Proof.
  intros Hs Hr. destruct v. eapply swp_handle_append; [exact Hs|..]; clear Hs; after_rule; finish.
Qed.
Lemma swp_disconnect conn v w : sat v w → rest v = true → wp (disconnect_open_launches conn) (post (v_nocap v)) w.
Proof.
  intros Hs Hr. unfold disconnect_open_launches. apply swp_bind, swp_gets. cbn [then_]. apply swp_bind. eapply swp_modify; [exact Hs|done|]. clear Hs.
  intros w1 Hs. cbn [then_]. eapply (swp_each _ _ _ v); [|exact Hs|..].
  - intros x w2 v2 Q' Hv H2 Hd _ Hc. apply swp_bind. eapply swp_modify_approvals; [done|by split; [|apply mark_unknown_in_step]|]. intros w3 H3. cbn [then_].
    eapply swp_end_launch; [done|..].
    + intros w4 v4 Hv4 H4. eapply Hd; [|done]. by eapply fv_trans.
    + intros w4 H4. by eapply Hc.
  - destruct v. clear Hs. after_rule; finish.
  - destruct v. clear Hs. after_rule; finish.
  - destruct v. clear Hs. after_rule; finish.
Qed.
Lemma swp_void {A} (m : M A) n w : wp m (post n) w → wp (void m) (post n) w.
Proof.
  intros H. unfold void. apply swp_bind. eapply swp_mono; [exact H|]. intros [a|e|] w' H'; [|exact H'..]. exact H'.
Qed.
Lemma handle_rest r v w : sat v w → rest v = true → wp (handle r) (post (v_nocap v && no_captures r)) w.
Proof.
  intros Hs Hr. destruct r; cbn [no_captures handle]; rewrite ?andb_true_r, ?andb_false_r; try apply swp_void.
  - by apply swp_pause.
  - by apply swp_resume.
  - by apply (swp_hold_for_capture _ _ _ v).
  - by apply swp_release_capture.
  - by apply swp_hold_for_stop.
  - by apply swp_stop.
  - by apply swp_seal_request.
  - by apply swp_append_request.
  - by apply swp_disconnect.
Qed.

(** ** A restart establishes it *)
Lemma swp_recorded_holders (Q : Res Holders → World → Prop) v w :
  sat v w →
  (∀ w' h, (v_nocap v = true → bool_decide (ho_captures h = []) = true) → (v_nocap v && v_marker v = true → ho_user h || ho_stop h = true) →
     sat v w' → Q (Done h) w') →
  (∀ w', sat v w' → Q (Failed (ErrDaemon UnreadableHolders)) w') → (∀ w', sat v w' → Q Crashed w') → wp recorded_holders Q w.
Proof.
  intros Hs Hd Hf Hc. unfold recorded_holders, read_holders. apply swp_bind, swp_bind, swp_gets. cbn [then_].
  assert (∀ h, (v_nocap v = true → bool_decide (ho_captures h = []) = true) → (v_nocap v && v_marker v = true → ho_user h || ho_stop h = true) →
    wp (h ← prune_holders h; stop ← gets (λ w, d_stop (w_disk w)); mret (if stop : bool then with_stop h else h)) Q w) as Hh.
  { intros h H1 H2. apply swp_bind. eapply swp_learn; [exact Hs|done|]. intros a w' Hs'. cbn. apply swp_bind, swp_gets. cbn. apply swp_ret. apply Hd; [| |done].
    - intros Hn. specialize (H1 Hn). apply bool_decide_eq_true in H1. apply bool_decide_eq_true. destruct (d_stop (w_disk w')); by apply (prune_captures (a_dead a)) in H1.
    - intros Hm. specialize (H2 Hm). destruct (d_stop (w_disk w')); cbn; [by rewrite orb_true_r|done]. }
  destruct (d_held_by (w_disk w)) as [[h|]|] eqn:E; [apply swp_ret|apply swp_fail|apply swp_ret]; cbn [then_].
  - apply swp_bind, swp_gets. cbn [then_]. apply Hh; intros Hn; [|apply andb_true_iff in Hn as [Hn _]];
      destruct (sat_nocap _ _ Hs Hn) as [Ho _]; specialize (Ho h E); unfold owned in Ho; by apply andb_true_iff in Ho as [? ?].
  - by apply Hf.
  - apply swp_bind, swp_gets. cbn [then_]. rewrite (sat_marker_exists _ _ Hs). destruct (v_marker v) eqn:Em; cbn [default].
    + by apply Hh.
    + apply Hh; [done|]. by rewrite andb_false_r.
Qed.
Lemma swp_register_missing x (Q : Res unit → World → Prop) v w :
  sat v w → (∀ w' v', fv v v' → sat v' w' → Q (Done tt) w') → (∀ w', sat v w' → Q Crashed w') → wp (register_missing x) Q w.
Proof.
  intros Hs Hd Hc. unfold register_missing. apply swp_bind, swp_gets. cbn [then_]. destruct (launches_state_of _ _); [apply swp_ret; by eapply Hd; [apply fv_refl|]|].
  apply swp_bind. eapply swp_wall_ms; [exact Hs| |done]. intros w1 t H1. cbn [then_]. apply swp_bind. eapply swp_modify; [exact H1|done|]. intros w2 H2. cbn [then_].
  by eapply swp_fv_ignore_register.
Qed.
Lemma swp_read_launch_register l (Q : Res unit → World → Prop) v w :
  sat v w → (∀ w' v', fv v v' → sat v' w' → Q (Done tt) w') → (∀ w' v', fv v v' → sat v' w' → Q Crashed w') → wp (read_launch_register l) Q w.
Proof.
  intros Hs Hd Hc. unfold read_launch_register. apply swp_bind, swp_gets. cbn [then_]. apply swp_bind. eapply swp_modify; [exact Hs|done|]. intros w1 H1. cbn [then_].
  apply swp_bind. eapply swp_modify; [exact H1|done|]. intros w2 H2. cbn [then_].
  match goal with |- wp (each _ ?l) _ _ => generalize l end. clear Hs H1. intros l'. assert (∃ v', fv v v' ∧ sat v' w2) as (v0 & H0 & Hs0) by by exists v; split; [apply fv_refl|].
  clear H2. revert w2 v0 H0 Hs0. induction l' as [|x l' IH]; intros w2 v0 H0 Hs0; cbn [each]; [apply swp_ret; by eapply Hd|].
  apply swp_bind. eapply swp_register_missing; [exact Hs0|..].
  - intros w3 v3 H3 Hs3. cbn [then_]. eapply IH; [|exact Hs3]. by eapply fv_trans.
  - intros w3 Hs3. cbn [then_]. by eapply Hc.
Qed.
(** A daemon that has just started on the directory. *)
Definition starting (v : View) : bool := down v && v_log v && negb (v_held v) && negb (v_paused v) && negb (v_sealed v).
Definition restart_post (n : bool) (r : Res bool) (w : World) : Prop :=
  ∃ v, sat v w ∧ implb n (v_nocap v) && match r with Done false => rest v | _ => down v end = true.
(** Before what was asked for is forgotten: all but that is at rest. *)
Definition settled (i n : bool) {A} (r : Res A) (w : World) : Prop :=
  ∃ v, sat v w ∧ implb n (v_nocap v) && match r with Done _ => open (vintent false v) && agrees (vintent false v) && Bool.eqb (v_intent v) i | _ => down v end = true.
Lemma swp_adopt_hold reason since recorded logged h v w :
  sat v w → starting v && implb (v_nocap v) (owned h && (v_marker v || v_intent v)) = true → wp (adopt_hold reason since recorded logged h) (settled (v_intent v) (v_nocap v)) w.
Proof.
  intros Hs Hr. destruct v, h as [? ? []]; unfold adopt_hold; follow; unfold settled; finish.
Qed.
Lemma swp_let_go f v w : sat v w → starting v = true → (v_nocap v = false ∨ v_intent v = true) → wp (let_go f) (settled (v_intent v) (v_nocap v)) w.
Proof. intros Hs Hr Hi. destruct v. unfold let_go. cbn in Hi. destruct Hi as [->| ->]; follow; unfold settled; finish. Qed.
Lemma swp_finish_resume since recorded v w :
  sat v w → starting v = true → v_intent v = true → wp (finish_resume since recorded) (settled true (v_nocap v)) w.
Proof. intros Hs Hr Hi. destruct v. cbn in Hi. subst. unfold finish_resume, let_go, release_or_stand, release_hold. follow; unfold settled; finish. Qed.
Lemma swp_release_orphaned_hold since recorded v w :
  sat v w → starting v = true → v_nocap v = false → wp (release_orphaned_hold since recorded) (settled (v_intent v) false) w.
Proof. intros Hs Hr Hi. destruct v. cbn in Hi. subst. unfold release_orphaned_hold, let_go, release_or_stand, release_hold. follow; unfold settled; finish. Qed.
Lemma settled_restart {A} n i (m : M A) w :
  wp m (settled i n) w → wp (_ ← m; _ ← clear_intent; mret false) (restart_post n) w.
Proof.
  intros H. apply swp_bind. eapply swp_mono; [exact H|]. clear H. intros [a|e|] w1 (v & Hs & H); [|exists v; by split..]. destruct v.
  follow; unfold restart_post; finish.
Qed.
Lemma settled_restart_plain {A} n (m : M A) w : wp m (settled false n) w → wp (_ ← m; mret false) (restart_post n) w.
Proof.
  intros H. apply swp_bind. eapply swp_mono; [exact H|]. clear H. intros [a|e|] w1 (v & Hs & H); [|exists v; by split..]. destruct v.
  follow; unfold restart_post; finish.
Qed.
Lemma swp_sealed_or_not n v w :
  sat v w → implb n (v_nocap v) && (calm v && (agrees v || v_intent v)) = true →
  wp (intent ← gets (λ w, d_intent (w_disk w));
      match intent with
      | Some _ => fail (ErrDaemon StopNotFinished)
      | None => sealed ← gets (λ w, negb (s_log (w_served w))); mret sealed
      end) (restart_post n) w.
Proof.
  intros Hs H. apply swp_bind, swp_gets. cbn [then_]. pose proof (sat_intent _ _ Hs) as Ei. destruct (d_intent (w_disk w)); cbn in Ei.
  - apply swp_fail. exists v. split; [done|]. clear Hs. destruct v. cbn in Ei. subst. view_bools.
  - apply swp_bind, swp_gets. cbn [then_]. apply swp_ret. exists v. rewrite (sat_log _ _ Hs). split; [done|]. clear Hs.
    destruct v as [m' i' s' h' l' ??????]. cbn in Ei. subst. destruct l'; cbn; view_bools.
Qed.
Lemma swp_finish_stop_tail reason n v w :
  sat v w → open v && agrees (vintent false v) && v_intent v && implb n (v_nocap v) = true →
  wp (answer ← attempt (stop reason);
      intent ← gets (λ w, d_intent (w_disk w));
      match intent with
      | Some _ => fail (ErrDaemon StopNotFinished)
      | None => sealed ← gets (λ w, negb (s_log (w_served w))); mret sealed
      end) (restart_post n) w.
Proof.
  intros Hs Hr. apply swp_bind, swp_attempt. eapply swp_mono; [apply (swp_stop_open true); [exact Hs|]|].
  { clear Hs. destruct v. view_bools. }
  assert (implb n (v_nocap v) = true) as Hn by by apply andb_true_iff in Hr as [_ ?]. clear Hs Hr. revert Hn. generalize (v_nocap v). intros c Hn.
  intros [a|e|] w' (v' & Hs' & H); [apply (swp_sealed_or_not n v'); [exact Hs'|]..|exists v'; split; [exact Hs'|]];
    clear Hs'; destruct n; cbn [implb] in Hn; [subst c; exact H|destruct c, (v_nocap v'); first [exact H|discriminate]..].
Qed.
Lemma starting_down v w r : sat v w → starting v = true → match r with Done false => False | _ => True end → restart_post (v_nocap v) r w.
Proof. intros Hs Hr Hx. exists v. split; [exact Hs|]. clear Hs. destruct v, r as [[]| |]; try done; clear Hx; view_bools. Qed.
Lemma swp_marker_since (Q : Res Z → World → Prop) v w :
  sat v w → (∀ w' x, sat v w' → Q (Done x) w') → (∀ w', sat v w' → Q Crashed w') → wp marker_since Q w.
Proof. apply swp_told. Qed.
Lemma swp_finish_stop reason logged v w :
  sat v w → starting v = true → v_intent v = true → wp (finish_stop reason logged) (restart_post (v_nocap v)) w.
Proof.
  intros Hs Hr Hi. unfold finish_stop. apply swp_bind, swp_gets. rewrite (sat_marker_exists _ _ Hs). cbn [then_]. apply swp_bind. destruct (v_marker v) eqn:Em.
  - apply swp_bind, swp_gets. cbn [then_]. apply swp_bind. eapply swp_marker_since; [exact Hs| |by intros w1 H1; apply starting_down].
    intros w1 since H1. cbn [then_]. apply swp_bind. eapply swp_recorded_holders; [exact H1| |by intros w2 H2; apply starting_down..].
    intros w2 h Hc Ho H2. cbn [then_]. eapply swp_mono; [apply swp_adopt_hold; [exact H2|]|].
    { clear Hs H1 H2. destruct v, h as [? ? []]; cbn in *; subst; captured; view_bools. }
    intros [u|e|] w' (v' & Hs' & H); [|exists v'; by split..]. cbn [then_]. apply (swp_finish_stop_tail _ _ v'); [exact Hs'|]. rewrite Hi in H.
    clear -H. revert H. generalize (v_nocap v). intros n H. destruct v'. view_bools.
  - apply swp_ret. cbn [then_]. apply (swp_finish_stop_tail _ _ v); [exact Hs|]. clear Hs. destruct v. cbn in *. subst. view_bools.
Qed.
(** The hold that the directory still speaks of is adopted, or let go when nothing owns it. *)
Lemma swp_adopt_or_release h reason since recorded logged v w :
  sat v w → starting v && (v_marker v || v_intent v) = true →
  (v_nocap v = true → owned h = true) →
  wp (if holders_empty h then release_orphaned_hold since recorded else adopt_hold reason since recorded logged h) (settled (v_intent v) (v_nocap v)) w.
Proof.
  intros Hs Hr Ho. destruct (holders_empty h) eqn:Eh.
  - assert (v_nocap v = false) as En.
    { destruct (v_nocap v); [|done]. specialize (Ho eq_refl). clear Hs Hr. destruct h as [[] [] []]; done. }
    rewrite En. apply swp_release_orphaned_hold; [exact Hs| |exact En]. by apply andb_true_iff in Hr as [? _].
  - apply swp_adopt_hold; [exact Hs|]. clear Hs Eh. destruct v; cbn in *; captured. revert Ho. generalize (owned h). intros o Ho. view_bools.
Qed.
Lemma swp_instant_at t (Q : Res Z → World → Prop) v w :
  sat v w → (∀ w' x, sat v w' → Q (Done x) w') → (∀ w', sat v w' → Q Crashed w') → wp (instant_at t) Q w.
Proof. apply swp_told. Qed.
Lemma swp_since (b : bool) t (Q : Res Z → World → Prop) v w :
  sat v w → (∀ w' x, sat v w' → Q (Done x) w') → (∀ w', sat v w' → Q Crashed w') → wp (if b then marker_since else instant_at t) Q w.
Proof. destruct b; apply swp_told. Qed.
Lemma swp_reconcile_pause reason started recorded logged v w :
  sat v w → starting v = true → v_intent v = true →
  wp (h ← recorded_holders; since ← instant_at started;
      _ ← adopt_hold (reason_text reason) since recorded logged (with_user true h);
      _ ← clear_intent; mret false) (restart_post (v_nocap v)) w.
Proof.
  intros Hs Hr Hi. apply swp_bind. eapply swp_recorded_holders; [exact Hs| |by intros w2 H2; apply starting_down..].
  intros w1 h Hc _ H1. cbn [then_]. apply swp_bind. eapply swp_instant_at; [exact H1| |by intros w2 H2; apply starting_down].
  intros w2 since H2. cbn [then_]. apply (settled_restart _ (v_intent v)). apply swp_adopt_hold; [exact H2|].
  clear Hs H1 H2. destruct v, h as [? ? []]; cbn in *; subst; captured; view_bools.
Qed.
Lemma swp_reconcile_resume started recorded v w :
  sat v w → starting v = true → v_intent v = true →
  wp (marked ← gets marker_exists;
      since ← (if marked : bool then marker_since else instant_at started) : M Z;
      _ ← finish_resume since recorded;
      _ ← clear_intent; mret false) (restart_post (v_nocap v)) w.
Proof.
  intros Hs Hr Hi. apply swp_bind, swp_gets. cbn [then_]. apply swp_bind. eapply swp_since; [exact Hs| |by intros w2 H2; apply starting_down].
  intros w2 since H2. cbn [then_]. apply (settled_restart _ true). by apply swp_finish_resume.
Qed.
Lemma swp_reconcile_capture op started recorded logged capture_reason v w :
  sat v w → starting v = true → v_intent v = true → v_nocap v = false →
  wp (h ← recorded_holders;
      let h := remove_capture op h in
      marked ← gets marker_exists;
      reason ← gets read_marker_reason;
      since ← (if marked : bool then marker_since else instant_at started) : M Z;
      _ ← (if holders_empty h then release_orphaned_hold since recorded
           else adopt_hold (if marked : bool then reason else capture_reason) since recorded logged h);
      _ ← clear_intent; mret false) (restart_post (v_nocap v)) w.
Proof.
  intros Hs Hr Hi Hn. apply swp_bind. eapply swp_recorded_holders; [exact Hs| |by intros w2 H2; apply starting_down..].
  intros w1 h _ _ H1. cbn [then_]. apply swp_bind, swp_gets. cbn [then_]. apply swp_bind, swp_gets. cbn [then_]. apply swp_bind.
  eapply swp_since; [exact H1| |by intros w2 H2; apply starting_down]. intros w2 since H2. cbn [then_]. apply (settled_restart _ (v_intent v)).
  apply swp_adopt_or_release; [exact H2|by rewrite Hr, Hi, orb_true_r|by rewrite Hn].
Qed.
Lemma swp_reconcile_none recorded logged v w :
  sat v w → starting v = true → v_intent v = false →
  wp (marked ← gets marker_exists;
      if marked : bool then
        reason ← gets read_marker_reason;
        since ← marker_since;
        h ← recorded_holders;
        _ ← (if holders_empty h then release_orphaned_hold since recorded else adopt_hold reason since recorded logged h);
        mret false
      else mret false) (restart_post (v_nocap v)) w.
Proof.
  intros Hs Hr Hi. apply swp_bind, swp_gets. rewrite (sat_marker_exists _ _ Hs). cbn [then_]. destruct (v_marker v) eqn:Em.
  - apply swp_bind, swp_gets. cbn [then_]. apply swp_bind. eapply swp_marker_since; [exact Hs| |by intros w2 H2; apply starting_down].
    intros w1 since H1. cbn [then_]. apply swp_bind. eapply swp_recorded_holders; [exact H1| |by intros w2 H2; apply starting_down..].
    intros w2 h Hc Ho H2. cbn [then_]. apply settled_restart_plain. rewrite <- Hi. apply swp_adopt_or_release; [exact H2|by rewrite Hr, Em|].
    intros Hn. unfold owned. by rewrite (Hc Hn), Ho by (by rewrite Hn, Em).
  - apply swp_ret. exists v. split; [exact Hs|]. clear Hs. destruct v. cbn in *. subst. view_bools.
Qed.
Lemma swp_reconcile v w : sat v w → starting v = true → wp reconcile_entered (restart_post (v_nocap v)) w.
Proof.
  intros Hs Hr. unfold reconcile_entered. apply swp_bind, swp_gets. cbn [then_]. set (tail := read_log_tail _). clearbody tail.
  apply swp_bind. eapply swp_modify; [exact Hs|done|]. clear Hs. intros w1 Hs. cbn [then_]. apply swp_bind.
  eapply swp_read_launch_register; [exact Hs|..].
  2: { intros w2 v2 Hv H2. assert (v_nocap v2 = v_nocap v) as <- by by destruct Hv as [->| ->]. apply starting_down; [exact H2| |done].
       destruct Hv as [->| ->]; [done|]. clear -Hr. destruct v. view_bools. }
  clear Hs. intros w2 v2 Hv Hs. assert (v_nocap v2 = v_nocap v) as <- by by destruct Hv as [->| ->].
  assert (starting v2 = true) as Hr2 by (destruct Hv as [->| ->]; [done|]; clear -Hr; destruct v; view_bools). clear Hv Hr v. rename v2 into v, Hr2 into Hr.
  cbn [then_]. apply swp_bind, swp_gets. cbn [then_]. pose proof (sat_intent _ _ Hs) as Ei.
  destruct (d_intent (w_disk w2)) as [[op started verb]|] eqn:Ed; cbn in Ei; symmetry in Ei; [destruct verb as [reason|reason|reason capturer|]|].
  - by apply swp_reconcile_pause.
  - by apply swp_finish_stop.
  - apply swp_reconcile_capture; [done..|]. destruct (v_nocap v) eqn:En; [|done]. destruct (sat_nocap _ _ Hs En) as (_ & _ & Hi). by specialize (Hi _ Ed).
  - by apply swp_reconcile_resume.
  - by apply swp_reconcile_none.
Qed.
(** Nothing is in memory, and the log is open. *)
Definition fresh_view (v : View) : View := vheld false (vpaused false (vlog true v)).
Lemma swp_restart v w : sat v w → down v = true → wp restart (restart_post (v_nocap v)) w.
Proof.
  intros Hs Hd. unfold wp, restart. set (w1 := with_lock_flag false (with_served Served_new w)).
  assert (sat (fresh_view v) w1) as H1.
  { destruct Hs as [? ? ? ? ? ? ? ? ? ? ? Hn]. split; try done. cbn. intros (? & ? & ?)%Hn. by split_and!. }
  pose proof (sat_sealed _ _ Hs) as Es. cbn [w_disk w1 with_lock_flag with_served]. destruct (d_sealed (w_disk w)).
  - exists (fresh_view v). split; [exact H1|]. clear -Hd. destruct v. view_bools.
  - apply (swp_reconcile (fresh_view v) w1); [exact H1|]. clear -Hd Es. destruct v. cbn in Es. subst. view_bools.
Qed.

(** ** Runs *)
Definition inv (n : bool) (x : Where * World) : Prop :=
  ∃ v, sat v x.2 ∧ implb n (v_nocap v) && match x.1 with Serving => rest v | Down => down v end = true.
Lemma rest_down n v : implb n (v_nocap v) && rest v = true → implb n (v_nocap v) && down v = true.
Proof. intros H. destruct v. view_bools. Qed.
Lemma session_step_inv asked n x y : (∀ r, asked r = true → implb n (no_captures r) = true) → step asked x y → inv n x → inv n y.
Proof.
  intros Ha Hstep (v & Hs & H). destruct Hstep as [r host w Hr|a w at_|w|host w]; cbn [fst snd] in *.
  - apply andb_true_iff in H as [Hn H]. pose proof (handle_rest r v (with_host host w) (sat_host _ _ _ Hs) H) as (v' & Hs' & H'). revert Hs' H'.
    destruct (handle r _) as [x w']. cbn [fst snd]. intros Hs' H'. exists v'. split; [exact Hs'|]. specialize (Ha r Hr). apply andb_true_iff in H' as [H1 H2].
    apply andb_true_iff. split; [|destruct x; exact H2]. destruct n; [|done]. cbn in *. by rewrite Hn, Ha in H1.
  - exists v. split; [by apply sat_others|done].
  - exists v. split; [by apply sat_lock|by apply rest_down].
  - apply andb_true_iff in H as [Hn H]. pose proof (swp_restart v (with_host host w) (sat_host _ _ _ Hs) H) as (v' & Hs' & H'). revert Hs' H'.
    destruct (restart _) as [x w']. cbn [fst snd]. intros Hs' H'. exists v'. split; [exact Hs'|]. apply andb_true_iff in H' as [H1 H2].
    apply andb_true_iff. split; [|destruct x as [[]| |]; exact H2]. destruct n; [|done]. cbn in *. by rewrite Hn in H1.
Qed.
Lemma session_new_inv n exist : inv n (Serving, World_new exist).
Proof.
  exists (MkView false false false false true false false false false false true). split; [|by destruct n].
  by split.
Qed.
Lemma session_reachable_inv asked n x : (∀ r, asked r = true → implb n (no_captures r) = true) → reachable asked x → inv n x.
Proof.
  intros Ha [exist Hsteps]. pose proof (session_new_inv n exist) as Hi. induction Hsteps as [x|x y z Hstep _ IH]; [done|]. apply IH. by eapply session_step_inv.
Qed.
Lemma reachable_rest w : reachable anything (Serving, w) → ∃ v, sat v w ∧ rest v = true.
Proof. intros (v & Hs & H)%(session_reachable_inv _ false); [|done]. by exists v. Qed.
