(* ===== verification/SessionSafety.v ===== *)
(** * SessionSafety: what holds of a session under failures, crashes and restarts

    The theorems about the operations of Session.v, for every list of answers of the host: every
    effect may fail, leave part of itself behind or be the last thing the daemon does, and a
    daemon may be started again on whatever is left.  SessionRuns.v has runs of them. *)

From stdpp Require Import base numbers option gmap sorting strings list relations.
From S2P Require Import Prelude Bytes Http Approvals Pause Session SessionLogic SessionInv.
Local Open Scope Z_scope.

(** ** A stop ends everything *)
(** C12. A session that a stop answered for is over: whatever fails, dies or is restarted afterwards
    and whatever clients launch in the meantime, no process of the session exists and none can
    be launched. *)
Theorem stop_ends_everything reason host w n w1 at_ w2 :
  stop reason (with_host host w) = (Done n, w1) → rtc (step anything) (Serving, w1) (at_, w2) →
  w_exist w2 = false ∧ is_ok (launch_admission (w_disk w2)) = false.
Proof.
  intros Hstop Hsteps. assert (ended w1) as He.
  { unfold stop in Hstop. apply bind_Done in Hstop as (log & w3 & _ & H). destruct (negb log); [done|]. apply bind_Done in H as (l & w4 & _ & H).
    unfold stop_entered in H. apply bind_Done in H as (u & w5 & _ & H). apply bind_Done in H as (m & w6 & Hw & H).
    refine (respects_Done _ ended_effects _ _ _ _ _ H (end_workloads_ends _ _ _ Hw)). by apply respects_end_session; [apply _|apply ended_effects]. }
  assert (ended w2) as [Hs Hx]; [|split; [done|by apply stop_refuses_launches]]. exact (steps_respect _ ended_effects _ _ _ _ _ Hsteps He).
Qed.

(** ** What the kill of a session reports *)
Lemma see_spec l seen :
  NoDup seen → NoDup (foldl see seen l) ∧ ∀ pid, pid ∈ foldl see seen l ↔ pid ∈ seen ∨ pid ∈ l.
Proof.
  revert seen. induction l as [|x l IH]; intros seen Hn; cbn.
  { split; [done|]. intros pid. rewrite elem_of_nil. naive_solver. }
  assert (NoDup (see seen x) ∧ ∀ pid, pid ∈ see seen x ↔ pid ∈ seen ∨ pid = x) as [Hn' Hx].
  { unfold see. case_bool_decide as Hin; [naive_solver|]. split.
    - apply NoDup_app. split_and!; [done| |apply NoDup_singleton]. intros y Hy ->%list_elem_of_singleton. done.
    - intros pid. by rewrite elem_of_app, list_elem_of_singleton. }
  destruct (IH _ Hn') as [H1 H2]. split; [done|]. intros pid. rewrite H2, Hx, elem_of_cons. naive_solver.
Qed.
Lemma terminate_loop_spec seen round rounds n pending :
  NoDup seen → terminate_loop seen round rounds = (n, pending) →
  ∃ used final rest seen', round :: rounds = used ++ final :: rest ∧ NoDup seen' ∧
    (∀ pid, pid ∈ seen' ↔ pid ∈ seen ∨ ∃ r, r ∈ used ++ [final] ∧ pid ∈ rd_found r) ∧
    pending = List.filter (λ pid, bool_decide (pid ∈ rd_present final)) seen' ∧
    n = saturated_u32 (length seen' - length pending) ∧ (pending = [] ∨ rest = []).
Proof.
  revert seen round. induction rounds as [|next rounds IH]; intros seen round Hn; cbn [terminate_loop];
    destruct (see_spec (rd_found round) seen Hn) as [Hn' Hs]; set (pend := List.filter _ _); cycle 1.
  - case_bool_decide as Hp; cycle 1.
    { intros (used & final & rest & seen' & E & Hd & Hm & Hpe & Hc & Hr)%IH; [|done].
      exists (round :: used), final, rest, seen'. rewrite E. split_and!; try done. intros pid. rewrite Hm, Hs. cbn [app].
      setoid_rewrite elem_of_cons. naive_solver. }
    intros [= <- <-]. exists [], round, (next :: rounds), (foldl see seen (rd_found round)). split_and!; try done; [|by left].
    intros pid. rewrite Hs. setoid_rewrite list_elem_of_singleton. naive_solver.
  - intros [= <- <-]. exists [], round, [], (foldl see seen (rd_found round)). split_and!; try done; [|by right].
    intros pid. rewrite Hs. setoid_rewrite list_elem_of_singleton. naive_solver.
Qed.
(** C40. The watch over a kill accounts for every process: it counts what was frozen or found by a rescan
    once each, reports as pending exactly those of them that are present at its last turn, and
    gives up on a pending one only when its time is over. *)
Theorem terminate_accounts frozen round rounds n pending :
  terminate_with frozen round rounds = (n, pending) →
  ∃ used final rest seen, round :: rounds = used ++ final :: rest ∧ NoDup seen ∧
    (∀ pid, pid ∈ seen ↔ pid ∈ frozen ∨ ∃ r, r ∈ used ++ [final] ∧ pid ∈ rd_found r) ∧
    (∀ pid, pid ∈ pending ↔ pid ∈ seen ∧ pid ∈ rd_present final) ∧
    n = saturated_u32 (length seen - length pending) ∧ (pending = [] ∨ rest = []).
Proof.
  unfold terminate_with. destruct (see_spec frozen [] NoDup_nil_2) as [Hn Hs].
  intros (used & final & rest & seen & E & Hd & Hm & Hp & Hc & Hr)%terminate_loop_spec; [|done].
  exists used, final, rest, seen. split_and!; try done.
  - intros pid. rewrite Hm, Hs, elem_of_nil. naive_solver.
  - intros pid. rewrite Hp, elem_of_filter_bool. by rewrite bool_decide_eq_true.
Qed.

(** ** What a daemon at rest promises *)
(** The directory refuses launches in every state but one. *)
Lemma admission_view v w : sat v w →
  is_ok (launch_admission (w_disk w)) = negb (v_intent v) && negb (v_sealed v) && negb (v_stop v) && negb (v_marker v).
Proof.
  intros Hs. unfold launch_admission, lifecycle_marks. rewrite <- (sat_intent _ _ Hs), <- (sat_sealed _ _ Hs), <- (sat_stop _ _ Hs), <- (sat_marker _ _ Hs).
  destruct (d_intent (w_disk w)) as [[op t verb]|]; [by destruct verb|]. cbn [some negb andb]. destruct (d_sealed _); [done|]. destruct (d_stop _); [done|].
  by destruct (d_marker _).
Qed.
Lemma marks_stopped v w : sat v w → v_intent v = false → ((lifecycle_marks (w_disk w)).1 = Stopped ↔ v_sealed v = true).
Proof.
  intros Hs Hi. unfold lifecycle_marks. rewrite <- (sat_sealed _ _ Hs). rewrite <- (sat_intent _ _ Hs) in Hi. destruct (d_intent (w_disk w)); [done|]. cbn.
  destruct (d_sealed _); [done|]. destruct (d_stop _); [done|]. by case_bool_decide.
Qed.
Lemma lifecycle_running v w : sat v w → lifecycle w = Running ↔ v_log v && negb (v_stop v) && negb (v_held v) = true.
Proof.
  intros Hs. unfold lifecycle. rewrite <- (sat_log _ _ Hs), <- (sat_stop _ _ Hs), <- (sat_held _ _ Hs). destruct (s_log _); [|done]. cbn [negb andb].
  destruct (hold_of w) as [p|]; cbn [some negb andb]; [rewrite andb_false_r|rewrite andb_true_r]; [|by destruct (d_stop _)].
  split; [|done]. case_bool_decide; [done|]. by destruct (ho_stop _ || _).
Qed.
Lemma lifecycle_stopped v w : sat v w → lifecycle w = Stopped ↔ v_log v = false.
Proof.
  intros Hs. unfold lifecycle. rewrite <- (sat_log _ _ Hs). destruct (s_log _); [|done]. cbn [negb].
  destruct (hold_of w) as [p|]; [|by destruct (d_stop _)]. case_bool_decide; [done|]. by destruct (ho_stop _ || _).
Qed.
(** C15. While no effect of the host has failed, the directory says what the daemon knows, however
    often the daemon died and was restarted: a launch is admitted exactly when the daemon says
    that the session runs, also after it was sealed; the log is sealed on disk exactly when the
    daemon says that the session is stopped; and until then no request is left half asked and
    the directory does not read as stopped. *)
Theorem directory_agrees w :
  reachable anything (Serving, w) → w_faults w = false →
  (is_ok (launch_admission (w_disk w)) = true ↔ lifecycle w = Running) ∧
  (d_sealed (w_disk w) = true ↔ lifecycle w = Stopped) ∧
  (lifecycle w ≠ Stopped → d_intent (w_disk w) = None ∧ (lifecycle_marks (w_disk w)).1 ≠ Stopped).
Proof.
  intros (v & Hs & H)%reachable_rest Hf. rewrite (lifecycle_stopped _ _ Hs), (admission_view _ _ Hs), (lifecycle_running _ _ Hs), (sat_sealed _ _ Hs).
  rewrite (sat_faults _ _ Hs) in Hf. apply andb_true_iff in H as [_ H]. unfold agrees in H. rewrite Hf in H. cbn in H.
  destruct (v_log v) eqn:Hl; [|rewrite H, andb_false_r; split_and!; done].
  rewrite !andb_true_iff, !negb_true_iff in H. destruct H as [[Hi Hse] Hm]. rewrite Hi, Hse. cbn. split_and!.
  - destruct (v_stop v); [done|]. apply eqb_prop in Hm. by rewrite Hm.
  - done.
  - intros _. split; [|by rewrite (marks_stopped _ _ Hs Hi), Hse]. pose proof (sat_intent _ _ Hs) as E. rewrite Hi in E. by destruct (d_intent _).
Qed.
(** C14. Whatever fails and whenever the daemon dies: while the daemon holds the session the directory
    refuses every launch, unless a marker could not be written; and as long as the session is
    not sealed, its approvals are paused while it is held and run again once it is let go and no
    stop has begun. *)
Theorem held_means_closed w :
  reachable anything (Serving, w) →
  (is_Some (hold_of w) → is_ok (launch_admission (w_disk w)) = true → w_unmarked w = true) ∧
  (lifecycle w ≠ Stopped →
     (is_Some (hold_of w) → paused (s_approvals (w_served w)) = true) ∧
     (hold_of w = None → d_stop (w_disk w) = false → paused (s_approvals (w_served w)) = false)).
Proof.
  intros (v & Hs & H)%reachable_rest. rewrite (lifecycle_stopped _ _ Hs), (admission_view _ _ Hs).
  rewrite (sat_paused _ _ Hs), (sat_stop _ _ Hs), (sat_unmarked _ _ Hs). pose proof (sat_held _ _ Hs) as Eh. clear Hs. split.
  - intros [p Hp]. rewrite Hp in Eh. cbn in Eh. destruct v. cbn in *. subst. intros Hx. view_bools.
  - intros Hl%not_false_is_true. split.
    + intros [p Hp]. rewrite Hp in Eh. cbn in Eh. destruct v. cbn in *. subst. view_bools.
    + intros Hp Hx. rewrite Hp in Eh. cbn in Eh. apply negb_true_iff. destruct v. cbn in *. subst. view_bools.
Qed.
(** C13. A process that is left stopped is accounted for, as long as no capture ever held the session
    and neither a marker could not be written nor a thaw or a kill, whose errors the daemon
    drops, missed a stopped process: wherever the daemon dies, the directory has a marker, an
    intent or a stop for a restart to act on; and a daemon that serves the session knows of it,
    by its hold, an intent or a stop. *)
Theorem frozen_is_accounted_for at_ w :
  reachable no_captures (at_, w) → w_stopped w = true → w_unmarked w = false → w_missed w = false →
  (is_Some (d_marker (w_disk w)) ∨ is_Some (d_intent (w_disk w)) ∨ d_stop (w_disk w) = true) ∧
  (at_ = Serving → is_Some (hold_of w) ∨ is_Some (d_intent (w_disk w)) ∨ d_stop (w_disk w) = true).
Proof.
  intros (v & Hs & H)%(session_reachable_inv _ true) Ht Hu Hm; [|done]. cbn [fst snd] in *. apply (sat_stopped _ _ Hs) in Ht as [Ht|Ht]; [congruence|].
  rewrite (sat_unmarked _ _ Hs) in Hu.
  rewrite (sat_stop _ _ Hs). assert (∀ A (o : option A), is_Some o ↔ some o = true) as E by (intros A []; split; try done; intros []; done).
  rewrite !E, (sat_marker _ _ Hs), (sat_intent _ _ Hs), (sat_held _ _ Hs), <- !orb_true_iff. clear Hs E Hm. split.
  - destruct v, at_; cbn in *; subst; view_bools.
  - intros ->. destruct v; cbn in *; subst; view_bools.
Qed.
(** A pause that answers holds the session: its approvals are paused and no launch is admitted. *)
Theorem pause_holds reason host w o w' :
  reachable anything (Serving, w) → pause reason (with_host host w) = (Done o, w') →
  is_Some (hold_of w') ∧ paused (s_approvals (w_served w')) = true ∧ is_ok (launch_admission (w_disk w')) = false.
Proof.
  intros (v & Hs & H)%reachable_rest Hp. apply (sat_host _ host) in Hs.
  assert (wp (pause reason) (λ r w', match r with Done _ => ∃ v', sat v' w' ∧ v_held v' && v_paused v' && v_marker v' = true | _ => True end) (with_host host w)) as Hw.
  { destruct v. unfold pause, pause_entered, take_back_user_layer. follow; try exact I; finish. }
  unfold wp in Hw. rewrite Hp in Hw. cbn [fst snd] in Hw. destruct Hw as (v' & Hs' & (Hh & Hq)%andb_true_iff). apply andb_true_iff in Hh as [Hh Hpa]. split_and!.
  - pose proof (sat_held _ _ Hs') as E. rewrite Hh in E. destruct (hold_of w'); [by eexists|done].
  - by rewrite (sat_paused _ _ Hs').
  - rewrite (admission_view _ _ Hs'), Hq. cbn. by rewrite andb_false_r.
Qed.
(** A resume that answers leaves no process stopped, but for one that a thaw missed, and the
    approvals running, unless the hold is still a capture's: then the session stays held. *)
Theorem resume_lets_go host w e w' :
  reachable anything (Serving, w) → resume (with_host host w) = (Done e, w') →
  is_Some (hold_of w') ∨ (w_stopped w' = true → w_missed w' = true) ∧ paused (s_approvals (w_served w')) = false ∧ d_marker (w_disk w') = None.
Proof.
  intros (v & Hs & H)%reachable_rest Hp. apply (sat_host _ host) in Hs.
  assert (wp resume (λ r w', match r with
    | Done _ => ∃ v', sat v' w' ∧ v_held v' || negb (v_stopped v') && negb (v_paused v') && negb (v_marker v') = true | _ => True end) (with_host host w)) as Hw.
  { destruct v. unfold resume, resume_entered, release_hold. follow; try exact I; finish. }
  unfold wp in Hw. rewrite Hp in Hw. cbn [fst snd] in Hw. destruct Hw as (v' & Hs' & [Hh|Hq]%orb_true_iff).
  - left. pose proof (sat_held _ _ Hs') as E. rewrite Hh in E. destruct (hold_of w'); [by eexists|done].
  - right. rewrite !andb_true_iff, !negb_true_iff in Hq. destruct Hq as [[H1 H2] H3]. split_and!.
    + intros E. apply (sat_stopped _ _ Hs') in E as [E|E]; congruence.
    + by rewrite (sat_paused _ _ Hs').
    + pose proof (sat_marker _ _ Hs') as E. rewrite H3 in E. by destruct (d_marker _).
Qed.
