(* ===== verification/SessionRuns.v ===== *)
(** * SessionRuns: runs of a session

    Concrete runs of the operations of Session.v on a host that answers as expected but where
    said: that the hypotheses of the theorems of SessionSafety.v can hold, and two runs in which a
    crash leaves a session otherwise than the documentation of its holds says. *)

From stdpp Require Import base numbers option gmap sorting strings list relations.
From S2P Require Import Prelude Bytes Http Approvals Pause Session SessionLogic SessionInv SessionSafety.
Local Open Scope Z_scope.

(** ** A host *)
Definition frozen_one : Frozen := MkFrozen Sigstop [7] None.
Definition fine : Answer :=
  MkAnswer false true Whole false false None frozen_one true 0 Acknowledged [7] (MkRound [7] []) [] 1000 1000 (txt "op") [].
Definition dies : Answer :=
  MkAnswer true true Untouched false false None frozen_one true 0 Acknowledged [7] (MkRound [7] []) [] 1000 1000 (txt "op") [].
Definition all_fine : list Answer := replicate 40 fine.
Lemma run_request asked r host w x w' :
  asked r = true → handle r (with_host host w) = (x, w') → step asked (Serving, w) (after (λ _, true) x, w').
Proof. intros Ha E. pose proof (step_request asked r host w Ha) as H. by rewrite E in H. Qed.
(** What a request leaves behind. *)
Definition asked_for (r : Request) (host : list Answer) (w : World) : World := (handle r (with_host host w)).2.
Definition started : World := World_new true.
Definition paused_world : World := asked_for (Pause (txt "lunch")) all_fine started.
Definition captured_world : World := asked_for (HoldForCapture (txt "snap") 9 (txt "1")) all_fine started.
Definition both_world : World := asked_for (Pause (txt "lunch")) all_fine captured_world.
Definition paused_outcome : PauseOutcome := MkOutcome (SessionPaused Sigstop (txt "lunch")) None None.
Lemma started_reachable asked : reachable asked (Serving, started).
Proof. by exists true. Qed.
Lemma asked_reachable asked r host x w w' at_ :
  asked r = true → (handle r (with_host host w)).1 = x → at_ = after (λ _, true) x → w' = asked_for r host w →
  reachable asked (Serving, w) → reachable asked (at_, w').
Proof.
  intros Ha E -> -> [exist H]. exists exist. eapply rtc_r; [exact H|]. apply (run_request asked r host w x); [done|].
  unfold asked_for. rewrite <- E. by destruct (handle _ _).
Qed.
Lemma paused_reachable asked : asked (Pause (txt "lunch")) = true → reachable asked (Serving, paused_world).
Proof. intros Ha. eapply (asked_reachable _ _ all_fine (Done tt) started); [done|by vm_compute|done|done|apply started_reachable]. Qed.
Lemma captured_reachable : reachable anything (Serving, captured_world).
Proof. eapply (asked_reachable _ (HoldForCapture (txt "snap") 9 (txt "1")) all_fine (Done tt) started); [done|by vm_compute|done|done|apply started_reachable]. Qed.
Lemma both_reachable : reachable anything (Serving, both_world).
Proof. eapply (asked_reachable _ (Pause (txt "lunch")) all_fine (Done tt) captured_world); [done|by vm_compute|done|done|apply captured_reachable]. Qed.

(** ** The theorems at work *)
Definition stopped_world : World := (stop UserStop (with_host all_fine started)).2.
Lemma stop_ends_everything_witness :
  w_exist stopped_world = false ∧ is_ok (launch_admission (w_disk stopped_world)) = false.
Proof.
  apply (stop_ends_everything UserStop all_fine started 1 stopped_world Serving stopped_world); [vm_compute; reflexivity|apply rtc_refl].
Defined.
Lemma terminate_accounts_witness :
  terminate_with [7; 8] (MkRound [9; 7] [8; 9]) [MkRound [9] [9]; MkRound [] []] = (3, []) ∧
  ∃ used final rest seen, [MkRound [9; 7] [8; 9]; MkRound [9] [9]; MkRound [] []] = used ++ final :: rest ∧ NoDup seen ∧
    (∀ pid, pid ∈ seen ↔ pid ∈ [7; 8] ∨ ∃ r, r ∈ used ++ [final] ∧ pid ∈ rd_found r).
Proof.
  split; [vm_compute; reflexivity|].
  destruct (terminate_accounts [7; 8] (MkRound [9; 7] [8; 9]) [MkRound [9] [9]; MkRound [] []] 3 [])
    as (used & final & rest & seen & E & Hn & Hs & _); [vm_compute; reflexivity|].
  exists used, final, rest, seen. split; [exact E|]. split; [exact Hn|exact Hs].
Defined.
Lemma directory_agrees_witness :
  (is_ok (launch_admission (w_disk paused_world)) = true ↔ lifecycle paused_world = Running) ∧
  (d_sealed (w_disk paused_world) = true ↔ lifecycle paused_world = Stopped) ∧
  (lifecycle paused_world ≠ Stopped → d_intent (w_disk paused_world) = None ∧ (lifecycle_marks (w_disk paused_world)).1 ≠ Stopped).
Proof. apply (directory_agrees paused_world); [by apply paused_reachable|reflexivity]. Defined.
Lemma held_means_closed_witness :
  (is_Some (hold_of both_world) → is_ok (launch_admission (w_disk both_world)) = true → w_unmarked both_world = true) ∧
  (lifecycle both_world ≠ Stopped →
     (is_Some (hold_of both_world) → paused (s_approvals (w_served both_world)) = true) ∧
     (hold_of both_world = None → d_stop (w_disk both_world) = false → paused (s_approvals (w_served both_world)) = false)).
Proof. apply (held_means_closed both_world), both_reachable. Defined.
(** The daemon dies in a pause that has frozen the session and not yet marked it. *)
Definition half_paused : World := asked_for (Pause (txt "lunch")) [fine; fine; fine; fine; fine; dies] started.
Lemma half_paused_reachable : reachable no_captures (Down, half_paused).
Proof. eapply (asked_reachable _ (Pause (txt "lunch")) [fine; fine; fine; fine; fine; dies] Crashed started); [done|by vm_compute|done|done|apply started_reachable]. Qed.
Lemma frozen_is_accounted_for_witness :
  (is_Some (d_marker (w_disk half_paused)) ∨ is_Some (d_intent (w_disk half_paused)) ∨ d_stop (w_disk half_paused) = true) ∧
  (Down = Serving → is_Some (hold_of half_paused) ∨ is_Some (d_intent (w_disk half_paused)) ∨ d_stop (w_disk half_paused) = true).
Proof. apply (frozen_is_accounted_for Down half_paused); [apply half_paused_reachable|reflexivity|reflexivity|reflexivity]. Defined.
Lemma pause_holds_witness :
  is_Some (hold_of paused_world) ∧ paused (s_approvals (w_served paused_world)) = true ∧ is_ok (launch_admission (w_disk paused_world)) = false.
Proof. apply (pause_holds (txt "lunch") all_fine started paused_outcome paused_world); [apply started_reachable|vm_compute; reflexivity]. Defined.
Definition resumed_world : World := (resume (with_host all_fine paused_world)).2.
Lemma resume_lets_go_witness :
  is_Some (hold_of resumed_world) ∨
  (w_stopped resumed_world = true → w_missed resumed_world = true) ∧ paused (s_approvals (w_served resumed_world)) = false ∧ d_marker (w_disk resumed_world) = None.
Proof.
  apply (resume_lets_go all_fine paused_world (SessionResumed 0) resumed_world); [by apply paused_reachable|vm_compute; reflexivity].
Defined.

(** ** Crashes that the intents do not cover *)
(** A resume of a session that a capture holds too is to leave it held for the capture.  A daemon
    that dies in it after recording the intent is restarted on an intent that says only that a
    resume was asked: though the owners on disk name the capture and its process lives, the
    session is let go and its processes run. *)
Theorem resume_crash_frees_a_capture : ∃ w host h c,
  reachable anything (Down, w) ∧ d_held_by (w_disk w) = Some (Some h) ∧ c ∈ ho_captures h ∧ w_stopped w = true ∧
  Forall (λ a, a_dead a = [] ∧ a_crash a = false) host ∧
  (restart (with_host host w)).1 = Done false ∧
  let w' := (restart (with_host host w)).2 in hold_of w' = None ∧ w_stopped w' = false ∧ w_faults w' = false.
Proof.
  set (host := [fine; fine; fine; dies]). exists (asked_for Resume host both_world), all_fine, (MkHolders true false [MkCapturer (txt "op") 9 (txt "1") (txt "snap")]),
    (MkCapturer (txt "op") 9 (txt "1") (txt "snap")). split_and!.
  - eapply (asked_reachable _ Resume host Crashed both_world); [done|by vm_compute|done|done|apply both_reachable].
  - by vm_compute.
  - by apply list_elem_of_singleton.
  - by vm_compute.
  - by apply Forall_replicate.
  - by vm_compute.
  - by vm_compute.
Qed.
(** The release of a capture's hold records no intent: a daemon that dies between clearing the
    marker and the thaw leaves the processes stopped with neither marker nor intent, and one that
    is started on it says that the session runs. *)
Theorem release_crash_leaves_it_frozen : ∃ w host,
  reachable anything (Down, w) ∧ w_stopped w = true ∧ d_marker (w_disk w) = None ∧ d_intent (w_disk w) = None ∧
  (restart (with_host host w)).1 = Done false ∧
  let w' := (restart (with_host host w)).2 in lifecycle w' = Running ∧ w_stopped w' = true ∧ w_faults w' = false.
Proof.
  set (host := replicate 6 fine ++ [dies]). exists (asked_for (ReleaseCapture (txt "op")) host captured_world), all_fine. split_and!; try by vm_compute.
  eapply (asked_reachable _ (ReleaseCapture (txt "op")) host Crashed captured_world); [done|by vm_compute|done|done|apply captured_reachable].
Qed.
(** A pause whose lock cannot be taken fails after its intent was recorded, and leaves it: every
    launch is refused while the daemon says that the session runs. *)
Lemma pause_without_lock_keeps_its_intent : ∃ w,
  reachable anything (Serving, w) ∧ lifecycle w = Running ∧ is_Some (d_intent (w_disk w)) ∧ is_ok (launch_admission (w_disk w)) = false.
Proof.
  set (refused := MkAnswer false false Untouched false false None frozen_one true 0 Acknowledged [7] (MkRound [7] []) [] 1000 1000 (txt "op") []).
  set (host := [fine; fine; refused]). exists (asked_for (Pause (txt "lunch")) host started). split_and!; [|by vm_compute|by vm_compute; eexists|by vm_compute].
  eapply (asked_reachable _ (Pause (txt "lunch")) host (Failed ErrIo) started); [done|by vm_compute|done|done|apply started_reachable].
Qed.
