(* ===== verification/Snapshot.v ===== *)
(** * Snapshot: the canonical manifest of a snapshot
      ([crates/ward-snapshot/src/manifest.rs], [id.rs])

    A snapshot is named by the digest of its manifest: the entries of a tree, sorted by path,
    one record each.  The hash is an argument; a digest is its 32 bytes. *)

From stdpp Require Import base numbers option gmap sorting strings list vector.
From S2P Require Import Prelude Bytes Ids.
Local Open Scope Z_scope.

(** ** Errors, digests, roles ([error.rs], [id.rs]) *)
Inductive SnapshotError : Set := EIo | EManifest | EUnsafePath | EIntegrity | ENotFound | ENoSuchEntry | EBudgetExceeded.
#[export] Instance SnapshotError_eq_dec : EqDecision SnapshotError.
Proof. solve_decision. Defined.
Definition Digest : Type := vec byte 32.
Definition Digest_display (d : Digest) : list byte := bytes "blake3:" ++ to_hex d.
Definition Digest_from_hex (s : list byte) : result SnapshotError Digest := map_err (λ _, EManifest) (decode_hex_32 s).
Definition Digest_from_str (s : list byte) : result SnapshotError Digest :=
  hex ← ok_or (strip_prefix (bytes "blake3:") s) EManifest; Digest_from_hex hex.
Inductive SnapshotRole : Set := RoleEntry | RoleCandidate | RoleAccepted | RoleFinal.
#[export] Instance SnapshotRole_eq_dec : EqDecision SnapshotRole.
Proof. solve_decision. Defined.
Definition SnapshotRole_ALL : list SnapshotRole := [RoleEntry; RoleCandidate; RoleAccepted; RoleFinal].
Definition role_str (r : SnapshotRole) : list byte :=
  match r with RoleEntry => bytes "entry" | RoleCandidate => bytes "candidate" | RoleAccepted => bytes "accepted" | RoleFinal => bytes "final" end.

(** ** Entries *)
Inductive EntryType : Set := File | Dir | Symlink | SubmoduleWorktree | Unsupported.
#[export] Instance EntryType_eq_dec : EqDecision EntryType.
Proof. solve_decision. Defined.
Definition token (t : EntryType) : list byte :=
  match t with
  | File => bytes "file"
  | Dir => bytes "dir"
  | Symlink => bytes "symlink"
  | SubmoduleWorktree => bytes "submodule-worktree"
  | Unsupported => bytes "unsupported"
  end.
Definition from_token (t : list byte) : result SnapshotError EntryType :=
  if bool_decide (t = bytes "file") then Ok File
  else if bool_decide (t = bytes "dir") then Ok Dir
  else if bool_decide (t = bytes "symlink") then Ok Symlink
  else if bool_decide (t = bytes "submodule-worktree") then Ok SubmoduleWorktree
  else if bool_decide (t = bytes "unsupported") then Ok Unsupported
  else Err EManifest.
Definition has_content (t : EntryType) : bool := match t with File | Symlink => true | _ => false end.
Record Entry := MkEntry { e_path : list byte; e_kind : EntryType; e_mode : Z; e_size : Z; e_content : option Digest }.
#[export] Instance Entry_eq_dec : EqDecision Entry.
Proof. solve_decision. Defined.
Definition Manifest : Type := list Entry.

(** ** Paths *)
Definition SLASH : byte := "/"%char.
Definition NUL : byte := chr 0.
Definition SP : byte := " "%char.
Definition validate_path (path : list byte) : result SnapshotError unit :=
  _ ← fail_if (bool_decide (path = [])) EUnsafePath;
  _ ← fail_if (bool_decide (head path = Some SLASH)) EUnsafePath;
  _ ← fail_if (bool_decide (NUL ∈ path)) EUnsafePath;
  fail_if (existsb (λ seg, bool_decide (seg = bytes "..")) (split_on SLASH path)) EUnsafePath.
(** [Ord] of byte strings. *)
Fixpoint path_cmp (a b : list byte) : comparison :=
  match a, b with
  | [], [] => Eq
  | [], _ :: _ => Lt
  | _ :: _, [] => Gt
  | x :: a, y :: b => match code x ?= code y with Eq => path_cmp a b | c => c end
  end.
Definition path_le (a b : Entry) : Prop := path_cmp (e_path a) (e_path b) ≠ Gt.
#[export] Instance path_le_dec : RelDecision path_le.
Proof. intros a b. unfold path_le. apply _. Defined.

(** ** Building a manifest *)
Definition check_entry (e : Entry) : result SnapshotError unit :=
  _ ← validate_path (e_path e);
  fail_if (negb (Bool.eqb (bool_decide (is_Some (e_content e))) (has_content (e_kind e)))) EManifest.
Fixpoint check_entries (es : list Entry) : result SnapshotError unit :=
  match es with [] => Ok tt | e :: es => _ ← check_entry e; check_entries es end.
(** Whether two neighbours have the same path. *)
Fixpoint has_duplicate (es : list Entry) : bool :=
  match es with
  | a :: (b :: _) as rest => bool_decide (e_path a = e_path b) || has_duplicate rest
  | _ => false
  end.
Definition from_entries (es : list Entry) : result SnapshotError Manifest :=
  _ ← check_entries es;
  let es := merge_sort path_le es in
  _ ← fail_if (has_duplicate es) EManifest;
  Ok es.
(** A binary search finds the entry of the path, as the entries are sorted and distinct. *)
Definition manifest_get (path : list byte) (m : Manifest) : option Entry := List.find (λ e, bool_decide (e_path e = path)) m.
Definition content_bytes (m : Manifest) : Z := foldr (λ e n, if bool_decide (is_Some (e_content e)) then e_size e + n else n) 0 m.

(** ** Serialising *)
(** [{:o}]: eleven octal digits are enough for every [u32]. *)
Fixpoint oct_go (fuel : nat) (n : Z) (acc : list byte) : list byte :=
  match fuel with
  | O => acc
  | S fuel =>
      let acc := chr (48 + n mod 8) :: acc in
      if n / 8 =? 0 then acc else oct_go fuel (n / 8) acc
  end.
Definition oct_display (n : Z) : list byte := oct_go 11 n [].
(** [u32::from_str_radix(_, 8)] *)
Definition is_oct_digit : byte → bool := in_range 48 55.
Fixpoint oct_parse_digits (max v : Z) (l : list byte) : option Z :=
  match l with
  | [] => Some v
  | c :: l =>
      if is_oct_digit c
      then v8 ← checked_mul max v 8; v' ← checked_add max v8 (code c - 48); oct_parse_digits max v' l
      else None
  end.
Definition oct_parse (max : Z) (l : list byte) : option Z :=
  match default l (strip_prefix ["+"]%char l) with [] => None | l => oct_parse_digits max 0 l end.
Definition MAGIC : list byte := bytes "ward-snapshot-manifest/1" ++ [chr 10].
Definition content_text (c : option Digest) : list byte := match c with Some d => Digest_display d | None => bytes "-" end.
Definition record_head (e : Entry) : list byte :=
  token (e_kind e) ++ SP :: oct_display (e_mode e) ++ SP :: dec_display (e_size e) ++ SP :: content_text (e_content e) ++ [SP].
Definition serialize_entry (e : Entry) : list byte := record_head e ++ e_path e ++ [NUL].
Definition serialize (m : Manifest) : list byte := MAGIC ++ concat (serialize_entry <$> m).

(** ** Parsing *)
Fixpoint splitn (n : nat) (c : byte) (l : list byte) : list (list byte) :=
  match n with
  | O => []
  | S O => [l]
  | S n => match split_once c l with None => [l] | Some (a, b) => a :: splitn n c b end
  end.
Definition split_records (body : list byte) : list (list byte) := List.filter (λ r, negb (bool_decide (r = []))) (split_on NUL body).
Definition parse_content (c : list byte) : result SnapshotError (option Digest) :=
  if bool_decide (c = bytes "-") then Ok None else d ← Digest_from_str c; Ok (Some d).
Definition parse_record (record : list byte) : result SnapshotError Entry :=
  match splitn 5 SP record with
  | [kind; mode; size; content; path] =>
      kind ← from_token kind;
      mode ← ok_or (oct_parse u32_max mode) EManifest;
      size ← ok_or (dec_parse u64_max size) EManifest;
      content ← parse_content content;
      Ok (MkEntry path kind mode size content)
  | _ => Err EManifest
  end.
Fixpoint parse_records (l : list (list byte)) : result SnapshotError (list Entry) :=
  match l with [] => Ok [] | r :: l => e ← parse_record r; es ← parse_records l; Ok (e :: es) end.
Definition parse (b : list byte) : result SnapshotError Manifest :=
  body ← ok_or (strip_prefix MAGIC b) EManifest;
  es ← parse_records (split_records body);
  from_entries es.
(** The name of a snapshot, for a hash. *)
Definition manifest_id (blake3 : list byte → Digest) (m : Manifest) : Digest := blake3 (serialize m).

(** ** The difference of two manifests *)
Record ManifestDiff := MkDiff { df_added : list (list byte); df_removed : list (list byte); df_changed : list (list byte) }.
Fixpoint between_go (fuel : nat) (a b : Manifest) (d : ManifestDiff) : ManifestDiff :=
  match fuel, a, b with
  | S fuel, x :: a', y :: b' =>
      match path_cmp (e_path x) (e_path y) with
      | Lt => between_go fuel a' b (MkDiff (df_added d) (df_removed d ++ [e_path x]) (df_changed d))
      | Gt => between_go fuel a b' (MkDiff (df_added d ++ [e_path y]) (df_removed d) (df_changed d))
      | Eq => between_go fuel a' b' (if bool_decide (x = y) then d else MkDiff (df_added d) (df_removed d) (df_changed d ++ [e_path x]))
      end
  | _, _, _ => MkDiff (df_added d ++ (e_path <$> b)) (df_removed d ++ (e_path <$> a)) (df_changed d)
  end.
(** Each turn of the loop passes an entry, so the lengths are fuel enough. *)
Definition between (a b : Manifest) : ManifestDiff := between_go (length a + length b) a b (MkDiff [] [] []).
Definition diff_is_empty (d : ManifestDiff) : bool :=
  bool_decide (df_added d = []) && bool_decide (df_removed d = []) && bool_decide (df_changed d = []).

(** ** Lemmas: the order of paths *)
Lemma path_cmp_refl a : path_cmp a a = Eq.
Proof. induction a as [|x a IH]; cbn; [done|]. by rewrite Z.compare_refl. Qed.
Lemma path_cmp_eq a b : path_cmp a b = Eq ↔ a = b.
Proof.
  split; [|by intros ->; apply path_cmp_refl]. revert b. induction a as [|x a IH]; intros [|y b]; cbn; try done.
  destruct (Z.compare_spec (code x) (code y)) as [E| |]; try done. intros H. by rewrite (code_inj _ _ E), (IH _ H).
Qed.
Lemma path_cmp_opp a b : path_cmp b a = CompOpp (path_cmp a b).
Proof.
  revert b. induction a as [|x a IH]; intros [|y b]; cbn; try done. rewrite (Z.compare_antisym (code x) (code y)).
  destruct (code x ?= code y); cbn; try done.
Qed.
Lemma path_cmp_trans a b c : path_cmp a b ≠ Gt → path_cmp b c ≠ Gt → path_cmp a c ≠ Gt.
Proof.
  revert b c. induction a as [|x a IH]; intros [|y b] [|z c]; cbn; try done.
  destruct (Z.compare_spec (code x) (code y)), (Z.compare_spec (code y) (code z)), (Z.compare_spec (code x) (code z)); try done; try lia. apply IH.
Qed.
#[export] Instance path_le_trans : Transitive path_le.
Proof. intros a b c. apply path_cmp_trans. Qed.
#[export] Instance path_le_total : Total path_le.
Proof. intros a b. unfold path_le. rewrite (path_cmp_opp (e_path a) (e_path b)). destruct (path_cmp (e_path a) (e_path b)); cbn; auto. Qed.
Lemma path_le_antisym a b : path_le a b → path_le b a → e_path a = e_path b.
Proof.
  unfold path_le. rewrite (path_cmp_opp (e_path a) (e_path b)). intros H1 H2. apply path_cmp_eq. by destruct (path_cmp (e_path a) (e_path b)).
Qed.

(** ** Lemmas: numbers and splitting *)
Definition oct_value (v : Z) (l : list byte) : Z := foldl (λ v c, v * 8 + (code c - 48)) v l.
Lemma oct_value_le v l : 0 ≤ v → Forall (λ c, is_oct_digit c = true) l → v ≤ oct_value v l.
Proof.
  intros Hv Hl. revert v Hv. induction Hl as [|c l Hc _ IH]; intros v Hv; cbn; [lia|]. apply in_range_spec in Hc. unfold oct_value in IH.
  etrans; [|apply IH; lia]. lia.
Qed.
Lemma oct_go_spec fuel n acc : 0 ≤ n < 8 ^ Z.of_nat fuel → (0 < fuel)%nat →
  ∃ ds, oct_go fuel n acc = ds ++ acc ∧ ds ≠ [] ∧ Forall (λ c, is_oct_digit c = true) ds ∧ oct_value 0 ds = n.
Proof.
  revert n acc. induction fuel as [|fuel IH]; intros n acc Hn Hf; [lia|]. cbn [oct_go]. pose proof (Z.mod_pos_bound n 8 ltac:(lia)) as Hm.
  assert (is_oct_digit (chr (48 + n mod 8)) = true) as Hd by (apply in_range_spec; rewrite code_chr; lia).
  assert (code (chr (48 + n mod 8)) - 48 = n mod 8) as Hc by (rewrite code_chr; lia). pose proof (Z.div_mod n 8 ltac:(lia)) as Hdm.
  destruct (Z.eqb_spec (n / 8) 0) as [He|He].
  - exists [chr (48 + n mod 8)]. split_and!; [done..|by constructor|]. unfold oct_value; cbn. lia.
  - rewrite Nat2Z.inj_succ, Z.pow_succ_r in Hn by lia. assert (0 ≤ n / 8 < 8 ^ Z.of_nat fuel) as Hq.
    { split; [apply Z.div_pos; lia|]. apply Z.div_lt_upper_bound; lia. }
    destruct fuel as [|fuel]; [change (8 ^ Z.of_nat 0) with 1 in Hq; lia|].
    destruct (IH (n / 8) (chr (48 + n mod 8) :: acc) Hq ltac:(lia)) as (ds & -> & Hne & Hall & Hv).
    exists (ds ++ [chr (48 + n mod 8)]). rewrite <- (assoc_L app). split_and!; [done|by destruct ds|by apply Forall_app; split; [|constructor]|].
    unfold oct_value in *. rewrite foldl_app, Hv. cbn. lia.
Qed.
Lemma oct_parse_digits_spec max v l : 0 ≤ v → Forall (λ c, is_oct_digit c = true) l → oct_value v l ≤ max →
  oct_parse_digits max v l = Some (oct_value v l).
Proof.
  intros Hv Hl. revert v Hv. induction Hl as [|c l Hc Hl IH]; intros v Hv Hmax; [done|]. cbn [oct_parse_digits]. rewrite Hc. apply in_range_spec in Hc.
  change (oct_value v (c :: l)) with (oct_value (v * 8 + (code c - 48)) l) in *. pose proof (oct_value_le (v * 8 + (code c - 48)) l ltac:(lia) Hl).
  unfold checked_mul, checked_add. rewrite (proj2 (Z.leb_le _ _)) by lia. cbn. rewrite (proj2 (Z.leb_le _ _)) by lia. cbn. apply IH; lia.
Qed.
Lemma oct_display_digits n : 0 ≤ n ≤ u32_max →
  oct_display n ≠ [] ∧ Forall (λ c, is_oct_digit c = true) (oct_display n) ∧ oct_value 0 (oct_display n) = n.
Proof.
  intros Hn. unfold oct_display. destruct (oct_go_spec 11 n []) as (ds & -> & H); [unfold u32_max in Hn; cbn; lia|lia|]. by rewrite app_nil_r.
Qed.
Lemma oct_parse_display n : 0 ≤ n ≤ u32_max → oct_parse u32_max (oct_display n) = Some n.
Proof.
  intros Hn. pose proof (oct_display_digits n Hn) as (Hne & Hall & Hv). unfold oct_parse.
  replace (strip_prefix ["+"]%char (oct_display n)) with (@None (list byte)).
  - cbn [default]. rewrite <- Hv at 2. destruct (oct_display n) as [|c l] eqn:E; [done|]. apply oct_parse_digits_spec; [lia|done|]. rewrite Hv. apply Hn.
  - symmetry. destruct (strip_prefix _ _) as [r|] eqn:E; [|done]. apply strip_prefix_Some in E. rewrite E in Hall. by apply Forall_cons in Hall as [[=] _].
Qed.
Lemma no_byte_in_range c lo hi l : Forall (λ x, in_range lo hi x = true) l → in_range lo hi c = false → c ∉ l.
Proof. intros Hl Hc Hin. rewrite Forall_forall in Hl. specialize (Hl c Hin). congruence. Qed.
Lemma splitn_app n c a b : c ∉ a → splitn (S (S n)) c (a ++ c :: b) = a :: splitn (S n) c b.
Proof. intros Ha. change (splitn (S (S n)) c (a ++ c :: b)) with (match split_once c (a ++ c :: b) with None => [a ++ c :: b] | Some (x, y) => x :: splitn (S n) c y end). by rewrite split_once_app. Qed.

(** ** Lemmas: records *)
Lemma not_in_hex c d : hex_val c = None → c ∉ to_hex d.
Proof.
  intros Hc Hin. pose proof (decode_hex_32_to_hex d) as (_ & Hall & _)%decode_hex_32_Ok. rewrite Forall_forall in Hall. destruct (Hall c Hin). congruence.
Qed.
Lemma not_in_content c k : hex_val c = None → c ∉ bytes "blake3:" → c ∉ bytes "-" → c ∉ content_text k.
Proof. intros Hh Hb Hd. destruct k as [d|]; cbn [content_text]; [|done]. unfold Digest_display. intros [?|?]%elem_of_app; [done|]. by eapply not_in_hex. Qed.
Definition sized (e : Entry) : Prop := 0 ≤ e_mode e ≤ u32_max ∧ in_u64 (e_size e).
Lemma byte_by_eval (c : byte) (l : list byte) : bool_decide (c ∈ l) = false → c ∉ l.
Proof. by intros ?%bool_decide_eq_false. Qed.
Lemma not_in_token c t : c = SP ∨ c = NUL → c ∉ token t.
Proof. intros [->| ->]; destruct t; apply byte_by_eval; vm_compute; reflexivity. Qed.
Lemma not_in_numbers c e : c = SP ∨ c = NUL → sized e → c ∉ oct_display (e_mode e) ∧ c ∉ dec_display (e_size e).
Proof.
  intros Hc [Hm Hz]. split.
  - eapply no_byte_in_range; [apply oct_display_digits, Hm|]. by destruct Hc as [->| ->].
  - eapply no_byte_in_range; [apply dec_display_digits, Hz|]. by destruct Hc as [->| ->].
Qed.
Lemma not_in_content_text c k : c = SP ∨ c = NUL → c ∉ content_text k.
Proof. intros [->| ->]; apply not_in_content; try (by vm_compute); apply byte_by_eval; vm_compute; reflexivity. Qed.
Lemma from_token_token t : from_token (token t) = Ok t.
Proof. by destruct t. Qed.
Lemma Digest_roundtrip d : Digest_from_str (Digest_display d) = Ok d.
Proof.
  unfold Digest_from_str, Digest_display. rewrite (proj2 (strip_prefix_Some _ _ (to_hex d))) by done. cbn. unfold Digest_from_hex. by rewrite decode_hex_32_to_hex.
Qed.
Lemma parse_content_text k : parse_content (content_text k) = Ok k.
Proof.
  unfold parse_content. destruct k as [d|]; cbn [content_text]; [|done]. rewrite bool_decide_false by (unfold Digest_display; done).
  by rewrite Digest_roundtrip.
Qed.
Definition record (e : Entry) : list byte := record_head e ++ e_path e.
Lemma parse_record_head e : sized e → parse_record (record e) = Ok e.
Proof.
  intros He. unfold parse_record, record, record_head. rewrite <- !(assoc_L app), <- !app_comm_cons, <- !(assoc_L app), <- !app_comm_cons, <- !(assoc_L app).
  rewrite splitn_app by (apply not_in_token; auto). rewrite <- !app_comm_cons, <- !(assoc_L app). destruct (not_in_numbers SP e) as [Hm Hz]; [auto|done|].
  rewrite splitn_app by done. rewrite splitn_app by done. cbn [app]. rewrite splitn_app by (apply not_in_content_text; auto). cbn [splitn].
  rewrite from_token_token. destruct He as [Hm' Hz']. rewrite (oct_parse_display _ Hm'), (dec_parse_display _ Hz'), parse_content_text. by destruct e.
Qed.
Lemma not_in_record e : sized e → NUL ∉ e_path e → NUL ∉ record_head e ++ e_path e.
Proof.
  intros He Hp. destruct (not_in_numbers NUL e) as [Hm Hz]; [auto|done|]. pose proof (not_in_token NUL (e_kind e) ltac:(auto)) as Ht.
  pose proof (not_in_content_text NUL (e_content e) ltac:(auto)) as Hc. unfold record_head. rewrite !elem_of_app, !elem_of_cons, !elem_of_app, !elem_of_cons, !elem_of_app, !elem_of_cons, !elem_of_app, list_elem_of_singleton.
  assert (NUL ≠ SP) by (vm_compute; discriminate). intuition.
Qed.
Lemma split_terminated c rs : Forall (λ r, c ∉ r) rs → split_on c (concat ((λ r, r ++ [c]) <$> rs)) = rs ++ [[]].
Proof.
  induction 1 as [|r rs Hr _ IH]; [done|]. cbn. rewrite <- (assoc_L app). cbn. rewrite split_on_app by done. by rewrite IH.
Qed.
Lemma split_records_serialize m : Forall sized m → Forall (λ e, NUL ∉ e_path e) m → split_records (concat (serialize_entry <$> m)) = record <$> m.
Proof.
  intros Hs Hp. assert (serialize_entry <$> m = (λ r, r ++ [NUL]) <$> (record <$> m)) as ->.
  { rewrite <- list_fmap_compose. apply list_fmap_ext. intros i e _. cbn. unfold serialize_entry, record. by rewrite (assoc_L app). }
  unfold split_records. rewrite split_terminated.
  - rewrite List.filter_app. cbn. rewrite app_nil_r. clear. induction m as [|e m IH]; [done|]. cbn [fmap list_fmap List.filter].
    rewrite bool_decide_false; [cbn; by f_equal|]. unfold record, record_head. by destruct (e_kind e).
  - apply Forall_fmap. rewrite Forall_forall in *. intros e He. apply not_in_record; auto.
Qed.
Lemma parse_records_map m : Forall sized m → parse_records (record <$> m) = Ok m.
Proof. induction 1 as [|e m He _ IH]; [done|]. cbn [fmap list_fmap parse_records]. by rewrite (parse_record_head e He), bind_Ok_l, IH. Qed.

(** ** Lemmas: building a manifest *)
Lemma check_entries_Ok es : check_entries es = Ok tt ↔ Forall (λ e, check_entry e = Ok tt) es.
Proof.
  induction es as [|e es IH]; [by split|]. cbn. rewrite bind_Ok, Forall_cons, <- IH. split; [intros ([] & ? & ?)|intros [? ?]]; eauto.
Qed.
Lemma check_entry_nul e : check_entry e = Ok tt → NUL ∉ e_path e.
Proof.
  unfold check_entry, validate_path. intros H. apply bind_Ok in H as ([] & H & _). apply bind_Ok in H as ([] & _ & H). apply bind_Ok in H as ([] & _ & H).
  apply bind_Ok in H as ([] & H & _). apply fail_if_Ok in H. by apply bool_decide_eq_false in H.
Qed.
Lemma has_duplicate_sorted es : StronglySorted path_le es → has_duplicate es = false ↔ NoDup (e_path <$> es).
Proof.
  induction es as [|a es IH]; intros Hs; [by split; [constructor|]|]. apply StronglySorted_inv in Hs as [Hs Ha]. cbn [fmap list_fmap].
  rewrite NoDup_cons. destruct es as [|b es]; [split; [|done]; intros _; split; [by intros ?%elem_of_nil|constructor]|].
  change (has_duplicate (a :: b :: es)) with (bool_decide (e_path a = e_path b) || has_duplicate (b :: es)). rewrite orb_false_iff, bool_decide_eq_false, (IH Hs).
  split; intros [H1 H2]; (split; [|done]); [|intros E; apply H1; rewrite E; apply elem_of_cons; by left].
  intros (e & E & He)%list_elem_of_fmap. apply elem_of_cons in He as [->|He]; [done|]. apply H1. apply StronglySorted_inv in Hs as [_ Hb].
  rewrite Forall_forall in Hb. specialize (Hb e He). rewrite Forall_forall in Ha. specialize (Ha b ltac:(apply elem_of_cons; by left)).
  apply path_le_antisym; [done|]. unfold path_le in *. by rewrite E.
Qed.
(** What [from_entries] gives: its entries, valid, sorted and of distinct paths. *)
Definition canonical (m : Manifest) : Prop := Forall (λ e, check_entry e = Ok tt) m ∧ StronglySorted path_le m ∧ NoDup (e_path <$> m).
Lemma from_entries_Ok es m : from_entries es = Ok m ↔ m ≡ₚ es ∧ canonical m.
Proof.
  pose proof (merge_sort_Permutation path_le es) as Hp. pose proof (StronglySorted_merge_sort path_le es) as Hs.
  unfold from_entries. rewrite bind_Ok. setoid_rewrite bind_Ok. setoid_rewrite fail_if_Ok. split.
  - intros ([] & Hc & ([] & Hd & [= <-])). split; [done|]. apply check_entries_Ok in Hc. split_and!; [by rewrite Hp|done|by apply has_duplicate_sorted].
  - intros [Hm (Hc & Hsm & Hn)]. exists tt. split; [apply check_entries_Ok; by rewrite <- Hm|]. exists tt.
    assert (merge_sort path_le es = m) as ->; [|by split; [apply has_duplicate_sorted|]].
    eapply StronglySorted_unique_strong; [|exact Hs|exact Hsm|by rewrite Hp, Hm]. intros x y Hx Hy H1 H2. rewrite Hp, <- Hm in Hx.
    pose proof (path_le_antisym _ _ H1 H2) as E. apply list_elem_of_lookup in Hx as [i Hi], Hy as [j Hj].
    assert (i = j) as ->; [|congruence]. eapply NoDup_lookup; [exact Hn|by rewrite list_lookup_fmap, Hi|]. by rewrite list_lookup_fmap, Hj, E.
Qed.

(** ** Round trip and identity *)
Lemma canonical_roundtrip m : canonical m → Forall sized m → parse (serialize m) = Ok m.
Proof.
  intros Hc Hs. unfold parse, serialize. rewrite (proj2 (strip_prefix_Some _ _ (concat (serialize_entry <$> m)))) by done. cbn [ok_or]. rewrite bind_Ok_l.
  rewrite split_records_serialize; [|done|eapply Forall_impl; [apply Hc|apply check_entry_nul]]. rewrite (parse_records_map m Hs), bind_Ok_l.
  by apply from_entries_Ok.
Qed.
(** A manifest reads back: what it serialises to parses to it, whatever its paths contain. *)
Theorem manifest_roundtrip es m : from_entries es = Ok m → Forall sized es → parse (serialize m) = Ok m.
Proof. intros [Hp Hc]%from_entries_Ok Hs. apply canonical_roundtrip; [done|by rewrite Hp]. Qed.
(** C19. A snapshot's id names its tree. Entries with modes and sizes of their widths that were
    captured in any order have the same id; two trees serialise alike only when they have the
    same entries; and so trees with the same id have the same entries, unless these two
    trees' own serialisations are a collision of the hash. *)
Theorem snapshot_id_names_its_tree blake3 es1 es2 m1 m2 :
  from_entries es1 = Ok m1 → from_entries es2 = Ok m2 → Forall sized es1 → Forall sized es2 →
  (es1 ≡ₚ es2 → manifest_id blake3 m1 = manifest_id blake3 m2) ∧
  (serialize m1 = serialize m2 → es1 ≡ₚ es2) ∧
  (manifest_id blake3 m1 = manifest_id blake3 m2 →
   es1 ≡ₚ es2 ∨ serialize m1 ≠ serialize m2 ∧ blake3 (serialize m1) = blake3 (serialize m2)).
Proof.
  intros H1 H2 S1 S2.
  assert (serialize m1 = serialize m2 → es1 ≡ₚ es2) as Hinj.
  { intros E. apply from_entries_Ok in H1 as [Hm1 C1], H2 as [Hm2 C2]. pose proof (canonical_roundtrip m1 C1 ltac:(by rewrite Hm1)) as R1.
    rewrite E, (canonical_roundtrip m2 C2) in R1 by by rewrite Hm2. injection R1 as ->. by rewrite <- Hm1, <- Hm2. }
  split_and!; [|done|].
  - intros Hp. f_equal. apply from_entries_Ok in H1 as [Hm1 C1]. assert (from_entries es2 = Ok m1) as E by (apply from_entries_Ok; by rewrite <- Hp). congruence.
  - intros Hid. destruct (decide (serialize m1 = serialize m2)) as [E|E]; [left; auto|by right].
Qed.

(** ** The difference is exact *)
Definition below (p : list byte) (m : Manifest) : Prop := Forall (λ e, path_cmp p (e_path e) = Lt) m.
Lemma path_cmp_lt_trans a b c : path_cmp a b = Lt → path_cmp b c = Lt → path_cmp a c = Lt.
Proof.
  intros H1 H2. destruct (path_cmp a c) eqn:E; [|done|].
  - apply path_cmp_eq in E as ->. rewrite (path_cmp_opp b c), H2 in H1. done.
  - exfalso. apply (path_cmp_trans a b c); [by rewrite H1|by rewrite H2|done].
Qed.
Lemma below_trans p q m : path_cmp p q = Lt → below q m → below p m.
Proof. intros H Hq. eapply Forall_impl; [exact Hq|]. intros e. by apply path_cmp_lt_trans. Qed.
Lemma below_not_in p m : below p m → p ∉ e_path <$> m.
Proof. intros H (e & -> & He)%list_elem_of_fmap. unfold below in H. rewrite Forall_forall in H. specialize (H e He). by rewrite path_cmp_refl in H. Qed.
Inductive ascending : Manifest → Prop :=
| asc_nil : ascending []
| asc_cons x m : below (e_path x) m → ascending m → ascending (x :: m).
Lemma canonical_ascending m : canonical m → ascending m.
Proof.
  intros (_ & Hs & Hn). induction Hs as [|x m Hs IH Hx]; [constructor|]. apply NoDup_cons in Hn as [Hx' Hn]. constructor; [|auto].
  apply Forall_forall. intros e He. rewrite Forall_forall in Hx. specialize (Hx e He). destruct (path_cmp (e_path x) (e_path e)) eqn:E; [|done|done].
  apply path_cmp_eq in E. exfalso. apply Hx'. rewrite E. apply list_elem_of_fmap. eauto.
Qed.
(** An entry of both whose records differ. *)
Definition differs (p : list byte) (a b : Manifest) : Prop := ∃ x y, x ∈ a ∧ y ∈ b ∧ e_path x = p ∧ e_path y = p ∧ x ≠ y.
Definition exact (a b : Manifest) (d d' : ManifestDiff) : Prop := ∀ p,
  (p ∈ df_added d' ↔ p ∈ df_added d ∨ p ∈ e_path <$> b ∧ p ∉ e_path <$> a) ∧
  (p ∈ df_removed d' ↔ p ∈ df_removed d ∨ p ∈ e_path <$> a ∧ p ∉ e_path <$> b) ∧
  (p ∈ df_changed d' ↔ p ∈ df_changed d ∨ differs p a b).
Lemma differs_cons_l p x a b : e_path x ∉ e_path <$> b → differs p (x :: a) b ↔ differs p a b.
Proof.
  intros Hx. split; intros (u & v & Hu & Hv & <- & E & Hne).
  - apply elem_of_cons in Hu as [->|Hu]; [|by exists u, v]. exfalso. apply Hx, list_elem_of_fmap. eauto.
  - exists u, v. split_and!; try done. apply elem_of_cons. by right.
Qed.
Lemma differs_swap p a b : differs p a b ↔ differs p b a.
Proof. split; intros (u & v & ? & ? & ? & ? & ?); exists v, u; split_and!; auto. Qed.
Lemma differs_cons_r p y a b : e_path y ∉ e_path <$> a → differs p a (y :: b) ↔ differs p a b.
Proof. intros H. by rewrite !(differs_swap p a), differs_cons_l. Qed.
Lemma differs_cons_both p x y a b : e_path x = e_path y → e_path x ∉ e_path <$> a → e_path y ∉ e_path <$> b →
  differs p (x :: a) (y :: b) ↔ (p = e_path x ∧ x ≠ y) ∨ differs p a b.
Proof.
  intros E Hx Hy. split.
  - intros (u & v & Hu & Hv & <- & Ev & Hne). apply elem_of_cons in Hu as [->|Hu], Hv as [->|Hv]; [by left|..].
    + exfalso. apply Hy. rewrite <- E, <- Ev. apply list_elem_of_fmap. eauto.
    + exfalso. apply Hx. rewrite E, Ev. apply list_elem_of_fmap. eauto.
    + right. by exists u, v.
  - intros [[-> Hne]|(u & v & Hu & Hv & ? & ? & ?)]; [exists x, y|exists u, v]; split_and!; auto; apply elem_of_cons; auto.
Qed.
Lemma between_go_exact fuel a b d : (length a + length b ≤ fuel)%nat → ascending a → ascending b → exact a b d (between_go fuel a b d).
Proof.
  revert a b d. induction fuel as [|fuel IH]; intros a b d Hf Ha Hb p.
  { destruct a, b; cbn in Hf; try lia. cbn. rewrite !app_nil_r, !elem_of_nil. unfold differs. setoid_rewrite elem_of_nil. naive_solver. }
  destruct Ha as [|x a Hx Ha].
  { cbn [between_go df_added df_removed df_changed fmap list_fmap]. rewrite !elem_of_app, !elem_of_nil. unfold differs. setoid_rewrite elem_of_nil. naive_solver. }
  destruct Hb as [|y b Hy Hb].
  { cbn [between_go df_added df_removed df_changed fmap list_fmap]. rewrite !elem_of_app, !elem_of_nil. unfold differs. setoid_rewrite elem_of_nil. naive_solver. }
  cbn [between_go length] in *. destruct (path_cmp (e_path x) (e_path y)) eqn:E.
  - apply path_cmp_eq in E as E'. destruct (IH a b (if bool_decide (x = y) then d else MkDiff (df_added d) (df_removed d) (df_changed d ++ [e_path x])) ltac:(lia) Ha Hb p)
      as (H1 & H2 & H3). pose proof (below_not_in _ _ Hx) as Nx. pose proof (below_not_in _ _ Hy) as Ny.
    rewrite differs_cons_both by done. cbn [fmap list_fmap]. rewrite H1, H2, H3, !elem_of_cons, <- E'. rewrite <- E' in Ny.
    case_bool_decide; cbn [df_added df_removed df_changed]; rewrite ?elem_of_app, ?list_elem_of_singleton; destruct (decide (p = e_path x)) as [->|]; naive_solver.
  - destruct (IH a (y :: b) (MkDiff (df_added d) (df_removed d ++ [e_path x]) (df_changed d)) ltac:(cbn; lia) Ha ltac:(by constructor) p) as (H1 & H2 & H3).
    assert (e_path x ∉ e_path <$> y :: b) as Nx by (apply below_not_in; constructor; [done|by eapply below_trans]).
    rewrite H1, H2, H3, (differs_cons_l _ x) by done. cbn [df_added df_removed df_changed]. rewrite elem_of_app, list_elem_of_singleton.
    change (e_path <$> x :: a) with (e_path x :: (e_path <$> a)). rewrite !(elem_of_cons (e_path <$> a)). destruct (decide (p = e_path x)) as [->|]; naive_solver.
  - assert (path_cmp (e_path y) (e_path x) = Lt) as E2 by by rewrite path_cmp_opp, E.
    destruct (IH (x :: a) b (MkDiff (df_added d ++ [e_path y]) (df_removed d) (df_changed d)) ltac:(cbn; lia) ltac:(by constructor) Hb p) as (H1 & H2 & H3).
    assert (e_path y ∉ e_path <$> x :: a) as Ny by (apply below_not_in; constructor; [done|by eapply below_trans]).
    rewrite H1, H2, H3, (differs_cons_r _ y) by done. cbn [df_added df_removed df_changed]. rewrite elem_of_app, list_elem_of_singleton.
    change (e_path <$> y :: b) with (e_path y :: (e_path <$> b)). rewrite !(elem_of_cons (e_path <$> b)). destruct (decide (p = e_path y)) as [->|]; naive_solver.
Qed.
(** A difference lists exactly the paths that only the second, only the first, or both with
    another record have; it is empty only for the same tree. *)
Theorem diff_is_exact es1 es2 a b :
  from_entries es1 = Ok a → from_entries es2 = Ok b →
  let d := between a b in
  (∀ p, (p ∈ df_added d ↔ p ∈ e_path <$> b ∧ p ∉ e_path <$> a) ∧ (p ∈ df_removed d ↔ p ∈ e_path <$> a ∧ p ∉ e_path <$> b) ∧
        (p ∈ df_changed d ↔ differs p a b)) ∧
  (diff_is_empty d = true ↔ a = b).
Proof.
  intros [_ Ca]%from_entries_Ok [_ Cb]%from_entries_Ok d.
  pose proof (between_go_exact _ a b (MkDiff [] [] []) (le_n _) (canonical_ascending _ Ca) (canonical_ascending _ Cb)) as H. fold (between a b) in H. fold d in H.
  assert (∀ p, (p ∈ df_added d ↔ p ∈ e_path <$> b ∧ p ∉ e_path <$> a) ∧ (p ∈ df_removed d ↔ p ∈ e_path <$> a ∧ p ∉ e_path <$> b) ∧
        (p ∈ df_changed d ↔ differs p a b)) as Hx.
  { intros p. destruct (H p) as (H1 & H2 & H3). cbn [df_added df_removed df_changed] in *. rewrite H1, H2, H3, !elem_of_nil. naive_solver. }
  split; [done|]. clearbody d. unfold diff_is_empty. rewrite !andb_true_iff, !bool_decide_eq_true. split.
  - intros [[Ea Er] Ec]. destruct Ca as (_ & Sa & Na), Cb as (_ & Sb & Nb).
    assert (∀ m m' : Manifest, (∀ p, p ∈ e_path <$> m → p ∈ e_path <$> m') → (∀ p, ¬ differs p m m') → ∀ x, x ∈ m → x ∈ m') as Hin.
    { intros m m' Hp Hd x Hxm. assert (e_path x ∈ e_path <$> m') as (y & E & Hy)%list_elem_of_fmap by (apply Hp, list_elem_of_fmap; eauto).
      destruct (decide (x = y)) as [->|Hne]; [done|]. exfalso. apply (Hd (e_path x)). by exists x, y. }
    assert (∀ p, ¬ differs p a b) as Hd by (intros p Hp; apply Hx in Hp; rewrite Ec in Hp; by apply elem_of_nil in Hp).
    eapply StronglySorted_unique_strong; [|exact Sa|exact Sb|].
    + intros x y Hxa Hyb L1 L2. destruct (decide (x = y)) as [|Hne]; [done|]. exfalso. apply (Hd (e_path x)). exists x, y. split_and!; try done. by apply eq_sym, path_le_antisym.
    + apply NoDup_Permutation; [by eapply NoDup_fmap_1|by eapply NoDup_fmap_1|]. intros x. split.
      * apply Hin; [|done]. intros p Hp. destruct (decide (p ∈ e_path <$> b)) as [|Hn]; [done|]. destruct (Hx p) as (_ & H2 & _). rewrite Er, elem_of_nil in H2. naive_solver.
      * apply Hin; [|intros p; rewrite differs_swap; apply Hd]. intros p Hp. destruct (decide (p ∈ e_path <$> a)) as [|Hn]; [done|]. destruct (Hx p) as (H1 & _ & _).
        rewrite Ea, elem_of_nil in H1. naive_solver.
  - intros ->. destruct Cb as (_ & _ & Nb). split_and!; apply elem_of_nil_inv; intros p Hp; destruct (Hx p) as (H1 & H2 & H3); [naive_solver..|].
    apply H3 in Hp as (x & y & Hxb & Hyb & <- & E & Hne). apply Hne. apply list_elem_of_lookup in Hxb as [i Hi], Hyb as [j Hj].
    assert (i = j) as ->; [|congruence]. eapply NoDup_lookup; [exact Nb|by rewrite list_lookup_fmap, Hi|]. by rewrite list_lookup_fmap, Hj; cbn; rewrite E.
Qed.
