(* ===== verification/Cas.v ===== *)
(** * Cas: the content-addressed snapshot store, its leases and its kept marks
      ([crates/ward-snapshot/src/cas.rs], [gc.rs])

    The store is five directories: blobs and manifests named by their digests, metadata records,
    leases and the marks of kept snapshots; a file has its content and the time it was last
    modified.  Every file is written by a rename, so a write happens or does not ([ok]). *)

From stdpp Require Import base numbers option gmap sorting strings list vector relations.
From S2P Require Import Prelude Bytes Ids Snapshot.
Local Open Scope Z_scope.

#[export] Instance Digest_countable : Countable Digest.
Proof. refine (inj_countable to_hex (λ s, match decode_hex_32 s with Ok h => Some h | Err _ => None end) _). intros h. by rewrite decode_hex_32_to_hex. Defined.
#[export] Instance SnapshotRole_countable : Countable SnapshotRole.
Proof.
  refine (inj_countable' (λ r, match r with RoleEntry => 0 | RoleCandidate => 1 | RoleAccepted => 2 | RoleFinal => 3 end)
    (λ n, if n =? 0 then RoleEntry else if n =? 1 then RoleCandidate else if n =? 2 then RoleAccepted else RoleFinal) _). by intros [].
Defined.

(** ** The store *)
Record SnapshotMeta := MkMeta { mt_id : Digest; mt_role : SnapshotRole; mt_entries : Z; mt_bytes : Z }.
Record LeaseRecord := MkLease { le_created : Z; le_expires : Z }.
Record Store := MkStore {
  st_blobs : gmap Digest (list byte * Z);
  st_manifests : gmap Digest (list byte * Z);
  st_meta : gmap (Digest * SnapshotRole) (SnapshotMeta * Z);
  (** [None] is a file whose content does not parse *)
  st_leases : gmap Z (option LeaseRecord);
  st_kept : gset Digest }.
Definition Store_new : Store := MkStore ∅ ∅ ∅ ∅ ∅.
Definition set_blobs (x : gmap Digest (list byte * Z)) (s : Store) : Store := MkStore x (st_manifests s) (st_meta s) (st_leases s) (st_kept s).
Definition set_manifests (x : gmap Digest (list byte * Z)) (s : Store) : Store := MkStore (st_blobs s) x (st_meta s) (st_leases s) (st_kept s).
Definition set_meta (x : gmap (Digest * SnapshotRole) (SnapshotMeta * Z)) (s : Store) : Store := MkStore (st_blobs s) (st_manifests s) x (st_leases s) (st_kept s).
Definition set_leases (x : gmap Z (option LeaseRecord)) (s : Store) : Store := MkStore (st_blobs s) (st_manifests s) (st_meta s) x (st_kept s).
Definition set_kept (x : gset Digest) (s : Store) : Store := MkStore (st_blobs s) (st_manifests s) (st_meta s) (st_leases s) x.

Section store.
Context (blake3 : list byte → Digest).

(** ** The content-addressed store ([cas.rs]) *)
Definition put_blob (ok : bool) (now : Z) (b : list byte) (s : Store) : result SnapshotError Digest * Store :=
  let d := blake3 b in
  match st_blobs s !! d with
  | Some _ => (Ok d, s)
  | None => if ok then (Ok d, set_blobs (<[d := (b, now)]> (st_blobs s)) s) else (Err EIo, s)
  end.
Definition has_blob (d : Digest) (s : Store) : bool := bool_decide (is_Some (st_blobs s !! d)).
Definition get_blob (d : Digest) (s : Store) : result SnapshotError (list byte) :=
  match st_blobs s !! d with
  | Some (b, _) => if bool_decide (blake3 b = d) then Ok b else Err EIntegrity
  | None => Err ENotFound
  end.
(** A manifest that is already there is touched. *)
Definition put_manifest (ok : bool) (now : Z) (m : Manifest) (s : Store) : result SnapshotError Digest * Store :=
  let id := manifest_id blake3 m in
  match st_manifests s !! id with
  | Some (b, _) => if ok then (Ok id, set_manifests (<[id := (b, now)]> (st_manifests s)) s) else (Err EIo, s)
  | None => if ok then (Ok id, set_manifests (<[id := (serialize m, now)]> (st_manifests s)) s) else (Err EIo, s)
  end.
Definition checked_manifest (id : Digest) (b : list byte) : result SnapshotError Manifest :=
  m ← parse b; _ ← fail_if (negb (bool_decide (manifest_id blake3 m = id))) EIntegrity; Ok m.
Definition get_manifest (id : Digest) (s : Store) : result SnapshotError Manifest :=
  match st_manifests s !! id with Some (b, _) => checked_manifest id b | None => Err ENotFound end.
Definition put_meta (ok : bool) (now : Z) (m : SnapshotMeta) (s : Store) : result SnapshotError unit * Store :=
  if ok then (Ok tt, set_meta (<[(mt_id m, mt_role m) := (m, now)]> (st_meta s)) s) else (Err EIo, s).
Definition get_meta (id : Digest) (r : SnapshotRole) (s : Store) : result SnapshotError SnapshotMeta :=
  match st_meta s !! (id, r) with Some (m, _) => Ok m | None => Err ENotFound end.

(** ** Leases *)
Definition DEFAULT_CAPTURE_LEASE_TTL : Z := 60 * 60 * 1000.
Definition DEFAULT_GC_GRACE_PERIOD : Z := 30 * 60 * 1000.
Definition is_active (now : Z) (r : LeaseRecord) : bool := now <? le_expires r.
Definition acquire_capture_at (ok : bool) (key now ttl : Z) (s : Store) : result SnapshotError Z * Store :=
  if ok then (Ok key, set_leases (<[key := Some (MkLease now (now + ttl))]> (st_leases s)) s) else (Err EIo, s).
(** Best effort: a lease that cannot be removed stands until it expires. *)
Definition release (ok : bool) (key : Z) (s : Store) : Store := if ok then set_leases (delete key (st_leases s)) s else s.
(** What listing the leases meets: the directory cannot be read, or some entry cannot. *)
Inductive LeaseListing : Set := LeasesUnreadable | LeasesListed (bad : bool).
Definition lease_counts (now : Z) (l : option LeaseRecord) : bool := match l with Some r => is_active now r | None => true end.
Definition any_lease_active (io : LeaseListing) (now : Z) (s : Store) : result SnapshotError bool :=
  match io with
  | LeasesUnreadable => Err EIo
  | LeasesListed bad => Ok (bad || existsb (λ x : Z * option LeaseRecord, lease_counts now x.2) (map_to_list (st_leases s)))
  end.

(** ** Kept snapshots *)
Definition mark_kept (ok : bool) (id : Digest) (s : Store) : result SnapshotError unit * Store :=
  if ok then (Ok tt, set_kept ({[id]} ∪ st_kept s) s) else (Err EIo, s).
Definition unmark_kept (ok : bool) (id : Digest) (s : Store) : result SnapshotError unit * Store :=
  if bool_decide (id ∉ st_kept s) then (Ok tt, s) else if ok then (Ok tt, set_kept (st_kept s ∖ {[id]}) s) else (Err EIo, s).
(** [None]: the directory cannot be read; an entry that cannot be inspected is passed over. *)
Definition kept_ids (io : option (Digest → bool)) (s : Store) : result SnapshotError (gset Digest) :=
  match io with Some seen => Ok (filter (λ id, seen id = true) (st_kept s)) | None => Err EIo end.

End store.
