(* ===== verification/Ignore.v ===== *)
(** * Ignore: which paths a capture leaves out ([crates/ward-snapshot/src/ignore.rs])

    The [.gitignore] matcher: parsing a line to a rule, matching a rule against a path, and the
    last rule that matches deciding.  The wildcard matcher within a segment is the source's loop
    with one remembered star; [glob] is what a pattern means. *)

From stdpp Require Import base numbers option strings list sets.
From S2P Require Import Prelude Bytes Ids Snapshot.
Local Open Scope Z_scope.

Definition STAR : byte := "*"%char.
Definition QUERY : byte := "?"%char.

(** ** Matching a segment *)
(** The loop of [seg_match]: what is left of the pattern and of the text, and the star to come
    back to: the pattern after it and the text from its mark. *)
Definition one_byte (x c : byte) : bool := bool_decide (x = QUERY) || bool_decide (x = c).
Fixpoint seg_loop (fuel : nat) (pat text : list byte) (star : option (list byte * list byte)) : option bool :=
  match fuel with
  | O => None
  | S fuel =>
      match text with
      | [] => Some (forallb (λ x, bool_decide (x = STAR)) pat)
      | c :: text' =>
          let back := match star with
                      | Some (p, m) => seg_loop fuel p (tail m) (Some (p, tail m))
                      | None => Some false
                      end in
          match pat with
          | x :: pat' =>
              if one_byte x c then seg_loop fuel pat' text' star
              else if bool_decide (x = STAR) then seg_loop fuel pat' text (Some (pat', text))
              else back
          | [] => back
          end
      end
  end.
(** Enough for every run: a new star shortens the pattern, a step back its mark, a byte the text. *)
Definition seg_fuel (pat text : list byte) : nat :=
  let n := S (length text) in S (((S (length pat)) * n + length text) * n + length text).
Definition seg_match (pat text : list byte) : bool := default false (seg_loop (seg_fuel pat text) pat text None).

(** ** Matching a path *)
Definition DOUBLE_STAR : list byte := [STAR; STAR].
Fixpoint tails (ts : list (list byte)) : list (list (list byte)) := ts :: match ts with [] => [] | _ :: ts => tails ts end.
Fixpoint seg_list_match (ps ts : list (list byte)) : bool :=
  match ps with
  | [] => bool_decide (ts = [])
  | head :: rest =>
      if bool_decide (head = DOUBLE_STAR) then existsb (seg_list_match rest) (tails ts)
      else match ts with t0 :: trest => seg_match head t0 && seg_list_match rest trest | [] => false end
  end.
Definition path_match (pat text : list byte) : bool := seg_list_match (split_on SLASH pat) (split_on SLASH text).

(** ** Rules *)
Record Rule := MkRule { ru_negated : bool; ru_dir_only : bool; ru_anchored : bool; ru_base : list byte; ru_pat : list byte }.
Definition blank (c : byte) : bool := bool_decide (c ∈ [" "%char; chr 13; chr 9]).
Fixpoint drop_blank (l : list byte) : list byte := match l with [] => [] | c :: l' => if blank c then drop_blank l' else l end.
Definition trim_end_blank (l : list byte) : list byte := reverse (drop_blank (reverse l)).
Definition basename (path : list byte) : list byte := default [] (last (split_on SLASH path)).
Definition strip_base (path base : list byte) : option (list byte) :=
  if bool_decide (base = []) then Some path else rest ← strip_prefix base path; strip_prefix [SLASH] rest.
Definition rule_matches (r : Rule) (path : list byte) (is_dir : bool) : bool :=
  if ru_dir_only r && negb is_dir then false
  else match strip_base path (ru_base r) with
       | None => false
       | Some rel => if ru_anchored r then path_match (ru_pat r) rel else seg_match (ru_pat r) (basename rel)
       end.
Definition parse_line (line base : list byte) : option Rule :=
  let line := trim_end_blank line in
  match line with
  | [] => None
  | c :: rest =>
      if bool_decide (c = "#"%char) then None
      else
        let negated := bool_decide (c = "!"%char) in
        let line := if negated then rest else line in
        let dir_only := bool_decide (last line = Some SLASH) in
        let line := if dir_only then removelast line else line in
        let anchored := bool_decide (SLASH ∈ line) in
        let line := default line (strip_prefix [SLASH] line) in
        if bool_decide (line = []) then None else Some (MkRule negated dir_only anchored base line)
  end.
Definition Rules : Type := list Rule.
Definition push_file (body base : list byte) (rs : Rules) : Rules * nat :=
  let new := omap (λ line, parse_line line base) (split_on (chr 10) body) in (rs ++ new, length new).
Definition truncate_by (n : nat) (rs : Rules) : Rules := take (length rs - n) rs.
Definition is_ignored (rs : Rules) (path : list byte) (is_dir : bool) : bool :=
  fold_left (λ ignored r, if rule_matches r path is_dir then negb (ru_negated r) else ignored) rs false.

(** ** What a pattern means *)
Inductive glob : list byte → list byte → Prop :=
| glob_nil : glob [] []
| glob_star p u t : glob p t → glob (STAR :: p) (u ++ t)
| glob_one x p c t : x ≠ STAR → one_byte x c = true → glob p t → glob (x :: p) (c :: t).
(** Literal bytes and [?], one to one. *)
Definition matched : list byte → list byte → Prop := Forall2 (λ x c, x ≠ STAR ∧ one_byte x c = true).
Lemma glob_star_iff p m : glob (STAR :: p) m ↔ ∃ u t, m = u ++ t ∧ glob p t.
Proof.
  split; [|intros (u & t & -> & H); by constructor]. inversion 1; subst; [eauto|done].
Qed.
Lemma glob_one_iff x p c t : x ≠ STAR → glob (x :: p) (c :: t) ↔ one_byte x c = true ∧ glob p t.
Proof. intros Hx. split; [|intros [? ?]; by constructor]. inversion 1; subst; done. Qed.
Lemma glob_nil_r p : glob p [] ↔ forallb (λ x, bool_decide (x = STAR)) p = true.
Proof.
  induction p as [|x p IH]; cbn; [split; [done|constructor]|]. rewrite andb_true_iff, bool_decide_eq_true, <- IH. split.
  - inversion 1 as [|? u t H' Ha Hb|]; subst. apply app_eq_nil in Hb as [-> ->]. done.
  - intros [-> H]. by apply (glob_star p [] []).
Qed.
Lemma matched_glob w u p t : matched w u → glob p t → glob (w ++ p) (u ++ t).
Proof. intros Hm Hg. induction Hm as [|x c w u [? ?] _ IH]; [done|]. cbn. by constructor. Qed.
(** What stands before a place of a pattern without stars takes as many bytes. *)
Lemma glob_app_inv w u p m : matched w u → glob (w ++ p) m → ∃ u2 t2, m = u2 ++ t2 ∧ length u2 = length w ∧ glob p t2.
Proof.
  intros Hw. revert m. induction Hw as [|x c w u [Hx _] _ IH]; intros m Hm; [by exists [], m|]. cbn in Hm. inversion Hm as [| |? ? c' t ? ? H']; subst; [done|].
  destruct (IH _ H') as (u2 & t2 & -> & Hl & Hg). exists (c' :: u2), t2. split_and!; [done|cbn; by rewrite Hl|done].
Qed.
(** The text after the place. *)
Lemma glob_place w u p t m2 u' : matched w u → u ++ t = u' ++ m2 → glob (w ++ p) m2 → ∃ v t2, t = v ++ t2 ∧ length v = length u' ∧ glob p t2.
Proof.
  intros Hm E Hg. destruct (glob_app_inv _ _ _ _ Hm Hg) as (u2 & t2 & -> & Hl & Ht). pose proof (Forall2_length _ _ _ Hm) as Hlen.
  assert (length u ≤ length (u' ++ u2))%nat as Hle by (rewrite length_app; lia). rewrite app_assoc in E.
  exists (drop (length u) (u' ++ u2)), t2. split_and!; [|rewrite length_drop, length_app; lia|done].
  apply (f_equal (drop (length u))) in E. rewrite drop_app_length in E. rewrite E, drop_app_le by done. done.
Qed.

(** ** The loop decides it *)
Definition place (pat text : list byte) (star : option (list byte * list byte)) : Prop :=
  match star with None => True | Some (p, m) => ∃ w u, p = w ++ pat ∧ m = u ++ text ∧ matched w u end.
Definition goal (pat text : list byte) (star : option (list byte * list byte)) : Prop :=
  match star with None => glob pat text | Some (p, m) => glob (STAR :: p) m end.
Lemma goal_byte x pat c text star : c ≠ STAR → one_byte x c = true → place (x :: pat) (c :: text) star →
  place pat text star ∧ (goal pat text star ↔ goal (x :: pat) (c :: text) star).
Proof.
  intros Hc Ho. assert (x ≠ STAR) as Hx by (intros ->; apply orb_true_iff in Ho as [H%bool_decide_eq_true|H%bool_decide_eq_true]; [discriminate H|congruence]).
  destruct star as [[p m]|]; cbn; [|intros _; split; [done|]; rewrite glob_one_iff by done; naive_solver].
  intros (w & u & -> & -> & Hm). split; [|done]. exists (w ++ [x]), (u ++ [c]). rewrite <- !app_assoc. split_and!; [done|done|].
  apply Forall2_app; [done|]. by repeat constructor.
Qed.
Lemma goal_star pat text star : place (STAR :: pat) text star → goal pat text (Some (pat, text)) ↔ goal (STAR :: pat) text star.
Proof.
  destruct star as [[p m]|]; cbn; [|done]. intros (w & u & -> & -> & Hm). split.
  - intros H. apply (glob_star _ []), matched_glob; done.
  - intros (u' & m2 & E & Hg)%glob_star_iff. destruct (glob_place _ _ _ _ _ _ Hm E Hg) as (v & t2 & -> & _ & (a & b & -> & H)%glob_star_iff).
    rewrite app_assoc. by constructor.
Qed.
Lemma goal_back pat c text p m : place pat (c :: text) (Some (p, m)) → ¬ glob pat (c :: text) →
  place p (tail m) (Some (p, tail m)) ∧ (goal p (tail m) (Some (p, tail m)) ↔ goal pat (c :: text) (Some (p, m))).
Proof.
  intros (w & u & -> & -> & Hm) Hn. split; [exists [], []; by split_and!; try constructor|]. cbn. rewrite !glob_star_iff. split.
  - intros (a & b & E & H). exists (default c (head (u ++ c :: text)) :: a), b. split; [|done]. cbn. rewrite <- E. by destruct u.
  - intros ([|y a] & b & E & H).
    + destruct (glob_place _ _ _ _ _ _ Hm E H) as (v & t2 & E' & Hl & Hg). destruct v; [|done]. cbn in E'. by subst.
    + exists a, b. split; [|done]. by rewrite E.
Qed.
Definition weight (n : nat) (pat text : list byte) (star : option (list byte * list byte)) : nat :=
  let '(a, b) := match star with None => (S (length pat), n) | Some (p, m) => (length p, length m) end in
  (a * S n + b) * S n + length text.
Definition within (n : nat) (pat text : list byte) (star : option (list byte * list byte)) : Prop :=
  (length text ≤ n)%nat ∧ match star with None => True | Some (p, m) => (length pat ≤ length p ∧ length text ≤ length m ≤ n)%nat end.
Lemma seg_loop_ends n fuel pat text star : within n pat text star → (weight n pat text star < fuel)%nat → is_Some (seg_loop fuel pat text star).
Proof.
  revert pat text star. induction fuel as [|fuel IH]; intros pat text star [Ht Hs] Hw; [lia|]. cbn [seg_loop]. destruct text as [|c text]; [eauto|].
  assert (is_Some match star with Some (p, m) => seg_loop fuel p (tail m) (Some (p, tail m)) | None => Some false end) as Hback.
  { destruct star as [[p m]|]; [|eauto]. apply IH; unfold within, weight in *; destruct m as [|y m]; cbn [length tail] in *; [lia|lia|lia|nia]. }
  destruct pat as [|x pat]; [done|]. destruct (one_byte x c); [|destruct (bool_decide (x = STAR)); [|done]].
  - apply IH; unfold within, weight in *; destruct star as [[p m]|]; cbn [length] in *; [lia|lia|nia|nia].
  - apply IH; unfold within, weight in *; destruct star as [[p m]|]; cbn [length] in *; [lia|lia|nia|nia].
Qed.
Lemma seg_loop_decides fuel pat text star b : STAR ∉ text → match star with Some (_, m) => STAR ∉ m | None => True end → place pat text star →
  seg_loop fuel pat text star = Some b → b = true ↔ goal pat text star.
Proof.
  revert pat text star. induction fuel as [|fuel IH]; intros pat text star Ht Hm Hp; [done|]. cbn [seg_loop]. destruct text as [|c text].
  - intros [= <-]. rewrite <- glob_nil_r. destruct star as [[p m]|]; [|done]. destruct Hp as (w & u & -> & -> & Hw). cbn. rewrite glob_star_iff. split.
    + intros H. exists [], (u ++ []). split; [done|]. by apply matched_glob.
    + intros (u' & m2 & E & Hg). destruct (glob_place _ _ _ _ _ _ Hw E Hg) as (v & t2 & E' & _ & H). symmetry in E'. by apply app_eq_nil in E' as [_ ->].
  - apply not_elem_of_cons in Ht as [Hc Ht]. set (back := match star with Some _ => _ | None => _ end).
    assert (¬ glob pat (c :: text) → back = Some b → b = true ↔ goal pat (c :: text) star) as Hback.
    { intros Hn. unfold back. destruct star as [[p m]|]; [|intros [= <-]; by split]. destruct (goal_back _ _ _ _ _ Hp Hn) as [Hp' <-].
      assert (STAR ∉ tail m) as Hm' by (destruct m; [done|by apply not_elem_of_cons in Hm as [_ ?]]). by apply IH. }
    destruct pat as [|x pat]; [apply Hback; by inversion 1|]. destruct (one_byte x c) eqn:Eo; [|case_bool_decide as Ex].
    + destruct (goal_byte _ _ _ _ _ ltac:(done) Eo Hp) as [Hp' <-]. by apply IH.
    + subst x. rewrite <- goal_star by done. apply IH; [by apply not_elem_of_cons..|]. exists [], []. by split_and!; try constructor.
    + apply Hback. rewrite glob_one_iff by done. rewrite Eo. by intros [? _].
Qed.
(** C35. The loop of the wildcard matcher always comes to an end, and on a text without a literal star
    it decides what its pattern means. *)
Theorem seg_match_is_glob pat text :
  is_Some (seg_loop (seg_fuel pat text) pat text None) ∧ (STAR ∉ text → seg_match pat text = true ↔ glob pat text).
Proof.
  destruct (seg_loop_ends (length text) (seg_fuel pat text) pat text None) as [b E]; [done|unfold weight, seg_fuel; lia|].
  unfold seg_match. rewrite E. split; [eauto|]. intros Hn. cbn. by eapply (seg_loop_decides _ pat text None).
Qed.
(** A star of the text is taken for the pattern's own: [*.log] leaves [*x.log] in the snapshot. *)
Theorem a_star_is_taken_literally :
  glob (bytes "*.log") (bytes "*x.log") ∧ seg_match (bytes "*.log") (bytes "*x.log") = false ∧ seg_match (bytes "*.log") (bytes "+x.log") = true.
Proof.
  split_and!; [|vm_compute; reflexivity|vm_compute; reflexivity]. apply (glob_star _ (bytes "*x")). repeat (constructor; [discriminate|reflexivity|]). constructor.
Qed.
Lemma seg_match_is_glob_witness : STAR ∉ bytes "aXbYbZcW" ∧ (seg_match (bytes "a*b?c*") (bytes "aXbYbZcW") = true ↔ glob (bytes "a*b?c*") (bytes "aXbYbZcW")).
Proof.
  assert (STAR ∉ bytes "aXbYbZcW") as H by (apply (bool_decide_unpack _); vm_compute; exact I).
  split; [exact H|]. apply (seg_match_is_glob (bytes "a*b?c*") (bytes "aXbYbZcW")). exact H.
Defined.
