(* ===== verification/Capture.v ===== *)
(** * Capture: walking a tree into a manifest ([crates/ward-snapshot/src/capture.rs], [lib.rs])

    The tree a capture walks, the cache of hashes, the byte budget and the walk itself: it stores
    every leaf it finds, or only hashes it when there is no store.  What the host answers to a
    call is an argument ([WalkIo]); a file has the length its metadata claims beside the bytes
    that are read. *)

From stdpp Require Import base numbers option gmap sorting strings list vector relations.
From S2P Require Import Prelude Bytes Ids Snapshot Cas Ignore.
Local Open Scope Z_scope.

(** ** The tree *)
Inductive Tree : Type :=
| TFile (mode mtime meta_len : Z) (content : list byte)
| TLink (mode : Z) (target : list byte)
| TDir (mode : Z) (children : list (list byte * Tree))
(** a fifo, a socket or a device *)
| TSpecial (mode : Z)
| TOther (mode : Z).
Definition raw_mode (t : Tree) : Z := match t with TFile m _ _ _ | TLink m _ | TDir m _ | TSpecial m | TOther m => m end.
Definition is_tdir (t : Tree) : bool := match t with TDir _ _ => true | _ => false end.
Definition join_rel (dir_rel name : list byte) : list byte := if bool_decide (dir_rel = []) then name else dir_rel ++ SLASH :: name.
Definition child (name : list byte) (ch : list (list byte * Tree)) : option Tree := snd <$> List.find (λ c, bool_decide (c.1 = name)) ch.

(** ** Options, cache, state *)
Record CaptureOptions := MkOptions { op_include_ignored : bool; op_include_git_dir : bool; op_incremental : bool; op_max_bytes : Z }.
Definition DEFAULT_MAX_BYTES : Z := 2 * 1024 * 1024 * 1024.
Definition CaptureOptions_default : CaptureOptions := MkOptions false true false DEFAULT_MAX_BYTES.
Record CacheEntry := MkCacheEntry { ce_mtime : Z; ce_meta_len : Z; ce_content_len : Z; ce_digest : Digest }.
Definition HashCache : Type := gmap (list byte) CacheEntry.
Record CaptureStats := MkStats { cs_total : Z; cs_hashed : Z; cs_cached : Z; cs_bytes : Z }.
Definition CaptureStats_default : CaptureStats := MkStats 0 0 0 0.
Record Walker := MkWalker { wk_store : option Store; wk_cache : HashCache; wk_stats : CaptureStats; wk_entries : list Entry; wk_total : Z; wk_rules : Rules }.
Definition set_store (x : option Store) (w : Walker) : Walker := MkWalker x (wk_cache w) (wk_stats w) (wk_entries w) (wk_total w) (wk_rules w).
Definition set_cache (x : HashCache) (w : Walker) : Walker := MkWalker (wk_store w) x (wk_stats w) (wk_entries w) (wk_total w) (wk_rules w).
Definition set_stats (f : CaptureStats → CaptureStats) (w : Walker) : Walker := MkWalker (wk_store w) (wk_cache w) (f (wk_stats w)) (wk_entries w) (wk_total w) (wk_rules w).
Definition set_total (x : Z) (w : Walker) : Walker := MkWalker (wk_store w) (wk_cache w) (wk_stats w) (wk_entries w) x (wk_rules w).
Definition set_rules (x : Rules) (w : Walker) : Walker := MkWalker (wk_store w) (wk_cache w) (wk_stats w) (wk_entries w) (wk_total w) x.
Definition push (e : Entry) (w : Walker) : Walker := MkWalker (wk_store w) (wk_cache w) (wk_stats w) (wk_entries w ++ [e]) (wk_total w) (wk_rules w).
Definition a_file (x : CaptureStats) : CaptureStats := MkStats (cs_total x + 1) (cs_hashed x) (cs_cached x) (cs_bytes x).
Definition a_hashed (n : Z) (x : CaptureStats) : CaptureStats := MkStats (cs_total x) (cs_hashed x + 1) (cs_cached x) (cs_bytes x + n).
Definition a_cached (x : CaptureStats) : CaptureStats := MkStats (cs_total x) (cs_hashed x) (cs_cached x + 1) (cs_bytes x).

(** ** The walk's effects *)
Definition W (A : Type) : Type := Walker → result SnapshotError A * Walker.
#[export] Instance W_ret : MRet W := λ A a w, (Ok a, w).
#[export] Instance W_bind : MBind W := λ A B f m w, match m w with (Ok a, w) => f a w | (Err e, w) => (Err e, w) end.
Definition throwW {A} (e : SnapshotError) : W A := λ w, (Err e, w).
Definition modifyW (f : Walker → Walker) : W unit := λ w, (Ok tt, f w).
Definition getW : W Walker := λ w, (Ok w, w).
Definition failW (b : bool) (e : SnapshotError) : W unit := if b then throwW e else mret tt.
Definition liftW {A} (r : result SnapshotError A) : W A := λ w, (r, w).

(** What the host answers: which metadata and contents can be read, by path, what reading a
    [.gitignore] that is not a regular file gives, and which blobs can be written. *)
Inductive IgnoreRead : Set := NoFile | Body (b : list byte) | Unreadable.
Record WalkIo := MkWalkIo { wi_stat : list byte → bool; wi_read : list byte → bool; wi_through : list byte → IgnoreRead; wi_blob : list byte → bool }.

Section walk.
Context (blake3 : list byte → Digest) (io : WalkIo) (now : Z) (opts : CaptureOptions).
(** The walker's [store]. *)
Definition store_leaf (b : list byte) : W Digest := λ w,
  match wk_store w with
  | Some s => let '(r, s) := put_blob blake3 (wi_blob io b) now b s in (r, set_store (Some s) w)
  | None => (Ok (blake3 b), w)
  end.
Definition read_capped (b : list byte) (remaining : Z) : result SnapshotError (list byte) :=
  if remaining <? Z.of_nat (length b) then Err EBudgetExceeded else Ok b.
Definition read_within_budget (abs b : list byte) : W (list byte) :=
  _ ← failW (negb (wi_read io abs)) EIo;
  w ← getW;
  liftW (read_capped b (saturating_sub (op_max_bytes opts) (wk_total w))).
Definition read_and_store (abs b : list byte) : W (Digest * Z) :=
  b ← read_within_budget abs b;
  let read_len := Z.of_nat (length b) in
  d ← store_leaf b;
  mret (d, read_len).
Definition fresh_hash (abs b : list byte) : W (Digest * Z) :=
  '(d, n) ← read_and_store abs b;
  _ ← modifyW (set_stats (a_hashed n));
  mret (d, n).
Definition remember (abs : list byte) (e : CacheEntry) : W unit := λ w, (Ok tt, set_cache (<[abs := e]> (wk_cache w)) w).
Definition cache_hit (w : Walker) (abs : list byte) (mtime meta_len : Z) : option CacheEntry :=
  e ← wk_cache w !! abs; if (ce_mtime e =? mtime) && (ce_meta_len e =? meta_len) then Some e else None.
(** Whether a hit's blob is missing from the store. *)
Definition missing (w : Walker) (d : Digest) : bool := match wk_store w with Some s => negb (has_blob d s) | None => false end.
Definition hash_file (abs : list byte) (mtime meta_len : Z) (b : list byte) : W (Digest * Z) :=
  if op_incremental opts then
    w ← getW;
    match cache_hit w abs mtime meta_len with
    | Some e =>
        if missing w (ce_digest e) then
          '(stored, read_len) ← read_and_store abs b;
          if bool_decide (stored = ce_digest e) then
            _ ← modifyW (set_stats a_cached); mret (ce_digest e, ce_content_len e)
          else
            _ ← remember abs (MkCacheEntry mtime meta_len read_len stored);
            _ ← modifyW (set_stats a_cached); mret (stored, read_len)
        else
          _ ← modifyW (set_stats a_cached); mret (ce_digest e, ce_content_len e)
    | None =>
        '(d, read_len) ← read_and_store abs b;
        _ ← remember abs (MkCacheEntry mtime meta_len read_len d);
        _ ← modifyW (set_stats (a_hashed read_len)); mret (d, read_len)
    end
  else fresh_hash abs b.

(** ** The walk *)
Definition read_gitignore (rel : list byte) (ch : list (list byte * Tree)) : IgnoreRead :=
  match child (bytes ".gitignore") ch with
  | None => NoFile
  | Some (TFile _ _ _ b) => if wi_read io (join_rel rel (bytes ".gitignore")) then Body b else Unreadable
  | Some (TDir _ _) => Unreadable
  | Some _ => wi_through io rel
  end.
Definition push_rules (body rel : list byte) : W nat := λ w, let '(rs, n) := push_file body rel (wk_rules w) in (Ok n, set_rules rs w).
Definition Visitor : Type := list byte * W unit.
Definition visitor_le (a b : Visitor) : Prop := path_cmp a.1 b.1 ≠ Gt.
#[export] Instance visitor_le_dec : RelDecision visitor_le.
Proof. intros a b. unfold visitor_le. apply _. Defined.
Fixpoint visit_all (vs : list Visitor) : W unit := match vs with [] => mret tt | v :: vs => _ ← v.2; visit_all vs end.
(** [kids]: the visits of the children, by name. *)
Definition walk_dir (rel : list byte) (ch : list (list byte * Tree)) (kids : list Visitor) : W unit :=
  added ← (if op_include_ignored opts then mret O
           else match read_gitignore rel ch with
                | Body b => push_rules b rel
                | NoFile => mret O
                | Unreadable => throwW EIo
                end);
  _ ← failW (negb (wi_read io rel)) EIo;
  _ ← visit_all (merge_sort visitor_le kids);
  modifyW (λ w, set_rules (truncate_by added (wk_rules w)) w).
Definition GIT : list byte := bytes ".git".
Definition visit_file (rel : list byte) (mode mtime meta_len : Z) (content : list byte) : W unit :=
  _ ← modifyW (set_stats a_file);
  w ← getW;
  _ ← failW (op_max_bytes opts <? saturating_add u64_max (wk_total w) meta_len) EBudgetExceeded;
  '(d, read_len) ← hash_file rel mtime meta_len content;
  w ← getW;
  let total := saturating_add u64_max (wk_total w) read_len in
  _ ← failW (op_max_bytes opts <? total) EBudgetExceeded;
  _ ← modifyW (set_total total);
  modifyW (push (MkEntry rel File mode read_len (Some d))).
Fixpoint visit (dir_rel name : list byte) (t : Tree) {struct t} : W unit :=
  let rel := join_rel dir_rel name in
  let is_git := bool_decide (name = GIT) in
  if is_git && negb (op_include_git_dir opts) then mret tt
  else
    _ ← failW (negb (wi_stat io rel)) EIo;
    w ← getW;
    if negb is_git && negb (op_include_ignored opts) && is_ignored (wk_rules w) rel (is_tdir t) then mret tt
    else
      let mode := Z.land (raw_mode t) 4095 in
      match t with
      | TLink _ target =>
          _ ← failW (negb (wi_read io rel)) EIo;
          d ← store_leaf target;
          modifyW (push (MkEntry rel Symlink mode (Z.of_nat (length target)) (Some d)))
      | TDir _ ch =>
          let kind := if bool_decide (is_Some (child GIT ch)) && wi_stat io (join_rel rel GIT) then SubmoduleWorktree else Dir in
          _ ← modifyW (push (MkEntry rel kind mode 0 None));
          walk_dir rel ch (List.map (λ c, (c.1, visit rel c.1 c.2)) ch)
      | TFile _ mtime meta_len content => visit_file rel mode mtime meta_len content
      | TSpecial _ => modifyW (push (MkEntry rel Unsupported mode 0 None))
      | TOther _ => mret tt
      end.
Definition walk_root (ch : list (list byte * Tree)) : W unit := walk_dir [] ch (List.map (λ c, (c.1, visit [] c.1 c.2)) ch).
Definition Walker_new (cas : option Store) (cache : HashCache) : Walker := MkWalker cas cache CaptureStats_default [] 0 [].
Definition walk (cas : option Store) (cache : HashCache) (ch : list (list byte * Tree)) : result SnapshotError Manifest * Walker :=
  let '(r, w) := walk_root ch (Walker_new cas cache) in (_ ← r; from_entries (wk_entries w), w).
(** [digest_manifest]: nothing is stored. *)
Definition digest_manifest (cache : HashCache) (ch : list (list byte * Tree)) : result SnapshotError Manifest := (walk None cache ch).1.
Definition digest_worktree (cache : HashCache) (ch : list (list byte * Tree)) : result SnapshotError Digest :=
  m ← digest_manifest cache ch; Ok (manifest_id blake3 m).
End walk.

(** ** A capture ([SnapshotStore::capture_with]) *)
(** Which of its other writes succeed. *)
Record CaptureIo := MkCaptureIo { ci_lease : bool; ci_walk : WalkIo; ci_manifest : bool; ci_meta : bool; ci_release : bool }.
(** A capture under its lease, which is released however the capture ends. *)
Definition capture_with (blake3 : list byte → Digest) (io : CaptureIo) (key now : Z) (opts : CaptureOptions) (cache : HashCache) (role : SnapshotRole)
    (ch : list (list byte * Tree)) (s : Store) : result SnapshotError SnapshotMeta * Store :=
  match acquire_capture_at (ci_lease io) key now DEFAULT_CAPTURE_LEASE_TTL s with
  | (Err e, s) => (Err e, s)
  | (Ok _, s) =>
      let '(r, w) := walk blake3 (ci_walk io) now opts (Some s) cache ch in
      let s := default s (wk_store w) in
      match r with
      | Err e => (Err e, release (ci_release io) key s)
      | Ok m =>
          match put_manifest blake3 (ci_manifest io) now m s with
          | (Err e, s) => (Err e, release (ci_release io) key s)
          | (Ok id, s) =>
              let meta := MkMeta id role (Z.of_nat (length m)) (content_bytes m) in
              let '(r, s) := put_meta (ci_meta io) now meta s in (_ ← r; Ok meta, release (ci_release io) key s)
          end
      end
  end.

(** ** Running the walk's effects *)
Lemma run_bind {A B} (m : W A) (f : A → W B) w : (m ≫= f) w = match m w with (Ok a, w) => f a w | (Err e, w) => (Err e, w) end.
Proof. done. Qed.
Lemma run_modify {B} f (k : unit → W B) w : (modifyW f ≫= k) w = k tt (f w).
Proof. done. Qed.
Lemma run_get {B} (k : Walker → W B) w : (getW ≫= k) w = k w w.
Proof. done. Qed.
Lemma run_fail {B} b e (k : unit → W B) w : (failW b e ≫= k) w = if b then (Err e, w) else k tt w.
Proof. by destruct b. Qed.
Lemma run_lift {A B} (r : result SnapshotError A) (k : A → W B) w : (liftW r ≫= k) w = match r with Ok a => k a w | Err e => (Err e, w) end.
Proof. done. Qed.
Lemma run_remember {B} abs e (k : unit → W B) w : (remember abs e ≫= k) w = k tt (set_cache (<[abs := e]> (wk_cache w)) w).
Proof. done. Qed.
Ltac run := repeat first [rewrite run_modify | rewrite run_get | rewrite run_fail | rewrite run_lift | rewrite run_remember].

(** ** Induction on trees *)
Section tree_induction.
Context (P : Tree → Prop) (Hfile : ∀ m t l c, P (TFile m t l c)) (Hlink : ∀ m t, P (TLink m t))
  (Hdir : ∀ m ch, Forall (λ c, P c.2) ch → P (TDir m ch)) (Hspecial : ∀ m, P (TSpecial m)) (Hother : ∀ m, P (TOther m)).
Fixpoint tree_induction (t : Tree) : P t :=
  match t with
  | TFile m t l c => Hfile m t l c
  | TLink m t => Hlink m t
  | TDir m ch => Hdir m ch ((fix go ch : Forall (λ c, P c.2) ch :=
      match ch with [] => Forall_nil_2 _ | c :: ch => Forall_cons_2 _ c ch (tree_induction c.2) (go ch) end) ch)
  | TSpecial m => Hspecial m
  | TOther m => Hother m
  end.
End tree_induction.

(** ** Whatever the walk does, it keeps *)
(** A relation between a walker and what a step leaves of it. *)
Definition keeps {A} (R : relation Walker) (m : W A) : Prop := ∀ w, R w (m w).2.
Section keeps.
Context (R : relation Walker) `{!PreOrder R}.
Lemma keeps_ret {A} (a : A) : keeps R (mret a).
Proof. intros w. cbn. done. Qed.
Lemma keeps_bind {A B} (m : W A) (f : A → W B) : keeps R m → (∀ a, keeps R (f a)) → keeps R (m ≫= f).
Proof. intros Hm Hf w. specialize (Hm w). unfold mbind, W_bind. destruct (m w) as [[a|e] w1]; [|done]. etrans; [exact Hm|apply Hf]. Qed.
Lemma keeps_fail b e : keeps R (failW b e).
Proof. intros w. by destruct b. Qed.
Lemma keeps_get : keeps R getW.
Proof. intros w. done. Qed.
Lemma keeps_lift {A} (r : result SnapshotError A) : keeps R (liftW r).
Proof. intros w. done. Qed.
Lemma keeps_throw {A} e : keeps R (throwW (A:=A) e).
Proof. intros w. done. Qed.
Lemma keeps_visit_all vs : Forall (λ v, keeps R v.2) vs → keeps R (visit_all vs).
Proof. induction 1; cbn; [apply keeps_ret|by apply keeps_bind]. Qed.
Context (blake3 : list byte → Digest) (io : WalkIo) (now : Z) (opts : CaptureOptions).
Context (Hfile : ∀ rel mode mtime len c, keeps R (visit_file blake3 io now opts rel mode mtime len c))
  (Hstore : ∀ b, keeps R (store_leaf blake3 io now b))
  (Hpush : ∀ e, e_kind e ≠ File → keeps R (modifyW (push e)))
  (Hrules : ∀ f, keeps R (modifyW (λ w, set_rules (f w) w))).
Lemma keeps_walk_dir rel ch kids : Forall (λ v, keeps R v.2) kids → keeps R (walk_dir io opts rel ch kids).
Proof using Hrules PreOrder0.
  intros Hk. unfold walk_dir. apply keeps_bind; [|intros added; apply keeps_bind; [apply keeps_fail|intros _; apply keeps_bind; [|intros _; apply Hrules]]].
  - destruct (op_include_ignored opts); [apply keeps_ret|]. destruct (read_gitignore io rel ch); [apply keeps_ret| |apply keeps_throw].
    intros w. unfold push_rules. apply (Hrules (λ w, (push_file b rel (wk_rules w)).1) w).
  - apply keeps_visit_all. by rewrite (merge_sort_Permutation visitor_le kids).
Qed.
Lemma keeps_visit dir_rel name t : keeps R (visit blake3 io now opts dir_rel name t).
Proof using Hfile Hstore Hpush Hrules PreOrder0.
  revert dir_rel name. induction t as [m mt ml c|m tg|m ch IH|m|m] using tree_induction; intros dir_rel name; cbn [visit raw_mode is_tdir];
    (case_match; [apply keeps_ret|]); (apply keeps_bind; [apply keeps_fail|intros _]); (apply keeps_bind; [apply keeps_get|intros w]); (case_match; [apply keeps_ret|]).
  - apply Hfile.
  - apply keeps_bind; [apply keeps_fail|intros _]. apply keeps_bind; [apply Hstore|intros d]. by apply Hpush.
  - apply keeps_bind; [apply Hpush; cbn; by case_match|intros _]. apply keeps_walk_dir. apply Forall_map. eapply Forall_impl; [exact IH|]. cbn. auto.
  - by apply Hpush.
  - apply keeps_ret.
Qed.
Lemma keeps_walk_root ch : keeps R (walk_root blake3 io now opts ch).
Proof using Hfile Hstore Hpush Hrules PreOrder0. apply keeps_walk_dir. apply Forall_map. apply Forall_true. intros c. apply keeps_visit. Qed.
End keeps.
Section keeps_file.
Context (R : relation Walker) `{!PreOrder R} (blake3 : list byte → Digest) (io : WalkIo) (now : Z) (opts : CaptureOptions).
Context (Hstore : ∀ b, keeps R (store_leaf blake3 io now b)) (Hstats : ∀ f, keeps R (modifyW (set_stats f))) (Hcache : ∀ abs e, keeps R (remember abs e)).
Lemma keeps_read_and_store abs b : keeps R (read_and_store blake3 io now opts abs b).
Proof using Hstore PreOrder0.
  unfold read_and_store, read_within_budget. repeat (apply keeps_bind; [done|..|intros ?] || apply keeps_fail || apply keeps_get || apply keeps_lift || apply keeps_ret || apply Hstore); done.
Qed.
Lemma keeps_hash_file abs mtime len b : keeps R (hash_file blake3 io now opts abs mtime len b).
Proof using Hstore Hstats Hcache PreOrder0.
  unfold hash_file, fresh_hash. pose proof (keeps_read_and_store abs b) as Hr.
  repeat first [exact Hr | apply keeps_bind; [done| |intros ?] | case_match | apply keeps_get; done | apply Hstats | apply Hcache | apply keeps_ret; done].
Qed.
End keeps_file.

(** ** The budget *)
Definition file_size (e : Entry) : Z := match e_kind e with File => e_size e | _ => 0 end.
Definition file_bytes (es : list Entry) : Z := foldr (λ e n, file_size e + n) 0 es.
Lemma file_bytes_app a b : file_bytes (a ++ b) = file_bytes a + file_bytes b.
Proof. induction a as [|x a IH]; [done|]. cbn. fold (file_bytes (a ++ b)) (file_bytes a). lia. Qed.
#[export] Instance file_bytes_Permutation : Proper ((≡ₚ) ==> (=)) file_bytes.
Proof. induction 1; unfold file_bytes in *; cbn; lia. Qed.
Section budget.
Context (blake3 : list byte → Digest) (io : WalkIo) (now : Z) (opts : CaptureOptions).
Definition fits (w : Walker) : Prop := wk_total w = file_bytes (wk_entries w) ∧ wk_total w ≤ op_max_bytes opts.
Definition fits_still : relation Walker := λ w w', fits w → fits w'.
#[local] Instance fits_preorder : PreOrder fits_still.
Proof. split; [by intros w ?|intros a b c H1 H2 ?; by apply H2, H1]. Qed.
(** Hashing touches neither the entries nor the total. *)
Definition same_total : relation Walker := λ w w', wk_total w' = wk_total w ∧ wk_entries w' = wk_entries w.
#[local] Instance same_total_preorder : PreOrder same_total.
Proof. split; [by intros w|intros a b c [? ?] [? ?]; split; congruence]. Qed.
Lemma store_leaf_total b : keeps same_total (store_leaf blake3 io now b).
Proof. intros w. unfold store_leaf. destruct (wk_store w); [|done]. by destruct (put_blob _ _ _ _ _). Qed.
Lemma visit_file_fits rel mode mtime len c : op_max_bytes opts < u64_max → keeps fits_still (visit_file blake3 io now opts rel mode mtime len c).
Proof.
  intros Hmax w [Hf1 Hf2]. unfold visit_file. run. case_match; [by split|]. rewrite run_bind.
  pose proof (keeps_hash_file same_total blake3 io now opts store_leaf_total ltac:(done) ltac:(done) rel mtime len c (set_stats a_file w)) as [H1 H2].
  destruct (hash_file _ _ _ _ _ _ _ _ _) as [[[d n]|e] w2]; cbn [snd set_stats wk_total wk_entries] in H1, H2; [|unfold fits; cbn; rewrite H1, H2; by split].
  run. case_match; [unfold fits; cbn; rewrite H1, H2; by split|]. unfold fits. cbn [modifyW snd push set_total wk_total wk_entries]. rewrite H2, file_bytes_app. cbn. unfold saturating_add, file_size in *. cbn. lia.
Qed.
Lemma walk_fits ch : op_max_bytes opts < u64_max → keeps fits_still (walk_root blake3 io now opts ch).
Proof.
  intros Hmax. apply keeps_walk_root; [apply _|intros; by apply visit_file_fits| | |].
  - intros b w [H1 H2]. destruct (store_leaf_total b w) as [E1 E2]. unfold fits. by rewrite E1, E2.
  - intros e He w [H1 H2]. unfold fits. cbn. rewrite file_bytes_app. cbn. unfold file_size. destruct (e_kind e); [done|..]; split; lia.
  - intros f w [H1 H2]. by split.
Qed.
End budget.
(** C34. A capture keeps to its budget, any below [u64::MAX], whatever the cache says and however the
    files change between their metadata and their reading: the files of its manifest are together
    no longer. *)
Theorem capture_within_budget blake3 io now opts cas cache ch m w :
  0 ≤ op_max_bytes opts < u64_max → walk blake3 io now opts cas cache ch = (Ok m, w) → file_bytes m ≤ op_max_bytes opts.
Proof.
  intros [H0 Hmax] H. unfold walk in H. pose proof (walk_fits blake3 io now opts ch Hmax (Walker_new cas cache)) as Hf.
  destruct (walk_root _ _ _ _ _ _) as [[[]|e] w1]; [|done]. injection H as H <-. apply from_entries_Ok in H as [Hp _]. rewrite Hp.
  cbn in Hf. destruct Hf as [<- ?]; [by split|done].
Qed.

(** ** What a walk does to the store *)
Section stores.
Context (blake3 : list byte → Digest).
(** Files hold what their names say. *)
Definition sound (s : Store) : Prop :=
  (∀ d b t, st_blobs s !! d = Some (b, t) → blake3 b = d) ∧
  (∀ id b t, st_manifests s !! id = Some (b, t) → ∃ m, b = serialize m ∧ canonical m ∧ Forall sized m ∧ manifest_id blake3 m = id).
Definition blob_step : relation Store := λ s s', ∃ ok now b, s' = (put_blob blake3 ok now b s).2.
Lemma blob_step_spec s s' : blob_step s s' → (sound s → sound s') ∧ st_manifests s' = st_manifests s ∧ (∀ x, is_Some (st_blobs s !! x) → is_Some (st_blobs s' !! x)).
Proof.
  intros (ok & now & b & ->). unfold put_blob. cbv zeta. destruct (st_blobs s !! blake3 b) eqn:E; [done|]. destruct ok; [|done]. cbn. split_and!; [|done|].
  - intros [H1 H2]. split; [|done]. cbn. intros x b' t. destruct (decide (blake3 b = x)) as [<-|]; [rewrite lookup_insert_eq; by intros [= <- <-]|]. rewrite lookup_insert_ne by done. apply H1.
  - intros x Hx. destruct (decide (blake3 b = x)) as [<-|]; [rewrite lookup_insert_eq; eauto|]. by rewrite lookup_insert_ne.
Qed.
Lemma blob_steps_spec s s' : rtc blob_step s s' → (sound s → sound s') ∧ st_manifests s' = st_manifests s ∧ (∀ x, is_Some (st_blobs s !! x) → is_Some (st_blobs s' !! x)).
Proof.
  induction 1 as [s|s s1 s2 H _ IH]; [done|]. destruct (blob_step_spec _ _ H) as (A1 & A2 & A3), IH as (B1 & B2 & B3). split_and!; [auto|congruence|auto].
Qed.
Lemma put_blob_stored ok now b s d s' : put_blob blake3 ok now b s = (Ok d, s') → d = blake3 b ∧ is_Some (st_blobs s' !! blake3 b).
Proof.
  unfold put_blob. cbv zeta. destruct (st_blobs s !! blake3 b) eqn:E; [intros [= <- <-]; by rewrite E|]. destruct ok; [|done].
  intros [= <- <-]. cbn. rewrite lookup_insert_eq. eauto.
Qed.
(** The store of a walk: there or not throughout, and only blobs are put. *)
Definition only_blobs : relation Walker := λ w w',
  match wk_store w, wk_store w' with Some s, Some s' => rtc blob_step s s' | None, None => True | _, _ => False end.
#[export] Instance only_blobs_preorder : PreOrder only_blobs.
Proof.
  split; [intros w; unfold only_blobs; by destruct (wk_store w)|]. intros a b c. unfold only_blobs.
  destruct (wk_store a), (wk_store b), (wk_store c); try done. by intros; etrans.
Qed.
Lemma only_blobs_same w w' : wk_store w' = wk_store w → only_blobs w w'.
Proof. intros E. unfold only_blobs. rewrite E. by destruct (wk_store w). Qed.
Context (io : WalkIo) (now : Z) (opts : CaptureOptions).
Lemma store_leaf_only_blobs b : keeps only_blobs (store_leaf blake3 io now b).
Proof.
  intros w. unfold store_leaf, only_blobs. destruct (wk_store w) as [s|] eqn:E; [|cbn; by rewrite E]. destruct (put_blob _ _ _ _ _) as [r s'] eqn:Ep. cbn.
  apply rtc_once. exists (wi_blob io b), now, b. by rewrite Ep.
Qed.
Lemma hash_file_only_blobs abs mtime len b : keeps only_blobs (hash_file blake3 io now opts abs mtime len b).
Proof. apply keeps_hash_file; [apply _|apply store_leaf_only_blobs|intros f w; by apply only_blobs_same|intros ? ? w; by apply only_blobs_same]. Qed.
Lemma visit_file_only_blobs rel mode mtime len c : keeps only_blobs (visit_file blake3 io now opts rel mode mtime len c).
Proof.
  unfold visit_file. repeat first [apply hash_file_only_blobs | apply keeps_bind; [apply _| |intros ?] | case_match | apply keeps_get; apply _ | apply keeps_fail; apply _ |
    (intros w; by apply only_blobs_same)].
Qed.
Lemma visit_only_blobs dir_rel name t : keeps only_blobs (visit blake3 io now opts dir_rel name t).
Proof. apply keeps_visit; [apply _|apply visit_file_only_blobs|apply store_leaf_only_blobs|intros ? ? w; by apply only_blobs_same|intros ? w; by apply only_blobs_same]. Qed.
Lemma walk_only_blobs ch : keeps only_blobs (walk_root blake3 io now opts ch).
Proof. apply keeps_walk_root; [apply _|apply visit_file_only_blobs|apply store_leaf_only_blobs|intros ? ? w; by apply only_blobs_same|intros ? w; by apply only_blobs_same]. Qed.
End stores.

(** ** What a walk finds *)
(** A leaf of the walk: its place, its kind and its content. *)
Record Leaf := MkLeaf { lf_path : list byte; lf_kind : EntryType; lf_mode : Z; lf_bytes : option (list byte) }.
Section found.
Context (io : WalkIo) (opts : CaptureOptions).
Definition rules_in (rel : list byte) (ch : list (list byte * Tree)) (rs : Rules) : Rules :=
  if op_include_ignored opts then rs else match read_gitignore io rel ch with Body b => (push_file b rel rs).1 | _ => rs end.
Definition dir_kind (rel : list byte) (ch : list (list byte * Tree)) : EntryType :=
  if bool_decide (is_Some (child GIT ch)) && wi_stat io (join_rel rel GIT) then SubmoduleWorktree else Dir.
(** Everything but what the options and the rules leave out. *)
Fixpoint found (dir_rel name : list byte) (rs : Rules) (t : Tree) {struct t} : list Leaf :=
  let rel := join_rel dir_rel name in
  let mode := Z.land (raw_mode t) 4095 in
  if bool_decide (name = GIT) && negb (op_include_git_dir opts) then []
  else if negb (bool_decide (name = GIT)) && negb (op_include_ignored opts) && is_ignored rs rel (is_tdir t) then []
  else match t with
       | TFile _ _ _ b => [MkLeaf rel File mode (Some b)]
       | TLink _ b => [MkLeaf rel Symlink mode (Some b)]
       | TDir _ ch => MkLeaf rel (dir_kind rel ch) mode None :: concat (List.map (λ c, found rel c.1 (rules_in rel ch rs) c.2) ch)
       | TSpecial _ => [MkLeaf rel Unsupported mode None]
       | TOther _ => []
       end.
Definition found_root (ch : list (list byte * Tree)) : list Leaf := concat (List.map (λ c, found [] c.1 (rules_in [] ch []) c.2) ch).
End found.
Lemma cache_hit_Some w abs mtime len e : cache_hit w abs mtime len = Some e ↔ wk_cache w !! abs = Some e ∧ ce_mtime e = mtime ∧ ce_meta_len e = len.
Proof.
  unfold cache_hit. destruct (wk_cache w !! abs) as [e'|]; cbn; [|naive_solver]. destruct (andb _ _) eqn:E.
  - apply andb_true_iff in E as [? ?]. split; [intros [= <-]; split_and!; [done|lia|lia]|by intros ([= ->] & _)].
  - apply andb_false_iff in E. split; [done|]. intros ([= ->] & ? & ?). destruct E; lia.
Qed.
Lemma has_blob_true d s : has_blob d s = true ↔ is_Some (st_blobs s !! d).
Proof. unfold has_blob. by rewrite bool_decide_eq_true. Qed.
Lemma truncate_pushed b rel rs : truncate_by (push_file b rel rs).2 (push_file b rel rs).1 = rs.
Proof. unfold truncate_by, push_file. cbn. rewrite length_app, Nat.add_sub. apply take_app_length. Qed.
Section finds.
Context (blake3 : list byte → Digest) (io : WalkIo) (now : Z) (opts : CaptureOptions).
Definition entry_of (l : Leaf) : Entry :=
  MkEntry (lf_path l) (lf_kind l) (lf_mode l) (from_option (λ b, Z.of_nat (length b)) 0 (lf_bytes l)) (blake3 <$> lf_bytes l).
(** The frozen files, by path: the time and length of their metadata, and their bytes. *)
Context (file_at : list byte → option (Z * Z * list byte)).
Fixpoint agrees (dir_rel name : list byte) (t : Tree) {struct t} : Prop :=
  let rel := join_rel dir_rel name in
  match t with
  | TFile _ mtime len b => file_at rel = Some (mtime, len, b)
  | TDir _ ch => foldr (λ c P, agrees rel c.1 c.2 ∧ P) True ch
  | _ => True
  end.
(** A cache that is right about them: an entry whose time and length are a file's is of its bytes. *)
Definition honest (cache : HashCache) : Prop := ∀ rel mtime len b e, file_at rel = Some (mtime, len, b) → cache !! rel = Some e →
  ce_mtime e = mtime → ce_meta_len e = len → ce_digest e = blake3 b ∧ ce_content_len e = Z.of_nat (length b).
Definition trusted (w : Walker) : Prop := op_incremental opts = true → honest (wk_cache w).
Definition in_store (w : Walker) (b : list byte) : Prop := match wk_store w with Some s => is_Some (st_blobs s !! blake3 b) | None => True end.
Lemma in_store_mono w w' b : only_blobs blake3 w w' → in_store w b → in_store w' b.
Proof. unfold only_blobs, in_store. destruct (wk_store w), (wk_store w'); try done. intros (_ & _ & H)%blob_steps_spec. apply H. Qed.
(** Nothing but the store and the statistics changed. *)
Definition frame (w w' : Walker) : Prop := wk_cache w' = wk_cache w ∧ wk_entries w' = wk_entries w ∧ wk_rules w' = wk_rules w.
Lemma store_leaf_spec b w d w' : store_leaf blake3 io now b w = (Ok d, w') → d = blake3 b ∧ frame w w' ∧ in_store w' b.
Proof.
  unfold store_leaf, in_store. destruct (wk_store w) as [s|] eqn:E; [|intros [= <- <-]; rewrite E; by repeat split]. destruct (put_blob _ _ _ _ _) as [r s'] eqn:Ep.
  intros [= -> <-]. apply put_blob_stored in Ep as [-> ?]. by repeat split.
Qed.
Lemma read_and_store_spec abs b w d n w' : read_and_store blake3 io now opts abs b w = (Ok (d, n), w') →
  d = blake3 b ∧ n = Z.of_nat (length b) ∧ frame w w' ∧ in_store w' b.
Proof.
  unfold read_and_store, read_within_budget, read_capped. rewrite run_bind. run. destruct (negb _); [done|]. cbn. unfold liftW. destruct (_ <? _); [done|]. rewrite run_bind.
  destruct (store_leaf _ _ _ _ _) as [[d'|e] w1] eqn:Es; [|done]. apply store_leaf_spec in Es as (-> & ? & ?). by intros [= <- <- <-].
Qed.
Lemma honest_insert cache abs mtime len b : file_at abs = Some (mtime, len, b) → honest cache →
  honest (<[abs := MkCacheEntry mtime len (Z.of_nat (length b)) (blake3 b)]> cache).
Proof.
  intros Hf Hh rel mt ml b' e Hr. unfold HashCache in *. destruct (decide (abs = rel)) as [<-|]; [|rewrite lookup_insert_ne by done; by apply Hh].
  rewrite lookup_insert_eq. intros [= <-] _ _. rewrite Hf in Hr. by injection Hr as -> -> ->.
Qed.
Lemma hash_file_spec abs mtime len b w d n w' : (op_incremental opts = true → file_at abs = Some (mtime, len, b)) → trusted w →
  hash_file blake3 io now opts abs mtime len b w = (Ok (d, n), w') →
  d = blake3 b ∧ n = Z.of_nat (length b) ∧ trusted w' ∧ wk_entries w' = wk_entries w ∧ wk_rules w' = wk_rules w ∧ in_store w' b.
Proof.
  intros Hf Ht. unfold hash_file, fresh_hash, trusted in *. destruct (op_incremental opts).
  - specialize (Hf eq_refl). specialize (Ht eq_refl). run. destruct (cache_hit _ _ _ _) as [e|] eqn:Eh.
    + apply cache_hit_Some in Eh as (Eh & E1 & E2). destruct (Ht _ _ _ _ _ Hf Eh E1 E2) as [Ed En]. destruct (missing w (ce_digest e)) eqn:Em.
      * rewrite run_bind. destruct (read_and_store _ _ _ _ _ _ _) as [[[d' n']|x] w1] eqn:Er; [|done]. apply read_and_store_spec in Er as (-> & -> & (F1 & F2 & F3) & Hs).
        rewrite bool_decide_true by done. run. intros [= <- <- <-]. cbn. rewrite F1. unfold in_store in *. cbn. by rewrite Ed, En.
      * run. intros [= <- <- <-]. cbn. rewrite Ed, En in *. split_and!; [done..|]. unfold missing, in_store in *. cbn. destruct (wk_store w); [|done].
        apply negb_false_iff, has_blob_true in Em. done.
    + rewrite run_bind. destruct (read_and_store _ _ _ _ _ _ _) as [[[d' n']|x] w1] eqn:Er; [|done]. apply read_and_store_spec in Er as (-> & -> & (F1 & F2 & F3) & Hs).
      run. intros [= <- <- <-]. cbn. rewrite F1. split_and!; [done|done| |done|done|exact Hs]. intros _. by apply honest_insert.
  - rewrite run_bind. destruct (read_and_store _ _ _ _ _ _ _) as [[[d' n']|x] w1] eqn:Er; [|done]. apply read_and_store_spec in Er as (-> & -> & (F1 & F2 & F3) & Hs).
    run. intros [= <- <- <-]. cbn. split_and!; done.
Qed.
Definition adds (ls : list Leaf) (rs : Rules) (m : W unit) : Prop := ∀ w w', trusted w → wk_rules w = rs → m w = (Ok tt, w') →
  trusted w' ∧ wk_rules w' = rs ∧ wk_entries w' ≡ₚ wk_entries w ++ (entry_of <$> ls) ∧ Forall (λ l, ∀ b, lf_bytes l = Some b → in_store w' b) ls ∧ only_blobs blake3 w w'.
Lemma adds_nil rs : adds [] rs (mret tt).
Proof. intros w w' Ht Hr [= <-]. split_and!; [done|done|by rewrite app_nil_r|constructor|done]. Qed.
Lemma adds_app ls1 ls2 rs m k : adds ls1 rs m → adds ls2 rs k → adds (ls1 ++ ls2) rs (_ ← m; k).
Proof.
  intros Hm Hk w w' Ht Hr H. rewrite run_bind in H. destruct (m w) as [[[]|e] w1] eqn:E; [|done].
  destruct (Hm _ _ Ht Hr E) as (T1 & R1 & E1 & S1 & O1). destruct (Hk _ _ T1 R1 H) as (T2 & R2 & E2 & S2 & O2). split_and!; [done|done| | |by etrans].
  - by rewrite E2, E1, fmap_app, app_assoc.
  - apply Forall_app. split; [|done]. eapply Forall_impl; [exact S1|]. intros l Hl b Hb. eapply in_store_mono; [exact O2|auto].
Qed.
Lemma adds_push e l rs : entry_of l = e → lf_bytes l = None → adds [l] rs (modifyW (push e)).
Proof.
  intros <- Hb w w' Ht Hr [= <-]. split_and!; [exact Ht|exact Hr|done|repeat constructor; by rewrite Hb|by apply only_blobs_same].
Qed.
Lemma adds_visit_all {X} (f : X → list byte * W unit) (g : X → list Leaf) rs xs : Forall (λ x, adds (g x) rs (f x).2) xs → adds (concat (g <$> xs)) rs (visit_all (f <$> xs)).
Proof. induction 1; cbn; [apply adds_nil|by apply adds_app]. Qed.
(** Sorting the children is another order of the same leaves. *)
Lemma adds_sorted (f : list byte * Tree → list byte * W unit) g rs xs : Forall (λ x, adds (g x) rs (f x).2) xs →
  adds (concat (List.map g xs)) rs (visit_all (merge_sort visitor_le (List.map f xs))).
Proof.
  intros Hf. destruct (Permutation_map_inv f (l1 := merge_sort visitor_le (List.map f xs)) xs) as (ys & E & Hp); [by rewrite merge_sort_Permutation|].
  rewrite E. assert (adds (concat (g <$> ys)) rs (visit_all (f <$> ys))) as H by (apply adds_visit_all; by rewrite <- Hp).
  intros w w' Ht Hr Hw. destruct (H w w' Ht Hr Hw) as (T & R & En & S & O).
  assert (concat (List.map g xs) ≡ₚ concat (g <$> ys)) as Hc by (change (List.map g xs) with (g <$> xs); by rewrite Hp).
  split_and!; [done|done|by rewrite Hc|by rewrite Hc|done].
Qed.
Lemma adds_walk_dir rel ch kids ls rs : adds ls (rules_in io opts rel ch rs) (visit_all (merge_sort visitor_le kids)) → adds ls rs (walk_dir io opts rel ch kids).
Proof.
  intros Hk w w' Ht Hr. unfold walk_dir.
  assert (∃ n, truncate_by n (rules_in io opts rel ch rs) = rs ∧
    ((if op_include_ignored opts then mret O else match read_gitignore io rel ch with Body b => push_rules b rel | NoFile => mret O | Unreadable => throwW EIo end) w
      = (Ok n, set_rules (rules_in io opts rel ch rs) w) ∨ ∃ e, (if op_include_ignored opts then mret O else match read_gitignore io rel ch with Body b => push_rules b rel | NoFile => mret O | Unreadable => throwW EIo end) w = (Err e, w))) as (n & Hn & Hor).
  { assert (truncate_by 0 rs = rs) as H0 by (unfold truncate_by; rewrite Nat.sub_0_r; by apply take_ge).
    assert (set_rules rs w = w) as Hw by (rewrite <- Hr; by destruct w).
    unfold rules_in. destruct (op_include_ignored opts); [exists O; rewrite Hw; auto|]. destruct (read_gitignore io rel ch) as [|b|]; [exists O; rewrite Hw; auto| |exists O; eauto].
    exists (push_file b rel rs).2. split; [apply truncate_pushed|left]. unfold push_rules. by rewrite Hr. }
  rewrite run_bind. destruct Hor as [-> |[e ->]]; [|done]. rewrite run_fail. destruct (negb _); [done|]. rewrite run_bind.
  destruct (visit_all _ _) as [[[]|e] w1] eqn:E; [|done]. intros [= <-]. destruct (Hk (set_rules (rules_in io opts rel ch rs) w) _ Ht eq_refl E) as (T & R & En & S & O). cbn in *.
  rewrite R. split_and!; [exact T|exact Hn|exact En|exact S|]. etrans; [by apply (only_blobs_same _ w (set_rules (rules_in io opts rel ch rs) w))|].
  etrans; [exact O|]. by apply only_blobs_same.
Qed.
Lemma adds_file rel mode mtime len b rs : (op_incremental opts = true → file_at rel = Some (mtime, len, b)) →
  adds [MkLeaf rel File mode (Some b)] rs (visit_file blake3 io now opts rel mode mtime len b).
Proof.
  intros Hf w w' Ht Hr H. pose proof (visit_file_only_blobs blake3 io now opts rel mode mtime len b w) as Ho. rewrite H in Ho. unfold visit_file in H.
  rewrite run_modify, run_get, run_fail in H. destruct (_ <? _); [done|]. rewrite run_bind in H.
  destruct (hash_file _ _ _ _ _ _ _ _ _) as [[[d n]|e] w2] eqn:Eh; [|done]. apply hash_file_spec in Eh as (-> & -> & T & E & R & S); [|done|done].
  cbn in E, R. rewrite run_get in H. cbv zeta in H. rewrite run_fail in H. destruct (_ <? _); [done|]. rewrite run_modify in H. injection H as <-. cbn. rewrite E, R.
  split_and!; [exact T|exact Hr|done| |exact Ho]. repeat constructor. cbn. by intros ? [= <-].
Qed.
Lemma adds_link rel mode b rs : adds [MkLeaf rel Symlink mode (Some b)] rs
  (_ ← failW (negb (wi_read io rel)) EIo; d ← store_leaf blake3 io now b; modifyW (push (MkEntry rel Symlink mode (Z.of_nat (length b)) (Some d)))).
Proof.
  intros w w' Ht Hr H. rewrite run_fail in H. destruct (negb _); [done|]. rewrite run_bind in H. pose proof (store_leaf_only_blobs blake3 io now b w) as Ho.
  destruct (store_leaf _ _ _ _ _) as [[d|e] w1] eqn:Es; [|done]. apply store_leaf_spec in Es as (-> & (F1 & F2 & F3) & S). injection H as <-. cbn. rewrite F2, F3.
  split_and!; [unfold trusted; cbn; by rewrite F1|exact Hr|done| |by etrans; [exact Ho|apply only_blobs_same]]. repeat constructor. cbn. by intros ? [= <-].
Qed.
Lemma agrees_children mode ch dir_rel name : agrees dir_rel name (TDir mode ch) → Forall (λ c, agrees (join_rel dir_rel name) c.1 c.2) ch.
Proof. cbn. induction ch as [|c ch IH]; cbn; [constructor|]. intros [? ?]. constructor; auto. Qed.
Lemma adds_visit dir_rel name t rs : (op_incremental opts = true → agrees dir_rel name t) →
  adds (found io opts dir_rel name rs t) rs (visit blake3 io now opts dir_rel name t).
Proof.
  revert dir_rel name rs. induction t as [m mt ml c|m tg|m ch IH|m|m] using tree_induction; intros dir_rel name rs Ha; intros w w' Ht Hr; cbn [visit found raw_mode is_tdir];
    (case_match; [by apply adds_nil|]); rewrite run_fail; (destruct (negb (wi_stat _ _)); [done|]); rewrite run_get, Hr; (case_match; [by apply adds_nil|]).
  - by apply adds_file.
  - by apply adds_link.
  - intros Hw. change (MkLeaf (join_rel dir_rel name) (dir_kind io (join_rel dir_rel name) ch) (Z.land m 4095) None :: ?ls) with ([MkLeaf (join_rel dir_rel name) (dir_kind io (join_rel dir_rel name) ch) (Z.land m 4095) None] ++ ls).
    revert w w' Ht Hr Hw. apply adds_app; [by apply adds_push|]. apply adds_walk_dir. apply (adds_sorted (λ c, (c.1, visit blake3 io now opts (join_rel dir_rel name) c.1 c.2))).
    apply Forall_forall. intros c Hc. rewrite Forall_forall in IH. apply (IH c Hc). intros Hi. specialize (Ha Hi). apply agrees_children in Ha. rewrite Forall_forall in Ha. by apply Ha.
  - by apply adds_push.
  - by apply adds_nil.
Qed.
(** A walk that succeeds has found exactly the leaves of the tree, and stored what they hold. *)
Lemma walk_finds cas cache ch m w : (op_incremental opts = true → honest cache ∧ Forall (λ c, agrees [] c.1 c.2) ch) → walk blake3 io now opts cas cache ch = (Ok m, w) →
  from_entries (entry_of <$> found_root io opts ch) = Ok m ∧ Forall (λ l, ∀ b, lf_bytes l = Some b → in_store w b) (found_root io opts ch) ∧ only_blobs blake3 (Walker_new cas cache) w.
Proof.
  intros Hc H. unfold walk in H. destruct (walk_root _ _ _ _ _ _) as [[[]|e] w1] eqn:E; [|done]. injection H as H <-.
  assert (adds (found_root io opts ch) [] (walk_root blake3 io now opts ch)) as Ha.
  { apply adds_walk_dir. apply (adds_sorted (λ c, (c.1, visit blake3 io now opts [] c.1 c.2))). apply Forall_forall. intros c Hin.
    apply adds_visit. intros Hi. destruct (Hc Hi) as [_ Hag]. rewrite Forall_forall in Hag. by apply Hag. }
  destruct (Ha (Walker_new cas cache) _ (λ Hi, proj1 (Hc Hi)) eq_refl E) as (_ & _ & En & S & O). cbn in En. split_and!; [|done|done].
  apply from_entries_Ok in H as [Hp Hcan]. apply from_entries_Ok. split; [by rewrite Hp, En|done].
Qed.
End finds.

(** ** Digesting without a store *)
Section twins.
Context (blake3 : list byte → Digest) (io : WalkIo) (now : Z) (opts : CaptureOptions) (file_at : list byte → option (Z * Z * list byte)).
Context (Hmax : op_max_bytes opts < u64_max) (Hread : ∀ p, wi_read io p = true) (Hblob : ∀ b, wi_blob io b = true).
(** A walk with a store and one without, at the same point. *)
Definition sim (w1 w2 : Walker) : Prop :=
  is_Some (wk_store w1) ∧ wk_store w2 = None ∧ wk_cache w1 = wk_cache w2 ∧ wk_stats w1 = wk_stats w2 ∧ wk_entries w1 = wk_entries w2 ∧
  wk_total w1 = wk_total w2 ∧ wk_rules w1 = wk_rules w2 ∧ trusted blake3 opts file_at w2 ∧ wk_total w2 ≤ op_max_bytes opts.
Definition twin {A} (m1 m2 : W A) : Prop := ∀ w1 w2, sim w1 w2 → (m1 w1).1 = (m2 w2).1 ∧ (∀ a, (m2 w2).1 = Ok a → sim (m1 w1).2 (m2 w2).2).
Lemma twin_bind {A B} (m1 m2 : W A) (f1 f2 : A → W B) : twin m1 m2 → (∀ a, twin (f1 a) (f2 a)) → twin (m1 ≫= f1) (m2 ≫= f2).
Proof.
  intros Hm Hf w1 w2 Hs. destruct (Hm w1 w2 Hs) as [E H]. rewrite !run_bind. destruct (m1 w1) as [r1 v1], (m2 w2) as [r2 v2]. cbn in *. subst r1.
  destruct r2 as [a|e]; [|done]. apply Hf. by eapply H.
Qed.
Lemma twin_get {B} (k1 k2 : Walker → W B) : (∀ w1 w2, sim w1 w2 → twin (k1 w1) (k2 w2)) → twin (getW ≫= k1) (getW ≫= k2).
Proof. intros H w1 w2 Hs. rewrite !run_get. by apply (H w1 w2). Qed.
Lemma twin_ret {A} (a : A) : twin (mret a) (mret a).
Proof. intros w1 w2 Hs. by split. Qed.
Lemma twin_fail b e : twin (failW b e) (failW b e).
Proof. destruct b; intros w1 w2 Hs; by split. Qed.
Lemma twin_throw {A} e : twin (throwW (A:=A) e) (throwW e).
Proof. intros w1 w2 Hs. by split. Qed.
(** What changes neither the store nor the cache nor the total. *)
Definition harmless (f : Walker → Walker) : Prop := ∀ w1 w2, sim w1 w2 → sim (f w1) (f w2).
Lemma twin_modify f : harmless f → twin (modifyW f) (modifyW f).
Proof. intros H w1 w2 Hs. split; [done|]. intros ? _. by apply H. Qed.
Lemma harmless_push e : harmless (push e).
Proof. intros w1 w2 (? & ? & ? & ? & E & ?). unfold sim. cbn. by rewrite E. Qed.
Lemma harmless_stats f : harmless (set_stats f).
Proof. intros w1 w2 (? & ? & ? & E & ?). unfold sim. cbn. by rewrite E. Qed.
Lemma harmless_rules f : harmless (λ w, set_rules (f (wk_rules w)) w).
Proof. intros w1 w2 (? & ? & ? & ? & ? & ? & E & ?). unfold sim. cbn. by rewrite E. Qed.
Lemma twin_store_leaf b : twin (store_leaf blake3 io now b) (store_leaf blake3 io now b).
Proof using Hblob.
  intros w1 w2 Hs. pose proof Hs as ([s E1] & E2 & Hrest). unfold store_leaf. rewrite E1, E2, Hblob. unfold put_blob. cbv zeta.
  destruct (st_blobs s !! blake3 b); (split; [done|]); intros ? _; (split; [by eexists|]); by split.
Qed.
Lemma twin_read_and_store abs b : twin (read_and_store blake3 io now opts abs b) (read_and_store blake3 io now opts abs b).
Proof using Hblob.
  unfold read_and_store, read_within_budget. apply twin_bind; [|intros b'; apply twin_bind; [apply twin_store_leaf|intros; apply twin_ret]].
  apply twin_bind; [apply twin_fail|intros _]. apply twin_get. intros w1 w2 (_ & _ & _ & _ & _ & E & _) v1 v2 Hv. unfold liftW. rewrite E. by split.
Qed.
Lemma read_and_store_runs abs b w s : wk_store w = Some s → read_and_store blake3 io now opts abs b w =
  if saturating_sub (op_max_bytes opts) (wk_total w) <? Z.of_nat (length b) then (Err EBudgetExceeded, w)
  else (Ok (blake3 b, Z.of_nat (length b)), set_store (Some (put_blob blake3 true now b s).2) w).
Proof using Hread Hblob.
  intros E. unfold read_and_store, read_within_budget, read_capped. rewrite run_bind. run. rewrite Hread. cbn [negb]. unfold liftW. destruct (_ <? _); [done|].
  rewrite run_bind. unfold store_leaf. rewrite E, Hblob. unfold put_blob. cbv zeta. by destruct (st_blobs s !! blake3 b).
Qed.
Lemma twin_remember abs e : (op_incremental opts = true → ∀ c, honest blake3 file_at c → honest blake3 file_at (<[abs := e]> c)) → twin (remember abs e) (remember abs e).
Proof.
  intros Hh w1 w2 (? & ? & E & ? & ? & ? & ? & Ht & ?). split; [done|]. intros ? _. unfold sim. cbn. rewrite E. split_and!; try done. unfold trusted in *. cbn. auto.
Qed.
(** The bytes of a file, either way; or they do not fit. *)
Lemma hash_file_twin abs mtime len b w1 w2 : (op_incremental opts = true → file_at abs = Some (mtime, len, b)) → sim w1 w2 →
  let x := hash_file blake3 io now opts abs mtime len b w1 in let y := hash_file blake3 io now opts abs mtime len b w2 in
  (x.1 = y.1 ∧ (∀ a, y.1 = Ok a → sim x.2 y.2)) ∨
  (x.1 = Err EBudgetExceeded ∧ ∃ d, y.1 = Ok (d, Z.of_nat (length b)) ∧ wk_total y.2 = wk_total w2 ∧ op_max_bytes opts - wk_total w2 < Z.of_nat (length b)).
Proof using Hread Hblob.
  intros Hf Hs. cbv zeta. unfold hash_file, fresh_hash. destruct (op_incremental opts) eqn:Ei.
  - specialize (Hf eq_refl). rewrite !run_get. pose proof Hs as ([s E1] & E2 & Ec & Est & Een & Et & Er & Ht & Hle). specialize (Ht Ei).
    assert (cache_hit w1 abs mtime len = cache_hit w2 abs mtime len) as -> by (unfold cache_hit; by rewrite Ec). destruct (cache_hit w2 abs mtime len) as [e|] eqn:Eh.
    + apply cache_hit_Some in Eh as (Eh & Em & El). destruct (Ht _ _ _ _ _ Hf Eh Em El) as [Ed En].
      assert (missing w2 (ce_digest e) = false) as -> by (unfold missing; by rewrite E2). destruct (missing w1 (ce_digest e)).
      * rewrite (run_bind (read_and_store _ _ _ _ _ _)). rewrite (read_and_store_runs _ _ _ s) by done. destruct (_ <? _) eqn:Eb.
        -- right. split; [done|]. exists (ce_digest e). run. cbn. rewrite En. split_and!; [done|done|]. unfold saturating_sub in Eb. rewrite Et in Eb. lia.
        -- left. rewrite bool_decide_true by done. run. split; [done|]. intros ? _. apply (harmless_stats a_cached). split; [by eexists|apply Hs].
      * left. run. split; [done|]. intros ? _. by apply (harmless_stats a_cached).
    + left. revert w1 w2 Hs E1 E2 Ec Est Een Et Er Ht Hle Eh. intros w1 w2 Hs _ _ _ _ _ _ _ _ _ _. revert w1 w2 Hs.
      assert (∀ c, (op_incremental opts = true → ∀ x, honest blake3 file_at x → honest blake3 file_at (<[abs := MkCacheEntry mtime len c.2 c.1]> x)) →
        twin (_ ← remember abs (MkCacheEntry mtime len c.2 c.1); _ ← modifyW (set_stats (a_hashed c.2)); mret (c.1, c.2)) (_ ← remember abs (MkCacheEntry mtime len c.2 c.1); _ ← modifyW (set_stats (a_hashed c.2)); mret (c.1, c.2))) as Htail.
      { intros c Hc. apply twin_bind; [by apply twin_remember|intros _]. apply twin_bind; [apply twin_modify, harmless_stats|intros _; apply twin_ret]. }
      intros w1 w2 Hs. destruct (twin_read_and_store abs b w1 w2 Hs) as [E H]. rewrite !run_bind. destruct (read_and_store _ _ _ _ _ _ w1) as [r1 v1] eqn:E1, (read_and_store _ _ _ _ _ _ w2) as [r2 v2]. cbn in E. subst r1.
      destruct r2 as [[d n]|e]; [|done]. apply read_and_store_spec in E1 as (-> & -> & _). apply (Htail (blake3 b, Z.of_nat (length b))); [|by eapply H]. intros _ x. by apply honest_insert.
  - left. revert w1 w2 Hs. change (twin (fresh_hash blake3 io now opts abs b) (fresh_hash blake3 io now opts abs b)).
    apply twin_bind; [apply twin_read_and_store|intros [d n]]. apply twin_bind; [apply twin_modify, harmless_stats|intros _; apply twin_ret].
Qed.
Lemma twin_visit_file rel mode mtime len b : (op_incremental opts = true → file_at rel = Some (mtime, len, b)) →
  twin (visit_file blake3 io now opts rel mode mtime len b) (visit_file blake3 io now opts rel mode mtime len b).
Proof using Hmax Hread Hblob.
  intros Hf. unfold visit_file. apply twin_bind; [apply twin_modify, harmless_stats|intros _]. apply twin_get. intros v1 v2 (_ & _ & _ & _ & _ & -> & _).
  apply twin_bind; [apply twin_fail|intros _]. intros w1 w2 Hs. rewrite !run_bind. destruct (hash_file_twin rel mtime len b w1 w2 Hf Hs) as [[E H]|(E & d & E' & Et & Hlt)].
  - destruct (hash_file _ _ _ _ _ _ _ _ w1) as [r1 u1], (hash_file _ _ _ _ _ _ _ _ w2) as [r2 u2]. cbn in E, H. subst r1. destruct r2 as [[d n]|e]; [|done].
    specialize (H _ eq_refl). revert u1 u2 H. apply twin_get. intros u1 u2 (_ & _ & _ & _ & _ & -> & _) x1 x2 Hx. rewrite !run_fail. destruct (_ <? _) eqn:Eb; [done|].
    rewrite !run_modify. split; [done|]. intros ? _. apply harmless_push. destruct Hx as (? & ? & ? & ? & ? & ? & ? & ? & ?). unfold sim. cbn. split_and!; try done. lia.
  - destruct (hash_file _ _ _ _ _ _ _ _ w1) as [r1 u1], (hash_file _ _ _ _ _ _ _ _ w2) as [r2 u2]. cbn in E, E', Et. subst r1 r2. rewrite run_get. cbv zeta. rewrite run_fail.
    assert ((op_max_bytes opts <? saturating_add u64_max (wk_total u2) (Z.of_nat (length b))) = true) as ->; [|done]. unfold saturating_add. rewrite Et. lia.
Qed.
Lemma twin_visit_all vs : Forall (λ v : Visitor, twin v.2 v.2) vs → twin (visit_all vs) (visit_all vs).
Proof. induction 1; cbn; [apply twin_ret|by apply twin_bind]. Qed.
Lemma twin_walk_dir rel ch kids : Forall (λ v : Visitor, twin v.2 v.2) kids → twin (walk_dir io opts rel ch kids) (walk_dir io opts rel ch kids).
Proof.
  intros Hk. unfold walk_dir. apply twin_bind; [|intros n; apply twin_bind; [apply twin_fail|intros _; apply twin_bind; [|intros _; apply twin_modify, (harmless_rules (truncate_by n))]]].
  - destruct (op_include_ignored opts); [apply twin_ret|]. destruct (read_gitignore io rel ch); [apply twin_ret| |apply twin_throw].
    intros w1 w2 Hs. pose proof Hs as (_ & _ & _ & _ & _ & _ & E & _). unfold push_rules. cbn. split; [done|]. intros ? _. apply (harmless_rules (λ rs, (push_file b rel rs).1)), Hs.
  - apply twin_visit_all. by rewrite (merge_sort_Permutation visitor_le kids).
Qed.
Lemma twin_visit dir_rel name t : (op_incremental opts = true → agrees file_at dir_rel name t) →
  twin (visit blake3 io now opts dir_rel name t) (visit blake3 io now opts dir_rel name t).
Proof using Hmax Hread Hblob.
  revert dir_rel name. induction t as [m mt ml c|m tg|m ch IH|m|m] using tree_induction; intros dir_rel name Ha; cbn [visit raw_mode is_tdir];
    (case_match; [apply twin_ret|]); (apply twin_bind; [apply twin_fail|intros _]); apply twin_get; intros v1 v2 (_ & _ & _ & _ & _ & _ & -> & _); (case_match; [apply twin_ret|]).
  - by apply twin_visit_file.
  - apply twin_bind; [apply twin_fail|intros _]. apply twin_bind; [apply twin_store_leaf|intros d]. apply twin_modify, harmless_push.
  - apply twin_bind; [apply twin_modify, harmless_push|intros _]. apply twin_walk_dir. apply Forall_map. apply Forall_forall. intros c Hc. rewrite Forall_forall in IH.
    apply (IH c Hc). intros Hi. specialize (Ha Hi). apply agrees_children in Ha. rewrite Forall_forall in Ha. by apply Ha.
  - apply twin_modify, harmless_push.
  - apply twin_ret.
Qed.
(** Digesting a tree gives what capturing it gives. *)
Lemma walk_twin s cache ch : 0 ≤ op_max_bytes opts → (op_incremental opts = true → honest blake3 file_at cache ∧ Forall (λ c, agrees file_at [] c.1 c.2) ch) →
  (walk blake3 io now opts (Some s) cache ch).1 = (walk blake3 io now opts None cache ch).1.
Proof using Hmax Hread Hblob.
  intros H0 Hc. assert (twin (walk_root blake3 io now opts ch) (walk_root blake3 io now opts ch)) as Ht.
  { apply twin_walk_dir. apply Forall_map. apply Forall_forall. intros c Hin. apply twin_visit. intros Hi. destruct (Hc Hi) as [_ Hag]. rewrite Forall_forall in Hag. by apply Hag. }
  destruct (Ht (Walker_new (Some s) cache) (Walker_new None cache)) as [E H].
  { unfold sim. cbn. split_and!; try done. intros Hi. apply (Hc Hi). }
  unfold walk. destruct (walk_root _ _ _ _ _ (Walker_new (Some s) cache)) as [r1 w1], (walk_root _ _ _ _ _ (Walker_new None cache)) as [r2 w2]. cbn in *. subst r1.
  destruct r2 as [[]|e]; [|done]. destruct (H _ eq_refl) as (_ & _ & _ & _ & E & _). cbn. by rewrite E.
Qed.
End twins.
(** C18. What [digest_worktree] says is the id that a capture of the same tree stores: when every file
    can be read and the capture's lease, blobs, manifest and metadata can be written, within any
    budget below [u64::MAX] and with any cache that is right about the files, the digest
    succeeds, with an id, exactly when the capture does, with that id. *)
Theorem digest_names_the_capture blake3 io key now opts file_at cache role ch s id :
  (∀ p, wi_read (ci_walk io) p = true) → (∀ b, wi_blob (ci_walk io) b = true) → ci_lease io = true → ci_manifest io = true → ci_meta io = true →
  0 ≤ op_max_bytes opts < u64_max → (op_incremental opts = true → honest blake3 file_at cache ∧ Forall (λ c, agrees file_at [] c.1 c.2) ch) →
  digest_worktree blake3 (ci_walk io) now opts cache ch = Ok id ↔ ∃ meta s', capture_with blake3 io key now opts cache role ch s = (Ok meta, s') ∧ mt_id meta = id.
Proof.
  intros Hr Hb Hl Hm Hmt [H0 Hmax] Hc. unfold digest_worktree, digest_manifest, capture_with, acquire_capture_at. rewrite Hl.
  match goal with |- context [walk _ _ _ _ (Some ?x) _ _] => pose proof (walk_twin blake3 (ci_walk io) now opts file_at Hmax Hr Hb x cache ch H0 Hc) as <- end.
  destruct (walk _ _ _ _ _ _ _) as [[m|e] w]; cbn [fst]; [|split; [done|by intros (? & ? & ? & _)]]. rewrite bind_Ok_l. unfold put_manifest, put_meta. cbv zeta. rewrite Hm, Hmt.
  destruct (st_manifests _ !! manifest_id blake3 m) as [[b t]|]; (split; [intros [= <-]; eauto|by intros (? & ? & [= <- _] & <-)]).
Qed.

(** ** Runs *)
(** A hash for the examples: the last 32 bytes. *)
Definition tail_hash (b : list byte) : Digest := fun_to_vec (λ i : fin 32, nth (fin_to_nat i) (reverse b) NUL).
Definition walk_ok : WalkIo := MkWalkIo (λ _, true) (λ _, true) (λ _, NoFile) (λ _, true).
Definition all_ok : CaptureIo := MkCaptureIo true walk_ok true true true.
Definition old_bytes : list byte := bytes "old content".
Definition link_target : list byte := bytes "/home/user/.profile".
Definition noon : Z := 10000000.
Definition small_tree : list (list byte * Tree) :=
  [(bytes "f.log", TFile 33188 5 11 old_bytes); (bytes "d", TDir 16877 [(bytes "l", TLink 41471 link_target); (bytes "g", TFile 33261 5 11 old_bytes)]);
   (bytes ".gitignore", TFile 33188 5 5 (bytes "*.log"))].
Definition incremental : CaptureOptions := MkOptions false true true 100.
Definition small_file_at (rel : list byte) : option (Z * Z * list byte) :=
  if bool_decide (rel = bytes "f.log") then Some (5, 11, old_bytes) else if bool_decide (rel = bytes "d/g") then Some (5, 11, old_bytes)
  else if bool_decide (rel = bytes ".gitignore") then Some (5, 5, bytes "*.log") else None.
Definition small_cache : HashCache := {[bytes "d/g" := MkCacheEntry 5 11 11 (tail_hash old_bytes)]}.
Definition snapshot_of (r : result SnapshotError SnapshotMeta) : Digest := match r with Ok m => mt_id m | Err _ => tail_hash [] end.
Definition small_capture : result SnapshotError SnapshotMeta * Store := capture_with tail_hash all_ok 1 noon incremental small_cache RoleEntry small_tree Store_new.
Definition small_id : Digest := snapshot_of small_capture.1.
Lemma small_cache_honest : honest tail_hash small_file_at small_cache.
Proof.
  intros rel mtime len b e Hf He _ _. unfold small_cache in He. apply lookup_singleton_Some in He as [<- <-]. unfold small_file_at in Hf.
  rewrite bool_decide_false, bool_decide_true in Hf by done. by injection Hf as <- <- <-.
Qed.
Lemma small_tree_agrees : Forall (λ c, agrees small_file_at [] c.1 c.2) small_tree.
Proof. repeat constructor. Qed.
(** Links count for nothing against the budget: a capture that may keep no byte keeps the target
    of a link. *)
Theorem links_are_not_budgeted : ∃ m w,
  walk tail_hash walk_ok noon (MkOptions false true false 0) (Some Store_new) ∅ [(bytes "l", TLink 41471 link_target)] = (Ok m, w) ∧ content_bytes m = 19.
Proof. eexists _, _. split; [reflexivity|vm_compute; reflexivity]. Qed.

(** ** The theorems at work *)
Definition small_walk : result SnapshotError Manifest * Walker := walk tail_hash walk_ok noon incremental (Some Store_new) small_cache small_tree.
Definition small_manifest : Manifest := match small_walk.1 with Ok m => m | Err _ => [] end.
Lemma capture_within_budget_witness : length small_manifest = 4%nat ∧ file_bytes small_manifest ≤ 100.
Proof.
  split; [vm_compute; reflexivity|].
  apply (capture_within_budget tail_hash walk_ok noon incremental (Some Store_new) small_cache small_tree small_manifest small_walk.2);
    [vm_compute; split; [discriminate|reflexivity]|].
  change (small_walk = (Ok small_manifest, small_walk.2)). etrans; [apply surjective_pairing|]. apply (f_equal (λ r, (r, small_walk.2))). vm_compute. reflexivity.
Defined.
Lemma digest_names_the_capture_witness :
  digest_worktree tail_hash walk_ok noon incremental small_cache small_tree = Ok small_id ↔
  ∃ meta s', capture_with tail_hash all_ok 1 noon incremental small_cache RoleEntry small_tree Store_new = (Ok meta, s') ∧ mt_id meta = small_id.
Proof.
  apply (digest_names_the_capture tail_hash all_ok 1 noon incremental small_file_at small_cache RoleEntry small_tree Store_new small_id);
    [reflexivity|reflexivity|reflexivity|reflexivity|reflexivity|vm_compute; split; [discriminate|reflexivity]|].
  intros _. exact (conj small_cache_honest small_tree_agrees).
Defined.
