(* ===== verification/Sweep.v ===== *)
(** * Sweep: garbage collection and copies of the snapshot store
      ([crates/ward-snapshot/src/gc.rs], [transfer.rs], [lib.rs])

    A sweep lists the directories of the store one after the other and then removes one file at
    a time, so it is a machine of its own ([Sweeper]) whose steps interleave with captures,
    copies and other sweeps. *)

From stdpp Require Import base numbers option gmap sorting strings list vector relations.
From S2P Require Import Prelude Bytes Ids Snapshot Cas Ignore Capture.
Local Open Scope Z_scope.

Section store.
Context (blake3 : list byte → Digest).
(** ** Planning a sweep *)
Inductive ObjectKey : Type := KBlob (d : Digest) | KManifest (d : Digest) | KMeta (d : Digest) (r : SnapshotRole).
Record SweepPlan := MkPlan { pl_objects : list ObjectKey; pl_lease_active : bool; pl_roots : Z; pl_held : Z }.
Definition is_old_enough (modified now grace : Z) : bool := (modified <=? now) && (grace <=? now - modified).
Definition load_root_manifest (id : Digest) (s : Store) : result SnapshotError Manifest :=
  match st_manifests s !! id with Some (b, _) => checked_manifest blake3 id b | None => Err EIo end.
Definition contents (m : Manifest) : list Digest := omap e_content m.
Fixpoint mark_roots (roots : list Digest) (s : Store) : result SnapshotError (list Digest) :=
  match roots with
  | [] => Ok []
  | id :: roots => m ← load_root_manifest id s; live ← mark_roots roots s; Ok (contents m ++ live)
  end.
(** The three listings; [seen] tells which entries could be inspected. *)
Fixpoint plan_manifests (seen : Digest → bool) (roots : gset Digest) (now grace : Z) (s : Store)
    (l : list (Digest * (list byte * Z))) (live : list Digest) (objs : list ObjectKey) (held : Z) : result SnapshotError (list Digest * list ObjectKey * Z) :=
  match l with
  | [] => Ok (live, objs, held)
  | (id, (_, modified)) :: l =>
      if negb (seen id) || bool_decide (id ∈ roots) then plan_manifests seen roots now grace s l live objs held
      else if negb (is_old_enough modified now grace) then
        m ← load_root_manifest id s;
        plan_manifests seen roots now grace s l (live ++ contents m) objs (held + 1)
      else plan_manifests seen roots now grace s l live (objs ++ [KManifest id]) held
  end.
Fixpoint plan_meta (seen : Digest * SnapshotRole → bool) (roots : gset Digest) (now grace : Z)
    (l : list ((Digest * SnapshotRole) * (SnapshotMeta * Z))) (objs : list ObjectKey) (held : Z) : list ObjectKey * Z :=
  match l with
  | [] => (objs, held)
  | (k, (_, modified)) :: l =>
      if negb (seen k) || bool_decide (k.1 ∈ roots) then plan_meta seen roots now grace l objs held
      else if negb (is_old_enough modified now grace) then plan_meta seen roots now grace l objs (held + 1)
      else plan_meta seen roots now grace l (objs ++ [KMeta k.1 k.2]) held
  end.
Fixpoint plan_blobs (seen : Digest → bool) (live : list Digest) (now grace : Z)
    (l : list (Digest * (list byte * Z))) (objs : list ObjectKey) (held : Z) : list ObjectKey * Z :=
  match l with
  | [] => (objs, held)
  | (d, (_, modified)) :: l =>
      if negb (seen d) || bool_decide (d ∈ live) then plan_blobs seen live now grace l objs held
      else if negb (is_old_enough modified now grace) then plan_blobs seen live now grace l objs (held + 1)
      else plan_blobs seen live now grace l (objs ++ [KBlob d]) held
  end.
Record Listing := MkListing { ls_leases : LeaseListing; ls_manifests : Digest → bool; ls_meta : Digest * SnapshotRole → bool; ls_blobs : Digest → bool }.
(** A plan of a store that nothing changes meanwhile. *)
Definition plan (io : Listing) (roots : gset Digest) (now grace : Z) (s : Store) : result SnapshotError SweepPlan :=
  active ← any_lease_active (ls_leases io) now s;
  let n := Z.of_nat (size roots) in
  if active : bool then Ok (MkPlan [] true n 0)
  else
    live ← mark_roots (elements roots) s;
    '(live, objs, held) ← plan_manifests (ls_manifests io) roots now grace s (map_to_list (st_manifests s)) live [] 0;
    let '(objs, held) := plan_meta (ls_meta io) roots now grace (map_to_list (st_meta s)) objs held in
    let '(objs, held) := plan_blobs (ls_blobs io) live now grace (map_to_list (st_blobs s)) objs held in
    Ok (MkPlan objs false n held).

(** ** Applying it *)
Definition remove_object (k : ObjectKey) (s : Store) : Store :=
  match k with
  | KBlob d => set_blobs (delete d (st_blobs s)) s
  | KManifest d => set_manifests (delete d (st_manifests s)) s
  | KMeta d r => set_meta (delete (d, r) (st_meta s)) s
  end.
(** [rm] tells which files can be removed; one that is gone already is passed over. *)
Definition object_exists (k : ObjectKey) (s : Store) : bool :=
  match k with
  | KBlob d => bool_decide (is_Some (st_blobs s !! d))
  | KManifest d => bool_decide (is_Some (st_manifests s !! d))
  | KMeta d r => bool_decide (is_Some (st_meta s !! (d, r)))
  end.
Fixpoint apply_loop (io : LeaseListing) (rm : ObjectKey → bool) (now : Z) (objs : list ObjectKey) (s : Store) : result SnapshotError (list ObjectKey) * Store :=
  match objs with
  | [] => (Ok [], s)
  | k :: objs' =>
      match any_lease_active io now s with
      | Err e => (Err e, s)
      | Ok true => (Ok (k :: objs'), s)
      | Ok false => if object_exists k s && negb (rm k) then (Err EIo, s) else apply_loop io rm now objs' (remove_object k s)
      end
  end.
(** What a lease left undone. *)
Definition apply (io : LeaseListing) (rm : ObjectKey → bool) (now : Z) (p : SweepPlan) (s : Store) : result SnapshotError (list ObjectKey) * Store :=
  match any_lease_active io now s with
  | Err e => (if pl_lease_active p then Ok (pl_objects p) else Err e, s)
  | Ok active => if pl_lease_active p || active then (Ok (pl_objects p), s) else apply_loop io rm now (pl_objects p) s
  end.

(** ** Copies and checks ([transfer.rs], [lib.rs]) *)
(** Which of its writes succeed. *)
Record CopyIo := MkCopyIo { cp_blob : list byte → bool; cp_manifest : bool; cp_meta : SnapshotRole → bool }.
Fixpoint copy_blobs (io : CopyIo) (now : Z) (ds : list Digest) (source s : Store) : result SnapshotError unit * Store :=
  match ds with
  | [] => (Ok tt, s)
  | d :: ds =>
      match get_blob blake3 d source with
      | Err e => (Err e, s)
      | Ok b =>
          match put_blob blake3 (cp_blob io b) now b s with
          | (Err e, s) => (Err e, s)
          | (Ok d', s) => if bool_decide (d' = d) then copy_blobs io now ds source s else (Err EIntegrity, s)
          end
      end
  end.
Fixpoint copy_metas (io : CopyIo) (now : Z) (id : Digest) (rs : list SnapshotRole) (source s : Store) : result SnapshotError unit * Store :=
  match rs with
  | [] => (Ok tt, s)
  | r :: rs =>
      match get_meta id r source with
      | Ok m => match put_meta (cp_meta io r) now m s with (Ok _, s) => copy_metas io now id rs source s | (Err e, s) => (Err e, s) end
      | Err ENotFound => copy_metas io now id rs source s
      | Err e => (Err e, s)
      end
  end.
Definition copy_from (io : CopyIo) (now : Z) (source : Store) (id : Digest) (s : Store) : result SnapshotError Digest * Store :=
  match get_manifest blake3 id source with
  | Err e => (Err e, s)
  | Ok m =>
      match copy_blobs io now (contents m) source s with
      | (Err e, s) => (Err e, s)
      | (Ok _, s) =>
          match put_manifest blake3 (cp_manifest io) now m s with
          | (Err e, s) => (Err e, s)
          | (Ok copied, s) =>
              if bool_decide (copied = id)
              then let '(r, s) := copy_metas io now id SnapshotRole_ALL source s in (_ ← r; Ok copied, s)
              else (Err EIntegrity, s)
          end
      end
  end.
Fixpoint verify_blobs (ds : list Digest) (s : Store) : result SnapshotError unit :=
  match ds with [] => Ok tt | d :: ds => _ ← get_blob blake3 d s; verify_blobs ds s end.
Definition verify (id : Digest) (s : Store) : result SnapshotError unit := m ← get_manifest blake3 id s; verify_blobs (contents m) s.
Definition read_entry_bytes (e : Entry) (s : Store) : result SnapshotError (list byte) :=
  match e_content e with Some d => get_blob blake3 d s | None => Err ENoSuchEntry end.
Definition cat (id : Digest) (path : list byte) (s : Store) : result SnapshotError (list byte) :=
  m ← get_manifest blake3 id s;
  e ← ok_or (manifest_get path m) ENoSuchEntry;
  read_entry_bytes e s.
End store.

(** ** Sweeps beside captures *)
(** Where a sweep is: the leases were checked, the roots are marked, a directory was listed, or
    its plan is being applied. *)
Inductive Sweeper : Type :=
| SwBegun (roots : gset Digest) (now grace : Z)
| SwMarked (roots : gset Digest) (now grace : Z) (live : list Digest)
| SwManifests (roots : gset Digest) (now grace : Z) (live : list Digest) (objs : list ObjectKey)
| SwMeta (now grace : Z) (live : list Digest) (objs : list ObjectKey)
| SwApply (objs : list ObjectKey).
Record System := MkSystem { sy_store : Store; sy_sweeps : list Sweeper }.

Section system.
Context (blake3 : list byte → Digest).
(** What a sweep may be relied on to see when it lists the manifests. *)
Definition Guard : Type := gset Digest → Z → Z → (Digest → bool) → Store → Prop.
(** One step of a sweep: it goes on, or is over. *)
Inductive sweeps (guard : Guard) (s : Store) : Sweeper → option Sweeper → Store → Prop :=
| sw_mark roots now grace live : mark_roots blake3 (elements roots) s = Ok live →
    sweeps guard s (SwBegun roots now grace) (Some (SwMarked roots now grace live)) s
| sw_manifests roots now grace live seen live' objs held : guard roots now grace seen s →
    plan_manifests blake3 seen roots now grace s (map_to_list (st_manifests s)) live [] 0 = Ok (live', objs, held) →
    sweeps guard s (SwMarked roots now grace live) (Some (SwManifests roots now grace live' objs)) s
| sw_meta roots now grace live objs seen :
    sweeps guard s (SwManifests roots now grace live objs)
      (Some (SwMeta now grace live (plan_meta seen roots now grace (map_to_list (st_meta s)) objs 0).1)) s
| sw_blobs now grace live objs seen :
    sweeps guard s (SwMeta now grace live objs) (Some (SwApply (plan_blobs seen live now grace (map_to_list (st_blobs s)) objs 0).1)) s
| sw_remove io now k objs : any_lease_active io now s = Ok false →
    sweeps guard s (SwApply (k :: objs)) (Some (SwApply objs)) (remove_object k s)
(** it fails, gives way to a lease, ends or dies *)
| sw_over w : sweeps guard s w None s.
Inductive sys_step (guard : Guard) : System → System → Prop :=
| step_put_blob ok now b s ws : sys_step guard (MkSystem s ws) (MkSystem (put_blob blake3 ok now b s).2 ws)
| step_put_manifest ok now m s ws : sys_step guard (MkSystem s ws) (MkSystem (put_manifest blake3 ok now m s).2 ws)
| step_put_meta ok now m s ws : sys_step guard (MkSystem s ws) (MkSystem (put_meta ok now m s).2 ws)
| step_acquire ok key now ttl s ws : sys_step guard (MkSystem s ws) (MkSystem (acquire_capture_at ok key now ttl s).2 ws)
| step_release ok key s ws : sys_step guard (MkSystem s ws) (MkSystem (release ok key s) ws)
| step_mark_kept ok id s ws : sys_step guard (MkSystem s ws) (MkSystem (mark_kept ok id s).2 ws)
| step_unmark_kept ok id s ws : sys_step guard (MkSystem s ws) (MkSystem (unmark_kept ok id s).2 ws)
| step_begin roots now grace io s ws : any_lease_active io now s = Ok false →
    sys_step guard (MkSystem s ws) (MkSystem s (ws ++ [SwBegun roots now grace]))
| step_sweep s s' ws1 w w' ws2 : sweeps guard s w w' s' →
    sys_step guard (MkSystem s (ws1 ++ w :: ws2)) (MkSystem s' (ws1 ++ option_list w' ++ ws2)).
Definition no_guard : Guard := λ _ _ _ _ _, True.

(** A capture is such steps. *)
Lemma blob_steps_steps guard s s' ws : rtc (blob_step blake3) s s' → rtc (sys_step guard) (MkSystem s ws) (MkSystem s' ws).
Proof. induction 1 as [s|s s1 s2 (ok & now & b & ->) _ IH]; [done|]. eapply rtc_l; [apply step_put_blob|exact IH]. Qed.
Lemma walk_steps guard io now opts cache ch s ws :
  rtc (sys_step guard) (MkSystem s ws) (MkSystem (default s (wk_store (walk blake3 io now opts (Some s) cache ch).2)) ws).
Proof.
  unfold walk. pose proof (walk_only_blobs blake3 io now opts ch (Walker_new (Some s) cache)) as H. destruct (walk_root _ _ _ _ _ _) as [r w]. unfold only_blobs in H. cbn in H |- *.
  destruct (wk_store w); [by apply blob_steps_steps|done].
Qed.
Lemma capture_steps guard io key now opts cache role ch s ws :
  rtc (sys_step guard) (MkSystem s ws) (MkSystem (capture_with blake3 io key now opts cache role ch s).2 ws).
Proof.
  unfold capture_with. pose proof (step_acquire guard (ci_lease io) key now DEFAULT_CAPTURE_LEASE_TTL s ws) as H1.
  destruct (acquire_capture_at _ _ _ _ s) as [[k|e] s1]; cbn in *; [|by apply rtc_once]. eapply rtc_l; [exact H1|]. clear H1.
  pose proof (walk_steps guard (ci_walk io) now opts cache ch s1 ws) as H2. destruct (walk _ _ _ _ _ _ _) as [r w]. cbn in H2. etrans; [exact H2|]. clear H2.
  set (s2 := default s1 (wk_store w)). clearbody s2. destruct r as [m|e]; [|apply rtc_once; constructor]. pose proof (step_put_manifest guard (ci_manifest io) now m s2 ws) as H3.
  destruct (put_manifest _ _ _ _ _) as [[id|e] s3]; cbn in H3; (eapply rtc_l; [exact H3|]); [|apply rtc_once; constructor].
  match goal with |- context [put_meta ?ok ?now ?meta s3] => pose proof (step_put_meta guard ok now meta s3 ws) as H4; destruct (put_meta ok now meta s3) as [r4 s4] end.
  cbn in H4 |- *. eapply rtc_l; [exact H4|]. apply rtc_once. constructor.
Qed.
(** So is a copy into the store. *)
Lemma copy_blobs_steps guard io now ds source s ws : rtc (sys_step guard) (MkSystem s ws) (MkSystem (copy_blobs blake3 io now ds source s).2 ws).
Proof.
  revert s. induction ds as [|d ds IH]; intros s; cbn [copy_blobs]; [done|]. destruct (get_blob blake3 d source) as [b|e]; [|done].
  pose proof (step_put_blob guard (cp_blob io b) now b s ws) as H. destruct (put_blob _ _ _ _ _) as [[d'|e] s1]; cbn in H |- *; (eapply rtc_l; [exact H|]); [|done].
  case_bool_decide; [apply IH|done].
Qed.
Lemma copy_metas_steps guard io now id rs source s ws : rtc (sys_step guard) (MkSystem s ws) (MkSystem (copy_metas io now id rs source s).2 ws).
Proof.
  revert s. induction rs as [|r rs IH]; intros s; cbn [copy_metas]; [done|]. destruct (get_meta id r source) as [m|e]; [|destruct e; (done || apply IH)].
  pose proof (step_put_meta guard (cp_meta io r) now m s ws) as H. destruct (put_meta _ _ _ _) as [[u|e] s1]; cbn in H |- *; (eapply rtc_l; [exact H|]); [apply IH|done].
Qed.
Lemma copy_steps guard io now source id s ws : rtc (sys_step guard) (MkSystem s ws) (MkSystem (copy_from blake3 io now source id s).2 ws).
Proof.
  unfold copy_from. destruct (get_manifest blake3 id source) as [m|e]; [|done]. pose proof (copy_blobs_steps guard io now (contents m) source s ws) as H1.
  destruct (copy_blobs _ _ _ _ _ _) as [[u|e] s1]; cbn [snd] in H1 |- *; (etrans; [exact H1|]); [|done]. pose proof (step_put_manifest guard (cp_manifest io) now m s1 ws) as H2.
  destruct (put_manifest _ _ _ _ _) as [[copied|e] s2]; cbn [snd] in H2 |- *; (eapply rtc_l; [exact H2|]); [|done]. case_bool_decide; [|done].
  pose proof (copy_metas_steps guard io now id SnapshotRole_ALL source s2 ws) as H3. destruct (copy_metas _ _ _ _ _ _) as [r s3]. exact H3.
Qed.
End system.

(** ** What a sweep spares *)
Section survival.
Context (blake3 : list byte → Digest).
Definition whole_as (id : Digest) (m : Manifest) (s : Store) : Prop :=
  (∃ b t, st_manifests s !! id = Some (b, t) ∧ checked_manifest blake3 id b = Ok m) ∧
  ∀ d, d ∈ contents m → ∃ b t, st_blobs s !! d = Some (b, t) ∧ blake3 b = d.
Lemma verify_blobs_Ok ds s : verify_blobs blake3 ds s = Ok tt ↔ ∀ d, d ∈ ds → ∃ b t, st_blobs s !! d = Some (b, t) ∧ blake3 b = d.
Proof.
  induction ds as [|d ds IH]; cbn [verify_blobs]; [split; [by intros _ d ?%elem_of_nil|done]|]. rewrite bind_Ok. setoid_rewrite IH. unfold get_blob. split.
  - intros (b & Hb & H) x [->|?]%elem_of_cons; [|by apply H]. destruct (st_blobs s !! d) as [[b' t]|] eqn:E; [|done]. case_bool_decide; [|done]. eauto.
  - intros H. destruct (H d ltac:(apply elem_of_cons; by left)) as (b & t & -> & Hb). exists b. rewrite bool_decide_true by done. split; [done|].
    intros x Hx. apply H. apply elem_of_cons. by right.
Qed.
Lemma verify_whole id s : verify blake3 id s = Ok tt ↔ ∃ m, whole_as id m s.
Proof.
  unfold verify. rewrite bind_Ok. setoid_rewrite verify_blobs_Ok. unfold get_manifest, whole_as. split.
  - intros (m & Hm & Hb). exists m. split; [|done]. destruct (st_manifests s !! id) as [[b t]|]; [|done]. eauto.
  - intros (m & (b & t & -> & Hm) & Hb). eauto.
Qed.
(** A sweep is to see the snapshot: as a root, or as one younger than the grace period. *)
Definition sees (id : Digest) : Guard := λ roots now grace seen s,
  id ∈ roots ∨ ∃ b t, st_manifests s !! id = Some (b, t) ∧ seen id = true ∧ is_old_enough t now grace = false.
Definition spares (id : Digest) (m : Manifest) (objs : list ObjectKey) : Prop :=
  KManifest id ∉ objs ∧ ∀ d, d ∈ contents m → KBlob d ∉ objs.
Definition safe (id : Digest) (m : Manifest) (w : Sweeper) : Prop :=
  match w with
  | SwBegun _ _ _ => True
  | SwMarked roots _ _ live => id ∈ roots → contents m ⊆ live
  | SwManifests _ _ _ live objs | SwMeta _ _ live objs => contents m ⊆ live ∧ spares id m objs
  | SwApply objs => spares id m objs
  end.
Lemma load_whole id m s : whole_as id m s → load_root_manifest blake3 id s = Ok m.
Proof. intros [(b & t & E & Hm) _]. unfold load_root_manifest. by rewrite E. Qed.
Lemma mark_roots_live id m s roots live : whole_as id m s → mark_roots blake3 roots s = Ok live → id ∈ roots → contents m ⊆ live.
Proof.
  intros Hw. revert live. induction roots as [|x roots IH]; intros live; cbn [mark_roots]; [by intros _ ?%elem_of_nil|]. intros H.
  apply bind_Ok in H as (mx & Hx & H). apply bind_Ok in H as (l & Hl & [= <-]). intros [->|Hin]%elem_of_cons.
  - rewrite (load_whole _ _ _ Hw) in Hx. injection Hx as <-. set_solver.
  - specialize (IH l Hl Hin). set_solver.
Qed.
Lemma plan_manifests_spec seen roots now grace s l live objs held live' objs' held' :
  plan_manifests blake3 seen roots now grace s l live objs held = Ok (live', objs', held') →
  live ⊆ live' ∧
  (∀ k, k ∈ objs' → k ∈ objs ∨ ∃ id b t, k = KManifest id ∧ (id, (b, t)) ∈ l ∧ id ∉ roots ∧ is_old_enough t now grace = true) ∧
  (∀ id b t m, (id, (b, t)) ∈ l → seen id = true → id ∉ roots → is_old_enough t now grace = false → load_root_manifest blake3 id s = Ok m → contents m ⊆ live').
Proof.
  revert live objs held. induction l as [|[x [b t]] l IH]; intros live objs held; cbn [plan_manifests].
  { intros [= <- <- <-]. split_and!; [done|auto|]. by intros ???? ?%elem_of_nil. }
  destruct (negb (seen x) || bool_decide (x ∈ roots)) eqn:E1.
  { intros (H1 & H2 & H3)%IH. split_and!; [done| |].
    - intros k [?|(id & b' & t' & -> & Hin & Hnr & Hold)]%H2; [by left|right]. exists id, b', t'. split_and!; try done. apply elem_of_cons. by right.
    - intros id b' t' m [[= -> -> ->]|Hin]%elem_of_cons Hs Hn; [|by eapply H3]. exfalso. apply orb_true_iff in E1 as [E1|E1]; [by rewrite Hs in E1|].
      by apply bool_decide_eq_true in E1. }
  apply orb_false_iff in E1 as [_ E1%bool_decide_eq_false]. destruct (is_old_enough t now grace) eqn:E2; cbn [negb].
  - intros (H1 & H2 & H3)%IH. split_and!; [done| |].
    + intros k [[?| ->%list_elem_of_singleton]%elem_of_app|(id & b' & t' & -> & Hin & Hnr & Hold)]%H2; [by left|right|right].
      * exists x, b, t. split_and!; try done. apply elem_of_cons. by left.
      * exists id, b', t'. split_and!; try done. apply elem_of_cons. by right.
    + intros id b' t' m [[= -> -> ->]|Hin]%elem_of_cons Hs Hn Ho; [congruence|by eapply H3].
  - intros H. apply bind_Ok in H as (mx & Hx & H). apply IH in H as (H1 & H2 & H3). split_and!; [intros d Hd; apply H1, elem_of_app; by left| |].
    + intros k [?|(id & b' & t' & -> & Hin & Hnr & Hold)]%H2; [by left|right]. exists id, b', t'. split_and!; try done. apply elem_of_cons. by right.
    + intros id b' t' m [[= -> -> ->]|Hin]%elem_of_cons Hs Hn Ho Hm; [|by eapply H3]. rewrite Hm in Hx. injection Hx as ->. intros d Hd. apply H1, elem_of_app. by right.
Qed.
Lemma plan_meta_spec seen roots now grace l objs held k :
  k ∈ (plan_meta seen roots now grace l objs held).1 → k ∈ objs ∨ ∃ d r, k = KMeta d r.
Proof.
  revert objs held. induction l as [|[x [b t]] l IH]; intros objs held; cbn [plan_meta]; [by left|].
  destruct (_ || _); [apply IH|]. destruct (negb _); [apply IH|]. intros [[?| ->%list_elem_of_singleton]%elem_of_app|?]%IH; eauto.
Qed.
Lemma plan_blobs_spec seen live now grace l objs held k :
  k ∈ (plan_blobs seen live now grace l objs held).1 → k ∈ objs ∨ ∃ d, k = KBlob d ∧ d ∉ live.
Proof.
  revert objs held. induction l as [|[x [b t]] l IH]; intros objs held; cbn [plan_blobs]; [by left|].
  destruct (negb (seen x) || bool_decide (x ∈ live)) eqn:E; [apply IH|]. apply orb_false_iff in E as [_ E%bool_decide_eq_false].
  destruct (negb _); [apply IH|]. intros [[?| ->%list_elem_of_singleton]%elem_of_app|?]%IH; eauto.
Qed.
Lemma sweep_keeps id m s w w' s' : whole_as id m s → safe id m w → sweeps blake3 (sees id) s w w' s' →
  whole_as id m s' ∧ from_option (safe id m) True w'.
Proof.
  intros Hw Hsafe Hstep. destruct Hstep as [roots now grace live Hm|roots now grace live seen live' objs held Hg Hp|roots now grace live objs seen|now grace live objs seen|io now k objs _|w];
    cbn [from_option safe] in *.
  - split; [done|]. intros Hin. eapply mark_roots_live; [done|exact Hm|]. by apply elem_of_elements.
  - split; [done|]. apply plan_manifests_spec in Hp as (H1 & H2 & H3). split.
    + destruct Hg as [Hin|(b & t & E & Hs & Ho)]; [etrans; [by apply Hsafe|done]|]. destruct (decide (id ∈ roots)) as [Hin|Hn]; [etrans; [by apply Hsafe|done]|].
      eapply H3; [by apply elem_of_map_to_list|done|done|done|by apply load_whole].
    + split; [|intros d _ [?%elem_of_nil|(? & ? & ? & [=] & _)]%H2; done]. intros [?%elem_of_nil|(x & b & t & [= <-] & Hl & Hn & Ho)]%H2; [done|].
      destruct Hg as [Hin|(b' & t' & E & _ & Ho')]; [done|]. apply elem_of_map_to_list in Hl. rewrite E in Hl. injection Hl as -> ->. congruence.
  - split; [done|]. destruct Hsafe as (Hl & Hk & Hb). split; [done|]. split; [intros [?|(? & ? & [=])]%plan_meta_spec; done|].
    intros d Hd [?|(? & ? & [=])]%plan_meta_spec. by eapply Hb.
  - split; [done|]. destruct Hsafe as (Hl & Hk & Hb). split; [intros [?|(? & [=] & _)]%plan_blobs_spec; done|].
    intros d Hd [?|(? & [= <-] & Hn)]%plan_blobs_spec; [by eapply Hb|]. by apply Hn, Hl.
  - destruct Hsafe as [Hk Hb]. split; [|split; [|intros d Hd ?; apply (Hb d Hd)]; [intros ?; apply Hk|]; apply elem_of_cons; by right].
    destruct Hw as [(b & t & E & Hm) Hc]. destruct k as [d|d|d r]; cbn; split; cbn.
    + eauto.
    + intros x Hx. destruct (Hc x Hx) as (bb & tb & Ex & Hh). exists bb, tb. split; [|done]. rewrite lookup_delete_ne; [done|]. intros ->. apply (Hb x Hx). apply elem_of_cons. by left.
    + exists b, t. split; [|done]. rewrite lookup_delete_ne; [done|]. intros ->. apply Hk. apply elem_of_cons. by left.
    + done.
    + eauto.
    + done.
  - done.
Qed.
Lemma put_blob_keeps id m ok now b s : whole_as id m s → whole_as id m (put_blob blake3 ok now b s).2.
Proof.
  intros [Hm Hc]. unfold put_blob. cbv zeta. destruct (st_blobs s !! blake3 b) as [[b' t]|] eqn:E; [done|]. destruct ok; [|done]. split; [done|]. cbn. intros d Hd.
  destruct (Hc d Hd) as (bb & tb & Ed & Hh). exists bb, tb. split; [|done]. rewrite lookup_insert_ne; [done|]. congruence.
Qed.
Lemma put_manifest_keeps id m ok now x s : whole_as id m s → whole_as id m (put_manifest blake3 ok now x s).2.
Proof.
  intros [(b & t & E & Hm) Hc]. unfold put_manifest. cbv zeta. destruct (st_manifests s !! manifest_id blake3 x) as [[b' t']|] eqn:E'; (destruct ok; [|by split; eauto]); (split; [|done]); cbn.
  - destruct (decide (manifest_id blake3 x = id)) as [<-|Hne]; [|exists b, t; by rewrite lookup_insert_ne]. exists b', now. rewrite lookup_insert_eq. split; [done|]. congruence.
  - exists b, t. split; [|done]. rewrite lookup_insert_ne; [done|]. congruence.
Qed.
Lemma sys_step_keeps id m x y : sys_step blake3 (sees id) x y → whole_as id m (sy_store x) ∧ Forall (safe id m) (sy_sweeps x) →
  whole_as id m (sy_store y) ∧ Forall (safe id m) (sy_sweeps y).
Proof.
  intros Hstep [Hw Hs]. destruct Hstep; cbn [sy_store sy_sweeps] in *.
  - split; [by apply put_blob_keeps|done].
  - split; [by apply put_manifest_keeps|done].
  - split; [|done]. by destruct ok.
  - split; [|done]. by destruct ok.
  - split; [|done]. by destruct ok.
  - split; [|done]. by destruct ok.
  - split; [|done]. unfold unmark_kept. case_bool_decide; [done|]. by destruct ok.
  - split; [done|]. apply Forall_app. split; [done|]. by repeat constructor.
  - apply Forall_app in Hs as [Hs1 [Hs Hs2]%Forall_cons]. destruct (sweep_keeps _ _ _ _ _ _ Hw Hs H) as [Hw' Hs']. split; [done|].
    rewrite !Forall_app. split_and!; [done| |done]. destruct w'; cbn; [by constructor|constructor].
Qed.
Lemma sys_step_mono (g1 g2 : Guard) x y : (∀ roots now grace seen s, g1 roots now grace seen s → g2 roots now grace seen s) →
  sys_step blake3 g1 x y → sys_step blake3 g2 x y.
Proof.
  intros Hg Hstep. destruct Hstep as [| | | | | | |roots now grace io s ws Hl|s s' ws1 w w' ws2 Hs]; [by econstructor..|by eapply step_begin|].
  apply step_sweep. destruct Hs; [by eapply sw_mark|eapply sw_manifests; by eauto|by eapply sw_meta|by eapply sw_blobs|by eapply sw_remove|by eapply sw_over].
Qed.
(** Whatever a sweep may be relied on to know, if it sees the snapshot by it. *)
Lemma survives (guard : Guard) id x y : (∀ roots now grace seen s, guard roots now grace seen s → sees id roots now grace seen s) →
  verify blake3 id (sy_store x) = Ok tt → sy_sweeps x = [] → rtc (sys_step blake3 guard) x y → verify blake3 id (sy_store y) = Ok tt.
Proof.
  intros Hg (m & Hw)%verify_whole Hn Hsteps. apply verify_whole. exists m.
  assert (whole_as id m (sy_store x) ∧ Forall (safe id m) (sy_sweeps x)) as Hi by (split; [done|rewrite Hn; constructor]). clear Hw Hn.
  induction Hsteps as [x|x y z Hstep _ IH]; [apply Hi|]. apply IH. eapply sys_step_keeps; [by eapply sys_step_mono|done].
Qed.
(** A snapshot that is whole stays whole, however captures, copies and any number of sweeps
    interleave, fail and die, as long as every sweep that lists the store sees it: as one of its
    roots, or as younger than its grace period. *)
Theorem seen_snapshots_survive id x y :
  verify blake3 id (sy_store x) = Ok tt → sy_sweeps x = [] → rtc (sys_step blake3 (sees id)) x y → verify blake3 id (sy_store y) = Ok tt.
Proof. by apply survives. Qed.
End survival.

(** ** Runs *)
Definition listed : LeaseListing := LeasesListed false.
Definition one_file : list (list byte * Tree) := [(bytes "f", TFile 33188 5 11 old_bytes)].
(** A store with one blob, from long ago, that nothing names. *)
Definition old_store : Store := (put_blob tail_hash true 0 old_bytes Store_new).2.
Definition captured : result SnapshotError SnapshotMeta * Store := capture_with tail_hash all_ok 1 noon CaptureOptions_default ∅ RoleEntry one_file old_store.
Definition first_id : Digest := snapshot_of captured.1.
Lemma old_store_steps guard : rtc (sys_step tail_hash guard) (MkSystem Store_new []) (MkSystem old_store []).
Proof. apply rtc_once. exact (step_put_blob tail_hash guard true 0 old_bytes Store_new []). Qed.
(** A sweep that plans by itself: the steps from its begin to its plan. *)
Lemma planned guard roots now grace seen s live live' objs held objs' :
  any_lease_active listed now s = Ok false → mark_roots tail_hash (elements roots) s = Ok live → guard roots now grace seen s →
  plan_manifests tail_hash seen roots now grace s (map_to_list (st_manifests s)) live [] 0 = Ok (live', objs, held) →
  (plan_blobs (λ _, true) live' now grace (map_to_list (st_blobs s)) (plan_meta (λ _, true) roots now grace (map_to_list (st_meta s)) objs 0).1 0).1 = objs' →
  rtc (sys_step tail_hash guard) (MkSystem s []) (MkSystem s [SwApply objs']).
Proof.
  intros Hl Hm Hg Hp <-. eapply rtc_l; [exact (step_begin _ _ roots now grace listed s [] Hl)|]. cbn [app].
  eapply rtc_l; [exact (step_sweep _ _ s s [] _ _ [] (sw_mark _ _ s roots now grace live Hm))|]. cbn [app option_list].
  eapply rtc_l; [exact (step_sweep _ _ s s [] _ _ [] (sw_manifests _ _ s roots now grace live seen live' objs held Hg Hp))|]. cbn [app option_list].
  eapply rtc_l; [exact (step_sweep _ _ s s [] _ _ [] (sw_meta _ _ s roots now grace live' objs (λ _, true)))|]. cbn [app option_list].
  apply rtc_once. exact (step_sweep _ _ s s [] _ _ [] (sw_blobs _ _ s now grace live' _ (λ _, true))).
Qed.
(** Its next removal, with no lease in the way. *)
Lemma removes guard now k objs s : any_lease_active listed now s = Ok false →
  sys_step tail_hash guard (MkSystem s [SwApply (k :: objs)]) (MkSystem (remove_object k s) [SwApply objs]).
Proof. intros H. exact (step_sweep _ _ s _ [] _ _ [] (sw_remove _ _ s listed now k objs H)). Qed.
Definition old_digest : Digest := tail_hash old_bytes.
(** The store after a sweep that had the capture's blob in its plan removes it. *)
Definition swept : Store := remove_object (KBlob old_digest) captured.2.

(** A sweep looks for leases before each file it removes, but its plan is not looked at again: a
    capture that starts after the plan was made and is over before the removal finds the old blob
    in the store and relies on it, and the sweep then removes it.  The capture has answered, its
    snapshot was whole, and its grace period has only begun. *)
Theorem a_sweep_breaks_a_finished_capture : ∃ s ws meta s' y,
  rtc (sys_step tail_hash no_guard) (MkSystem Store_new []) (MkSystem s ws) ∧
  capture_with tail_hash all_ok 1 noon CaptureOptions_default ∅ RoleEntry one_file s = (Ok meta, s') ∧ verify tail_hash (mt_id meta) s' = Ok tt ∧
  sys_step tail_hash no_guard (MkSystem s' ws) y ∧ verify tail_hash (mt_id meta) (sy_store y) = Err ENotFound.
Proof.
  exists old_store, [SwApply [KBlob old_digest]], (MkMeta first_id RoleEntry 1 11), captured.2, (MkSystem swept [SwApply []]). split_and!.
  - etrans; [apply old_store_steps|].
    apply (planned no_guard ∅ noon DEFAULT_GC_GRACE_PERIOD (λ _, true) old_store [] [] [] 0); [vm_compute; reflexivity..|exact I|vm_compute; reflexivity|vm_compute; reflexivity].
  - change (captured = (Ok (MkMeta first_id RoleEntry 1 11), captured.2)). etrans; [apply surjective_pairing|]. apply (f_equal (λ r, (r, captured.2))). vm_compute. reflexivity.
  - vm_compute. reflexivity.
  - apply (removes no_guard noon). vm_compute. reflexivity.
  - vm_compute. reflexivity.
Qed.
(** An entry of the manifests that cannot be inspected is passed over; the blobs of a snapshot
    that only its grace period protects are then not marked, and a sweep removes them. *)
Lemma an_unlisted_manifest_loses_its_blobs : ∃ y,
  rtc (sys_step tail_hash no_guard) (MkSystem captured.2 []) y ∧ verify tail_hash first_id captured.2 = Ok tt ∧
  verify tail_hash first_id (sy_store y) = Err ENotFound.
Proof.
  exists (MkSystem swept [SwApply []]). split_and!; [|vm_compute; reflexivity..].
  etrans; [apply (planned no_guard ∅ (noon + 1) DEFAULT_GC_GRACE_PERIOD (λ _, false) captured.2 [] [] [] 0 [KBlob old_digest]);
           [vm_compute; reflexivity..|exact I|vm_compute; reflexivity|vm_compute; reflexivity]|].
  apply rtc_once. apply (removes no_guard noon). vm_compute. reflexivity.
Qed.

(** ** The theorems at work *)
Lemma manifest_roundtrip_witness :
  let e := MkEntry (bytes "a b") File 420 3 (Some old_digest) in parse (serialize [e]) = Ok [e].
Proof. intros e. apply (manifest_roundtrip [e] [e]); [vm_compute; reflexivity|]. repeat constructor; vm_compute; discriminate. Defined.
Definition entry_a : Entry := MkEntry (bytes "a") File 420 3 (Some old_digest).
Definition entry_b : Entry := MkEntry (bytes "b") Dir 493 0 None.
Lemma snapshot_id_names_its_tree_witness :
  manifest_id tail_hash [entry_a; entry_b] = manifest_id tail_hash [entry_a; entry_b] ∧
  (serialize [entry_a] = serialize [entry_a; entry_b] → [entry_a] ≡ₚ [entry_b; entry_a]).
Proof.
  split.
  - apply (snapshot_id_names_its_tree tail_hash [entry_a; entry_b] [entry_b; entry_a]);
      [vm_compute; reflexivity|vm_compute; reflexivity|repeat constructor; vm_compute; discriminate|repeat constructor; vm_compute; discriminate|].
    apply perm_swap.
  - apply (snapshot_id_names_its_tree tail_hash [entry_a] [entry_b; entry_a]);
      [vm_compute; reflexivity|vm_compute; reflexivity|repeat constructor; vm_compute; discriminate|repeat constructor; vm_compute; discriminate].
Defined.
Lemma seen_snapshots_survive_witness : verify tail_hash first_id captured.2 = Ok tt.
Proof.
  apply (seen_snapshots_survive tail_hash first_id (MkSystem captured.2 []) (MkSystem captured.2 [SwBegun {[first_id]} noon 0]));
    [vm_compute; reflexivity|reflexivity|].
  apply rtc_once. apply (step_begin _ _ _ _ _ listed _ []). vm_compute. reflexivity.
Defined.
