(* ===== verification/Retention.v ===== *)
(** * Retention: which snapshots the daemon keeps ([crates/ward-daemon/src/retention.rs],
      [attempt.rs])

    The roots of a sweep, from what the sessions' directories say: their metadata, their logs,
    their attempt markers, and the kept marks of the store.  What cannot be read is passed over,
    as the code does. *)

From stdpp Require Import base numbers option gmap sorting strings list vector relations.
From S2P Require Import Prelude Bytes Ids Snapshot Cas Ignore Capture Sweep.
Local Open Scope Z_scope.

(** ** What the sessions say *)
(** The events that name snapshots, by what they name. *)
Inductive Event : Type :=
| SessionStarted (entry_snapshot : Digest)
| SessionEnded (final_snapshot : option Digest)
| SnapshotCreated (id : Digest)
| VerificationStarted (candidate pristine : Digest)
| VerificationRequested (candidate : Digest)
| VerificationPassed (candidate : Digest)
| VerificationFailed (candidate : Digest)
| VerificationErrored (candidate : Digest)
| VerificationTimedOut (candidate : Digest)
| VerificationCancelled (candidate : option Digest)
| VerificationInterrupted (candidate : option Digest)
| StateAccepted (snapshot : Digest)
| EntryRestored (snapshot : Digest)
| OtherEvent.
(** A session's directory: whether its log is sealed; the entry snapshot of its metadata, if that
    loads; the records of its log that read, if it opens; the candidates of its attempt markers,
    if the directory lists and by marker that reads. *)
Record SessionDir := MkSessionDir {
  sd_sealed : bool; sd_entry : option (list byte); sd_log : option (list (option Event)); sd_markers : option (list (option (option (list byte)))) }.
(** [None]: the sessions cannot be listed. *)
Definition StateDir : Type := option (list SessionDir).

Definition snapshots_named (e : Event) : list Digest :=
  match e with
  | SessionStarted d | SnapshotCreated d | StateAccepted d | EntryRestored d => [d]
  | VerificationRequested d | VerificationPassed d | VerificationFailed d | VerificationErrored d | VerificationTimedOut d => [d]
  | VerificationStarted d p => [d; p]
  | SessionEnded d | VerificationCancelled d | VerificationInterrupted d => option_list d
  | OtherEvent => []
  end.
(** An id of the events as an id of the snapshots: through its text. *)
Definition reparse (d : Digest) : option Digest := match Digest_from_str (SnapshotId_display d) with Ok d => Some d | Err _ => None end.
Definition parsed (s : list byte) : option Digest := match Digest_from_str s with Ok d => Some d | Err _ => None end.
Definition records (d : SessionDir) : list Event := match sd_log d with Some l => omap (λ e : option Event, e) l | None => [] end.
Definition session_root (d : SessionDir) : list Digest :=
  if sd_sealed d then []
  else match sd_entry d with
       | None => []
       | Some entry => option_list (parsed entry) ++ omap reparse (records d ≫= snapshots_named)
       end.
Definition session_roots (ds : list SessionDir) : gset Digest := list_to_set (ds ≫= session_root).
Definition accepted (e : Event) : option Digest := match e with StateAccepted d => reparse d | _ => None end.
Definition evidence_roots (ds : list SessionDir) : gset Digest := list_to_set (ds ≫= λ d, omap accepted (records d)).
Definition candidate_snapshot_ids (d : SessionDir) : list Digest :=
  omap (λ m : option (option (list byte)), s ← mjoin m; parsed s) (default [] (sd_markers d)).
Definition attempt_roots (ds : list SessionDir) : gset Digest := list_to_set (ds ≫= candidate_snapshot_ids).
Definition session_ids (st : StateDir) : result SnapshotError (list SessionDir) := ok_or st EIo.
Definition roots (io : option (Digest → bool)) (st : StateDir) (s : Store) : result SnapshotError (gset Digest) :=
  ds ← session_ids st;
  kept ← kept_ids io s;
  Ok (session_roots ds ∪ evidence_roots ds ∪ attempt_roots ds ∪ kept).
Definition retention_plan (blake3 : list byte → Digest) (io : Listing) (kio : option (Digest → bool)) (st : StateDir) (now grace : Z) (s : Store) : result SnapshotError SweepPlan :=
  rs ← roots kio st s; plan blake3 io rs now grace s.
(** A mark for a snapshot that is not stored is refused. *)
Definition daemon_mark_kept (blake3 : list byte → Digest) (ok : bool) (id : Digest) (s : Store) : result SnapshotError unit * Store :=
  match get_manifest blake3 id s with Err _ => (Err ENotFound, s) | Ok _ => mark_kept ok id s end.

(** ** What is kept *)
(** Why a snapshot is a root. *)
Inductive retained (id : Digest) (ds : list SessionDir) (kept : gset Digest) : Prop :=
| by_entry d : d ∈ ds → sd_sealed d = false → sd_entry d = Some (SnapshotId_display id) → retained id ds kept
| by_log d e : d ∈ ds → sd_sealed d = false → is_Some (sd_entry d) → e ∈ records d → id ∈ snapshots_named e → retained id ds kept
| by_evidence d : d ∈ ds → StateAccepted id ∈ records d → retained id ds kept
| by_attempt d l : d ∈ ds → sd_markers d = Some l → Some (Some (SnapshotId_display id)) ∈ l → retained id ds kept
| by_mark : id ∈ kept → retained id ds kept.
Lemma reparse_id d : reparse d = Some d.
Proof. unfold reparse. change (SnapshotId_display d) with (Digest_display d). by rewrite Digest_roundtrip. Qed.
Lemma parsed_id d : parsed (SnapshotId_display d) = Some d.
Proof. exact (reparse_id d). Qed.
Lemma retained_roots io st s ds kept rs id : st = Some ds → kept_ids io s = Ok kept → roots io st s = Ok rs → retained id ds kept → id ∈ rs.
Proof.
  intros -> Hk. unfold roots. cbn [session_ids ok_or]. rewrite bind_Ok_l, Hk, bind_Ok_l. intros [= <-]. rewrite !elem_of_union. unfold session_roots, evidence_roots, attempt_roots.
  rewrite !elem_of_list_to_set. setoid_rewrite list_elem_of_bind. intros [d Hd Hs He|d e Hd Hs [t He] Hr Hn|d Hd Hr|d l Hd Hm Hl|Hin].
  - do 3 left. exists d. split; [|done]. unfold session_root. rewrite Hs, He, parsed_id. cbn. left.
  - do 3 left. exists d. split; [|done]. unfold session_root. rewrite Hs, He, elem_of_app. right. apply list_elem_of_omap. exists id. split; [|apply reparse_id]. apply list_elem_of_bind. eauto.
  - do 2 left. right. exists d. split; [|done]. apply list_elem_of_omap. exists (StateAccepted id). split; [done|apply reparse_id].
  - left. right. exists d. split; [|done]. unfold candidate_snapshot_ids. rewrite Hm. apply list_elem_of_omap. exists (Some (Some (SnapshotId_display id))). split; [done|]. apply parsed_id.
  - by right.
Qed.
(** What may be relied on: a sweep's roots were computed when the snapshot was retained, or it
    lists the snapshot as younger than its grace period. *)
Definition retention_guard (id : Digest) : Guard := λ rs now grace seen s,
  (∃ io ds s0 kept, roots io (Some ds) s0 = Ok rs ∧ kept_ids io s0 = Ok kept ∧ retained id ds kept) ∨
  ∃ b t, st_manifests s !! id = Some (b, t) ∧ seen id = true ∧ is_old_enough t now grace = false.
(** C17. What a session, an attempt, accepted evidence or a mark retains survives every sweep: a whole
    snapshot stays whole, however captures, copies and sweeps interleave, fail and die, while each
    sweep's roots were computed when it was retained, or see it as younger than the grace period. *)
Theorem retained_snapshots_survive blake3 id x y :
  verify blake3 id (sy_store x) = Ok tt → sy_sweeps x = [] → rtc (sys_step blake3 (retention_guard id)) x y → verify blake3 id (sy_store y) = Ok tt.
Proof. apply survives. intros rs now grace seen s [(io & ds & s0 & kept & Hr & Hk & Hid)|Hy]; [left; by eapply retained_roots|by right]. Qed.

(** ** An unreadable session *)
(** A session that runs: its log, unsealed, names the snapshot it started from, and its metadata
    does not load. *)
Definition unreadable : SessionDir := MkSessionDir false None (Some [Some (SessionStarted first_id)]) None.
Definition readable : SessionDir := MkSessionDir false (Some (SnapshotId_display first_id)) (Some [Some (SessionStarted first_id)]) None.
(** The sweeps of the daemon while these are its sessions. *)
Definition sweeps_of (ds : list SessionDir) : Guard := λ rs _ _ _ _, roots (Some (λ _, true)) (Some ds) captured.2 = Ok rs.
Definition later : Z := noon + DEFAULT_GC_GRACE_PERIOD.

(** A session whose metadata does not load contributes no root, not even what its log names, and
    the plan is not refused for it: once the grace period is over, a sweep takes the snapshot that
    the running session started from. *)
Theorem an_unreadable_session_is_swept : ∃ y,
  sd_sealed unreadable = false ∧ SessionStarted first_id ∈ records unreadable ∧ verify tail_hash first_id captured.2 = Ok tt ∧
  rtc (sys_step tail_hash (sweeps_of [unreadable])) (MkSystem captured.2 []) y ∧ verify tail_hash first_id (sy_store y) = Err ENotFound.
Proof.
  exists (MkSystem (remove_object (KManifest first_id) captured.2) [SwApply [KMeta first_id RoleEntry; KBlob old_digest]]).
  split_and!; [reflexivity|left|vm_compute; reflexivity| |vm_compute; reflexivity].
  etrans; [|apply rtc_once, (removes _ later); vm_compute; reflexivity].
  apply (planned _ ∅ later DEFAULT_GC_GRACE_PERIOD (λ _, true) captured.2 [] [] [KManifest first_id] 0); [vm_compute; reflexivity..| |vm_compute; reflexivity|vm_compute; reflexivity].
  unfold sweeps_of, roots. apply (f_equal Ok). apply (bool_decide_unpack _). vm_compute. exact I.
Qed.

(** ** The theorems at work *)
Lemma readable_retained : retention_guard first_id {[first_id]} later 0 (λ _, true) captured.2.
Proof.
  left. exists (Some (λ _, true)), [readable], captured.2, ∅. split; [|split].
  - unfold roots. apply (f_equal Ok). apply (bool_decide_unpack _). vm_compute. exact I.
  - unfold kept_ids. apply (f_equal Ok). apply (bool_decide_unpack _). vm_compute. exact I.
  - apply (by_entry _ _ _ readable); [left|reflexivity|reflexivity].
Qed.
Lemma retained_snapshots_survive_witness : verify tail_hash first_id captured.2 = Ok tt.
Proof.
  apply (retained_snapshots_survive tail_hash first_id (MkSystem captured.2 []) (MkSystem captured.2 [SwApply []])); [vm_compute; reflexivity|reflexivity|].
  apply (planned _ {[first_id]} later 0 (λ _, true) captured.2 [old_digest] [old_digest] [] 0);
    [vm_compute; reflexivity|vm_compute; reflexivity|exact readable_retained|vm_compute; reflexivity|vm_compute; reflexivity].
Defined.
