(* ===== verification/Materialize.v ===== *)
(** * Materialize: writing a snapshot back as a tree ([crates/ward-snapshot/src/materialize.rs])

    The destination is a map from locations to what is there: a location is the list of names
    that lead to it, as the system resolves a path, so that [a/./b] and [a//b] are the location
    of [a/b].  A call that meets a symbolic link where it writes follows it; what it then does is
    not part of this tree, and is recorded ([mz_followed]).  The host may refuse a call, or break
    off in one and leave part of a file behind ([Host]). *)

From stdpp Require Import base numbers option gmap sorting strings list vector relations.
From S2P Require Import Prelude Bytes Ids Snapshot Cas Ignore Capture Sweep.
Local Open Scope Z_scope.

(** ** The destination *)
Definition Location : Type := list (list byte).
Inductive Node : Set :=
| NDir (mode : option Z)
| NFile (content : list byte) (mode : option Z)
| NLink (target : list byte).
Inductive Host : Set := Works | Refuses | Breaks (part : list byte).
Inductive Call : Set := CallWrite | CallMode.
Record Dest := MkDest { mz_tree : gmap Location Node; mz_followed : list (Location * Call) }.
Definition Dest_new : Dest := MkDest ∅ [].
Definition with_tree (t : gmap Location Node) (d : Dest) : Dest := MkDest t (mz_followed d).
Definition follow_link (l : Location) (c : Call) (d : Dest) : Dest := MkDest (mz_tree d) (mz_followed d ++ [(l, c)]).
(** The destination itself is a directory. *)
Definition node_at (l : Location) (d : Dest) : option Node := if bool_decide (l = []) then Some (NDir None) else mz_tree d !! l.
(** The names of a path that take the system anywhere. *)
Definition plain_seg (x : list byte) : bool := negb (bool_decide (x = []) || bool_decide (x = bytes ".")).
Definition names (segs : list (list byte)) : Location := List.filter plain_seg segs.

(** ** Paths *)
Definition checked_ancestor (l : Location) (d : Dest) : result SnapshotError unit :=
  match node_at l d with
  | Some (NDir _) => Ok tt
  | Some _ => Err EUnsafePath
  | None => Err EIo
  end.
(** [before]: what was pushed already. *)
Fixpoint walk_segs (before : list (list byte)) (segs : list (list byte)) (d : Dest) : result SnapshotError Location :=
  match segs with
  | [] => Ok (names before)
  | [seg] => Ok (names (before ++ [seg]))
  | seg :: rest => _ ← checked_ancestor (names (before ++ [seg])) d; walk_segs (before ++ [seg]) rest d
  end.
Definition checked_path (rel : list byte) (d : Dest) : result SnapshotError Location :=
  _ ← validate_path rel; walk_segs [] (split_on SLASH rel) d.

(** ** Calls *)
Definition create_dir (h : Host) (l : Location) (d : Dest) : result SnapshotError unit * Dest :=
  match h with
  | Works => (Ok tt, match node_at l d with Some _ => d | None => with_tree (<[l := NDir None]> (mz_tree d)) d end)
  | _ => (Err EIo, d)
  end.
Definition set_mode (h : Host) (l : Location) (mode : Z) (d : Dest) : result SnapshotError unit * Dest :=
  match node_at l d with
  | None => (Err EIo, d)
  | Some n =>
      match h with
      | Works =>
          match n with
          | NDir _ => (Ok tt, if bool_decide (l = []) then d else with_tree (<[l := NDir (Some mode)]> (mz_tree d)) d)
          | NFile b _ => (Ok tt, with_tree (<[l := NFile b (Some mode)]> (mz_tree d)) d)
          | NLink _ => (Ok tt, follow_link l CallMode d)
          end
      | _ => (Err EIo, d)
      end
  end.
Definition file_mode (n : option Node) : option Z := match n with Some (NFile _ m) => m | _ => None end.
Definition fs_write (h : Host) (l : Location) (b : list byte) (d : Dest) : result SnapshotError unit * Dest :=
  match node_at l d with
  | Some (NDir _) => (Err EIo, d)
  | Some (NLink _) => match h with Refuses => (Err EIo, d) | Works => (Ok tt, follow_link l CallWrite d) | Breaks _ => (Err EIo, follow_link l CallWrite d) end
  | n =>
      match h with
      | Works => (Ok tt, with_tree (<[l := NFile b (file_mode n)]> (mz_tree d)) d)
      | Refuses => (Err EIo, d)
      | Breaks part => (Err EIo, with_tree (<[l := NFile part (file_mode n)]> (mz_tree d)) d)
      end
  end.
Definition symlink (h : Host) (l : Location) (target : list byte) (d : Dest) : result SnapshotError unit * Dest :=
  match node_at l d, h with
  | None, Works => (Ok tt, with_tree (<[l := NLink target]> (mz_tree d)) d)
  | _, _ => (Err EIo, d)
  end.

(** ** The operation *)
(** The host's answers, by path: to the call that makes the entry, and to its change of mode. *)
Record HostIo := MkHostIo { hi_make : list byte → Host; hi_mode : list byte → Host }.
Definition is_dir_kind (k : EntryType) : bool := match k with Dir | SubmoduleWorktree => true | _ => false end.
Section materialize.
Context (blake3 : list byte → Digest) (s : Store).
Definition write_entry (io : HostIo) (e : Entry) (d : Dest) : result SnapshotError unit * Dest :=
  match checked_path (e_path e) d with
  | Err x => (Err x, d)
  | Ok l =>
      match e_kind e with
      | Dir | SubmoduleWorktree => create_dir (hi_make io (e_path e)) l d
      | File =>
          match c ← ok_or (e_content e) EManifest; get_blob blake3 c s with
          | Err x => (Err x, d)
          | Ok b =>
              match fs_write (hi_make io (e_path e)) l b d with
              | (Err x, d) => (Err x, d)
              | (Ok _, d) => set_mode (hi_mode io (e_path e)) l (e_mode e) d
              end
          end
      | Symlink =>
          match c ← ok_or (e_content e) EManifest; get_blob blake3 c s with
          | Err x => (Err x, d)
          | Ok target => symlink (hi_make io (e_path e)) l target d
          end
      | Unsupported => (Ok tt, d)
      end
  end.
Fixpoint write_entries (io : HostIo) (es : list Entry) (d : Dest) : result SnapshotError unit * Dest :=
  match es with
  | [] => (Ok tt, d)
  | e :: es => match write_entry io e d with (Ok _, d) => write_entries io es d | (Err x, d) => (Err x, d) end
  end.
Fixpoint set_modes (io : HostIo) (es : list Entry) (d : Dest) : result SnapshotError unit * Dest :=
  match es with
  | [] => (Ok tt, d)
  | e :: es =>
      if is_dir_kind (e_kind e) then
        match checked_path (e_path e) d with
        | Err x => (Err x, d)
        | Ok l => match set_mode (hi_mode io (e_path e)) l (e_mode e) d with (Ok _, d) => set_modes io es d | (Err x, d) => (Err x, d) end
        end
      else set_modes io es d
  end.
Definition materialize (io : HostIo) (m : Manifest) (d : Dest) : result SnapshotError unit * Dest :=
  match write_entries io m d with
  | (Err x, d) => (Err x, d)
  | (Ok _, d) => set_modes io (rev m) d
  end.
(** [SnapshotStore::materialize] *)
Definition materialize_snapshot (io : HostIo) (id : Digest) (d : Dest) : result SnapshotError unit * Dest :=
  match get_manifest blake3 id s with Err x => (Err x, d) | Ok m => materialize io m d end.
End materialize.

(** ** Plain paths *)
(** A path as a capture writes it: no empty and no [.] segment. *)
Definition plain (p : list byte) : bool := forallb plain_seg (split_on SLASH p).
Definition loc (e : Entry) : Location := split_on SLASH (e_path e).
Lemma loc_inj e e' : loc e = loc e' → e_path e = e_path e'.
Proof. unfold loc. intros E. by rewrite <- (join_split SLASH (e_path e)), E, join_split. Qed.
Lemma loc_not_nil e : loc e ≠ [].
Proof. unfold loc. by destruct (split_on_cons SLASH (e_path e)) as (w & ws & ->). Qed.
Lemma NoDup_loc m : NoDup (e_path <$> m) → NoDup (loc <$> m).
Proof.
  induction m as [|e m IH]; cbn; [intros _; constructor|]. intros [Hn Hd]%NoDup_cons. constructor; [|auto].
  intros (e' & E%loc_inj & He)%list_elem_of_fmap. apply Hn. rewrite E. apply list_elem_of_fmap. eauto.
Qed.
Lemma NoDup_loc_eq m e e' : NoDup (loc <$> m) → e ∈ m → e' ∈ m → loc e = loc e' → e = e'.
Proof.
  intros Hn [i Hi]%list_elem_of_lookup [j Hj]%list_elem_of_lookup E. assert (i = j) as ->; [|congruence].
  eapply NoDup_lookup; [exact Hn|by rewrite list_lookup_fmap, Hi|]. by rewrite list_lookup_fmap, Hj, E.
Qed.
Lemma names_plain l : forallb plain_seg l = true → names l = l.
Proof. induction l as [|x l IH]; cbn; [done|]. intros [E Hl]%andb_true_iff. rewrite E. f_equal. auto. Qed.
Lemma walk_segs_plain before segs d l :
  forallb plain_seg (before ++ segs) = true → walk_segs before segs d = Ok l → l = before ++ segs.
Proof.
  revert before. induction segs as [|x segs IH]; intros before Hp; cbn.
  - rewrite app_nil_r in *. intros [= <-]. by apply names_plain.
  - destruct segs as [|y segs]; [intros [= <-]; by apply names_plain|]. intros (_ & _ & H)%bind_Ok.
    apply (IH (before ++ [x])) in H; rewrite <- ?app_assoc in *; done.
Qed.
Lemma checked_path_plain e d l : plain (e_path e) = true → checked_path (e_path e) d = Ok l → l = loc e.
Proof. intros Hp (_ & _ & H)%bind_Ok. by apply walk_segs_plain in H. Qed.
Lemma walk_segs_ok before segs d :
  forallb plain_seg (before ++ segs) = true →
  (∀ x pre rest, segs = x :: pre ++ rest → rest ≠ [] → ∃ mode, node_at (before ++ x :: pre) d = Some (NDir mode)) →
  walk_segs before segs d = Ok (before ++ segs).
Proof.
  revert before. induction segs as [|x segs IH]; intros before Hp Hd; cbn.
  - rewrite app_nil_r in *. by rewrite names_plain.
  - destruct segs as [|y segs]; [by rewrite names_plain|]. unfold checked_ancestor. rewrite names_plain.
    + destruct (Hd x [] (y :: segs)) as [mode ->]; [done|done|]. cbv iota. rewrite bind_Ok_l, IH; [by rewrite <- app_assoc|by rewrite <- app_assoc|].
      intros z pre rest E Hr. rewrite <- app_assoc. apply (Hd x (z :: pre) rest); [|done]. by rewrite E.
    + change (x :: y :: segs) with ([x] ++ y :: segs) in Hp. rewrite app_assoc, forallb_app in Hp. by apply andb_true_iff in Hp as [? _].
Qed.

(** ** What an entry becomes *)
Section restored.
Context (blake3 : list byte → Digest) (s : Store).
Definition blob_of (e : Entry) : option (list byte) :=
  c ← e_content e; match get_blob blake3 c s with Ok b => Some b | Err _ => None end.
(** Before and after the directories have their modes. *)
Definition made (e : Entry) : option Node :=
  match e_kind e with
  | Dir | SubmoduleWorktree => Some (NDir None)
  | File => b ← blob_of e; Some (NFile b (Some (e_mode e)))
  | Symlink => b ← blob_of e; Some (NLink b)
  | Unsupported => None
  end.
Definition final (e : Entry) : option Node := if is_dir_kind (e_kind e) then Some (NDir (Some (e_mode e))) else made e.
Definition holds (done : list Entry) (d : Dest) : Prop :=
  mz_followed d = [] ∧ (∀ e, e ∈ done → mz_tree d !! loc e = made e) ∧ (∀ l, l ∉ loc <$> done → mz_tree d !! l = None).
Lemma node_at_loc e d : node_at (loc e) d = mz_tree d !! loc e.
Proof. unfold node_at. case_bool_decide as E; [by apply loc_not_nil in E|done]. Qed.
Lemma holds_insert done e d d' n : holds done d → loc e ∉ loc <$> done → mz_followed d' = [] → made e = n →
  (∀ l, mz_tree d' !! l = if bool_decide (l = loc e) then n else mz_tree d !! l) → holds (done ++ [e]) d'.
Proof.
  intros (_ & H1 & H2) Hn Hf He Ht. split; [done|]. split.
  - intros x [Hx| ->%list_elem_of_singleton]%elem_of_app; rewrite Ht.
    + rewrite bool_decide_false; [by apply H1|]. intros E. apply Hn. apply list_elem_of_fmap. eauto.
    + by rewrite bool_decide_true.
  - intros l. rewrite fmap_app, not_elem_of_app. change (loc <$> [e]) with [loc e]. rewrite list_elem_of_singleton. intros [Hl E]. rewrite Ht, bool_decide_false by done. auto.
Qed.
Lemma lookup_insert_if (t : gmap Location Node) k n l : <[k := n]> t !! l = if bool_decide (l = k) then Some n else t !! l.
Proof. case_bool_decide; subst; by rewrite ?lookup_insert_eq, ?lookup_insert_ne by done. Qed.
(** One entry, however the host answers. *)
Lemma write_entry_plain io e done d : holds done d → loc e ∉ loc <$> done → plain (e_path e) = true →
  let '(r, d') := write_entry blake3 s io e d in mz_followed d' = [] ∧ (r = Ok tt → holds (done ++ [e]) d').
Proof.
  intros Hh Hn Hp. pose proof Hh as (Hf & H1 & H2). unfold write_entry. destruct (checked_path _ d) as [l|x] eqn:E; [|done].
  apply checked_path_plain in E as ->; [|done]. pose proof (H2 _ Hn) as Hnone.
  assert (e_kind e = Dir ∨ e_kind e = SubmoduleWorktree → let '(r, d') := create_dir (hi_make io (e_path e)) (loc e) d in
    mz_followed d' = [] ∧ (r = Ok tt → holds (done ++ [e]) d')) as Hdir.
  { intros Hk. unfold create_dir. rewrite node_at_loc, Hnone. destruct (hi_make _ _); [|done..]. split; [done|]. intros _.
    eapply (holds_insert _ _ _ _ (Some (NDir None))); [done..| |intros; apply lookup_insert_if]. unfold made. by destruct Hk as [-> | ->]. }
  destruct (e_kind e) eqn:Ek; [|by apply Hdir; auto| |by apply Hdir; auto|]; clear Hdir.
  - destruct (ok_or _ _ ≫= _) as [b|x] eqn:Eb; [|done]. unfold fs_write. rewrite node_at_loc, Hnone. destruct (hi_make _ _); [|done|done].
    unfold set_mode. rewrite node_at_loc. cbn [with_tree mz_tree file_mode]. rewrite lookup_insert_eq. destruct (hi_mode _ _); [|done..]. split; [done|]. intros _.
    eapply (holds_insert _ _ _ _ (Some (NFile b (Some (e_mode e))))); [done..| |].
    + apply bind_Ok in Eb as (c & Ec & Eb). unfold made, blob_of. rewrite Ek. destruct (e_content e); [|done]. injection Ec as ->. cbn. by rewrite Eb.
    + intros l. cbn. rewrite insert_insert_eq. apply lookup_insert_if.
  - destruct (ok_or _ _ ≫= _) as [b|x] eqn:Eb; [|done]. unfold symlink. rewrite node_at_loc, Hnone. destruct (hi_make _ _); [|done..]. split; [done|]. intros _.
    eapply (holds_insert _ _ _ _ (Some (NLink b))); [done..| |intros; apply lookup_insert_if].
    apply bind_Ok in Eb as (c & Ec & Eb). unfold made, blob_of. rewrite Ek. destruct (e_content e); [|done]. injection Ec as ->. cbn. by rewrite Eb.
  - split; [done|]. intros _. eapply (holds_insert _ _ _ _ None); [done..| |].
    + unfold made. by rewrite Ek.
    + intros l. case_bool_decide; [by subst|done].
Qed.
Lemma write_entries_plain io es done d : holds done d → NoDup (loc <$> done ++ es) → Forall (λ e, plain (e_path e) = true) es →
  let '(r, d') := write_entries blake3 s io es d in mz_followed d' = [] ∧ (r = Ok tt → holds (done ++ es) d').
Proof.
  revert done d. induction es as [|e es IH]; intros done d Hh Hn Hp; cbn [write_entries]; [rewrite app_nil_r; by destruct Hh|].
  apply Forall_cons in Hp as [Hp Hps]. pose proof (write_entry_plain io e done d Hh) as He.
  rewrite fmap_app in Hn. pose proof Hn as (_ & Hd & _)%NoDup_app.
  assert (loc e ∉ loc <$> done) as Hne by (intros ?; eapply (Hd (loc e)); [done|left]). specialize (He Hne Hp).
  destruct (write_entry _ _ _ _ _) as [[[]|x] d1]; [|by destruct He]. destruct He as [_ He].
  specialize (IH (done ++ [e]) d1 (He eq_refl)). rewrite <- app_assoc in IH. cbn [app] in IH. rewrite fmap_app in IH. by apply IH.
Qed.
(** [holds] with the modes of [fixed] set. *)
Definition dressed (m fixed : list Entry) (d : Dest) : Prop :=
  mz_followed d = [] ∧ (∀ e, e ∈ m → mz_tree d !! loc e = if bool_decide (e ∈ fixed) then final e else made e) ∧ (∀ l, l ∉ loc <$> m → mz_tree d !! l = None).
Lemma dressed_dir m fixed d e : dressed m fixed d → e ∈ m → is_dir_kind (e_kind e) = true → ∃ mode, node_at (loc e) d = Some (NDir mode).
Proof.
  intros (_ & H1 & _) He Hk. rewrite node_at_loc, (H1 e He). unfold final. rewrite Hk. case_bool_decide; [eauto|]. unfold made. destruct (e_kind e); eauto; done.
Qed.
Lemma dressed_add m fixed d d' e : NoDup (loc <$> m) → dressed m fixed d → e ∈ m → mz_followed d' = [] →
  (∀ l, mz_tree d' !! l = if bool_decide (l = loc e) then final e else mz_tree d !! l) → dressed m (e :: fixed) d'.
Proof.
  intros Hn (_ & H1 & H2) He Hf Ht. split; [done|]. split.
  - intros x Hx. rewrite Ht. destruct (decide (x = e)) as [->|Hne]; [by rewrite !bool_decide_true by (done || left)|].
    rewrite bool_decide_false; [|intros E; apply Hne; by apply (NoDup_loc_eq m)]. rewrite (H1 x Hx).
    rewrite (bool_decide_ext (x ∈ e :: fixed) (x ∈ fixed)); [done|]. rewrite elem_of_cons. tauto.
  - intros l Hl. rewrite Ht, bool_decide_false; [auto|]. intros ->. apply Hl. apply list_elem_of_fmap. eauto.
Qed.
Lemma set_modes_plain io m es fixed d : NoDup (loc <$> m) → Forall (λ e, plain (e_path e) = true) m → (∀ e, e ∈ es → e ∈ m) → dressed m fixed d →
  let '(r, d') := set_modes io es d in mz_followed d' = [] ∧ (r = Ok tt → dressed m (rev es ++ fixed) d').
Proof.
  intros Hn Hp. revert fixed d. induction es as [|e es IH]; intros fixed d Hin Hd; cbn [set_modes]; [by split; [apply Hd|]|].
  assert (e ∈ m) as He by (apply Hin; left). assert (∀ x, x ∈ es → x ∈ m) as Hin' by (intros; apply Hin; by right).
  cbn [rev]. rewrite <- app_assoc. cbn [app]. destruct (is_dir_kind (e_kind e)) eqn:Ek.
  - destruct (checked_path _ d) as [l|x] eqn:E; [|by split; [apply Hd|]]. rewrite Forall_forall in Hp. apply checked_path_plain in E as ->; [|by apply Hp].
    destruct (dressed_dir _ _ _ _ Hd He Ek) as [mode Hm]. unfold set_mode. rewrite Hm. destruct (hi_mode _ _); [|by split; [apply Hd|]..].
    rewrite bool_decide_false by apply loc_not_nil. apply IH; [done|]. eapply dressed_add; [done|exact Hd|done|apply Hd|].
    intros l. unfold final. rewrite Ek. apply lookup_insert_if.
  - apply IH; [done|]. eapply dressed_add; [done|exact Hd|done|apply Hd|]. intros l. case_bool_decide; [|done]. subst. destruct Hd as (_ & H1 & _).
    rewrite (H1 e He). unfold final. rewrite Ek. by case_bool_decide.
Qed.
Lemma holds_dressed m d : holds m d → dressed m [] d.
Proof. intros (H1 & H2 & H3). split; [done|]. split; [|done]. intros e He. rewrite bool_decide_false; [auto|apply not_elem_of_nil]. Qed.
(** However the host answers, and wherever it stops. *)
Lemma materialize_plain io es m : from_entries es = Ok m → Forall (λ e, plain (e_path e) = true) m →
  let '(r, d) := materialize blake3 s io m Dest_new in mz_followed d = [] ∧
  (r = Ok tt → (∀ e, e ∈ m → mz_tree d !! loc e = final e) ∧ (∀ l, l ∉ loc <$> m → mz_tree d !! l = None)).
Proof.
  intros [_ (_ & _ & Hn)]%from_entries_Ok Hp. apply NoDup_loc in Hn. unfold materialize.
  pose proof (write_entries_plain io m [] Dest_new) as Hw. cbn [app] in Hw.
  assert (holds [] Dest_new) as Hh by (split; [done|]; split; [intros e He; by apply elem_of_nil in He|done]). specialize (Hw Hh Hn Hp).
  destruct (write_entries _ _ _ _ _) as [[[]|x] d]; [|by destruct Hw]. destruct Hw as [_ Hw].
  pose proof (set_modes_plain io m (rev m) [] d Hn Hp) as Hs. specialize (Hs ltac:(intros e; by rewrite !list_elem_of_In, <- in_rev) (holds_dressed _ _ (Hw eq_refl))).
  destruct (set_modes _ _ _) as [r d']. destruct Hs as [Hf Hs]. split; [done|]. intros Hr. destruct (Hs Hr) as (_ & H1 & H2). split; [|done].
  intros e He. rewrite (H1 e He), bool_decide_true; [done|]. by rewrite rev_involutive, app_nil_r.
Qed.
End restored.

(** ** Success *)
Definition hosted : HostIo := MkHostIo (λ _, Works) (λ _, Works).
(** The directories on the way to an entry are entries. *)
Definition closed (m : Manifest) : Prop := ∀ e pre rest, e ∈ m → loc e = pre ++ rest → pre ≠ [] → rest ≠ [] →
  ∃ e', e' ∈ m ∧ loc e' = pre ∧ is_dir_kind (e_kind e') = true.
Lemma path_cmp_prefix a b : b ≠ [] → path_cmp a (a ++ b) = Lt.
Proof. intros Hb. induction a as [|x a IH]; cbn; [by destruct b|]. by rewrite Z.compare_refl. Qed.
Lemma join_with_app c a b : a ≠ [] → b ≠ [] → join_with c (a ++ b) = join_with c a ++ c :: join_with c b.
Proof.
  intros Ha Hb. induction a as [|x a IH]; [done|]. destruct a as [|y a].
  - destruct b; [done|]. by cbn.
  - change (x ++ c :: join_with c ((y :: a) ++ b) = (x ++ c :: join_with c (y :: a)) ++ c :: join_with c b). rewrite IH by done. by rewrite <- app_assoc.
Qed.
(** A directory sorts before what it contains. *)
Lemma ancestor_first e e' pre rest : loc e = pre ++ rest → loc e' = pre → pre ≠ [] → rest ≠ [] → path_cmp (e_path e') (e_path e) = Lt.
Proof.
  unfold loc. intros E E' Hp Hr. rewrite <- (join_split SLASH (e_path e)), <- (join_split SLASH (e_path e')), E, E', join_with_app by done.
  by apply path_cmp_prefix.
Qed.
Lemma ascending_app_before a e b x : ascending (a ++ e :: b) → x ∈ a ++ e :: b → path_cmp (e_path x) (e_path e) = Lt → x ∈ a.
Proof.
  induction a as [|y a IH]; cbn; intros Ha Hx Hlt.
  - exfalso. inversion Ha as [|? ? Hb _]; subst. apply elem_of_cons in Hx as [->|Hx]; [by rewrite path_cmp_refl in Hlt|].
    unfold below in Hb. rewrite Forall_forall in Hb. specialize (Hb x Hx). rewrite path_cmp_opp, Hb in Hlt. done.
  - inversion Ha; subst. apply elem_of_cons in Hx as [->|Hx]; [left|right]. by apply IH.
Qed.
Section success.
Context (blake3 : list byte → Digest) (s : Store).
Lemma checked_path_ok e d : check_entry e = Ok tt → plain (e_path e) = true →
  (∀ pre rest, loc e = pre ++ rest → pre ≠ [] → rest ≠ [] → ∃ mode, node_at pre d = Some (NDir mode)) → checked_path (e_path e) d = Ok (loc e).
Proof.
  intros Hc Hp Hd. unfold checked_path. apply bind_Ok in Hc as ([] & -> & _). rewrite bind_Ok_l. apply (walk_segs_ok []); [done|].
  intros x pre rest E Hr. by apply (Hd (x :: pre) rest).
Qed.
Lemma write_entry_ok e d : checked_path (e_path e) d = Ok (loc e) → node_at (loc e) d = None → (e_kind e = File ∨ e_kind e = Symlink → is_Some (blob_of blake3 s e)) →
  ∃ d', write_entry blake3 s hosted e d = (Ok tt, d').
Proof.
  intros Hc Hn Hb. unfold write_entry. rewrite Hc.
  assert (e_kind e = File ∨ e_kind e = Symlink → ∃ b, (c ← ok_or (e_content e) EManifest; get_blob blake3 c s) = Ok b) as Hb'.
  { intros H. destruct (Hb H) as [b Eb]. exists b. unfold blob_of in Eb. destruct (e_content e) as [c|]; [|done]. cbn in *. by destruct (get_blob _ _ _); simplify_eq. }
  destruct (e_kind e) eqn:Ek.
  - destruct Hb' as [b ->]; [auto|]. unfold fs_write. rewrite Hn. cbn [hosted hi_make]. unfold set_mode. rewrite node_at_loc. cbn [with_tree mz_tree]. rewrite lookup_insert_eq. eauto.
  - unfold create_dir. cbn. eauto.
  - destruct Hb' as [b ->]; [auto|]. unfold symlink. rewrite Hn. cbn. eauto.
  - unfold create_dir. cbn. eauto.
  - eauto.
Qed.
Context (m : Manifest) (Hcan : canonical m) (Hplain : Forall (λ e, plain (e_path e) = true) m) (Hclosed : closed m)
  (Hblobs : ∀ e, e ∈ m → e_kind e = File ∨ e_kind e = Symlink → is_Some (blob_of blake3 s e)).
Lemma write_entries_ok es done d : m = done ++ es → holds blake3 s done d → ∃ d', write_entries blake3 s hosted es d = (Ok tt, d').
Proof using Hcan Hplain Hclosed Hblobs.
  revert done d. induction es as [|e es IH]; intros done d Em Hh; cbn [write_entries]; [eauto|].
  pose proof (canonical_ascending _ Hcan) as Ha. destruct Hcan as (Hchk & _ & Hnd). apply NoDup_loc in Hnd. rewrite Forall_forall in Hchk, Hplain.
  assert (e ∈ m) as He by (rewrite Em, elem_of_app; right; left).
  assert (loc e ∉ loc <$> done) as Hn. { rewrite Em, fmap_app in Hnd. apply NoDup_app in Hnd as (_ & Hd & _). intros ?. eapply (Hd (loc e)); [done|left]. }
  destruct (write_entry_ok e d) as [d1 E1].
  - apply checked_path_ok; [by apply Hchk|by apply Hplain|]. intros pre rest El Hp Hr. destruct (Hclosed e pre rest He El Hp Hr) as (e' & He' & <- & Hk).
    assert (e' ∈ done) as Hdone by (rewrite Em in Ha, He'; eapply ascending_app_before; [exact Ha|done|by eapply ancestor_first]).
    destruct Hh as (_ & H1 & _). rewrite node_at_loc, (H1 e' Hdone). unfold made. destruct (e_kind e'); eauto; done.
  - rewrite node_at_loc. by apply Hh.
  - by apply Hblobs.
  - rewrite E1. apply (IH (done ++ [e])); [by rewrite <- app_assoc|]. pose proof (write_entry_plain blake3 s hosted e done d Hh Hn (Hplain e He)) as Hw.
    rewrite E1 in Hw. by apply Hw.
Qed.
Lemma set_modes_ok es fixed d : (∀ e, e ∈ es → e ∈ m) → dressed blake3 s m fixed d → ∃ d', set_modes hosted es d = (Ok tt, d').
Proof using Hcan Hplain Hclosed.
  revert fixed d. induction es as [|e es IH]; intros fixed d Hin Hd; [by eexists|].
  assert (e ∈ m) as He by (apply Hin; left). destruct Hcan as (Hchk & _ & Hnd). apply NoDup_loc in Hnd.
  pose proof (set_modes_plain blake3 s hosted m [e] fixed d Hnd Hplain) as Hone. cbn [set_modes] in *.
  specialize (Hone ltac:(by intros x ->%list_elem_of_singleton) Hd). cbn [rev app] in Hone. rewrite Forall_forall in Hchk, Hplain.
  destruct (is_dir_kind (e_kind e)) eqn:Ek; [|eapply IH; [intros; apply Hin; by right|by apply Hone]].
  assert (checked_path (e_path e) d = Ok (loc e)) as Hc.
  { apply checked_path_ok; [by apply Hchk|by apply Hplain|]. intros pre rest El Hp Hr.
    destruct (Hclosed e pre rest He El Hp Hr) as (e' & He' & <- & Hk). by eapply dressed_dir. }
  rewrite Hc in *.
  destruct (dressed_dir _ _ _ _ _ _ Hd He Ek) as [mode Hm]. unfold set_mode in *. rewrite Hm in *. cbn [hosted hi_mode] in *.
  eapply IH; [intros; apply Hin; by right|]. by apply Hone.
Qed.
Lemma materialize_ok : ∃ d, materialize blake3 s hosted m Dest_new = (Ok tt, d).
Proof using Hcan Hplain Hclosed Hblobs.
  assert (holds blake3 s [] Dest_new) as Hh by (split; [done|]; split; [intros e He; by apply elem_of_nil in He|done]).
  destruct (write_entries_ok m [] Dest_new eq_refl Hh) as [d E]. unfold materialize. rewrite E.
  assert (NoDup (loc <$> m)) as Hnd by (apply NoDup_loc, Hcan). pose proof (write_entries_plain blake3 s hosted m [] Dest_new Hh Hnd Hplain) as Hw. rewrite E in Hw.
  eapply set_modes_ok; [intros e; by rewrite !list_elem_of_In, <- in_rev|]. apply holds_dressed, Hw. done.
Qed.
End success.

(** ** The places of a captured tree *)
Definition name_ok (n : list byte) : Prop := plain_seg n = true ∧ SLASH ∉ n.
(** A tree as a file system has it: proper names, and lengths that fit. *)
Fixpoint named (t : Tree) : Prop :=
  match t with
  | TFile _ _ _ b | TLink _ b => in_u64 (Z.of_nat (length b))
  | TDir _ ch => foldr (λ c P, (name_ok c.1 ∧ named c.2) ∧ P) True ch
  | _ => True
  end.
Definition segs (d : list byte) : Location := if bool_decide (d = []) then [] else split_on SLASH d.
Lemma split_on_none c l : c ∉ l → split_on c l = [l].
Proof.
  induction l as [|x l IH]; [done|]. intros [Hx Hl]%not_elem_of_cons. cbn. rewrite (IH Hl), bool_decide_false by congruence. done.
Qed.
Lemma split_on_last c d n : c ∉ n → split_on c (d ++ c :: n) = split_on c d ++ [n].
Proof.
  intros Hn. induction d as [|x d IH]; cbn.
  - rewrite split_on_none by done. by rewrite bool_decide_true.
  - rewrite IH. destruct (split_on_cons c d) as (w & ws & ->). cbn. by case_bool_decide.
Qed.
Lemma split_join_rel d n : name_ok n → split_on SLASH (join_rel d n) = segs d ++ [n].
Proof. intros [_ Hn]. unfold join_rel, segs. case_bool_decide; [by rewrite split_on_none|by rewrite split_on_last]. Qed.
Lemma segs_join_rel d n : name_ok n → segs (join_rel d n) = segs d ++ [n].
Proof.
  intros Hn. rewrite <- split_join_rel by done. unfold segs at 1. rewrite bool_decide_false; [done|]. destruct Hn as [Hp _]. unfold join_rel. case_bool_decide; [|by destruct d].
  by intros ->.
Qed.
Lemma named_children mode ch : named (TDir mode ch) → Forall (λ c, name_ok c.1 ∧ named c.2) ch.
Proof. cbn. induction ch as [|c ch IH]; cbn; [constructor|]. intros [? ?]. constructor; auto. Qed.
Section places.
Context (blake3 : list byte → Digest) (io : WalkIo) (opts : CaptureOptions).
(** A leaf below [d/n], with the directories on its way. *)
Definition placed (d n : list byte) (ls : list Leaf) (l : Leaf) : Prop :=
  sized (entry_of blake3 l) ∧ ∃ rest, forallb plain_seg rest = true ∧ split_on SLASH (lf_path l) = segs d ++ n :: rest ∧
    ∀ pre post, rest = pre ++ post → post ≠ [] → ∃ l', l' ∈ ls ∧ split_on SLASH (lf_path l') = segs d ++ n :: pre ∧ is_dir_kind (lf_kind l') = true.
Lemma mode_sized t : 0 ≤ Z.land (raw_mode t) 4095 ≤ u32_max.
Proof. change 4095 with (Z.ones 12). rewrite Z.land_ones by lia. pose proof (Z.mod_pos_bound (raw_mode t) (2 ^ 12) ltac:(lia)). unfold u32_max. lia. Qed.
Lemma placed_here d n ls l : name_ok n → lf_path l = join_rel d n → sized (entry_of blake3 l) → placed d n ls l.
Proof.
  intros Hn Hp Hs. split; [done|]. exists []. rewrite Hp, split_join_rel by done. split_and!; [done|done|]. intros pre post E Hne. symmetry in E. by apply app_eq_nil in E as [_ ->].
Qed.
Lemma found_placed d n rs t : name_ok n → named t → Forall (placed d n (found io opts d n rs t)) (found io opts d n rs t).
Proof.
  revert d n rs. induction t as [m mt ml c|m tg|m ch IH|m|m] using tree_induction; intros d n rs Hn Ht; cbn [found]; (case_match; [constructor|]); (case_match; [constructor|]).
  - apply Forall_singleton. apply placed_here; [done..|]. split; [apply (mode_sized (TFile m mt ml c))|exact Ht].
  - apply Forall_singleton. apply placed_here; [done..|]. split; [apply (mode_sized (TLink m tg))|exact Ht].
  - cbn [raw_mode]. set (here := MkLeaf (join_rel d n) _ _ None). constructor.
    { apply placed_here; [done..|]. split; [apply (mode_sized (TDir m ch))|done]. }
    apply Forall_forall. intros l Hl. apply list_elem_of_In, in_concat in Hl as (ls & (c & <- & Hc)%in_map_iff & Hl).
    apply named_children in Ht. rewrite Forall_forall in IH, Ht. apply list_elem_of_In in Hc, Hl. destruct (Ht c Hc) as [Hcn Hct].
    specialize (IH c Hc (join_rel d n) c.1 (rules_in io opts (join_rel d n) ch rs) Hcn Hct). rewrite Forall_forall in IH. destruct (IH l Hl) as (Hs & rest & Hr & Hp & Hdirs).
    split; [done|]. exists (c.1 :: rest). rewrite segs_join_rel in Hp, Hdirs by done. rewrite <- app_assoc in Hp. split_and!; [cbn; by rewrite (proj1 Hcn)|done|].
    intros [|x pre] post E Hne.
    + exists here. split; [left|]. split; [by apply split_join_rel|]. unfold here, dir_kind. cbn. by case_match.
    + injection E as <- E. destruct (Hdirs pre post E Hne) as (l' & Hl' & Hp' & Hk). exists l'. split_and!; [|by rewrite Hp', <- app_assoc|done].
      right. apply list_elem_of_In, in_concat. exists (found io opts (join_rel d n) c.1 (rules_in io opts (join_rel d n) ch rs) c.2). split; [|by apply list_elem_of_In].
      apply in_map_iff. exists c. split; [done|]. by apply list_elem_of_In.
  - apply Forall_singleton. apply placed_here; [done..|]. split; [apply (mode_sized (TSpecial m))|done].
  - constructor.
Qed.
Lemma found_root_placed ch l : Forall (λ c, name_ok c.1 ∧ named c.2) ch → l ∈ found_root io opts ch →
  ∃ c, c ∈ ch ∧ name_ok c.1 ∧ placed [] c.1 (found_root io opts ch) l.
Proof.
  intros Hch Hl. unfold found_root in *. apply list_elem_of_In, in_concat in Hl as (ls & (c & <- & Hc)%in_map_iff & Hl). apply list_elem_of_In in Hc, Hl.
  rewrite Forall_forall in Hch. destruct (Hch c Hc) as [Hn Ht]. exists c. split_and!; [done|done|].
  pose proof (found_placed [] c.1 (rules_in io opts [] ch []) c.2 Hn Ht) as Hp. rewrite Forall_forall in Hp. destruct (Hp l Hl) as (Hs & rest & Hr & Hsp & Hd).
  split; [done|]. exists rest. split_and!; [done|done|]. intros pre post E Hne. destruct (Hd pre post E Hne) as (l' & Hl' & ?). exists l'. split; [|done].
  apply list_elem_of_In, in_concat. eexists. split; [apply in_map_iff; exists c; split; [done|by apply list_elem_of_In]|by apply list_elem_of_In].
Qed.
End places.

(** ** What is captured comes back *)
Section restores.
Context (blake3 : list byte → Digest).
(** The values that were hashed: the contents and the manifests of a store, the contents of the
    leaves that were found, and their manifest.  No two of them collide. *)
Definition hashed (s : Store) (ls : list Leaf) (x : list byte) : Prop :=
  (∃ d t, st_blobs s !! d = Some (x, t)) ∨ (∃ d t, st_manifests s !! d = Some (x, t)) ∨
  (∃ l, l ∈ ls ∧ lf_bytes l = Some x) ∨ (∃ m, from_entries (entry_of blake3 <$> ls) = Ok m ∧ x = serialize m).
Definition collision_free (s : Store) (ls : list Leaf) : Prop :=
  ∀ x y, hashed s ls x → hashed s ls y → blake3 x = blake3 y → x = y.
Definition leaf_node (l : Leaf) : option Node :=
  match lf_kind l with
  | Dir | SubmoduleWorktree => Some (NDir (Some (lf_mode l)))
  | File => b ← lf_bytes l; Some (NFile b (Some (lf_mode l)))
  | Symlink => b ← lf_bytes l; Some (NLink b)
  | Unsupported => None
  end.
Definition stored (s : Store) (l : Leaf) : Prop := ∀ b, lf_bytes l = Some b → is_Some (st_blobs s !! blake3 b).
(** A manifest that was put reads back, and the store is as sound as before. *)
Lemma put_manifest_sound ok now m s id s' : put_manifest blake3 ok now m s = (Ok id, s') → sound blake3 s → canonical m → Forall sized m →
  id = manifest_id blake3 m ∧ st_blobs s' = st_blobs s ∧ sound blake3 s' ∧ is_Some (st_manifests s' !! id).
Proof.
  intros Hp [H1 H2] Hc Hsz. unfold put_manifest in Hp. cbv zeta in Hp.
  assert (∃ b, (id, s') = (manifest_id blake3 m, set_manifests (<[manifest_id blake3 m := (b, now)]> (st_manifests s)) s) ∧
    ∃ m', b = serialize m' ∧ canonical m' ∧ Forall sized m' ∧ manifest_id blake3 m' = manifest_id blake3 m) as (b & [= -> ->] & Hb).
  { destruct (st_manifests s !! manifest_id blake3 m) as [[b t]|] eqn:E; (destruct ok; [|done]); injection Hp as <- <-; eauto 10. }
  cbn. split_and!; [done|done| |rewrite lookup_insert_eq; eauto]. split; [done|]. cbn. intros x b' t.
  destruct (decide (manifest_id blake3 m = x)) as [<-|]; [|rewrite lookup_insert_ne by done; apply H2]. rewrite lookup_insert_eq. by intros [= <- <-].
Qed.
Lemma get_manifest_sound s ls m : sound blake3 s → collision_free s ls → from_entries (entry_of blake3 <$> ls) = Ok m →
  canonical m → Forall sized m → is_Some (st_manifests s !! manifest_id blake3 m) →
  get_manifest blake3 (manifest_id blake3 m) s = Ok m.
Proof.
  intros [_ Hs] Hcf Ef Hc Hsz [[b t] E]. destruct (Hs _ _ _ E) as (m' & -> & Hc' & Hsz' & Hid). unfold get_manifest, checked_manifest. rewrite E.
  assert (serialize m' = serialize m) as Eq by (apply Hcf; [unfold hashed; eauto 6..|exact Hid]).
  rewrite Eq, canonical_roundtrip by done. rewrite bind_Ok_l. by rewrite bool_decide_true.
Qed.
Lemma capture_stored io key now opts file_at cache role ch s meta s' :
  (op_incremental opts = true → honest blake3 file_at cache ∧ Forall (λ c, agrees file_at [] c.1 c.2) ch) →
  Forall sized (entry_of blake3 <$> found_root (ci_walk io) opts ch) → sound blake3 s → capture_with blake3 io key now opts cache role ch s = (Ok meta, s') →
  ∃ m, from_entries (entry_of blake3 <$> found_root (ci_walk io) opts ch) = Ok m ∧ mt_id meta = manifest_id blake3 m ∧ sound blake3 s' ∧
    is_Some (st_manifests s' !! mt_id meta) ∧ Forall (stored s') (found_root (ci_walk io) opts ch).
Proof.
  intros Hc Hsz Hs. unfold capture_with, acquire_capture_at. destruct (ci_lease io); [|done]. destruct (walk _ _ _ _ _ _ _) as [[m|x] w] eqn:Ew; [|done].
  apply (walk_finds _ _ _ _ file_at) in Ew as (Ef & Hin & Ho); [|done]. unfold only_blobs in Ho. cbn in Ho. unfold in_store in Hin.
  destruct (wk_store w) as [s1|]; [|done]. cbn [default]. apply blob_steps_spec in Ho as (Hs1 & _ & _). specialize (Hs1 Hs).
  assert (Forall sized m ∧ canonical m) as [Hszm Hcan] by (apply from_entries_Ok in Ef as [Hp ?]; split; [by rewrite Hp|done]).
  destruct (put_manifest _ _ _ _ _) as [[id|x] s2] eqn:Ep; [|done]. apply put_manifest_sound in Ep as (-> & Eb & Hs2 & Hm); [|done..].
  unfold put_meta. destruct (ci_meta io); [|done]. intros [= <- <-]. cbn [mt_id]. exists m.
  assert (∀ ok k x, st_blobs (release ok k x) = st_blobs x ∧ st_manifests (release ok k x) = st_manifests x) as Hr by (by intros []).
  match goal with |- context [release ?a ?b ?c] => destruct (Hr a b c) as [Rb Rm] end. unfold sound, stored. rewrite Rb, Rm. cbn [set_meta st_blobs st_manifests].
  split_and!; [done|done|exact (proj1 Hs2)|exact (proj2 Hs2)|done|]. rewrite Eb. exact Hin.
Qed.
Lemma blobs_of_stored s ls : sound blake3 s → collision_free s ls → Forall (stored s) ls →
  Forall (λ l, blob_of blake3 s (entry_of blake3 l) = lf_bytes l) ls.
Proof.
  intros [H1 _] Hcf Hst. rewrite Forall_forall in Hst |- *. intros l Hl.
  unfold blob_of, entry_of. cbn [e_content]. destruct (lf_bytes l) as [b|] eqn:El; [|done]. cbn.
  destruct (Hst l Hl b El) as [[b' t] E]. unfold get_blob. rewrite E. pose proof (H1 _ _ _ E) as Hb. rewrite bool_decide_true by done.
  cbn. f_equal. apply Hcf; [unfold hashed; eauto 7..|exact Hb].
Qed.
Lemma final_entry_of s l : blob_of blake3 s (entry_of blake3 l) = lf_bytes l → final blake3 s (entry_of blake3 l) = leaf_node l.
Proof. intros E. unfold final, made, leaf_node. rewrite E. by destruct l as [? [] ? ?]. Qed.
(** Materialising leaves that were stored. *)
Lemma materialize_leaves s ls m : from_entries (entry_of blake3 <$> ls) = Ok m → Forall (λ l, blob_of blake3 s (entry_of blake3 l) = lf_bytes l) ls →
  Forall (λ l, plain (lf_path l) = true) ls → closed (entry_of blake3 <$> ls) →
  ∃ d, materialize blake3 s hosted m Dest_new = (Ok tt, d) ∧ mz_followed d = [] ∧
    (∀ l, l ∈ ls → mz_tree d !! split_on SLASH (lf_path l) = leaf_node l) ∧ (∀ p, (∀ l, l ∈ ls → split_on SLASH (lf_path l) ≠ p) → mz_tree d !! p = None).
Proof.
  intros Ef Hb Hpl Hcl. pose proof Ef as [Hp Hcan]%from_entries_Ok. assert (Forall (λ e, plain (e_path e) = true) m) as Hplain by (rewrite Hp; by apply Forall_fmap).
  rewrite Forall_forall in Hb. assert (∀ e, e ∈ m ↔ ∃ l, e = entry_of blake3 l ∧ l ∈ ls) as Hm by (intros e; by rewrite Hp, list_elem_of_fmap).
  pose proof (materialize_plain blake3 s hosted _ m Ef Hplain) as Hmat. destruct (materialize_ok blake3 s m Hcan Hplain) as [d E].
  - intros e pre rest He El H1 H2. rewrite Hp in He. destruct (Hcl e pre rest He El H1 H2) as (e' & He' & ?). exists e'. by rewrite Hp.
  - intros e (l & -> & Hl)%Hm Hk. rewrite (Hb l Hl). destruct Hcan as [Hchk _]. rewrite Forall_forall in Hchk.
    destruct (proj1 (bind_Ok _ _ _) (Hchk (entry_of blake3 l) (proj2 (Hm _) (ex_intro _ l (conj eq_refl Hl))))) as (_ & _ & H%fail_if_Ok).
    unfold entry_of in H, Hk. cbn in H, Hk. destruct (lf_bytes l); [eauto|]. destruct Hk as [Hk|Hk]; by rewrite Hk in H.
  - rewrite E in Hmat. destruct Hmat as [Hf [H1 H2]%(λ H, H eq_refl)]. exists d. split_and!; [done|done| |].
    + intros l Hl. rewrite <- (final_entry_of s) by auto. apply (H1 (entry_of blake3 l)). apply Hm. eauto.
    + intros p Hnp. apply H2. intros (e & -> & (l & -> & Hl)%Hm)%list_elem_of_fmap. by apply (Hnp l).
Qed.
Lemma found_root_closed io opts ch : Forall (λ c, name_ok c.1 ∧ named c.2) ch → closed (entry_of blake3 <$> found_root io opts ch).
Proof.
  intros Hch e pre rest (l & -> & Hl)%list_elem_of_fmap El Hp Hr. destruct (found_root_placed blake3 io opts ch l Hch Hl) as (c & Hc & Hn & _ & rs & _ & Hs & Hd).
  unfold loc in El. cbn in El. rewrite Hs in El. cbn in El. destruct pre as [|x pre]; [done|]. injection El as <- El.
  destruct (Hd pre rest El Hr) as (l' & Hl' & Hs' & Hk). exists (entry_of blake3 l'). split_and!; [apply list_elem_of_fmap; eauto|done|done].
Qed.
Lemma found_root_plain io opts ch : Forall (λ c, name_ok c.1 ∧ named c.2) ch →
  Forall (λ l, plain (lf_path l) = true ∧ sized (entry_of blake3 l)) (found_root io opts ch).
Proof.
  intros Hch. apply Forall_forall. intros l Hl. destruct (found_root_placed blake3 io opts ch l Hch Hl) as (c & Hc & [Hn _] & Hsz & rs & Hpl & Hs & _).
  split; [|done]. unfold plain. rewrite Hs. cbn. by rewrite Hn.
Qed.
(** C16. What is captured comes back: a capture that answered can be materialised, and the new tree is
    what the walk found in the old one, every file, link and directory at its place with its
    content and mode, and nothing else.  The store's files are named by their hashes, the names
    found are plain, the cache of an incremental capture is right about the files, and no two
    of the values hashed (the store's contents and manifests, what was found and its
    manifest) collide. *)
Theorem capture_restores io key now opts file_at cache role ch s meta s' :
  sound blake3 s → Forall (λ c, name_ok c.1 ∧ named c.2) ch →
  (op_incremental opts = true → honest blake3 file_at cache ∧ Forall (λ c, agrees file_at [] c.1 c.2) ch) →
  capture_with blake3 io key now opts cache role ch s = (Ok meta, s') →
  let ls := found_root (ci_walk io) opts ch in
  collision_free s' ls →
  ∃ d, materialize_snapshot blake3 s' hosted (mt_id meta) Dest_new = (Ok tt, d) ∧ mz_followed d = [] ∧
     (∀ l, l ∈ ls → mz_tree d !! split_on SLASH (lf_path l) = leaf_node l) ∧
     (∀ p, (∀ l, l ∈ ls → split_on SLASH (lf_path l) ≠ p) → mz_tree d !! p = None).
Proof.
  intros Hs Hch Hcache Hc ls Hcf. pose proof (found_root_plain (ci_walk io) opts ch Hch) as [Hpl Hsz]%Forall_and.
  destruct (capture_stored _ _ _ _ _ _ _ _ _ _ _ Hcache (proj2 (Forall_fmap _ _ _) Hsz) Hs Hc) as (m & Ef & Hid & Hs' & Hm & Hst).
  pose proof Ef as [Hp Hcan]%from_entries_Ok. assert (Forall sized m) as Hszm by (rewrite Hp; by apply Forall_fmap). rewrite Hid in *.
  unfold materialize_snapshot. rewrite (get_manifest_sound s' ls m) by done. pose proof (blobs_of_stored s' ls Hs' Hcf Hst) as Hb.
  apply materialize_leaves; [done|done|done|]. by apply found_root_closed.
Qed.
End restores.

(** ** Links are not followed *)
(** From an empty destination, a manifest of plain paths never makes a call through a symbolic
    link, whatever the host answers and wherever it stops. *)
Theorem materialize_never_follows blake3 s io es m :
  from_entries es = Ok m → Forall (λ e, plain (e_path e) = true) m → mz_followed (materialize blake3 s io m Dest_new).2 = [].
Proof. intros Hf Hp. pose proof (materialize_plain blake3 s io es m Hf Hp) as H. by destruct (materialize _ _ _ _ _) as [r d]; destruct H. Qed.

(** A manifest of two entries at one place: a link at [./a] and a file at [a]. *)
Definition link_store : Store := (put_blob tail_hash true 0 old_bytes (put_blob tail_hash true 0 link_target Store_new).2).2.
Definition link_manifest : Manifest :=
  [MkEntry (bytes "./a") Symlink 511 19 (Some (tail_hash link_target)); MkEntry (bytes "a") File 420 11 (Some (tail_hash old_bytes))].
Definition link_snapshot : Store := (put_manifest tail_hash true 0 link_manifest link_store).2.
Definition escaped : result SnapshotError unit * Dest := materialize_snapshot tail_hash link_snapshot hosted (manifest_id tail_hash link_manifest) Dest_new.

(** A path with a [.] segment is accepted, and so the same place can be named twice: a snapshot
    that verifies, with a link at [./a] and a file at [a], writes the file through the link, to
    wherever the link points. *)
Theorem materialize_follows_a_link :
  from_entries link_manifest = Ok link_manifest ∧ verify tail_hash (manifest_id tail_hash link_manifest) link_snapshot = Ok tt ∧
  escaped.1 = Ok tt ∧ mz_tree escaped.2 !! [bytes "a"] = Some (NLink link_target) ∧
  mz_followed escaped.2 = [([bytes "a"], CallWrite); ([bytes "a"], CallMode)].
Proof. split_and!; vm_compute; reflexivity. Qed.

(** ** The theorems at work *)
Lemma small_tree_named : Forall (λ c, name_ok c.1 ∧ named c.2) small_tree.
Proof.
  repeat constructor; try (vm_compute; congruence); by apply (bool_decide_unpack _); vm_compute.
Qed.
(** The values of [hashed], listed. *)
Definition hashed_list (s : Store) (ls : list Leaf) : list (list byte) :=
  (map_to_list (st_blobs s)).*2.*1 ++ (map_to_list (st_manifests s)).*2.*1 ++ omap lf_bytes ls ++
  match from_entries (entry_of tail_hash <$> ls) with Ok m => [serialize m] | Err _ => [] end.
Lemma hashed_listed s ls x : hashed tail_hash s ls x → x ∈ hashed_list s ls.
Proof.
  unfold hashed_list. rewrite !elem_of_app, !list_elem_of_fmap. intros [(d & t & E)|[(d & t & E)|[(l & Hl & E)|(m & E & ->)]]].
  - left. exists (x, t). split; [done|]. apply list_elem_of_fmap. exists (d, (x, t)). by rewrite elem_of_map_to_list.
  - right. left. exists (x, t). split; [done|]. apply list_elem_of_fmap. exists (d, (x, t)). by rewrite elem_of_map_to_list.
  - right. right. left. apply list_elem_of_omap. eauto.
  - right. right. right. rewrite E. by apply list_elem_of_singleton.
Qed.
Lemma collision_free_listed s ls :
  forallb (λ x, forallb (λ y, bool_decide (x = y) || negb (bool_decide (tail_hash x = tail_hash y))) (hashed_list s ls))
    (hashed_list s ls) = true → collision_free tail_hash s ls.
Proof.
  intros H x y Hx%hashed_listed Hy%hashed_listed E. rewrite forallb_Forall, Forall_forall in H.
  specialize (H x Hx). cbn in H. rewrite forallb_Forall, Forall_forall in H. specialize (H y Hy). cbn in H.
  rewrite (bool_decide_true (tail_hash x = tail_hash y)) in H by done.
  destruct (decide (x = y)) as [|Hne]; [done|]. by rewrite bool_decide_false in H.
Qed.
Lemma capture_restores_witness : let ls := found_root walk_ok incremental small_tree in
  length ls = 4%nat ∧
  ∃ d, materialize_snapshot tail_hash small_capture.2 hosted small_id Dest_new = (Ok tt, d) ∧ mz_followed d = [] ∧
      (∀ l, l ∈ ls → mz_tree d !! split_on SLASH (lf_path l) = leaf_node l) ∧
      (∀ p, (∀ l, l ∈ ls → split_on SLASH (lf_path l) ≠ p) → mz_tree d !! p = None).
Proof.
  split; [vm_compute; reflexivity|].
  apply (capture_restores tail_hash all_ok 1 noon incremental small_file_at small_cache RoleEntry small_tree Store_new (MkMeta small_id RoleEntry 4 35)).
  - split; intros ? ? ? E; cbn in E; by rewrite lookup_empty in E.
  - exact small_tree_named.
  - intros _. exact (conj small_cache_honest small_tree_agrees).
  - change (small_capture = (Ok (MkMeta small_id RoleEntry 4 35), small_capture.2)). etrans; [apply surjective_pairing|].
    apply (f_equal (λ r, (r, small_capture.2))). vm_compute. reflexivity.
  - apply collision_free_listed. vm_compute. reflexivity.
Defined.
Lemma materialize_never_follows_witness :
  mz_followed (materialize tail_hash old_store (MkHostIo (λ _, Breaks []) (λ _, Works)) [entry_a; entry_b] Dest_new).2 = [].
Proof. apply (materialize_never_follows tail_hash old_store _ [entry_b; entry_a] [entry_a; entry_b]); [vm_compute; reflexivity|repeat constructor]. Defined.
