(* ===== verification/Release.v ===== *)
(** * Release: which update may be installed ([crates/ward-release-verify/src])

    The version grammar and its order, the floor that keeps an update from going back, and the
    pinned identity a release must have been signed by. *)

From Stdlib Require Import Btauto.
From stdpp Require Import base numbers option strings list relations.
From S2P Require Import Prelude Bytes.
Local Open Scope Z_scope.

(** ** Orders *)
(** What [Ord] promises. *)
Class TotalOrd {A} (cmp : A → A → comparison) := {
  cmp_eq a b : cmp a b = Eq ↔ a = b;
  cmp_opp a b : cmp b a = CompOpp (cmp a b);
  cmp_lt_trans a b c : cmp a b = Lt → cmp b c = Lt → cmp a c = Lt }.
Definition then_with (c d : comparison) : comparison := match c with Eq => d | _ => c end.
(** The order of slices and strings. *)
Fixpoint lex_cmp {A} (cmp : A → A → comparison) (a b : list A) : comparison :=
  match a, b with
  | [], [] => Eq
  | [], _ :: _ => Lt
  | _ :: _, [] => Gt
  | x :: a, y :: b => then_with (cmp x y) (lex_cmp cmp a b)
  end.
Definition byte_cmp (a b : byte) : comparison := code a ?= code b.
Definition str_cmp : list byte → list byte → comparison := lex_cmp byte_cmp.

(** ** Versions ([version.rs]) *)
Inductive Identifier : Type := Numeric (n : Z) | Alphanumeric (s : list byte).
Record Version := MkVersion { major : Z; minor : Z; patch : Z; pre : list Identifier }.
Definition Identifier_cmp (a b : Identifier) : comparison :=
  match a, b with
  | Numeric a, Numeric b => a ?= b
  | Alphanumeric a, Alphanumeric b => str_cmp a b
  | Numeric _, Alphanumeric _ => Lt
  | Alphanumeric _, Numeric _ => Gt
  end.
Definition pre_cmp (a b : list Identifier) : comparison :=
  match a, b with
  | [], [] => Eq
  | [], _ => Gt
  | _, [] => Lt
  | _, _ => lex_cmp Identifier_cmp a b
  end.
Definition Version_cmp (a b : Version) : comparison :=
  then_with (then_with (then_with (major a ?= major b) (minor a ?= minor b)) (patch a ?= patch b)) (pre_cmp (pre a) (pre b)).
Inductive VersionParseError : Type := Empty (s : list byte) | BadCore (s p : list byte) | BadIdentifier (s p : list byte).

Definition DOT : byte := "."%char.
Definition DASH : byte := "-"%char.
Definition PLUS : byte := "+"%char.
Definition Identifier_display (i : Identifier) : list byte := match i with Numeric n => dec_display n | Alphanumeric s => s end.
(** A dash before the first identifier, a dot before every other. *)
Fixpoint pre_display (sep : byte) (l : list Identifier) : list byte :=
  match l with [] => [] | i :: l => sep :: Identifier_display i ++ pre_display DOT l end.
Definition Version_display (v : Version) : list byte :=
  dec_display (major v) ++ DOT :: dec_display (minor v) ++ DOT :: dec_display (patch v) ++ pre_display DASH (pre v).
Definition split_once_char (c : byte) (s : list byte) : list byte * option (list byte) :=
  match split_once c s with Some (a, b) => (a, Some b) | None => (s, None) end.
Definition is_id_char (c : byte) : bool := is_ascii_alphanumeric c || bool_decide (c = DASH).
Definition parse_identifier (original part : list byte) : result VersionParseError Identifier :=
  if bool_decide (part = []) || negb (forallb is_id_char part) then Err (BadIdentifier original part)
  else if forallb is_ascii_digit part then
    match dec_parse u64_max part with Some n => Ok (Numeric n) | None => Err (BadIdentifier original part) end
  else Ok (Alphanumeric part).
Fixpoint parse_identifiers (original : list byte) (parts : list (list byte)) : result VersionParseError (list Identifier) :=
  match parts with
  | [] => Ok []
  | part :: parts => i ← parse_identifier original part; ids ← parse_identifiers original parts; Ok (i :: ids)
  end.
Definition parse_dotted_identifiers (original field : list byte) : result VersionParseError (list Identifier) :=
  parse_identifiers original (split_on DOT field).
Definition parse_component (original p : list byte) : result VersionParseError Z :=
  if bool_decide (p = []) || negb (forallb is_ascii_digit p) then Err (BadCore original p)
  else ok_or (dec_parse u64_max p) (BadCore original p).
Definition strip_v (input : list byte) : list byte :=
  match input with c :: rest => if bool_decide (c = "v"%char) || bool_decide (c = "V"%char) then rest else input | [] => [] end.
Definition parse_build (original : list byte) (build : option (list byte)) : result VersionParseError unit :=
  match build with
  | None => Ok tt
  | Some b => if bool_decide (b = []) then Err (BadIdentifier original b) else _ ← parse_dotted_identifiers original b; Ok tt
  end.
Definition parse_pre (original : list byte) (p : option (list byte)) : result VersionParseError (list Identifier) :=
  match p with
  | None => Ok []
  | Some p => if bool_decide (p = []) then Err (BadIdentifier original p) else parse_dotted_identifiers original p
  end.
Definition parse_version (input : list byte) : result VersionParseError Version :=
  let stripped := strip_v input in
  _ ← fail_if (bool_decide (stripped = [])) (Empty input);
  let '(core_and_pre, build) := split_once_char PLUS stripped in
  _ ← parse_build input build;
  let '(core, p) := split_once_char DASH core_and_pre in
  match split_on DOT core with
  | [maj; min; pat] =>
      major ← parse_component input maj;
      minor ← parse_component input min;
      patch ← parse_component input pat;
      pre ← parse_pre input p;
      Ok (MkVersion major minor patch pre)
  | _ => Err (BadCore input core)
  end.

(** ** The floor ([rollback.rs]) *)
Inductive RollbackFailure : Type :=
| DowngradeRefused (candidate committed : list byte)
| InvalidCandidate (e : VersionParseError)
| InvalidCommitted (e : VersionParseError).
Definition check_anti_rollback (candidate committed : list byte) (override_downgrade : bool) : result RollbackFailure unit :=
  candidate_version ← map_err InvalidCandidate (parse_version candidate);
  committed_version ← map_err InvalidCommitted (parse_version committed);
  if bool_decide (Version_cmp candidate_version committed_version = Lt) && negb override_downgrade
  then Err (DowngradeRefused candidate committed) else Ok tt.

(** ** The pinned identity ([identity.rs]) *)
Record AttestationClaims := MkClaims { issuer : list byte; signing_identity : list byte; repository : list byte; workflow : list byte; source_ref : list byte }.
Record VerifiedIdentity := MkIdentity { tag : list byte }.
Definition PINNED_ISSUER : list byte := bytes "https://token.actions.githubusercontent.com".
Definition PINNED_REPOSITORY : list byte := bytes "hexrift/WardOS".
Definition PINNED_WORKFLOW : list byte := bytes "release.yml".
Definition RELEASE_REF_PREFIX : list byte := bytes "refs/tags/".
Inductive IdentityFailure : Type :=
| IssuerMismatch (actual : list byte)
| RepositoryMismatch (actual : list byte)
| WorkflowMismatch (actual : list byte)
| InvalidSourceRef (ref : list byte) (tag : option (list byte))
| SigningIdentityMismatch (expected actual : list byte).
Definition is_dotted_identifier_list (s : list byte) : bool :=
  forallb (λ part, negb (bool_decide (part = [])) && forallb is_id_char part) (split_on DOT s).
Definition dotted_or_none (s : option (list byte)) : bool :=
  match s with None => true | Some s => negb (bool_decide (s = []) || negb (is_dotted_identifier_list s)) end.
Definition is_release_tag (t : list byte) : bool :=
  match strip_prefix (bytes "v") t with
  | None => false
  | Some rest =>
      let '(rest, build) := split_once_char PLUS rest in
      if negb (dotted_or_none build) then false
      else
        let '(core, p) := split_once_char DASH rest in
        if negb (dotted_or_none p) then false
        else
          match split_on DOT core with
          | [maj; min; pat] => forallb (λ p, negb (bool_decide (p = [])) && forallb is_ascii_digit p) [maj; min; pat]
          | _ => false
          end
  end.
Definition validate_source_ref (r : list byte) : result IdentityFailure unit :=
  match strip_prefix RELEASE_REF_PREFIX r with
  | Some t => if is_release_tag t then Ok tt else Err (InvalidSourceRef r (Some t))
  | None => Err (InvalidSourceRef r None)
  end.
Definition expected_identity (r : list byte) : list byte :=
  bytes "https://github.com/" ++ PINNED_REPOSITORY ++ bytes "/.github/workflows/" ++ PINNED_WORKFLOW ++ bytes "@" ++ r.
Definition evaluate_identity (c : AttestationClaims) : result IdentityFailure VerifiedIdentity :=
  _ ← fail_if (bool_decide (issuer c ≠ PINNED_ISSUER)) (IssuerMismatch (issuer c));
  _ ← fail_if (bool_decide (repository c ≠ PINNED_REPOSITORY)) (RepositoryMismatch (repository c));
  _ ← fail_if (bool_decide (workflow c ≠ PINNED_WORKFLOW)) (WorkflowMismatch (workflow c));
  _ ← validate_source_ref (source_ref c);
  _ ← fail_if (bool_decide (signing_identity c ≠ expected_identity (source_ref c))) (SigningIdentityMismatch (expected_identity (source_ref c)) (signing_identity c));
  Ok (MkIdentity (default (source_ref c) (strip_prefix RELEASE_REF_PREFIX (source_ref c)))).

(** ** The orders are orders *)
Section orders.
Context {A} (cmp : A → A → comparison) `{!TotalOrd cmp}.
Lemma cmp_refl a : cmp a a = Eq.
Proof. by apply cmp_eq. Qed.
Lemma cmp_gt a b : cmp a b = Gt ↔ cmp b a = Lt.
Proof. rewrite (cmp_opp (cmp := cmp) a b). by destruct (cmp a b). Qed.
(** Not below is transitive. *)
Lemma cmp_ge_trans a b c : cmp b a ≠ Lt → cmp c b ≠ Lt → cmp c a ≠ Lt.
Proof.
  intros H1 H2 H3. destruct (cmp c b) eqn:E; [apply cmp_eq in E as ->; by apply H1|done|]. apply cmp_gt in E. apply H1. by eapply cmp_lt_trans.
Qed.
End orders.
#[export] Instance Z_compare_total : TotalOrd Z.compare.
Proof.
  split; [intros a b; apply Z.compare_eq_iff|intros a b; apply Z.compare_antisym|]. intros a b c H1 H2. rewrite Z.compare_lt_iff in *. lia.
Qed.
#[export] Instance byte_cmp_total : TotalOrd byte_cmp.
Proof.
  unfold byte_cmp. split; [|intros a b; apply Z.compare_antisym|intros a b c H1 H2; rewrite Z.compare_lt_iff in *; lia].
  intros a b. rewrite Z.compare_eq_iff. split; [|by intros ->]. apply code_inj.
Qed.
Lemma then_with_eq c d : then_with c d = Eq ↔ c = Eq ∧ d = Eq.
Proof. destruct c; cbn; naive_solver. Qed.
Lemma then_with_opp c d : CompOpp (then_with c d) = then_with (CompOpp c) (CompOpp d).
Proof. by destruct c. Qed.
(** Comparing first parts, then second parts, keeps transitivity. *)
Lemma then_with_trans {A} (cmp : A → A → comparison) `{!TotalOrd cmp} a b c d1 d2 d3 :
  (d1 = Lt → d2 = Lt → d3 = Lt) → then_with (cmp a b) d1 = Lt → then_with (cmp b c) d2 = Lt → then_with (cmp a c) d3 = Lt.
Proof.
  intros Hd. destruct (cmp a b) eqn:E1; [|intros _|done].
  - apply cmp_eq in E1 as ->. cbn. intros H1. destruct (cmp b c) eqn:E2; cbn; [auto|done|done].
  - destruct (cmp b c) eqn:E2; [|intros _|done]; [apply cmp_eq in E2 as ->|rewrite (cmp_lt_trans (cmp := cmp) _ _ _ E1 E2)]; by rewrite ?E1.
Qed.
#[export] Instance lex_cmp_total {A} (cmp : A → A → comparison) `{!TotalOrd cmp} : TotalOrd (lex_cmp cmp).
Proof.
  split.
  - intros a. induction a as [|x a IH]; intros [|y b]; cbn; [done..|]. rewrite then_with_eq, (cmp_eq (cmp := cmp)), IH. naive_solver.
  - intros a. induction a as [|x a IH]; intros [|y b]; cbn; [done..|]. by rewrite then_with_opp, <- (cmp_opp (cmp := cmp)), <- IH.
  - intros a. induction a as [|x a IH]; intros [|y b] [|z c]; cbn; try done. apply (then_with_trans cmp). apply IH.
Qed.
#[export] Instance Identifier_cmp_total : TotalOrd Identifier_cmp.
Proof.
  unfold Identifier_cmp, str_cmp. split.
  - intros [a|a] [b|b]; try done; [rewrite (cmp_eq (cmp := Z.compare))|rewrite (cmp_eq (cmp := lex_cmp byte_cmp))]; naive_solver.
  - intros [a|a] [b|b]; try done; [apply (cmp_opp (cmp := Z.compare))|apply (cmp_opp (cmp := lex_cmp byte_cmp))].
  - intros [a|a] [b|b] [c|c]; try done; [apply (cmp_lt_trans (cmp := Z.compare))|apply (cmp_lt_trans (cmp := lex_cmp byte_cmp))].
Qed.
#[export] Instance pre_cmp_total : TotalOrd pre_cmp.
Proof.
  split.
  - intros [|a x] [|b y]; try done. apply (cmp_eq (cmp := lex_cmp Identifier_cmp)).
  - intros [|a x] [|b y]; try done. apply (cmp_opp (cmp := lex_cmp Identifier_cmp)).
  - intros [|a x] [|b y] [|c z]; try done. apply (cmp_lt_trans (cmp := lex_cmp Identifier_cmp)).
Qed.
Lemma then_with_assoc c d e : then_with (then_with c d) e = then_with c (then_with d e).
Proof. by destruct c. Qed.
#[export] Instance Version_cmp_total : TotalOrd Version_cmp.
Proof.
  unfold Version_cmp. split.
  - intros [a1 a2 a3 a4] [b1 b2 b3 b4]. cbn. rewrite !then_with_eq, !(cmp_eq (cmp := Z.compare)), (cmp_eq (cmp := pre_cmp)). naive_solver.
  - intros a b. by rewrite !then_with_opp, <- !(cmp_opp (cmp := Z.compare)), <- (cmp_opp (cmp := pre_cmp)).
  - intros a b c. rewrite !then_with_assoc. do 3 apply (then_with_trans Z.compare). apply (cmp_lt_trans (cmp := pre_cmp)).
Qed.

(** ** Updates *)
(** [a] comes before [b] at the first place where they differ: a shorter one that does not
    differ, or the lower element there. *)
Definition first_difference {A} (R : A → A → Prop) (a b : list A) : Prop :=
  ∃ common,
    (∃ y rest, a = common ∧ b = common ++ y :: rest) ∨
    (∃ x y rest rest', a = common ++ x :: rest ∧ b = common ++ y :: rest' ∧ R x y).
Lemma check_anti_rollback_Ok candidate committed o : check_anti_rollback candidate committed o = Ok tt ↔
  ∃ v v0, parse_version candidate = Ok v ∧ parse_version committed = Ok v0 ∧ (o = false → Version_cmp v v0 ≠ Lt).
Proof.
  unfold check_anti_rollback. destruct (parse_version candidate) as [v|e]; cbn; [|naive_solver]. destruct (parse_version committed) as [v0|e]; cbn; [|naive_solver].
  case_bool_decide; destruct o; cbn; naive_solver.
Qed.
Lemma evaluate_identity_Ok c i : evaluate_identity c = Ok i ↔
  issuer c = PINNED_ISSUER ∧ repository c = PINNED_REPOSITORY ∧ workflow c = PINNED_WORKFLOW ∧ source_ref c = RELEASE_REF_PREFIX ++ tag i ∧
  is_release_tag (tag i) = true ∧ signing_identity c = expected_identity (source_ref c).
Proof.
  unfold evaluate_identity, validate_source_ref, fail_if.
  destruct (decide (issuer c = PINNED_ISSUER)) as [E1|E1]; [rewrite (bool_decide_false (issuer c ≠ PINNED_ISSUER)) by (intros Hne; by apply Hne); rewrite bind_Ok_l|rewrite (bool_decide_true (issuer c ≠ PINNED_ISSUER)) by done; split; [done|naive_solver]].
  destruct (decide (repository c = PINNED_REPOSITORY)) as [E2|E2]; [rewrite (bool_decide_false (repository c ≠ PINNED_REPOSITORY)) by (intros Hne; by apply Hne); rewrite bind_Ok_l|rewrite (bool_decide_true (repository c ≠ PINNED_REPOSITORY)) by done; split; [done|naive_solver]].
  destruct (decide (workflow c = PINNED_WORKFLOW)) as [E3|E3]; [rewrite (bool_decide_false (workflow c ≠ PINNED_WORKFLOW)) by (intros Hne; by apply Hne); rewrite bind_Ok_l|rewrite (bool_decide_true (workflow c ≠ PINNED_WORKFLOW)) by done; split; [done|naive_solver]].
  destruct (strip_prefix RELEASE_REF_PREFIX (source_ref c)) as [t|] eqn:Et; cycle 1.
  { split; [done|]. intros (_ & _ & _ & H & _). apply strip_prefix_Some in H. congruence. }
  assert (∀ x, source_ref c = RELEASE_REF_PREFIX ++ x ↔ t = x) as Ht. { intros x. rewrite <- strip_prefix_Some, Et. split; [by intros [= ->]|by intros ->]. }
  rewrite Ht. destruct (is_release_tag t) eqn:Er; [rewrite bind_Ok_l|split; [done|]; intros (_ & _ & _ & <- & H & _); congruence].
  destruct (decide (signing_identity c = expected_identity (source_ref c))) as [E4|E4]; [rewrite (bool_decide_false (signing_identity c ≠ expected_identity (source_ref c))) by (intros Hne; by apply Hne); rewrite bind_Ok_l|rewrite (bool_decide_true (signing_identity c ≠ expected_identity (source_ref c))) by done; split; [done|naive_solver]].
  cbn. destruct i as [x]. cbn. naive_solver.
Qed.
(** Precedence, the way Semantic Versioning 2.0.0 states it: [a] is older than [b] when it is
    lower at the first of major, minor and patch where they differ, or when they agree on all
    three and [a]'s pre-release comes before [b]'s. A pre-release comes before none; of two,
    the one that is lower at the first identifier where they differ, or that has fewer when
    they do not differ; a number is lower than a larger one and than any other identifier,
    and the others compare as text. *)
Definition text_before : list byte → list byte → Prop := first_difference (λ x y, code x < code y).
Definition identifier_before (x y : Identifier) : Prop :=
  match x, y with
  | Numeric m, Numeric n => m < n
  | Numeric _, Alphanumeric _ => True
  | Alphanumeric _, Numeric _ => False
  | Alphanumeric s, Alphanumeric t => text_before s t
  end.
Definition pre_before (p q : list Identifier) : Prop :=
  p ≠ [] ∧ q = [] ∨ q ≠ [] ∧ p ≠ [] ∧ first_difference identifier_before p q.
Definition older (a b : Version) : Prop :=
  major a < major b ∨
  major a = major b ∧ minor a < minor b ∨
  major a = major b ∧ minor a = minor b ∧ patch a < patch b ∨
  major a = major b ∧ minor a = minor b ∧ patch a = patch b ∧ pre_before (pre a) (pre b).

Lemma lex_cmp_Lt {A} (cmp : A → A → comparison) `{!TotalOrd cmp} (R : A → A → Prop) a b :
  (∀ x y, cmp x y = Lt ↔ R x y) → lex_cmp cmp a b = Lt ↔ first_difference R a b.
Proof.
  intros HR. revert b. induction a as [|x a IH]; intros [|y b]; cbn.
  - split; [done|]. intros (c & [(z & r & E & E')|(z & w & r & r' & E & E' & _)]).
    + by destruct c.
    + by destruct c.
  - split; [intros _; exists []; left; by exists y, b|done].
  - split; [done|]. intros (c & [(z & r & E & E')|(z & w & r & r' & E & E' & _)]); by destruct c.
  - destruct (cmp x y) eqn:Exy; cbn.
    + apply cmp_eq in Exy as ->. rewrite IH. split.
      * intros (c & Hc). exists (y :: c). destruct Hc as [(z & r & -> & ->)|(z & w & r & r' & -> & -> & H)].
        -- left. by exists z, r.
        -- right. by exists z, w, r, r'.
      * intros ([|v c] & [(z & r & E & E')|(z & w & r & r' & E & E' & H)]); cbn in *; simplify_eq.
        -- apply HR in H. by rewrite (cmp_refl cmp) in H.
        -- exists c. left. by exists z, r.
        -- exists c. right. by exists z, w, r, r'.
    + split; [|done]. intros _. exists []. right. exists x, y, a, b. split_and!; [done|done|by apply HR].
    + split; [done|]. intros ([|v c] & [(z & r & E & E')|(z & w & r & r' & E & E' & H)]); cbn in *; simplify_eq.
      * apply HR in H. congruence.
      * by rewrite (cmp_refl cmp) in Exy.
      * by rewrite (cmp_refl cmp) in Exy.
Qed.
Lemma str_cmp_Lt s t : str_cmp s t = Lt ↔ text_before s t.
Proof. apply (lex_cmp_Lt byte_cmp). intros x y. apply Z.compare_lt_iff. Qed.
Lemma Identifier_cmp_Lt x y : Identifier_cmp x y = Lt ↔ identifier_before x y.
Proof. destruct x, y; cbn; [apply Z.compare_lt_iff|done|done|apply str_cmp_Lt]. Qed.
Lemma pre_cmp_Lt p q : pre_cmp p q = Lt ↔ pre_before p q.
Proof.
  unfold pre_before. destruct p as [|x p], q as [|y q].
  1-3: cbn; naive_solver.
  rewrite <-(lex_cmp_Lt Identifier_cmp identifier_before (x :: p) (y :: q) Identifier_cmp_Lt). cbn. naive_solver.
Qed.
Lemma Version_cmp_Lt a b : Version_cmp a b = Lt ↔ older a b.
Proof.
  unfold Version_cmp, older. rewrite <-pre_cmp_Lt.
  destruct (Z.compare_spec (major a) (major b)) as [E1|E1|E1]; cbn; [|naive_solver lia..].
  destruct (Z.compare_spec (minor a) (minor b)) as [E2|E2|E2]; cbn; [|naive_solver lia..].
  destruct (Z.compare_spec (patch a) (patch b)) as [E3|E3|E3]; cbn; [|naive_solver lia..]. naive_solver lia.
Qed.

(** C20. The anti-rollback floor keeps to the precedence of versions. A candidate is refused as a
    downgrade exactly when both texts are versions, the candidate's is older and the user did
    not override; it is accepted exactly when both are versions and it is not older or the
    user overrode; and however many updates are accepted without an override, one after the
    other, the version never goes back, nor would the last be refused over the first. *)
Theorem updates_never_go_back candidate committed override_downgrade :
  (check_anti_rollback candidate committed override_downgrade = Err (DowngradeRefused candidate committed) ↔
     override_downgrade = false ∧
     ∃ v v0, parse_version candidate = Ok v ∧ parse_version committed = Ok v0 ∧ older v v0) ∧
  (check_anti_rollback candidate committed override_downgrade = Ok tt ↔
     ∃ v v0, parse_version candidate = Ok v ∧ parse_version committed = Ok v0 ∧
       (override_downgrade = true ∨ ¬ older v v0)) ∧
  (∀ v0, parse_version committed = Ok v0 →
     rtc (λ a b, check_anti_rollback b a false = Ok tt) committed candidate →
     check_anti_rollback candidate committed false = Ok tt ∧
     ∃ v, parse_version candidate = Ok v ∧ ¬ older v v0).
Proof.
  setoid_rewrite <-Version_cmp_Lt. split_and!.
  - unfold check_anti_rollback. destruct (parse_version candidate) as [v|e]; cbn; [|naive_solver].
    destruct (parse_version committed) as [v0|e]; cbn; [|naive_solver].
    case_bool_decide; destruct override_downgrade; cbn; naive_solver.
  - rewrite check_anti_rollback_Ok. split; intros (v & v0 & ? & ? & H); exists v, v0; split_and!; try done.
    + destruct override_downgrade; auto.
    + intros ->. by destruct H.
  - intros v0 H0 Hs.
    assert (∃ v, parse_version candidate = Ok v ∧ Version_cmp v v0 ≠ Lt) as (v & Hv & Hge).
    { induction Hs as [a|a b d (vb & va & Hb & Ha & H)%check_anti_rollback_Ok _ IH] in v0, H0 |- *.
      - exists v0. by rewrite (cmp_refl Version_cmp).
      - rewrite H0 in Ha. injection Ha as <-. destruct (IH vb Hb) as (vd & Hd & Hge).
        exists vd. split; [done|]. eapply (cmp_ge_trans Version_cmp); [by apply H|done]. }
    split; [|eauto]. apply check_anti_rollback_Ok. eauto.
Qed.

(** ** Tags and versions *)
(** The parts of a version between its separators. *)
Definition tag_parts (rest : list byte) : list (list byte) :=
  let '(rest, build) := split_once_char PLUS rest in
  let '(core, p) := split_once_char DASH rest in
  split_on DOT core ++ from_option (split_on DOT) [] p ++ from_option (split_on DOT) [] build.
Definition fits_u64 (p : list byte) : bool := negb (forallb is_ascii_digit p) || (dec_value 0 p <=? u64_max).
Lemma dec_parse_digits_iff max v l : 0 ≤ v ≤ max → Forall (λ c, is_ascii_digit c = true) l → is_Some (dec_parse_digits max v l) ↔ dec_value v l ≤ max.
Proof.
  intros Hv Hl. revert v Hv. induction Hl as [|c l Hc Hl IH]; intros v Hv; [split; [cbn; lia|eauto]|]. cbn [dec_parse_digits]. rewrite Hc. apply in_range_spec in Hc.
  pose proof (dec_value_le (v * 10 + (code c - 48)) l ltac:(lia) Hl) as Hle. change (dec_value v (c :: l)) with (dec_value (v * 10 + (code c - 48)) l).
  unfold checked_mul, checked_add. destruct (Z.leb_spec (v * 10) max); cbn; [|split; [by intros [? ?]|lia]].
  destruct (Z.leb_spec (v * 10 + (code c - 48)) max); cbn; [apply IH; lia|split; [by intros [? ?]|lia]].
Qed.
Definition okb {E A} (r : result E A) : bool := match r with Ok _ => true | Err _ => false end.
Lemma okb_bind {E A B} (r : result E A) (f : A → result E B) b : (∀ a, okb (f a) = b) → okb (r ≫= f) = okb r && b.
Proof. intros Hf. destruct r as [a|e]; cbn; [apply Hf|done]. Qed.
Lemma dec_parse_okb p : p ≠ [] → forallb is_ascii_digit p = true → bool_decide (is_Some (dec_parse u64_max p)) = (dec_value 0 p <=? u64_max).
Proof.
  intros Hne Hd. assert (dec_parse u64_max p = dec_parse_digits u64_max 0 p) as ->.
  { unfold dec_parse. destruct p as [|c p]; [done|]. cbn [forallb] in Hd. apply andb_true_iff in Hd as [Hc _]. apply in_range_spec in Hc. cbn [strip_prefix].
    rewrite bool_decide_false; [done|]. intros <-. vm_compute in Hc. by destruct Hc as [[] _]. }
  apply Bool.eq_true_iff_eq. rewrite bool_decide_eq_true, Z.leb_le. apply dec_parse_digits_iff; [unfold u64_max; lia|]. apply Forall_forall. intros x Hx. rewrite forallb_forall in Hd. apply Hd. by apply list_elem_of_In.
Qed.
Lemma parse_identifier_okb o p : okb (parse_identifier o p) = negb (bool_decide (p = [])) && forallb is_id_char p && fits_u64 p.
Proof.
  unfold parse_identifier, fits_u64. case_bool_decide as Hp; [done|]. destruct (forallb is_id_char p); cbn; [|done]. destruct (forallb is_ascii_digit p) eqn:Hd; [|done]. cbn.
  rewrite <- dec_parse_okb by done. by destruct (dec_parse u64_max p).
Qed.
Lemma parse_identifiers_okb o ps :
  okb (parse_identifiers o ps) = forallb (λ p, negb (bool_decide (p = [])) && forallb is_id_char p) ps && forallb fits_u64 ps.
Proof.
  induction ps as [|p ps IH]; [done|]. cbn [parse_identifiers forallb]. rewrite (okb_bind _ _ (okb (parse_identifiers o ps))); [|intros i; rewrite (okb_bind _ _ true) by done; apply andb_true_r]. rewrite parse_identifier_okb, IH.
  btauto.
Qed.
Lemma parse_component_okb o p : okb (parse_component o p) = negb (bool_decide (p = [])) && forallb is_ascii_digit p && fits_u64 p.
Proof.
  unfold parse_component, fits_u64. case_bool_decide as Hp; [done|]. destruct (forallb is_ascii_digit p) eqn:Hd; [|done]. cbn. rewrite <- dec_parse_okb by done. by destruct (dec_parse u64_max p).
Qed.
Lemma split_on_not_nil c l : l ≠ [] → split_on c l ≠ [[]].
Proof. intros Hl H. apply Hl. by rewrite <- (join_split c l), H. Qed.
Lemma parse_build_okb o b : okb (parse_build o b) = dotted_or_none b && forallb fits_u64 (from_option (split_on DOT) [] b).
Proof.
  destruct b as [b|]; [|done]. unfold parse_build, dotted_or_none. case_bool_decide; [done|]. cbn [from_option orb negb]. rewrite (okb_bind _ _ true) by done.
  unfold parse_dotted_identifiers. rewrite parse_identifiers_okb, negb_involutive, andb_true_r. done.
Qed.
Lemma parse_pre_okb o p : okb (parse_pre o p) = dotted_or_none p && forallb fits_u64 (from_option (split_on DOT) [] p).
Proof.
  destruct p as [p|]; [|done]. unfold parse_pre, dotted_or_none. case_bool_decide; [done|]. cbn [from_option orb negb].
  unfold parse_dotted_identifiers. rewrite parse_identifiers_okb, negb_involutive. done.
Qed.
(** A release tag is a version, as the two modules say of each other, exactly when its numbers fit
    in 64 bits. *)
Theorem release_tags_are_versions rest :
  okb (parse_version ("v"%char :: rest)) = is_release_tag ("v"%char :: rest) && forallb fits_u64 (tag_parts rest).
Proof.
  unfold parse_version, is_release_tag, tag_parts. set (o := "v"%char :: rest). change (strip_v o) with rest. change (strip_prefix (bytes "v") o) with (Some rest).
  destruct (decide (rest = [])) as [->|Hne]; [done|]. unfold fail_if. rewrite bool_decide_false by done. rewrite bind_Ok_l. destruct (split_once_char PLUS rest) as [r1 build].
  destruct (split_once_char DASH r1) as [core p]. rewrite !forallb_app.
  destruct (split_on DOT core) as [|maj [|min [|pat [|y l]]]];
    try (rewrite (okb_bind _ _ false) by done; rewrite andb_false_r; by destruct (negb (dotted_or_none build)), (negb (dotted_or_none p))).
  rewrite (okb_bind _ _ (okb (parse_component o maj) && (okb (parse_component o min) && (okb (parse_component o pat) && okb (parse_pre o p))))).
  2:{ intros _. apply okb_bind. intros a1. apply okb_bind. intros a2. apply okb_bind. intros a3. rewrite (okb_bind _ _ true) by done. apply andb_true_r. }
  rewrite parse_build_okb, parse_pre_okb, !parse_component_okb. cbn [forallb].
  destruct (dotted_or_none build), (dotted_or_none p); cbn [negb]; btauto.
Qed.
(** A tag the identity check accepts and the floor cannot read. *)
Lemma a_tag_that_is_no_version : let t := bytes "v1.2.3+18446744073709551616" in is_release_tag t = true ∧ okb (parse_version t) = false.
Proof. vm_compute. done. Qed.

(** ** Printing and parsing *)
Definition identifier_wf (i : Identifier) : Prop :=
  match i with Numeric n => in_u64 n | Alphanumeric s => s ≠ [] ∧ forallb is_id_char s = true ∧ forallb is_ascii_digit s = false end.
Definition version_wf (v : Version) : Prop := in_u64 (major v) ∧ in_u64 (minor v) ∧ in_u64 (patch v) ∧ Forall identifier_wf (pre v).
Lemma digits_forallb n : in_u64 n → dec_display n ≠ [] ∧ forallb is_ascii_digit (dec_display n) = true.
Proof.
  intros (Hne & Hd & _)%dec_display_digits. split; [done|]. apply forallb_forall. intros x Hx%list_elem_of_In. rewrite Forall_forall in Hd. by apply Hd.
Qed.
Lemma forallb_not_in (f : byte → bool) c l : forallb f l = true → f c = false → c ∉ l.
Proof. intros Hl Hc Hin. rewrite forallb_forall in Hl. apply list_elem_of_In, Hl in Hin. congruence. Qed.
Lemma digits_id l : forallb is_ascii_digit l = true → forallb is_id_char l = true.
Proof.
  rewrite !forallb_forall. intros H x Hx. unfold is_id_char, is_ascii_alphanumeric. by rewrite (H x Hx), !orb_true_r.
Qed.
Lemma display_id i : identifier_wf i → Identifier_display i ≠ [] ∧ forallb is_id_char (Identifier_display i) = true.
Proof. destruct i as [n|s]; cbn; [|tauto]. intros [? ?]%digits_forallb. split; [done|by apply digits_id]. Qed.
Lemma parse_identifier_display o i : identifier_wf i → parse_identifier o (Identifier_display i) = Ok i.
Proof.
  intros Hi. destruct (display_id i Hi) as [Hne Hid]. unfold parse_identifier. rewrite (bool_decide_false (_ = [])), Hid by done. cbn [orb negb]. destruct i as [n|s]; cbn [Identifier_display] in *.
  - destruct (digits_forallb n Hi) as [_ ->]. by rewrite dec_parse_display.
  - destruct Hi as (_ & _ & ->). done.
Qed.
Lemma parse_component_display o n : in_u64 n → parse_component o (dec_display n) = Ok n.
Proof.
  intros Hn. destruct (digits_forallb n Hn) as [Hne Hd]. unfold parse_component. rewrite (bool_decide_false (_ = [])), Hd by done. cbn [orb negb]. by rewrite dec_parse_display.
Qed.
Lemma split_once_none c l : c ∉ l → split_once c l = None.
Proof. induction l as [|x l IH]; [done|]. intros [Hx Hl]%not_elem_of_cons. cbn. rewrite bool_decide_false by auto. by rewrite (IH Hl). Qed.
Lemma split_none c l : c ∉ l → split_on c l = [l].
Proof. induction l as [|x l IH]; [done|]. intros [Hx Hl]%not_elem_of_cons. cbn. by rewrite (IH Hl), bool_decide_false by auto. Qed.
Lemma split_join c ws : ws ≠ [] → Forall (λ w, c ∉ w) ws → split_on c (join_with c ws) = ws.
Proof.
  intros Hne Hw. induction Hw as [|w ws Hw Hws IH]; [done|]. destruct ws as [|w' ws]; [by apply split_none|].
  change (split_on c (w ++ c :: join_with c (w' :: ws)) = w :: w' :: ws). by rewrite split_on_app, IH.
Qed.
Lemma pre_display_join i l : Identifier_display i ++ pre_display DOT l = join_with DOT (Identifier_display <$> i :: l).
Proof. revert i. induction l as [|j l IH]; intros i; [by rewrite app_nil_r|]. cbn [pre_display]. by rewrite (IH j). Qed.
Lemma parse_identifiers_display o l : Forall identifier_wf l → parse_identifiers o (Identifier_display <$> l) = Ok l.
Proof. induction 1 as [|i l Hi _ IH]; [done|]. cbn [fmap list_fmap parse_identifiers]. rewrite parse_identifier_display, bind_Ok_l by done. by rewrite IH, bind_Ok_l. Qed.
Definition core_display (v : Version) : list byte := join_with DOT [dec_display (major v); dec_display (minor v); dec_display (patch v)].
Lemma pre_display_PLUS sep l : sep ≠ PLUS → Forall identifier_wf l → PLUS ∉ pre_display sep l.
Proof.
  intros Hs Hl. induction Hl as [|i l Hi _ IH] in sep, Hs |- *; [apply not_elem_of_nil|]. cbn. rewrite not_elem_of_cons, not_elem_of_app. split_and!; [done| |by apply IH].
  destruct (display_id i Hi) as [_ H]. eapply forallb_not_in; [exact H|reflexivity].
Qed.
(** A version prints as it parses. *)
Theorem version_roundtrip v : version_wf v → parse_version (Version_display v) = Ok v.
Proof.
  intros (H1 & H2 & H3 & Hp). destruct (digits_forallb _ H1) as [N1 D1], (digits_forallb _ H2) as [N2 D2], (digits_forallb _ H3) as [N3 D3].
  assert (Version_display v = core_display v ++ pre_display DASH (pre v)) as Ed by (unfold Version_display, core_display; cbn [join_with]; by rewrite <- !app_assoc, <- !app_comm_cons, <- !app_assoc).
  assert (∀ c, is_ascii_digit c = false → c ≠ DOT → c ∉ core_display v) as Hcore.
  { intros c Hc Hd. unfold core_display. cbn [join_with]. rewrite !not_elem_of_app, !not_elem_of_cons, !not_elem_of_app, !not_elem_of_cons.
    pose proof (forallb_not_in _ _ _ D1 Hc). pose proof (forallb_not_in _ _ _ D2 Hc). pose proof (forallb_not_in _ _ _ D3 Hc). split_and!; assumption. }
  unfold parse_version. assert (strip_v (Version_display v) = Version_display v ∧ Version_display v ≠ []) as [-> Hne].
  { unfold Version_display. destruct (dec_display (major v)) as [|c l]; [done|]. cbn [app]. split; [|done]. cbn [forallb] in D1. apply andb_true_iff in D1 as [Hc _]. cbn [strip_v].
    rewrite !bool_decide_false; [done|intros ->; vm_compute in Hc; done|intros ->; vm_compute in Hc; done]. }
  unfold fail_if. rewrite bool_decide_false, bind_Ok_l by done. unfold split_once_char at 1. rewrite split_once_none; cycle 1.
  { rewrite Ed, not_elem_of_app. split; [by apply Hcore|by apply pre_display_PLUS]. }
  cbn [parse_build]. rewrite bind_Ok_l.
  assert (split_once_char DASH (Version_display v) = (core_display v, match pre v with [] => None | l => Some (join_with DOT (Identifier_display <$> l)) end)) as ->.
  { unfold split_once_char. rewrite Ed. destruct (pre v) as [|i l]; [rewrite app_nil_r, split_once_none; [done|by apply Hcore]|]. cbn [pre_display].
    rewrite split_once_app by (by apply Hcore). by rewrite pre_display_join. }
  assert (∀ l, forallb is_ascii_digit l = true → DOT ∉ l) as Hdot by (intros l Hl; exact (forallb_not_in _ DOT l Hl eq_refl)).
  unfold core_display at 1. rewrite split_join; [|discriminate|repeat apply Forall_cons_2; [exact (Hdot _ D1)|exact (Hdot _ D2)|exact (Hdot _ D3)|apply Forall_nil_2]].
  rewrite !parse_component_display by done. rewrite !bind_Ok_l.
  assert (∀ o, parse_pre o (match pre v with [] => None | l => Some (join_with DOT (Identifier_display <$> l)) end) = Ok (pre v)) as Hpre.
  { intros o. destruct (pre v) as [|i l] eqn:E; [done|]. unfold parse_pre, parse_dotted_identifiers.
    assert (Forall (λ w, DOT ∉ w) (Identifier_display <$> i :: l)) as Hd. { apply Forall_fmap. eapply Forall_impl; [exact Hp|]. intros j Hj. destruct (display_id j Hj) as [_ H]. eapply forallb_not_in; [exact H|reflexivity]. }
    rewrite bool_decide_false; [rewrite split_join by done; by apply parse_identifiers_display|]. intros Hj. apply (f_equal (split_on DOT)) in Hj. rewrite split_join in Hj by done.
    apply Forall_cons in Hp as [Hi _]. destruct (display_id i Hi) as [Hni _]. cbn in Hj. by injection Hj as ? _. }
  rewrite Hpre, bind_Ok_l. by destruct v.
Qed.

(** ** The theorems at work *)
Lemma updates_never_go_back_witness :
  check_anti_rollback (bytes "v1.10.0") (bytes "v1.9.0-rc.2") false = Ok tt ∧
  check_anti_rollback (bytes "1.9.0-rc.1") (bytes "v1.9.0-rc.2") false =
    Err (DowngradeRefused (bytes "1.9.0-rc.1") (bytes "v1.9.0-rc.2")).
Proof.
  split.
  - eapply (updates_never_go_back (bytes "v1.10.0") (bytes "v1.9.0-rc.2") false); [vm_compute; reflexivity|].
    apply (rtc_l _ _ (bytes "v1.9.0")); [|apply rtc_once]; vm_compute; reflexivity.
  - apply (updates_never_go_back (bytes "1.9.0-rc.1") (bytes "v1.9.0-rc.2") false). split; [reflexivity|].
    exists (MkVersion 1 9 0 [Alphanumeric (bytes "rc"); Numeric 1]), (MkVersion 1 9 0 [Alphanumeric (bytes "rc"); Numeric 2]).
    split; [vm_compute; reflexivity|]. split; [vm_compute; reflexivity|].
    right. right. right. do 3 (split; [reflexivity|]). right. do 2 (split; [discriminate|]).
    exists [Alphanumeric (bytes "rc")]. right. exists (Numeric 1), (Numeric 2), [], []. do 2 (split; [reflexivity|]). cbn. lia.
Defined.
Lemma version_roundtrip_witness : let v := MkVersion 1 9 0 [Alphanumeric (bytes "rc"); Numeric 2] in parse_version (Version_display v) = Ok v.
Proof. apply version_roundtrip. split_and!; cbn; unfold in_u64, u64_max; [lia..|]. repeat constructor; cbn; (done || lia). Defined.
