(* ===== verification/NodeState.v ===== *)
(** * NodeState: the node's durable admission state ([crates/ward-node/src/state.rs])

    The state directory is the content of its four files; [NodeState] is the view in memory
    together with that directory.  [serde_json] is a codec with its round-trip law.  A write
    either completes or fails, and a failed one may or may not have reached the disk (the
    rename can land before the directory is synced), which is the [landed] of an outcome.
    The theorems say what a restart recovers after any sequence of operations and failures. *)

From stdpp Require Import base numbers option gmap sorting strings vector list.
From S2P Require Import Prelude Bytes Ids Authority Revocation Manifest.

Local Open Scope Z_scope.

(** ** The codec of the state files *)
Class Codec (A : Type) := { to_vec : A → list byte; from_slice : list byte → option A }.
Class CodecLaws (A : Type) `{Codec A} :=
  from_to_vec (a : A) : from_slice (to_vec a) = Some a.

Definition STATE_FORMAT : Z := 1.
Definition MAX_STATE_FILE_BYTES : Z := 8 * 1024 * 1024.
Definition MAX_RETIRED_ATTEMPTS_PER_TASK : Z := 256.
Definition MAX_RETIRED_ATTEMPTS : Z := 65536.

Abbreviation Versions := (gmap TaskId Z).
Abbreviation Retired := (gmap TaskId (gset ExecutionAttemptId)).

Record VersionsFile := MkVersionsFile { vf_format : Z; vf_versions : Versions }.
Record RevocationsFile := MkRevocationsFile { rf_format : Z; rf_revocations : list AuthorityRevocation }.
Record RetiredAttemptsFile := MkRetiredFile { ra_format : Z; ra_attempts : Retired }.

Inductive StateFile : Set :=
  NODE_ID_FILE | ADMISSION_VERSIONS_FILE | REVOCATIONS_FILE | RETIRED_ATTEMPTS_FILE.
#[export] Instance StateFile_eq_dec : EqDecision StateFile.
Proof. solve_decision. Defined.

Inductive NodeStateError : Set :=
| StateIo | NotADirectory | InsecureDirectory | NodeIdMismatch (recorded : NodeId)
| InvalidFile (name : StateFile) | NonIncreasingVersion | StateRevocationConflict
| StoreFull (name : StateFile).
#[export] Instance NodeStateError_eq_dec : EqDecision NodeStateError.
Proof. solve_decision. Defined.

(** ** The directory *)
Inductive PathMeta : Set := PathAbsent | PathPresent (is_dir : bool) (mode : Z).
(** An absent directory is created with mode 0700, and then read back. *)
Definition open_private_dir (path : PathMeta) : result NodeStateError unit :=
  let '(is_dir, mode) :=
    match path with PathAbsent => (true, 448) | PathPresent d m => (d, m) end in
  _ ← fail_if (negb is_dir) NotADirectory;
  fail_if (negb (Z.land mode 63 =? 0)) InsecureDirectory.

Inductive Entry : Type := Missing | NotRegular | Regular (content : list byte).
Definition StateDir : Type := StateFile → Entry.

Definition read_state_file (dir : StateDir) (name : StateFile) :
    result NodeStateError (option (list byte)) :=
  match dir name with
  | Missing => Ok None
  | NotRegular => Err (InvalidFile name)
  | Regular b => if MAX_STATE_FILE_BYTES <? slen b then Err (InvalidFile name) else Ok (Some b)
  end.

(** How a write ends: done, or failed before or after the new content became visible. *)
Inductive Outcome : Set := Written | WriteFailed (landed : bool).

Definition put (dir : StateDir) (name : StateFile) (b : list byte) : StateDir :=
  λ n, if bool_decide (n = name) then Regular b else dir n.

Definition write_atomic (dir : StateDir) (name : StateFile) (b : list byte) (io : Outcome) :
    result NodeStateError unit * StateDir :=
  match io with
  | Written => (Ok tt, put dir name b)
  | WriteFailed landed => (Err StateIo, if landed then put dir name b else dir)
  end.

Definition write_json {A} `{Codec A} (dir : StateDir) (name : StateFile) (value : A) (io : Outcome) :
    result NodeStateError unit * StateDir :=
  let b := to_vec value in
  if MAX_STATE_FILE_BYTES <? slen b then (Err (StoreFull name), dir)
  else write_atomic dir name b io.

(** ** The state *)
Record NodeState := MkState {
  dir : StateDir;
  node : NodeId;
  versions : Versions;
  revocation_facts : list AuthorityRevocation;
  revocations : AuthorityRevocations;
  retired : Retired;
}.

Definition retired_total (attempts : Retired) : Z :=
  map_fold (λ _ s n, Z.of_nat (size s) + n) 0 attempts.
Definition within_retired_bounds (attempts : Retired) : bool :=
  bool_decide (map_Forall (λ _ s, Z.of_nat (size s) ≤ MAX_RETIRED_ATTEMPTS_PER_TASK) attempts)
  && (retired_total attempts <=? MAX_RETIRED_ATTEMPTS).

Definition node_text (n : NodeId) : list byte := display NodeId_ (Z.of_N n) ++ [chr 10].
Definition parse_node_text (text : list byte) : option NodeId :=
  id ← strip_suffix [chr 10] text;
  match from_str NodeId_ id with Ok v => Some (Z.to_N v) | Err _ => None end.

Section State.
Context `{Codec VersionsFile, Codec RevocationsFile, Codec RetiredAttemptsFile}.

Definition load_versions (d : StateDir) : result NodeStateError Versions :=
  text ← read_state_file d ADMISSION_VERSIONS_FILE;
  match text with
  | None => Ok ∅
  | Some text =>
      match from_slice (A := VersionsFile) text with
      | Some f => if vf_format f =? STATE_FORMAT then Ok (vf_versions f)
                  else Err (InvalidFile ADMISSION_VERSIONS_FILE)
      | None => Err (InvalidFile ADMISSION_VERSIONS_FILE)
      end
  end.

Definition load_facts (d : StateDir) : result NodeStateError (list AuthorityRevocation) :=
  text ← read_state_file d REVOCATIONS_FILE;
  match text with
  | None => Ok []
  | Some text =>
      match from_slice (A := RevocationsFile) text with
      | Some f => if rf_format f =? STATE_FORMAT then Ok (rf_revocations f)
                  else Err (InvalidFile REVOCATIONS_FILE)
      | None => Err (InvalidFile REVOCATIONS_FILE)
      end
  end.

Definition load_retired (d : StateDir) : result NodeStateError Retired :=
  text ← read_state_file d RETIRED_ATTEMPTS_FILE;
  match text with
  | None => Ok ∅
  | Some text =>
      match from_slice (A := RetiredAttemptsFile) text with
      | Some f => if (ra_format f =? STATE_FORMAT) && within_retired_bounds (ra_attempts f)
                  then Ok (ra_attempts f) else Err (InvalidFile RETIRED_ATTEMPTS_FILE)
      | None => Err (InvalidFile RETIRED_ATTEMPTS_FILE)
      end
  end.

(** [NodeState::open]; the node id is pinned at the first start. *)
Definition open (path : PathMeta) (d : StateDir) (n : NodeId) (io : Outcome) :
    result NodeStateError NodeState :=
  _ ← open_private_dir path;
  text ← read_state_file d NODE_ID_FILE;
  d ← match text with
      | Some text =>
          recorded ← ok_or (parse_node_text text) (InvalidFile NODE_ID_FILE);
          _ ← fail_if (bool_decide (recorded ≠ n)) (NodeIdMismatch recorded); Ok d
      | None =>
          let '(r, d') := write_atomic d NODE_ID_FILE (node_text n) io in _ ← r; Ok d'
      end;
  vs ← load_versions d;
  facts ← load_facts d;
  rs ← load_retired d;
  Ok (MkState d n vs facts (foldl (λ m f, (record m f).2) ∅ facts) rs).

Definition last_admitted_version (s : NodeState) (task : TaskId) : option Z := versions s !! task.

Definition record_admitted_version (s : NodeState) (task : TaskId) (version : Z) (io : Outcome) :
    result NodeStateError unit * NodeState :=
  if match versions s !! task with Some last => version <=? last | None => false end
  then (Err NonIncreasingVersion, s)
  else
    let vs := <[task := version]> (versions s) in
    let '(r, d) := write_json (dir s) ADMISSION_VERSIONS_FILE (MkVersionsFile STATE_FORMAT vs) io in
    match r with
    | Err e => (Err e, MkState d (node s) (versions s) (revocation_facts s) (revocations s) (retired s))
    | Ok _ => (Ok tt, MkState d (node s) vs (revocation_facts s) (revocations s) (retired s))
    end.

(** [NodeState::revocation]: the last fact recorded for the lease. *)
Definition revocation (s : NodeState) (lease : LeaseId) : option AuthorityRevocation :=
  List.find (λ f, bool_decide (r_lease_id f = lease)) (reverse (revocation_facts s)).

Definition record_revocation (s : NodeState) (fact : AuthorityRevocation) (io : Outcome) :
    result NodeStateError unit * NodeState :=
  if bool_decide (fact ∈ revocation_facts s) then (Ok tt, s)
  else
    let facts := revocation_facts s ++ [fact] in
    let '(r, d) := write_json (dir s) REVOCATIONS_FILE (MkRevocationsFile STATE_FORMAT facts) io in
    match r with
    | Err e => (Err e, MkState d (node s) (versions s) (revocation_facts s) (revocations s) (retired s))
    | Ok _ =>
        let '(recorded, revs) := record (revocations s) fact in
        (map_err (λ _, StateRevocationConflict) recorded,
         MkState d (node s) (versions s) facts revs (retired s))
    end.

Definition is_retired_attempt (s : NodeState) (task : TaskId) (attempt : ExecutionAttemptId) : bool :=
  match retired s !! task with Some rs => bool_decide (attempt ∈ rs) | None => false end.

Definition retire_attempt (s : NodeState) (task : TaskId) (attempt : ExecutionAttemptId)
    (io : Outcome) : result NodeStateError unit * NodeState :=
  if is_retired_attempt s task attempt then (Ok tt, s)
  else
    let attempts := <[task := default ∅ (retired s !! task) ∪ {[attempt]}]> (retired s) in
    if negb (within_retired_bounds attempts) then (Err (StoreFull RETIRED_ATTEMPTS_FILE), s)
    else
      let '(r, d) := write_json (dir s) RETIRED_ATTEMPTS_FILE (MkRetiredFile STATE_FORMAT attempts) io in
      match r with
      | Err e => (Err e, MkState d (node s) (versions s) (revocation_facts s) (revocations s) (retired s))
      | Ok _ => (Ok tt, MkState d (node s) (versions s) (revocation_facts s) (revocations s) attempts)
      end.
End State.

(** ** What a restart recovers *)
Section Restart.
Context `{CodecLaws VersionsFile, CodecLaws RevocationsFile, CodecLaws RetiredAttemptsFile}.

Inductive StateOp : Type :=
| OpVersion (task : TaskId) (version : Z) (io : Outcome)
| OpRevocation (fact : AuthorityRevocation) (io : Outcome)
| OpRetire (task : TaskId) (attempt : ExecutionAttemptId) (io : Outcome).

Definition run_op (s : NodeState) (op : StateOp) : NodeState :=
  match op with
  | OpVersion task version io => (record_admitted_version s task version io).2
  | OpRevocation fact io => (record_revocation s fact io).2
  | OpRetire task attempt io => (retire_attempt s task attempt io).2
  end.

Definition op_outcome (op : StateOp) : Outcome :=
  match op with OpVersion _ _ io | OpRevocation _ io | OpRetire _ _ io => io end.

(** [s'] refuses at least what [s] refuses: no accepted version, revocation fact or retired
    attempt of [s] is unknown to it. *)
Record remembers (s s' : NodeState) : Prop := {
  rem_node : node s' = node s;
  rem_versions : ∀ t v, versions s !! t = Some v → ∃ v', versions s' !! t = Some v' ∧ v ≤ v';
  rem_facts : revocation_facts s `prefix_of` revocation_facts s';
  rem_retired : ∀ t a, is_retired_attempt s t a = true → is_retired_attempt s' t a = true;
}.

(** The directory holds at least what memory does, and a restart reads it. *)
Record backed (s : NodeState) : Prop := {
  bk_node : ∃ text, read_state_file (dir s) NODE_ID_FILE = Ok (Some text) ∧
                    parse_node_text text = Some (node s);
  bk_versions : ∃ vs, load_versions (dir s) = Ok vs ∧
    ∀ t v, versions s !! t = Some v → ∃ v', vs !! t = Some v' ∧ v ≤ v';
  bk_facts : ∃ fs, load_facts (dir s) = Ok fs ∧ revocation_facts s `prefix_of` fs;
  bk_retired : ∃ rs, load_retired (dir s) = Ok rs ∧
    ∀ t a, is_retired_attempt s t a = true →
      is_retired_attempt (MkState (dir s) (node s) ∅ [] ∅ rs) t a = true;
  bk_revocations : revocations s = record_all ∅ (revocation_facts s);
}.

Lemma read_put d name b n :
  slen b ≤ MAX_STATE_FILE_BYTES →
  read_state_file (put d name b) n
  = if bool_decide (n = name) then Ok (Some b) else read_state_file d n.
Proof.
  intros Hb. unfold read_state_file, put. case_bool_decide; [|done].
  by rewrite (proj2 (Z.ltb_ge _ _) Hb).
Qed.

(** The three ways a guarded write ends. *)
Lemma write_json_cases {A} `{Codec A} d name (a : A) io :
  (write_json d name a io).2 = d ∨
  (slen (to_vec a) ≤ MAX_STATE_FILE_BYTES ∧ (write_json d name a io).2 = put d name (to_vec a)).
Proof.
  unfold write_json. destruct (Z.ltb_spec MAX_STATE_FILE_BYTES (slen (to_vec a))); [by left|].
  destruct io as [|[]]; cbn; eauto.
Qed.

Lemma write_json_Ok {A} `{Codec A} d name (a : A) io d' :
  write_json d name a io = (Ok tt, d') →
  slen (to_vec a) ≤ MAX_STATE_FILE_BYTES ∧ d' = put d name (to_vec a).
Proof.
  unfold write_json. destruct (Z.ltb_spec MAX_STATE_FILE_BYTES (slen (to_vec a))); [done|].
  destruct io as [|[]]; cbn; naive_solver.
Qed.

Lemma load_versions_put d name b :
  slen b ≤ MAX_STATE_FILE_BYTES → name ≠ ADMISSION_VERSIONS_FILE →
  load_versions (put d name b) = load_versions d.
Proof. intros Hb Hn. unfold load_versions. by rewrite read_put, bool_decide_eq_false_2 by done. Qed.

Lemma load_facts_put d name b :
  slen b ≤ MAX_STATE_FILE_BYTES → name ≠ REVOCATIONS_FILE → load_facts (put d name b) = load_facts d.
Proof. intros Hb Hn. unfold load_facts. by rewrite read_put, bool_decide_eq_false_2 by done. Qed.

Lemma load_retired_put d name b :
  slen b ≤ MAX_STATE_FILE_BYTES → name ≠ RETIRED_ATTEMPTS_FILE →
  load_retired (put d name b) = load_retired d.
Proof. intros Hb Hn. unfold load_retired. by rewrite read_put, bool_decide_eq_false_2 by done. Qed.

Lemma load_versions_new d vs :
  let b := to_vec (MkVersionsFile STATE_FORMAT vs) in
  slen b ≤ MAX_STATE_FILE_BYTES → load_versions (put d ADMISSION_VERSIONS_FILE b) = Ok vs.
Proof.
  intros b Hb. unfold load_versions. rewrite read_put, bool_decide_eq_true_2, bind_Ok_l by done.
  unfold b. by rewrite from_to_vec.
Qed.

Lemma load_facts_new d fs :
  let b := to_vec (MkRevocationsFile STATE_FORMAT fs) in
  slen b ≤ MAX_STATE_FILE_BYTES → load_facts (put d REVOCATIONS_FILE b) = Ok fs.
Proof.
  intros b Hb. unfold load_facts. rewrite read_put, bool_decide_eq_true_2, bind_Ok_l by done.
  unfold b. by rewrite from_to_vec.
Qed.

Lemma load_retired_new d rs :
  let b := to_vec (MkRetiredFile STATE_FORMAT rs) in
  slen b ≤ MAX_STATE_FILE_BYTES → within_retired_bounds rs = true →
  load_retired (put d RETIRED_ATTEMPTS_FILE b) = Ok rs.
Proof.
  intros b Hb Hw. unfold load_retired. rewrite read_put, bool_decide_eq_true_2, bind_Ok_l by done.
  unfold b. rewrite from_to_vec. cbn. by rewrite Hw.
Qed.

Lemma backed_put_versions s vs mem :
  let b := to_vec (MkVersionsFile STATE_FORMAT vs) in
  backed s → slen b ≤ MAX_STATE_FILE_BYTES →
  (∀ t v, mem !! t = Some v → ∃ v', vs !! t = Some v' ∧ v ≤ v') →
  backed (MkState (put (dir s) ADMISSION_VERSIONS_FILE b) (node s) mem
            (revocation_facts s) (revocations s) (retired s)).
Proof.
  intros b [Hn Hv Hf Hr Hrev] Hb Hle. subst b. split; cbn.
  - by rewrite read_put.
  - exists vs. by rewrite load_versions_new.
  - by rewrite load_facts_put.
  - by rewrite load_retired_put.
  - done.
Qed.

Lemma backed_put_facts s fs mem :
  let b := to_vec (MkRevocationsFile STATE_FORMAT fs) in
  backed s → slen b ≤ MAX_STATE_FILE_BYTES → mem `prefix_of` fs →
  backed (MkState (put (dir s) REVOCATIONS_FILE b) (node s) (versions s) mem
            (record_all ∅ mem) (retired s)).
Proof.
  intros b [Hn Hv Hf Hr Hrev] Hb Hle. subst b. split; cbn.
  - by rewrite read_put.
  - by rewrite load_versions_put.
  - exists fs. by rewrite load_facts_new.
  - by rewrite load_retired_put.
  - done.
Qed.

Lemma backed_put_retired s rs mem :
  let b := to_vec (MkRetiredFile STATE_FORMAT rs) in
  backed s → slen b ≤ MAX_STATE_FILE_BYTES → within_retired_bounds rs = true →
  (∀ t a, is_retired_attempt (MkState (dir s) (node s) ∅ [] ∅ mem) t a = true →
          is_retired_attempt (MkState (dir s) (node s) ∅ [] ∅ rs) t a = true) →
  backed (MkState (put (dir s) RETIRED_ATTEMPTS_FILE b) (node s) (versions s)
            (revocation_facts s) (revocations s) mem).
Proof.
  intros b [Hn Hv Hf Hr Hrev] Hb Hw Hle. subst b. split; cbn.
  - by rewrite read_put.
  - by rewrite load_versions_put.
  - by rewrite load_facts_put.
  - exists rs. by rewrite load_retired_new.
  - done.
Qed.

Lemma record_all_snoc fs f : record_all ∅ (fs ++ [f]) = (record (record_all ∅ fs) f).2.
Proof. unfold record_all. by rewrite foldl_app. Qed.

Lemma backed_dir s d : d = dir s → backed s →
  backed (MkState d (node s) (versions s) (revocation_facts s) (revocations s) (retired s)).
Proof. intros -> ?. by destruct s. Qed.

Lemma backed_record_version s task version io :
  backed s → backed (record_admitted_version s task version io).2.
Proof.
  intros Hb. unfold record_admitted_version.
  destruct (match versions s !! task with Some last => version <=? last | None => false end) eqn:Eg;
    [done|].
  remember (<[task:=version]> (versions s)) as vs eqn:Evs.
  assert (∀ t v, versions s !! t = Some v → ∃ v', vs !! t = Some v' ∧ v ≤ v') as Hle.
  { intros t v Hv. subst. destruct (decide (t = task)) as [->|Ht].
    - rewrite lookup_insert_eq. exists version. split; [done|]. rewrite Hv in Eg. bool_inv. lia.
    - rewrite lookup_insert_ne by done. exists v. split; [done|lia]. }
  destruct (write_json _ _ _ io) as [[[]|e] d] eqn:E; cbn.
  - apply write_json_Ok in E as [Hsz ->]. apply backed_put_versions; [done..|].
    intros t v Hv. exists v. split; [done|lia].
  - destruct (write_json_cases (dir s) ADMISSION_VERSIONS_FILE (MkVersionsFile STATE_FORMAT vs) io)
      as [Hd|[Hsz Hd]]; rewrite E in Hd; cbn in Hd; subst d; [by apply backed_dir|].
    by apply backed_put_versions.
Qed.

Lemma backed_record_revocation s fact io :
  backed s → backed (record_revocation s fact io).2.
Proof.
  intros Hb. unfold record_revocation. case_bool_decide; [done|].
  destruct (write_json _ _ _ io) as [[[]|e] d] eqn:E; cbn.
  - apply write_json_Ok in E as [Hsz ->]. rewrite (bk_revocations _ Hb).
    destruct (record _ fact) as [r revs] eqn:Er. cbn.
    replace revs with (record_all ∅ (revocation_facts s ++ [fact]))
      by (by rewrite record_all_snoc, Er).
    by apply backed_put_facts.
  - destruct (write_json_cases (dir s) REVOCATIONS_FILE
                (MkRevocationsFile STATE_FORMAT (revocation_facts s ++ [fact])) io)
      as [Hd|[Hsz Hd]]; rewrite E in Hd; cbn in Hd; subst d; [by apply backed_dir|].
    rewrite (bk_revocations _ Hb). apply backed_put_facts; [done..|]. by apply prefix_app_r.
Qed.

Lemma backed_retire s task attempt io :
  backed s → backed (retire_attempt s task attempt io).2.
Proof.
  intros Hb. unfold retire_attempt. destruct (is_retired_attempt s task attempt) eqn:Er; [done|].
  remember (<[task:=_]> (retired s)) as rs eqn:Ers.
  destruct (within_retired_bounds rs) eqn:Ew; cbn [negb]; [|done].
  assert (∀ t a, is_retired_attempt (MkState (dir s) (node s) ∅ [] ∅ (retired s)) t a = true →
                 is_retired_attempt (MkState (dir s) (node s) ∅ [] ∅ rs) t a = true) as Hle.
  { intros t a. unfold is_retired_attempt. cbn. subst. destruct (decide (t = task)) as [->|Ht].
    - rewrite lookup_insert_eq. destruct (retired s !! task); [|done]. cbn.
      rewrite !bool_decide_eq_true. set_solver.
    - by rewrite lookup_insert_ne. }
  destruct (write_json _ _ _ io) as [[[]|e] d] eqn:E; cbn.
  - apply write_json_Ok in E as [Hsz ->]. by apply backed_put_retired.
  - destruct (write_json_cases (dir s) RETIRED_ATTEMPTS_FILE (MkRetiredFile STATE_FORMAT rs) io)
      as [Hd|[Hsz Hd]]; rewrite E in Hd; cbn in Hd; subst d; [by apply backed_dir|].
    by apply backed_put_retired.
Qed.

Lemma backed_run s op : backed s → backed (run_op s op).
Proof.
  destruct op; cbn; auto using backed_record_version, backed_record_revocation, backed_retire.
Qed.

Lemma backed_runs s ops : backed s → backed (foldl run_op s ops).
Proof. revert s. induction ops as [|op ops IH]; cbn; auto using backed_run. Qed.

(** Without a failed write the directory holds exactly what memory does. *)
Record exact (s : NodeState) : Prop := {
  ex_versions : load_versions (dir s) = Ok (versions s);
  ex_facts : load_facts (dir s) = Ok (revocation_facts s);
  ex_retired : load_retired (dir s) = Ok (retired s);
}.

Lemma exact_run s op : op_outcome op = Written → exact s → exact (run_op s op).
Proof.
  intros Hio [Hv Hf Hr]. destruct op as [task version io|fact io|task attempt io]; cbn in *; subst io.
  - unfold record_admitted_version. destruct (match versions s !! task with Some last => version <=? last | None => false end); [done|].
    destruct (write_json _ _ _ _) as [[[]|e] d] eqn:E; cbn.
    + apply write_json_Ok in E as [Hsz ->]. split; cbn; [by apply load_versions_new|..].
      * by rewrite load_facts_put.
      * by rewrite load_retired_put.
    + unfold write_json in E. destruct (_ <? _); [|done]. by simplify_eq.
  - unfold record_revocation. case_bool_decide; [done|].
    destruct (write_json _ _ _ _) as [[[]|e] d] eqn:E; cbn.
    + apply write_json_Ok in E as [Hsz ->]. destruct (record _ fact). split; cbn.
      * by rewrite load_versions_put.
      * by apply load_facts_new.
      * by rewrite load_retired_put.
    + unfold write_json in E. destruct (_ <? _); [|done]. by simplify_eq.
  - unfold retire_attempt. destruct (is_retired_attempt _ _ _); [done|].
    destruct (within_retired_bounds _) eqn:Ew; cbn [negb]; [|done].
    destruct (write_json _ _ _ _) as [[[]|e] d] eqn:E; cbn.
    + apply write_json_Ok in E as [Hsz ->]. split; cbn; [..|by apply load_retired_new].
      * by rewrite load_versions_put.
      * by rewrite load_facts_put.
    + unfold write_json in E. destruct (_ <? _); [|done]. by simplify_eq.
Qed.

Lemma run_op_node s op : node (run_op s op) = node s.
Proof.
  destruct op; cbn; unfold record_admitted_version, record_revocation, retire_attempt;
    repeat case_match; done.
Qed.

Lemma run_ops_node s ops : node (foldl run_op s ops) = node s.
Proof. revert s. induction ops as [|op ops IH]; intros s; cbn; [done|]. by rewrite IH, run_op_node. Qed.

Lemma exact_runs s ops :
  Forall (λ op, op_outcome op = Written) ops → exact s → exact (foldl run_op s ops).
Proof. intros Hops. revert s. induction Hops; cbn; auto using exact_run. Qed.

Lemma node_text_roundtrip n : Z.of_N n ≤ u128_max → parse_node_text (node_text n) = Some n.
Proof.
  intros Hn. unfold parse_node_text, node_text.
  rewrite (proj2 (strip_suffix_Some [chr 10] _ (display NodeId_ (Z.of_N n)))) by done.
  change (match from_str NodeId_ (display NodeId_ (Z.of_N n)) with
          | Ok v => Some (Z.to_N v) | Err _ => None end = Some n).
  rewrite from_str_display by lia. by rewrite N2Z.id.
Qed.

Lemma node_text_short n : slen (node_text n) ≤ MAX_STATE_FILE_BYTES.
Proof.
  unfold node_text, display, slen, encode_ulid. rewrite !length_app, encode_digits_length.
  vm_compute. discriminate.
Qed.

Lemma open_Ok path d n io s :
  open path d n io = Ok s → Z.of_N n ≤ u128_max →
  node s = n ∧ exact s ∧ revocations s = record_all ∅ (revocation_facts s) ∧
  ∃ text, read_state_file (dir s) NODE_ID_FILE = Ok (Some text) ∧ parse_node_text text = Some n.
Proof.
  intros Ho Hn. unfold open in Ho. res_inv. cbn. split_and!; [done|by split|done|].
  match goal with H : read_state_file d NODE_ID_FILE = Ok ?t |- _ => destruct t as [text|] end.
  - res_inv. bool_inv. match goal with H : ¬ (_ ≠ n) |- _ => apply dec_stable in H end. subst. eauto.
  - destruct (write_atomic _ _ _ _) as [r d'] eqn:E. res_inv.
    destruct io as [|[]]; cbn in E; simplify_eq. exists (node_text n).
    split; [|by apply node_text_roundtrip].
    by rewrite read_put, bool_decide_eq_true_2 by first [done|apply node_text_short].
Qed.

Lemma open_backed path d n io s :
  open path d n io = Ok s → Z.of_N n ≤ u128_max → backed s.
Proof.
  intros Ho Hn. apply open_Ok in Ho as (Hnode & [Hv Hf Hr] & Hrev & text & Ht & Hp); [|done].
  split; [by rewrite Hnode; eauto| | | |done].
  - exists (versions s). split; [done|]. intros t v ->. exists v. split; [done|lia].
  - by exists (revocation_facts s).
  - by exists (retired s).
Qed.

Lemma backed_reopen s path io :
  backed s → open_private_dir path = Ok tt →
  ∃ s', open path (dir s) (node s) io = Ok s' ∧ remembers s s' ∧
    load_versions (dir s) = Ok (versions s') ∧ load_facts (dir s) = Ok (revocation_facts s') ∧
    load_retired (dir s) = Ok (retired s') ∧ revocations s' = record_all ∅ (revocation_facts s').
Proof.
  intros [(text & Ht & Hp) (vs & Hv & Hvle) (fs & Hf & Hfle) (rs & Hr & Hrle) Hrev] Hd.
  exists (MkState (dir s) (node s) vs fs (record_all ∅ fs) rs). split_and!; try done.
  unfold open. rewrite Hd, bind_Ok_l, Ht, bind_Ok_l, Hp. cbn [ok_or]. rewrite bind_Ok_l.
  rewrite bool_decide_eq_false_2 by (intros Hc; by apply Hc).
  change (fail_if false (NodeIdMismatch (node s))) with (Ok (E := NodeStateError) tt).
  by rewrite !bind_Ok_l, Hv, bind_Ok_l, Hf, bind_Ok_l, Hr, bind_Ok_l.
Qed.

#[export] Instance remembers_refl : Reflexive remembers.
Proof. intros s. split; [done| |done|done]. intros t v ->. exists v. split; [done|lia]. Qed.

#[export] Instance remembers_trans : Transitive remembers.
Proof.
  intros s1 s2 s3 [Hn Hv Hf Hr] [Hn' Hv' Hf' Hr']. split; [congruence| |by etrans|by auto].
  intros t v (v' & Hv2 & ?)%Hv. apply Hv' in Hv2 as (v'' & ? & ?). exists v''. split; [done|lia].
Qed.

Lemma run_op_remembers s op : remembers s (run_op s op).
Proof.
  destruct op as [task version io|fact io|task attempt io]; cbn.
  - unfold record_admitted_version.
    destruct (match versions s !! task with Some last => version <=? last | None => false end) eqn:Eg;
      [done|].
    destruct (write_json _ _ _ io) as [[[]|e] d]; cbn; split; cbn; try done.
    + intros t v Hv. destruct (decide (t = task)) as [->|Ht].
      * rewrite lookup_insert_eq. exists version. split; [done|]. rewrite Hv in Eg. bool_inv. lia.
      * rewrite lookup_insert_ne by done. exists v. split; [done|lia].
    + intros t v Hv. exists v. split; [done|lia].
  - unfold record_revocation. case_bool_decide; [done|].
    destruct (write_json _ _ _ io) as [[[]|e] d]; cbn; [destruct (record _ fact)|]; split; cbn;
      try done; try (by apply prefix_app_r); intros t v Hv; exists v; (split; [done|lia]).
  - unfold retire_attempt. destruct (is_retired_attempt s task attempt) eqn:Er; [done|].
    destruct (within_retired_bounds _); cbn [negb]; [|done].
    destruct (write_json _ _ _ io) as [[[]|e] d]; cbn; split; cbn; try done;
      try (intros t v Hv; exists v; (split; [done|lia])).
    intros t a. unfold is_retired_attempt. cbn. destruct (decide (t = task)) as [->|Ht].
    + rewrite lookup_insert_eq. destruct (retired s !! task); [|done]. cbn.
      rewrite !bool_decide_eq_true. set_solver.
    + by rewrite lookup_insert_ne.
Qed.

(** Every state the node can be in after [s]: operations and restarts in any order. *)
Inductive later (s : NodeState) : NodeState → Prop :=
| later_now : later s s
| later_op s' op : later s s' → later s (run_op s' op)
| later_restart s' path io s'' :
    later s s' → open path (dir s') (node s') io = Ok s'' → later s s''.

Lemma later_remembers s s' : backed s → later s s' → backed s' ∧ remembers s s'.
Proof.
  intros Hb. induction 1 as [|s' op _ [Hb' IH]|s' path io s'' _ [Hb' IH] Ho]; [done|..].
  - split; [by apply backed_run|]. etrans; [done|]. apply run_op_remembers.
  - assert (open_private_dir path = Ok tt) as Hd.
    { unfold open in Ho. apply bind_Ok in Ho as ([] & ? & _). done. }
    destruct (backed_reopen s' path io Hb' Hd) as (s2 & Ho' & Hrem & Hv & Hf & Hr & Hrev).
    rewrite Ho in Ho'. injection Ho' as <-. split; [|by etrans].
    unfold open in Ho. destruct Hb' as [(text & Ht & Hp) _ _ _ _].
    rewrite Hd, bind_Ok_l, Ht, bind_Ok_l, Hp in Ho. cbn [ok_or] in Ho. res_inv. cbn in *.
    split; cbn; [by eauto|..|done].
    + eexists. split; [done|]. intros t v ->. exists v. split; [done|lia].
    + by eexists.
    + by eexists.
Qed.

Lemma later_unrevoked s s' id t t' :
  backed s → later s s' → t ≤ t' → id_is_unrevoked (revocations s) id t = false →
  id_is_unrevoked (revocations s') id t' = false.
Proof.
  intros Hb Hl Ht. destruct (later_remembers _ _ Hb Hl) as [Hb' Hrem].
  rewrite (bk_revocations _ Hb), (bk_revocations _ Hb').
  destruct (rem_facts _ _ Hrem) as [more ->]. unfold record_all. rewrite foldl_app.
  intros Hun. by eapply record_all_unrevoked.
Qed.

(** A restart forgets nothing: after any sequence of recorded versions, revocations and
    retirements, with any of the writes failing before or after they became visible, the
    directory opens again (no file the node writes is one it cannot read), and the reopened
    state still refuses every version accepted before, every lease revoked before at every
    later instant, and every retired attempt.  When no write failed it is exactly the state
    that was left. *)
Theorem restart_remembers path d n io s ops path' io' :
  Z.of_N n ≤ u128_max → open path d n io = Ok s → open_private_dir path' = Ok tt →
  let s1 := foldl run_op s ops in
  ∃ s2, open path' (dir s1) n io' = Ok s2 ∧ remembers s1 s2 ∧
    (∀ id t t', t ≤ t' → id_is_unrevoked (revocations s1) id t = false →
       id_is_unrevoked (revocations s2) id t' = false) ∧
    (Forall (λ op, op_outcome op = Written) ops →
       versions s2 = versions s1 ∧ revocation_facts s2 = revocation_facts s1 ∧
       retired s2 = retired s1 ∧ revocations s2 = revocations s1).
Proof.
  intros Hn Ho Hd s1. pose proof (open_backed _ _ _ _ _ Ho Hn) as Hb.
  pose proof (backed_runs _ ops Hb) as Hb1. fold s1 in Hb1.
  apply open_Ok in Ho as (Hnode & Hex & _); [|done].
  assert (node s1 = n) as Hn1 by (subst s1; by rewrite run_ops_node).
  destruct (backed_reopen s1 path' io' Hb1 Hd) as (s2 & Hs2 & Hrem & Hv & Hf & Hr & Hrev).
  rewrite Hn1 in Hs2. exists s2. split_and!; [done|done| |].
  - intros id t t' Ht. rewrite Hrev, (bk_revocations _ Hb1).
    destruct (rem_facts _ _ Hrem) as [more ->]. unfold record_all. rewrite foldl_app.
    intros Hun. by eapply record_all_unrevoked.
  - intros Hops. destruct (exact_runs _ _ Hops Hex) as [Ev Ef Er]. fold s1 in Ev, Ef, Er.
    rewrite Hv in Ev. rewrite Hf in Ef. rewrite Hr in Er. simplify_eq.
    split_and!; [congruence..|]. rewrite Hrev, (bk_revocations _ Hb1). congruence.
Qed.
End Restart.

(** ** A concrete codec, from an enumeration of the values *)
Fixpoint bits_of (p : positive) : list byte :=
  match p with xH => [] | xO p => chr 0 :: bits_of p | xI p => chr 1 :: bits_of p end.
Fixpoint of_bits (l : list byte) : positive :=
  match l with [] => xH | b :: l => if bool_decide (b = chr 0) then xO (of_bits l) else xI (of_bits l) end.

Lemma of_bits_of p : of_bits (bits_of p) = p.
Proof.
  induction p as [p IH|p IH|]; cbn [bits_of of_bits]; [| |done].
  - by rewrite bool_decide_eq_false_2, IH.
  - by rewrite bool_decide_eq_true_2, IH.
Qed.

Definition countable_codec (A : Type) `{Countable A} : Codec A :=
  {| to_vec a := bits_of (encode a); from_slice b := decode (of_bits b) |}.

Lemma countable_codec_laws A `{Countable A} : @CodecLaws A (countable_codec A).
Proof. intros a. cbn. by rewrite of_bits_of, decode_encode. Qed.

Module StateExample.
#[export] Instance RevocationReason_countable : Countable RevocationReason.
Proof.
  apply (inj_countable (λ r, match r with Operator => 0 | ByPolicy => 1 | DelegationRevoked => 2
                                        | Security => 3 end)
           (λ z, Some (if z =? 0 then Operator else if z =? 1 then ByPolicy
                       else if z =? 2 then DelegationRevoked else Security))).
  by intros [].
Defined.
#[export] Instance AuthorityRevocation_countable : Countable AuthorityRevocation.
Proof.
  apply (inj_countable' (λ f, (r_lease_id f, r_revoked_at f, r_reason f))
           (λ '(l, t, r), MkRevocation l t r)).
  by intros [].
Defined.
#[export] Instance VersionsFile_eq : EqDecision VersionsFile.
Proof. solve_decision. Defined.
#[export] Instance VersionsFile_countable : Countable VersionsFile.
Proof.
  apply (inj_countable' (λ f, (vf_format f, vf_versions f)) (λ '(a, b), MkVersionsFile a b)).
  by intros [].
Defined.
#[export] Instance RevocationsFile_eq : EqDecision RevocationsFile.
Proof. solve_decision. Defined.
#[export] Instance RevocationsFile_countable : Countable RevocationsFile.
Proof.
  apply (inj_countable' (λ f, (rf_format f, rf_revocations f)) (λ '(a, b), MkRevocationsFile a b)).
  by intros [].
Defined.
#[export] Instance RetiredFile_eq : EqDecision RetiredAttemptsFile.
Proof. solve_decision. Defined.
#[export] Instance RetiredFile_countable : Countable RetiredAttemptsFile.
Proof.
  apply (inj_countable' (λ f, (ra_format f, ra_attempts f)) (λ '(a, b), MkRetiredFile a b)).
  by intros [].
Defined.
#[export] Instance versions_codec : Codec VersionsFile := countable_codec VersionsFile.
#[export] Instance versions_laws : CodecLaws VersionsFile := countable_codec_laws VersionsFile.
#[export] Instance revocations_codec : Codec RevocationsFile := countable_codec RevocationsFile.
#[export] Instance revocations_laws : CodecLaws RevocationsFile := countable_codec_laws RevocationsFile.
#[export] Instance retired_codec : Codec RetiredAttemptsFile := countable_codec RetiredAttemptsFile.
#[export] Instance retired_laws : CodecLaws RetiredAttemptsFile := countable_codec_laws RetiredAttemptsFile.

Definition empty_dir : StateDir := λ _, Missing.
Definition state0 : NodeState :=
  MkState (put empty_dir NODE_ID_FILE (node_text 90)) 90 ∅ [] ∅ ∅.
Definition ops : list StateOp :=
  [OpVersion 5 3 Written; OpVersion 5 9 (WriteFailed true);
   OpRevocation (MkRevocation 2 2600 Operator) Written; OpRetire 5 1 Written].
End StateExample.
Import StateExample.

Lemma state0_backed : backed state0.
Proof. apply (open_backed PathAbsent empty_dir 90 Written); [reflexivity|vm_compute; discriminate]. Qed.

Lemma restart_remembers_witness :
  ∃ s2, open (PathPresent true 448) (dir (foldl run_op state0 ops)) 90 Written = Ok s2 ∧
    (∃ v, versions s2 !! 5%N = Some v ∧ 3 ≤ v) ∧ is_retired_attempt s2 5 1 = true ∧
    id_is_unrevoked (revocations s2) 2 9000 = false.
Proof.
  destruct (restart_remembers PathAbsent empty_dir 90 Written state0 ops (PathPresent true 448)
              Written) as (s2 & Ho & Hrem & Hrev & _); [vm_compute; discriminate|reflexivity|reflexivity|].
  exists s2. split_and!; [done|..].
  - apply (rem_versions _ _ Hrem). vm_compute. reflexivity.
  - apply (rem_retired _ _ Hrem). vm_compute. reflexivity.
  - apply (Hrev 2%N 2600); [lia|]. vm_compute. reflexivity.
Defined.
