(* ===== verification/Admission.v ===== *)
(** * Admission: who may run what on a node

    The trust store of issuer keys ([crates/ward-node/src/issuer.rs]), the placement of an
    attempt on a backend ([capsule.rs]), the binding of trusted authority to an attempt
    ([admission.rs]) and the checks of an [admit] request with its commit and the
    revocation of a lease ([admit.rs]).  Ed25519, BLAKE3, [serde_json] and the adapter
    catalogue are parameters; the clock is an argument. *)

From stdpp Require Import base numbers option gmap sorting strings vector list.
From S2P Require Import Prelude Bytes Ids Authority Revocation Policy Egress Manifest NodeState.

Local Open Scope Z_scope.

(** ** The rejections of the protocol *)
Inductive Reason : Set :=
| TaskNotFound | AttemptMismatch | LeaseMismatch | LeaseExpired | LeaseRevoked | StaleOperation
| InvalidState | AuthorityDenied | UnsupportedGrant | ResourceUnavailable | CapacityExhausted
| UnsupportedOperation.
#[export] Instance Reason_eq_dec : EqDecision Reason.
Proof. solve_decision. Defined.

(** ** Trusted issuers *)
Record TrustedIssuer := MkIssuer { ti_key : vec byte 32; ti_principal : PrincipalId }.
Record IssuerProof := MkProof { ip_key_id : Blake3Hash; ip_signature : list byte }.
(** The store is indexed by the bytes of the key id. *)
Abbreviation TrustedIssuers := (gmap (list byte) TrustedIssuer).

Inductive TrustStoreError : Set :=
| MalformedLine (line : Z) | MissingIssuer (line : Z) | KeyIdMismatchAt (line : Z)
| DuplicateKey (line : Z).
Inductive IssuerProofError : Set := UntrustedIssuer | InvalidSignature.

Definition parse_principal (text : list byte) : option PrincipalId :=
  match from_str PrincipalId_ text with Ok v => Some (Z.to_N v) | Err _ => None end.

(** [content.split([' ', '\t']).filter(non-empty)] *)
Definition fields_of (content : list byte) : list (list byte) :=
  List.filter (λ f, negb (bool_decide (f = [])))
    (split_on " "%char ((λ b, if bool_decide (b = chr 9) then " "%char else b) <$> content)).

Definition strip_comment (raw : list byte) : list byte :=
  match split_once "#"%char raw with Some (content, _) => content | None => raw end.

Section Issuers.
Context (blake3 : list byte → Blake3Hash).
Context (ed25519 : list byte → list byte → list byte → bool).

Definition key_id (k : vec byte 32) : Blake3Hash := blake3 k.

Definition TrustedIssuers_new (issuers : list TrustedIssuer) : TrustedIssuers :=
  foldl (λ m i, <[vec_to_list (key_id (ti_key i)) := i]> m) ∅ issuers.

Definition insert_with_id (store : TrustedIssuers) (id : Blake3Hash) (i : TrustedIssuer) :
    option TrustedIssuers :=
  if bool_decide (id ≠ key_id (ti_key i)) then None else Some (<[vec_to_list id := i]> store).

(** The stated key id, if any, and the principal of an entry. *)
Definition entry_rest (line : Z) (rest : list (list byte)) :
    result TrustStoreError (option (list byte) * PrincipalId) :=
  match rest with
  | [] => Err (MissingIssuer line)
  | [last] =>
      match parse_principal last with
      | Some p => Ok (None, p)
      | None => Err (if bool_decide (is_Some (hash_of_hex last)) then MissingIssuer line
                     else MalformedLine line)
      end
  | [id; p] => p ← ok_or (parse_principal p) (MalformedLine line); Ok (Some id, p)
  | _ => Err (MalformedLine line)
  end.

Definition parse_store_line (line : Z) (store : TrustedIssuers) (raw : list byte) :
    result TrustStoreError TrustedIssuers :=
  match fields_of (strip_comment raw) with
  | [] => Ok store
  | key :: rest =>
      key ← ok_or (hash_of_hex key) (MalformedLine line);
      '(stated, principal) ← entry_rest line rest;
      let id := key_id key in
      _ ← match stated with
          | None => Ok tt
          | Some stated =>
              stated ← ok_or (hash_of_hex stated) (MalformedLine line);
              fail_if (bool_decide (stated ≠ id)) (KeyIdMismatchAt line)
          end;
      _ ← fail_if (bool_decide (is_Some (store !! vec_to_list id))) (DuplicateKey line);
      ok_or (insert_with_id store id (MkIssuer key principal)) (KeyIdMismatchAt line)
  end.

Fixpoint parse_store_lines (line : Z) (store : TrustedIssuers) (ls : list (list byte)) :
    result TrustStoreError TrustedIssuers :=
  match ls with
  | [] => Ok store
  | l :: ls => store ← parse_store_line line store l; parse_store_lines (line + 1) store ls
  end.

Definition parse_store (text : list byte) : result TrustStoreError TrustedIssuers :=
  parse_store_lines 1 ∅ (lines text).

Definition issuers_verify (store : TrustedIssuers) (proof : IssuerProof) (signed : list byte) :
    result IssuerProofError PrincipalId :=
  i ← ok_or (store !! vec_to_list (ip_key_id proof)) UntrustedIssuer;
  _ ← fail_if (negb (ed25519 (ti_key i) signed (ip_signature proof))) InvalidSignature;
  Ok (ti_principal i).
End Issuers.

(** ** Placement on a backend *)
Inductive CapsuleOperation : Set :=
  Prepare | Start | Exec | Pause | Resume | Stop | Snapshot | Destroy | Inspect.
#[export] Instance CapsuleOperation_eq_dec : EqDecision CapsuleOperation.
Proof. solve_decision. Defined.

Record CapsuleBackendDescriptor := MkBackend {
  backend : list byte;
  level : IsolationLevel;
  serves_list : list CapsuleOperation;
  honours_resources : bool;
}.
Definition BUBBLEWRAP : CapsuleBackendDescriptor :=
  MkBackend (bytes "bubblewrap") Sandbox [Prepare; Start; Pause; Resume; Stop; Destroy; Inspect] true.
Definition RUNC : CapsuleBackendDescriptor :=
  MkBackend (bytes "runc") Container [Prepare; Start; Pause; Resume; Stop; Destroy; Inspect] false.
Definition RUNC_ROOTLESS : CapsuleBackendDescriptor :=
  MkBackend (bytes "runc") Container [Prepare; Start; Stop; Destroy; Inspect] false.
Definition serves (b : CapsuleBackendDescriptor) (op : CapsuleOperation) : bool :=
  bool_decide (op ∈ serves_list b).

Inductive StrongerPlacement : Set := Refused | Allowed.
Record CapsulePlacement := MkPlacement {
  backends : list CapsuleBackendDescriptor;
  stronger : StrongerPlacement;
}.

(** [Iterator::min_by_key]: the first of the least. *)
Definition min_by_level (l : list CapsuleBackendDescriptor) : option CapsuleBackendDescriptor :=
  foldl (λ acc b, match acc with
                  | None => Some b
                  | Some a => if level_rank (level b) <? level_rank (level a) then Some b else Some a
                  end) None l.

Definition place (p : CapsulePlacement) (floor : IsolationLevel) : option CapsuleBackendDescriptor :=
  let at_level := List.find (λ b, bool_decide (level b = floor)) (backends p) in
  match stronger p with
  | Refused => at_level
  | Allowed =>
      match min_by_level (List.filter (λ b, level_rank floor <? level_rank (level b)) (backends p)) with
      | Some b => Some b
      | None => at_level
      end
  end.

(** ** Authority bound to one attempt ([admission.rs]) *)
Inductive TaskAuthorityError : Set :=
  AuthTaskMismatch | AuthLeaseMismatch | AuthAgentMismatch | AuthorityUnavailable.

Record TaskAdmissionIdentity := MkIdentity {
  id_binding : TaskBinding;
  id_agent : AgentId;
  id_node : NodeId;
  id_session : SessionId;
}.

Definition validate_trusted_task_authority (binding : TaskBinding) (agent : AgentId)
    (lease : AuthorityLease) (lineage : LeaseLineage) (revs : AuthorityRevocations) (now : Z) :
    result TaskAuthorityError unit :=
  _ ← fail_if (bool_decide (l_task lease ≠ tb_task binding)) AuthTaskMismatch;
  _ ← fail_if (bool_decide (l_id lease ≠ tb_lease binding)) AuthLeaseMismatch;
  _ ← fail_if (bool_decide (l_subject lease ≠ agent)) AuthAgentMismatch;
  fail_if (negb (is_usable_with_lineage revs lease lineage now)) AuthorityUnavailable.

Record TrustedTaskAdmission := MkTrusted {
  tt_identity : TaskAdmissionIdentity;
  tt_lease : AuthorityLease;
  tt_lineage : LeaseLineage;
}.
Definition TrustedTaskAdmission_new (identity : TaskAdmissionIdentity) (lease : AuthorityLease)
    (lineage : LeaseLineage) (revs : AuthorityRevocations) (now : Z) :
    result TaskAuthorityError TrustedTaskAdmission :=
  _ ← validate_trusted_task_authority (id_binding identity) (id_agent identity) lease lineage revs now;
  Ok (MkTrusted identity lease lineage).
Definition trusted_revalidate (t : TrustedTaskAdmission) (revs : AuthorityRevocations) (now : Z) :
    result TaskAuthorityError unit :=
  validate_trusted_task_authority (id_binding (tt_identity t)) (id_agent (tt_identity t))
    (tt_lease t) (tt_lineage t) revs now.

(** ** What the node honours *)
Record ResourceEnforcement := MkEnforcement { re_enforces : ResourceCapabilities; re_capacity : NodeCapacity }.
Definition enforcement_honours (r : ResourceEnforcement) (g : ResourceGrant) : bool :=
  enforces (re_enforces r) g && resources_within_ceilings g (re_capacity r).

(** A configured service: the host it is injected into and its ceiling, a [Duration] in
    nanoseconds. *)
Record CredentialService := MkService { sv_host : list byte; sv_max_ttl : Z }.
Abbreviation NodeCredentials := (gmap (list byte) CredentialService).
Definition credential_honours (c : NodeCredentials) (g : CredentialGrant) : bool :=
  match c !! cg_service g with
  | Some s => bool_decide (sv_host s = cg_host g) && (ttl_secs g * 1000000000 <=? sv_max_ttl s)
  | None => false
  end.

Inductive HostedAdapter : Set := ClaudeCode | Codex | Process.
Record AdapterCapabilities := MkAdapters { claude_code : bool; codex : bool; process : bool }.
Definition adapter_id (a : HostedAdapter) : list byte :=
  bytes (match a with ClaudeCode => "claude-code" | Codex => "codex" | Process => "process" end).
Definition adapter_from_id (id : list byte) : option HostedAdapter :=
  List.find (λ a, bool_decide (adapter_id a = id)) [ClaudeCode; Codex; Process].
Definition hosts_adapter (c : AdapterCapabilities) (a : HostedAdapter) : bool :=
  match a with ClaudeCode => claude_code c | Codex => codex c | Process => process c end.
Definition hosts_id (c : AdapterCapabilities) (id : list byte) : bool :=
  match adapter_from_id id with Some a => hosts_adapter c a | None => false end.

Record NodeAdmission := MkAdmission {
  issuers : TrustedIssuers;
  state : NodeState;
  network_allowlist : bool;
  output_return : bool;
  resources : option ResourceEnforcement;
  action_channel : bool;
  approval_hold : bool;
  node_credentials : option NodeCredentials;
  agent_adapters : option AdapterCapabilities;
  capsules : option CapsulePlacement;
}.
Definition set_state (a : NodeAdmission) (s : NodeState) : NodeAdmission :=
  MkAdmission (issuers a) s (network_allowlist a) (output_return a) (resources a) (action_channel a)
    (approval_hold a) (node_credentials a) (agent_adapters a) (capsules a).

Record VerifiedAdmission := MkVerified {
  v_envelope : TaskAdmissionEnvelope;
  v_authority : TrustedTaskAdmission;
  v_ancestors : list AuthorityLease;
  v_verified_at : Z;
}.

Definition check_binding (decoded request : TaskBinding) : result Reason unit :=
  _ ← fail_if (bool_decide (tb_task decoded ≠ tb_task request)) AuthorityDenied;
  _ ← fail_if (bool_decide (tb_attempt decoded ≠ tb_attempt request)) AttemptMismatch;
  fail_if (bool_decide (tb_lease decoded ≠ tb_lease request)) LeaseMismatch.

Definition lease_refusal (e : AuthorityLeaseError) : Reason :=
  match e with Expired => LeaseExpired | _ => AuthorityDenied end.

Definition claimed_binding (w : UntrustedAuthorityLease) : DelegationBinding :=
  {| b_lease_id := w_id w; b_delegation_id := w_delegation_id w; b_subject := w_subject w;
     b_task := w_task w; b_version := w_version w |}.

(** The loop of [promote_authority] over the chain below the root; [ancestors] is nearest
    first, the order [reverse] gives it at the end. *)
Fixpoint promote_chain (current : AuthorityLease) (ancestors : list AuthorityLease)
    (chain : list UntrustedAuthorityLease) (now : Z) :
    result Reason (AuthorityLease * list AuthorityLease) :=
  match chain with
  | [] => Ok (current, ancestors)
  | wire :: chain =>
      child ← map_err lease_refusal
                (validate_delegated current wire (claimed_binding wire) now Reject);
      promote_chain child (current :: ancestors) chain now
  end.

Definition promote_authority (e : TaskAdmissionEnvelope) (now : Z) :
    result Reason (AuthorityLease * list AuthorityLease) :=
  let authority := e_authority e in
  match reverse (ta_lineage authority) ++ [ta_lease authority] with
  | [] => Err AuthorityDenied
  | root :: chain =>
      current ← map_err lease_refusal (into_issuer_verified_root root now Reject);
      promote_chain current [] chain now
  end.

Definition check_grants (m : CapabilityManifest) (network_allowlist output_return action_channel : bool) :
    result Reason unit :=
  _ ← match cm_network m with
      | GrantOffline => Ok tt
      | GrantCustom _ => fail_if (negb network_allowlist) UnsupportedGrant
      end;
  _ ← match cm_output m with
      | None => Ok tt
      | Some o => fail_if (negb (output_return && output_within_ceilings o)) UnsupportedGrant
      end;
  match cm_actions m with
  | None => Ok tt
  | Some a => fail_if (negb (action_channel && actions_within_ceilings a)) UnsupportedGrant
  end.

Section Admit.
Context (blake3 : list byte → Blake3Hash).
Context (ed25519 : list byte → list byte → list byte → bool).
Context (parse_manifest : list byte → option CapabilityManifestWire).
Context (parse_envelope : list byte → option TaskAdmissionEnvelopeWire).
(** [catalogue::launch(id, argv).is_ok()] *)
Context (launchable : list byte → list (list byte) → bool).
Context `{Codec VersionsFile, Codec RevocationsFile, Codec RetiredAttemptsFile}.

Definition adapters_honours (hosted : option AdapterCapabilities) (w : TaskWorkload) : bool :=
  match tw_adapter w with
  | None => true
  | Some id =>
      match hosted with Some h => hosts_id h id | None => false end && launchable id (tw_argv w)
  end.

(** Check 10 of [verify], after [check_grants]. *)
Definition check_honoured (a : NodeAdmission) (w : TaskWorkload) : result Reason unit :=
  let m := cmb_manifest (tw_manifest w) in
  _ ← check_grants m (network_allowlist a) (output_return a) (action_channel a);
  _ ← match cm_resources m with
      | None => Ok tt
      | Some g =>
          fail_if (negb (match resources a with Some r => enforcement_honours r g | None => false end))
            UnsupportedGrant
      end;
  _ ← match cm_credentials m with
      | None => Ok tt
      | Some grants =>
          fail_if (negb (network_allowlist a
                         && match node_credentials a with
                            | Some c => forallb (credential_honours c) grants
                            | None => false end)) UnsupportedGrant
      end;
  _ ← fail_if (match cm_hold m with Some _ => negb (approval_hold a) | None => false end) UnsupportedGrant;
  _ ← fail_if (negb (adapters_honours (agent_adapters a) w)) UnsupportedGrant;
  let placed :=
    match capsules a with
    | Some c =>
        match place c (minimum_isolation m) with
        | Some b => match cm_resources m with None => true | Some _ => honours_resources b end
        | None => false
        end
    | None => match cm_isolation m with None => true | Some _ => false end
    end in
  fail_if (negb placed) UnsupportedGrant.

Definition authority_reason (e : TaskAuthorityError) : Reason :=
  match e with
  | AuthLeaseMismatch => LeaseMismatch
  | AuthorityUnavailable => LeaseExpired
  | AuthTaskMismatch | AuthAgentMismatch => AuthorityDenied
  end.

Definition admission_verify (a : NodeAdmission) (now : Z) (binding : TaskBinding) (json : list byte)
    (proof : IssuerProof) : result Reason VerifiedAdmission :=
  issuer ← map_err (λ _, AuthorityDenied) (issuers_verify ed25519 (issuers a) proof json);
  e ← map_err (λ _, AuthorityDenied) (decode_json blake3 parse_manifest parse_envelope json);
  let root := default (ta_lease (e_authority e)) (last (ta_lineage (e_authority e))) in
  _ ← fail_if (bool_decide (w_issuer root ≠ issuer)) AuthorityDenied;
  _ ← check_binding (e_binding e) binding;
  _ ← fail_if (bool_decide (e_node e ≠ node (state a))) AuthorityDenied;
  _ ← fail_if (now <? e_issued_at e) AuthorityDenied;
  _ ← fail_if (e_expires_at e <=? now) LeaseExpired;
  _ ← fail_if (match last_admitted_version (state a) (tb_task binding) with
               | Some last => e_version e <=? last | None => false end) StaleOperation;
  '(lease, ancestors) ← promote_authority e now;
  lineage ← map_err (λ _, AuthorityDenied) (for_lease lease ancestors);
  let identity := MkIdentity binding (e_agent e) (e_node e) (e_session e) in
  authority ← map_err authority_reason (TrustedTaskAdmission_new identity lease lineage ∅ now);
  _ ← map_err (λ _, LeaseRevoked) (trusted_revalidate authority (revocations (state a)) now);
  _ ← check_honoured a (e_workload e);
  Ok (MkVerified e authority ancestors now).

(** [NodeAdmission::revalidate], at [start]. *)
Definition admission_revalidate (a : NodeAdmission) (now : Z) (v : VerifiedAdmission) :
    result Reason unit :=
  _ ← fail_if (now <? e_issued_at (v_envelope v)) AuthorityDenied;
  _ ← fail_if (e_expires_at (v_envelope v) <=? now) LeaseExpired;
  _ ← map_err (λ _, LeaseExpired) (trusted_revalidate (v_authority v) ∅ now);
  map_err (λ _, LeaseRevoked) (trusted_revalidate (v_authority v) (revocations (state a)) now).

Definition admission_revoke (a : NodeAdmission) (now : Z) (lease : LeaseId) (io : Outcome) :
    result Reason unit * NodeAdmission :=
  if match revocation (state a) lease with Some f => r_revoked_at f <=? now | None => false end
  then (Ok tt, a)
  else
    let '(r, s) := record_revocation (state a) (MkRevocation lease now Operator) io in
    (match r with
     | Ok _ | Err StateRevocationConflict => Ok tt
     | Err _ => Err ResourceUnavailable
     end, set_state a s).

Definition admission_commit (a : NodeAdmission) (v : VerifiedAdmission) (io : Outcome) :
    result Reason unit * NodeAdmission :=
  let '(r, s) := record_admitted_version (state a) (tb_task (e_binding (v_envelope v)))
                   (e_version (v_envelope v)) io in
  (map_err (λ e, match e with NonIncreasingVersion => StaleOperation | _ => ResourceUnavailable end) r,
   set_state a s).
End Admit.

(** ** Lemmas *)

(** Every key of a parsed trust store is filed under its own id, so a proof that names a key
    id can only be checked against the key with that hash. *)
Definition keys_derived (blake3 : list byte → Blake3Hash) (store : TrustedIssuers) : Prop :=
  map_Forall (λ id i, id = vec_to_list (key_id blake3 (ti_key i))) store.

Lemma parse_store_line_keys blake3 n store raw store' :
  keys_derived blake3 store → parse_store_line blake3 n store raw = Ok store' →
  keys_derived blake3 store'.
Proof.
  intros Hs. unfold parse_store_line. destruct (fields_of _) as [|k rest]; [by intros [= <-]|].
  intros H. apply bind_Ok in H as (key & _ & H). apply bind_Ok in H as ([st p] & _ & H).
  apply bind_Ok in H as (? & _ & H). apply check_Ok in H as [_ H]. apply ok_or_Ok in H.
  unfold insert_with_id in H. case_bool_decide as Hid; [done|]. injection H as <-.
  by apply map_Forall_insert_2.
Qed.

Lemma parse_store_keys blake3 text store :
  parse_store blake3 text = Ok store → keys_derived blake3 store.
Proof.
  unfold parse_store. assert (keys_derived blake3 ∅) as Hs by apply map_Forall_empty. revert Hs.
  generalize (∅ : TrustedIssuers) as st, 1 as n. induction (lines text) as [|l ls IH]; cbn;
    intros st n Hs H; [by simplify_eq|].
  apply bind_Ok in H as (st' & Hl & H). eapply IH; [|exact H]. by eapply parse_store_line_keys.
Qed.

Lemma promote_chain_Ok current ancestors chain now lease ancestors' :
  delegation_chain current ancestors → Forall (λ w, canonical (w_grants w)) chain →
  promote_chain current ancestors chain now = Ok (lease, ancestors') →
  delegation_chain lease ancestors' ∧ l_issuer lease = l_issuer current.
Proof.
  intros Hc Hg. revert current ancestors Hc. induction Hg as [|w chain Hw _ IH]; cbn;
    intros current ancestors Hc H; [by simplify_eq|].
  apply bind_Ok in H as (child & Hd%map_err_Ok & H).
  apply validate_delegated_Ok in Hd as (_ & _ & _ & _ & Hd).
  assert (delegation_chain child (current :: ancestors)) as Hchild.
  { by apply (chain_delegate current ancestors (wire_delegation w) now Reject). }
  apply IH in H as [? ->]; [|done]. split; [done|].
  by apply (nw_issuer _ _ (chain_narrower _ _ Hchild current (list_elem_of_here _ _))).
Qed.

Lemma into_root_Ok w now empty lease :
  into_issuer_verified_root w now empty = Ok lease → canonical (w_grants w) →
  delegation_chain lease [] ∧ l_issuer lease = w_issuer w.
Proof.
  unfold into_issuer_verified_root. destruct (_ || _); [done|]. intros H Hc.
  split; [by eapply chain_root; [|exact H]|]. apply root_Ok in H as (Hi & _).
  by apply (f_equal in_issuer) in Hi.
Qed.

Lemma promote_authority_Ok e now lease ancestors :
  let au := e_authority e in
  Forall (λ w, canonical (w_grants w)) (ta_lease au :: ta_lineage au) →
  promote_authority e now = Ok (lease, ancestors) →
  delegation_chain lease ancestors ∧
  l_issuer lease = w_issuer (default (ta_lease au) (last (ta_lineage au))).
Proof.
  intros au [Hl Hg]%Forall_cons H. unfold promote_authority in H. fold au in H.
  destruct (last (ta_lineage au)) as [r|] eqn:E; cbn [from_option id].
  - apply last_Some in E as [lin E]. rewrite E in *. rewrite reverse_app in H. cbn in H.
    apply Forall_app in Hg as [Hg Hr]. apply Forall_cons in Hr as [Hr _].
    apply bind_Ok in H as (root & Hroot%map_err_Ok & H).
    apply into_root_Ok in Hroot as [Hc <-]; [|done].
    apply promote_chain_Ok in H as [? ->]; [done..|].
    apply Forall_app. split; [by apply Forall_reverse|by constructor].
  - apply last_None in E. rewrite E in *. cbn in H.
    apply bind_Ok in H as (root & Hroot%map_err_Ok & H). apply into_root_Ok in Hroot as [Hc <-]; [|done].
    by simplify_eq.
Qed.

(** The placement rule never goes below the floor. *)
Lemma min_by_level_elem l acc b :
  foldl (λ acc b, match acc with
                  | None => Some b
                  | Some a => if level_rank (level b) <? level_rank (level a) then Some b else Some a
                  end) acc l = Some b → acc = Some b ∨ b ∈ l.
Proof.
  revert acc. induction l as [|x l IH]; cbn; intros acc H; [by left|].
  apply IH in H as [H|H]; [|right; by apply list_elem_of_further].
  destruct acc as [a|]; [destruct (_ <? _)|]; simplify_eq; auto using list_elem_of_here.
Qed.

Lemma place_floor p floor b :
  place p floor = Some b → b ∈ backends p ∧ level_rank floor ≤ level_rank (level b).
Proof.
  unfold place. intros H.
  assert (∀ b, List.find (λ b, bool_decide (level b = floor)) (backends p) = Some b →
               b ∈ backends p ∧ level_rank floor ≤ level_rank (level b)) as Hat.
  { intros b' [Hin ->%bool_decide_eq_true]%find_Some_elem. split; [done|lia]. }
  destruct (stronger p); [by apply Hat|].
  destruct (min_by_level _) as [b'|] eqn:E; [|by apply Hat]. simplify_eq.
  apply min_by_level_elem in E as [|Hin]; [done|].
  apply list_elem_of_In, List.filter_In in Hin as [Hin Hlt]. bool_inv.
  rewrite list_elem_of_In. split; [done|lia].
Qed.

(** What an admitted workload was promised: each of its grants is one this node carries out,
    within the ceilings of the protocol and of the node, and it runs on a backend at least as
    strong as its floor that enforces its limits. *)
Definition limit_enforced (limit : option Z) (enforced : bool) (ceiling : Z) : Prop :=
  ∀ v, limit = Some v → enforced = true ∧ v ≤ ceiling.
Record honoured (launchable : list byte → list (list byte) → bool) (a : NodeAdmission) (w : TaskWorkload)
    (m : CapabilityManifest) : Prop := {
  ho_network : ∀ l, cm_network m = GrantCustom l → network_allowlist a = true;
  ho_output : ∀ o, cm_output m = Some o →
    output_return a = true ∧ stdio_bytes o ≤ MAX_OUTPUT_STDIO_BYTES ∧ files_bytes o ≤ MAX_OUTPUT_FILES_BYTES;
  ho_actions : ∀ g, cm_actions m = Some g →
    action_channel a = true ∧ max_pending g ≤ MAX_ACTION_PENDING ∧ max_total g ≤ MAX_ACTION_TOTAL ∧
    wait_secs g ≤ MAX_ACTION_WAIT_SECS;
  ho_resources : ∀ g, cm_resources m = Some g → ∃ r, resources a = Some r ∧
    limit_enforced (cpu_millis g) (caps_cpu (re_enforces r)) ((logical_cpus (re_capacity r) * 1000) `min` u64_max) ∧
    limit_enforced (grant_memory g) (caps_memory (re_enforces r)) (memory_bytes (re_capacity r)) ∧
    limit_enforced (grant_pids g) (caps_pids (re_enforces r)) MAX_RESOURCE_PIDS;
  ho_credentials : ∀ cs, cm_credentials m = Some cs → network_allowlist a = true ∧
    ∃ c, node_credentials a = Some c ∧ ∀ g, g ∈ cs → ∃ s, c !! cg_service g = Some s ∧
      sv_host s = cg_host g ∧ ttl_secs g * 1000000000 ≤ sv_max_ttl s;
  ho_hold : ∀ h, cm_hold m = Some h → approval_hold a = true;
  ho_adapter : ∀ id, tw_adapter w = Some id → launchable id (tw_argv w) = true ∧
    ∃ h x, agent_adapters a = Some h ∧ adapter_id x = id ∧ hosts_adapter h x = true;
  ho_unplaced : capsules a = None → cm_isolation m = None;
  ho_placed : ∀ c, capsules a = Some c → ∃ b, place c (minimum_isolation m) = Some b ∧ b ∈ backends c ∧
    level_rank (minimum_isolation m) ≤ level_rank (level b) ∧
    (cm_resources m ≠ None → honours_resources b = true);
}.

Lemma limit_enforced_intro limit enforced ceiling :
  (bool_decide (limit = None) || enforced) = true → limit_at_most limit ceiling = true →
  limit_enforced limit enforced ceiling.
Proof. intros H1 H2 v ->. cbn in *. bool_inv. split; [done|lia]. Qed.
Lemma enforcement_honours_Ok r g :
  enforcement_honours r g = true →
  limit_enforced (cpu_millis g) (caps_cpu (re_enforces r)) ((logical_cpus (re_capacity r) * 1000) `min` u64_max) ∧
  limit_enforced (grant_memory g) (caps_memory (re_enforces r)) (memory_bytes (re_capacity r)) ∧
  limit_enforced (grant_pids g) (caps_pids (re_enforces r)) MAX_RESOURCE_PIDS.
Proof.
  unfold enforcement_honours, enforces, resources_within_ceilings.
  rewrite !andb_true_iff. intros [[[H1 H2] H3] [[H4 H5] H6]]. split_and!; by apply limit_enforced_intro.
Qed.
Lemma hosts_id_Ok h id : hosts_id h id = true → ∃ x, adapter_id x = id ∧ hosts_adapter h x = true.
Proof.
  unfold hosts_id, adapter_from_id. destruct (List.find _ _) as [x|] eqn:E; [|done].
  apply List.find_some in E as [_ E]. bool_inv. eauto.
Qed.
Lemma check_honoured_Ok launchable a w u :
  check_honoured launchable a w = Ok u → honoured launchable a w (cmb_manifest (tw_manifest w)).
Proof.
  unfold check_honoured, check_grants. intros H. res_inv.
  remember (cmb_manifest (tw_manifest w)) as m. split.
  - intros l Hl. rewrite Hl in *. res_inv. by bool_inv.
  - intros o Ho. rewrite Ho in *. res_inv. bool_inv. unfold output_within_ceilings in *. by bool_inv.
  - intros g Hg. rewrite Hg in *. res_inv. bool_inv. unfold actions_within_ceilings in *. by bool_inv.
  - intros g Hg. rewrite Hg in *. res_inv. bool_inv. destruct (resources a) as [r|]; [|done].
    exists r. split; [done|]. by apply enforcement_honours_Ok.
  - intros cs Hcs. rewrite Hcs in *. res_inv. bool_inv. split; [done|].
    destruct (node_credentials a) as [c|]; [|done]. exists c. split; [done|]. intros g Hin.
    match goal with H : forallb _ cs = true |- _ =>
      rewrite forallb_Forall, Forall_forall in H; specialize (H g Hin); cbn in H; rename H into Hg end.
    unfold credential_honours in Hg. destruct (c !! cg_service g) as [sv|]; [|done].
    exists sv. bool_inv. done.
  - intros h Hh. rewrite Hh in *. by bool_inv.
  - intros id Hid. unfold adapters_honours in *. rewrite Hid in *. bool_inv. split; [done|].
    destruct (agent_adapters a) as [h|]; [|done].
    match goal with H : hosts_id h id = true |- _ => apply hosts_id_Ok in H as (x & ? & ?) end. by exists h, x.
  - intros Hc. rewrite Hc in *. bool_inv. by destruct (cm_isolation m).
  - intros c Hc. rewrite Hc in *. bool_inv. destruct (place c _) as [b|] eqn:Eb; [|done].
    exists b. split; [done|]. apply place_floor in Eb as [? ?]. split_and!; try done.
    by destruct (cm_resources m).
Qed.

(** A fact in the store takes effect, whatever else was recorded for the lease. *)
Lemma fact_revokes facts f now :
  f ∈ facts → r_revoked_at f ≤ now → id_is_unrevoked (record_all ∅ facts) (r_lease_id f) now = false.
Proof.
  intros Hin Hle. unfold id_is_unrevoked. rewrite record_all_verdict. unfold verdict.
  assert (f ∈ filter (λ g, r_lease_id g = r_lease_id f) facts) as Hf by (by apply list_elem_of_filter).
  destruct (filter _ facts) as [|g rest]; [by apply elem_of_nil in Hf|].
  case_bool_decide as Hall; [|done].
  assert (f = g) as ->; [|by apply Z.ltb_ge].
  apply elem_of_cons in Hf as [->|Hf]; [done|]. by rewrite Forall_forall in Hall; apply Hall.
Qed.

Section AdmitTheorems.
Context (blake3 : list byte → Blake3Hash).
Context (ed25519 : list byte → list byte → list byte → bool).
Context (parse_manifest : list byte → option CapabilityManifestWire).
Context (parse_envelope : list byte → option TaskAdmissionEnvelopeWire).
Context (launchable : list byte → list (list byte) → bool).
Context `{CodecLaws VersionsFile, CodecLaws RevocationsFile, CodecLaws RetiredAttemptsFile}.

Local Abbreviation verify := (admission_verify blake3 ed25519 parse_manifest parse_envelope launchable).

(** What [verify] establishes of an envelope's authority. *)
Record authorised (a : NodeAdmission) (now : Z) (v : VerifiedAdmission) : Prop := {
  au_lease_task : l_task (tt_lease (v_authority v)) = tb_task (e_binding (v_envelope v));
  au_lease_id : l_id (tt_lease (v_authority v)) = tb_lease (e_binding (v_envelope v));
  au_subject : l_subject (tt_lease (v_authority v)) = e_agent (v_envelope v);
  au_chain : delegation_chain (tt_lease (v_authority v)) (v_ancestors v);
  au_lineage : tt_lineage (v_authority v)
               = MkLineage (l_id (tt_lease (v_authority v))) (l_id <$> v_ancestors v);
  au_active : is_active_at (tt_lease (v_authority v)) now = true;
  au_unrevoked : ∀ id, id ∈ l_id (tt_lease (v_authority v)) :: (l_id <$> v_ancestors v) →
    id_is_unrevoked (revocations (state a)) id now = true;
}.

Lemma validate_authority_Ok binding agent lease lineage revs now u :
  validate_trusted_task_authority binding agent lease lineage revs now = Ok u →
  l_task lease = tb_task binding ∧ l_id lease = tb_lease binding ∧ l_subject lease = agent ∧
  is_usable_with_lineage revs lease lineage now = true.
Proof.
  unfold validate_trusted_task_authority. intros Hv. res_inv. bool_inv.
  repeat match goal with H : ¬ _ ≠ _ |- _ => apply dec_stable in H end. done.
Qed.

Lemma check_binding_Ok d r u : check_binding d r = Ok u → d = r.
Proof.
  unfold check_binding. intros Hc. res_inv. bool_inv.
  repeat match goal with H : ¬ _ ≠ _ |- _ => apply dec_stable in H end.
  destruct d, r; cbn in *; congruence.
Qed.

Lemma issuers_verify_Ok store proof signed p :
  issuers_verify ed25519 store proof signed = Ok p →
  ∃ i, store !! vec_to_list (ip_key_id proof) = Some i ∧ ti_principal i = p ∧
    ed25519 (ti_key i) signed (ip_signature proof) = true.
Proof. unfold issuers_verify. intros Hv. res_inv. bool_inv. eauto. Qed.

(** The steps of [verify] that passed, in the order it takes them. *)
Lemma verify_Ok a now binding json proof v :
  verify a now binding json proof = Ok v →
  ∃ issuer, issuers_verify ed25519 (issuers a) proof json = Ok issuer ∧
    decode_json blake3 parse_manifest parse_envelope json = Ok (v_envelope v) ∧
    w_issuer (default (ta_lease (e_authority (v_envelope v)))
                (last (ta_lineage (e_authority (v_envelope v))))) = issuer ∧
    e_binding (v_envelope v) = binding ∧ e_node (v_envelope v) = node (state a) ∧
    e_issued_at (v_envelope v) ≤ now < e_expires_at (v_envelope v) ∧
    (∀ last, versions (state a) !! tb_task binding = Some last → last < e_version (v_envelope v)) ∧
    promote_authority (v_envelope v) now = Ok (tt_lease (v_authority v), v_ancestors v) ∧
    for_lease (tt_lease (v_authority v)) (v_ancestors v) = Ok (tt_lineage (v_authority v)) ∧
    tt_identity (v_authority v)
    = MkIdentity binding (e_agent (v_envelope v)) (e_node (v_envelope v)) (e_session (v_envelope v)) ∧
    trusted_revalidate (v_authority v) (revocations (state a)) now = Ok tt ∧
    check_honoured launchable a (e_workload (v_envelope v)) = Ok tt ∧ v_verified_at v = now.
Proof.
  unfold admission_verify. intros Hv. res_inv.
  repeat match goal with
  | H : map_err _ _ = Ok _ |- _ => apply map_err_Ok in H
  | x : AuthorityLease * list AuthorityLease |- _ => destruct x
  | H : check_binding _ _ = Ok _ |- _ => apply check_binding_Ok in H
  end.
  unfold TrustedTaskAdmission_new in *. res_inv.
  repeat match goal with
  | H : map_err _ _ = Ok _ |- _ => apply map_err_Ok in H
  end.
  unfold TrustedTaskAdmission_new in *. res_inv. bool_inv.
  repeat match goal with H : ¬ _ ≠ _ |- _ => apply dec_stable in H end.
  cbn in *. eexists. split_and?; try done.
  intros last Hlast. unfold last_admitted_version in *.
  match goal with H : match versions _ !! _ with _ => _ end = false |- _ => rewrite Hlast in H end.
  by bool_inv.
Qed.

Lemma verify_authorised a now binding json proof v :
  verify a now binding json proof = Ok v → authorised a now v.
Proof.
  intros (issuer & _ & Hdec & _ & Hb & _ & _ & _ & Hp & Hl & Hid & Hre & _)%verify_Ok.
  apply decode_json_fit in Hdec as (_ & _ & _ & _ & _ & Hcan & _).
  apply promote_authority_Ok in Hp as [Hchain _]; [|done].
  apply for_lease_Ok in Hl as (_ & _ & Hlin).
  unfold trusted_revalidate in Hre. rewrite Hid in Hre. cbn in Hre.
  apply validate_authority_Ok in Hre as (Ht & Hi & Hs & Hu).
  apply is_usable_with_lineage_spec in Hu as (_ & Ha & Hun). rewrite Hlin in Hun. cbn in Hun.
  split; try done; congruence.
Qed.

(** C28. An admission is sound: [verify] returns only an envelope that a key of the trust store
    signed, byte for byte (the key with the id the proof names, when the store was parsed); addressed to this node for exactly the requested task, attempt
    and lease; current at the node's clock and newer than the last one accepted; whose lease
    is derived by delegation from a root the signing key's own principal issued, covers the
    task and the agent, is active, and is not revoked, nor is any ancestor, each of which
    holds every grant of the lease as delegable; and whose every grant (network, output,
    actions, resources, credentials, approval hold, agent adapter) the node is configured to
    carry out, within the protocol's and the node's ceilings, on a backend no weaker than the
    floor it names that enforces the limits it asks for. *)
Theorem admission_sound a now binding json proof v :
  verify a now binding json proof = Ok v →
  let e := v_envelope v in
  (∃ i, issuers a !! vec_to_list (ip_key_id proof) = Some i ∧
     ed25519 (ti_key i) json (ip_signature proof) = true ∧
     l_issuer (tt_lease (v_authority v)) = ti_principal i ∧
     (keys_derived blake3 (issuers a) → ip_key_id proof = key_id blake3 (ti_key i))) ∧
  decode_json blake3 parse_manifest parse_envelope json = Ok e ∧
  e_binding e = binding ∧ e_node e = node (state a) ∧
  e_issued_at e ≤ now < e_expires_at e ∧
  (∀ last, versions (state a) !! tb_task binding = Some last → last < e_version e) ∧
  authorised a now v ∧
  Forall (narrower (tt_lease (v_authority v))) (v_ancestors v) ∧
  honoured launchable a (e_workload e) (cmb_manifest (tw_manifest (e_workload e))).
Proof.
  intros Hv e. pose proof (verify_authorised _ _ _ _ _ _ Hv) as Hau.
  apply verify_Ok in Hv as (issuer & Hi & Hdec & Hroot & Hb & Hn & Ht & Hver & Hp & _ & _ & _ & Hh & _).
  apply issuers_verify_Ok in Hi as (i & Hi & Hpr & Hsig).
  pose proof (decode_json_fit _ _ _ _ _ Hdec) as (_ & _ & _ & _ & _ & Hcan & _).
  apply promote_authority_Ok in Hp as [Hchain Hiss]; [|done].
  apply check_honoured_Ok in Hh. destruct Ht as [Ht Ht']. subst e. split_and?; try done.
  - exists i. split_and!; [done|done|congruence|]. intros Hk.
    apply vec_to_list_inj2. by apply (Hk _ _ Hi).
  - apply Forall_forall. by apply chain_narrower.
Qed.

(** C29. No envelope is admitted twice: once an admission is committed, whatever the node does
    and however often it restarts, only a strictly newer version for the task is admitted;
    a commit that fails changes nothing in memory. *)
Theorem admission_never_replayed a v io a' :
  backed (state a) →
  admission_commit a v io = (Ok tt, a') →
  (∀ a2 now binding json proof v2, later (state a') (state a2) →
     verify a2 now binding json proof = Ok v2 →
     tb_task binding = tb_task (e_binding (v_envelope v)) →
     e_version (v_envelope v) < e_version (v_envelope v2)) ∧
  (∀ io' e a'', admission_commit a v io' = (Err e, a'') → versions (state a'') = versions (state a)).
Proof.
  intros Hb Hc. split.
  - intros a2 now binding json proof v2 Hl Hv Htask. unfold admission_commit in Hc.
    destruct (record_admitted_version _ _ _ io) as [r s] eqn:Er. injection Hc as Hr <-.
    assert (backed s) as Hbs.
    { pose proof (backed_record_version (state a) (tb_task (e_binding (v_envelope v)))
                    (e_version (v_envelope v)) io Hb) as Hbs. by rewrite Er in Hbs. }
    assert (versions s !! tb_task (e_binding (v_envelope v)) = Some (e_version (v_envelope v))) as Hs.
    { apply map_err_Ok in Hr. subst r. revert Er. unfold record_admitted_version.
      destruct (match versions _ !! _ with Some _ => _ | None => _ end); [done|].
      destruct (write_json _ _ _ io) as [[[]|e] d]; intros [= <-]. cbn. by rewrite lookup_insert_eq. }
    cbn in Hl. destruct (later_remembers _ _ Hbs Hl) as [_ Hrem].
    destruct (rem_versions _ _ Hrem _ _ Hs) as (v' & Hv' & Hle).
    apply verify_Ok in Hv as (_ & _ & _ & _ & _ & _ & _ & Hver & _). rewrite Htask in Hver.
    specialize (Hver _ Hv'). lia.
  - intros io' e a'' Hc'. unfold admission_commit, record_admitted_version in Hc'.
    destruct (match versions _ !! _ with Some _ => _ | None => _ end); [by simplify_eq|].
    destruct (write_json _ _ _ io') as [[[]|?] d]; by simplify_eq.
Qed.

Lemma revoke_effective a now lease io a' :
  backed (state a) → admission_revoke a now lease io = (Ok tt, a') →
  backed (state a') ∧ id_is_unrevoked (revocations (state a')) lease now = false.
Proof.
  intros Hb. unfold admission_revoke.
  destruct (match revocation (state a) lease with Some f => _ | None => _ end) eqn:Er.
  - intros [= <-]. split; [done|]. destruct (revocation (state a) lease) as [f|] eqn:Ef; [|done].
    bool_inv. apply find_Some_elem in Ef as [Hin <-%bool_decide_eq_true].
    rewrite elem_of_reverse in Hin. rewrite (bk_revocations _ Hb). by apply fact_revokes.
  - pose proof (backed_record_revocation (state a) (MkRevocation lease now Operator) io Hb) as Hbs.
    destruct (record_revocation _ _ io) as [r s] eqn:Es. cbn in Hbs. intros Hr. injection Hr as Hr <-.
    split; [done|]. cbn [state set_state]. rewrite (bk_revocations _ Hbs).
    apply (fact_revokes _ (MkRevocation lease now Operator)); [|cbn; lia].
    revert Es. unfold record_revocation. case_bool_decide; [by intros [= _ <-]|].
    destruct (write_json _ _ _ io) as [[[]|e] d] eqn:Ew.
    + destruct (record _ _). intros [= _ <-]. cbn. set_solver.
    + intros [= <- _]. revert Ew. unfold write_json, write_atomic.
      destruct (_ <? _); [by intros [= <- _]|]. by destruct io as [|[]]; intros [= <- _].
Qed.

(** A revocation the node confirmed is enforced from then on, across restarts: no envelope
    whose lease is the revoked one or is delegated from it is admitted, and none admitted
    before passes the recheck [start] makes. *)
Theorem revocation_enforced a now lease io a' a2 now' :
  backed (state a) → admission_revoke a now lease io = (Ok tt, a') →
  later (state a') (state a2) → now ≤ now' →
  (∀ binding json proof v, verify a2 now' binding json proof = Ok v →
     lease ∉ l_id (tt_lease (v_authority v)) :: (l_id <$> v_ancestors v)) ∧
  (∀ v, lease ∈ l_id (tt_lease (v_authority v)) :: ln_ancestors (tt_lineage (v_authority v)) →
     is_ok (admission_revalidate a2 now' v) = false).
Proof.
  intros Hb Hr Hl Hle. apply revoke_effective in Hr as [Hb' Hun]; [|done].
  pose proof (later_unrevoked _ _ _ _ _ Hb' Hl Hle Hun) as Hun'. split.
  - intros binding json proof v Hv Hin. apply verify_authorised in Hv as [_ _ _ _ _ _ Hu].
    specialize (Hu _ Hin). congruence.
  - intros v Hin. destruct (is_ok _) eqn:E; [|done]. apply is_ok_Ok in E as [[] E].
    unfold admission_revalidate in E. res_inv.
    match goal with H : map_err (λ _, LeaseRevoked) _ = Ok _ |- _ => apply map_err_Ok in H; rename H into Hre end.
    unfold trusted_revalidate in Hre. apply validate_authority_Ok in Hre as (_ & _ & _ & Hu).
    apply is_usable_with_lineage_spec in Hu as (_ & _ & Hu). specialize (Hu _ Hin). congruence.
Qed.
End AdmitTheorems.

(** ** A concrete admission *)
Module AdmissionExample.
Export ManifestExample StateExample.
Definition key0 : vec byte 32 := vreplicate 32 (chr 1).
Definition ed (k m s : list byte) : bool := bool_decide (k = key0) && bool_decide (s = bytes "sig").
Definition launch0 (_ : list byte) (_ : list (list byte)) : bool := true.
Definition admission0 : NodeAdmission :=
  MkAdmission (TrustedIssuers_new blake [MkIssuer key0 7]) state0 true true
    (Some (MkEnforcement (MkResourceCaps true true true) (MkCapacity 4 1073741824))) true true
    (Some {[ bytes "artifacts" := MkService (bytes "static.crates.io") 600000000000 ]})
    None (Some (MkPlacement [BUBBLEWRAP; RUNC] Refused)).
Definition binding0 : TaskBinding := MkBinding 5 1 2.
Definition proof0 : IssuerProof := MkProof hash0 (bytes "sig").
Definition verified_at (a : NodeAdmission) (now : Z) : result Reason VerifiedAdmission :=
  admission_verify blake ed parse_m parse_e launch0 a now binding0 (bytes "envelope") proof0.
End AdmissionExample.
Import AdmissionExample.

Lemma admission_sound_witness :
  match verified_at admission0 2500 with
  | Ok v => authorised admission0 2500 v ∧ l_issuer (tt_lease (v_authority v)) = 7%N
  | Err _ => False
  end.
Proof.
  destruct (verified_at admission0 2500) as [v|e] eqn:E; [|vm_compute in E; discriminate E].
  pose proof (admission_sound blake ed parse_m parse_e launch0 _ _ _ _ _ _ E)
    as ((i & Hi & _ & Hiss & _) & _ & _ & _ & _ & _ & Ha & _).
  split; [exact Ha|]. rewrite Hiss. vm_compute in Hi. injection Hi as <-. reflexivity.
Defined.

Lemma admission_never_replayed_witness :
  match verified_at admission0 2500 with
  | Ok v => is_ok (verified_at (admission_commit admission0 v Written).2 2500) = false
  | Err _ => False
  end.
Proof.
  destruct (verified_at admission0 2500) as [v|e] eqn:E; [|vm_compute in E; discriminate E].
  destruct (admission_commit admission0 v Written) as [r a'] eqn:Ec.
  assert (r = Ok tt) as -> by (apply (f_equal fst) in Ec; vm_compute in E; injection E as <-;
    vm_compute in Ec; by rewrite <-Ec).
  destruct (admission_never_replayed blake ed parse_m parse_e launch0 admission0 v Written a'
              state0_backed Ec) as [H _].
  cbn. destruct (verified_at a' 2500) as [v2|] eqn:E2; [|reflexivity].
  specialize (H a' 2500 binding0 (bytes "envelope") proof0 v2 (later_now _) E2).
  apply verify_Ok in E as (_ & _ & Hd & _ & Hb & _), E2 as (_ & _ & Hd2 & _ & _).
  rewrite Hd in Hd2. injection Hd2 as Hd2. rewrite <-Hd2, Hb in H. specialize (H eq_refl). lia.
Defined.

Lemma revocation_enforced_witness :
  is_ok (verified_at (admission_revoke admission0 2400 1 Written).2 2500) = false.
Proof.
  destruct (admission_revoke admission0 2400 1 Written) as [r a'] eqn:Er.
  assert (r = Ok tt) as -> by (apply (f_equal fst) in Er; vm_compute in Er; by rewrite <-Er).
  destruct (revocation_enforced blake ed parse_m parse_e launch0 admission0 2400 1 Written a' a' 2500
              state0_backed Er (later_now _)) as [H _]; [lia|].
  cbn. destruct (verified_at a' 2500) as [v|] eqn:E; [|reflexivity].
  exfalso. apply (H _ _ _ _ E). apply verify_Ok in E as (_ & _ & Hd & _ & _ & _ & _ & _ & Hp & _).
  assert (∃ e, decode_json blake parse_m parse_e (bytes "envelope") = Ok e ∧
            l_id <$> default [] (snd <$> match promote_authority e 2500 with Ok x => Some x | Err _ => None end)
            = [1%N]) as (e & He & Hids) by (eexists; split; vm_compute; reflexivity).
  rewrite He in Hd. injection Hd as ->. rewrite Hp in Hids. cbn in Hids. rewrite Hids. set_solver.
Defined.
