(* ===== verification/Task.v ===== *)
(** * Task: one task of a node and its durable record

    The data of the task registry ([crates/ward-node/src/task.rs], [records.rs],
    [ward-node-protocol/src/lib.rs]): a task's lifecycle state, the operations applied to it,
    its attempt and its receipt; what is written of it and what a restarted node reads back.
    A workspace path is the task and attempt it is named after, and the shared [Arc<Reaped>]
    of an attempt is its number.  The action channel, the leased credentials, the adapter and the
    egress tally of an attempt only add evidence and are not part of the model. *)

From stdpp Require Import base numbers option gmap sorting strings vector list.
From S2P Require Import Prelude Bytes Ids Authority Revocation Manifest NodeState Admission.

Local Open Scope Z_scope.

Abbreviation OperationId := N.
Abbreviation Workspace := (TaskId * ExecutionAttemptId)%type.
(** [TaskRoot::workspace]. *)
Definition workspace_of (b : TaskBinding) : Workspace := (tb_task b, tb_attempt b).

Inductive TaskLifecycleState : Set :=
  Created | Ready | Running | Paused | Stopped | Exited | Revoked | Sealed.
#[export] Instance TaskLifecycleState_eq_dec : EqDecision TaskLifecycleState.
Proof. solve_decision. Defined.

Inductive RecordedState : Set :=
  RecCreated | RecReady | RecLaunching | RecRunning | RecPaused | RecStopped | RecExited
| RecRevoked | RecSealed.
#[export] Instance RecordedState_eq_dec : EqDecision RecordedState.
Proof. solve_decision. Defined.

Definition recorded_of (s : TaskLifecycleState) : RecordedState :=
  match s with
  | Created => RecCreated | Ready => RecReady | Running => RecRunning | Paused => RecPaused
  | Stopped => RecStopped | Exited => RecExited | Revoked => RecRevoked | Sealed => RecSealed
  end.

Inductive TaskExecutionOutcome : Set := Completed | Failed | Unknown.
#[export] Instance TaskExecutionOutcome_eq_dec : EqDecision TaskExecutionOutcome.
Proof. solve_decision. Defined.

Record TaskExecutionReceipt := MkReceipt {
  rc_binding : TaskBinding;
  rc_session : SessionId;
  rc_outcome : TaskExecutionOutcome;
}.

Inductive WorkloadExit : Set := WorkloadExited (code : option Z) | BudgetExceeded | WorkloadStopped | Lost.
#[export] Instance WorkloadExit_eq_dec : EqDecision WorkloadExit.
Proof. solve_decision. Defined.

#[export] Instance IssuerProof_eq_dec : EqDecision IssuerProof.
Proof. solve_decision. Defined.

(** ** What an [admit] leaves *)
Record RecordedLease := MkRecordedLease {
  rl_lease : LeaseId;
  rl_delegation : DelegationId;
  rl_issuer : PrincipalId;
  rl_subject : AgentId;
  rl_parent_lease : option LeaseId;
  rl_delegated_by : option AgentId;
  rl_grants : GrantSet;
  rl_issued_at : Z;
  rl_expires_at : Z;
  rl_version : Z;
}.
Definition recorded_lease (l : AuthorityLease) : RecordedLease :=
  MkRecordedLease (l_id l) (l_delegation_id l) (l_issuer l) (l_subject l) (l_parent l)
    (l_delegated_by l) (l_grants l) (l_issued_at l) (l_expires_at l) (version_get (l_version l)).

Record AuthorityRecord := MkAuthorityRecord {
  ar_lease : RecordedLease;
  ar_lineage : list RecordedLease;
  ar_issued_at : Z;
  ar_expires_at : Z;
  ar_version : Z;
  ar_admitted_at : Z;
}.
Definition AuthorityRecord_of (v : VerifiedAdmission) : AuthorityRecord :=
  MkAuthorityRecord (recorded_lease (tt_lease (v_authority v))) (recorded_lease <$> v_ancestors v)
    (e_issued_at (v_envelope v)) (e_expires_at (v_envelope v)) (e_version (v_envelope v))
    (v_verified_at v).

(** [MAX_ADMISSION_ENVELOPE_BYTES] over the 50 bytes of the shortest grant. *)
Definition MIN_GRANT_WIRE_BYTES : Z := 50.
Definition MAX_RECORDED_GRANTS : Z := MAX_ADMISSION_ENVELOPE_BYTES / MIN_GRANT_WIRE_BYTES.
Definition authority_well_formed (a : AuthorityRecord) : bool :=
  let leases := ar_lease a :: ar_lineage a in
  (slen (ar_lineage a) <=? MAX_ADMISSION_LINEAGE)
  && (foldr (λ l n, slen (rl_grants l) + n) 0 leases <=? MAX_RECORDED_GRANTS)
  && forallb (λ l, bool_decide (is_Some (rl_parent_lease l) ↔ is_Some (rl_delegated_by l))) leases.

Record AdmitRecord := MkAdmit {
  ad_operation : OperationId;
  ad_envelope : Blake3Hash;
  ad_proof : IssuerProof;
  ad_session : SessionId;
  ad_authority : option AuthorityRecord;
}.
Record SealRecord := MkSeal { sl_by : OperationId; sl_order : Z }.
Record AdmittedTask := MkAdmitted {
  at_operation : OperationId;
  at_json : list byte;
  at_proof : IssuerProof;
  at_verified : VerifiedAdmission;
}.
Record CapsuleRecord := MkCapsule { cr_backend : list byte; cr_isolation : IsolationLevel }.
Definition capsule_of (b : CapsuleBackendDescriptor) : CapsuleRecord :=
  MkCapsule (backend b) (level b).
Definition capsule_well_formed (c : CapsuleRecord) : bool :=
  (1 <=? slen (cr_backend c)) && (slen (cr_backend c) <=? 32)
  && forallb (λ b, is_ascii_lowercase b || is_ascii_digit b || bool_decide (b = "-"%char)) (cr_backend c).

(** ** The attempt and the task *)
Record Attempt := MkAttempt {
  a_pid : option Z;
  a_process : option Z;
  a_freezer : bool;
  a_stop : bool;
  a_stop_requested_by : option OperationId;
  a_revoke_requested_by : option OperationId;
  a_reaped : nat;
  a_pausable : bool;
}.

Record NodeTask := MkTask {
  binding : TaskBinding;
  tstate : TaskLifecycleState;
  created_by : OperationId;
  admit_rec : option AdmitRecord;
  admitted : option AdmittedTask;
  started_by : option OperationId;
  workspace : option Workspace;
  attempt : option Attempt;
  stopped_by : option OperationId;
  paused_by : list OperationId;
  resumed_by : list OperationId;
  revoked_by : option OperationId;
  sealed : option SealRecord;
  receipt : option TaskExecutionReceipt;
  usage : option Z;
  capsule : option CapsuleRecord;
}.

Record TaskRecord := MkRecord {
  tr_format : Z;
  tr_binding : TaskBinding;
  tr_state : RecordedState;
  tr_created_by : OperationId;
  tr_admitted : option AdmitRecord;
  tr_started_by : option OperationId;
  tr_stopped_by : option OperationId;
  tr_paused_by : list OperationId;
  tr_resumed_by : list OperationId;
  tr_revoked_by : option OperationId;
  tr_sealed : option SealRecord;
  tr_outcome : option TaskExecutionOutcome;
  tr_workspace : option Workspace;
  tr_process : option Z;
  tr_usage : option Z;
  tr_capsule : option CapsuleRecord;
}.

Definition RECORD_FORMAT : Z := 1.
Definition MAX_ATTEMPT_PAUSES : Z := 128.

Definition is_valid_for (r : TaskRecord) (task : TaskId) : bool :=
  (tr_format r =? RECORD_FORMAT) && bool_decide (tb_task (tr_binding r) = task)
  && (slen (tr_paused_by r) <=? MAX_ATTEMPT_PAUSES)
  && (slen (tr_resumed_by r) <=? slen (tr_paused_by r))
  && bool_decide (is_Some (tr_sealed r) ↔ tr_state r = RecSealed)
  && match tr_admitted r ≫= ad_authority with Some a => authority_well_formed a | None => true end
  && match tr_capsule r with Some c => capsule_well_formed c | None => true end.

(** ** States *)
Definition live (s : TaskLifecycleState) : bool :=
  match s with Running | Paused => true | _ => false end.
Definition finished (s : TaskLifecycleState) : bool :=
  match s with Exited | Stopped | Revoked | Sealed => true | _ => false end.

(** Whether the connection's protocol is 1.3 or later: [supports_task_admission]. *)
Definition visible (v1_3 : bool) (s : TaskLifecycleState) : TaskLifecycleState :=
  match s with Exited => if v1_3 then Exited else Stopped | s => s end.

(** [Iterator::rposition]. *)
Fixpoint rposition (l : list OperationId) (op : OperationId) : option nat :=
  match l with
  | [] => None
  | x :: l =>
      match rposition l op with
      | Some i => Some (S i)
      | None => if bool_decide (x = op) then Some 0%nat else None
      end
  end.
Definition replay (applied : list OperationId) (op : OperationId) (s : TaskLifecycleState) :
    option (result Reason TaskLifecycleState) :=
  position ← rposition applied op;
  Some (if bool_decide (position + 1 = length applied)%nat then Ok s else Err StaleOperation).

Definition matches (t : NodeTask) (b : TaskBinding) : result Reason unit :=
  _ ← fail_if (bool_decide (tb_attempt (binding t) ≠ tb_attempt b)) AttemptMismatch;
  fail_if (bool_decide (tb_lease (binding t) ≠ tb_lease b)) LeaseMismatch.

(** ** Updates *)
Definition NodeTask_new (b : TaskBinding) (op : OperationId) : NodeTask :=
  MkTask b Created op None None None None None None [] [] None None None None None.

Definition set_tstate (t : NodeTask) (s : TaskLifecycleState) : NodeTask :=
  MkTask (binding t) s (created_by t) (admit_rec t) (admitted t) (started_by t) (workspace t)
    (attempt t) (stopped_by t) (paused_by t) (resumed_by t) (revoked_by t) (sealed t) (receipt t)
    (usage t) (capsule t).
Definition set_admit (t : NodeTask) (a : option AdmitRecord) (ad : option AdmittedTask) : NodeTask :=
  MkTask (binding t) (tstate t) (created_by t) a ad (started_by t) (workspace t) (attempt t)
    (stopped_by t) (paused_by t) (resumed_by t) (revoked_by t) (sealed t) (receipt t) (usage t)
    (capsule t).
Definition set_started (t : NodeTask) (op : OperationId) (ws : Workspace) (c : CapsuleRecord)
    (a : Attempt) : NodeTask :=
  MkTask (binding t) (tstate t) (created_by t) (admit_rec t) (admitted t) (Some op) (Some ws)
    (Some a) (stopped_by t) (paused_by t) (resumed_by t) (revoked_by t) (sealed t) (receipt t)
    (usage t) (Some c).
Definition set_attempt (t : NodeTask) (a : option Attempt) : NodeTask :=
  MkTask (binding t) (tstate t) (created_by t) (admit_rec t) (admitted t) (started_by t)
    (workspace t) a (stopped_by t) (paused_by t) (resumed_by t) (revoked_by t) (sealed t)
    (receipt t) (usage t) (capsule t).
Definition set_ops (t : NodeTask) (stopped : option OperationId) (paused resumed : list OperationId)
    (revoked : option OperationId) (seal : option SealRecord) : NodeTask :=
  MkTask (binding t) (tstate t) (created_by t) (admit_rec t) (admitted t) (started_by t)
    (workspace t) (attempt t) stopped paused resumed revoked seal (receipt t) (usage t) (capsule t).
Definition set_usage (t : NodeTask) (u : option Z) : NodeTask :=
  MkTask (binding t) (tstate t) (created_by t) (admit_rec t) (admitted t) (started_by t)
    (workspace t) (attempt t) (stopped_by t) (paused_by t) (resumed_by t) (revoked_by t) (sealed t)
    (receipt t) u (capsule t).

(** [NodeTask::ended] and [finish]. *)
Definition ended (t : NodeTask) (s : TaskLifecycleState) (o : option TaskExecutionOutcome) : NodeTask :=
  MkTask (binding t) s (created_by t) (admit_rec t) (admitted t) (started_by t) (workspace t)
    (attempt t) (stopped_by t) (paused_by t) (resumed_by t) (revoked_by t) (sealed t)
    (o ≫= λ outcome, (λ a, MkReceipt (binding t) (ad_session a) outcome) <$> admit_rec t)
    (usage t) (capsule t).
Definition finish (t : NodeTask) (s : TaskLifecycleState) (o : TaskExecutionOutcome) : NodeTask :=
  ended t s (Some o).

(** ** Records *)
Definition record_of (t : NodeTask) : TaskRecord :=
  MkRecord RECORD_FORMAT (binding t) (recorded_of (tstate t)) (created_by t) (admit_rec t)
    (started_by t) (stopped_by t) (paused_by t) (resumed_by t) (revoked_by t) (sealed t)
    (rc_outcome <$> receipt t) (workspace t) (attempt t ≫= a_process) (usage t) (capsule t).

Definition launching (t : NodeTask) (op : OperationId) (ws : Workspace) (c : CapsuleRecord) :
    TaskRecord :=
  MkRecord RECORD_FORMAT (binding t) RecLaunching (created_by t) (admit_rec t)
    (Some op) (stopped_by t) (paused_by t) (resumed_by t) (revoked_by t) (sealed t)
    (rc_outcome <$> receipt t) (Some ws) (attempt t ≫= a_process) (usage t) (Some c).

(** [NodeTask::recovered], without the survivors it ends. *)
Definition recovered (r : TaskRecord) : NodeTask * bool :=
  let task :=
    MkTask (tr_binding r) Created (tr_created_by r) (tr_admitted r) None (tr_started_by r)
      (tr_workspace r) None (tr_stopped_by r) (tr_paused_by r) (tr_resumed_by r) (tr_revoked_by r)
      (tr_sealed r) None (tr_usage r) (tr_capsule r) in
  let changed := bool_decide (is_Some (tr_process r)) in
  match tr_state r with
  | RecCreated => (task, changed)
  | RecReady => (set_admit task None None, true)
  | RecLaunching | RecRunning | RecPaused => (finish task Exited Unknown, true)
  | RecStopped => (ended task Stopped (tr_outcome r), changed)
  | RecExited => (ended task Exited (tr_outcome r), changed)
  | RecRevoked => (ended task Revoked (tr_outcome r), changed)
  | RecSealed => (ended task Sealed (tr_outcome r), changed)
  end.

(** The survivors [recovered] ends before the task is read: the recorded process, and
    whatever runs over the workspace of an attempt that may be executing. *)
Definition survivors_ended (r : TaskRecord) : option Z * option Workspace :=
  (tr_process r,
   match tr_state r with RecLaunching | RecRunning | RecPaused => tr_workspace r | _ => None end).

(** [NodeTask::pausable] and [freezer]. *)
Definition pausable (t : NodeTask) : bool :=
  match attempt t with Some a => a_pausable a | None => false end.
Definition has_freezer (t : NodeTask) : bool :=
  match attempt t with Some a => negb (a_stop a) && a_freezer a | None => false end.

(** [NodeTask::end_attempt]: the kill is requested, and a paused tree is continued first. *)
Definition end_attempt (t : NodeTask) : option (NodeTask * Attempt) :=
  a ← attempt t;
  let a := MkAttempt (a_pid a) (a_process a) (a_freezer a) true (a_stop_requested_by a)
             (a_revoke_requested_by a) (a_reaped a) (a_pausable a) in
  let t := set_attempt t (Some a) in
  Some (if bool_decide (tstate t = Paused) then set_tstate t Running else t, a).

(** [get_or_insert] on who asked for the stop or the revocation. *)
Definition request_stop_by (t : NodeTask) (op : OperationId) : NodeTask :=
  set_attempt t ((λ a, MkAttempt (a_pid a) (a_process a) (a_freezer a) (a_stop a)
    (Some (default op (a_stop_requested_by a))) (a_revoke_requested_by a) (a_reaped a)
    (a_pausable a)) <$> attempt t).
Definition request_revoke_by (t : NodeTask) (op : OperationId) : NodeTask :=
  set_attempt t ((λ a, MkAttempt (a_pid a) (a_process a) (a_freezer a) (a_stop a)
    (a_stop_requested_by a) (Some (default op (a_revoke_requested_by a))) (a_reaped a)
    (a_pausable a)) <$> attempt t).

Definition revoked_outcome (e : WorkloadExit) : TaskExecutionOutcome :=
  match e with
  | Lost => Unknown
  | WorkloadExited (Some code) => if code =? 0 then Completed else Failed
  | WorkloadStopped | BudgetExceeded | WorkloadExited None => Failed
  end.
Definition exit_state (e : WorkloadExit) (stop_requested : bool) :
    TaskLifecycleState * TaskExecutionOutcome :=
  match e with
  | WorkloadStopped => (Stopped, Failed)
  | Lost => if stop_requested then (Stopped, Unknown) else (Exited, Unknown)
  | WorkloadExited (Some code) => (Exited, if code =? 0 then Completed else Failed)
  | BudgetExceeded | WorkloadExited None => (Exited, Failed)
  end.

(** [NodeTask::finish_attempt]: [None] when [reaped] belongs to another attempt. *)
Definition finish_attempt (t : NodeTask) (e : WorkloadExit) (reaped : nat) : option NodeTask :=
  a ← attempt t;
  if negb (bool_decide (a_reaped a = reaped)) then None
  else
    let process := if bool_decide (e = Lost) then a_process a else None in
    let t := set_attempt t (Some (MkAttempt (a_pid a) process (a_freezer a) (a_stop a)
               (a_stop_requested_by a) (a_revoke_requested_by a) (a_reaped a) (a_pausable a))) in
    match a_revoke_requested_by a with
    | Some by_ =>
        let t := set_ops t (stopped_by t) (paused_by t) (resumed_by t) (Some by_) (sealed t) in
        Some (finish t Revoked (revoked_outcome e))
    | None =>
        let '(s, o) := exit_state e (a_stop a) in
        let t := if bool_decide (s = Stopped)
                 then set_ops t (a_stop_requested_by a) (paused_by t) (resumed_by t) (revoked_by t)
                        (sealed t)
                 else t in
        Some (finish t s o)
    end.

(** ** The records directory ([TaskStore])

    A directory holds one file per task, named by its id, and whatever else lies in it: the
    temporary files of interrupted writes and foreign names. *)
Definition record_name (t : TaskId) : list byte := display TaskId_ (Z.of_N t) ++ bytes ".json".
Definition parse_task (text : list byte) : option TaskId :=
  match from_str TaskId_ text with Ok v => Some (Z.to_N v) | Err _ => None end.
Definition is_interrupted_write (name : list byte) : bool :=
  match temporary ← strip_prefix (bytes ".") name;
        record ← strip_suffix (bytes ".tmp") temporary;
        id ← strip_suffix (bytes ".json") record;
        parse_task id with
  | Some t => bool_decide (name = bytes "." ++ record_name t ++ bytes ".tmp")
  | None => false
  end.
(** The task a file name stands for. *)
Definition record_task (name : list byte) : option TaskId :=
  id ← strip_suffix (bytes ".json") name;
  t ← parse_task id;
  if bool_decide (record_name t = name) then Some t else None.

Record RecordsDir := MkDir { rd_files : gmap TaskId Entry; rd_others : list (list byte) }.

Inductive TaskRecordError : Set :=
| RecIo | InvalidRecord | TooManyRecords (limit : nat) | RecordTooLarge (task : TaskId)
| RecEvidence (task : TaskId) | RecState (e : NodeStateError).

Section Store.
Context `{Codec TaskRecord}.

(** [TaskStore::parse], with [read_bounded]. *)
Definition parse_record (task : TaskId) (e : Entry) : result TaskRecordError TaskRecord :=
  r ← match e with
      | Regular b => if MAX_STATE_FILE_BYTES <? slen b then Err InvalidRecord
                     else ok_or (from_slice b) InvalidRecord
      | Missing | NotRegular => Err InvalidRecord
      end;
  _ ← fail_if (negb (is_valid_for r task)) InvalidRecord;
  Ok r.

Fixpoint load_files (limit : nat) (records : list TaskRecord) (files : list (TaskId * Entry)) :
    result TaskRecordError (list TaskRecord) :=
  match files with
  | [] => Ok records
  | (task, e) :: files =>
      _ ← fail_if (bool_decide (limit ≤ length records)%nat) (TooManyRecords limit);
      r ← parse_record task e;
      load_files limit (records ++ [r]) files
  end.
(** [TaskStore::load]; the order a directory is listed in only decides which error is
    reported. *)
Definition load (d : RecordsDir) (limit : nat) : result TaskRecordError (list TaskRecord) :=
  _ ← fail_if (existsb (λ name, negb (is_interrupted_write name)) (rd_others d)) InvalidRecord;
  load_files limit [] (map_to_list (rd_files d)).

Definition read_record (d : RecordsDir) (task : TaskId) : result TaskRecordError (option TaskRecord) :=
  match rd_files d !! task with
  | None | Some Missing => Ok None
  | Some e => Some <$> parse_record task e
  end.

(** [TaskStore::write]: as the state files, a failed write may have landed. *)
Definition write_record (d : RecordsDir) (r : TaskRecord) (io : Outcome) :
    result TaskRecordError unit * RecordsDir :=
  let task := tb_task (tr_binding r) in
  let b := to_vec r in
  let d' := MkDir (<[task := Regular b]> (rd_files d)) (rd_others d) in
  if MAX_STATE_FILE_BYTES <? slen b then (Err (RecordTooLarge task), d)
  else match io with
       | Written => (Ok tt, d')
       | WriteFailed landed => (Err RecIo, if landed then d' else d)
       end.
Definition remove_record (d : RecordsDir) (task : TaskId) (io : Outcome) :
    result TaskRecordError unit * RecordsDir :=
  let d' := MkDir (delete task (rd_files d)) (rd_others d) in
  match rd_files d !! task, io with
  | None, _ => (Ok tt, d)
  | Some _, Written => (Ok tt, d')
  | Some _, WriteFailed landed => (Err RecIo, if landed then d' else d)
  end.
End Store.
