(* ===== verification/Registry.v ===== *)
(** * Registry: the tasks a node owns and the verbs that drive them

    [crates/ward-node/src/task.rs] with the workspace allocation of [workspace.rs], the
    placement and options of [execution.rs] and the start bound of [scheduling.rs].  Each verb
    is one critical section of the registry's lock, an operation [Op] that threads the
    registry and may stop with a rejection; [stop] and [revoke] are two of them, before and
    after the wait for the reaper.  What the host answers to the calls of one verb (writes,
    freezes, the spawn, the clock) is its [Io].  A spawn, a workspace, a reaped attempt and
    an appended evidence record are facts of the [World], which a restart keeps.  What the
    action channel, the adapter, the leased credentials and the egress proxy of an attempt
    record is not modelled, only whether preparing or recording them succeeds. *)

From stdpp Require Import base numbers option gmap sorting strings vector list.
From S2P Require Import Prelude Bytes Ids Authority Revocation Manifest NodeState Admission Task.

Local Open Scope Z_scope.

(** ** Start bounds ([scheduling.rs]) *)
Definition MAX_NODE_TASKS : Z := 1024.
Record SchedulingLimits := MkLimits {
  max_running : Z;
  memory_floor_bytes : Z;
  disk_floor_bytes : Z;
}.
Definition SchedulingLimits_new (max memory disk : Z) : option SchedulingLimits :=
  if (1 <=? max) && (max <=? MAX_NODE_TASKS) then Some (MkLimits max memory disk) else None.

Definition above (floor : Z) (available : option Z) : result Reason unit :=
  if floor =? 0 then Ok tt
  else match available with
       | None => Err ResourceUnavailable
       | Some a => fail_if (a <? floor) CapacityExhausted
       end.
Definition limits_admit (l : SchedulingLimits) (running : nat) (memory disk : option Z) :
    result Reason unit :=
  _ ← fail_if (max_running l <=? Z.of_nat running) CapacityExhausted;
  _ ← above (memory_floor_bytes l) memory;
  above (disk_floor_bytes l) disk.

(** ** Execution options ([execution.rs]) *)
Record NodeExecution := MkExecution {
  ex_backends : list CapsuleBackendDescriptor;
  ex_stronger : StrongerPlacement;
  ex_network_allowlist : bool;
  ex_output_return : bool;
  ex_scheduling : option SchedulingLimits;
  ex_resources : option ResourceEnforcement;
  ex_action_channel : bool;
  ex_approval_hold : bool;
  ex_credentials : option NodeCredentials;
  ex_adapters : option AdapterCapabilities;
}.
Definition honours_approval_hold (e : NodeExecution) : bool :=
  ex_approval_hold e && ex_action_channel e && ex_network_allowlist e.
Definition execution_credentials (e : NodeExecution) : option NodeCredentials :=
  if ex_network_allowlist e then ex_credentials e else None.
Definition placement (e : NodeExecution) : CapsulePlacement :=
  MkPlacement (ex_backends e) (ex_stronger e).
#[export] Instance CapsuleBackendDescriptor_eq : EqDecision CapsuleBackendDescriptor.
Proof. solve_decision. Defined.
Definition launcher_for (e : NodeExecution) (b : CapsuleBackendDescriptor) :
    option CapsuleBackendDescriptor :=
  List.find (λ b', bool_decide (b' = b)) (ex_backends e).

(** What [recover] tells admission of the execution it serves. *)
Definition configure (a : NodeAdmission) (e : option NodeExecution) : NodeAdmission :=
  let is_some_and (f : NodeExecution → bool) := match e with Some e => f e | None => false end in
  MkAdmission (issuers a) (state a) (is_some_and ex_network_allowlist) (is_some_and ex_output_return)
    (e ≫= ex_resources) (is_some_and ex_action_channel) (is_some_and honours_approval_hold)
    (e ≫= execution_credentials) (e ≫= ex_adapters) (placement <$> e).

(** ** The world and the registry *)
Inductive NodeAttemptEnd : Set :=
| NotStarted | Ambiguous | EndExited (code : option Z) | EndBudgetExceeded | Killed | EndLost
| Unconfirmed.
Inductive NodeEvent : Type :=
| NodeAttemptAdmitted (op : OperationId) (session : SessionId) (envelope : Blake3Hash) (key : Blake3Hash)
    (version : Z)
| NodeAttemptIntervened (resume : bool) (op : OperationId)
| NodeAttemptLaunched (op : OperationId) (pid : Z)
| NodeAttemptResourceUsage (usage : Z)
| NodeAttemptEnded (state : TaskLifecycleState) (outcome : TaskExecutionOutcome) (why : NodeAttemptEnd)
    (op : option OperationId)
| AttemptSealed (op : OperationId) (ended : TaskLifecycleState) (outcome : option TaskExecutionOutcome).

Record World := MkWorld {
  w_reaped : gset nat;
  w_next : nat;
  w_workspaces : gset Workspace;
  w_spawned : list Workspace;
  w_evidence : list (TaskBinding * NodeEvent);
}.

Record Registry := MkRegistry {
  reg_tasks : gmap TaskId NodeTask;
  reg_capacity : nat;
  reg_admission : option NodeAdmission;
  reg_execution : option NodeExecution;
  reg_store : option RecordsDir;
  reg_seals : Z;
  reg_retired : list Attempt;
  reg_world : World;
}.

Inductive Spawn : Set :=
  SpawnOk (pid : Z) (process : option Z) | SpawnRefused | SpawnAmbiguous.

(** What the host answers to the calls of one verb.  The three journal writes are the ones a
    verb makes in order: the change, the one that follows a failure or a spawn, and the last
    one of a launch. *)
Record Io := MkIo {
  io_now : Z;
  io_state : Outcome;
  io_write : Outcome;
  io_rewrite : Outcome;
  io_last : Outcome;
  io_remove : Outcome;
  io_evidence : Outcome;
  io_end_evidence : Outcome;
  io_issued : bool;
  io_bound : bool;
  io_freezer : bool;
  io_memory : option Z;
  io_disk : option Z;
  io_snapshot : bool;
  io_mkdir : bool;
  io_materialise : bool;
  io_discard : bool;
  io_adapter : bool;
  io_actions : bool;
  io_credentials : bool;
  io_spawn : Spawn;
}.

(** ** Operations *)
Definition Op (A : Type) : Type := Registry → result Reason A * Registry.
#[export] Instance op_ret : MRet Op := λ A a r, (Ok a, r).
#[export] Instance op_bind : MBind Op := λ A B f m r,
  match m r with (Ok a, r') => f a r' | (Err e, r') => (Err e, r') end.
Definition lift {A} (x : result Reason A) : Op A := λ r, (x, r).
Definition throw {A} (e : Reason) : Op A := lift (Err e).
Definition check (c : bool) (e : Reason) : Op unit := lift (fail_if c e).
Definition get : Op Registry := λ r, (Ok r, r).
Definition modify (f : Registry → Registry) : Op unit := λ r, (Ok tt, f r).
(** [let _ = m] and [match m]: the failure becomes a value. *)
Definition try {A} (m : Op A) : Op (result Reason A) := λ r, let '(x, r') := m r in (Ok x, r').

Definition set_tasks (r : Registry) (ts : gmap TaskId NodeTask) : Registry :=
  MkRegistry ts (reg_capacity r) (reg_admission r) (reg_execution r) (reg_store r) (reg_seals r)
    (reg_retired r) (reg_world r).
Definition set_admission (r : Registry) (a : option NodeAdmission) : Registry :=
  MkRegistry (reg_tasks r) (reg_capacity r) a (reg_execution r) (reg_store r) (reg_seals r)
    (reg_retired r) (reg_world r).
Definition set_store (r : Registry) (d : RecordsDir) : Registry :=
  MkRegistry (reg_tasks r) (reg_capacity r) (reg_admission r) (reg_execution r) (Some d) (reg_seals r)
    (reg_retired r) (reg_world r).
Definition set_seals (r : Registry) (n : Z) : Registry :=
  MkRegistry (reg_tasks r) (reg_capacity r) (reg_admission r) (reg_execution r) (reg_store r) n
    (reg_retired r) (reg_world r).
Definition set_retired (r : Registry) (l : list Attempt) : Registry :=
  MkRegistry (reg_tasks r) (reg_capacity r) (reg_admission r) (reg_execution r) (reg_store r)
    (reg_seals r) l (reg_world r).
Definition set_world (r : Registry) (w : World) : Registry :=
  MkRegistry (reg_tasks r) (reg_capacity r) (reg_admission r) (reg_execution r) (reg_store r)
    (reg_seals r) (reg_retired r) w.

Definition unreaped (w : World) (a : Attempt) : bool := bool_decide (a_reaped a ∉ w_reaped w).

(** [TaskRegistry::executing]. *)
Definition executing (r : Registry) : nat :=
  length (List.filter (unreaped (reg_world r))
            (omap attempt (map_to_list (reg_tasks r)).*2 ++ reg_retired r)).

Definition put_task (t : NodeTask) : Op unit :=
  modify (λ r, set_tasks r (<[tb_task (binding t) := t]> (reg_tasks r))).

(** [TaskRegistry::retire]. *)
Definition retire (t : NodeTask) (r : Registry) : Registry :=
  let w := reg_world r in
  let kept := List.filter (unreaped w) (reg_retired r) in
  set_retired r
    match attempt t with
    | Some a => if unreaped w a then kept ++ [a] else kept
    | None => kept
    end.

(** The sealed task with the least [(order, id)]. *)
Definition seal_lt (a b : Z * TaskId) : bool :=
  (fst a <? fst b) || ((fst a =? fst b) && (snd a <? snd b)%N).
Definition min_seal (l : list (Z * TaskId)) : option (Z * TaskId) :=
  foldl (λ acc x, match acc with
                  | None => Some x
                  | Some a => if seal_lt x a then Some x else Some a
                  end) None l.
Definition oldest_sealed (ts : gmap TaskId NodeTask) : option TaskId :=
  snd <$> min_seal (omap (λ '(id, t), (λ s, (sl_order s, id)) <$> sealed t) (map_to_list ts)).

(** [ended_event] and [attempt_end]. *)
Definition ended_event (t : NodeTask) (why : NodeAttemptEnd) : NodeEvent :=
  NodeAttemptEnded (tstate t) (match receipt t with Some rc => rc_outcome rc | None => Unknown end) why
    match tstate t with Stopped => stopped_by t | Revoked => revoked_by t | _ => None end.
Definition attempt_end (e : WorkloadExit) : NodeAttemptEnd :=
  match e with
  | WorkloadExited code => EndExited code
  | BudgetExceeded => EndBudgetExceeded
  | WorkloadStopped => Killed
  | Lost => EndLost
  end.

(** [Evidence::append]: a failed append may have landed. *)
Definition append_evidence (b : TaskBinding) (ev : NodeEvent) (io : Outcome) : Op unit := λ r,
  match reg_execution r with
  | None => (Ok tt, r)
  | Some _ =>
      let w := reg_world r in
      let r' := set_world r (MkWorld (w_reaped w) (w_next w) (w_workspaces w) (w_spawned w)
                               (w_evidence w ++ [(b, ev)])) in
      match io with
      | Written => (Ok tt, r')
      | WriteFailed landed => (Err ResourceUnavailable, if landed then r' else r)
      end
  end.

(** [discard]: a removal that fails leaves the workspace. *)
Definition discard (ws : Workspace) (io : Io) : Op unit := modify (λ r,
  let w := reg_world r in
  if io_discard io
  then set_world r (MkWorld (w_reaped w) (w_next w) (w_workspaces w ∖ {[ws]}) (w_spawned w) (w_evidence w))
  else r).

(** [TaskRoot::materialise]. *)
Definition materialise (b : TaskBinding) (io : Io) : Op Workspace :=
  let ws := workspace_of b in
  _ ← check (negb (io_snapshot io)) ResourceUnavailable;
  r ← get;
  let w := reg_world r in
  _ ← check (bool_decide (ws ∈ w_workspaces w)) ResourceUnavailable;
  _ ← check (negb (io_mkdir io)) ResourceUnavailable;
  _ ← modify (λ r, set_world r (MkWorld (w_reaped w) (w_next w) (w_workspaces w ∪ {[ws]}) (w_spawned w)
                                  (w_evidence w)));
  if io_materialise io then mret ws
  else _ ← discard ws io; throw ResourceUnavailable.

(** A preparation that fails discards the workspace. *)
Definition prepared_or_discard (ok : bool) (ws : Workspace) (io : Io) : Op unit :=
  if ok then mret tt else _ ← discard ws io; throw ResourceUnavailable.

Section Verbs.
Context (blake3 : list byte → Blake3Hash).
Context (ed25519 : list byte → list byte → list byte → bool).
Context (parse_manifest : list byte → option CapabilityManifestWire).
Context (parse_envelope : list byte → option TaskAdmissionEnvelopeWire).
Context (launchable : list byte → list (list byte) → bool).
Context `{Codec VersionsFile, Codec RevocationsFile, Codec RetiredAttemptsFile, Codec TaskRecord}.

(** [Journal::write] and [remove]. *)
Definition journal (rec : TaskRecord) (io : Outcome) : Op unit := λ r,
  match reg_store r with
  | None => (Ok tt, r)
  | Some d => let '(res, d') := write_record d rec io in
              (map_err (λ _, ResourceUnavailable) res, set_store r d')
  end.
Definition journal_remove (task : TaskId) (io : Outcome) : Op unit := λ r,
  match reg_store r with
  | None => (Ok tt, r)
  | Some d => let '(res, d') := remove_record d task io in
              (map_err (λ _, ResourceUnavailable) res, set_store r d')
  end.

(** [NodeTask::commit] of the change from [t] to [t']. *)
Definition commit (t t' : NodeTask) (evidence : Op unit) (io : Io) : Op unit :=
  _ ← journal (record_of t') (io_write io);
  res ← try evidence;
  match res with
  | Err e => _ ← try (journal (record_of t) (io_rewrite io)); throw e
  | Ok _ => put_task t'
  end.

Definition evict_oldest_sealed (io : Io) : Op bool :=
  r ← get;
  match oldest_sealed (reg_tasks r) with
  | None => mret false
  | Some oldest =>
      res ← try (journal_remove oldest (io_remove io));
      match res with
      | Err _ => mret false
      | Ok _ =>
          _ ← modify (λ r, match reg_tasks r !! oldest with
                           | Some t => retire t (set_tasks r (delete oldest (reg_tasks r)))
                           | None => r
                           end);
          mret true
      end
  end.

Definition retire_current (b : TaskBinding) (io : Io) : Op unit := λ r,
  match reg_admission r with
  | None => (Err ResourceUnavailable, r)
  | Some a =>
      let '(res, s) := retire_attempt (state a) (tb_task b) (tb_attempt b) (io_state io) in
      (map_err (λ _, ResourceUnavailable) res, set_admission r (Some (set_state a s)))
  end.

Definition create (op : OperationId) (b : TaskBinding) (io : Io) :
    Op (TaskBinding * TaskLifecycleState) :=
  r ← get;
  _ ← check (match reg_admission r with
             | Some a => is_retired_attempt (state a) (tb_task b) (tb_attempt b)
             | None => false end) StaleOperation;
  match reg_tasks r !! tb_task b with
  | Some task =>
      match matches task b with
      | Ok _ =>
          if bool_decide (created_by task = op) then mret (binding task, tstate task)
          else throw InvalidState
      | Err e =>
          if bool_decide (e = AttemptMismatch) && finished (tstate task) then
            _ ← retire_current (binding task) io;
            let t := NodeTask_new b op in
            _ ← journal (record_of t) (io_write io);
            _ ← put_task t;
            _ ← modify (retire task);
            mret (b, Created)
          else throw e
      end
  | None =>
      room ← (if bool_decide (reg_capacity r ≤ size (reg_tasks r))%nat
              then evict_oldest_sealed io else mret true);
      _ ← check (negb room) ResourceUnavailable;
      let t := NodeTask_new b op in
      _ ← journal (record_of t) (io_write io);
      _ ← put_task t;
      mret (b, Created)
  end.

(** The task a binding names, for the verbs that need it to exist under exactly it. *)
Definition bound_task (b : TaskBinding) : Op NodeTask :=
  r ← get;
  task ← lift (ok_or (reg_tasks r !! tb_task b) TaskNotFound);
  _ ← lift (matches task b);
  mret task.

(** What [admit] keeps of a verified admission. *)
Definition ready_of (task : NodeTask) (op : OperationId) (json : list byte) (proof : IssuerProof)
    (v : VerifiedAdmission) : NodeTask :=
  set_tstate (set_admit task
    (Some (MkAdmit op (blake3 json) proof (e_session (v_envelope v)) (Some (AuthorityRecord_of v))))
    (admitted task)) Ready.
Definition commit_admission (v : VerifiedAdmission) (io : Io) : Op unit := λ r,
  match reg_admission r with
  | None => (Err UnsupportedOperation, r)
  | Some a => let '(res, a') := admission_commit a v (io_state io) in
              (res, set_admission r (Some a'))
  end.

Definition admit_task (op : OperationId) (b : TaskBinding) (json : list byte) (proof : IssuerProof)
    (io : Io) : Op TaskLifecycleState :=
  r ← get;
  match reg_admission r with
  | None => throw UnsupportedOperation
  | Some adm =>
      task ← bound_task b;
      if match admit_rec task with
         | Some a => bool_decide (ad_operation a = op ∧ ad_envelope a = blake3 json ∧ ad_proof a = proof)
         | None => false
         end
      then mret (tstate task)
      else
        _ ← check (bool_decide (tstate task ≠ Created)) InvalidState;
        v ← lift (admission_verify blake3 ed25519 parse_manifest parse_envelope launchable adm
                    (io_now io) b json proof);
        let ready := ready_of task op json proof v in
        _ ← journal (record_of ready) (io_write io);
        res ← try (_ ← commit_admission v io;
                   append_evidence b
                     (NodeAttemptAdmitted op (e_session (v_envelope v)) (blake3 json) (ip_key_id proof)
                        (e_version (v_envelope v))) (io_evidence io));
        match res with
        | Err e => _ ← try (journal (record_of task) (io_rewrite io)); throw e
        | Ok _ =>
            let ready := set_admit ready (admit_rec ready) (Some (MkAdmitted op json proof v)) in
            _ ← put_task ready;
            mret (tstate ready)
        end
  end.

(** [TaskRegistry::executing_task]. *)
Definition executing_task (v1_3 : bool) (b : TaskBinding) : Op NodeTask :=
  r ← get;
  _ ← check (negb (bool_decide (is_Some (reg_execution r)) && bool_decide (is_Some (reg_admission r))
                   && v1_3)) UnsupportedOperation;
  bound_task b.

Definition pause (v1_3 : bool) (op : OperationId) (b : TaskBinding) (io : Io) : Op TaskLifecycleState :=
  task ← executing_task v1_3 b;
  match replay (paused_by task) op (tstate task) with
  | Some res => lift res
  | None =>
      _ ← check (bool_decide (tstate task ≠ Running)) InvalidState;
      _ ← check (negb (pausable task)) UnsupportedOperation;
      _ ← check (MAX_ATTEMPT_PAUSES <=? slen (paused_by task)) ResourceUnavailable;
      _ ← check (negb (has_freezer task)) InvalidState;
      _ ← check (negb (io_freezer io)) ResourceUnavailable;
      let t' := set_tstate (set_ops task (stopped_by task) (paused_by task ++ [op]) (resumed_by task)
                              (revoked_by task) (sealed task)) Paused in
      _ ← commit task t' (append_evidence (binding task) (NodeAttemptIntervened false op) (io_evidence io)) io;
      mret (tstate t')
  end.

Definition resume (v1_3 : bool) (op : OperationId) (b : TaskBinding) (io : Io) : Op TaskLifecycleState :=
  task ← executing_task v1_3 b;
  match replay (resumed_by task) op (tstate task) with
  | Some res => lift res
  | None =>
      _ ← check (bool_decide (tstate task ≠ Paused)) InvalidState;
      _ ← check (negb (has_freezer task)) InvalidState;
      _ ← check (negb (io_freezer io)) ResourceUnavailable;
      let t' := set_tstate (set_ops task (stopped_by task) (paused_by task) (resumed_by task ++ [op])
                              (revoked_by task) (sealed task)) Running in
      _ ← commit task t' (append_evidence (binding task) (NodeAttemptIntervened true op) (io_evidence io)) io;
      mret (tstate t')
  end.

Definition seal (v1_3 : bool) (op : OperationId) (b : TaskBinding) (io : Io) : Op TaskLifecycleState :=
  r ← get;
  let order := reg_seals r in
  task ← executing_task v1_3 b;
  if match sealed task with Some s => bool_decide (sl_by s = op) | None => false end
  then mret (tstate task)
  else
    _ ← check (negb (match tstate task with Exited | Stopped | Revoked => true | _ => false end)) InvalidState;
    let t' := set_tstate (set_ops task (stopped_by task) (paused_by task) (resumed_by task)
                            (revoked_by task) (Some (MkSeal op order))) Sealed in
    _ ← commit task t'
          (append_evidence (binding task)
             (AttemptSealed op (tstate task) (rc_outcome <$> receipt task)) (io_evidence io)) io;
    _ ← modify (λ r, set_seals r (saturating_add u64_max order 1));
    mret Sealed.

(** ** [start] *)
Inductive Prepared : Type :=
| Replay (s : TaskLifecycleState)
| Launch (ws : Workspace) (capsule : CapsuleRecord) (pausable : bool).

Definition prepare_start (v1_3 : bool) (op : OperationId) (b : TaskBinding) (io : Io) : Op Prepared :=
  r ← get;
  match reg_execution r, reg_admission r with
  | Some ex, Some adm =>
      _ ← check (negb v1_3) UnsupportedOperation;
      task ← bound_task b;
      if bool_decide (started_by task = Some op) then mret (Replay (tstate task))
      else match admitted task with
      | Some ad =>
          _ ← check (bool_decide (tstate task ≠ Ready)) InvalidState;
          _ ← lift (admission_revalidate adm (io_now io) (at_verified ad));
          let workload := e_workload (v_envelope (at_verified ad)) in
          let manifest := cmb_manifest (tw_manifest workload) in
          capsule ← lift (ok_or (place (placement ex) (minimum_isolation manifest)) UnsupportedGrant);
          _ ← check (negb (match cm_resources manifest with
                           | None => true | Some _ => honours_resources capsule end)) UnsupportedGrant;
          _ ← lift (ok_or (launcher_for ex capsule) UnsupportedGrant);
          _ ← lift (match ex_scheduling ex with
                    | Some limits => limits_admit limits (executing r) (io_memory io) (io_disk io)
                    | None => Ok tt end);
          ws ← materialise b io;
          _ ← prepared_or_discard (match tw_adapter workload with Some _ => io_adapter io | None => true end) ws io;
          _ ← prepared_or_discard (match cm_actions manifest with Some _ => io_actions io | None => true end) ws io;
          _ ← prepared_or_discard
                (match cm_credentials manifest with
                 | Some _ => bool_decide (is_Some (execution_credentials ex)) && io_credentials io
                 | None => true end) ws io;
          mret (Launch ws (capsule_of capsule) (serves capsule Pause))
      | None => throw InvalidState
      end
  | _, _ => throw UnsupportedOperation
  end.

(** The end of a spawn that is not confirmed, or not recorded. *)
Definition ambiguous_end (t : NodeTask) (rewrite : bool) (io : Io) : Op TaskLifecycleState :=
  let t := match attempt t with
           | Some a => set_attempt t (Some (MkAttempt (a_pid a) (a_process a) (a_freezer a) true
                         (a_stop_requested_by a) (a_revoke_requested_by a) (a_reaped a) (a_pausable a)))
           | None => t
           end in
  let t := finish t Exited Unknown in
  _ ← try (if rewrite then journal (record_of t) (io_last io) else mret tt);
  _ ← try (append_evidence (binding t) (ended_event t Ambiguous) (io_end_evidence io));
  _ ← put_task t;
  mret (tstate t).

Definition record_spawn (t : NodeTask) (op : OperationId) (spawned : option Z) (io : Io) :
    Op TaskLifecycleState :=
  match spawned with
  | None => ambiguous_end t true io
  | Some pid =>
      let t := set_tstate t Running in
      written ← try (journal (record_of t) (io_rewrite io));
      match written with
      | Err _ => ambiguous_end t false io
      | Ok _ =>
          if negb (io_issued io) then ambiguous_end t true io
          else
            launched ← try (append_evidence (binding t) (NodeAttemptLaunched op pid) (io_evidence io));
            match launched with
            | Err _ => ambiguous_end t true io
            | Ok _ =>
                if io_bound io then _ ← put_task t; mret (tstate t)
                else ambiguous_end t true io
            end
      end
  end.

(** A fresh [Reaped], and the launcher's call: a spawn that is confirmed or ambiguous may
    have run the workload. *)
Definition spawn (ws : Workspace) (io : Io) : Op nat := λ r,
  let w := reg_world r in
  (Ok (w_next w),
   set_world r (MkWorld (w_reaped w) (S (w_next w)) (w_workspaces w)
     match io_spawn io with
     | SpawnOk _ _ | SpawnAmbiguous => w_spawned w ++ [ws]
     | SpawnRefused => w_spawned w
     end (w_evidence w))).

Definition launch (op : OperationId) (b : TaskBinding) (ws : Workspace) (capsule : CapsuleRecord)
    (can_pause : bool) (io : Io) : Op TaskLifecycleState :=
  r ← get;
  match reg_tasks r !! tb_task b with
  | None => _ ← discard ws io; throw TaskNotFound
  | Some task =>
      res ← try (journal (launching task op ws capsule) (io_write io));
      match res with
      | Err e => _ ← discard ws io; throw e
      | Ok _ =>
          n ← spawn ws io;
          let started pid process freezer :=
            set_started task op ws capsule (MkAttempt pid process freezer false None None n can_pause) in
          match io_spawn io with
          | SpawnOk pid process => record_spawn (started (Some pid) process true) op (Some pid) io
          | SpawnAmbiguous => record_spawn (started None None false) op None io
          | SpawnRefused =>
              _ ← discard ws io;
              withdrawn ← try (journal (record_of task) (io_rewrite io));
              match withdrawn with
              | Ok _ => throw ResourceUnavailable
              | Err _ => record_spawn (started None None false) op None io
              end
          end
      end
  end.

Definition start (v1_3 : bool) (op : OperationId) (b : TaskBinding) (io : Io) : Op TaskLifecycleState :=
  p ← prepare_start v1_3 op b io;
  match p with
  | Replay s => mret s
  | Launch ws capsule can_pause => launch op b ws capsule can_pause io
  end.

(** ** [stop] and [revoke], before and after the wait for the reaper *)
Inductive ReapStep : Type := Answer (s : TaskLifecycleState) | AwaitReap (reaped : nat).

Definition begin_stop (v1_3 : bool) (op : OperationId) (b : TaskBinding) (io : Io) : Op ReapStep :=
  task ← executing_task v1_3 b;
  if bool_decide (stopped_by task = Some op) then mret (Answer (tstate task))
  else match tstate task with
  | Ready =>
      let t' := finish (set_ops task (Some op) (paused_by task) (resumed_by task) (revoked_by task)
                          (sealed task)) Stopped Failed in
      _ ← commit task t' (append_evidence (binding task) (ended_event t' NotStarted) (io_evidence io)) io;
      mret (Answer (tstate t'))
  | Running | Paused =>
      match end_attempt task with
      | Some (t, a) =>
          _ ← put_task (request_stop_by t op);
          mret (AwaitReap (a_reaped a))
      | None => throw InvalidState
      end
  | _ => throw InvalidState
  end.

(** [TaskRegistry::task]. *)
Definition task_at (r : Registry) (b : TaskBinding) : option NodeTask :=
  t ← reg_tasks r !! tb_task b; if bool_decide (binding t = b) then Some t else None.

Definition finish_stop (op : OperationId) (b : TaskBinding) : Op TaskLifecycleState :=
  r ← get;
  match task_at r b with
  | Some task =>
      if bool_decide (stopped_by task = Some op) then mret (tstate task)
      else throw (if live (tstate task) then ResourceUnavailable else InvalidState)
  | None => throw InvalidState
  end.

Definition revoke_lease (lease : LeaseId) (io : Io) : Op unit := λ r,
  match reg_admission r with
  | None => (Err UnsupportedOperation, r)
  | Some a => let '(res, a') := admission_revoke a (io_now io) lease (io_state io) in
              (res, set_admission r (Some a'))
  end.

Definition begin_revoke (v1_3 : bool) (op : OperationId) (b : TaskBinding) (io : Io) : Op ReapStep :=
  task ← executing_task v1_3 b;
  if bool_decide (revoked_by task = Some op) then mret (Answer (tstate task))
  else
    _ ← check (negb (match tstate task with Ready | Running | Paused => true | _ => false end)) InvalidState;
    _ ← revoke_lease (tb_lease b) io;
    match (if live (tstate task) then end_attempt task else None) with
    | Some (t, a) =>
        _ ← put_task (request_revoke_by t op);
        mret (AwaitReap (a_reaped a))
    | None =>
        let t' := finish (set_ops task (stopped_by task) (paused_by task) (resumed_by task) (Some op)
                            (sealed task)) Revoked Failed in
        _ ← commit task t' (append_evidence (binding task) (ended_event t' NotStarted) (io_evidence io)) io;
        mret (Answer (tstate t'))
    end.

Definition finish_revoke (op : OperationId) (b : TaskBinding) (io : Io) : Op TaskLifecycleState :=
  r ← get;
  match task_at r b with
  | Some task =>
      if bool_decide (revoked_by task = Some op) then mret (tstate task)
      else if live (tstate task)
              && bool_decide ((attempt task ≫= a_revoke_requested_by) = Some op) then
        let t' := finish (set_ops task (stopped_by task) (paused_by task) (resumed_by task) (Some op)
                            (sealed task)) Revoked Unknown in
        _ ← commit task t' (append_evidence (binding task) (ended_event t' Unconfirmed) (io_evidence io)) io;
        mret (tstate t')
      else throw InvalidState
  | None => throw InvalidState
  end.

(** ** The reaper *)
Definition record_exit (b : TaskBinding) (reaped : nat) (exit : WorkloadExit) (used : option Z)
    (io : Io) : Op unit :=
  r ← get;
  match task_at r b with
  | Some task =>
      if live (tstate task) then
        match finish_attempt (set_usage task (match used with Some u => Some u | None => usage task end))
                exit reaped with
        | Some t' =>
            _ ← try (match used with
                     | Some u => append_evidence b (NodeAttemptResourceUsage u) (io_evidence io)
                     | None => mret tt end);
            _ ← put_task t';
            _ ← try (journal (record_of t') (io_write io));
            _ ← try (append_evidence b (ended_event t' (attempt_end exit)) (io_end_evidence io));
            mret tt
        | None => mret tt
        end
      else mret tt
  | None => mret tt
  end.

Definition set_reaped (reaped : nat) : Op unit := modify (λ r,
  let w := reg_world r in
  set_world r (MkWorld (w_reaped w ∪ {[reaped]}) (w_next w) (w_workspaces w) (w_spawned w) (w_evidence w))).

(** [Reaper::record]. *)
Definition reap (b : TaskBinding) (reaped : nat) (exit : WorkloadExit) (used : option Z) (io : Io) :
    Op unit :=
  _ ← record_exit b reaped exit used io; set_reaped reaped.

(** ** Answers *)
Inductive TaskLifecycleResponse : Type :=
| Accepted (op : OperationId) (b : TaskBinding) (s : TaskLifecycleState)
| Inspected (b : TaskBinding) (s : TaskLifecycleState) (outcome : option TaskExecutionOutcome)
| Rejected (op : option OperationId) (b : TaskBinding) (reason : Reason).

Definition supports_outcome (v1_3 : bool) (s : TaskLifecycleState) : bool := v1_3 && finished s.

Definition inspect (v1_3 : bool) (b : TaskBinding) (r : Registry) : TaskLifecycleResponse :=
  match bound_task b r with
  | (Err reason, _) => Rejected None b reason
  | (Ok task, _) =>
      match receipt task with
      | Some rc => if supports_outcome v1_3 (tstate task)
                   then Inspected (binding task) (tstate task) (Some (rc_outcome rc))
                   else Inspected (binding task) (visible v1_3 (tstate task)) None
      | None => Inspected (binding task) (visible v1_3 (tstate task)) None
      end
  end.

Inductive Request : Type :=
| ReqCreate (op : OperationId) (b : TaskBinding)
| ReqAdmit (op : OperationId) (b : TaskBinding) (json : list byte) (proof : IssuerProof)
| ReqInspect (b : TaskBinding)
| ReqStart (op : OperationId) (b : TaskBinding)
| ReqPause (op : OperationId) (b : TaskBinding)
| ReqResume (op : OperationId) (b : TaskBinding)
| ReqStop (op : OperationId) (b : TaskBinding)
| ReqRevoke (op : OperationId) (b : TaskBinding)
| ReqSeal (op : OperationId) (b : TaskBinding)
| ReqStream (b : TaskBinding).

(** One locked step of [serve]: an answer, or the attempt whose reaper [serve] waits for
    before it takes the second step. *)
Definition answer (f : TaskLifecycleState → TaskLifecycleState) (op : OperationId) (b : TaskBinding)
    (x : result Reason TaskLifecycleState * Registry) : (TaskLifecycleResponse + nat) * Registry :=
  match x with
  | (Ok s, r) => (inl (Accepted op b (f s)), r)
  | (Err reason, r) => (inl (Rejected (Some op) b reason), r)
  end.
Definition reap_answer (op : OperationId) (b : TaskBinding) (x : result Reason ReapStep * Registry) :
    (TaskLifecycleResponse + nat) * Registry :=
  match x with
  | (Ok (Answer s), r) => (inl (Accepted op b s), r)
  | (Ok (AwaitReap n), r) => (inr n, r)
  | (Err reason, r) => (inl (Rejected (Some op) b reason), r)
  end.

(** The first locked step of [serve], with [handle]. *)
Definition serve (v1_3 : bool) (req : Request) (io : Io) (r : Registry) :
    (TaskLifecycleResponse + nat) * Registry :=
  match req with
  | ReqCreate op b =>
      match create op b io r with
      | (Ok (b', s), r') => (inl (Accepted op b' (visible v1_3 s)), r')
      | (Err reason, r') => (inl (Rejected (Some op) b reason), r')
      end
  | ReqAdmit op b json proof => answer (visible v1_3) op b (admit_task op b json proof io r)
  | ReqInspect b => (inl (inspect v1_3 b r), r)
  | ReqStart op b => answer id op b (start v1_3 op b io r)
  | ReqPause op b => answer (visible v1_3) op b (pause v1_3 op b io r)
  | ReqResume op b => answer (visible v1_3) op b (resume v1_3 op b io r)
  | ReqStop op b => reap_answer op b (begin_stop v1_3 op b io r)
  | ReqRevoke op b => reap_answer op b (begin_revoke v1_3 op b io r)
  | ReqSeal op b => answer (visible v1_3) op b (seal v1_3 op b io r)
  | ReqStream b => (inl (Rejected None b UnsupportedOperation), r)
  end.

(** The second locked step of a [stop] or a [revoke]. *)
Definition serve_reaped (req : Request) (io : Io) (r : Registry) :
    (TaskLifecycleResponse + nat) * Registry :=
  match req with
  | ReqStop op b => answer id op b (finish_stop op b r)
  | ReqRevoke op b => answer id op b (finish_revoke op b io r)
  | _ => (inr 0%nat, r)
  end.

(** ** Construction and restart *)
Definition with_capacity (capacity : nat) (w : World) : Registry :=
  MkRegistry ∅ capacity None None None 0 [] w.

(** One record of [recover]: the recovered task, written back when it changed. *)
Definition recover_one (execution : option NodeExecution) (writes : TaskId → Outcome)
    (evidence : TaskId → bool) (acc : gmap TaskId NodeTask * Z * RecordsDir) (rec : TaskRecord) :
    result TaskRecordError (gmap TaskId NodeTask * Z * RecordsDir) :=
  let '(ts, seals, d) := acc in
  let '(task, changed) := recovered rec in
  let id := tb_task (binding task) in
  '(d : RecordsDir) ← (if changed
       then let '(res, d') := write_record d (record_of task) (writes id) in _ ← res; Ok d'
       else Ok d);
  _ ← fail_if (bool_decide (is_Some execution) && negb (evidence id)) (RecEvidence id);
  let seals := match sealed task with
               | Some s => seals `max` saturating_add u64_max (sl_order s) 1 | None => seals end in
  Ok (<[id := task]> ts, seals, d).
Fixpoint recover_all (execution : option NodeExecution) (writes : TaskId → Outcome)
    (evidence : TaskId → bool) (acc : gmap TaskId NodeTask * Z * RecordsDir) (recs : list TaskRecord) :
    result TaskRecordError (gmap TaskId NodeTask * Z * RecordsDir) :=
  match recs with
  | [] => Ok acc
  | rec :: recs =>
      acc ← recover_one execution writes evidence acc rec;
      recover_all execution writes evidence acc recs
  end.
Definition recover (capacity : nat) (admission : NodeAdmission) (execution : option NodeExecution)
    (path : PathMeta) (d : RecordsDir) (writes : TaskId → Outcome) (evidence : TaskId → bool) (w : World) :
    result TaskRecordError Registry :=
  _ ← map_err RecState (open_private_dir path);
  recs ← load d capacity;
  '(ts, seals, d) ← recover_all execution writes evidence (∅, 0, d) recs;
  Ok (MkRegistry ts capacity (Some (configure admission execution)) execution (Some d) seals [] w).
End Verbs.
