(* ===== verification/Lifecycle.v ===== *)
(** * Lifecycle: the registry follows the task lifecycle

    A weakest-precondition calculus for the operations of [Registry], the abstract lifecycle
    machine of [TaskLifecycleState] ([crates/ward-node-protocol/src/lib.rs]), the step relation
    of a node ([crates/ward-node/src/task.rs]) and the refinement between them. *)

From stdpp Require Import base numbers option gmap sorting strings vector list.
From S2P Require Import Prelude Bytes Ids Authority Revocation Manifest NodeState Admission Task.
From S2P Require Import Registry.

Local Open Scope Z_scope.

(** ** Reasoning about operations

    [wp m Q r]: run on [r], [m] ends with a result and a registry that satisfy [Q]. *)
Definition wp {A} (m : Op A) (Q : result Reason A → Registry → Prop) (r : Registry) : Prop :=
  Q (m r).1 (m r).2.

Lemma wp_bind {A B} (m : Op A) (f : A → Op B) Q r :
  wp m (λ x r', match x with Ok a => wp (f a) Q r' | Err e => Q (Err e) r' end) r → wp (m ≫= f) Q r.
Proof. unfold wp, mbind, op_bind. by destruct (m r) as [[a|e] r']. Qed.
Lemma wp_mono {A} (m : Op A) (Q Q' : result Reason A → Registry → Prop) r :
  (∀ x r', Q x r' → Q' x r') → wp m Q r → wp m Q' r.
Proof. unfold wp. auto. Qed.
Lemma wp_ret {A} (a : A) Q r : Q (Ok a) r → wp (mret a) Q r.
Proof. done. Qed.
Lemma wp_lift {A} (x : result Reason A) Q r :
  (∀ a, x = Ok a → Q (Ok a) r) → (∀ e, x = Err e → Q (Err e) r) → wp (lift x) Q r.
Proof. unfold wp, lift. destruct x; naive_solver. Qed.
Lemma wp_throw {A} e (Q : result Reason A → Registry → Prop) r : Q (Err e) r → wp (throw e) Q r.
Proof. done. Qed.
Lemma wp_check c e Q r : (c = false → Q (Ok tt) r) → (c = true → Q (Err e) r) → wp (check c e) Q r.
Proof. unfold wp, check, lift. destruct c; naive_solver. Qed.
Lemma wp_get Q r : Q (Ok r) r → wp get Q r.
Proof. done. Qed.
Lemma wp_modify f Q r : Q (Ok tt) (f r) → wp (modify f) Q r.
Proof. done. Qed.
Lemma wp_put_task t Q r :
  Q (Ok tt) (set_tasks r (<[tb_task (binding t) := t]> (reg_tasks r))) → wp (put_task t) Q r.
Proof. done. Qed.
Lemma wp_try {A} (m : Op A) Q r : wp m (λ x, Q (Ok x)) r → wp (try m) Q r.
Proof. unfold wp, try. by destruct (m r). Qed.
Lemma wp_if {A} (c : bool) (m m' : Op A) Q r :
  (c = true → wp m Q r) → (c = false → wp m' Q r) → wp (if c then m else m') Q r.
Proof. destruct c; naive_solver. Qed.

(** A record on disk, and an appended evidence record. *)
Definition wrote `{Codec TaskRecord} (r : Registry) (rec : TaskRecord) : Registry :=
  MkRegistry (reg_tasks r) (reg_capacity r) (reg_admission r) (reg_execution r)
    ((λ d, MkDir (<[tb_task (tr_binding rec) := Regular (to_vec rec)]> (rd_files d)) (rd_others d))
       <$> reg_store r)
    (reg_seals r) (reg_retired r) (reg_world r).
Definition logged (r : Registry) (b : TaskBinding) (ev : NodeEvent) : Registry :=
  let w := reg_world r in
  set_world r (MkWorld (w_reaped w) (w_next w) (w_workspaces w) (w_spawned w)
    match reg_execution r with Some _ => w_evidence w ++ [(b, ev)] | None => w_evidence w end).

Lemma wp_journal `{Codec TaskRecord} rec io Q r :
  (Q (Ok tt) (wrote r rec)) → Q (Err ResourceUnavailable) r →
  Q (Err ResourceUnavailable) (wrote r rec) → wp (journal rec io) Q r.
Proof.
  destruct r as [? ? ? ? [d|] ? ? ?]; unfold wp, journal, write_record, wrote, set_store; cbn; [|done].
  destruct (_ <? _); [by intros|]. destruct io as [|[]]; cbn; by intros.
Qed.

Lemma wp_append b ev io Q r :
  Q (Ok tt) (logged r b ev) → Q (Err ResourceUnavailable) r →
  Q (Err ResourceUnavailable) (logged r b ev) → wp (append_evidence b ev io) Q r.
Proof.
  destruct r as [? ? ? [ex|] ? ? ? [? ? ? ? ?]]; unfold wp, append_evidence, logged, set_world; cbn; [|done].
  destruct io as [|[]]; cbn; by intros.
Qed.

Lemma matches_Ok t b u : matches t b = Ok u → tb_attempt (binding t) = tb_attempt b ∧ tb_lease (binding t) = tb_lease b.
Proof.
  unfold matches. intros Hm. res_inv. bool_inv.
  repeat match goal with H : ¬ _ ≠ _ |- _ => apply dec_stable in H end. done.
Qed.

Lemma matches_AttemptMismatch t b :
  matches t b = Err AttemptMismatch → tb_attempt (binding t) ≠ tb_attempt b.
Proof.
  intros Hm Ha. unfold matches in Hm. rewrite (bool_decide_eq_false_2 (_ ≠ tb_attempt b)) in Hm by auto.
  cbn in Hm. by case_bool_decide.
Qed.

(** A verb that finds its task goes on with it; otherwise it is rejected unchanged. *)
Lemma wp_bound_task b Q r :
  (∀ t, reg_tasks r !! tb_task b = Some t → tb_attempt (binding t) = tb_attempt b →
        tb_lease (binding t) = tb_lease b → Q (Ok t) r) →
  (∀ e, Q (Err e) r) → wp (bound_task b) Q r.
Proof.
  intros HOk HErr. unfold bound_task. apply wp_bind, wp_get, wp_bind, wp_lift; [|by intros].
  intros t Ht%ok_or_Ok. apply wp_bind, wp_lift; [|by intros].
  intros u Hm%matches_Ok. apply wp_ret. naive_solver.
Qed.
Lemma wp_executing_task v b Q r :
  (∀ t, reg_tasks r !! tb_task b = Some t → tb_attempt (binding t) = tb_attempt b →
        tb_lease (binding t) = tb_lease b → is_Some (reg_execution r) → is_Some (reg_admission r) →
        v = true → Q (Ok t) r) →
  (∀ e, Q (Err e) r) → wp (executing_task v b) Q r.
Proof.
  intros HOk HErr. unfold executing_task. apply wp_bind, wp_get, wp_bind, wp_check; [|by intros].
  intros Hc. bool_inv. apply wp_bound_task; [|done]. intros. by apply HOk.
Qed.

(** [wp_go] runs an operation to its ends, one goal per end. *)
Ltac wp_step :=
  match goal with
  | |- wp (mbind _ _) _ _ => apply wp_bind
  | |- wp (mret _) _ _ => apply wp_ret
  | |- wp (throw _) _ _ => apply wp_throw
  | |- wp (lift _) _ _ => apply wp_lift; intros ? ?
  | |- wp (check _ _) _ _ => apply wp_check; intros ?
  | |- wp get _ _ => apply wp_get
  | |- wp (modify _) _ _ => apply wp_modify
  | |- wp (put_task _) _ _ => apply wp_put_task
  | |- wp (try _) _ _ => apply wp_try
  | |- wp (journal _ _) _ _ => apply wp_journal
  | |- wp (append_evidence _ _ _) _ _ => apply wp_append
  | |- wp (bound_task _) _ _ => apply wp_bound_task; intros
  | |- wp (executing_task _ _) _ _ => apply wp_executing_task; intros
  | |- wp (if ?c then _ else _) _ _ => destruct c eqn:?
  | |- wp (match ?x with _ => _ end) _ _ => destruct x eqn:?
  | |- wp ((λ _, _) _) _ _ => cbv beta
  end; cbv beta iota zeta.
Ltac wp_go :=
  repeat (cbv beta iota zeta;
          first [ wp_step | match goal with |- wp (commit _ _ _ _) _ _ => unfold commit end ]).
(** [wp_to_commit] stops at a commit. *)
Ltac wp_to_commit := repeat (cbv beta iota zeta; wp_step).

(** ** The lifecycle of a task

    The abstract machine: a node knows nothing of a task, or its current attempt and the
    state that attempt is in. *)
Abbreviation View := (option (ExecutionAttemptId * TaskLifecycleState)).
Inductive lifecycle : View → View → Prop :=
| lc_create a : lifecycle None (Some (a, Created))
| lc_admit a : lifecycle (Some (a, Created)) (Some (a, Ready))
| lc_run a : lifecycle (Some (a, Ready)) (Some (a, Running))
| lc_pause a : lifecycle (Some (a, Running)) (Some (a, Paused))
| lc_resume a : lifecycle (Some (a, Paused)) (Some (a, Running))
| lc_end a s s' : s = Ready ∨ live s = true → finished s' = true → s' ≠ Sealed →
    lifecycle (Some (a, s)) (Some (a, s'))
| lc_seal a s : finished s = true → s ≠ Sealed → lifecycle (Some (a, s)) (Some (a, Sealed))
| lc_replace a a' s : finished s = true → a' ≠ a → lifecycle (Some (a, s)) (Some (a', Created))
| lc_evict a : lifecycle (Some (a, Sealed)) None.
#[local] Hint Constructors lifecycle : core.

Definition view (r : Registry) (id : TaskId) : View :=
  (λ t, (tb_attempt (binding t), tstate t)) <$> reg_tasks r !! id.
Definition moves (v v' : View) : Prop := v' = v ∨ lifecycle v v'.

(** Every task is filed under its own id, and sealed exactly when its state says so. *)
Definition sealed_iff (t : NodeTask) : Prop := is_Some (sealed t) ↔ tstate t = Sealed.
Definition keyed (r : Registry) : Prop :=
  map_Forall (λ id t, tb_task (binding t) = id ∧ sealed_iff t) (reg_tasks r).
(** A verb keeps the registry keyed and moves each task by at most one step. *)
Definition good (r r' : Registry) : Prop := keyed r' ∧ ∀ id, moves (view r id) (view r' id).

Lemma good_same r r' : keyed r → reg_tasks r' = reg_tasks r → good r r'.
Proof. intros Hk E. split; [unfold keyed; by rewrite E|]. intros id. left. unfold view. by rewrite E. Qed.

Lemma good_from r0 r r' : reg_tasks r = reg_tasks r0 → good r r' → good r0 r'.
Proof. intros E [Hk Hm]. split; [done|]. intros id. unfold view at 1. rewrite <-E. apply Hm. Qed.

Lemma good_put r r' t :
  keyed r → reg_tasks r' = <[tb_task (binding t) := t]> (reg_tasks r) → sealed_iff t →
  moves (view r (tb_task (binding t))) (Some (tb_attempt (binding t), tstate t)) → good r r'.
Proof.
  intros Hk E Hs Hm. split.
  - unfold keyed. rewrite E. by apply map_Forall_insert_2.
  - intros id. unfold view at 2. rewrite E. destruct (decide (id = tb_task (binding t))) as [->|Hne].
    + by rewrite lookup_insert_eq.
    + rewrite lookup_insert_ne by done. by left.
Qed.

Lemma good_delete r r' id t :
  keyed r → reg_tasks r !! id = Some t → is_Some (sealed t) → reg_tasks r' = delete id (reg_tasks r) →
  good r r'.
Proof.
  intros Hk Ht Hs E. apply (Hk _ _ Ht) in Hs. split.
  - unfold keyed. rewrite E. by apply map_Forall_delete.
  - intros k. unfold view. rewrite E. destruct (decide (k = id)) as [->|Hne].
    + rewrite lookup_delete_eq, Ht. cbn. rewrite Hs. right. auto.
    + rewrite lookup_delete_ne by done. by left.
Qed.

Lemma keyed_lookup r id t : keyed r → reg_tasks r !! id = Some t → tb_task (binding t) = id.
Proof. intros Hk Ht. by apply (Hk _ _ Ht). Qed.
Lemma keyed_unsealed r id t s :
  keyed r → reg_tasks r !! id = Some t → tstate t = s → s ≠ Sealed → sealed t = None.
Proof.
  intros Hk Ht <- Hs. destruct (sealed t) eqn:E; [|done]. destruct Hs. by apply (Hk _ _ Ht); rewrite E.
Qed.
Lemma unsealed_iff t : sealed t = None → tstate t ≠ Sealed → sealed_iff t.
Proof. unfold sealed_iff. intros -> ?. split; [by intros []|done]. Qed.

(** The task [end_attempt] leaves, and the one the reaper does. *)
Lemma end_attempt_Some t t' a :
  end_attempt t = Some (t', a) → live (tstate t) = true →
  binding t' = binding t ∧ tstate t' = Running ∧ attempt t' = Some a ∧ sealed t' = sealed t.
Proof.
  unfold end_attempt. destruct (attempt t) as [a0|]; [|done]. cbn. intros [= <- <-] Hl.
  case_bool_decide as Hp; cbn; split_and!; try done.
  by destruct (tstate t).
Qed.
Lemma finish_attempt_Some t e n t' :
  finish_attempt t e n = Some t' →
  binding t' = binding t ∧ finished (tstate t') = true ∧ tstate t' ≠ Sealed ∧ sealed t' = sealed t ∧
  (∃ a, attempt t = Some a ∧ a_reaped a = n) ∧ (∃ a, attempt t' = Some a ∧ a_reaped a = n).
Proof.
  unfold finish_attempt. destruct (attempt t) as [a|]; [|done]. cbn.
  case_bool_decide as Hn; [|done]. cbn [negb]. destruct (a_revoke_requested_by a).
  - intros [= <-]. cbn. split_and!; eauto.
  - destruct (exit_state e (a_stop a)) as [s o] eqn:E.
    assert (finished s = true ∧ s ≠ Sealed) as [Hs Hs'].
    { revert E. unfold exit_state. destruct e as [[]| | |]; [| | | |destruct (a_stop a)]; intros [= <- <-]; done. }
    intros [= <-]. case_bool_decide; cbn; split_and!; eauto.
Qed.

Ltac stable := bool_inv; repeat match goal with H : ¬ _ ≠ _ |- _ => apply dec_stable in H end.
(** Case analysis on a state a guard tests. *)
Ltac state_cases :=
  repeat match goal with
  | H : context [match tstate ?t with _ => _ end] |- _ => destruct (tstate t) eqn:?; try discriminate H; clear H
  end.
(** [unsealed] proves that a task that is not sealed yet, or now is, is marked so. *)
Ltac unsealed :=
  first
    [ by apply unsealed_iff
    | by (unfold sealed_iff; cbn; split; intros; [done|eexists; done])
    | match goal with
      | K : keyed ?r, T : reg_tasks ?r !! _ = Some ?t, S : tstate ?t = _ |- _ =>
          apply unsealed_iff; [exact (keyed_unsealed _ _ _ _ K T S ltac:(discriminate))|discriminate]
      end ].
Ltac lc_view :=
  unfold view; cbn;
  try match goal with T : reg_tasks ?r !! _ = Some ?t, K : keyed ?r |- _ =>
    rewrite ?(keyed_lookup _ _ _ K T), T end; cbn;
  try match goal with S : tstate _ = _ |- _ => rewrite S end; right; eauto.
(** [lc_end] closes an end of a verb that changed no task, or one by a lifecycle step. *)
Ltac lc_end :=
  first [ by apply good_same
        | stable; state_cases; (eapply good_put; [done|reflexivity|unsealed|lc_view; fail]) ].
Ltac lc_go := wp_go; try lc_end.

Section Verbs.
Context (blake3 : list byte → Blake3Hash).
Context (ed25519 : list byte → list byte → list byte → bool).
Context (parse_manifest : list byte → option CapabilityManifestWire).
Context (parse_envelope : list byte → option TaskAdmissionEnvelopeWire).
Context (launchable : list byte → list (list byte) → bool).
Context `{Codec VersionsFile, Codec RevocationsFile, Codec RetiredAttemptsFile, Codec TaskRecord}.

Lemma wp_revoke_lease lease io Q r :
  (∀ a x a', reg_admission r = Some a → admission_revoke a (io_now io) lease (io_state io) = (x, a') →
     Q x (set_admission r (Some a'))) →
  Q (Err UnsupportedOperation) r → wp (revoke_lease lease io) Q r.
Proof.
  unfold wp, revoke_lease. destruct (reg_admission r) as [a|]; [|done].
  destruct (admission_revoke _ _ _ _) as [x a'] eqn:E. cbn. naive_solver.
Qed.
Lemma wp_commit_admission v io Q r :
  (∀ a x a', reg_admission r = Some a → admission_commit a v (io_state io) = (x, a') →
     Q x (set_admission r (Some a'))) →
  Q (Err UnsupportedOperation) r → wp (commit_admission v io) Q r.
Proof.
  unfold wp, commit_admission. destruct (reg_admission r) as [a|]; [|done].
  destruct (admission_commit _ _ _) as [x a'] eqn:E. cbn. naive_solver.
Qed.
Lemma wp_retire_current b io Q r :
  (∀ a x s, reg_admission r = Some a →
     retire_attempt (state a) (tb_task b) (tb_attempt b) (io_state io) = (x, s) →
     Q (map_err (λ _, ResourceUnavailable) x) (set_admission r (Some (set_state a s)))) →
  Q (Err ResourceUnavailable) r → wp (retire_current b io) Q r.
Proof.
  unfold wp, retire_current. destruct (reg_admission r) as [a|]; [|done].
  destruct (retire_attempt _ _ _ _) as [x s] eqn:E. cbn. naive_solver.
Qed.
(** A removal that fails may have landed. *)
Definition removed (r : Registry) (id : TaskId) : Registry :=
  MkRegistry (reg_tasks r) (reg_capacity r) (reg_admission r) (reg_execution r)
    ((λ d, MkDir (delete id (rd_files d)) (rd_others d)) <$> reg_store r)
    (reg_seals r) (reg_retired r) (reg_world r).
Lemma wp_journal_remove id io Q r :
  Q (Ok tt) (removed r id) → Q (Err ResourceUnavailable) r → Q (Err ResourceUnavailable) (removed r id) →
  wp (journal_remove id io) Q r.
Proof.
  destruct r as [? ? ? ? [[fs os]|] ? ? ?]; unfold wp, journal_remove, remove_record, removed, set_store; cbn;
    [|done].
  destruct (fs !! id) eqn:E; [destruct io as [|[]]; cbn; by intros|].
  cbn. rewrite delete_id by done. by intros.
Qed.

Lemma good_pause v op b io r : keyed r → wp (pause v op b io) (λ _, good r) r.
Proof. intros Hk. unfold pause. lc_go. Qed.
Lemma good_resume v op b io r : keyed r → wp (resume v op b io) (λ _, good r) r.
Proof. intros Hk. unfold resume. lc_go. Qed.
Lemma good_seal v op b io r : keyed r → wp (seal v op b io) (λ _, good r) r.
Proof. intros Hk. unfold seal. lc_go. Qed.

(** A task whose kill is requested reads [Running]. *)
Lemma good_end_attempt r r' t t' t2 a :
  keyed r → reg_tasks r' = <[tb_task (binding t2) := t2]> (reg_tasks r) →
  end_attempt t = Some (t', a) → reg_tasks r !! tb_task (binding t) = Some t →
  live (tstate t) = true → binding t2 = binding t' → tstate t2 = tstate t' →
  sealed t2 = sealed t' → good r r'.
Proof.
  intros Hk Hr He Ht Hl Hb2 Hs2 Hse2. apply end_attempt_Some in He as (Hb & Hs & _ & Hse); [|done].
  apply (good_put r r' t2); [done|done| |].
  { apply unsealed_iff; [|by rewrite Hs2, Hs]. rewrite Hse2, Hse.
    apply (keyed_unsealed _ _ _ _ Hk Ht eq_refl). by destruct (tstate t). }
  rewrite Hb2, Hb, Hs2, Hs. unfold view. rewrite Ht. cbn.
  destruct (tstate t); try done; [by left|right; auto].
Qed.

Lemma good_begin_stop v op b io r : keyed r → wp (begin_stop v op b io) (λ _, good r) r.
Proof.
  intros Hk. unfold begin_stop. lc_go; simplify_eq.
  all: (eapply good_end_attempt; [done|reflexivity|done| |by rewrite Heqt0|done..]).
  all: by erewrite keyed_lookup by done.
Qed.
Lemma good_begin_revoke v op b io r : keyed r → wp (begin_revoke v op b io) (λ _, good r) r.
Proof.
  intros Hk. unfold begin_revoke. lc_go. apply wp_revoke_lease; [|by apply good_same].
  intros a [[]|e] a' _ _; [|by apply good_same]. lc_go; simplify_eq.
  eapply good_end_attempt; [done|reflexivity|by destruct (live (tstate t))| | |done..].
  - by erewrite keyed_lookup by done.
  - by destruct (live (tstate t)).
Qed.
Lemma good_finish_stop op b r : keyed r → wp (finish_stop op b) (λ _, good r) r.
Proof. intros Hk. unfold finish_stop. lc_go. Qed.
Lemma task_at_Some r b t : task_at r b = Some t → reg_tasks r !! tb_task b = Some t ∧ binding t = b.
Proof. unfold task_at. destruct (reg_tasks r !! _); [|done]. cbn. case_bool_decide; naive_solver. Qed.
Lemma good_finish_revoke op b io r : keyed r → wp (finish_revoke op b io) (λ _, good r) r.
Proof.
  intros Hk. unfold finish_revoke. wp_go; try by apply good_same.
  apply task_at_Some in Heqo as [Ht Hb]. bool_inv. destruct (tstate n) eqn:Hs; try done; lc_end.
Qed.
Lemma good_record_exit b n e u io r : keyed r → wp (record_exit b n e u io) (λ _, good r) r.
Proof.
  intros Hk. unfold record_exit. wp_go; try by apply good_same.
  all: apply task_at_Some in Heqo as [Ht Hb]; apply finish_attempt_Some in Heqo0 as (Hb' & Hf & Hs & Hse & _).
  all: (eapply good_put; [done|reflexivity| |rewrite Hb'; lc_view]).
  all: (apply unsealed_iff; [|done]; rewrite Hse; apply (keyed_unsealed _ _ _ _ Hk Ht eq_refl)).
  all: by intros E; rewrite E in *.
Qed.
Lemma good_admit op b json proof io r :
  keyed r →
  wp (admit_task blake3 ed25519 parse_manifest parse_envelope launchable op b json proof io) (λ _, good r) r.
Proof.
  intros Hk. unfold admit_task. lc_go. apply wp_commit_admission; [|lc_go].
  intros a' [[]|e] a'' _ _; lc_go.
Qed.

Lemma min_seal_elem l acc x :
  foldl (λ acc x, match acc with
                  | None => Some x
                  | Some a => if seal_lt x a then Some x else Some a
                  end) acc l = Some x → acc = Some x ∨ x ∈ l.
Proof.
  revert acc. induction l as [|y l IH]; cbn; intros acc Hx; [by left|].
  apply IH in Hx as [Hx|Hx]; [|right; by apply list_elem_of_further].
  destruct acc as [a|]; [destruct (seal_lt y a)|]; simplify_eq; auto using list_elem_of_here.
Qed.
Lemma oldest_sealed_Some ts id :
  oldest_sealed ts = Some id → ∃ t, ts !! id = Some t ∧ is_Some (sealed t).
Proof.
  unfold oldest_sealed. intros ([o k] & Hx & [= ->])%fmap_Some.
  apply min_seal_elem in Hx as [|Hx]; [done|].
  apply list_elem_of_omap in Hx as ([k' t] & Hin & Ht). apply elem_of_map_to_list in Hin.
  destruct (sealed t) eqn:Es; [|done]. injection Ht as _ ->. eauto.
Qed.

Lemma wp_evict io Q r :
  Q (Ok false) r →
  (∀ id t, reg_tasks r !! id = Some t → is_Some (sealed t) → Q (Ok false) (removed r id)) →
  (∀ id t, reg_tasks r !! id = Some t → is_Some (sealed t) →
     Q (Ok true) (retire t (set_tasks (removed r id) (delete id (reg_tasks r))))) →
  wp (evict_oldest_sealed io) Q r.
Proof.
  intros HN HL HY. unfold evict_oldest_sealed. wp_go; [|by apply HN].
  destruct (oldest_sealed_Some _ _ Heqo) as (t & Ht & Hs).
  apply wp_journal_remove; wp_go; [|by apply HN|by eapply HL].
  cbn. rewrite Ht. by eapply HY.
Qed.

Lemma good_delete_put r r' id t t' :
  keyed r → reg_tasks r !! id = Some t → is_Some (sealed t) →
  reg_tasks r !! tb_task (binding t') = None → tstate t' = Created → sealed t' = None →
  reg_tasks r' = <[tb_task (binding t') := t']> (delete id (reg_tasks r)) → good r r'.
Proof.
  intros Hk Ht Hs Hn Hc Hse E.
  destruct (good_delete r (set_tasks r (delete id (reg_tasks r))) id t) as [Hk1 Hm1]; try done.
  assert (lifecycle (view r (tb_task (binding t'))) (Some (tb_attempt (binding t'), tstate t'))) as Hl.
  { unfold view. rewrite Hn, Hc. auto. }
  destruct (good_put (set_tasks r (delete id (reg_tasks r))) r' t') as [Hk2 Hm2]; try done.
  - apply unsealed_iff; [done|by rewrite Hc].
  - right. unfold view. cbn. rewrite lookup_delete_ne, Hn, Hc by congruence. auto.
  - split; [done|]. intros k. unfold view. rewrite E.
    destruct (decide (k = tb_task (binding t'))) as [->|Hne]; [rewrite lookup_insert_eq; by right|].
    rewrite lookup_insert_ne by done. apply Hm1.
Qed.

Lemma good_create op b io r : keyed r → wp (create op b io) (λ _, good r) r.
Proof.
  intros Hk. unfold create. wp_step. wp_step. wp_step; wp_step; [|by apply good_same].
  destruct (reg_tasks r !! tb_task b) as [t|] eqn:Ht.
  - wp_go; try by apply good_same.
    apply wp_retire_current; [|by apply good_same]. intros a' x s _ _.
    destruct x as [[]|x]; cbn; [|by apply good_same]. bool_inv. wp_go; try by apply good_same.
    eapply good_put; [done|reflexivity|by apply unsealed_iff|]. unfold view. cbn. rewrite Ht. cbn.
    right. apply lc_replace; [done|]. subst. apply not_eq_sym. by apply matches_AttemptMismatch.
  - wp_step. wp_step; [apply wp_evict|].
    + wp_go; try done. by apply good_same.
    + intros id t Hid Hs. wp_go; try done. by apply good_same.
    + intros id t Hid Hs. wp_go; try done. all: try by eapply good_delete.
      by eapply (good_delete_put r _ id t (NodeTask_new b op)).
    + wp_go; try by apply good_same. eapply good_put; [done|reflexivity|by apply unsealed_iff|].
      unfold view. cbn. rewrite Ht. right. auto.
Qed.

(** ** [start] *)

(** What [start] has checked when it goes on to launch. *)
Record startable (r : Registry) (b : TaskBinding) (io : Io) (t : NodeTask) (c : CapsuleRecord)
    (p : bool) : Prop := {
  sa_task : reg_tasks r !! tb_task b = Some t;
  sa_attempt : tb_attempt (binding t) = tb_attempt b;
  sa_lease : tb_lease (binding t) = tb_lease b;
  sa_ready : tstate t = Ready;
  sa_fresh : workspace_of b ∉ w_workspaces (reg_world r);
  sa_guard : ∃ ex adm ad cap,
    reg_execution r = Some ex ∧ reg_admission r = Some adm ∧ admitted t = Some ad ∧
    admission_revalidate adm (io_now io) (at_verified ad) = Ok tt ∧
    let m := cmb_manifest (tw_manifest (e_workload (v_envelope (at_verified ad)))) in
    place (placement ex) (minimum_isolation m) = Some cap ∧
    (is_Some (cm_resources m) → honours_resources cap = true) ∧
    c = capsule_of cap ∧ p = serves cap Pause ∧
    (∀ l, ex_scheduling ex = Some l → Z.of_nat (executing r) < max_running l);
}.

Definition set_workspaces (r : Registry) (ws : gset Workspace) : Registry :=
  let w := reg_world r in
  set_world r (MkWorld (w_reaped w) (w_next w) ws (w_spawned w) (w_evidence w)).

Lemma wp_discard ws io Q r :
  Q (Ok tt) r → Q (Ok tt) (set_workspaces r (w_workspaces (reg_world r) ∖ {[ws]})) → wp (discard ws io) Q r.
Proof. intros. unfold discard. apply wp_modify. by destruct (io_discard io). Qed.

Lemma wp_prepared ok ws io Q r :
  (ok = true → Q (Ok tt) r) → Q (Err ResourceUnavailable) r →
  Q (Err ResourceUnavailable) (set_workspaces r (w_workspaces (reg_world r) ∖ {[ws]})) →
  wp (prepared_or_discard ok ws io) Q r.
Proof. intros. unfold prepared_or_discard. destruct ok; wp_go; [auto|]. by apply wp_discard; wp_go. Qed.

Lemma wp_materialise b io Q r :
  let w := w_workspaces (reg_world r) in
  (workspace_of b ∉ w → Q (Ok (workspace_of b)) (set_workspaces r (w ∪ {[workspace_of b]}))) →
  Q (Err ResourceUnavailable) r →
  (workspace_of b ∉ w → ∀ ws', w ⊆ ws' → Q (Err ResourceUnavailable) (set_workspaces r ws')) →
  wp (materialise b io) Q r.
Proof.
  intros w HOk HErr HErr'. unfold materialise. wp_go; try done; bool_inv; [by apply HOk|].
  apply wp_discard; wp_go; (apply HErr'; [done|set_solver]).
Qed.

Lemma limits_admit_Ok l n m d u : limits_admit l n m d = Ok u → Z.of_nat n < max_running l.
Proof. unfold limits_admit. intros Hl. res_inv. bool_inv. done. Qed.

(** How [prepare_start] ends: a replay, a rejection that leaves every workspace there was, or
    a launch all of whose conditions hold. *)
Lemma wp_prepare v op b io Q r :
  (∀ t, reg_tasks r !! tb_task b = Some t → tb_attempt (binding t) = tb_attempt b →
     tb_lease (binding t) = tb_lease b → is_Some (reg_execution r) → is_Some (reg_admission r) →
     v = true → started_by t = Some op → Q (Ok (Replay (tstate t))) r) →
  (∀ e, Q (Err e) r) →
  (∀ e ws', w_workspaces (reg_world r) ⊆ ws' → Q (Err e) (set_workspaces r ws')) →
  (∀ t c p, startable r b io t c p → v = true →
     Q (Ok (Launch (workspace_of b) c p))
       (set_workspaces r (w_workspaces (reg_world r) ∪ {[workspace_of b]}))) →
  wp (prepare_start v op b io) Q r.
Proof.
  intros HR HE HE' HL. unfold prepare_start. wp_go; try apply HE; stable; try (apply HR; try done; by eexists).
  apply wp_materialise; [|by apply HE|by intros; apply HE']. intros Hf. wp_go.
  apply wp_prepared; [intros _|apply HE'; set_solver..]. wp_go.
  apply wp_prepared; [intros _|apply HE'; set_solver..]. wp_go.
  apply wp_prepared; [intros _|apply HE'; set_solver..]. wp_go.
  apply (HL t); [|done]. split; try done. exists n, n0, a, a1. cbv zeta.
  destruct a0. split_and!; try done.
  - by apply ok_or_Ok in H9.
  - intros [g Hg]. rewrite Hg in *. by bool_inv.
  - intros l Hl. rewrite Hl in *. by eapply limits_admit_Ok.
Qed.

(** The registry after the launcher's call. *)
Definition spawned (r : Registry) (ws : Workspace) (io : Io) : Registry := (spawn ws io r).2.
Lemma wp_spawn ws io Q r : Q (Ok (w_next (reg_world r))) (spawned r ws io) → wp (spawn ws io) Q r.
Proof. done. Qed.

Lemma good_launch op b ws c p io r t :
  keyed r → reg_tasks r !! tb_task b = Some t → tstate t = Ready →
  wp (launch op b ws c p io) (λ _, good r) r.
Proof.
  intros Hk Ht Hs. unfold launch, record_spawn, ambiguous_end. wp_go; simplify_eq.
  all: try (apply wp_discard; wp_go; by apply good_same).
  all: apply wp_spawn; wp_go; simplify_eq.
  all: try lc_end.
  all: apply wp_discard; wp_go; simplify_eq; lc_end.
Qed.

Lemma good_start v op b io r : keyed r → wp (start v op b io) (λ _, good r) r.
Proof.
  intros Hk. unfold start. wp_step. apply wp_prepare.
  - intros. wp_go. by apply good_same.
  - intros. by apply good_same.
  - intros. by apply good_same.
  - intros t c p [Ht _ _ Hs _ _] _. eapply wp_mono; [|by eapply good_launch].
    by intros x r'; apply good_from.
Qed.

(** ** Steps

    What can happen to a running registry: a verb is served, the second half of a [stop] or
    a [revoke] runs, the reaper of an attempt reports, and the operator records a
    revocation.  A crash between two writes of a verb leaves what some failed run of that
    verb leaves, so that a restart is only considered between steps. *)
Inductive step : Registry → Registry → Prop :=
| step_serve v req io r :
    step r (serve blake3 ed25519 parse_manifest parse_envelope launchable v req io r).2
| step_serve_reaped req io r : step r (serve_reaped req io r).2
| step_reap b n e u io r : step r (reap b n e u io r).2
| step_reaped n r : step r (set_reaped n r).2
| step_revocation r a fact io :
    reg_admission r = Some a →
    step r (set_admission r (Some (set_state a (record_revocation (state a) fact io).2))).

Lemma wp_run {A} (m : Op A) (P : Registry → Prop) r : wp m (λ _, P) r → P (m r).2.
Proof. done. Qed.
Lemma answer_snd f op b x : (answer f op b x).2 = x.2.
Proof. by destruct x as [[]]. Qed.
Lemma reap_answer_snd op b x : (reap_answer op b x).2 = x.2.
Proof. by destruct x as [[[]|]]. Qed.

(** One lemma for every verb: an invariant the operations keep is kept by a step. *)
Lemma step_preserves (P : Registry → Registry → Prop) r r' :
  (∀ op b io, wp (create op b io) (λ _, P r) r) →
  (∀ op b json proof io,
     wp (admit_task blake3 ed25519 parse_manifest parse_envelope launchable op b json proof io) (λ _, P r) r) →
  (∀ v op b io, wp (start v op b io) (λ _, P r) r) →
  (∀ v op b io, wp (pause v op b io) (λ _, P r) r) →
  (∀ v op b io, wp (resume v op b io) (λ _, P r) r) →
  (∀ v op b io, wp (seal v op b io) (λ _, P r) r) →
  (∀ v op b io, wp (begin_stop v op b io) (λ _, P r) r) →
  (∀ v op b io, wp (begin_revoke v op b io) (λ _, P r) r) →
  (∀ op b io, wp (finish_revoke op b io) (λ _, P r) r) →
  (∀ b n e u io, wp (reap b n e u io) (λ _, P r) r) →
  (∀ n, P r (set_reaped n r).2) → P r r →
  (∀ a s, reg_admission r = Some a → P r (set_admission r (Some (set_state a s)))) →
  step r r' → P r r'.
Proof.
  intros Hc Ha Hs Hp Hre Hse Hbs Hbr Hfr Hrp Hn Hr Hrev Hst. destruct Hst; try done.
  - destruct req; cbn; rewrite ?answer_snd, ?reap_answer_snd; try done; try (by apply wp_run).
    specialize (Hc op b io). unfold wp in Hc. by destruct (create op b io r) as [[[]|] ?].
  - destruct req; cbn; rewrite ?answer_snd; try done; [|by apply wp_run].
    apply (wp_run (finish_stop op b)). unfold finish_stop. by wp_go.
  - by apply wp_run.
  - by apply Hrev.
Qed.

Lemma good_reap b n e u io r : keyed r → wp (reap b n e u io) (λ _, good r) r.
Proof.
  intros Hk. unfold reap. wp_step. eapply wp_mono; [|by apply good_record_exit].
  intros [[]|] r' Hg; [|done]. done.
Qed.

Lemma step_good r r' : keyed r → step r r' → good r r'.
Proof.
  intros Hk. apply step_preserves; intros; eauto using good_create, good_admit, good_start, good_pause,
    good_resume, good_seal, good_begin_stop, good_begin_revoke, good_finish_revoke, good_reap, good_same.
Qed.

End Verbs.
