(* ===== verification/Bounds.v ===== *)
(** * Bounds: how much a node takes on, and that it runs each attempt once

    The registry of [crates/ward-node/src/task.rs] under its capacity, the [--max-running]
    bound of [scheduling.rs] and the workspaces of [workspace.rs]: what no sequence of verbs,
    reaper reports, failures and restarts exceeds. *)

From stdpp Require Import base numbers option gmap sorting strings vector list.
From S2P Require Import Prelude Bytes Ids Authority Revocation Manifest NodeState Admission Task.
From S2P Require Import Registry Lifecycle.

Local Open Scope Z_scope.

(** ** Counting attempts *)
Definition active (w : World) (l : list Attempt) : nat := length (List.filter (unreaped w) l).
Definition slot (w : World) (o : option Attempt) : nat :=
  match o with Some a => if unreaped w a then 1 else 0 | None => 0 end%nat.
Definition attempts (ts : gmap TaskId NodeTask) : list Attempt := omap attempt (map_to_list ts).*2.

Lemma active_app w l1 l2 : active w (l1 ++ l2) = (active w l1 + active w l2)%nat.
Proof. unfold active. by rewrite List.filter_app, length_app. Qed.
Lemma active_perm w l1 l2 : l1 ≡ₚ l2 → active w l1 = active w l2.
Proof.
  unfold active. induction 1 as [|x l1 l2 _ IH|x y l|l1 l2 l3 _ IH1 _ IH2]; cbn;
    [done| |by destruct (unreaped w x), (unreaped w y)|congruence].
  destruct (unreaped w x); cbn; congruence.
Qed.
Lemma active_filter w l : active w (List.filter (unreaped w) l) = active w l.
Proof.
  unfold active. induction l as [|x l IH]; [done|]. cbn. destruct (unreaped w x) eqn:E; [|done].
  cbn. rewrite E. cbn. by rewrite IH.
Qed.
Lemma executing_eq r :
  executing r = (active (reg_world r) (attempts (reg_tasks r)) + active (reg_world r) (reg_retired r))%nat.
Proof. unfold executing. apply active_app. Qed.

Lemma active_delete w ts id t :
  ts !! id = Some t →
  active w (attempts ts) = (slot w (attempt t) + active w (attempts (delete id ts)))%nat.
Proof.
  intros Ht. unfold attempts. rewrite (active_perm w _ _ (omap_Permutation attempt _ _
    (fmap_Permutation snd _ _ (symmetry (map_to_list_delete _ _ _ Ht))))).
  cbn. destruct (attempt t) as [a|]; [|done]. unfold active at 1, slot. cbn.
  destruct (unreaped w a); reflexivity.
Qed.
Lemma active_insert w ts id t :
  active w (attempts (<[id := t]> ts)) = (slot w (attempt t) + active w (attempts (delete id ts)))%nat.
Proof.
  rewrite (active_delete w (<[id := t]> ts) id t) by apply lookup_insert_eq.
  by rewrite delete_insert_eq.
Qed.
Lemma active_delete_le w ts id : (active w (attempts (delete id ts)) ≤ active w (attempts ts))%nat.
Proof.
  destruct (ts !! id) as [t|] eqn:E; [rewrite (active_delete w ts id t E); lia|by rewrite delete_id].
Qed.

(** ** What a step keeps *)

(** Every attempt that may have run has its workspace, and none ran twice. *)
Definition once (w : World) : Prop :=
  NoDup (w_spawned w) ∧ ∀ ws, ws ∈ w_spawned w → ws ∈ w_workspaces w.

Record frugal (r r' : Registry) : Prop := {
  fr_execution : reg_execution r' = reg_execution r;
  fr_capacity : reg_capacity r' = reg_capacity r;
  fr_running : (executing r' ≤ executing r)%nat ∨
    ∀ ex l, reg_execution r = Some ex → ex_scheduling ex = Some l → Z.of_nat (executing r') ≤ max_running l;
  fr_size : (size (reg_tasks r') ≤ size (reg_tasks r) `max` reg_capacity r)%nat;
  fr_once : once (reg_world r) → once (reg_world r');
}.

(** The parts of a registry that bounds depend on, beside its tasks. *)
Definition same_frame (r r' : Registry) : Prop :=
  reg_execution r' = reg_execution r ∧ reg_capacity r' = reg_capacity r ∧
  reg_retired r' = reg_retired r ∧ w_reaped (reg_world r') = w_reaped (reg_world r) ∧
  w_spawned (reg_world r') = w_spawned (reg_world r) ∧
  w_workspaces (reg_world r') = w_workspaces (reg_world r).

Lemma active_reaped w w' l : w_reaped w' = w_reaped w → active w' l = active w l.
Proof. intros E. unfold active, unreaped. by rewrite E. Qed.
Lemma slot_reaped w w' o : w_reaped w' = w_reaped w → slot w' o = slot w o.
Proof. intros E. unfold slot, unreaped. by rewrite E. Qed.

Lemma frugal_same r r' : same_frame r r' → reg_tasks r' = reg_tasks r → frugal r r'.
Proof.
  intros (He & Hc & Hr & Hw & Hs & Hws) Ht. split; try done.
  - left. rewrite !executing_eq, Ht, Hr, !(active_reaped (reg_world r) _ _ Hw). done.
  - rewrite Ht. lia.
  - unfold once. by rewrite Hs, Hws.
Qed.
Lemma frugal_put r r' t t' :
  same_frame r r' → reg_tasks r' = <[tb_task (binding t') := t']> (reg_tasks r) →
  reg_tasks r !! tb_task (binding t') = Some t →
  a_reaped <$> attempt t' = a_reaped <$> attempt t → frugal r r'.
Proof.
  intros (He & Hc & Hr & Hw & Hs & Hws) E Ht Ha. split; try done.
  - left. rewrite !executing_eq, E, Hr, !(active_reaped (reg_world r) _ _ Hw), active_insert.
    rewrite (active_delete (reg_world r) (reg_tasks r) _ t Ht).
    assert (slot (reg_world r) (attempt t') = slot (reg_world r) (attempt t)) as ->; [|done].
    destruct (attempt t'), (attempt t); try done. injection Ha as Ha. unfold slot, unreaped. by rewrite Ha.
  - rewrite E, map_size_insert, Ht. unfold id. lia.
  - unfold once. by rewrite Hs, Hws.
Qed.
Lemma frugal_trans r1 r2 r3 :
  frugal r1 r2 → same_frame r2 r3 → reg_tasks r3 = reg_tasks r2 → frugal r1 r3.
Proof.
  intros [He Hc Hr Hs Ho] (He' & Hc' & Hr' & Hw & Hsp & Hws) Ht.
  assert (executing r3 = executing r2) as Ex.
  { by rewrite !executing_eq, Ht, Hr', !(active_reaped (reg_world r2) _ _ Hw). }
  split; [congruence|congruence|by rewrite Ex|by rewrite Ht|].
  intros Ho1%Ho. unfold once. by rewrite Hsp, Hws.
Qed.

(** [retire] moves an attempt from its task to the retired ones. *)
Lemma retire_active t r w :
  w = reg_world r →
  active w (reg_retired (retire t r)) = (slot w (attempt t) + active w (reg_retired r))%nat.
Proof.
  intros ->. unfold retire, slot. cbn [reg_retired set_retired]. destruct (attempt t) as [a|]; [|by rewrite active_filter].
  destruct (unreaped (reg_world r) a) eqn:E; [|by rewrite active_filter].
  rewrite active_app, active_filter. unfold active at 2. cbn. rewrite E. cbn. lia.
Qed.

(** A new task, possibly after an eviction, and one that replaces a finished one. *)
Lemma frugal_evict r r' id t :
  reg_tasks r !! id = Some t → same_frame (retire t (set_tasks r (delete id (reg_tasks r)))) r' →
  reg_tasks r' = delete id (reg_tasks r) → frugal r r'.
Proof.
  intros Ht (He & Hc & Hr & Hw & Hs & Hws) E. cbn in He, Hc, Hw, Hs, Hws. split; try done.
  - left. rewrite !executing_eq, E, Hr, !(active_reaped (reg_world r) _ _ Hw).
    rewrite (retire_active t _ (reg_world r)) by done.
    rewrite (active_delete (reg_world r) (reg_tasks r) id t Ht). cbn [reg_retired set_tasks]. lia.
  - rewrite E, map_size_delete, Ht. lia.
  - unfold once. by rewrite Hs, Hws.
Qed.
Lemma frugal_new r r0 r' t :
  frugal r r0 → same_frame r0 r' → reg_tasks r' = <[tb_task (binding t) := t]> (reg_tasks r0) →
  reg_tasks r0 !! tb_task (binding t) = None → attempt t = None →
  (S (size (reg_tasks r0)) ≤ size (reg_tasks r) `max` reg_capacity r)%nat → frugal r r'.
Proof.
  intros [He Hc Hr Hsz Ho] (He' & Hc' & Hr' & Hw & Hs & Hws) E Hn Ha Hlt.
  assert (executing r' = executing r0) as Ex.
  { rewrite !executing_eq, E, Hr', !(active_reaped (reg_world r0) _ _ Hw), active_insert, Ha.
    by rewrite delete_id by done. }
  split; [congruence|congruence|by rewrite Ex| |].
  - rewrite E, map_size_insert, Hn. lia.
  - intros Ho1%Ho. unfold once. by rewrite Hs, Hws.
Qed.
Lemma frugal_replace r r' t t' :
  reg_tasks r !! tb_task (binding t') = Some t → attempt t' = None →
  same_frame (retire t (set_tasks r (<[tb_task (binding t') := t']> (reg_tasks r)))) r' →
  reg_tasks r' = <[tb_task (binding t') := t']> (reg_tasks r) → frugal r r'.
Proof.
  intros Ht Ha (He & Hc & Hr & Hw & Hs & Hws) E. cbn in He, Hc, Hw, Hs, Hws. split; try done.
  - left. rewrite !executing_eq, E, Hr, !(active_reaped (reg_world r) _ _ Hw), active_insert, Ha.
    rewrite (retire_active t _ (reg_world r)) by done.
    rewrite (active_delete (reg_world r) (reg_tasks r) _ t Ht). cbn [reg_retired set_tasks slot]. lia.
  - rewrite E, map_size_insert, Ht. unfold id. lia.
  - unfold once. by rewrite Hs, Hws.
Qed.

(** [bd_end] closes the end of a verb that changed no task, or a task's fields other than
    its attempt. *)
Ltac frame := repeat split; reflexivity.
Ltac bd_end :=
  first [ apply frugal_same; [frame|reflexivity]
        | eapply frugal_put; [frame|reflexivity|cbn;
          match goal with T : reg_tasks ?r !! _ = Some ?t, K : keyed ?r |- _ =>
            rewrite ?(keyed_lookup _ _ _ K T); exact T end|reflexivity] ].
Ltac bd_go := wp_go; try bd_end.

Section Verbs.
Context (blake3 : list byte → Blake3Hash).
Context (ed25519 : list byte → list byte → list byte → bool).
Context (parse_manifest : list byte → option CapabilityManifestWire).
Context (parse_envelope : list byte → option TaskAdmissionEnvelopeWire).
Context (launchable : list byte → list (list byte) → bool).
Context `{Codec VersionsFile, Codec RevocationsFile, Codec RetiredAttemptsFile, Codec TaskRecord}.

Lemma frugal_pause v op b io r : keyed r → wp (pause v op b io) (λ _, frugal r) r.
Proof. intros Hk. unfold pause. bd_go. Qed.
Lemma frugal_resume v op b io r : keyed r → wp (resume v op b io) (λ _, frugal r) r.
Proof. intros Hk. unfold resume. bd_go. Qed.
Lemma frugal_seal v op b io r : keyed r → wp (seal v op b io) (λ _, frugal r) r.
Proof. intros Hk. unfold seal. bd_go. Qed.
Lemma frugal_admit op b json proof io r :
  keyed r →
  wp (admit_task blake3 ed25519 parse_manifest parse_envelope launchable op b json proof io) (λ _, frugal r) r.
Proof.
  intros Hk. unfold admit_task. bd_go. apply wp_commit_admission; [|bd_go].
  intros a' [[]|e] a'' _ _; bd_go.
Qed.

Lemma end_attempt_slot t t' a : end_attempt t = Some (t', a) →
  binding t' = binding t ∧ a_reaped <$> attempt t' = a_reaped <$> attempt t.
Proof.
  unfold end_attempt. destruct (attempt t) as [a0|]; [|done]. cbn. intros [= <- <-].
  case_bool_decide; done.
Qed.
Lemma request_slot f t t' :
  attempt t' = f <$> attempt t → (∀ a, a_reaped (f a) = a_reaped a) →
  a_reaped <$> attempt t' = a_reaped <$> attempt t.
Proof. intros -> Hf. destruct (attempt t); cbn; [by rewrite Hf|done]. Qed.

Lemma frugal_end_attempt r r' t t' t2 a :
  keyed r → same_frame r r' → reg_tasks r' = <[tb_task (binding t2) := t2]> (reg_tasks r) →
  end_attempt t = Some (t', a) → reg_tasks r !! tb_task (binding t) = Some t →
  binding t2 = binding t' → a_reaped <$> attempt t2 = a_reaped <$> attempt t' → frugal r r'.
Proof.
  intros Hk Hf Hr He Ht Hb Ha. apply end_attempt_slot in He as [Hb' Ha'].
  apply (frugal_put r r' t t2); [done|done|by rewrite Hb, Hb'|congruence].
Qed.
Lemma frugal_begin_stop v op b io r : keyed r → wp (begin_stop v op b io) (λ _, frugal r) r.
Proof.
  intros Hk. unfold begin_stop. bd_go; simplify_eq.
  all: (eapply frugal_end_attempt; [done|frame|reflexivity|done|by erewrite keyed_lookup by done|done|]).
  all: by eapply request_slot.
Qed.
Lemma frugal_begin_revoke v op b io r : keyed r → wp (begin_revoke v op b io) (λ _, frugal r) r.
Proof.
  intros Hk. unfold begin_revoke. bd_go. apply wp_revoke_lease; [|bd_end].
  intros a [[]|e] a' _ _; [|bd_end]. bd_go; simplify_eq.
  eapply frugal_end_attempt; [done|frame|reflexivity|by destruct (live (tstate t))|
    by erewrite keyed_lookup by done|done|by eapply request_slot].
Qed.
Lemma frugal_finish_revoke op b io r : keyed r → wp (finish_revoke op b io) (λ _, frugal r) r.
Proof.
  intros Hk. unfold finish_revoke. wp_go; try bd_end.
  apply task_at_Some in Heqo as [Ht Hb]. bd_end.
Qed.
Lemma frugal_record_exit b n e u io r : keyed r → wp (record_exit b n e u io) (λ _, frugal r) r.
Proof.
  intros Hk. unfold record_exit. wp_go; try bd_end.
  all: apply task_at_Some in Heqo as [Ht Hb].
  all: apply finish_attempt_Some in Heqo0 as (Hb' & _ & _ & _ & (a & Ha & Hn) & (a' & Ha' & Hn')).
  all: (eapply frugal_put; [frame|reflexivity|rewrite Hb'; cbn; rewrite Hb; exact Ht|]).
  all: cbn in Ha; rewrite Ha', Ha; cbn; congruence.
Qed.
Lemma frugal_set_reaped n r : frugal r (set_reaped n r).2.
Proof.
  split; try done; cbn; [|lia]. left. rewrite !executing_eq. cbn [reg_world set_reaped set_world reg_tasks
    reg_retired modify snd]. rewrite <-!active_app. unfold active.
  induction (attempts (reg_tasks r) ++ reg_retired r) as [|a l IH]; cbn; [done|].
  destruct (unreaped _ a) eqn:E1; destruct (unreaped (reg_world r) a) eqn:E2; cbn; try lia.
  unfold unreaped in *. cbn in *. bool_inv. set_solver.
Qed.

Lemma frugal_create op b io r : keyed r → wp (create op b io) (λ _, frugal r) r.
Proof.
  intros Hk. unfold create. wp_step. wp_step. wp_step; wp_step; [|bd_end].
  destruct (reg_tasks r !! tb_task b) as [t|] eqn:Ht.
  - wp_go; try bd_end. apply wp_retire_current; [|bd_end]. intros a' x s _ _.
    destruct x as [[]|x]; cbn; [|bd_end]. wp_go; try bd_end.
    by eapply (frugal_replace r _ t (NodeTask_new b op)).
  - wp_step. wp_step; [apply wp_evict|].
    + wp_go; try done. bd_end.
    + intros id t Hid Hs. wp_go; try done. bd_end.
    + intros id t Hid Hs. wp_go; try done.
      all: try (eapply frugal_evict; [done|frame|reflexivity]).
      eapply (frugal_new r (retire t (set_tasks r (delete id (reg_tasks r)))) _ (NodeTask_new b op));
        [by eapply frugal_evict|frame|reflexivity| |done|]; cbn.
      * by rewrite lookup_delete_ne by congruence.
      * rewrite map_size_delete, Hid.
        assert (size (reg_tasks r) ≠ 0%nat) by (apply map_size_ne_0_lookup; eauto). lia.
    + wp_go; try bd_end. bool_inv.
      eapply (frugal_new r r _ (NodeTask_new b op)); try done; [by apply frugal_same|lia].
Qed.

(** ** [start] takes the one slot it checked for *)
Record after_start (r r' : Registry) (ws : Workspace) : Prop := {
  af_execution : reg_execution r' = reg_execution r;
  af_capacity : reg_capacity r' = reg_capacity r;
  af_retired : reg_retired r' = reg_retired r;
  af_reaped : w_reaped (reg_world r') = w_reaped (reg_world r);
  af_workspaces : w_workspaces (reg_world r) ⊆ w_workspaces (reg_world r');
  af_spawned : w_spawned (reg_world r') = w_spawned (reg_world r) ∨
    w_spawned (reg_world r') = w_spawned (reg_world r) ++ [ws] ∧ ws ∈ w_workspaces (reg_world r');
}.

Lemma once_start r r' ws :
  ws ∉ w_workspaces (reg_world r) → after_start r r' ws → once (reg_world r) → once (reg_world r').
Proof.
  intros Hf [_ _ _ _ Hws Hs] [Hn Ho]. destruct Hs as [Hs|[Hs Hin]]; unfold once; rewrite Hs.
  - split; [done|]. intros x Hx. by apply Hws, Ho.
  - split.
    + apply NoDup_app. split_and!; [done| |apply NoDup_singleton].
      intros x Hx%Ho ->%list_elem_of_singleton. done.
    + intros x [Hx|Hx%list_elem_of_singleton]%elem_of_app; [by apply Hws, Ho|by subst].
Qed.
Lemma frugal_rejected r r' ws :
  ws ∉ w_workspaces (reg_world r) → after_start r r' ws → reg_tasks r' = reg_tasks r → frugal r r'.
Proof.
  intros Hf Ha Ht. pose proof (once_start _ _ _ Hf Ha). destruct Ha as [He Hc Hr Hw _ _]. split; try done.
  - left. rewrite !executing_eq, Ht, Hr, !(active_reaped (reg_world r) _ _ Hw). done.
  - rewrite Ht. lia.
Qed.
Lemma frugal_started r r' b io t c p t' :
  startable r b io t c p → after_start r r' (workspace_of b) → tb_task (binding t') = tb_task b →
  reg_tasks r' = <[tb_task (binding t') := t']> (reg_tasks r) → frugal r r'.
Proof.
  intros [Ht _ _ _ Hf (ex & adm & ad & cap & Hex & _ & _ & _ & Hlim)] Ha Hb E.
  pose proof (once_start _ _ _ Hf Ha). destruct Ha as [He Hc Hr Hw _ _]. split; try done.
  - right. intros ex' l Hex' Hl. simplify_eq. destruct Hlim as (_ & _ & _ & _ & Hlim).
    specialize (Hlim l Hl). revert Hlim.
    rewrite !executing_eq, E, Hr, !(active_reaped (reg_world r) _ _ Hw), active_insert, Hb.
    rewrite (active_delete (reg_world r) (reg_tasks r) _ t Ht).
    assert (slot (reg_world r) (attempt t') ≤ 1)%nat; [|lia].
    unfold slot. destruct (attempt t'); [|lia]. destruct (unreaped _ _); lia.
  - rewrite E, map_size_insert, Hb, Ht. unfold id. lia.
Qed.

Ltac after_start_tac :=
  split;
  [ reflexivity | reflexivity | reflexivity | reflexivity
  | first [ apply union_subseteq_l | match goal with W : _ ⊆ _ ∖ _ |- _ => exact W end ]
  | first [ left; reflexivity
          | cbn; match goal with S : io_spawn _ = _ |- _ => rewrite S end;
            first [ left; reflexivity
                  | right; split; [reflexivity|apply elem_of_union_r, elem_of_singleton_2; reflexivity] ] ] ].

Lemma frugal_launch op b c p io r t :
  keyed r → startable r b io t c p →
  wp (launch op b (workspace_of b) c p io) (λ _, frugal r)
    (set_workspaces r (w_workspaces (reg_world r) ∪ {[workspace_of b]})).
Proof.
  intros Hk Hst. pose proof (sa_task _ _ _ _ _ _ Hst) as Ht. pose proof (sa_fresh _ _ _ _ _ _ Hst) as Hf.
  pose proof (keyed_lookup _ _ _ Hk Ht) as Hb.
  assert (∀ r', after_start r r' (workspace_of b) → reg_tasks r' = reg_tasks r → frugal r r') as Hrej.
  { intros. by eapply frugal_rejected. }
  assert (∀ r' t', after_start r r' (workspace_of b) → tb_task (binding t') = tb_task b →
            reg_tasks r' = <[tb_task (binding t') := t']> (reg_tasks r) → frugal r r') as Hsta.
  { intros. by eapply frugal_started. }
  assert (w_workspaces (reg_world r)
          ⊆ (w_workspaces (reg_world r) ∪ {[workspace_of b]}) ∖ {[workspace_of b]}) as Hsub by set_solver.
  unfold launch, record_spawn, ambiguous_end. wp_step. wp_step. cbn [reg_tasks set_workspaces set_world].
  rewrite Ht. wp_go.
  all: try (apply wp_discard; wp_go; (apply Hrej; [after_start_tac|reflexivity])).
  all: apply wp_spawn; wp_go.
  all: try (eapply Hsta; [after_start_tac| |reflexivity]; exact Hb).
  all: apply wp_discard; wp_go.
  all: try (apply Hrej; [after_start_tac|reflexivity]).
  all: eapply Hsta; [after_start_tac| |reflexivity]; exact Hb.
Qed.

Lemma frugal_start v op b io r : keyed r → wp (start v op b io) (λ _, frugal r) r.
Proof.
  intros Hk. unfold start. wp_step. apply wp_prepare.
  - intros. wp_go. bd_end.
  - intros. bd_end.
  - intros e ws' Hws. split; try done; cbn; [by left|lia|]. intros [Hn Ho]. split; [done|].
    intros x Hx. by apply Hws, Ho.
  - intros t c p Hst _. by apply (frugal_launch op b c p io r t).
Qed.

Lemma frugal_reap b n e u io r : keyed r → wp (reap b n e u io) (λ _, frugal r) r.
Proof.
  intros Hk. unfold reap. wp_step. eapply wp_mono; [|by apply frugal_record_exit].
  intros [[]|] r' Hf; [|done]. apply wp_modify.
  pose proof (frugal_set_reaped n r') as [He Hc Hr Hs Ho]. destruct Hf as [He' Hc' Hr' Hs' Ho']. split.
  - exact (eq_trans He He').
  - exact (eq_trans Hc Hc').
  - destruct Hr as [Hr|Hr]; [|right; rewrite <-He'; exact Hr].
    destruct Hr' as [Hr'|Hr']; [left; etrans; [exact Hr|done]|right]. intros ex l Hex Hl.
    specialize (Hr' ex l Hex Hl). etrans; [|exact Hr']. apply inj_le. exact Hr.
  - cbn. exact Hs'.
  - auto.
Qed.

Lemma step_frugal r r' :
  keyed r → step blake3 ed25519 parse_manifest parse_envelope launchable r r' → frugal r r'.
Proof.
  intros Hk. apply step_preserves; intros; eauto using frugal_create, frugal_admit, frugal_start,
    frugal_pause, frugal_resume, frugal_seal, frugal_begin_stop, frugal_begin_revoke,
    frugal_finish_revoke, frugal_reap, frugal_set_reaped; by apply frugal_same.
Qed.

(** ** The bounds *)
Record within_bounds (r : Registry) : Prop := {
  wb_size : (size (reg_tasks r) ≤ reg_capacity r)%nat;
  wb_running : ∀ ex l, reg_execution r = Some ex → ex_scheduling ex = Some l →
    Z.of_nat (executing r) ≤ max_running l;
  wb_once : once (reg_world r);
}.

Lemma step_within r r' :
  keyed r → within_bounds r → step blake3 ed25519 parse_manifest parse_envelope launchable r r' →
  keyed r' ∧ within_bounds r'.
Proof.
  intros Hk [Hsz Hrun Ho] Hst. pose proof (step_good _ _ _ _ _ _ _ Hk Hst) as [Hk' _].
  apply step_frugal in Hst as [He Hc Hr Hs Hon]; [|done]. split; [done|]. split.
  - rewrite Hc. lia.
  - rewrite He. intros ex l Hex Hl. destruct Hr as [Hr|Hr]; [|by eapply Hr].
    specialize (Hrun ex l Hex Hl). lia.
  - auto.
Qed.
End Verbs.
