(* ===== verification/Recovery.v ===== *)
(** * Recovery: what a restarted node makes of its task records

    [TaskStore::load], [NodeTask::recovered] and [TaskRegistry::recover]
    ([crates/ward-node/src/records.rs], [task.rs]).  The invariant [tracked] says how far the
    record on disk can be from the task in memory, whatever writes failed; from it follows
    what each task is after a restart. *)

From stdpp Require Import base numbers option gmap sorting strings vector list.
From S2P Require Import Prelude Bytes Ids Authority Revocation Manifest NodeState Admission Task.
From S2P Require Import Registry Lifecycle Bounds.

Local Open Scope Z_scope.

Section Recover.
Context `{Codec TaskRecord}.

(** The record a file holds, valid or not. *)
Definition raw_entry (e : Entry) : option TaskRecord :=
  match e with Regular b => from_slice b | _ => None end.
Definition raw_dir (d : RecordsDir) (id : TaskId) : option TaskRecord := rd_files d !! id ≫= raw_entry.
Definition raw (r : Registry) (id : TaskId) : option TaskRecord := d ← reg_store r; raw_dir d id.

Definition rec_id (rec : TaskRecord) : TaskId := tb_task (tr_binding rec).
(** The records read, by task. *)
Definition by_task (recs : list TaskRecord) : gmap TaskId TaskRecord :=
  list_to_map ((λ rec, (rec_id rec, rec)) <$> recs).

Lemma parse_record_Ok id e rec :
  parse_record id e = Ok rec → raw_entry e = Some rec ∧ rec_id rec = id ∧ is_valid_for rec id = true.
Proof.
  unfold parse_record. intros Hp. res_inv. bool_inv. split_and!; [| |done].
  - destruct e as [| |b]; try done. cbn. destruct (_ <? _); [done|]. by eapply ok_or_Ok.
  - unfold is_valid_for in *. by bool_inv.
Qed.

Lemma load_files_Ok limit acc files recs :
  load_files limit acc files = Ok recs → (length acc ≤ limit)%nat →
  ∃ new, recs = acc ++ new ∧ (length recs ≤ limit)%nat ∧
    Forall2 (λ f rec, parse_record f.1 f.2 = Ok rec) files new.
Proof.
  revert acc. induction files as [|[id e] files IH]; cbn; intros acc Hl Hle.
  - injection Hl as <-. exists []. by rewrite app_nil_r.
  - apply check_Ok in Hl as [Hlt Hl]. bool_inv. apply bind_Ok in Hl as (rec & Hp & Hl).
    apply IH in Hl as (new & -> & Hlen & Hf); [|rewrite length_app; cbn; lia].
    exists (rec :: new). rewrite <-app_assoc in *. split_and!; [done|done|by constructor].
Qed.

Lemma load_Ok d limit recs :
  load d limit = Ok recs →
  (length recs ≤ limit)%nat ∧ NoDup (rec_id <$> recs) ∧ (∀ id, by_task recs !! id = raw_dir d id) ∧
  Forall (λ rec, is_valid_for rec (rec_id rec) = true) recs.
Proof.
  unfold load. intros Hl. apply check_Ok in Hl as [_ Hl].
  apply load_files_Ok in Hl as (new & -> & Hlen & Hf); [|cbn; lia]. cbn in *.
  assert (rec_id <$> new = (map_to_list (rd_files d)).*1) as Hids.
  { clear -Hf. induction Hf as [|[id e] rec fs rs Hp _ IH]; [done|].
    apply parse_record_Ok in Hp as (_ & Hid & _). cbn in *. by rewrite IH, Hid. }
  assert (NoDup (rec_id <$> new)) as Hnd by (rewrite Hids; apply NoDup_fst_map_to_list).
  split_and!; [done|done| |].
  - intros id. unfold by_task, raw_dir. apply option_eq. intros rec.
    rewrite <-elem_of_list_to_map by (by rewrite <-list_fmap_compose).
    rewrite list_elem_of_fmap, bind_Some. split.
    + intros (rec' & [= -> ->] & Hin). apply list_elem_of_lookup in Hin as [i Hi].
      eapply Forall2_lookup_r in Hf as ([k e] & Hk & Hp); [|done].
      apply parse_record_Ok in Hp as (Hr & Hid & _). cbn in *. exists e. rewrite Hid. split; [|done].
      apply elem_of_map_to_list. by eapply list_elem_of_lookup_2.
    + intros (e & He & Hr). apply elem_of_map_to_list, list_elem_of_lookup in He as [i Hi].
      eapply Forall2_lookup_l in Hf as (rec' & Hk & Hp); [|done].
      apply parse_record_Ok in Hp as (Hr' & Hid & _). cbn in *. simplify_eq.
      exists rec. split; [done|]. by eapply list_elem_of_lookup_2.
  - clear -Hf. induction Hf as [|[id e] rec fs rs Hp _ IH]; constructor; [|done].
    apply parse_record_Ok in Hp as (_ & Hid & Hv). cbn in *. by rewrite Hid.
Qed.

Definition task_of (rec : TaskRecord) : NodeTask := (recovered rec).1.
(** What [recover] writes back. *)
Definition rewritten (rec : TaskRecord) : option Entry :=
  if (recovered rec).2 then Some (Regular (to_vec (record_of (task_of rec)))) else None.

Lemma recovered_binding rec : binding (task_of rec) = tr_binding rec.
Proof. unfold task_of, recovered. by destruct (tr_state rec). Qed.
Lemma recovered_attempt rec : attempt (task_of rec) = None.
Proof. unfold task_of, recovered. by destruct (tr_state rec). Qed.

Lemma recover_all_Ok ex writes ev ts n d recs ts' n' d' :
  NoDup (rec_id <$> recs) →
  recover_all ex writes ev (ts, n, d) recs = Ok (ts', n', d') →
  ts' = (task_of <$> by_task recs) ∪ ts ∧ rd_files d' = omap rewritten (by_task recs) ∪ rd_files d.
Proof.
  revert ts n d. induction recs as [|rec recs IH]; cbn [recover_all fmap list_fmap];
    intros ts n d Hnd Hr.
  - simplify_eq. unfold by_task. cbn. by rewrite fmap_empty, omap_empty, !(left_id_L ∅ (∪)).
  - apply NoDup_cons in Hnd as [Hni Hnd]. apply bind_Ok in Hr as ([[ts1 n1] d1] & H1 & Hr).
    apply IH in Hr as [-> ->]; [|done]. clear IH.
    assert (by_task recs !! rec_id rec = None) as Hn.
    { unfold by_task. apply not_elem_of_list_to_map_1. by rewrite <-list_fmap_compose. }
    assert (by_task (rec :: recs) = <[rec_id rec := rec]> (by_task recs)) as -> by done.
    unfold recover_one in H1. pose proof (recovered_binding rec) as Hb. unfold task_of in Hb.
    destruct (recovered rec) as [t changed] eqn:Et. cbn in Hb.
    apply bind_Ok in H1 as (d2 & Hd & H1). apply check_Ok in H1 as [_ H1]. injection H1 as <- _ <-.
    assert (task_of rec = t) as Ht by (unfold task_of; by rewrite Et).
    assert (tb_task (binding t) = rec_id rec) as Hk by (by rewrite Hb).
    split.
    + rewrite fmap_insert, <-insert_union_l, insert_union_r, Ht, Hk; [done|]. by rewrite lookup_fmap, Hn.
    + unfold rewritten at 2. rewrite omap_insert. unfold rewritten at 1. rewrite Et, Ht. cbn.
      destruct changed.
      * unfold write_record in Hd. destruct (_ <? _); [done|].
        destruct (writes _) as [|[]]; cbn in Hd; simplify_eq; cbn.
        rewrite <-insert_union_l, insert_union_r by (by rewrite lookup_omap, Hn).
        unfold record_of, rec_id in *. cbn. by rewrite Hk.
      * simplify_eq. rewrite delete_id by (by rewrite lookup_omap, Hn). done.
Qed.
End Recover.

(** ** How far a record can be from its task *)

(** The states a record may be in while its task is in [s]; [ran] says whether the attempt
    may have run. *)
Definition state_tracks (s : TaskLifecycleState) (rs : RecordedState) (ran : Prop) : Prop :=
  match s with
  | Created => rs = RecCreated ∨ rs = RecReady
  | Ready => rs = RecReady ∨ rs = RecLaunching ∨ rs = RecStopped ∨ rs = RecRevoked
  | Running | Paused => rs = RecRunning ∨ rs = RecPaused ∨ rs = RecRevoked
  | Exited | Stopped | Revoked => rs ≠ RecCreated ∧ (rs = RecReady → ¬ ran)
  | Sealed => rs = RecSealed
  end.

Definition cell_ok (spawned : list Workspace) (ot : option NodeTask) (orec : option TaskRecord) : Prop :=
  match ot, orec with
  | None, None => True
  | None, Some rec => tr_state rec = RecCreated
  | Some t, None => tstate t = Sealed
  | Some t, Some rec =>
      (tr_binding rec = binding t ∧
       state_tracks (tstate t) (tr_state rec) (workspace_of (binding t) ∈ spawned)) ∨
      (finished (tstate t) = true ∧ tr_state rec = RecCreated ∧
       tb_attempt (tr_binding rec) ≠ tb_attempt (binding t))
  end.

Section Track.
Context `{CodecLaws TaskRecord}.

Definition tracked (r : Registry) : Prop :=
  is_Some (reg_store r) ∧
  ∀ id, cell_ok (w_spawned (reg_world r)) (reg_tasks r !! id) (raw r id).

Lemma raw_wrote_eq r rec id :
  is_Some (reg_store r) → id = rec_id rec → raw (wrote r rec) id = Some rec.
Proof.
  intros [d Hd] ->. unfold raw, wrote. cbn. rewrite Hd. cbn. unfold raw_dir. cbn.
  fold (rec_id rec). rewrite lookup_insert_eq. cbn. apply from_to_vec.
Qed.
Lemma raw_wrote_ne r rec id : id ≠ rec_id rec → raw (wrote r rec) id = raw r id.
Proof.
  intros Hne. unfold raw, wrote. cbn. destruct (reg_store r) as [d|]; [|done]. cbn. unfold raw_dir. cbn.
  fold (rec_id rec). by rewrite lookup_insert_ne by done.
Qed.

(** A step that touches one task leaves the others tracked. *)
Lemma tracked_at r r' id :
  keyed r → tracked r → is_Some (reg_store r') →
  (∀ k, k ≠ id → reg_tasks r' !! k = reg_tasks r !! k ∧ raw r' k = raw r k) →
  (∀ ws, ws ∈ w_spawned (reg_world r') → ws ∈ w_spawned (reg_world r) ∨ ws.1 = id) →
  cell_ok (w_spawned (reg_world r')) (reg_tasks r' !! id) (raw r' id) →
  tracked r'.
Proof.
  intros Hk [_ Ht] Hst Hf Hsp Hc. split; [done|]. intros k.
  destruct (decide (k = id)) as [->|Hne]; [done|]. destruct (Hf k Hne) as [-> ->].
  specialize (Ht k). unfold cell_ok in *.
  destruct (reg_tasks r !! k) as [t|] eqn:Et; [|done]. destruct (raw r k) as [rec|]; [|done].
  destruct Ht as [[Hb Hs]|Ht]; [left; split; [done|]|by right].
  apply (keyed_lookup _ _ _ Hk) in Et.
  destruct (tstate t); cbn in *; try done; destruct Hs as [Hs1 Hs2]; (split; [done|]).
  all: intros E [Hin|Hin]%Hsp; [by apply Hs2|]. all: cbn in Hin; congruence.
Qed.

Lemma cell_self sp t : cell_ok sp (Some t) (Some (record_of t)).
Proof. left. split; [done|]. cbn. destruct (tstate t); cbn; auto; by split. Qed.
(** A change that failed after its record landed. *)
Lemma cell_landed sp t t' :
  binding t' = binding t →
  state_tracks (tstate t) (recorded_of (tstate t')) (workspace_of (binding t) ∈ sp) →
  cell_ok sp (Some t) (Some (record_of t')).
Proof. intros Hb Hs. left. cbn. by rewrite Hb. Qed.

Lemma raw_set_tasks r x : raw (set_tasks r x) = raw r.
Proof. done. Qed.
Lemma raw_set_admission r x : raw (set_admission r x) = raw r.
Proof. done. Qed.
Lemma raw_set_seals r x : raw (set_seals r x) = raw r.
Proof. done. Qed.
Lemma raw_set_world r x : raw (set_world r x) = raw r.
Proof. done. Qed.
Lemma raw_set_workspaces r x : raw (set_workspaces r x) = raw r.
Proof. done. Qed.
Lemma raw_logged r x y : raw (logged r x y) = raw r.
Proof. done. Qed.
Lemma raw_retire r t : raw (retire t r) = raw r.
Proof. done. Qed.
Lemma raw_spawned r ws io : raw (spawned r ws io) = raw r.
Proof. done. Qed.
End Track.
#[export] Hint Rewrite @raw_set_tasks @raw_set_admission @raw_set_seals @raw_set_world
  @raw_set_workspaces @raw_logged @raw_retire @raw_spawned : raw.


Section Verbs.
Context (blake3 : list byte → Blake3Hash).
Context (ed25519 : list byte → list byte → list byte → bool).
Context (parse_manifest : list byte → option CapabilityManifestWire).
Context (parse_envelope : list byte → option TaskAdmissionEnvelopeWire).
Context (launchable : list byte → list (list byte) → bool).
Context `{Codec VersionsFile, Codec RevocationsFile, Codec RetiredAttemptsFile, CodecLaws TaskRecord}.

Lemma raw_wrote r rec id k :
  is_Some (reg_store r) → rec_id rec = id →
  raw (wrote r rec) k = if decide (k = id) then Some rec else raw r k.
Proof.
  intros Hst <-. destruct (decide _) as [->|]; [by apply raw_wrote_eq|by apply raw_wrote_ne].
Qed.
Lemma wrote_store r rec : is_Some (reg_store r) → is_Some (reg_store (wrote r rec)).
Proof. intros [d Hd]. cbn. rewrite Hd. eauto. Qed.

(** One task changed, with a record of it or of what it was about to become, written on top
    of a registry [r0] of the same verb. *)
Lemma tracked_spawned r r' r0 t ot orec :
  keyed r → tracked r → reg_tasks r !! tb_task (binding t) = Some t →
  reg_store r' = reg_store (wrote r0 orec) → rec_id orec = tb_task (binding t) →
  is_Some (reg_store r0) → (∀ k, k ≠ tb_task (binding t) → raw r0 k = raw r k) →
  (∀ ws, ws ∈ w_spawned (reg_world r') → ws ∈ w_spawned (reg_world r) ∨ ws.1 = tb_task (binding t)) →
  (reg_tasks r' = reg_tasks r ∧ ot = t ∨
   reg_tasks r' = <[tb_task (binding t) := ot]> (reg_tasks r)) →
  cell_ok (w_spawned (reg_world r')) (Some ot) (Some orec) → tracked r'.
Proof.
  intros Hk Hr Ht Hs Hid Hs0 Hr0 Hsp Hts Hc.
  assert (∀ k, raw r' k = if decide (k = tb_task (binding t)) then Some orec else raw r k) as Hraw.
  { intros k. unfold raw at 1. rewrite Hs. fold (raw (wrote r0 orec) k).
    rewrite (raw_wrote _ _ _ _ Hs0 Hid). destruct (decide _); [done|auto]. }
  apply (tracked_at r r' (tb_task (binding t))); try done.
  - rewrite Hs. by apply wrote_store.
  - intros k Hne. rewrite Hraw, decide_False by done. split; [|done].
    destruct Hts as [[-> _]| ->]; [done|]. by rewrite lookup_insert_ne.
  - rewrite Hraw, decide_True by done.
    destruct Hts as [[-> ->]| ->]; [by rewrite Ht|by rewrite lookup_insert_eq].
Qed.
Lemma tracked_written r r' r0 t ot orec :
  keyed r → tracked r → reg_tasks r !! tb_task (binding t) = Some t →
  reg_store r' = reg_store (wrote r0 orec) → rec_id orec = tb_task (binding t) →
  is_Some (reg_store r0) → (∀ k, k ≠ tb_task (binding t) → raw r0 k = raw r k) →
  w_spawned (reg_world r') = w_spawned (reg_world r) →
  (reg_tasks r' = reg_tasks r ∧ ot = t ∨
   reg_tasks r' = <[tb_task (binding t) := ot]> (reg_tasks r)) →
  cell_ok (w_spawned (reg_world r)) (Some ot) (Some orec) → tracked r'.
Proof.
  intros Hk Hr Ht Hs Hid Hs0 Hr0 Hsp Hts Hc. eapply tracked_spawned; try done; rewrite Hsp; [by left|done].
Qed.
Ltac tr_same :=
  intros; repeat progress (autorewrite with raw; rewrite ?raw_wrote_ne by (unfold rec_id; cbn; congruence));
  reflexivity.
Ltac tr_some := repeat apply wrote_store; match goal with T : tracked _ |- _ => exact (proj1 T) end.

Lemma tracked_commit t t' b ev o io r :
  keyed r → tracked r → reg_tasks r !! tb_task (binding t) = Some t → binding t' = binding t →
  state_tracks (tstate t) (recorded_of (tstate t')) (workspace_of (binding t) ∈ w_spawned (reg_world r)) →
  wp (commit t t' (append_evidence b ev o) io) (λ _, tracked) r.
Proof.
  intros Hk Hr Ht Hb Hs.
  assert (rec_id (record_of t') = tb_task (binding t)) as Hid by (unfold rec_id; cbn; by rewrite Hb).
  pose proof (cell_landed (w_spawned (reg_world r)) t t' Hb Hs) as Hl.
  pose proof (cell_self (w_spawned (reg_world r))) as Hself.
  unfold commit. wp_go; try exact Hr.
  all: first
    [ eapply (tracked_written r _ _ t t (record_of t'));
        [done|done|done|reflexivity|done|tr_some|tr_same|done|by left|exact Hl]
    | eapply (tracked_written r _ _ t t (record_of t));
        [done|done|done|reflexivity|done|tr_some|tr_same|done|by left|apply Hself]
    | eapply (tracked_written r _ _ t t' (record_of t'));
        [done|done|done|reflexivity|done|tr_some|tr_same|done|right; by rewrite <-Hb|apply Hself] ].
Qed.

Ltac tr_state := stable; state_cases; try match goal with S : tstate _ = _ |- _ => rewrite S end; cbn; auto; by split.
Ltac tr_commit :=
  eapply wp_mono;
    [ intros [[]|] ? Htr; [wp_go; exact Htr|exact Htr]
    | apply tracked_commit; [done|done|by erewrite keyed_lookup by done|done|tr_state] ].

Lemma tracked_pause v op b io r : keyed r → tracked r → wp (pause v op b io) (λ _, tracked) r.
Proof. intros Hk Hr. unfold pause. wp_to_commit; try exact Hr. tr_commit. Qed.
Lemma tracked_resume v op b io r : keyed r → tracked r → wp (resume v op b io) (λ _, tracked) r.
Proof. intros Hk Hr. unfold resume. wp_to_commit; try exact Hr. tr_commit. Qed.
Lemma tracked_seal v op b io r : keyed r → tracked r → wp (seal v op b io) (λ _, tracked) r.
Proof. intros Hk Hr. unfold seal. wp_to_commit; try exact Hr. tr_commit. Qed.

(** A change in memory only. *)
Lemma tracked_put r r' t t2 :
  keyed r → tracked r → reg_tasks r' = <[tb_task (binding t2) := t2]> (reg_tasks r) →
  reg_tasks r !! tb_task (binding t) = Some t → binding t2 = binding t →
  w_spawned (reg_world r') = w_spawned (reg_world r) → reg_store r' = reg_store r →
  live (tstate t) = true → (live (tstate t2) || finished (tstate t2)) && negb (bool_decide (tstate t2 = Sealed)) = true →
  tracked r'.
Proof.
  intros Hk Hr E Ht Hb Hsp Hst Hl Hf. assert (∀ k, raw r' k = raw r k) as Hraw by (intros; unfold raw; by rewrite Hst).
  apply (tracked_at r r' (tb_task (binding t))); [done|done|rewrite Hst; apply Hr| | |].
  - intros k Hne. split; [|done]. rewrite E, lookup_insert_ne by congruence. done.
  - intros ws. rewrite Hsp. by left.
  - rewrite Hsp, Hraw, E, Hb, lookup_insert_eq. pose proof (proj2 Hr (tb_task (binding t))) as Hc.
    rewrite Ht in Hc. unfold cell_ok in *. rewrite Hb. bool_inv.
    destruct (raw r _) as [rec|]; [|by rewrite Hc in Hl].
    destruct Hc as [[? Hs]|[Hfin _]]; [|by destruct (tstate t)]. left. split; [done|].
    destruct (tstate t); try done; cbn in Hs; destruct (tstate t2); cbn; try done.
    all: destruct Hs as [Hs|[Hs|Hs]]; rewrite Hs; auto; by split.
Qed.
Lemma tracked_begin_stop v op b io r : keyed r → tracked r → wp (begin_stop v op b io) (λ _, tracked) r.
Proof.
  intros Hk Hr. unfold begin_stop. wp_to_commit; try exact Hr; simplify_eq; try tr_commit.
  all: match goal with E : end_attempt _ = _ |- _ =>
         apply end_attempt_Some in E as (Hb & Hs & _); [|by rewrite Heqt0] end.
  all: (eapply tracked_put; [done|done|reflexivity|by erewrite keyed_lookup by done|done|done|done|by rewrite Heqt0|];
        cbn; by rewrite Hs).
Qed.
Lemma tracked_begin_revoke v op b io r :
  keyed r → tracked r → wp (begin_revoke v op b io) (λ _, tracked) r.
Proof.
  intros Hk Hr. unfold begin_revoke. wp_to_commit; try exact Hr.
  apply wp_revoke_lease; [|exact Hr]. intros a [[]|e] a' _ _; [|exact Hr].
  wp_to_commit; simplify_eq.
  - destruct (live (tstate t)) eqn:El; [|done].
    match goal with E : end_attempt _ = _ |- _ => apply end_attempt_Some in E as (Hb & Hs & _); [|done] end.
    eapply tracked_put; [done|exact Hr|reflexivity|by erewrite keyed_lookup by done|done|done|done|done|].
    cbn. by rewrite Hs.
  - apply (wp_mono _ (λ _, tracked)); [intros [[]|] ? Htr; [wp_go; exact Htr|exact Htr]|].
    apply tracked_commit; [exact Hk|exact Hr|by erewrite keyed_lookup by done|done|].
    stable. destruct (tstate t) eqn:Es; try done; cbn; auto.
Qed.
Lemma tracked_finish_revoke op b io r : keyed r → tracked r → wp (finish_revoke op b io) (λ _, tracked) r.
Proof.
  intros Hk Hr. unfold finish_revoke. wp_to_commit; try exact Hr.
  apply task_at_Some in Heqo as [Ht Hb]. bool_inv.
  apply (wp_mono _ (λ _, tracked)); [intros [[]|] ? Htr; [wp_go; exact Htr|exact Htr]|].
  apply tracked_commit; [exact Hk|exact Hr|by rewrite Hb|done|].
  destruct (tstate n) eqn:Es; try done; cbn; auto.
Qed.
Lemma tracked_record_exit b n e u io r :
  keyed r → tracked r → wp (record_exit b n e u io) (λ _, tracked) r.
Proof.
  intros Hk Hr. unfold record_exit. wp_go; try exact Hr.
  all: apply task_at_Some in Heqo as [Ht Hb].
  all: apply finish_attempt_Some in Heqo0 as (Hb' & Hf & Hs & _); cbn in Hb'.
  all: rewrite Hb in Hb'.
  all: try (eapply tracked_put; [done|done|reflexivity|rewrite Hb; exact Ht|by rewrite Hb', Hb|done|done|done|];
            rewrite Hf, bool_decide_eq_false_2 by done; by rewrite orb_true_r).
  all: (eapply (tracked_written r _ _ n0 n1 (record_of n1));
          [done|done|rewrite Hb; exact Ht|reflexivity|unfold rec_id; cbn; by rewrite Hb', Hb|
           exact (proj1 Hr)|tr_same|done|right; rewrite Hb, <-Hb'; reflexivity|by apply cell_self]).
Qed.
Lemma tracked_reap b n e u io r : keyed r → tracked r → wp (reap b n e u io) (λ _, tracked) r.
Proof.
  intros Hk Hr. unfold reap. wp_step. eapply wp_mono; [|by apply tracked_record_exit].
  by intros [[]|] r' Hg.
Qed.
(** The three ends of an [admit] that wrote its record. *)
Lemma tracked_ready r t op json proof v :
  keyed r → tracked r → reg_tasks r !! tb_task (binding t) = Some t → tstate t = Created →
  let t1 := ready_of blake3 t op json proof v in
  let t2 := set_admit t1 (admit_rec t1) (Some (MkAdmitted op json proof v)) in
  ∀ r', w_spawned (reg_world r') = w_spawned (reg_world r) →
  (reg_store r' = reg_store (wrote r (record_of t1)) ∧
   (reg_tasks r' = reg_tasks r ∨ reg_tasks r' = <[tb_task (binding t) := t2]> (reg_tasks r)) ∨
   reg_store r' = reg_store (wrote (wrote r (record_of t1)) (record_of t)) ∧ reg_tasks r' = reg_tasks r) →
  tracked r'.
Proof.
  intros Hk Hr Ht Hs t1 t2 r' Hsp [[E [Et|Et]]|[E Et]].
  - eapply (tracked_written r _ _ t t (record_of t1)); [done|done|done|exact E|done|tr_some|done|done|by left|].
    apply cell_landed; [done|]. rewrite Hs. cbn. auto.
  - eapply (tracked_written r _ _ t t2 (record_of t1)); [done|done|done|exact E|done|tr_some|done|done|by right|].
    apply (cell_self _ t2).
  - eapply (tracked_written r _ _ t t (record_of t));
      [done|done|done|exact E|done|tr_some|tr_same|done|by left|apply cell_self].
Qed.
Lemma tracked_admit op b json proof io r :
  keyed r → tracked r →
  wp (admit_task blake3 ed25519 parse_manifest parse_envelope launchable op b json proof io) (λ _, tracked) r.
Proof.
  intros Hk Hr. unfold admit_task.
  wp_to_commit; try exact Hr; stable;
    match goal with T : reg_tasks r !! tb_task b = Some ?t, S : tstate ?t = Created,
                    V : admission_verify _ _ _ _ _ _ _ _ _ _ = Ok ?v |- _ =>
      rewrite <-(keyed_lookup _ _ _ Hk T) in T;
      pose proof (tracked_ready r t op json proof v Hk Hr T S) as Hend end; cbv zeta in Hend.
  - apply wp_commit_admission; [intros a0 x a1 _ _; destruct x as [[]|]|]; wp_go.
    all: (apply Hend; [done|]; first [left; split; [reflexivity|first [left; reflexivity|right; reflexivity]]
                                     |right; split; reflexivity]).
  - apply Hend; [done|]. left. split; [done|by left].
Qed.

Lemma raw_removed r id k :
  raw (removed r id) k = if decide (k = id) then None else raw r k.
Proof.
  unfold raw, removed. cbn. destruct (reg_store r) as [d|]; cbn; [|by destruct (decide _)].
  unfold raw_dir. cbn. destruct (decide _) as [->|]; [by rewrite lookup_delete_eq|by rewrite lookup_delete_ne].
Qed.
Lemma tracked_removed r id t :
  keyed r → tracked r → reg_tasks r !! id = Some t → is_Some (sealed t) → tracked (removed r id).
Proof.
  intros Hk Hr Ht Hs. apply (tracked_at r _ id); [done|done|cbn; by rewrite fmap_is_Some; apply Hr| |by left|].
  - intros k Hne. by rewrite raw_removed, decide_False.
  - rewrite raw_removed, decide_True by done. cbn. rewrite Ht. by apply (Hk _ _ Ht).
Qed.
Lemma tracked_evicted r id t :
  keyed r → tracked r → reg_tasks r !! id = Some t → is_Some (sealed t) →
  let r' := retire t (set_tasks (removed r id) (delete id (reg_tasks r))) in keyed r' ∧ tracked r'.
Proof.
  intros Hk Hr Ht Hs r'. split; [by eapply (good_delete r r' id t)|].
  apply (tracked_at r _ id); [done|done|cbn; by rewrite fmap_is_Some; apply Hr| |by left|]; subst r'.
  - intros k Hne. autorewrite with raw. rewrite raw_removed, decide_False by done. split; [|done].
    cbn. by rewrite lookup_delete_ne.
  - autorewrite with raw. rewrite raw_removed, decide_True by done. cbn. by rewrite lookup_delete_eq.
Qed.
(** A new task, recorded before it is known. *)
Lemma tracked_fresh op b io r :
  keyed r → tracked r → reg_tasks r !! tb_task b = None →
  wp (_ ← journal (record_of (NodeTask_new b op)) (io_write io);
      _ ← put_task (NodeTask_new b op); mret (b, Created)) (λ _, tracked) r.
Proof.
  intros Hk Hr Hn. wp_go; try exact Hr.
  all: (apply (tracked_at r _ (tb_task b)); [done|done|by apply wrote_store, Hr| |by left|]).
  all: try (intros k Hne; autorewrite with raw; rewrite raw_wrote_ne by done; split; [|done];
            cbn; by rewrite ?lookup_insert_ne by done).
  all: autorewrite with raw; rewrite raw_wrote_eq; [|apply Hr|done]; cbn; rewrite ?lookup_insert_eq, ?Hn;
       first [apply cell_self|reflexivity].
Qed.
Lemma tracked_create op b io r : keyed r → tracked r → wp (create op b io) (λ _, tracked) r.
Proof.
  intros Hk Hr. unfold create. wp_step. wp_step. wp_step; wp_step; [|exact Hr].
  destruct (reg_tasks r !! tb_task b) as [t|] eqn:Ht.
  - pose proof (keyed_lookup _ _ _ Hk Ht) as Hb.
    wp_go; try exact Hr. apply wp_retire_current; [|exact Hr]. intros a' x s _ _.
    destruct x as [[]|x]; cbn; [|exact Hr]. bool_inv. subst.
    assert (tb_attempt b ≠ tb_attempt (binding t)) as Hne by (apply not_eq_sym; by apply matches_AttemptMismatch).
    wp_go; try exact Hr.
    + eapply (tracked_written r _ _ t (NodeTask_new b op) (record_of (NodeTask_new b op)));
        [done|done|by rewrite Hb|reflexivity|by rewrite Hb|tr_some|tr_same|done|right; by rewrite Hb|apply cell_self].
    + eapply (tracked_written r _ _ t t (record_of (NodeTask_new b op)));
        [done|done|by rewrite Hb|reflexivity|by rewrite Hb|tr_some|tr_same|done|by left|by right].
  - wp_step. wp_step; [apply wp_evict|].
    + wp_go; try done.
    + intros id t Hid Hs. wp_go; try done. by eapply tracked_removed.
    + intros id t Hid Hs. destruct (tracked_evicted r id t) as [Hk' Hr']; try done.
      wp_step. wp_step; [|done]. apply tracked_fresh; [done|done|]. cbn. by rewrite lookup_delete_ne by congruence.
    + wp_step. wp_step. wp_step; [|done]. by apply tracked_fresh.
Qed.

(** An attempt that ended without a confirmed spawn. *)
Lemma cell_exited sp t rec :
  tstate t = Exited → tr_binding rec = binding t → tr_state rec ≠ RecCreated →
  (tr_state rec = RecReady → workspace_of (binding t) ∉ sp) → cell_ok sp (Some t) (Some rec).
Proof. intros Hs Hb Hc Hr. left. rewrite Hs. done. Qed.

Ltac launch_end Hend Hs :=
  eapply Hend;
  [ reflexivity | tr_some | tr_same | reflexivity
  | cbn; try match goal with S : io_spawn _ = _ |- _ => rewrite S end;
    first [left; reflexivity | right; split; [reflexivity|discriminate]]
  | first
      [ left; split; [reflexivity|split; [reflexivity|cbn; rewrite ?Hs; cbn; auto; fail]]
      | right; split; [reflexivity|split; [reflexivity|cbn; rewrite ?Hs; cbn;
          first [left; split; reflexivity | right; split; [reflexivity|discriminate]]]] ] ].

Lemma tracked_launch op b c p io r t :
  keyed r → tracked r → once (reg_world r) → startable r b io t c p →
  wp (launch op b (workspace_of b) c p io) (λ _, tracked)
    (set_workspaces r (w_workspaces (reg_world r) ∪ {[workspace_of b]})).
Proof.
  intros Hk Hr Ho Hst. pose proof (sa_task _ _ _ _ _ _ Hst) as Ht. pose proof (sa_ready _ _ _ _ _ _ Hst) as Hs.
  assert (workspace_of (binding t) = workspace_of b) as Hws.
  { unfold workspace_of. rewrite (sa_attempt _ _ _ _ _ _ Hst). by rewrite (keyed_lookup _ _ _ Hk Ht). }
  assert (workspace_of (binding t) ∉ w_spawned (reg_world r)) as Hf.
  { rewrite Hws. intros Hin%Ho. by apply (sa_fresh _ _ _ _ _ _ Hst). }
  pose proof (keyed_lookup _ _ _ Hk Ht) as Hb. rewrite <-Hb in Ht.
  assert (∀ r' r0 ot rec,
    reg_store r' = reg_store (wrote r0 rec) → is_Some (reg_store r0) →
    (∀ k, k ≠ tb_task (binding t) → raw r0 k = raw r k) → tr_binding rec = binding t →
    (w_spawned (reg_world r') = w_spawned (reg_world r) ∨
     w_spawned (reg_world r') = w_spawned (reg_world r) ++ [workspace_of b] ∧ tr_state rec ≠ RecReady) →
    (reg_tasks r' = reg_tasks r ∧ ot = t ∧ (tr_state rec = RecReady ∨ tr_state rec = RecLaunching) ∨
     reg_tasks r' = <[tb_task (binding t) := ot]> (reg_tasks r) ∧ binding ot = binding t ∧
     (tstate ot = Running ∧ tr_state rec = RecRunning ∨ tstate ot = Exited ∧ tr_state rec ≠ RecCreated)) →
    tracked r') as Hend.
  { intros r' r0 ot rec E Hr0 Hraw Hbr Hsp Hts.
    eapply (tracked_spawned r r' r0 t ot rec); try done.
    - unfold rec_id. by rewrite Hbr.
    - intros ws Hin. destruct Hsp as [Hsp|[Hsp _]]; rewrite Hsp in Hin; [by left|].
      apply elem_of_app in Hin as [Hin|Hin%list_elem_of_singleton]; [by left|right]. by rewrite Hin, Hb.
    - destruct Hts as [(? & ? & _)|(? & _)]; auto.
    - destruct Hts as [(_ & -> & Hrec)|(_ & Hbo & Hrec)].
      + left. rewrite Hs. split; [done|]. cbn. tauto.
      + destruct Hrec as [[Hrun Hrec]|[Hex Hrec]].
        * left. rewrite Hrun, Hbr, Hbo. split; [done|]. cbn. auto.
        * apply cell_exited; [done|congruence|done|]. intros Hrr. rewrite Hbo.
          destruct Hsp as [Hsp|[_ Hsp]]; [by rewrite Hsp|done]. }
  unfold launch, record_spawn, ambiguous_end. wp_step. wp_step. cbn [reg_tasks set_workspaces set_world].
  rewrite <-Hb, Ht. wp_go; try exact Hr.
  all: try (apply wp_discard; wp_go; try exact Hr).
  all: try (apply wp_spawn; wp_go).
  all: try (apply wp_discard; wp_go).
  all: launch_end Hend Hs.
Qed.

Lemma tracked_start v op b io r :
  keyed r → tracked r → once (reg_world r) → wp (start v op b io) (λ _, tracked) r.
Proof.
  intros Hk Hr Ho. unfold start. wp_step. apply wp_prepare.
  - intros. wp_go. exact Hr.
  - intros. exact Hr.
  - intros. exact Hr.
  - intros t c p Hst _. by apply (tracked_launch op b c p io r t).
Qed.

Lemma step_tracked r r' :
  keyed r → once (reg_world r) → tracked r →
  step blake3 ed25519 parse_manifest parse_envelope launchable r r' → tracked r'.
Proof.
  intros Hk Ho Hr. apply (step_preserves _ _ _ _ _ (λ _, tracked)); intros; eauto using tracked_create, tracked_admit, tracked_start,
    tracked_pause, tracked_resume, tracked_seal, tracked_begin_stop, tracked_begin_revoke,
    tracked_finish_revoke, tracked_reap.
Qed.
End Verbs.

(** ** Restart *)
Section Restart.
Context `{CodecLaws TaskRecord}.

Lemma recover_Ok cap a ex path d writes ev w r' :
  recover cap a ex path d writes ev w = Ok r' →
  reg_capacity r' = cap ∧ reg_execution r' = ex ∧ reg_retired r' = [] ∧ reg_world r' = w ∧
  is_Some (reg_store r') ∧ (size (reg_tasks r') ≤ cap)%nat ∧
  ∀ id, reg_tasks r' !! id = task_of <$> raw_dir d id ∧
    raw r' id = (λ rec, if (recovered rec).2 then record_of (task_of rec) else rec) <$> raw_dir d id ∧
    ∀ rec, raw_dir d id = Some rec → rec_id rec = id ∧ is_valid_for rec id = true.
Proof.
  unfold recover. intros Hr. apply bind_Ok in Hr as (u & _ & Hr). apply bind_Ok in Hr as (recs & Hl & Hr).
  apply bind_Ok in Hr as ([[ts n] d'] & Hall & Hr). injection Hr as <-.
  apply load_Ok in Hl as (Hlen & Hnd & Hraw & Hval).
  apply recover_all_Ok in Hall as [-> Hd]; [|done]. cbn. rewrite (right_id_L ∅ (∪)).
  assert (∀ id rec, raw_dir d id = Some rec → rec_id rec = id ∧ is_valid_for rec id = true) as Hids.
  { intros id rec Hid. rewrite <-Hraw in Hid. unfold by_task in Hid.
    apply elem_of_list_to_map_2, list_elem_of_fmap in Hid as (rec' & [= -> ->] & Hin).
    rewrite Forall_forall in Hval. split; [done|by apply Hval]. }
  split_and!; try done.
  - rewrite map_size_fmap. unfold by_task. rewrite map_size_list_to_map, length_fmap; [done|].
    by rewrite <-list_fmap_compose.
  - intros id. rewrite lookup_fmap, Hraw. split_and!; [done| |by apply Hids].
    unfold raw. cbn. unfold raw_dir at 1. rewrite Hd, lookup_union, lookup_omap, Hraw.
    unfold raw_dir. destruct (rd_files d !! id) as [e|] eqn:Ee; cbn; [|done].
    destruct (raw_entry e) as [rec|] eqn:Er; cbn; [|by rewrite Er].
    unfold rewritten. destruct (recovered rec).2; cbn; [apply from_to_vec|done].
Qed.

(** What a restart makes of a task whose record is the one it last wrote: a task that was only
    created or admitted must be admitted again, a live attempt has exited, and a finished one
    stays what it was. *)
Definition restarted (s : TaskLifecycleState) : TaskLifecycleState :=
  match s with Created | Ready => Created | Running | Paused => Exited | s => s end.

(** What a restart can make of a task when writes failed before it. The record of an admitted
    task may already say that it was launched, stopped or revoked; that of a live one may
    already say that it was revoked; that of a finished one may still be any that it had
    since its launch began, or, when it never ran, the admitted one, or already be the sealed
    one or the one of its next attempt. *)
Inductive restart_view (ran : ExecutionAttemptId → Prop) : View → View → Prop :=
| rv_absent : restart_view ran None None
| rv_landed a : restart_view ran None (Some (a, Created))
| rv_created a : restart_view ran (Some (a, Created)) (Some (a, Created))
| rv_unadmitted a : restart_view ran (Some (a, Ready)) (Some (a, Created))
| rv_moved a s' : s' = Exited ∨ s' = Stopped ∨ s' = Revoked →
    restart_view ran (Some (a, Ready)) (Some (a, s'))
| rv_live a s s' : live s = true → s' = Exited ∨ s' = Revoked →
    restart_view ran (Some (a, s)) (Some (a, s'))
| rv_ended a s s' : finished s = true → s ≠ Sealed → finished s' = true →
    restart_view ran (Some (a, s)) (Some (a, s'))
| rv_refused a s : finished s = true → s ≠ Sealed → ¬ ran a →
    restart_view ran (Some (a, s)) (Some (a, Created))
| rv_replaced a a' s : finished s = true → a' ≠ a → restart_view ran (Some (a, s)) (Some (a', Created))
| rv_sealed a : restart_view ran (Some (a, Sealed)) (Some (a, Sealed))
| rv_evicted a : restart_view ran (Some (a, Sealed)) None.
#[local] Hint Constructors restart_view : core.

Definition recovered_state (rs : RecordedState) : TaskLifecycleState :=
  match rs with
  | RecCreated | RecReady => Created
  | RecLaunching | RecRunning | RecPaused | RecExited => Exited
  | RecStopped => Stopped | RecRevoked => Revoked | RecSealed => Sealed
  end.
Lemma task_of_state rec : tstate (task_of rec) = recovered_state (tr_state rec).
Proof. unfold task_of, recovered. by destruct (tr_state rec). Qed.
Lemma task_of_record t :
  binding (task_of (record_of t)) = binding t ∧ tstate (task_of (record_of t)) = restarted (tstate t) ∧
  attempt (task_of (record_of t)) = None ∧ admitted (task_of (record_of t)) = None ∧
  (live (tstate t) = true →
   receipt (task_of (record_of t)) = (λ a, MkReceipt (binding t) (ad_session a) Unknown) <$> admit_rec t) ∧
  (finished (tstate t) = true → is_Some (admit_rec t) →
   rc_outcome <$> receipt (task_of (record_of t)) = rc_outcome <$> receipt t).
Proof.
  unfold task_of, recovered. cbn. destruct (tstate t); cbn; split_and!; try done.
  all: intros _ [a ->]; by destruct (receipt t).
Qed.
Lemma task_of_sealed rec id : is_valid_for rec id = true → sealed_iff (task_of rec).
Proof.
  unfold is_valid_for. intros Hv. bool_inv. unfold sealed_iff. rewrite task_of_state.
  assert (sealed (task_of rec) = tr_sealed rec) as -> by (unfold task_of, recovered; by destruct (tr_state rec)).
  match goal with E : is_Some (tr_sealed rec) ↔ _ |- _ => rewrite E end. by destruct (tr_state rec).
Qed.
Lemma recovered_cell sp rec :
  cell_ok sp (Some (task_of rec)) (Some (if (recovered rec).2 then record_of (task_of rec) else rec)).
Proof.
  destruct (recovered rec).2 eqn:Ec; [apply cell_self|]. left. rewrite recovered_binding, task_of_state.
  split; [done|]. unfold recovered in Ec. destruct (tr_state rec); cbn in *; try done; auto; by split.
Qed.
Lemma cell_restarts sp id t rec :
  tb_task (binding t) = id → cell_ok sp (Some t) (Some rec) →
  restart_view (λ a, (id, a) ∈ sp) (Some (tb_attempt (binding t), tstate t))
    (Some (tb_attempt (tr_binding rec), recovered_state (tr_state rec))).
Proof.
  intros Hid [[-> Hs]|(Hf & -> & Hne)]; [|cbn; auto]. unfold workspace_of in Hs. rewrite Hid in Hs.
  destruct (tstate t); cbn in Hs.
  - destruct Hs as [->| ->]; cbn; auto.
  - destruct Hs as [->|[->|[->| ->]]]; cbn; auto.
  - destruct Hs as [->|[->| ->]]; cbn; auto.
  - destruct Hs as [->|[->| ->]]; cbn; auto.
  - destruct Hs as [Hc Hr]. destruct (tr_state rec); cbn; auto; done.
  - destruct Hs as [Hc Hr]. destruct (tr_state rec); cbn; auto; done.
  - destruct Hs as [Hc Hr]. destruct (tr_state rec); cbn; auto; done.
  - rewrite Hs. cbn. auto.
Qed.

Lemma recover_keyed cap a ex path d writes ev w r' :
  recover cap a ex path d writes ev w = Ok r' → keyed r' ∧ tracked r' ∧ executing r' = 0%nat.
Proof.
  intros (_ & _ & Hret & Hw & Hst & _ & Hids)%recover_Ok. split_and!.
  - intros id t Ht. destruct (Hids id) as (Hl & _ & Hv). rewrite Hl in Ht.
    apply fmap_Some in Ht as (rec & Hrec & ->). destruct (Hv rec Hrec) as [Hid Hval].
    rewrite recovered_binding. split; [done|by eapply task_of_sealed].
  - split; [done|]. intros id. destruct (Hids id) as (Hl & Hr & _). rewrite Hl, Hr.
    destruct (raw_dir d id); [apply recovered_cell|done].
  - rewrite executing_eq, Hret. cbn. rewrite Nat.add_0_r. unfold attempts.
    assert (omap attempt (map_to_list (reg_tasks r')).*2 = []) as ->; [|done].
    destruct (omap _ _) as [|x l] eqn:E; [done|]. exfalso.
    assert (x ∈ omap attempt (map_to_list (reg_tasks r')).*2) as Hx by (rewrite E; apply list_elem_of_here).
    apply list_elem_of_omap in Hx as (t & Hin & Hx). apply list_elem_of_fmap in Hin as ([id t'] & -> & Hin).
    apply elem_of_map_to_list in Hin. cbn in Hx. destruct (Hids id) as (Hl & _). rewrite Hl in Hin.
    apply fmap_Some in Hin as (rec & _ & ->). by rewrite recovered_attempt in Hx.
Qed.

Lemma restart_views r cap a ex path d writes ev r' :
  keyed r → tracked r → reg_store r = Some d → recover cap a ex path d writes ev (reg_world r) = Ok r' →
  ∀ id, restart_view (λ a, (id, a) ∈ w_spawned (reg_world r)) (view r id) (view r' id).
Proof.
  intros Hk [_ Hc] Hd (_ & _ & _ & _ & _ & _ & Hids)%recover_Ok id.
  destruct (Hids id) as (Hl & _ & Hv). specialize (Hc id). unfold view. rewrite Hl.
  unfold raw in Hc. rewrite Hd in Hc. cbn in Hc.
  destruct (raw_dir d id) as [rec|]; cbn; destruct (reg_tasks r !! id) as [t|] eqn:Et; cbn.
  - rewrite recovered_binding, task_of_state. apply cell_restarts; [by eapply keyed_lookup|done].
  - cbn in Hc. rewrite task_of_state, Hc. cbn. auto.
  - cbn in Hc. rewrite Hc. auto.
  - auto.
Qed.
End Restart.

(** ** A node over time: its steps and its restarts *)
Definition limits_ok (ex : option NodeExecution) : Prop :=
  ∀ e l, ex = Some e → ex_scheduling e = Some l →
    SchedulingLimits_new (max_running l) (memory_floor_bytes l) (disk_floor_bytes l) = Some l.

Section Node.
Context (blake3 : list byte → Blake3Hash).
Context (ed25519 : list byte → list byte → list byte → bool).
Context (parse_manifest : list byte → option CapabilityManifestWire).
Context (parse_envelope : list byte → option TaskAdmissionEnvelopeWire).
Context (launchable : list byte → list (list byte) → bool).
Context `{Codec VersionsFile, Codec RevocationsFile, Codec RetiredAttemptsFile, CodecLaws TaskRecord}.

(** A restarted node reads the state directory and the task records the last one left; its
    configuration may differ. *)
Inductive node_step : Registry → Registry → Prop :=
| ns_step r r' : step blake3 ed25519 parse_manifest parse_envelope launchable r r' → node_step r r'
| ns_restart r a a' s sp sio cap ex path d writes ev r' :
    reg_admission r = Some a → reg_store r = Some d → limits_ok ex →
    open sp (dir (state a)) (node (state a)) sio = Ok s →
    recover cap (set_state a' s) ex path d writes ev (reg_world r) = Ok r' → node_step r r'.

Record node_inv (r : Registry) : Prop := {
  ni_keyed : keyed r;
  ni_tracked : tracked r;
  ni_bounds : within_bounds r;
}.

Lemma recover_inv cap a ex path d writes ev w r :
  recover cap a ex path d writes ev w = Ok r → once w → limits_ok ex → node_inv r.
Proof.
  intros Hr Ho Hl. pose proof (recover_keyed _ _ _ _ _ _ _ _ _ Hr) as (Hk & Ht & He).
  apply recover_Ok in Hr as (Hc & Hex & _ & Hw & _ & Hsz & _). split; [done|done|]. split.
  - by rewrite Hc.
  - rewrite Hex, He. intros e l -> Hsch. specialize (Hl e l eq_refl Hsch).
    unfold SchedulingLimits_new in Hl. destruct (_ && _) eqn:E; [|done]. bool_inv. lia.
  - by rewrite Hw.
Qed.
Lemma node_step_inv r r' : node_inv r → node_step r r' → node_inv r'.
Proof.
  intros [Hk Ht Hb] Hst. destruct Hst as [r r' Hst|r a a' s sp sio cap ex path d writes ev r' _ _ Hl _ Hrec].
  - pose proof (step_within _ _ _ _ _ _ _ Hk Hb Hst) as [Hk' Hb'].
    split; [done| |done]. by eapply step_tracked; [| |apply Hb| |].
  - eapply recover_inv; [done|apply Hb|done].
Qed.
Lemma node_steps_inv r r' : node_inv r → rtc node_step r r' → node_inv r'.
Proof. intros Hi Hst. induction Hst; eauto using node_step_inv. Qed.

(** C3. Each attempt runs at most once: from a node's first start on, over every verb, failure
    and restart, no attempt of a task is given to a launcher twice with an outcome that may
    have run it, whether its task was evicted, created again or recovered. *)
Theorem attempts_run_once cap a ex path d writes ev w r r' :
  recover cap a ex path d writes ev w = Ok r → once w → limits_ok ex → rtc node_step r r' →
  NoDup (w_spawned (reg_world r')).
Proof. intros Hr Ho Hl Hst. by destruct (node_steps_inv r r' (recover_inv _ _ _ _ _ _ _ _ _ Hr Ho Hl) Hst) as [_ _ [_ _ []]]. Qed.

(** C5. A node takes on no more than it was configured for: it never holds more tasks than its
    capacity nor executes more attempts at once than [--max-running]. *)
Theorem node_stays_within_bounds cap a ex path d writes ev w r r' :
  recover cap a ex path d writes ev w = Ok r → once w → limits_ok ex → rtc node_step r r' →
  (size (reg_tasks r') ≤ reg_capacity r')%nat ∧
  ∀ e l, reg_execution r' = Some e → ex_scheduling e = Some l → Z.of_nat (executing r') ≤ max_running l.
Proof.
  intros Hr Ho Hl Hst. by destruct (node_steps_inv r r' (recover_inv _ _ _ _ _ _ _ _ _ Hr Ho Hl) Hst) as [_ _ []].
Qed.

(** C4. A restart forgets no execution: whatever ran and whichever writes failed before it, a
    restarted node executes nothing. A task whose last record reached the disk comes back
    with its binding and without its admission, as created when it was created or admitted,
    as exited with an unknown outcome when it was running or paused, and in its own state
    with its own outcome when it was finished. When writes failed, a task still comes back
    only as [restart_view] says: a live attempt as exited or revoked, and a finished one as
    finished, unless it never ran, was sealed and forgotten, or was replaced. *)
Theorem restart_recovers cap a ex path d writes ev w r r1 cap' a' ex' path' d' writes' ev' r' :
  recover cap a ex path d writes ev w = Ok r → once w → limits_ok ex → rtc node_step r r1 →
  reg_store r1 = Some d' →
  recover cap' a' ex' path' d' writes' ev' (reg_world r1) = Ok r' →
  executing r' = 0%nat ∧
  (∀ id, restart_view (λ at_, (id, at_) ∈ w_spawned (reg_world r1)) (view r1 id) (view r' id)) ∧
  (∀ id t, reg_tasks r1 !! id = Some t → raw r1 id = Some (record_of t) →
     ∃ t', reg_tasks r' !! id = Some t' ∧ binding t' = binding t ∧ tstate t' = restarted (tstate t) ∧
       attempt t' = None ∧ admitted t' = None ∧
       (live (tstate t) = true →
        receipt t' = (λ ad, MkReceipt (binding t) (ad_session ad) Unknown) <$> admit_rec t) ∧
       (finished (tstate t) = true → is_Some (admit_rec t) →
        rc_outcome <$> receipt t' = rc_outcome <$> receipt t)) ∧
  (∀ id t t', reg_tasks r1 !! id = Some t → live (tstate t) = true → reg_tasks r' !! id = Some t' →
     tstate t' = Exited → ∀ rc, receipt t' = Some rc → rc_outcome rc = Unknown).
Proof.
  intros Hr Ho Hl Hst Hd Hrec.
  destruct (node_steps_inv r r1 (recover_inv _ _ _ _ _ _ _ _ _ Hr Ho Hl) Hst) as [Hk Ht _].
  split_and!; [by eapply recover_keyed|by eapply restart_views| |].
  all: apply recover_Ok in Hrec as (_ & _ & _ & _ & _ & _ & Hids).
  { intros id t _ Hraw. unfold raw in Hraw. rewrite Hd in Hraw. cbn in Hraw. destruct (Hids id) as (Hl' & _ & _).
    exists (task_of (record_of t)). rewrite Hl', Hraw. split; [done|apply task_of_record]. }
  intros id t t' Hlk Hlive Hlk' Hex.
  destruct (Hids id) as (Hl' & _ & _). rewrite Hl' in Hlk'. apply fmap_Some in Hlk' as (rec & Hrec & ->).
  pose proof (proj2 Ht id) as Hc. rewrite Hlk in Hc. unfold raw in Hc. rewrite Hd in Hc. cbn [mbind option_bind] in Hc.
  rewrite Hrec in Hc. destruct Hc as [[_ Hs]|[Hf _]]; [|by destruct (tstate t)].
  rewrite task_of_state in Hex. intros rc Hrc.
  assert (tr_state rec = RecRunning ∨ tr_state rec = RecPaused) as Hrs.
  { destruct (tstate t); try done; destruct Hs as [Hs|[Hs|Hs]]; auto; by rewrite Hs in Hex. }
  unfold task_of, recovered in Hrc. destruct Hrs as [E|E]; rewrite E in Hrc; cbn in Hrc;
    (destruct (tr_admitted rec); [|done]); by injection Hrc as <-.
Qed.
End Node.
