(* ===== verification/Answers.v ===== *)
(** * Answers: what a node's reply to a request means

    The replies of [TaskRegistry::serve] ([crates/ward-node/src/task.rs]): the task of
    an accepted verb is in the state answered, and on disk so when anything changed; a rejected
    one changed no task; and the same request again is answered the same and changes nothing. *)

From stdpp Require Import base numbers option gmap sorting strings vector list.
From S2P Require Import Prelude Bytes Ids Authority Revocation Manifest NodeState Admission Task.
From S2P Require Import Registry Lifecycle Bounds Recovery.

Local Open Scope Z_scope.

(** ** Accepted and rejected *)
Section Posts.
Context `{CodecLaws TaskRecord}.

(** The task of an accepted verb is in the state answered. Either the registry is the one the
    verb found (a replay), or the task is recorded so, but for a spawn that could not be
    confirmed. *)
Definition accepted_post (r : Registry) (b : TaskBinding) (s : TaskLifecycleState) (r' : Registry) : Prop :=
  ∃ t, reg_tasks r' !! tb_task b = Some t ∧ binding t = b ∧ tstate t = s ∧
    (r' = r ∨ raw r' (tb_task b) = Some (record_of t) ∨ s = Exited ∧ started_by t ≠ None).
(** A rejected verb changed no task; only a [create] may have made room first. *)
Definition rejected_post (r r' : Registry) : Prop :=
  reg_tasks r' = reg_tasks r ∨
  ∃ id t, reg_tasks r !! id = Some t ∧ tstate t = Sealed ∧ reg_tasks r' = delete id (reg_tasks r).
(** A [stop] or [revoke] that waits has asked for the kill of a live attempt. *)
Definition waiting_post (r : Registry) (b : TaskBinding) (n : nat) (r' : Registry) : Prop :=
  ∃ t t' a, reg_tasks r !! tb_task b = Some t ∧ live (tstate t) = true ∧
    reg_tasks r' = <[tb_task b := t']> (reg_tasks r) ∧ binding t' = b ∧ tstate t' = Running ∧
    attempt t' = Some a ∧ a_stop a = true ∧ a_reaped a = n.

Definition verb_post (r : Registry) (b : TaskBinding) (x : result Reason TaskLifecycleState) (r' : Registry) : Prop :=
  match x with Ok s => accepted_post r b s r' | Err _ => rejected_post r r' end.
Definition reap_post (r : Registry) (b : TaskBinding) (x : result Reason ReapStep) (r' : Registry) : Prop :=
  match x with
  | Ok (Answer s) => accepted_post r b s r'
  | Ok (AwaitReap n) => waiting_post r b n r'
  | Err _ => rejected_post r r'
  end.

(** The state a request's reply shows a client for a task in [s]: the execution verbs exist in
    version 1.3 only and show it as it is, the others in the client's version. *)
Definition shown (v1_3 : bool) (req : Request) (s : TaskLifecycleState) : TaskLifecycleState :=
  match req with ReqStart _ _ | ReqStop _ _ | ReqRevoke _ _ => s | _ => visible v1_3 s end.
Definition request_binding (req : Request) : TaskBinding :=
  match req with
  | ReqCreate _ b | ReqAdmit _ b _ _ | ReqInspect b | ReqStart _ b | ReqPause _ b | ReqResume _ b
  | ReqStop _ b | ReqRevoke _ b | ReqSeal _ b | ReqStream b => b
  end.

Definition reply_post (v1_3 : bool) (req : Request) (r : Registry) (x : TaskLifecycleResponse + nat)
    (r' : Registry) : Prop :=
  match x with
  | inl (Accepted _ b s) =>
      b = request_binding req ∧ ∃ s', s = shown v1_3 req s' ∧ accepted_post r b s' r'
  | inl (Rejected _ b _) => b = request_binding req ∧ rejected_post r r'
  | inl (Inspected b s o) =>
      r' = r ∧ b = request_binding req ∧ ∃ t, reg_tasks r !! tb_task b = Some t ∧ binding t = b ∧
        s = visible v1_3 (tstate t) ∧
        o = if supports_outcome v1_3 (tstate t) then rc_outcome <$> receipt t else None
  | inr n => waiting_post r (request_binding req) n r'
  end.

(** The requests that take a second step after the reaper's. *)
Definition reaping (req : Request) : bool :=
  match req with ReqStop _ _ | ReqRevoke _ _ => true | _ => false end.

Lemma binding_eq r b t :
  keyed r → reg_tasks r !! tb_task b = Some t → tb_attempt (binding t) = tb_attempt b →
  tb_lease (binding t) = tb_lease b → binding t = b.
Proof.
  intros Hk Ht Ha Hl. pose proof (keyed_lookup _ _ _ Hk Ht) as Hb.
  destruct (binding t), b; cbn in *; congruence.
Qed.

Lemma accepted_commit r r' r0 b t s :
  reg_tasks r' = <[tb_task (binding t) := t]> (reg_tasks r) → reg_store r' = reg_store (wrote r0 (record_of t)) →
  is_Some (reg_store r0) → binding t = b → tstate t = s → accepted_post r b s r'.
Proof.
  intros Hr Hw Hst Hb Hs. exists t. rewrite Hr, Hb, lookup_insert_eq. split_and!; try done.
  right. left. unfold raw. rewrite Hw. fold (raw (wrote r0 (record_of t)) (tb_task b)). apply raw_wrote_eq; [done|].
  unfold rec_id. cbn. by rewrite Hb.
Qed.
Lemma accepted_replay r b t :
  keyed r → reg_tasks r !! tb_task b = Some t → tb_attempt (binding t) = tb_attempt b →
  tb_lease (binding t) = tb_lease b → accepted_post r b (tstate t) r.
Proof. intros Hk Ht Ha Hl. exists t. split_and!; [done|by eapply binding_eq|done|by left]. Qed.
Lemma replay_state applied op s s' : replay applied op s = Some (Ok s') → s' = s.
Proof. unfold replay. destruct (rposition _ _); cbn; [|done]. by case_bool_decide; intros [= ->]. Qed.
End Posts.

Ltac an_some := repeat apply wrote_store; assumption.
(** [an_end] closes an end of a verb: rejected with no task changed, replayed, or committed. *)
Ltac an_end :=
  cbn [verb_post reap_post];
  first
    [ left; reflexivity
    | match goal with E : replay _ _ _ = Some ?x, X : ?x = Ok _ |- _ =>
        rewrite X in E; apply replay_state in E; subst end;
      eapply accepted_replay; eassumption
    | eapply accepted_replay; eassumption
    | match goal with
      | K : keyed ?r, T : reg_tasks ?r !! tb_task ?b = Some ?t,
        A : tb_attempt (binding ?t) = tb_attempt ?b, L : tb_lease (binding ?t) = tb_lease ?b |- _ =>
          let E := fresh in pose proof (binding_eq r b t K T A L) as E;
          eapply accepted_commit; [reflexivity|reflexivity|an_some|exact E|reflexivity]
      end ].
Ltac an_go := wp_go; try an_end.

Section Verbs.
Context (blake3 : list byte → Blake3Hash).
Context (ed25519 : list byte → list byte → list byte → bool).
Context (parse_manifest : list byte → option CapabilityManifestWire).
Context (parse_envelope : list byte → option TaskAdmissionEnvelopeWire).
Context (launchable : list byte → list (list byte) → bool).
Context `{Codec VersionsFile, Codec RevocationsFile, Codec RetiredAttemptsFile, CodecLaws TaskRecord}.

Lemma answer_pause v op b io r :
  keyed r → is_Some (reg_store r) → wp (pause v op b io) (verb_post r b) r.
Proof. intros Hk Hst. unfold pause. an_go. Qed.
Lemma answer_resume v op b io r :
  keyed r → is_Some (reg_store r) → wp (resume v op b io) (verb_post r b) r.
Proof. intros Hk Hst. unfold resume. an_go. Qed.
Lemma answer_seal v op b io r :
  keyed r → is_Some (reg_store r) → wp (seal v op b io) (verb_post r b) r.
Proof. intros Hk Hst. unfold seal. an_go. Qed.
Lemma answer_admit op b json proof io r :
  keyed r → is_Some (reg_store r) →
  wp (admit_task blake3 ed25519 parse_manifest parse_envelope launchable op b json proof io) (verb_post r b) r.
Proof.
  intros Hk Hst. unfold admit_task. an_go. apply wp_commit_admission; [|an_go].
  intros a' [[]|e] a'' _ _; an_go.
Qed.

Lemma waiting_end r r' b t t' t2 a :
  keyed r → reg_tasks r !! tb_task b = Some t → binding t = b → live (tstate t) = true →
  end_attempt t = Some (t', a) → reg_tasks r' = <[tb_task (binding t2) := t2]> (reg_tasks r) →
  binding t2 = binding t' → tstate t2 = tstate t' →
  (∃ a2, attempt t2 = Some a2 ∧ a_stop a2 = a_stop a ∧ a_reaped a2 = a_reaped a) →
  waiting_post r b (a_reaped a) r'.
Proof.
  intros Hk Ht Hb Hl He Hr Hb2 Hs2 (a2 & Ha2 & Hst & Hrp).
  pose proof (end_attempt_Some _ _ _ He Hl) as (Hb' & Hs' & _).
  assert (a_stop a = true) as Hstop.
  { unfold end_attempt in He. destruct (attempt t); [|done]. by injection He as _ <-. }
  exists t, t2, a2. rewrite Hr, Hb2, Hb', Hb. split_and!; congruence.
Qed.
Lemma answer_begin_stop v op b io r :
  keyed r → is_Some (reg_store r) → wp (begin_stop v op b io) (reap_post r b) r.
Proof.
  intros Hk Hst. unfold begin_stop. an_go; simplify_eq.
  all: match goal with E : end_attempt _ = _ |- _ =>
         pose proof (end_attempt_Some _ _ _ E) as Hea; rewrite Heqt0 in Hea; destruct (Hea eq_refl) as (_ & _ & Ha & _) end.
  all: (eapply waiting_end; [done|done|by eapply binding_eq|by rewrite Heqt0|done|reflexivity|done|done|]).
  all: cbn; rewrite Ha; cbn; eauto.
Qed.
Lemma answer_begin_revoke v op b io r :
  keyed r → is_Some (reg_store r) → wp (begin_revoke v op b io) (reap_post r b) r.
Proof.
  intros Hk Hst. unfold begin_revoke. an_go. apply wp_revoke_lease; [|an_end].
  intros a [[]|e] a' _ _; [|an_end]. an_go; simplify_eq.
  destruct (live (tstate t)) eqn:El; [|done].
  match goal with E : end_attempt _ = _ |- _ =>
    pose proof (end_attempt_Some _ _ _ E El) as (_ & _ & Ha & _) end.
  eapply waiting_end; [done|done|by eapply binding_eq|done|done|reflexivity|done|done|].
  cbn. rewrite Ha. cbn. eauto.
Qed.
Lemma answer_finish_revoke op b io r :
  keyed r → is_Some (reg_store r) → wp (finish_revoke op b io) (verb_post r b) r.
Proof.
  intros Hk Hst. unfold finish_revoke. wp_go; try an_end.
  all: apply task_at_Some in Heqo as [Ht Hb]; cbn [verb_post].
  - eexists. split_and!; [exact Ht|done|done|by left].
  - eapply accepted_commit; [reflexivity|reflexivity|an_some|exact Hb|reflexivity].
Qed.
Lemma answer_finish_stop op b r : keyed r → wp (finish_stop op b) (verb_post r b) r.
Proof.
  intros Hk. unfold finish_stop. wp_go; try an_end. apply task_at_Some in Heqo as [Ht Hb].
  eexists. split_and!; [exact Ht|done|done|by left].
Qed.
Lemma answer_create op b io r :
  keyed r → is_Some (reg_store r) →
  wp (create op b io) (λ x r', verb_post r b (snd <$> x) r' ∧ ∀ y, x = Ok y → y.1 = b) r.
Proof.
  intros Hk Hst. unfold create. wp_step. wp_step. wp_step; wp_step; [|split; [by left|done]].
  destruct (reg_tasks r !! tb_task b) as [t|] eqn:Ht.
  - wp_go; try (split; [by left|done]).
    + apply matches_Ok in Heqr0 as [? ?]. split; [by eapply accepted_replay|]. intros y [= <-]. by eapply binding_eq.
    + apply wp_retire_current; [|split; [by left|done]]. intros a' x s _ _.
      destruct x as [[]|x]; cbn; [|split; [by left|done]]. wp_go; try (split; [by left|done]).
      split; [|by intros y [= <-]]. eapply accepted_commit; [reflexivity|reflexivity|an_some|done|done].
  - wp_step. wp_step; [apply wp_evict|].
    + wp_go; try done. split; [by left|done].
    + intros id t Hid Hs. wp_go; try done. split; [by left|done].
    + intros id t Hid Hs. wp_go; try done.
      all: try (split; [right; exists id, t; split_and!; [done|by apply (Hk _ _ Hid)|done]|done]).
      split; [|by intros y [= <-]]. exists (NodeTask_new b op). cbn [reg_tasks set_tasks].
      rewrite lookup_insert_eq. split_and!; try done. right. left. autorewrite with raw.
      apply raw_wrote_eq; [|done]. cbn. by rewrite fmap_is_Some.
    + wp_go; try (split; [by left|done]).
      split; [|by intros y [= <-]]. eapply accepted_commit; [reflexivity|reflexivity|an_some|done|done].
Qed.

Lemma accepted_exited r r' b t :
  reg_tasks r' = <[tb_task (binding t) := t]> (reg_tasks r) → binding t = b → tstate t = Exited →
  started_by t ≠ None → accepted_post r b Exited r'.
Proof.
  intros Hr Hb Hs Hby. exists t. rewrite Hr, Hb, lookup_insert_eq. split_and!; try done. right. by right.
Qed.
Ltac start_end B :=
  cbn [verb_post];
  first
    [ left; reflexivity
    | eapply accepted_commit; [reflexivity|reflexivity|an_some|exact B|reflexivity]
    | eapply accepted_exited; [reflexivity|exact B|reflexivity|discriminate] ].
Lemma answer_start v op b io r :
  keyed r → is_Some (reg_store r) → wp (start v op b io) (verb_post r b) r.
Proof.
  intros Hk Hst. unfold start. wp_step. apply wp_prepare.
  - intros. wp_go. by eapply accepted_replay.
  - intros. by left.
  - intros. by left.
  - intros t c p Hsa _. pose proof (sa_task _ _ _ _ _ _ Hsa) as Ht.
    pose proof (binding_eq r b t Hk Ht (sa_attempt _ _ _ _ _ _ Hsa) (sa_lease _ _ _ _ _ _ Hsa)) as Hb.
    unfold launch, record_spawn, ambiguous_end. wp_step. wp_step.
    cbn [reg_tasks set_workspaces set_world]. rewrite Ht. wp_go; try start_end Hb.
    all: try (apply wp_discard; wp_go; start_end Hb).
    all: apply wp_spawn; wp_go; try start_end Hb.
    all: apply wp_discard; wp_go; start_end Hb.
Qed.

Lemma answer_inspect v b r : keyed r → reply_post v (ReqInspect b) r (inl (inspect v b r)) r.
Proof.
  intros Hk. unfold inspect.
  assert (wp (bound_task b) (λ x _, ∀ t, x = Ok t → reg_tasks r !! tb_task b = Some t ∧ binding t = b) r) as Hw.
  { apply wp_bound_task; [|done]. intros t Ht Ha Hl t' [= <-]. split; [done|by eapply binding_eq]. }
  unfold wp in Hw. destruct (bound_task b r) as [[t|e] r1]; [|split; [done|by left]].
  destruct (Hw t eq_refl) as [Ht Hb].
  destruct (receipt t) as [rc|] eqn:Er; [destruct (supports_outcome v (tstate t)) eqn:Es|]; cbn.
  all: rewrite Hb; split_and!; try done; exists t; rewrite ?Er, ?Es; split_and!; try done.
  - by destruct v; [destruct (tstate t)|].
  - by destruct (supports_outcome v (tstate t)).
Qed.

(** C10. A reply means what it says. An accepted request's task is bound as asked and in the
    state the reply shows (a task that exited is shown to clients before version 1.3 as
    stopped); either nothing changed, or exactly that task's record is on disk, a start whose
    spawn could not be confirmed excepted, whose attempt is finished. A rejected request
    changed no task, except that a create may have forgotten one sealed task to make room. An
    inspection changes nothing and shows the task's own state, and its outcome to clients
    that know outcomes. A stop or revoke that waits has requested the kill of the live
    attempt it waits for. *)
Theorem replies_are_faithful v req io r x r' :
  keyed r → is_Some (reg_store r) →
  serve blake3 ed25519 parse_manifest parse_envelope launchable v req io r = (x, r') ∨
    reaping req = true ∧ serve_reaped req io r = (x, r') →
  reply_post v req r x r'.
Proof.
  intros Hk Hst.
  assert (∀ f (m : Op TaskLifecycleState) op, wp m (verb_post r (request_binding req)) r →
            (∀ s, f s = shown v req s) → answer f op (request_binding req) (m r) = (x, r') →
            reply_post v req r x r') as Hans.
  { intros f m op Hm Hf. unfold wp in Hm. destruct (m r) as [[s|e] r1]; cbn; intros [= <- <-]; cbn in *; [|done].
    split; [done|]. exists s. split; [apply Hf|done]. }
  assert (∀ (m : Op ReapStep) op, wp m (reap_post r (request_binding req)) r → (∀ s, s = shown v req s) →
            reap_answer op (request_binding req) (m r) = (x, r') → reply_post v req r x r') as Hreap.
  { intros m op Hm Hf. unfold wp in Hm. destruct (m r) as [[[s|n]|e] r1]; cbn; intros [= <- <-]; cbn in *; [eauto|done..]. }
  intros [Hs|[Hre Hs]]; destruct req; cbn in Hs; try discriminate Hre.
  - pose proof (answer_create op b io r Hk Hst) as Hc. unfold wp in Hc.
    destruct (create op b io r) as [[[b' s]|e] r1]; cbn in Hc; destruct Hc as [Hc Hb]; simplify_eq; [|done].
    specialize (Hb _ eq_refl). cbn in *. subst b'. eauto.
  - eapply Hans; [by apply answer_admit|done..].
  - injection Hs as <- <-. by apply answer_inspect.
  - eapply Hans; [by apply answer_start|done..].
  - eapply Hans; [by apply answer_pause|done..].
  - eapply Hans; [by apply answer_resume|done..].
  - eapply Hreap; [by apply answer_begin_stop|done..].
  - eapply Hreap; [by apply answer_begin_revoke|done..].
  - eapply Hans; [by apply answer_seal|done..].
  - injection Hs as <- <-. split; [done|by left].
  - eapply Hans; [by apply answer_finish_stop|done..].
  - eapply Hans; [by apply answer_finish_revoke|done..].
Qed.

(** ** The same request again *)

(** [serves m]: in this registry [m] answers [s] and changes nothing, whatever the host does. *)
Definition replays (m : Io → Op TaskLifecycleState) (s : TaskLifecycleState) (r : Registry) : Prop :=
  ∀ io, m io r = (Ok s, r).

Definition has_task (v : bool) (b : TaskBinding) (t : NodeTask) (r : Registry) : Prop :=
  reg_tasks r !! tb_task b = Some t ∧ tb_attempt (binding t) = tb_attempt b ∧
  tb_lease (binding t) = tb_lease b ∧ is_Some (reg_execution r) ∧ is_Some (reg_admission r) ∧ v = true.

Lemma bound_task_run b t r :
  reg_tasks r !! tb_task b = Some t → tb_attempt (binding t) = tb_attempt b →
  tb_lease (binding t) = tb_lease b → bound_task b r = (Ok t, r).
Proof.
  intros Ht Ha Hl. unfold bound_task, get, lift, mbind, op_bind, mret, op_ret. cbn. rewrite Ht. cbn.
  unfold matches. rewrite !bool_decide_eq_false_2 by auto. done.
Qed.
Lemma executing_task_run v b t r : has_task v b t r → executing_task v b r = (Ok t, r).
Proof.
  intros (Ht & Ha & Hl & Hx & Hm & ->). unfold executing_task, get, check, lift, mbind, op_bind. cbn.
  rewrite !bool_decide_eq_true_2 by done. cbn. by apply bound_task_run.
Qed.

Lemma replay_snoc l op s : replay (l ++ [op]) op s = Some (Ok s).
Proof.
  assert (rposition (l ++ [op]) op = Some (length l)) as E.
  { induction l as [|x l IH]; cbn; [by rewrite bool_decide_eq_true_2|]. by rewrite IH. }
  unfold replay. rewrite E. cbn. rewrite bool_decide_eq_true_2; [done|]. rewrite length_app. cbn. lia.
Qed.

Lemma again_pause v op b t s r :
  has_task v b t r → replay (paused_by t) op (tstate t) = Some (Ok s) → replays (pause v op b) s r.
Proof.
  intros Ht Hrep io. unfold pause, mbind, op_bind. rewrite (executing_task_run v b t r Ht). by rewrite Hrep.
Qed.
Lemma again_resume v op b t s r :
  has_task v b t r → replay (resumed_by t) op (tstate t) = Some (Ok s) → replays (resume v op b) s r.
Proof.
  intros Ht Hrep io. unfold resume, mbind, op_bind. rewrite (executing_task_run v b t r Ht). by rewrite Hrep.
Qed.
Lemma again_seal v op b t o r :
  has_task v b t r → sealed t = Some (MkSeal op o) → replays (seal v op b) (tstate t) r.
Proof.
  intros Ht Hs io. unfold seal, mbind, op_bind, get. rewrite (executing_task_run v b t r Ht), Hs.
  by rewrite bool_decide_eq_true_2.
Qed.
Lemma again_start v op b t r :
  has_task v b t r → started_by t = Some op → replays (start v op b) (tstate t) r.
Proof.
  intros (Ht & Ha & Hl & [ex Hx] & [adm Hm] & ->) Hs io. unfold start, prepare_start, mbind, op_bind, get.
  rewrite Hx, Hm. cbn. rewrite (bound_task_run b t r) by done. by rewrite bool_decide_eq_true_2.
Qed.
Lemma again_admit op b json proof t ad r :
  reg_tasks r !! tb_task b = Some t → tb_attempt (binding t) = tb_attempt b →
  tb_lease (binding t) = tb_lease b → is_Some (reg_admission r) → admit_rec t = Some ad →
  ad_operation ad = op → ad_envelope ad = blake3 json → ad_proof ad = proof →
  replays (admit_task blake3 ed25519 parse_manifest parse_envelope launchable op b json proof) (tstate t) r.
Proof.
  intros Ht Ha Hl [adm Hm] Hr Ho He Hp io. unfold admit_task, mbind, op_bind, get. rewrite Hm.
  rewrite (bound_task_run b t r) by done. rewrite Hr. by rewrite bool_decide_eq_true_2.
Qed.

(** What a verb that was accepted leaves for its replay. *)
Definition replayable (m : Io → Op TaskLifecycleState) (x : result Reason TaskLifecycleState) (r' : Registry) : Prop :=
  match x with Ok s => replays m s r' | Err _ => True end.


Lemma has_task_put v b t' r' ts :
  reg_tasks r' = <[tb_task (binding t') := t']> ts → binding t' = b → is_Some (reg_execution r') →
  is_Some (reg_admission r') → v = true → has_task v b t' r'.
Proof.
  intros Hr Hb Hx Hm Hv. unfold has_task. rewrite Hr, Hb, lookup_insert_eq. done.
Qed.

Ltac has_put :=
  match goal with
  | K : keyed ?r, T : reg_tasks ?r !! tb_task ?b = Some ?t,
    A : tb_attempt (binding ?t) = tb_attempt ?b, L : tb_lease (binding ?t) = tb_lease ?b |- _ =>
      let E := fresh in pose proof (binding_eq r b t K T A L) as E;
      eapply has_task_put; [reflexivity|exact E|eassumption|eassumption|eassumption]
  end.

Lemma replay_pause v op b io r : keyed r → wp (pause v op b io) (replayable (pause v op b)) r.
Proof.
  intros Hk. unfold pause at 1. wp_go; try done; cbn [replayable].
  - simplify_eq. by eapply again_pause.
  - eapply again_pause; [has_put|apply replay_snoc].
Qed.
Lemma replay_resume v op b io r : keyed r → wp (resume v op b io) (replayable (resume v op b)) r.
Proof.
  intros Hk. unfold resume at 1. wp_go; try done; cbn [replayable].
  - simplify_eq. by eapply again_resume.
  - eapply again_resume; [has_put|apply replay_snoc].
Qed.
Lemma replay_seal v op b io r : keyed r → wp (seal v op b io) (replayable (seal v op b)) r.
Proof.
  intros Hk. unfold seal at 1. wp_go; try done; cbn [replayable].
  - destruct (sealed t) as [[by_ o]|] eqn:E; [|done]. bool_inv. cbn in *. subst. by eapply again_seal.
  - match goal with |- replays _ _ ?r' =>
      match r' with context [<[_ := ?t']> _] =>
        apply (again_seal v op b t' (reg_seals r)); [|reflexivity] end end.
    has_put.
Qed.
Lemma replay_admit op b json proof io r :
  keyed r →
  let m := admit_task blake3 ed25519 parse_manifest parse_envelope launchable op b json proof in
  wp (m io) (replayable m) r.
Proof.
  intros Hk m. unfold m at 1, admit_task at 1. wp_go; try done; cbn [replayable].
  - destruct (admit_rec t) as [ad|] eqn:E; [|done]. bool_inv.
    match goal with E : _ ∧ _ ∧ _ |- _ => destruct E as (? & ? & ?) end.
    eapply again_admit; eauto.
  - apply wp_commit_admission; [intros a0 [[]|] a1 _ _|]; wp_go; try done; cbn [replayable].
    assert (tb_task (binding t) = tb_task b) as Hb by (by eapply keyed_lookup).
    eapply again_admit; cbn [reg_tasks set_tasks reg_admission set_admission logged set_world];
      [|done|done|by eexists|reflexivity..].
    cbn. rewrite Hb. apply lookup_insert_eq.
Qed.
Lemma replay_start v op b io r : keyed r → wp (start v op b io) (replayable (start v op b)) r.
Proof.
  intros Hk. unfold start at 1. wp_step. apply wp_prepare; try done.
  - intros t Ht Ha Hl Hx Hm Hv Hs. wp_go. by apply (again_start v op b t).
  - intros t c p Hsa Hv. pose proof (sa_task _ _ _ _ _ _ Hsa) as Ht.
    pose proof (binding_eq r b t Hk Ht (sa_attempt _ _ _ _ _ _ Hsa) (sa_lease _ _ _ _ _ _ Hsa)) as Hb.
    destruct (sa_guard _ _ _ _ _ _ Hsa) as (ex & adm & _ & _ & Hx & Hm & _).
    assert (is_Some (reg_execution r) ∧ is_Some (reg_admission r)) as [Hx' Hm'] by (rewrite Hx, Hm; split; eauto).
    unfold launch, record_spawn, ambiguous_end. wp_step. wp_step.
    cbn [reg_tasks set_workspaces set_world]. rewrite Ht. wp_go; try done.
    all: try (apply wp_discard; wp_go; try done).
    all: try (apply wp_spawn; wp_go; try done).
    all: try (apply wp_discard; wp_go; try done).
    all: cbn [replayable].
    all: (match goal with |- replays _ _ ?r' =>
            match r' with context [<[_ := ?t']> _] => apply (again_start v op b t') end end;
          [eapply has_task_put; [reflexivity|exact Hb|assumption..]|reflexivity]).
Qed.

Lemma again_stop v op b t io r :
  has_task v b t r → stopped_by t = Some op → begin_stop v op b io r = (Ok (Answer (tstate t)), r).
Proof.
  intros Ht Hs. unfold begin_stop, mbind, op_bind. rewrite (executing_task_run v b t r Ht).
  by rewrite bool_decide_eq_true_2.
Qed.
Lemma again_revoke v op b t io r :
  has_task v b t r → revoked_by t = Some op → begin_revoke v op b io r = (Ok (Answer (tstate t)), r).
Proof.
  intros Ht Hs. unfold begin_revoke, mbind, op_bind. rewrite (executing_task_run v b t r Ht).
  by rewrite bool_decide_eq_true_2.
Qed.
Definition reap_replayable (m : Io → Op ReapStep) (x : result Reason ReapStep) (r' : Registry) : Prop :=
  match x with Ok (Answer s) => ∀ io, m io r' = (Ok (Answer s), r') | _ => True end.

Lemma replay_stop v op b io r : keyed r → wp (begin_stop v op b io) (reap_replayable (begin_stop v op b)) r.
Proof.
  intros Hk. unfold begin_stop at 1. wp_go; try done; cbn [reap_replayable]; intros io'.
  - bool_inv. by apply (again_stop v op b t).
  - match goal with |- begin_stop _ _ _ _ ?r' = _ =>
      match r' with context [<[_ := ?t']> _] => apply (again_stop v op b t'); [has_put|reflexivity] end end.
Qed.
Lemma replay_revoke v op b io r :
  keyed r → wp (begin_revoke v op b io) (reap_replayable (begin_revoke v op b)) r.
Proof.
  intros Hk. unfold begin_revoke at 1. wp_go; try done.
  - intros io'. bool_inv. by apply (again_revoke v op b t).
  - apply wp_revoke_lease; [|done]. intros a [[]|e] a' _ _; [|done]. wp_go; try done. intros io'.
    assert (is_Some (reg_admission (set_admission r (Some a')))) as Hm by (by eexists).
    match goal with |- begin_revoke _ _ _ _ ?r' = _ =>
      match r' with context [<[_ := ?t']> _] => apply (again_revoke v op b t'); [|reflexivity] end end.
    pose proof (binding_eq r b t) as Hb.
    eapply has_task_put; [reflexivity|by apply Hb|done|exact Hm|done].
Qed.

Lemma retire_other s task a a' io :
  a' ≠ a → is_retired_attempt s task a' = false →
  is_retired_attempt (retire_attempt s task a io).2 task a' = false.
Proof.
  intros Hne Hr. unfold retire_attempt. destruct (is_retired_attempt s task a); [done|].
  destruct (negb _); [done|]. destruct (write_json _ _ _ io) as [[[]|] d]; [|done].
  unfold is_retired_attempt in *. cbn. rewrite lookup_insert_eq. apply bool_decide_eq_false.
  destruct (retired s !! task) as [rs|]; cbn; [apply bool_decide_eq_false in Hr|]; set_solver.
Qed.
Lemma again_create op b t io r :
  match reg_admission r with
  | Some a => is_retired_attempt (state a) (tb_task b) (tb_attempt b) | None => false end = false →
  reg_tasks r !! tb_task b = Some t → tb_attempt (binding t) = tb_attempt b →
  tb_lease (binding t) = tb_lease b → created_by t = op →
  create op b io r = (Ok (binding t, tstate t), r).
Proof.
  intros Hn Ht Ha Hl Hc. unfold create, mbind, op_bind, get, check, lift. rewrite Hn. cbn.
  rewrite Ht. unfold matches. rewrite !bool_decide_eq_false_2 by auto. cbn. by rewrite bool_decide_eq_true_2.
Qed.
Lemma replay_create op b io r :
  keyed r → wp (create op b io)
    (λ x r', match x with Ok y => ∀ io', create op b io' r' = (Ok y, r') | Err _ => True end) r.
Proof.
  intros Hk. unfold create at 1. wp_step. wp_step. wp_step; wp_step; [|done].
  destruct (reg_tasks r !! tb_task b) as [t|] eqn:Ht.
  - wp_go; try done.
    + intros io'. bool_inv. match goal with M : matches _ _ = Ok _ |- _ => apply matches_Ok in M as [? ?] end.
      by apply again_create.
    + apply wp_retire_current; [|done]. intros adm x s Hadm Hre. destruct x as [[]|x]; cbn; [|done].
      wp_go; try done. intros io'.
      apply (again_create op b (NodeTask_new b op)); try done; [|cbn; apply lookup_insert_eq].
      cbn. rewrite Hadm in *. bool_inv. subst.
      pose proof (retire_other (state adm) (tb_task (binding t)) (tb_attempt (binding t)) (tb_attempt b)
                    (io_state io)) as Ho. rewrite Hre in Ho. cbn in Ho.
      rewrite (keyed_lookup _ _ _ Hk Ht) in Ho. apply Ho; [|done].
      apply not_eq_sym. by apply matches_AttemptMismatch.
  - wp_step. wp_step; [apply wp_evict|].
    + by wp_go.
    + intros id t Hid Hs. by wp_go.
    + intros id t Hid Hs. wp_go; try done. intros io'.
      apply (again_create op b (NodeTask_new b op)); try done. cbn. apply lookup_insert_eq.
    + wp_go; try done. intros io'.
      apply (again_create op b (NodeTask_new b op)); try done. cbn. apply lookup_insert_eq.
Qed.

End Verbs.
