(* ===== verification/Provenance.v ===== *)
(** * Provenance: what a node spawns was admitted

    The link from a spawned workload back to the envelope an issuer signed: the admission a
    task holds is one [NodeAdmission::verify] accepted for exactly that task, attempt and
    lease ([crates/ward-node/src/admit.rs]), and [start] ([task.rs]) launches it only while that
    authority holds. *)

From stdpp Require Import base numbers option gmap sorting strings vector list.
From S2P Require Import Prelude Bytes Ids Authority Revocation Manifest NodeState Admission Task.
From S2P Require Import Registry Lifecycle Bounds Recovery Answers.

Local Open Scope Z_scope.

(** ** What is spawned was admitted *)
Section Spawns.
Context (blake3 : list byte → Blake3Hash).
Context (ed25519 : list byte → list byte → list byte → bool).
Context (parse_manifest : list byte → option CapabilityManifestWire).
Context (parse_envelope : list byte → option TaskAdmissionEnvelopeWire).
Context (launchable : list byte → list (list byte) → bool).
Context `{Codec VersionsFile, Codec RevocationsFile, Codec RetiredAttemptsFile, CodecLaws TaskRecord}.

Local Abbreviation verify := (admission_verify blake3 ed25519 parse_manifest parse_envelope launchable).

Definition trust (r : Registry) : option TrustedIssuers := issuers <$> reg_admission r.
(** The admission a task holds was verified for exactly its binding, against the trust store
    the node still has. *)
Definition authentic (r : Registry) : Prop :=
  ∀ id t ad, reg_tasks r !! id = Some t → admitted t = Some ad →
    ∃ adm now, trust r = Some (issuers adm) ∧
      verify adm now (binding t) (at_json ad) (at_proof ad) = Ok (at_verified ad).

(** What a verb does to admissions and to the list of spawns. *)
Record provenance (r r' : Registry) : Prop := {
  pv_trust : trust r' = trust r;
  pv_admitted : ∀ id t' ad, reg_tasks r' !! id = Some t' → admitted t' = Some ad →
    (∃ t, reg_tasks r !! id = Some t ∧ admitted t = Some ad ∧ binding t = binding t') ∨
    (∃ adm now, reg_admission r = Some adm ∧
       verify adm now (binding t') (at_json ad) (at_proof ad) = Ok (at_verified ad));
  pv_spawned : w_spawned (reg_world r') = w_spawned (reg_world r) ∨
    ∃ b io t c p, startable r b io t c p ∧
      w_spawned (reg_world r') = w_spawned (reg_world r) ++ [workspace_of b] ∧
      ∃ rec, raw r' (tb_task b) = Some rec ∧ tr_binding rec = b ∧
        tr_state rec ≠ RecCreated ∧ tr_state rec ≠ RecReady;
}.

Lemma pv_same r r' :
  trust r' = trust r → w_spawned (reg_world r') = w_spawned (reg_world r) → reg_tasks r' = reg_tasks r →
  provenance r r'.
Proof. intros Hi Hs Ht. split; [done| |by left]. rewrite Ht. intros. left. eauto. Qed.
Lemma pv_put r r' t t' ts :
  trust r' = trust r → w_spawned (reg_world r') = w_spawned (reg_world r) →
  reg_tasks r' = <[tb_task (binding t') := t']> ts → (∀ id u, ts !! id = Some u → reg_tasks r !! id = Some u) →
  reg_tasks r !! tb_task (binding t') = Some t → admitted t' = admitted t → binding t' = binding t →
  provenance r r'.
Proof.
  intros Hi Hs Ht Hts Hl Ha Hb. split; [done| |by left]. rewrite Ht. intros id u ad Hu Had.
  destruct (decide (id = tb_task (binding t'))) as [->|Hne].
  - rewrite lookup_insert_eq in Hu. injection Hu as <-. left. exists t. by rewrite <-Ha, <-Hb.
  - rewrite lookup_insert_ne in Hu by done. left. exists u. split_and!; try done. by apply Hts.
Qed.
Lemma pv_fresh r r' t' ts :
  trust r' = trust r → w_spawned (reg_world r') = w_spawned (reg_world r) →
  reg_tasks r' = <[tb_task (binding t') := t']> ts → (∀ id u, ts !! id = Some u → reg_tasks r !! id = Some u) →
  admitted t' = None → provenance r r'.
Proof.
  intros Hi Hs Ht Hts Ha. split; [done| |by left]. rewrite Ht. intros id u ad Hu Had.
  destruct (decide (id = tb_task (binding t'))) as [->|Hne].
  - rewrite lookup_insert_eq in Hu. congruence.
  - rewrite lookup_insert_ne in Hu by done. left. exists u. split_and!; try done. by apply Hts.
Qed.

Ltac pv_end :=
  first
    [ apply pv_same; reflexivity
    | eapply pv_put; [reflexivity|reflexivity|reflexivity|by intros|cbn;
        match goal with T : reg_tasks ?r !! _ = Some ?t, K : keyed ?r |- _ =>
          rewrite ?(keyed_lookup _ _ _ K T); exact T end|reflexivity|reflexivity] ].
Ltac pv_go := wp_go; try pv_end.

Lemma pv_pause v op b io r : keyed r → wp (pause v op b io) (λ _, provenance r) r.
Proof. intros Hk. unfold pause. pv_go. Qed.
Lemma pv_resume v op b io r : keyed r → wp (resume v op b io) (λ _, provenance r) r.
Proof. intros Hk. unfold resume. pv_go. Qed.
Lemma pv_seal v op b io r : keyed r → wp (seal v op b io) (λ _, provenance r) r.
Proof. intros Hk. unfold seal. pv_go. Qed.
Lemma end_attempt_admitted t t' a :
  end_attempt t = Some (t', a) → binding t' = binding t ∧ admitted t' = admitted t.
Proof.
  unfold end_attempt. destruct (attempt t) as [a0|]; [|done]. cbn. intros [= <- _]. by case_bool_decide.
Qed.
Lemma pv_begin_stop v op b io r : keyed r → wp (begin_stop v op b io) (λ _, provenance r) r.
Proof.
  intros Hk. unfold begin_stop. pv_go; simplify_eq.
  all: match goal with E : end_attempt _ = _, T : reg_tasks _ !! _ = _ |- _ =>
         apply end_attempt_admitted in E as [Hb Ha];
         eapply pv_put; [reflexivity|reflexivity|reflexivity|by intros| |exact Ha|exact Hb];
         cbn; rewrite Hb, (keyed_lookup _ _ _ Hk T); exact T end.
Qed.
Lemma revoke_issuers a now lease io x a' : admission_revoke a now lease io = (x, a') → issuers a' = issuers a.
Proof.
  unfold admission_revoke. destruct (match revocation _ _ with Some _ => _ | None => _ end); [by intros [= _ <-]|].
  destruct (record_revocation _ _ _). by intros [= _ <-].
Qed.
Lemma commit_issuers a v io x a' : admission_commit a v io = (x, a') → issuers a' = issuers a.
Proof. unfold admission_commit. destruct (record_admitted_version _ _ _ _). by intros [= _ <-]. Qed.
Lemma pv_begin_revoke v op b io r : keyed r → wp (begin_revoke v op b io) (λ _, provenance r) r.
Proof.
  intros Hk. unfold begin_revoke. pv_go. apply wp_revoke_lease; [|pv_end]. intros a x a' Ha Hre.
  assert (trust (set_admission r (Some a')) = trust r) as Htr.
  { unfold trust. cbn. by rewrite Ha, (revoke_issuers _ _ _ _ _ _ Hre). }
  destruct x as [[]|e]; [|by apply pv_same]. wp_go; simplify_eq; try by apply pv_same.
  - destruct (live (tstate t)); [|done].
    match goal with E : end_attempt _ = _ |- _ => apply end_attempt_admitted in E as [Hb Had] end.
    eapply pv_put; [exact Htr|reflexivity|reflexivity|by intros| |exact Had|exact Hb].
    cbn. rewrite Hb. match goal with T : reg_tasks r !! _ = Some t |- _ => by rewrite (keyed_lookup _ _ _ Hk T) end.
  - match goal with T : reg_tasks r !! _ = Some t |- _ =>
      eapply (pv_put r _ t); [exact Htr|reflexivity|reflexivity|by intros| |reflexivity|reflexivity];
      cbn; by rewrite (keyed_lookup _ _ _ Hk T) end.
Qed.
Lemma pv_finish_revoke op b io r : keyed r → wp (finish_revoke op b io) (λ _, provenance r) r.
Proof.
  intros Hk. unfold finish_revoke. wp_go; try pv_end. apply task_at_Some in Heqo as [Ht Hb]. pv_end.
Qed.
Lemma finish_attempt_admitted t e n t' : finish_attempt t e n = Some t' → admitted t' = admitted t.
Proof.
  unfold finish_attempt. destruct (attempt t); [|done]. cbn. destruct (negb _); [done|].
  destruct (a_revoke_requested_by a); [by intros [= <-]|]. destruct (exit_state _ _). intros [= <-].
  by case_bool_decide.
Qed.
Lemma pv_reap b n e u io r : keyed r → wp (reap b n e u io) (λ _, provenance r) r.
Proof.
  intros Hk. unfold reap, record_exit. wp_go; try pv_end.
  all: apply task_at_Some in Heqo as [Ht Hb]; pose proof (finish_attempt_admitted _ _ _ _ Heqo0) as Ha.
  all: apply finish_attempt_Some in Heqo0 as (Hb' & _).
  all: match type of Ht with _ = Some ?t =>
         eapply (pv_put _ _ t); [reflexivity|reflexivity|reflexivity|by intros| |exact Ha|exact Hb'] end.
  all: rewrite Hb'; cbn; by rewrite Hb.
Qed.
Lemma pv_create op b io r : keyed r → wp (create op b io) (λ _, provenance r) r.
Proof.
  intros Hk. unfold create. wp_step. wp_step. wp_step; wp_step; [|pv_end].
  destruct (reg_tasks r !! tb_task b) as [t|] eqn:Ht.
  - wp_go; try pv_end. apply wp_retire_current; [|pv_end]. intros a' x s Ha _.
    assert (trust (set_admission r (Some (set_state a' s))) = trust r) as Htr by (unfold trust; cbn; by rewrite Ha).
    destruct x as [[]|x]; cbn; [|by apply pv_same]. wp_go; try by apply pv_same.
    by eapply (pv_fresh r _ (NodeTask_new b op)).
  - assert (∀ id (u : NodeTask), reg_tasks r !! id = Some u → reg_tasks r !! id = Some u) as Hsame by done.
    wp_step. wp_step; [apply wp_evict|].
    + wp_go; try done. pv_end.
    + intros id t Hid Hs. wp_go; try done. pv_end.
    + intros id t Hid Hs.
      assert (∀ k u, delete id (reg_tasks r) !! k = Some u → reg_tasks r !! k = Some u) as Hdel.
      { intros k u. by intros [_ ?]%lookup_delete_Some. }
      wp_go; try done.
      all: try (split; [done| |by left]; intros k u ad Hu%Hdel Had; left; eauto).
      by eapply (pv_fresh r _ (NodeTask_new b op)).
    + wp_go; try pv_end. by eapply (pv_fresh r _ (NodeTask_new b op)).
Qed.
Lemma pv_admit op b json proof io r :
  keyed r →
  wp (admit_task blake3 ed25519 parse_manifest parse_envelope launchable op b json proof io) (λ _, provenance r) r.
Proof.
  intros Hk. unfold admit_task. pv_go. apply wp_commit_admission; [|pv_go]. intros a0 x a1 Ha0 Hc.
  match goal with A : reg_admission r = Some ?n |- _ => cbn in Ha0; rewrite A in Ha0; injection Ha0 as <- end.
  assert (trust (set_admission r (Some a1)) = trust r) as Htr.
  { unfold trust. cbn. by rewrite Heqo, (commit_issuers _ _ _ _ _ Hc). }
  destruct x as [[]|]; wp_go; try by apply pv_same.
  pose proof (binding_eq r b t Hk) as Hb. split; [exact Htr| |by left]. cbn [reg_tasks set_tasks].
  intros id u ad Hu Had. match type of Hu with <[?k := _]> _ !! _ = _ =>
    destruct (decide (id = k)) as [->|Hne] end.
  - rewrite lookup_insert_eq in Hu. injection Hu as <-. cbn in Had. injection Had as <-. right.
    exists n, (io_now io). split; [done|]. cbn. rewrite Hb by done. done.
  - rewrite lookup_insert_ne in Hu by done. left. eauto.
Qed.

(** A launch that called the launcher leaves a record that says so. *)
Lemma pv_started r r' r0 b io t c p t' rec :
  startable r b io t c p → trust r' = trust r →
  reg_tasks r' = <[tb_task (binding t') := t']> (reg_tasks r) → tb_task (binding t') = tb_task b →
  admitted t' = admitted t →
  binding t' = binding t →
  w_spawned (reg_world r') = w_spawned (reg_world r) ++ [workspace_of b] →
  reg_store r' = reg_store (wrote r0 rec) → is_Some (reg_store r0) → tr_binding rec = b →
  tr_state rec ≠ RecCreated → tr_state rec ≠ RecReady → provenance r r'.
Proof.
  intros Hst Htr Hts Hb Ha Hbb Hsp Hw Hs0 Hrb Hc Hr. pose proof (sa_task _ _ _ _ _ _ Hst) as Ht. split; [done| |].
  - rewrite Hts. intros id u ad Hu Had. destruct (decide (id = tb_task (binding t'))) as [->|Hne].
    + rewrite lookup_insert_eq in Hu. injection Hu as <-. left. exists t. by rewrite Hb, <-Ha, <-Hbb.
    + rewrite lookup_insert_ne in Hu by done. left. eauto.
  - right. exists b, io, t, c, p. split_and!; [done|done|]. exists rec. split_and!; try done.
    unfold raw. rewrite Hw. fold (raw (wrote r0 rec) (tb_task b)). apply raw_wrote_eq; [done|].
    unfold rec_id. by rewrite Hrb.
Qed.

Ltac pv_spawn S T B BT :=
  let same := (cbn; try match goal with E : io_spawn _ = _ |- _ => rewrite E end; reflexivity) in
  first [ eapply pv_put; [reflexivity|same|reflexivity|by intros|cbn; rewrite BT; exact T|reflexivity|reflexivity]
        | eapply pv_started; [exact S|reflexivity|reflexivity|exact BT|reflexivity|reflexivity|same|
            reflexivity|repeat apply wrote_store; assumption|exact B|discriminate|discriminate] ].
Lemma pv_start v op b io r :
  keyed r → is_Some (reg_store r) → wp (start v op b io) (λ _, provenance r) r.
Proof.
  intros Hk Hst. unfold start. wp_step. apply wp_prepare.
  - intros. wp_go. pv_end.
  - intros. pv_end.
  - intros. pv_end.
  - intros t c p Hsa _. pose proof (sa_task _ _ _ _ _ _ Hsa) as Ht.
    pose proof (binding_eq r b t Hk Ht (sa_attempt _ _ _ _ _ _ Hsa) (sa_lease _ _ _ _ _ _ Hsa)) as Hb.
    assert (tb_task (binding t) = tb_task b) as Hbt by (by rewrite Hb).
    unfold launch, record_spawn, ambiguous_end. wp_step. wp_step.
    cbn [reg_tasks set_workspaces set_world]. rewrite Ht. wp_go; try pv_end.
    all: try (apply wp_discard; wp_go; pv_end).
    all: apply wp_spawn; wp_go.
    all: try (apply wp_discard; wp_go; try (apply pv_same; [reflexivity|cbn; by rewrite Heqs|reflexivity])).
    all: pv_spawn Hsa Ht Hb Hbt.
Qed.

Lemma step_provenance r r' :
  keyed r → is_Some (reg_store r) →
  step blake3 ed25519 parse_manifest parse_envelope launchable r r' → provenance r r'.
Proof.
  intros Hk Hst. apply step_preserves; intros; eauto using pv_create, pv_admit, pv_start, pv_pause, pv_resume,
    pv_seal, pv_begin_stop, pv_begin_revoke, pv_finish_revoke, pv_reap; apply pv_same; try done.
  unfold trust. cbn. by rewrite H4.
Qed.

Lemma authentic_step r r' : authentic r → provenance r r' → authentic r'.
Proof.
  intros Ha [Htr Had _] id t' ad Ht' Hadm. rewrite Htr.
  destruct (Had id t' ad Ht' Hadm) as [(t & Ht & Hat & <-)|(adm & now & Hm & Hv)]; [by eapply Ha|].
  exists adm, now. split; [|done]. unfold trust. by rewrite Hm.
Qed.
Lemma recover_authentic cap a ex path d writes ev w r :
  recover cap a ex path d writes ev w = Ok r → authentic r.
Proof.
  intros (_ & _ & _ & _ & _ & _ & Hids)%recover_Ok id t ad Ht Had. destruct (Hids id) as (Hl & _ & _).
  rewrite Hl in Ht. apply fmap_Some in Ht as (rec & _ & ->).
  unfold task_of, recovered in Had. by destruct (tr_state rec).
Qed.
Lemma node_steps_authentic r r' :
  node_inv r → authentic r → rtc (node_step blake3 ed25519 parse_manifest parse_envelope launchable) r r' →
  authentic r'.
Proof.
  intros Hi Ha Hst. induction Hst as [|r r1 r2 Hs _ IH]; [done|]. apply IH.
  - by eapply node_step_inv.
  - destruct Hs as [r r1 Hs|]; [|by eapply recover_authentic].
    eapply authentic_step; [done|]. apply step_provenance; [apply Hi|apply Hi|done].
Qed.

Lemma revalidate_Ok a now v u :
  admission_revalidate a now v = Ok u →
  e_issued_at (v_envelope v) ≤ now < e_expires_at (v_envelope v) ∧
  is_active_at (tt_lease (v_authority v)) now = true ∧
  ∀ id, id ∈ l_id (tt_lease (v_authority v)) :: ln_ancestors (tt_lineage (v_authority v)) →
    id_is_unrevoked (revocations (state a)) id now = true.
Proof.
  unfold admission_revalidate. intros Hr. res_inv. bool_inv.
  match goal with V : map_err (λ _, LeaseRevoked) _ = Ok _ |- _ => apply map_err_Ok in V; rename V into Hre end.
  unfold trusted_revalidate in Hre. apply validate_authority_Ok in Hre as (_ & _ & _ & Hu).
  apply is_usable_with_lineage_spec in Hu as (_ & Ha & Hu). done.
Qed.

(** C2. Nothing runs unauthorised: whenever a step of a node adds a workload that may run, it is
    the attempt of a ready task whose admission was verified for exactly its task, attempt
    and lease against the trust store the node has; the envelope is current, the lease is
    active and neither it nor any lease it is delegated from is revoked at that moment; it is
    placed on a backend at least as strong as its floor; fewer attempts than the bound
    execute; and the record on disk already says that the attempt was launched. *)
Theorem spawns_are_authorised cap a ex path d writes ev w r0 r r' :
  recover cap a ex path d writes ev w = Ok r0 → once w → limits_ok ex →
  rtc (node_step blake3 ed25519 parse_manifest parse_envelope launchable) r0 r →
  step blake3 ed25519 parse_manifest parse_envelope launchable r r' →
  w_spawned (reg_world r') = w_spawned (reg_world r) ∨
  ∃ b t ad adm adm0 now now0 e cap rec,
    w_spawned (reg_world r') = w_spawned (reg_world r) ++ [workspace_of b] ∧
    reg_tasks r !! tb_task b = Some t ∧ binding t = b ∧ tstate t = Ready ∧ admitted t = Some ad ∧
    reg_admission r = Some adm ∧ issuers adm0 = issuers adm ∧
    verify adm0 now0 b (at_json ad) (at_proof ad) = Ok (at_verified ad) ∧
    let v := at_verified ad in
    e_issued_at (v_envelope v) ≤ now < e_expires_at (v_envelope v) ∧
    is_active_at (tt_lease (v_authority v)) now = true ∧
    (∀ id, id ∈ l_id (tt_lease (v_authority v)) :: ln_ancestors (tt_lineage (v_authority v)) →
       id_is_unrevoked (revocations (state adm)) id now = true) ∧
    reg_execution r = Some e ∧ cap ∈ ex_backends e ∧
    level_rank (minimum_isolation (cmb_manifest (tw_manifest (e_workload (v_envelope v)))))
      ≤ level_rank (level cap) ∧
    (∀ l, ex_scheduling e = Some l → Z.of_nat (executing r) < max_running l) ∧
    raw r' (tb_task b) = Some rec ∧ tr_binding rec = b ∧ tr_state rec ≠ RecCreated ∧ tr_state rec ≠ RecReady.
Proof.
  intros Hr Ho Hl Hst Hs. pose proof (recover_inv _ _ _ _ _ _ _ _ _ Hr Ho Hl) as Hi0.
  pose proof (node_steps_inv _ _ _ _ _ _ _ Hi0 Hst) as Hi.
  pose proof (node_steps_authentic _ _ Hi0 (recover_authentic _ _ _ _ _ _ _ _ _ Hr) Hst) as Hau.
  apply step_provenance in Hs as [_ _ Hsp]; [|apply Hi|apply Hi].
  destruct Hsp as [Hsp|(b & io & t & c & p & Hsa & Hsp & rec & Hrec)]; [by left|right].
  destruct Hsa as [Ht Ha Hle Hrd _ (e & adm & ad & cap' & He & Hm & Had & Hre & Hpl & _ & _ & _ & Hlim)].
  pose proof (binding_eq r b t (ni_keyed _ Hi) Ht Ha Hle) as Hb.
  destruct (Hau _ _ _ Ht Had) as (adm0 & now0 & Htr & Hv). rewrite Hb in Hv.
  unfold trust in Htr. rewrite Hm in Htr. injection Htr as Htr.
  apply revalidate_Ok in Hre as (Hnow & Hact & Hun). apply place_floor in Hpl as [Hin Hlev].
  exists b, t, ad, adm, adm0, (io_now io), now0, e, cap', rec. cbv zeta.
  destruct Hrec as (Hrec & Hrb & Hc & Hrr). destruct Hnow. split_and?; done.
Qed.
End Spawns.
