(* ===== verification/NodeExample.v ===== *)
(** * NodeExample: a concrete node

    A codec for task records, a node started on an empty records directory, and one task taken
    through its life on it: the inputs at which the theorems about the registry are applied. *)

From stdpp Require Import base numbers option gmap sorting strings vector list.
From S2P Require Import Prelude Bytes Ids Authority Revocation Manifest NodeState Admission Task.
From S2P Require Import Registry Lifecycle Bounds Recovery Answers Provenance.
Import AdmissionExample.

Local Open Scope Z_scope.

(** ** A codec for task records

    A record is the list of its fields' codes, so that its code stays proportional to it. *)
Module RecordCodec.
Fixpoint vec_of (n : nat) (l : list byte) : option (vec byte n) :=
  match n, l with
  | O, [] => Some [#]
  | S n, x :: l => v ← vec_of n l; Some (x ::: v)
  | _, _ => None
  end.
Lemma vec_of_list n (v : vec byte n) : vec_of n (vec_to_list v) = Some v.
Proof. induction v as [|x n v IH]; cbn; [done|]. by rewrite IH. Qed.
#[export] Instance hash_countable : Countable (vec byte 32).
Proof. apply (inj_countable vec_to_list (vec_of 32)). apply vec_of_list. Defined.

#[export] Instance TaskBinding_countable : Countable TaskBinding.
Proof.
  apply (inj_countable' (λ b, [tb_task b; tb_attempt b; tb_lease b])
           (λ l, match l with [t; a; x] => MkBinding t a x | _ => MkBinding 0 0 0 end)).
  by intros [].
Defined.
Definition state_code (s : RecordedState) : N :=
  match s with RecCreated => 0 | RecReady => 1 | RecLaunching => 2 | RecRunning => 3 | RecPaused => 4
             | RecStopped => 5 | RecExited => 6 | RecRevoked => 7 | RecSealed => 8 end.
Definition code_state (n : N) : RecordedState :=
  match n with 0 => RecCreated | 1 => RecReady | 2 => RecLaunching | 3 => RecRunning | 4 => RecPaused
             | 5 => RecStopped | 6 => RecExited | 7 => RecRevoked | _ => RecSealed end%N.
#[export] Instance RecordedState_countable : Countable RecordedState.
Proof. apply (inj_countable' state_code code_state). by intros []. Defined.
#[export] Instance Outcome_countable : Countable TaskExecutionOutcome.
Proof.
  apply (inj_countable' (λ o, match o with Completed => 0 | Failed => 1 | Unknown => 2 end%N)
           (λ n, match n with 0 => Completed | 1 => Failed | _ => Unknown end%N)).
  by intros [].
Defined.
#[export] Instance IsolationLevel_countable : Countable IsolationLevel.
Proof.
  apply (inj_countable' (λ o, match o with Sandbox => 0 | Container => 1 | Microvm => 2 | Vm => 3 end%N)
           (λ n, match n with 0 => Sandbox | 1 => Container | 2 => Microvm | _ => Vm end%N)).
  by intros [].
Defined.

#[export] Instance CapabilityGrant_countable : Countable CapabilityGrant.
Proof.
  apply (inj_countable
    (λ g, [encode (capability_str (g_capability g)); encode (resource_str (g_resource g)); encode (g_delegable g)])
    (λ l, match l with
          | [a; b; c] => a ← decode a; b ← decode b; c ← decode c;
                         Some (MkGrant (MkCapabilityName a) (MkResourceRef b) c)
          | _ => None end)).
  intros [[] [] ?]; cbn; by rewrite !decode_encode.
Defined.
#[export] Instance RecordedLease_eq : EqDecision RecordedLease.
Proof. solve_decision. Defined.
#[export] Instance RecordedLease_countable : Countable RecordedLease.
Proof.
  apply (inj_countable
    (λ l, [encode (rl_lease l); encode (rl_delegation l); encode (rl_issuer l); encode (rl_subject l);
           encode (rl_parent_lease l); encode (rl_delegated_by l); encode (A := list CapabilityGrant) (rl_grants l);
           encode (rl_issued_at l); encode (rl_expires_at l); encode (rl_version l)])
    (λ l, match l with
          | [a; b; c; d; e; f; g; h; i; j] =>
              a ← decode a; b ← decode b; c ← decode c; d ← decode d; e ← decode e; f ← decode f;
              g ← decode (A := list CapabilityGrant) g; h ← decode h; i ← decode i; j ← decode j;
              Some (MkRecordedLease a b c d e f g h i j)
          | _ => None end)).
  intros x. cbv beta iota. rewrite !decode_encode. by destruct x.
Defined.
#[export] Instance AuthorityRecord_eq : EqDecision AuthorityRecord.
Proof. solve_decision. Defined.
#[export] Instance AuthorityRecord_countable : Countable AuthorityRecord.
Proof.
  apply (inj_countable
    (λ x, [encode (ar_lease x); encode (ar_lineage x); encode (ar_issued_at x); encode (ar_expires_at x);
           encode (ar_version x); encode (ar_admitted_at x)])
    (λ l, match l with
          | [a; b; c; d; e; f] =>
              a ← decode a; b ← decode b; c ← decode c; d ← decode d; e ← decode e; f ← decode f;
              Some (MkAuthorityRecord a b c d e f)
          | _ => None end)).
  intros x. cbv beta iota. rewrite !decode_encode. by destruct x.
Defined.
#[export] Instance IssuerProof_countable : Countable IssuerProof.
Proof.
  apply (inj_countable
    (λ x, [encode (ip_key_id x); encode (ip_signature x)])
    (λ l, match l with [a; b] => a ← decode a; b ← decode b; Some (MkProof a b) | _ => None end)).
  intros x. cbv beta iota. rewrite !decode_encode. by destruct x.
Defined.
#[export] Instance AdmitRecord_eq : EqDecision AdmitRecord.
Proof. solve_decision. Defined.
#[export] Instance AdmitRecord_countable : Countable AdmitRecord.
Proof.
  apply (inj_countable
    (λ x, [encode (ad_operation x); encode (ad_envelope x); encode (ad_proof x); encode (ad_session x);
           encode (ad_authority x)])
    (λ l, match l with
          | [a; b; c; d; e] =>
              a ← decode a; b ← decode b; c ← decode c; d ← decode d; e ← decode e; Some (MkAdmit a b c d e)
          | _ => None end)).
  intros x. cbv beta iota. rewrite !decode_encode. by destruct x.
Defined.
#[export] Instance SealRecord_eq : EqDecision SealRecord.
Proof. solve_decision. Defined.
#[export] Instance SealRecord_countable : Countable SealRecord.
Proof. apply (inj_countable' (λ x, (sl_by x, sl_order x)) (λ '(a, b), MkSeal a b)). by intros []. Defined.
#[export] Instance CapsuleRecord_eq : EqDecision CapsuleRecord.
Proof. solve_decision. Defined.
#[export] Instance CapsuleRecord_countable : Countable CapsuleRecord.
Proof. apply (inj_countable' (λ x, (cr_backend x, cr_isolation x)) (λ '(a, b), MkCapsule a b)). by intros []. Defined.
#[export] Instance TaskRecord_eq : EqDecision TaskRecord.
Proof. solve_decision. Defined.
#[export] Instance TaskRecord_countable : Countable TaskRecord.
Proof.
  apply (inj_countable
    (λ x, [encode (tr_format x); encode (tr_binding x); encode (tr_state x); encode (tr_created_by x);
           encode (tr_admitted x); encode (tr_started_by x); encode (tr_stopped_by x); encode (tr_paused_by x);
           encode (tr_resumed_by x); encode (tr_revoked_by x); encode (tr_sealed x); encode (tr_outcome x);
           encode (tr_workspace x); encode (tr_process x); encode (tr_usage x); encode (tr_capsule x)])
    (λ l, match l with
          | [a; b; c; d; e; f; g; h; i; j; k; m; n; o; p; q] =>
              a ← decode a; b ← decode b; c ← decode c; d ← decode d; e ← decode e; f ← decode f;
              g ← decode g; h ← decode h; i ← decode i; j ← decode j; k ← decode k; m ← decode m;
              n ← decode n; o ← decode o; p ← decode p; q ← decode q;
              Some (MkRecord a b c d e f g h i j k m n o p q)
          | _ => None end)).
  intros x. cbv beta iota. rewrite !decode_encode. by destruct x.
Defined.
#[export] Instance record_codec : Codec TaskRecord := countable_codec TaskRecord.
#[export] Instance record_laws : CodecLaws TaskRecord := countable_codec_laws TaskRecord.
End RecordCodec.
Import RecordCodec.

(** ** A node and its first task *)
Module Node.
Definition ex0 : NodeExecution :=
  MkExecution [BUBBLEWRAP; RUNC] Refused true true (Some (MkLimits 1 0 0))
    (Some (MkEnforcement (MkResourceCaps true true true) (MkCapacity 4 1073741824))) true true
    (node_credentials admission0) None.
Definition world0 : World := MkWorld ∅ 0 ∅ [] [].
Definition writes0 (_ : TaskId) : Outcome := Written.
Definition evidence0 (_ : TaskId) : bool := true.
Definition start_on (d : RecordsDir) (w : World) : result TaskRecordError Registry :=
  recover 2 admission0 (Some ex0) PathAbsent d writes0 evidence0 w.
Definition fallback : Registry := with_capacity 0 world0.
Definition up (x : result TaskRecordError Registry) : Registry :=
  match x with Ok r => r | Err _ => fallback end.
Definition node0 : Registry := up (start_on (MkDir ∅ []) world0).

Definition io0 : Io :=
  MkIo 2500 Written Written Written Written Written Written Written true true true None None true true
    true true true true true (SpawnOk 4242 (Some 77)).
Abbreviation step0 := (step blake ed parse_m parse_e launch0).
Abbreviation node_step0 := (node_step blake ed parse_m parse_e launch0).
Abbreviation serve0 := (serve blake ed parse_m parse_e launch0 true).
Definition ask (req : Request) (r : Registry) : Registry := (serve0 req io0 r).2.
Definition created : Registry := ask (ReqCreate 1 binding0) node0.
Definition ready : Registry := ask (ReqAdmit 2 binding0 (bytes "envelope") proof0) created.
Definition running : Registry := ask (ReqStart 3 binding0) ready.
Definition paused : Registry := ask (ReqPause 4 binding0) running.
Definition ended : Registry := (reap binding0 0 (WorkloadExited (Some 0)) None io0 paused).2.
Definition sealed_ : Registry := ask (ReqSeal 5 binding0) ended.
End Node.
Import Node.

Lemma node0_up : start_on (MkDir ∅ []) world0 = Ok node0.
Proof. vm_compute. reflexivity. Qed.
Lemma once0 : once world0.
Proof. split; [apply NoDup_nil_2|]. intros ws Hws. by apply elem_of_nil in Hws. Qed.
Lemma limits0 : limits_ok (Some ex0).
Proof. intros e l [= <-] [= <-]. reflexivity. Qed.
Lemma asks v req io r : node_step0 r (serve blake ed parse_m parse_e launch0 v req io r).2.
Proof. apply ns_step, step_serve. Qed.
Lemma to_ready : rtc node_step0 node0 ready.
Proof. eapply rtc_l; [apply asks|]. eapply rtc_l; [apply asks|]. apply rtc_refl. Qed.
Lemma to_running : rtc node_step0 node0 running.
Proof. eapply rtc_r; [apply to_ready|apply asks]. Qed.
Lemma to_ended : rtc node_step0 node0 Node.ended.
Proof.
  eapply rtc_r; [eapply rtc_r; [apply to_running|apply asks]|]. apply ns_step, step_reap.
Qed.
Lemma keyed0 : keyed node0.
Proof. apply (ni_keyed _ (recover_inv _ _ _ _ _ _ _ _ _ node0_up once0 limits0)). Qed.
Lemma keyed_ready : keyed ready.
Proof. apply (ni_keyed _ (node_steps_inv _ _ _ _ _ _ _ (recover_inv _ _ _ _ _ _ _ _ _ node0_up once0 limits0) to_ready)). Qed.


Lemma attempts_run_once_witness :
  NoDup (w_spawned (reg_world running)) ∧ w_spawned (reg_world running) = [(5%N, 1%N)].
Proof.
  split; [|vm_compute; reflexivity].
  apply (attempts_run_once blake ed parse_m parse_e launch0 _ _ _ _ _ _ _ _ node0 running node0_up once0 limits0).
  apply to_running.
Defined.

Lemma node_stays_within_bounds_witness :
  (size (reg_tasks running) ≤ 2)%nat ∧ Z.of_nat (executing running) ≤ 1 ∧ executing running = 1%nat.
Proof.
  destruct (node_stays_within_bounds blake ed parse_m parse_e launch0 _ _ _ _ _ _ _ _ node0 running node0_up
              once0 limits0 to_running) as [Hs Hr].
  split_and!; [exact Hs| |vm_compute; reflexivity]. by apply (Hr ex0 (MkLimits 1 0 0)).
Defined.

(** The records a node leaves when it stops. *)
Definition left_by (r : Registry) : RecordsDir := default (MkDir ∅ []) (reg_store r).
Lemma came_up x : (if x is Ok _ then true else false) = true → x = Ok (up x).
Proof. by destruct x. Qed.
Lemma left_by_store r : (if reg_store r is Some _ then true else false) = true → reg_store r = Some (left_by r).
Proof. unfold left_by. by destruct (reg_store r). Qed.
Lemma restart_recovers_witness :
  view running 5 = Some (1%N, Running) ∧
  executing (up (start_on (left_by running) (reg_world running))) = 0%nat ∧
  restart_view (λ a, (5%N, a) ∈ w_spawned (reg_world running)) (Some (1%N, Running)) (Some (1%N, Exited)) ∧
  ∃ t', reg_tasks (up (start_on (left_by running) (reg_world running))) !! 5%N = Some t' ∧ tstate t' = Exited ∧
    rc_outcome <$> receipt t' = Some Unknown.
Proof.
  split; [vm_compute; reflexivity|].
  assert (start_on (left_by running) (reg_world running)
          = Ok (up (start_on (left_by running) (reg_world running)))) as Hup
    by (apply came_up; vm_compute; reflexivity).
  assert (reg_store running = Some (left_by running)) as Hst by (apply left_by_store; vm_compute; reflexivity).
  destruct (restart_recovers blake ed parse_m parse_e launch0 _ _ _ _ _ _ _ _ node0 running _ _ _ _ _ _ _ _
              node0_up once0 limits0 to_running Hst Hup) as (He & Hv & Hrec & _).
  split; [exact He|]. specialize (Hv 5%N). split; cycle 1.
  { assert (∃ t, reg_tasks running !! 5%N = Some t ∧ raw running 5%N = Some (record_of t) ∧ tstate t = Running ∧
              is_Some (admit_rec t)) as (t & Ht & Hraw & Hs & [ad Had])
      by (vm_compute; eexists; split; [reflexivity|]; split; [reflexivity|]; split; [reflexivity|]; eexists; reflexivity).
    destruct (Hrec 5%N t Ht Hraw) as (t' & Ht' & _ & Hs' & _ & _ & Hl & _).
    exists t'. rewrite Hs in Hs', Hl. rewrite (Hl eq_refl), Had. auto. }
  assert (view running 5 = Some (1%N, Running)) as E1 by (vm_compute; reflexivity).
  assert (view (up (start_on (left_by running) (reg_world running))) 5 = Some (1%N, Exited)) as E2
    by (vm_compute; reflexivity).
  rewrite E1, E2 in Hv. exact Hv.
Defined.

Lemma asked req r x : (serve0 req io0 r).1 = x → serve0 req io0 r = (x, ask req r).
Proof. unfold ask. intros <-. by destruct (serve0 req io0 r). Qed.
Lemma replies_are_faithful_witness :
  accepted_post ready binding0 Running running ∧ running ≠ ready.
Proof.
  assert (serve0 (ReqStart 3 binding0) io0 ready = (inl (Accepted 3 binding0 Running), running)) as Hs
    by (apply asked; vm_compute; reflexivity).
  assert (is_Some (reg_store ready)) as Hst by (eexists; apply left_by_store; vm_compute; reflexivity).
  destruct (replies_are_faithful blake ed parse_m parse_e launch0 true (ReqStart 3 binding0) io0 ready
              (inl (Accepted 3 binding0 Running)) running keyed_ready Hst (or_introl Hs)) as (_ & s & Hs' & Ha).
  cbn in Hs'. subst s. split; [exact Ha|].
  intros E. apply (f_equal (λ r, length (w_spawned (reg_world r)))) in E. vm_compute in E. discriminate E.
Defined.


Lemma spawns_are_authorised_witness :
  ∃ b t ad now, workspace_of b = (5%N, 1%N) ∧ reg_tasks ready !! tb_task b = Some t ∧ tstate t = Ready ∧
    admitted t = Some ad ∧ is_active_at (tt_lease (v_authority (at_verified ad))) now = true.
Proof.
  assert (w_spawned (reg_world running) = [(5%N, 1%N)]) as E1 by (vm_compute; reflexivity).
  assert (w_spawned (reg_world ready) = []) as E2 by (vm_compute; reflexivity).
  destruct (spawns_are_authorised blake ed parse_m parse_e launch0 _ _ _ _ _ _ _ _ node0 ready running node0_up
              once0 limits0 to_ready (step_serve _ _ _ _ _ _ _ _ _))
    as [E|(b & t & ad & adm & adm0 & now & now0 & e & cap & rec & Hsp & Ht & _ & Hs & Had & _ & _ & _ & _ & Ha & _)].
  - rewrite E1, E2 in E. discriminate E.
  - exists b, t, ad, now. rewrite E1, E2 in Hsp. cbn [app] in Hsp.
    split_and!; [congruence|exact Ht|exact Hs|exact Had|exact Ha].
Defined.
